(* ===== verification/_CoqProject ===== *)
-Q . S2P
Prelude.v
Crc32.v
Engine.v
Handles.v
Keys.v
FieldCodec.v
FieldStorage.v
FieldJson.v
CommandEntry.v
CommandLog.v
LogNames.v
SyncLoop.v
Replay.v
Proto.v
Partitions.v
Replicator.v
StorageServer.v
Replication.v
WalReplicator.v
PartitionReplicator.v
SstTransfer.v
MigrationManager.v
HashRing.v
MetaStore.v
MetaRouter.v
EtcdWatch.v
MetaServer.v
NodeLifecycle.v
MigrationScheduler.v
Failover.v
Shutdown.v
MigrationController.v
ComputeRouter.v
Loops.v
ComputeServer.v
EndToEnd.v
ReplicaReads.v
LiveMigration.v
Metrics.v
Client.v
Uri.v
Cli.v
Leader.v
MetaLifecycle.v
Programs.v
