(* ===== verification/Prelude.v ===== *)
(** * RocksKV: a verification development

    RocksKV is a distributed key-value store in Go.  Storage nodes keep the data
    of 4096 partitions in RocksDB and replicate each partition from its primary
    to one replica through a command log; a metadata service keeps the route
    table in etcd and places partitions with a consistent-hash ring; compute
    nodes route client requests.  This development models the storage layer, the
    metadata layer and the compute layer as executable functions translated from
    the sources, and proves what makes them correct.

    ** Files, in order, and the code they model

    - [Prelude]: Go errors, outcomes (value, error or panic), machine integers
      with their wrap-around, bytes, big-endian integers, slices, decimal
      numbers, the byte order, tactics and hints.
    - [Crc32]: hash/crc32.ChecksumIEEE, used by the command log and the ring.
    - [Engine]: RocksDB as a class of operations with laws ([EngineLaws]), an
      instance with scripted faults ([MemDB]), and the wrapper
      [storage/rocksdb.go].
    - [Handles]: the native objects that the methods of the wrapper make, use and
      destroy ([storage/rocksdb.go]).
    - [Keys]: partition keys and field keys ([storage/partition.go],
      [storage/field_storage.go]).
    - [FieldCodec]: the encodings of field batches and attribute groups
      ([storage/field_storage.go]).
    - [FieldStorage]: the field store over the engine
      ([storage/field_storage.go]).
    - [FieldJson]: documents as JSON over an interface of encoding/json
      ([storage/field_storage.go]).
    - [CommandEntry], [CommandLog], [Replay]: the entry format, the log files
      with their buffer, rotation, recovery and reads, and the replay
      ([storage/command_log.go]).
    - [LogNames]: the names of the log files, and why the log can know a file by
      its number ([storage/command_log.go]).
    - [SyncLoop]: the background sync beside the operations of the log
      ([storage/command_log.go]).
    - [Proto]: the messages of [proto/rockskv.proto].
    - [Partitions]: the partition manager ([storage/partition.go]).
    - [Replicator]: checkpoints, batches and the sync round
      ([storage/command_log_replicator.go]).
    - [StorageServer]: the handlers, the node lease and the reaction to route
      updates ([storage/server.go]).
    - [Replication]: a replicator and the server of its replica over a network
      that loses requests and replies.
    - [WalReplicator], [PartitionReplicator]: the two replicators that no
      production code starts, against the same replica and network
      ([storage/wal_replicator.go], [storage/replication.go]).
    - [SstTransfer]: the export and the ingestion of a partition
      ([storage/server.go]).
    - [MigrationManager]: the copy of a partition between two nodes, its batched
      deletion and its size ([storage/migration.go]).
    - [HashRing]: the ring ([metadata/consistent_hash.go]).
    - [MetaStore]: the data and the interface [Store] of [metadata/store.go] as
      a class with laws, and [EtcdStore] of [metadata/etcd.go] as its instance
      over a class of etcd calls, with an etcd to run ([MemEtcd]).
    - [MetaRouter]: placement, promotion, migration and rebalancing
      ([metadata/router.go]).
    - [EtcdWatch]: the watches of etcd, from a written table to the router that
      applies it, and the compaction of the history ([metadata/etcd.go],
      [metadata/etcd_compact.go]).
    - [MetaServer]: registration and route distribution
      ([metadata/server.go]), and what a published table does to a storage node.
    - [NodeLifecycle]: how a storage node is made, registers, follows the route
      updates and stops, with the handles it opens ([storage/server.go],
      [storage/rocksdb.go], [storage/types.go]).
    - [MigrationScheduler]: the task queue and its goroutines
      ([metadata/migration_scheduler.go]).
    - [Failover]: health tracking and promotion after a failure
      ([metadata/failover.go]).
    - [Shutdown]: the controlled removal of a node, router and scheduler together
      ([metadata/router.go], [metadata/server.go]).
    - [MigrationController]: the rebalancing plan, its executor and the copy of a
      partition between two storage servers ([metadata/migration.go]).
    - [ComputeRouter]: the route cache of a compute node, composed with the
      metadata router that feeds it ([compute/router.go]).
    - [Loops]: the loops of the failover manager and of the route cache over what
      wakes them ([metadata/failover.go], [compute/router.go]).
    - [ComputeServer]: the connection pool, the resolver and the request handlers
      over an interface of storage calls, instantiated with a cluster of storage
      servers ([compute/pool.go], [compute/server.go]).
    - [EndToEnd]: metadata service, storage nodes and a compute node put together,
      from an initialised cluster to the answers of a client.
    - [ReplicaReads]: replication, the disappearance of a primary and the reads of
      the compute layer put together.
    - [LiveMigration]: the copy of a partition, the switch of its route and the
      answers of the cluster before and after.
    - [Metrics]: the gauges and the request counters with the code that updates
      them ([common/metrics.go], the interceptors, [storage/partition.go],
      [compute/pool.go]).
    - [Client]: the two client libraries over an interface of calls to compute
      nodes, instantiated with a set of compute servers
      ([sdk/go/rockskv/client.go], [client/client.go]).
    - [Uri]: the connection URIs of the SDK, with the parts of net/url, strconv and
      time they use ([sdk/go/rockskv/uri.go]).
    - [Cli]: the command-line client over the client library and the messages of
      the metadata service ([cmd/cli/main.go]).
    - [Leader]: the leader election of the metadata servers and the checks built
      on it ([metadata/leader.go], [metadata/ha_server.go]).
    - [MetaLifecycle]: how a metadata server is made, starts, serves the
      subscriptions of storage nodes and stops ([metadata/server.go],
      [metadata/etcd.go], [metadata/ha_server.go]).
    - [Programs]: [main] and [loadConfig] of the three servers over an interface
      of the configuration library ([cmd/storage], [cmd/metadata],
      [cmd/compute]).

    ** How code is modelled

    A method is a function from the receiver's state and its arguments to the new
    state and the results.  State that the sources share through pointers (the
    database between the partition manager and field stores, the store between
    the metadata server and its router) is one value.  A
    request is one step: the handlers of a storage node are not interleaved with
    each other.  That is a simplification, since gRPC runs them concurrently and
    only the partition map, the command log, the lease and the replicators are behind
    locks, each for itself; the queue of the scheduler and the books of a migration
    are under a lock of their own, and their goroutines do interleave here.  Where
    code depends on something that happens between calls (the flush of a buffer, the
    delivery of a watch event, a crash, the loss of a message) it is an explicit
    step.  Enumerations of the messages are closed, with the values the sources
    name; only the kind of a replicated operation can also be an unnamed number,
    since the server has a branch for it.  What the outside world
    answers (time, disk, network) is an argument: [Env], [SyncEnv], [RouteEnv],
    the fault scripts.  Loops that are not structural carry fuel, chosen so that
    it cannot run out: a decoder consumes at least the header of an entry per
    turn and gets the length of the input, the binary search halves an interval
    and gets its length, decimal printing gets the 20 digits of a 64-bit number;
    the lemmas [sort_Search_spec], [decode_loop]'s and [ReadFrom_spec]'s rely on
    it.  Logging and locks are left out; what is counted is in [Metrics].

    Goroutines are modelled where the code depends on how they interleave: a
    goroutine of the scheduler or of the controller has a phase and a step takes
    it to the next one ([MigrationScheduler_executeMigration], [goroutine_step]),
    the sync loop of a log and the election have program counters
    ([background_step], [LeaderElection_runElection], [LeaderElection_Stop]), the
    calls of [Enqueue] take their offset and reach the channel in two steps
    ([queue_reach]), the messages
    between the metadata service and a compute node are part of the state
    ([route_step]), and the goroutines of a batch run in any order ([sched]).
    The order of a range loop over a map is an argument ([order]).

    RocksDB, gRPC and etcd are parameters: [Engine], [SstEngine], [Network],
    [StorageNet], [StorageRPC], [MetadataRPC], [KVService], [EtcdClient], [EtcdDial],
    [Election], [Viper], [Json], with the documented behaviour the code relies on as class
    laws; xxhash is the argument [Sum64].

    ** What the theorems show

    - The whole system: a client of a fresh cluster, whatever keys its operations
      touch and whichever nodes hold them, gets the answers of one map from keys
      to values and from keys to documents.  Moving a partition that has data to
      another node does not change an answer.  When a primary is gone, its replica
      answers from a prefix of its log that has everything recorded as replicated.
    - Formats: decoders accept exactly the encodings; a torn log file decodes to
      its whole entries; where a decoder panics, accepts truncated input or
      confuses two keys is characterised exactly.
    - The command log: every run of appends, syncs, closes and crashes is a run of an
      abstract log, where an acknowledged command is added at the end and a crash
      keeps a prefix that has what was synced; what was acknowledged
      before a turn of the background loop is kept by every later crash; the index and the full
      scan read the same entries; replay applies a suffix in order; the sorted
      listing of the directory is the order of the file numbers.
    - The field store refines a store of documents; a JSON document comes back as
      it was stored, without the internal names.
    - Write handlers on every branch, and reads that see acknowledged writes.
    - Replication refines a log prefix under message loss, and catches up on a
      network that delivers, for a replica that accepts its batches.  The queued
      replicator delivers in order what it accepted while nothing is lost.
    - The ring refines the set of its members; joins and departures move only
      the partitions they must.
    - The metadata store satisfies its interface under failed and lost writes;
      initialisation is two-phase safe; epochs are fencing tokens when every
      written table reaches the router before the next operation.  The router
      follows the watch to the newest table unless the channel overflows, and goes
      back only after an allocation it installed itself; a
      subscribed storage node hosts what the last table it was sent gives it.
    - The migration queue: its invariant under every interleaving, the bound on
      active migrations, the life of a task, and that the queue drains.  The
      rebalancing plan is exactly the misplaced roles, the executor's books
      balance, and a complete transfer copies a partition.  The copy of the
      migration manager is all or nothing and its deletion ends, exact.
    - Failover promotes exactly the partitions of the failed node when its record can
      be read; a shutdown does what promoting its replicated primaries does and
      plans exactly the moves the other rows call for.
    - The compute layer: the cached routes are always one table the metadata
      router has held; a write reaches the primary only; a batch is atomic per
      partition; a client reads its acknowledged writes through routing,
      connection pool and storage handlers.
    - The clients: a connection URI sets exactly what it says; a write that reports
      success has been executed, through every pattern of failures and retries;
      retries are bounded and back off.
    - Leader election: at most one server leads under a live lease, but for one that
      is resigning and has not cleared its flag.
    - The command line shows the partition and the nodes that the routing uses.
    - The partition gauge, under every sequence of operations, counts the
      partitions of each status, the normal ones in two series.  The interceptors
      change nothing that the handlers do.
    - The background loops: the failover manager never holds a node for failed that
      was not silent; subscriptions never take a cache back; a refresh converges.
    - No method of the wrapper touches a dead native object; what stays alive after
      [Close] is known exactly.
    - Where the code falls short: lost promotions and migrations, epochs that are
      not published, roles that are not updated, skipped batches, a recovery that
      restores no key, heartbeats that are not seen, a cancellation that cancels
      nothing, failed exports that count as migrations, caches that go back,
      servers that can never lead again, a leader that is still one after its
      resignation, a set-if-absent that two clients win,
      deletions that replicate as puts, tables that a watch misses, an empty
      partition that stays read-only after a move, a goroutine and native objects
      that are left behind, gauges that drift, and a storage program whose
      configuration never lets it start.

    ** Not modelled

    Logging; generated protobuf code; the sample program of the SDK; flag parsing
    and usage texts; the listeners and signals of the servers and the pauses between
    attempts; the collectors of Prometheus, and the counters of single storage
    operations.  Methods that only return a field or pass a call on have no
    definition of their own.  The JSON of the records in etcd and the protobuf
    encodings are taken as the identity on typed values.  Floating-point progress
    figures, sizes and time estimates are left out.  RocksDB, etcd, gRPC and the
    configuration library are parameters and not verified here. *)

From stdpp Require Export base gmap strings list sorting pretty.
From Stdlib Require Export ZArith Lia.
From Stdlib Require Strings.Byte.

(** * Scope, errors and outcomes *)

Declare Scope go_scope.
Delimit Scope go_scope with go.
#[global] Open Scope go_scope.
#[global] Open Scope Z_scope.

(** A Go [error] value.  [io.EOF] and [io.ErrUnexpectedEOF] are compared by
    identity in the sources; every other error is known by its text. *)
Inductive goerr :=
  | EOF
  | UnexpectedEOF
  | Errorf (msg : string).

#[global] Instance goerr_eq_dec : EqDecision goerr.
Proof. solve_decision. Defined.

(** The result of a Go call that may return an error or panic. *)
Inductive outcome (A : Type) :=
  | Ret (a : A)
  | Err (e : goerr)
  | Panic.
Arguments Ret {A} _.
Arguments Err {A} _.
Arguments Panic {A}.

#[global] Instance outcome_eq_dec {A} `{EqDecision A} : EqDecision (outcome A).
Proof. solve_decision. Defined.

#[global] Instance outcome_ret : MRet outcome := λ A a, Ret a.
#[global] Instance outcome_bind : MBind outcome := λ A B k m,
  match m with Ret a => k a | Err e => Err e | Panic => Panic end.
#[global] Instance outcome_fmap : FMap outcome := λ A B f m,
  match m with Ret a => Ret (f a) | Err e => Err e | Panic => Panic end.

Lemma bind_Ret_inv {A B} (m : outcome A) (k : A → outcome B) b :
  m ≫= k = Ret b ↔ ∃ a, m = Ret a ∧ k a = Ret b.
Proof. destruct m; naive_solver. Qed.

(** * Tactics of the development *)

(** Case analysis on every [match], [if] and [decide] of the goal. *)
Ltac case_split :=
  repeat (case_decide || case_match); simplify_eq/=.

(** Turn the boolean tests of the code into propositions. *)
Ltac unbool :=
  repeat match goal with
  | H : (_ && _)%bool = true |- _ => apply andb_true_iff in H; destruct H
  | H : (_ || _)%bool = false |- _ => apply orb_false_iff in H; destruct H
  | H : negb _ = true |- _ => apply negb_true_iff in H
  | H : negb _ = false |- _ => apply negb_false_iff in H
  | H : (_ =? _) = true |- _ => apply Z.eqb_eq in H
  | H : (_ =? _) = false |- _ => apply Z.eqb_neq in H
  | H : (_ <? _) = true |- _ => apply Z.ltb_lt in H
  | H : (_ <? _) = false |- _ => apply Z.ltb_ge in H
  | H : (_ <=? _) = true |- _ => apply Z.leb_le in H
  | H : (_ <=? _) = false |- _ => apply Z.leb_gt in H
  | H : bool_decide _ = true |- _ => apply bool_decide_eq_true in H
  | H : bool_decide _ = false |- _ => apply bool_decide_eq_false in H
  end.

(** The rewrite database of the byte-level lemmas. *)
Create HintDb rocks.

(** * Machine integers *)

Definition wrap (w z : Z) : Z := z mod 2 ^ w.
Definition u16 (z : Z) : Z := wrap 16 z.
Definition u32 (z : Z) : Z := wrap 32 z.
Definition u64 (z : Z) : Z := wrap 64 z.
(** Two's complement reading of a 64-bit pattern, Go's [int64(x)]. *)
Definition i64 (z : Z) : Z := (z + 2 ^ 63) mod 2 ^ 64 - 2 ^ 63.
(** Go's [int32(x)]. *)
Definition i32 (z : Z) : Z := (z + 2 ^ 31) mod 2 ^ 32 - 2 ^ 31.

Definition is_u16 (z : Z) : Prop := 0 ≤ z < 2 ^ 16.
Definition is_u32 (z : Z) : Prop := 0 ≤ z < 2 ^ 32.
Definition is_u64 (z : Z) : Prop := 0 ≤ z < 2 ^ 64.
Definition is_i64 (z : Z) : Prop := - 2 ^ 63 ≤ z < 2 ^ 63.

#[global] Instance is_u16_dec z : Decision (is_u16 z).
Proof. unfold is_u16. apply _. Defined.
#[global] Instance is_u32_dec z : Decision (is_u32 z).
Proof. unfold is_u32. apply _. Defined.
#[global] Instance is_u64_dec z : Decision (is_u64 z).
Proof. unfold is_u64. apply _. Defined.
#[global] Instance is_i64_dec z : Decision (is_i64 z).
Proof. unfold is_i64. apply _. Defined.

Lemma u32_small z : is_u32 z → u32 z = z.
Proof. intros. by apply Z.mod_small. Qed.
Lemma u64_small z : is_u64 z → u64 z = z.
Proof. intros. by apply Z.mod_small. Qed.
Lemma u32_range z : is_u32 (u32 z).
Proof. apply Z.mod_pos_bound. lia. Qed.

Lemma i64_small z : is_i64 z → i64 z = z.
Proof. unfold is_i64, i64. intros. rewrite Z.mod_small; lia. Qed.
Lemma i32_small z : - 2 ^ 31 ≤ z < 2 ^ 31 → i32 z = z.
Proof. unfold i32. intros. rewrite Z.mod_small; lia. Qed.
Lemma i64_add_l y z : i64 (i64 y + z) = i64 (y + z).
Proof.
  unfold i64. f_equal. replace ((y + 2 ^ 63) mod 2 ^ 64 - 2 ^ 63 + z + 2 ^ 63) with ((y + 2 ^ 63) mod 2 ^ 64 + z) by ring.
  rewrite Zplus_mod_idemp_l. f_equal. ring.
Qed.

Lemma i64_u64 z : is_i64 z → i64 (u64 z) = z.
Proof.
  unfold is_i64, i64, u64, wrap. intros Hz.
  rewrite Zplus_mod_idemp_l, Z.mod_small; lia.
Qed.

(** * Bytes *)

Abbreviation byte := Byte.byte.
Abbreviation bytes := (list Byte.byte).

#[global] Instance byte_eq_dec : EqDecision byte := Byte.byte_eq_dec.
#[global] Instance byte_inhabited : Inhabited byte := populate Byte.x00.
#[global] Instance byte_countable : Countable byte :=
  inj_countable Byte.to_N Byte.of_N Byte.of_to_N.

Definition byte_Z (b : byte) : Z := Z.of_N (Byte.to_N b).
Definition Z_byte (z : Z) : byte :=
  default Byte.x00 (Byte.of_N (Z.to_N (z mod 256))).

(** [len] is Go's [len] of a slice or string. *)
Definition len {A} (l : list A) : Z := Z.of_nat (length l).

Lemma byte_Z_range b : 0 ≤ byte_Z b < 256.
Proof. unfold byte_Z. pose proof (Byte.to_N_bounded b). lia. Qed.

Lemma byte_Z_of z : byte_Z (Z_byte z) = z mod 256.
Proof.
  unfold byte_Z, Z_byte. pose proof (Z.mod_pos_bound z 256 ltac:(lia)).
  destruct (Byte.of_N _) as [b|] eqn:E; simpl.
  - apply Byte.to_of_N in E. rewrite E. lia.
  - apply Byte.of_N_None_iff in E. lia.
Qed.

Lemma byte_Z_inj b c : byte_Z b = byte_Z c → b = c.
Proof.
  unfold byte_Z. intros H%N2Z.inj.
  pose proof (Byte.of_to_N b). pose proof (Byte.of_to_N c). congruence.
Qed.

Lemma Z_byte_of b : Z_byte (byte_Z b) = b.
Proof.
  apply byte_Z_inj. rewrite byte_Z_of. apply Z.mod_small, byte_Z_range.
Qed.

Lemma len_app {A} (l k : list A) : len (l ++ k) = len l + len k.
Proof. unfold len. rewrite length_app. lia. Qed.
Lemma len_cons {A} (x : A) l : len (x :: l) = 1 + len l.
Proof. unfold len. simpl. lia. Qed.
Lemma len_nil {A} : len (@nil A) = 0.
Proof. done. Qed.
Lemma len_nonneg {A} (l : list A) : 0 ≤ len l.
Proof. unfold len. lia. Qed.
#[export] Hint Rewrite @len_app @len_cons @len_nil : rocks.
#[export] Hint Resolve len_nonneg : rocks.

(** * Big-endian integers: [encoding/binary.BigEndian] *)

Fixpoint be_bytes (n : nat) (z : Z) : bytes :=
  match n with
  | O => []
  | S m => Z_byte (Z.shiftr z (8 * Z.of_nat m)) :: be_bytes m z
  end.

Fixpoint be_val (bs : bytes) : Z :=
  match bs with
  | [] => 0
  | b :: r => Z.lor (Z.shiftl (byte_Z b) (8 * len r)) (be_val r)
  end.

Lemma length_be_bytes n z : length (be_bytes n z) = n.
Proof. induction n; simpl; congruence. Qed.

Lemma len_be_bytes n z : len (be_bytes n z) = Z.of_nat n.
Proof. unfold len. by rewrite length_be_bytes. Qed.
#[export] Hint Rewrite length_be_bytes len_be_bytes : rocks.

Lemma lor_shiftl_add a b n :
  0 ≤ n → 0 ≤ b < 2 ^ n → Z.lor (Z.shiftl a n) b = a * 2 ^ n + b.
Proof.
  intros Hn Hb. rewrite <- Z.shiftl_mul_pow2 by done.
  rewrite <- Z.add_lor_land.
  replace (Z.land (Z.shiftl a n) b) with 0; [lia|].
  symmetry. apply Z.bits_inj'. intros i Hi.
  rewrite Z.land_spec, Z.bits_0. destruct (decide (i < n)).
  - by rewrite Z.shiftl_spec_low by lia.
  - rewrite <- (Z.mod_small b (2 ^ n)) by lia.
    rewrite Z.mod_pow2_bits_high by lia. apply andb_false_r.
Qed.

Lemma be_val_bound bs : 0 ≤ be_val bs < 2 ^ (8 * len bs).
Proof.
  induction bs as [|b r IH]; simpl; [done|].
  pose proof (byte_Z_range b). pose proof (len_nonneg r).
  rewrite lor_shiftl_add by lia. rewrite len_cons.
  replace (8 * (1 + len r)) with (8 + 8 * len r) by lia.
  rewrite Z.pow_add_r by lia. change (2 ^ 8) with 256. nia.
Qed.

Lemma be_val_cons b r : be_val (b :: r) = byte_Z b * 2 ^ (8 * len r) + be_val r.
Proof.
  simpl. apply lor_shiftl_add; [pose proof (len_nonneg r); lia|apply be_val_bound].
Qed.

Lemma be_val_be_bytes n z : be_val (be_bytes n z) = z mod 2 ^ (8 * Z.of_nat n).
Proof.
  induction n as [|m IH]; [by rewrite Z.mod_1_r|].
  cbn [be_bytes]. rewrite be_val_cons, IH, len_be_bytes, byte_Z_of.
  rewrite Z.shiftr_div_pow2 by lia.
  replace (8 * Z.of_nat (S m)) with (8 * Z.of_nat m + 8) by lia.
  rewrite (Z.pow_add_r 2 (8 * Z.of_nat m) 8) by lia. change (2 ^ 8) with 256.
  rewrite Z.rem_mul_r by lia. lia.
Qed.

Lemma be_bytes_wrap n z : be_bytes n (z mod 2 ^ (8 * Z.of_nat n)) = be_bytes n z.
Proof.
  assert (∀ m, (m ≤ n)%nat →
    be_bytes m (z mod 2 ^ (8 * Z.of_nat n)) = be_bytes m z) as H; [|by apply H].
  induction m as [|m IH]; intros Hm; [done|]. cbn [be_bytes].
  rewrite IH by lia. f_equal. apply byte_Z_inj. rewrite !byte_Z_of.
  rewrite !Z.shiftr_div_pow2 by lia.
  change 256 with (2 ^ 8). apply Z.bits_inj'. intros i Hi.
  destruct (decide (i < 8)).
  - rewrite !Z.mod_pow2_bits_low by lia.
    rewrite !Z.div_pow2_bits by lia. apply Z.mod_pow2_bits_low. lia.
  - by rewrite !Z.mod_pow2_bits_high by lia.
Qed.

Lemma be_bytes_val n bs : length bs = n → be_bytes n (be_val bs) = bs.
Proof.
  revert bs. induction n as [|n IH]; intros [|b r] Hl; simplify_eq/=; [done|].
  pose proof (byte_Z_range b). pose proof (be_val_bound r).
  fold (len r). pose proof (len_nonneg r).
  rewrite lor_shiftl_add by lia. f_equal.
  - rewrite Z.shiftr_div_pow2, Z.div_add_l, Z.div_small by lia.
    by rewrite Z.add_0_r, Z_byte_of.
  - etransitivity; [|apply (IH r eq_refl)].
    rewrite <- (be_bytes_wrap _ (be_val r)), <- be_bytes_wrap. f_equal.
    fold (len r). by rewrite Z.add_comm, Z_mod_plus_full.
Qed.

Lemma be_bytes_inj n y z :
  0 ≤ y < 2 ^ (8 * Z.of_nat n) → 0 ≤ z < 2 ^ (8 * Z.of_nat n) →
  be_bytes n y = be_bytes n z → y = z.
Proof.
  intros Hy Hz H%(f_equal be_val). rewrite !be_val_be_bytes in H.
  by rewrite !Z.mod_small in H.
Qed.

(** Go's [PutUint32]/[Uint32], [PutUint16]/[Uint16], [PutUint64]/[Uint64]. *)
Definition be16 (z : Z) : bytes := be_bytes 2 z.
Definition be32 (z : Z) : bytes := be_bytes 4 z.
Definition be64 (z : Z) : bytes := be_bytes 8 z.

#[global] Arguments be16 : simpl never.
#[global] Arguments be32 : simpl never.
#[global] Arguments be64 : simpl never.

Lemma be_val_be16 z : is_u16 z → be_val (be16 z) = z.
Proof. intros. unfold be16. rewrite be_val_be_bytes. by apply Z.mod_small. Qed.
Lemma be_val_be32 z : is_u32 z → be_val (be32 z) = z.
Proof. intros. unfold be32. rewrite be_val_be_bytes. by apply Z.mod_small. Qed.
Lemma be_val_be64 z : is_u64 z → be_val (be64 z) = z.
Proof. intros. unfold be64. rewrite be_val_be_bytes. by apply Z.mod_small. Qed.
Lemma be_val_be64_u z : be_val (be64 z) = u64 z.
Proof. apply be_val_be_bytes. Qed.
Lemma length_be16 z : length (be16 z) = 2%nat. Proof. apply length_be_bytes. Qed.
Lemma length_be32 z : length (be32 z) = 4%nat. Proof. apply length_be_bytes. Qed.
Lemma length_be64 z : length (be64 z) = 8%nat. Proof. apply length_be_bytes. Qed.
Lemma len_be16 z : len (be16 z) = 2. Proof. apply len_be_bytes. Qed.
Lemma len_be32 z : len (be32 z) = 4. Proof. apply len_be_bytes. Qed.
Lemma len_be64 z : len (be64 z) = 8. Proof. apply len_be_bytes. Qed.
#[export] Hint Rewrite length_be16 length_be32 length_be64
  len_be16 len_be32 len_be64 : rocks.

Lemma be32_inj y z : is_u32 y → is_u32 z → be32 y = be32 z → y = z.
Proof. apply (be_bytes_inj 4). Qed.

(** * Lexicographic order: Go's comparison of strings and RocksDB's
    bytewise comparator *)

Fixpoint bytes_leb (a b : bytes) : bool :=
  match a, b with
  | [], _ => true
  | _ :: _, [] => false
  | x :: a', y :: b' =>
      if byte_Z x <? byte_Z y then true
      else if byte_Z y <? byte_Z x then false else bytes_leb a' b'
  end.

Definition bytes_le (a b : bytes) : Prop := bytes_leb a b = true.
Definition bytes_lt (a b : bytes) : Prop := ¬ bytes_le b a.

#[global] Instance bytes_le_dec : RelDecision bytes_le.
Proof. intros a b. unfold bytes_le. apply _. Defined.

Lemma bytes_leb_cons x a y b :
  bytes_le (x :: a) (y :: b) ↔ byte_Z x < byte_Z y ∨ (x = y ∧ bytes_le a b).
Proof.
  unfold bytes_le. simpl.
  destruct (Z.ltb_spec (byte_Z x) (byte_Z y)); [naive_solver lia|].
  destruct (Z.ltb_spec (byte_Z y) (byte_Z x)); [naive_solver lia|].
  assert (x = y) as -> by (apply byte_Z_inj; lia). naive_solver lia.
Qed.

#[global] Instance bytes_le_refl : Reflexive bytes_le.
Proof. intros a. induction a; [done|]. apply bytes_leb_cons. auto. Qed.

#[global] Instance bytes_le_trans : Transitive bytes_le.
Proof.
  intros a b c. revert b c. induction a as [|x a IH]; [done|].
  intros [|y b] [|z c]; try done. rewrite !bytes_leb_cons. naive_solver lia.
Qed.

#[global] Instance bytes_le_antisym : AntiSymm (=) bytes_le.
Proof.
  intros a. induction a as [|x a IH]; intros [|y b]; try done.
  rewrite !bytes_leb_cons. naive_solver (lia || f_equal; auto).
Qed.

#[global] Instance bytes_le_total : Total bytes_le.
Proof.
  intros a. induction a as [|x a IH]; intros [|y b]; [by left..|by right|].
  rewrite !bytes_leb_cons. destruct (Z.lt_total (byte_Z x) (byte_Z y)) as [?|[?|?]]; auto.
  assert (x = y) as -> by (by apply byte_Z_inj). destruct (IH b); auto.
Qed.

Lemma bytes_lt_le a b : bytes_lt a b → bytes_le a b.
Proof. unfold bytes_lt. intros. destruct (total bytes_le a b); naive_solver. Qed.
Lemma bytes_lt_ne a b : bytes_lt a b → a ≠ b.
Proof. intros H ->. by apply H. Qed.
Lemma bytes_le_lt_trans a b c : bytes_le a b → bytes_lt b c → bytes_lt a c.
Proof. intros ? H ?. apply H. by etrans. Qed.
Lemma bytes_lt_le_trans a b c : bytes_lt a b → bytes_le b c → bytes_lt a c.
Proof. intros H ? ?. apply H. by etrans. Qed.

Lemma bytes_le_app p a b : bytes_le (p ++ a) (p ++ b) ↔ bytes_le a b.
Proof.
  induction p as [|x p IH]; [done|]. cbn [app]. rewrite bytes_leb_cons, IH.
  naive_solver lia.
Qed.

(** Big-endian encodings compare as the numbers they encode. *)
Lemma be_val_lt_bytes a b ta tb :
  length a = length b → be_val a < be_val b → bytes_lt (a ++ ta) (b ++ tb).
Proof.
  revert b. induction a as [|x a IH]; intros [|y b] Hl Hlt; simplify_eq/=; [done|].
  pose proof (be_val_bound a). pose proof (be_val_bound b).
  change (be_val (x :: a) < be_val (y :: b)) in Hlt. rewrite !be_val_cons in Hlt.
  assert (len a = len b) as Hab by (unfold len; congruence). rewrite Hab in *.
  unfold bytes_lt. rewrite bytes_leb_cons. intros [?|[-> Hle]].
  - nia.
  - apply (IH b); [done|lia|done].
Qed.

Lemma be32_lt y z ta tb :
  is_u32 y → is_u32 z → y < z → bytes_lt (be32 y ++ ta) (be32 z ++ tb).
Proof.
  intros. apply be_val_lt_bytes; [by rewrite !length_be32|].
  by rewrite !be_val_be32.
Qed.

(** * Slices *)

(** [s[lo:hi]]: Go panics unless [0 <= lo <= hi <= len(s)] (the slices cut in
    this program have their capacity equal to their length). *)
Definition slice (s : bytes) (lo hi : Z) : outcome bytes :=
  if (0 <=? lo) && (lo <=? hi) && (hi <=? len s)
  then Ret (take (Z.to_nat (hi - lo)) (drop (Z.to_nat lo) s))
  else Panic.

(** [s[lo:]] *)
Definition slice_from (s : bytes) (lo : Z) : outcome bytes := slice s lo (len s).

(** [s[i]]: Go panics out of range. *)
Definition index (s : bytes) (i : Z) : outcome byte :=
  if 0 <=? i then match s !! Z.to_nat i with Some b => Ret b | None => Panic end
  else Panic.

(** [bytes.HasPrefix(s, p)]. *)
Definition has_prefix (s p : bytes) : bool := bool_decide (take (length p) s = p).

Lemma has_prefix_true s p : has_prefix s p = true ↔ ∃ t, s = p ++ t.
Proof.
  unfold has_prefix. rewrite bool_decide_eq_true. split.
  - intros H. exists (drop (length p) s). rewrite <- H at 1. by rewrite take_drop.
  - intros [t ->]. by rewrite take_app_length.
Qed.

Lemma slice_app a b c :
  slice (a ++ b ++ c) (len a) (len a + len b) = Ret b.
Proof.
  unfold slice. pose proof (len_nonneg a). pose proof (len_nonneg b).
  pose proof (len_nonneg c). rewrite !len_app.
  rewrite !(proj2 (Z.leb_le _ _)) by lia. simpl.
  replace (len a + len b - len a) with (len b) by lia. unfold len.
  by rewrite !Nat2Z.id, drop_app_length, take_app_length.
Qed.

Lemma slice_from_app a b : slice_from (a ++ b) (len a) = Ret b.
Proof.
  pose proof (slice_app a b []) as H. rewrite app_nil_r in H.
  unfold slice_from. by rewrite len_app.
Qed.

Lemma slice_ret s lo hi :
  0 ≤ lo ≤ hi → hi ≤ len s →
  slice s lo hi = Ret (take (Z.to_nat (hi - lo)) (drop (Z.to_nat lo) s)).
Proof. intros. unfold slice. by rewrite !(proj2 (Z.leb_le _ _)) by lia. Qed.

Lemma slice_at a b c lo hi :
  lo = len a → hi = len a + len b → slice (a ++ b ++ c) lo hi = Ret b.
Proof. intros -> ->. apply slice_app. Qed.

Lemma slice_from_at a b lo : lo = len a → slice_from (a ++ b) lo = Ret b.
Proof. intros ->. apply slice_from_app. Qed.

Lemma index_at a x r i : i = len a → index (a ++ x :: r) i = Ret x.
Proof.
  intros ->. unfold index. rewrite (proj2 (Z.leb_le _ _)) by apply len_nonneg.
  unfold len. rewrite Nat2Z.id, lookup_app_r, Nat.sub_diag by lia. done.
Qed.

(** * Strings *)

(** The bytes of a Go string. *)
Definition str_bytes (s : string) : bytes := String.list_byte_of_string s.
Definition bytes_str (b : bytes) : string := String.string_of_list_byte b.

Lemma str_bytes_inj s t : str_bytes s = str_bytes t → s = t.
Proof.
  intros H%(f_equal bytes_str). unfold str_bytes, bytes_str in H.
  by rewrite !String.string_of_list_byte_of_string in H.
Qed.

(** * Decimal numbers: strconv.FormatUint and strconv.ParseUint in base 10 *)

Definition digit_byte (d : Z) : byte := Z_byte (48 + d).

Fixpoint format_loop (fuel : nat) (z : Z) (acc : bytes) : bytes :=
  match fuel with
  | O => acc
  | S n =>
      let acc := digit_byte (z mod 10) :: acc in
      if z <? 10 then acc else format_loop n (z / 10) acc
  end.

(** A [uint64] has at most 20 digits. *)
Definition FormatUint (z : Z) : bytes := format_loop 20 z [].

Fixpoint parse_loop (n : Z) (s : bytes) : option Z :=
  match s with
  | [] => Some n
  | c :: r =>
      let d := byte_Z c - 48 in
      if (0 <=? d) && (d <=? 9) then
        let n := n * 10 + d in
        if 2 ^ 64 <=? n then None else parse_loop n r
      else None
  end.

Definition ParseUint (s : bytes) : option Z :=
  match s with [] => None | _ => parse_loop 0 s end.

Lemma digit_byte_Z d : 0 ≤ d ≤ 9 → byte_Z (digit_byte d) = 48 + d.
Proof. intros. unfold digit_byte. rewrite byte_Z_of. apply Z.mod_small. lia. Qed.

Lemma parse_digit n d r :
  0 ≤ d ≤ 9 → n * 10 + d < 2 ^ 64 → parse_loop n (digit_byte d :: r) = parse_loop (n * 10 + d) r.
Proof.
  intros Hd Hn. cbn [parse_loop]. rewrite digit_byte_Z by done.
  replace (48 + d - 48) with d by lia. rewrite !(proj2 (Z.leb_le _ _)) by lia. cbn [andb].
  by rewrite (proj2 (Z.leb_gt _ _)) by lia.
Qed.

Lemma parse_format_loop fuel z rest :
  0 ≤ z < 10 ^ Z.of_nat fuel → z < 2 ^ 64 →
  parse_loop 0 (format_loop fuel z rest) = parse_loop z rest.
Proof.
  revert z rest. induction fuel as [|fuel IH]; intros z rest Hz Hz2.
  { change (10 ^ Z.of_nat 0) with 1 in Hz. replace z with 0 by lia. done. }
  cbn [format_loop]. destruct (Z.ltb_spec z 10).
  - rewrite Z.mod_small by lia. apply (parse_digit 0); lia.
  - rewrite Nat2Z.inj_succ, Z.pow_succ_r in Hz by lia.
    assert (0 ≤ z / 10 < 10 ^ Z.of_nat fuel) by (split; [apply Z.div_pos|apply Z.div_lt_upper_bound]; lia).
    pose proof (Z.mod_pos_bound z 10). pose proof (Z_div_mod_eq_full z 10).
    rewrite IH, parse_digit; [|lia..]. f_equal. lia.
Qed.

Lemma format_loop_nonempty fuel z acc : acc ≠ [] → format_loop fuel z acc ≠ [].
Proof.
  revert z acc. induction fuel as [|fuel IH]; intros z acc Ha; [done|]. cbn [format_loop].
  case_match; [done|]. by apply IH.
Qed.

(** Printing and reading back a [uint64]. *)
Lemma ParseUint_FormatUint z : is_u64 z → ParseUint (FormatUint z) = Some z.
Proof.
  intros Hz. unfold ParseUint, FormatUint. destruct (format_loop 20 z []) eqn:E.
  - exfalso. cbn [format_loop] in E. case_match; [done|].
    by apply (format_loop_nonempty 19) in E.
  - rewrite <- E. unfold is_u64 in Hz. apply (parse_format_loop 20 z []); lia.
Qed.

(** * Filtered lists *)

Section Filters.
  Context {A : Type} (P : A → Prop) `{∀ x, Decision (P x)}.

Lemma list_filter_all l : Forall P l → filter P l = l.
Proof. induction 1; [done|]. by rewrite filter_cons_True, IHForall. Qed.

Lemma list_filter_none l : Forall (λ x, ¬ P x) l → filter P l = [].
Proof. induction 1; [done|]. by rewrite filter_cons_False. Qed.

Lemma StronglySorted_filter (R : relation A) l : StronglySorted R l → StronglySorted R (filter P l).
Proof.
  induction 1 as [|x l Hs IH Hx]; [constructor|]. rewrite filter_cons. case_decide; [|done].
  constructor; [done|]. rewrite Forall_forall in *. intros y [_ Hy]%list_elem_of_filter. auto.
Qed.

Lemma filter_fmap {B} (Q : B → Prop) `{∀ x, Decision (Q x)} (f : A → B) (l : list A) :
  (∀ x, x ∈ l → P x ↔ Q (f x)) → filter Q (f <$> l) = f <$> filter P l.
Proof.
  induction l as [|x l IH]; intros HPQ; [done|]. rewrite fmap_cons, !filter_cons, IH by set_solver.
  assert (P x ↔ Q (f x)) by set_solver. do 2 case_decide; naive_solver.
Qed.

End Filters.
