(* ===== verification/Crc32.v ===== *)
(** * CRC-32 (IEEE)

    Go's [hash/crc32.ChecksumIEEE], which the command log uses to checksum its
    entries ([src/pkg/storage/command_log.go]) and the metadata service uses as
    the hash of its consistent-hash ring ([src/pkg/metadata/consistent_hash.go]).
    The reflected polynomial is 0xEDB88320; the register starts and ends
    complemented. *)

From S2P Require Import Prelude.

Definition crc_poly : Z := 0xEDB88320.
Definition crc_mask : Z := 0xFFFFFFFF.

(** One bit of the shift register. *)
Definition crc_step (c : Z) : Z :=
  if Z.testbit c 0 then Z.lxor (Z.shiftr c 1) crc_poly else Z.shiftr c 1.

Definition crc_byte (c : Z) (b : byte) : Z :=
  Nat.iter 8 crc_step (Z.lxor c (byte_Z b)).

Definition ChecksumIEEE (bs : bytes) : Z :=
  Z.lxor (foldl crc_byte crc_mask bs) crc_mask.

(** The check value of the CRC-32/ISO-HDLC catalogue entry. *)
Example ChecksumIEEE_check : ChecksumIEEE (str_bytes "123456789") = 0xCBF43926.
Proof. vm_compute. reflexivity. Qed.

Lemma lxor_u32 a b : is_u32 a → is_u32 b → is_u32 (Z.lxor a b).
Proof.
  unfold is_u32. intros Ha Hb.
  rewrite <- (Z.mod_small a (2 ^ 32)), <- (Z.mod_small b (2 ^ 32)) by done.
  rewrite <- !Z.land_ones by lia.
  replace (Z.lxor (Z.land a (Z.ones 32)) (Z.land b (Z.ones 32)))
    with (Z.land (Z.lxor a b) (Z.ones 32)).
  - rewrite Z.land_ones by lia. apply Z.mod_pos_bound. lia.
  - apply Z.bits_inj'. intros i Hi. rewrite ?Z.land_spec, ?Z.lxor_spec, ?Z.land_spec.
    by destruct (Z.testbit a i), (Z.testbit b i), (Z.testbit (Z.ones 32) i).
Qed.

Lemma crc_step_u32 c : is_u32 c → is_u32 (crc_step c).
Proof.
  intros Hc. assert (is_u32 (Z.shiftr c 1)) as Hs.
  { unfold is_u32 in *. rewrite Z.shiftr_div_pow2 by lia. change (2 ^ 1) with 2.
    split; [apply Z.div_pos; lia|apply Z.div_lt_upper_bound; lia]. }
  unfold crc_step. case_match; [|done]. apply lxor_u32; [done|]. by vm_compute.
Qed.

Lemma crc_byte_u32 c b : is_u32 c → is_u32 (crc_byte c b).
Proof.
  intros Hc. unfold crc_byte.
  assert (is_u32 (Z.lxor c (byte_Z b))) as H.
  { apply lxor_u32; [done|]. pose proof (byte_Z_range b). unfold is_u32. lia. }
  generalize 8%nat. intros n. induction n; simpl; [done|]. by apply crc_step_u32.
Qed.

(** The checksum fits the 4 bytes the log reserves for it. *)
Lemma ChecksumIEEE_u32 bs : is_u32 (ChecksumIEEE bs).
Proof.
  apply lxor_u32; [|by vm_compute].
  assert (is_u32 crc_mask) as H by by vm_compute. revert H.
  generalize crc_mask. induction bs as [|b bs IH]; intros c Hc; [done|].
  apply IH. by apply crc_byte_u32.
Qed.
#[export] Hint Resolve ChecksumIEEE_u32 : rocks.
