(* ===== verification/Engine.v ===== *)
(** * The storage engine

    grocksdb (RocksDB) is a third-party package: it appears here as the class
    [Engine] of the operations the program calls, with the class [EngineLaws]
    of the documented behaviour it relies on.  The instance [MemDB] shows the
    laws can hold, with scripted write faults and read faults so that the
    error paths can be run.

    The second half models the wrapper [src/pkg/storage/rocksdb.go]. *)

From S2P Require Import Prelude.

(** ** Write batches *)

Inductive wop :=
  | WPut (k v : bytes)
  | WDelete (k : bytes).

Definition wop_apply (m : gmap bytes bytes) (o : wop) : gmap bytes bytes :=
  match o with
  | WPut k v => <[k:=v]> m
  | WDelete k => delete k m
  end.

(** Operations of a batch take effect in the order they were added. *)
Definition batch_apply (m : gmap bytes bytes) (ops : list wop) : gmap bytes bytes :=
  foldl wop_apply m ops.

Definition wop_key (o : wop) : bytes :=
  match o with WPut k _ => k | WDelete k => k end.

Lemma batch_apply_app m ops1 ops2 :
  batch_apply m (ops1 ++ ops2) = batch_apply (batch_apply m ops1) ops2.
Proof. apply foldl_app. Qed.

Lemma batch_apply_other m ops k :
  (∀ o, o ∈ ops → wop_key o ≠ k) → batch_apply m ops !! k = m !! k.
Proof.
  revert m. induction ops as [|o ops IH]; intros m Hk; [done|].
  change (batch_apply (wop_apply m o) ops !! k = m !! k).
  rewrite IH by set_solver. assert (wop_key o ≠ k) by set_solver.
  destruct o; simpl in *; [by rewrite lookup_insert_ne|by rewrite lookup_delete_ne].
Qed.

(** The last operation of a batch on a key decides its value. *)
Definition wop_value (o : wop) : option bytes :=
  match o with WPut _ v => Some v | WDelete _ => None end.

Definition last_op (k : bytes) (ops : list wop) : option (option bytes) :=
  foldl (λ acc o, if decide (wop_key o = k) then Some (wop_value o) else acc) None ops.

Lemma last_op_snoc k ops o :
  last_op k (ops ++ [o]) = if decide (wop_key o = k) then Some (wop_value o) else last_op k ops.
Proof. unfold last_op. by rewrite foldl_app. Qed.

Lemma batch_apply_last m ops k :
  batch_apply m ops !! k = match last_op k ops with Some r => r | None => m !! k end.
Proof.
  induction ops as [|o ops IH] using rev_ind; [done|]. rewrite batch_apply_app, last_op_snoc.
  destruct o as [k' v|k']; simpl; case_decide; subst.
  - by rewrite lookup_insert_eq.
  - by rewrite lookup_insert_ne.
  - by rewrite lookup_delete_eq.
  - by rewrite lookup_delete_ne.
Qed.

Lemma last_op_app k ops ops' :
  last_op k (ops ++ ops') = match last_op k ops' with Some r => Some r | None => last_op k ops end.
Proof.
  induction ops' as [|o ops' IH] using rev_ind; [by rewrite app_nil_r|].
  rewrite app_assoc, !last_op_snoc. by case_decide.
Qed.

(** Operations that are executed early, and again in their place, count once. *)
Lemma batch_early m early ops : batch_apply m (early ++ ops ++ early) = batch_apply m (ops ++ early).
Proof.
  apply map_eq. intros k. rewrite !batch_apply_last, !last_op_app.
  destruct (last_op k early) eqn:E; [done|]. by destruct (last_op k ops).
Qed.

Lemma last_op_app_None k ops ops' : last_op k (ops ++ ops') = None → last_op k ops = None.
Proof.
  induction ops' as [|o ops' IH] using rev_ind; [by rewrite app_nil_r|].
  rewrite app_assoc, last_op_snoc. case_decide; [done|]. apply IH.
Qed.

Lemma last_op_filter k ops : last_op k (filter (λ o, wop_key o = k) ops) = last_op k ops.
Proof.
  induction ops as [|o ops IH] using rev_ind; [done|]. rewrite filter_app, last_op_snoc, filter_cons, filter_nil.
  case_decide; [by rewrite last_op_snoc, decide_True|]. by rewrite app_nil_r.
Qed.

(** Only the order of the operations on the same key matters. *)
Lemma batch_apply_ext m ops ops' :
  (∀ k, filter (λ o, wop_key o = k) ops = filter (λ o, wop_key o = k) ops') →
  batch_apply m ops = batch_apply m ops'.
Proof.
  intros Hk. apply map_eq. intros k.
  by rewrite !batch_apply_last, <- (last_op_filter k ops), Hk, last_op_filter.
Qed.

(** Applying a batch again after a part of it was applied is applying it once:
    the operations are blind writes. *)
Lemma batch_redo m pre ops :
  pre `prefix_of` ops → batch_apply (batch_apply m pre) ops = batch_apply m ops.
Proof.
  intros [rest ->]. apply map_eq. intros k. rewrite !(batch_apply_last _ (pre ++ rest)).
  destruct (last_op k (pre ++ rest)) eqn:E; [done|].
  by rewrite batch_apply_last, (last_op_app_None _ _ _ E).
Qed.

(** A batch of deletes removes exactly its keys. *)
Lemma batch_apply_deletes m ks k :
  batch_apply m (map WDelete ks) !! k = if decide (k ∈ ks) then None else m !! k.
Proof.
  revert m. induction ks as [|a ks IH]; intros m; cbn [map].
  { by rewrite decide_False by set_solver. }
  change (batch_apply (delete a m) (map WDelete ks) !! k = if decide (k ∈ a :: ks) then None else m !! k).
  rewrite IH. destruct (decide (k = a)) as [->|Hne].
  - rewrite (decide_True (P := a ∈ a :: ks)) by set_solver.
    case_decide; [done|]. apply lookup_delete_eq.
  - rewrite lookup_delete_ne by done.
    destruct (decide (k ∈ ks)); [by rewrite decide_True by set_solver|].
    by rewrite decide_False by set_solver.
Qed.

(** ** Ordered iteration *)

Definition entry_le (p q : bytes * bytes) : Prop := bytes_le p.1 q.1.
#[global] Instance entry_le_dec : RelDecision entry_le.
Proof. intros p q. unfold entry_le. apply _. Defined.
#[global] Instance entry_le_trans : Transitive entry_le.
Proof. intros p q r. unfold entry_le. by etrans. Qed.
#[global] Instance entry_le_total : Total entry_le.
Proof. intros p q. apply (total bytes_le). Qed.

(** What an iterator positioned by [Seek(start)] goes through: the entries with
    keys from [start] on, in ascending key order. *)
Definition sorted_from (m : gmap bytes bytes) (start : bytes) : list (bytes * bytes) :=
  merge_sort entry_le (filter (λ p, bytes_le start p.1) (map_to_list m)).

Lemma elem_of_sorted_from m start k v :
  (k, v) ∈ sorted_from m start ↔ m !! k = Some v ∧ bytes_le start k.
Proof.
  unfold sorted_from. rewrite merge_sort_Permutation.
  rewrite list_elem_of_filter, elem_of_map_to_list. simpl. naive_solver.
Qed.

Lemma sorted_from_sorted m start : StronglySorted entry_le (sorted_from m start).
Proof. apply StronglySorted_merge_sort; apply _. Qed.

Lemma sorted_from_NoDup m start : NoDup (sorted_from m start).*1.
Proof.
  unfold sorted_from. rewrite merge_sort_Permutation.
  eapply sublist_NoDup; [apply (NoDup_fst_map_to_list m)|].
  apply fmap_sublist, sublist_filter.
Qed.

(** The loops [for iter.Seek(s); iter.Valid(); iter.Next() { if !P(key) break; .. }]
    visit the longest prefix of keys that satisfy [P]. *)
Fixpoint take_while {A} (P : A → bool) (l : list A) : list A :=
  match l with
  | [] => []
  | x :: r => if P x then x :: take_while P r else []
  end.

Lemma elem_of_take_while {A} (P : A → bool) l x :
  x ∈ take_while P l → x ∈ l ∧ P x = true.
Proof. induction l; simpl; case_split; set_solver. Qed.

Lemma take_while_sorted {A} (R : relation A) (P : A → bool) l :
  StronglySorted R l →
  (∀ x y, x ∈ l → y ∈ l → R x y → P y = true → P x = true) →
  ∀ x, x ∈ take_while P l ↔ x ∈ l ∧ P x = true.
Proof.
  intros Hs HP x. split; [apply elem_of_take_while|]. intros [Hx Px].
  induction Hs as [|y l Hs IH Hall]; [set_solver|]. simpl.
  assert (P y = true) as ->.
  { apply elem_of_cons in Hx as [->|Hx]; [done|].
    rewrite Forall_forall in Hall. apply (HP y x); set_solver. }
  apply elem_of_cons in Hx as [->|Hx]; [set_solver|].
  apply elem_of_cons. right. apply IH; [set_solver|done].
Qed.

(** Entries of one key prefix are contiguous, so a prefix scan finds them all. *)
Lemma bytes_le_prefix_between p a b :
  bytes_le p a → bytes_le a (p ++ b) → ∃ t, a = p ++ t.
Proof.
  revert a. induction p as [|x p IH]; intros a H1 H2; [by exists a|].
  destruct a as [|y a]; [done|]. cbn [app] in H2. rewrite bytes_leb_cons in H1, H2.
  destruct H1 as [?|[-> H1]], H2 as [?|[H2 H3]]; simplify_eq; try lia.
  all: try (destruct (IH a) as [t ->]; [done..|by exists t]).
  all: try lia.
Qed.

Lemma prefix_scan_elem m p k v :
  (k, v) ∈ take_while (λ e : bytes * bytes, has_prefix e.1 p) (sorted_from m p) ↔
  m !! k = Some v ∧ ∃ t, k = p ++ t.
Proof.
  rewrite (take_while_sorted entry_le); [|apply sorted_from_sorted|].
  - rewrite elem_of_sorted_from. simpl. rewrite has_prefix_true. split; [naive_solver|].
    intros [? [t ->]]. split_and!; [done| |by exists t].
    rewrite <- (app_nil_r p) at 1. by apply bytes_le_app.
  - intros [a va] [b vb] [_ Ha]%elem_of_sorted_from _. simpl.
    rewrite !has_prefix_true. intros Hab [t ->]. by eapply bytes_le_prefix_between.
Qed.

(** ** The engine's interface *)

Class Engine (D : Type) := {
  (** [DB.Get]: an error, or the value if the key exists *)
  db_get : D → bytes → goerr + option bytes;
  (** [DB.Write] of a batch; [DB.Put] and [DB.Delete] write a batch of one *)
  db_write : D → list wop → D * option goerr;
  (** [NewIterator], [Seek(start)], then [Valid]/[Next] to the end, and [Err] *)
  db_scan : D → bytes → list (bytes * bytes) * option goerr;
  (** the data the engine holds *)
  db_view : D → gmap bytes bytes;
  (** no fault is pending *)
  db_healthy : D → Prop
}.

Class EngineLaws (D : Type) `{Engine D} := {
  db_get_view d k r : db_get d k = inr r → r = db_view d !! k;
  db_write_ok d ops d' :
    db_write d ops = (d', None) → db_view d' = batch_apply (db_view d) ops;
  db_write_err d ops d' e :
    db_write d ops = (d', Some e) → db_view d' = db_view d;
  db_scan_ok d s l :
    db_scan d s = (l, None) → l = sorted_from (db_view d) s;
  db_scan_err d s l e :
    db_scan d s = (l, Some e) → l `prefix_of` sorted_from (db_view d) s;
  db_healthy_get d k : db_healthy d → ∃ r, db_get d k = inr r;
  db_healthy_write d ops :
    db_healthy d → ∃ d', db_write d ops = (d', None) ∧ db_healthy d';
  db_healthy_scan d s : db_healthy d → ∃ l, db_scan d s = (l, None)
}.

(** An in-memory engine: each write takes the next element of [mem_faults] and
    fails if it is [true]; reads fail while [mem_rfault] is set. *)
Record MemDB := {
  mem_data : gmap bytes bytes;
  mem_faults : list bool;
  mem_rfault : bool
}.

Definition mem_of (m : gmap bytes bytes) : MemDB :=
  {| mem_data := m; mem_faults := []; mem_rfault := false |}.

#[global] Instance MemDB_Engine : Engine MemDB := {|
  db_get d k :=
    if mem_rfault d then inl (Errorf "io error") else inr (mem_data d !! k);
  db_write d ops :=
    match mem_faults d with
    | true :: fs =>
        ({| mem_data := mem_data d; mem_faults := fs; mem_rfault := mem_rfault d |},
         Some (Errorf "io error"))
    | fs =>
        ({| mem_data := batch_apply (mem_data d) ops; mem_faults := tail fs;
            mem_rfault := mem_rfault d |}, None)
    end;
  db_scan d s :=
    if mem_rfault d then ([], Some (Errorf "io error"))
    else (sorted_from (mem_data d) s, None);
  db_view d := mem_data d;
  db_healthy d := Forall (λ b, b = false) (mem_faults d) ∧ mem_rfault d = false
|}.

#[global] Instance MemDB_EngineLaws : EngineLaws MemDB.
Proof.
  split; simpl.
  - intros d k r Hg. by case_split.
  - intros d ops d' Hw. by case_split.
  - intros d ops d' e Hw. by case_split.
  - intros d s l Hs. by case_split.
  - intros d s l e Hs. case_split. apply prefix_nil.
  - intros d k [_ ->]. eauto.
  - intros d ops [Hf Hr]. destruct Hf as [|b fs -> Hf]; eexists; (split; [done|]); simpl; auto.
  - intros d s [_ ->]. eauto.
Qed.

(** ** The wrapper: src/pkg/storage/rocksdb.go *)

(** [KeyValueItem] of types.go. *)
Record KeyValueItem := { Item_Key : bytes; Item_Value : bytes }.

(** [RocksDB.Get]: (value, found, err). *)
Definition RocksDB_Get {D} `{Engine D} (d : D) (k : bytes) : outcome (option bytes) :=
  match db_get d k with
  | inl _ => Err (Errorf "get failed")
  | inr None => Ret None
  | inr (Some v) => Ret (Some v)
  end.

Definition RocksDB_Put {D} `{Engine D} (d : D) (k v : bytes) : D * option goerr :=
  match db_write d [WPut k v] with
  | (d', Some _) => (d', Some (Errorf "put failed"))
  | (d', None) => (d', None)
  end.

Definition RocksDB_Delete {D} `{Engine D} (d : D) (k : bytes) : D * option goerr :=
  match db_write d [WDelete k] with
  | (d', Some _) => (d', Some (Errorf "delete failed"))
  | (d', None) => (d', None)
  end.

Definition RocksDB_BatchPut {D} `{Engine D} (d : D) (items : list KeyValueItem) :
    D * option goerr :=
  let batch := map (λ i, WPut (Item_Key i) (Item_Value i)) items in
  match db_write d batch with
  | (d', Some _) => (d', Some (Errorf "batch put failed"))
  | (d', None) => (d', None)
  end.

Section RocksDB_facts.
  Context {D : Type} `{EngineLaws D}.
Implicit Types (d : D) (k v : bytes).

Lemma RocksDB_Get_spec d k r : RocksDB_Get d k = Ret r → r = db_view d !! k.
Proof.
  unfold RocksDB_Get. intros Hg. destruct (db_get d k) as [|o] eqn:E; [done|].
  apply db_get_view in E. by destruct o; simplify_eq.
Qed.

Lemma RocksDB_Get_healthy d k : db_healthy d → RocksDB_Get d k = Ret (db_view d !! k).
Proof.
  intros [r E]%(db_healthy_get d k). unfold RocksDB_Get. rewrite E.
  apply db_get_view in E. subst. by destruct (db_view d !! k).
Qed.

Lemma RocksDB_Put_spec d k v d' o :
  RocksDB_Put d k v = (d', o) →
  db_view d' = match o with None => <[k:=v]> (db_view d) | Some _ => db_view d end.
Proof.
  unfold RocksDB_Put. intros Hw. destruct (db_write _ _) as [? [|]] eqn:E; simplify_eq.
  - by eapply db_write_err.
  - by apply db_write_ok in E.
Qed.

Lemma RocksDB_Delete_spec d k d' o :
  RocksDB_Delete d k = (d', o) →
  db_view d' = match o with None => delete k (db_view d) | Some _ => db_view d end.
Proof.
  unfold RocksDB_Delete. intros Hw. destruct (db_write _ _) as [? [|]] eqn:E; simplify_eq.
  - by eapply db_write_err.
  - by apply db_write_ok in E.
Qed.

Lemma RocksDB_Put_healthy d k v :
  db_healthy d → ∃ d', RocksDB_Put d k v = (d', None) ∧ db_healthy d' ∧
    db_view d' = <[k:=v]> (db_view d).
Proof.
  intros (d' & E & Hd)%(db_healthy_write d [WPut k v]). exists d'.
  unfold RocksDB_Put. rewrite E. split_and!; [done..|]. by apply db_write_ok in E.
Qed.

Lemma RocksDB_Delete_healthy d k :
  db_healthy d → ∃ d', RocksDB_Delete d k = (d', None) ∧ db_healthy d' ∧
    db_view d' = delete k (db_view d).
Proof.
  intros (d' & E & Hd)%(db_healthy_write d [WDelete k]). exists d'.
  unfold RocksDB_Delete. rewrite E. split_and!; [done..|]. by apply db_write_ok in E.
Qed.
End RocksDB_facts.
