(* ===== verification/Handles.v ===== *)
(** * The native objects behind the engine

    grocksdb hands out pointers to objects of the C library that live until they
    are destroyed; the garbage collector does not know them.  This file follows
    the objects that [src/pkg/storage/rocksdb.go] makes, uses and destroys: the
    heap records which are alive, and whether a dead one was ever used or
    destroyed.  The data behind them is the subject of [Engine]. *)

From S2P Require Import Prelude.

(** ** Objects *)

Inductive object :=
  | OCache | OTableOptions | OOptions | OReadOptions | OWriteOptions | OFlushOptions
  | ODB | OSlice | OWriteBatch | OSnapshot | OIterator | OIngestOptions.

#[export] Instance object_eq_dec : EqDecision object.
Proof. solve_decision. Defined.

Record Heap := mkHeap {
  H_next : nat;
  H_live : gmap nat object;
  H_fault : bool               (** a dead object was used or destroyed *)
}.

Definition heap_new (h : Heap) (o : object) : Heap * nat :=
  (mkHeap (S (H_next h)) (<[H_next h := o]> (H_live h)) (H_fault h), H_next h).
Definition heap_use (h : Heap) (p : nat) : Heap :=
  if decide (is_Some (H_live h !! p)) then h else mkHeap (H_next h) (H_live h) true.
Definition heap_destroy (h : Heap) (p : nat) : Heap :=
  let h := heap_use h p in mkHeap (H_next h) (delete p (H_live h)) (H_fault h).

(** ** The wrapper *)

(** The pointers of [RocksDB]; none is nil once [NewRocksDB] has returned. *)
Record RocksHandles := mkRocksHandles {
  RH_db : nat;
  RH_readOpts : nat;
  RH_writeOpts : nat;
  RH_flushOpts : nat;
  RH_blockCache : nat
}.

(** [NewRocksDB]: the cache, the table options, which own the filter, and the
    options are made before the database is opened, the others after. *)
Definition NewRocksDB_handles (h : Heap) (opens : bool) : Heap * option RocksHandles :=
  let '(h, blockCache) := heap_new h OCache in
  let '(h, bbto) := heap_new h OTableOptions in
  let h := heap_use (heap_use h bbto) blockCache in
  let '(h, opts) := heap_new h OOptions in
  let h := heap_use (heap_use h opts) bbto in
  if opens then
    let '(h, db) := heap_new h ODB in
    let '(h, readOpts) := heap_new h OReadOptions in
    let '(h, writeOpts) := heap_new h OWriteOptions in
    let '(h, flushOpts) := heap_new h OFlushOptions in
    (h, Some (mkRocksHandles db readOpts writeOpts flushOpts blockCache))
  else (h, None).

(** [Get]: the slice is freed on return; a failed read gives none. *)
Definition Get_handles (r : RocksHandles) (h : Heap) (ok : bool) : Heap :=
  let h := heap_use (heap_use h (RH_db r)) (RH_readOpts r) in
  if ok then let '(h, slice) := heap_new h OSlice in heap_destroy h slice else h.

(** [Put] and [Delete] *)
Definition Write_handles (r : RocksHandles) (h : Heap) : Heap :=
  heap_use (heap_use h (RH_db r)) (RH_writeOpts r).

Definition BatchPut_handles (r : RocksHandles) (h : Heap) : Heap :=
  let '(h, batch) := heap_new h OWriteBatch in
  let h := heap_use (Write_handles r h) batch in
  heap_destroy h batch.

Definition RocksDB_CreateSnapshot (r : RocksHandles) (h : Heap) : Heap * nat :=
  heap_new (heap_use h (RH_db r)) OSnapshot.
Definition RocksDB_ReleaseSnapshot (r : RocksHandles) (h : Heap) (snapshot : nat) : Heap :=
  heap_destroy (heap_use h (RH_db r)) snapshot.

Definition RocksDB_NewIterator (r : RocksHandles) (h : Heap) : Heap * nat :=
  heap_new (heap_use (heap_use h (RH_db r)) (RH_readOpts r)) OIterator.

(** Read options of its own for every iterator. *)
Definition RocksDB_NewIteratorWithSnapshot (r : RocksHandles) (h : Heap) (snapshot : nat) : Heap * nat :=
  let '(h, readOpts) := heap_new h OReadOptions in
  let h := heap_use (heap_use h readOpts) snapshot in
  heap_new (heap_use h (RH_db r)) OIterator.

Definition RocksDB_Flush (r : RocksHandles) (h : Heap) : Heap :=
  heap_use (heap_use h (RH_db r)) (RH_flushOpts r).
Definition RocksDB_CompactRange (r : RocksHandles) (h : Heap) : Heap := heap_use h (RH_db r).
Definition RocksDB_GetProperty (r : RocksHandles) (h : Heap) : Heap := heap_use h (RH_db r).

Definition RocksDB_IngestExternalFile (r : RocksHandles) (h : Heap) : Heap :=
  let '(h, ingestOpts) := heap_new h OIngestOptions in
  let h := heap_use (heap_use h (RH_db r)) ingestOpts in
  heap_destroy h ingestOpts.

(** [Close]: the fields are destroyed in this order and not set to nil. *)
Definition RocksDB_Close (r : RocksHandles) (h : Heap) : Heap :=
  let h := heap_destroy h (RH_readOpts r) in
  let h := heap_destroy h (RH_writeOpts r) in
  let h := heap_destroy h (RH_flushOpts r) in
  let h := heap_destroy h (RH_db r) in
  heap_destroy h (RH_blockCache r).

(** Three properties, each a call. *)
Definition RocksDB_Stats (r : RocksHandles) (h : Heap) (property : string → string) :
    Heap * gmap string string :=
  let get h name := (RocksDB_GetProperty r h, property name) in
  let '(h, keys) := get h "rocksdb.estimate-num-keys" in
  let '(h, size) := get h "rocksdb.estimate-live-data-size" in
  let '(h, stats) := get h "rocksdb.stats" in
  (h, <["rocksdb.stats" := stats]> (<["rocksdb.estimate-live-data-size" := size]>
        (<["rocksdb.estimate-num-keys" := keys]> ∅))).

(** ** How the program uses it *)

(** A scan: an iterator that is closed when the caller returns. *)
Definition scan_handles (r : RocksHandles) (h : Heap) : Heap :=
  let '(h, iter) := RocksDB_NewIterator r h in heap_destroy (heap_use h iter) iter.

(** An export: a snapshot and an iterator over it, which the deferred calls
    release in the opposite order. *)
Definition export_handles (r : RocksHandles) (h : Heap) : Heap :=
  let '(h, snapshot) := RocksDB_CreateSnapshot r h in
  let '(h, iter) := RocksDB_NewIteratorWithSnapshot r h snapshot in
  RocksDB_ReleaseSnapshot r (heap_destroy (heap_use h iter) iter) snapshot.

Inductive db_call :=
  | CallGet (ok : bool) | CallWrite | CallBatchPut | CallScan | CallExport
  | CallFlush | CallCompactRange | CallIngest | CallStats.

Definition run_call (r : RocksHandles) (h : Heap) (c : db_call) : Heap :=
  match c with
  | CallGet ok => Get_handles r h ok
  | CallWrite => Write_handles r h
  | CallBatchPut => BatchPut_handles r h
  | CallScan => scan_handles r h
  | CallExport => export_handles r h
  | CallFlush => RocksDB_Flush r h
  | CallCompactRange => RocksDB_CompactRange r h
  | CallIngest => RocksDB_IngestExternalFile r h
  | CallStats => (RocksDB_Stats r h id).1
  end.

Definition is_export (c : db_call) : bool := match c with CallExport => true | _ => false end.

(** ** What is alive *)

(** The first database of a process. *)
Definition opened : Heap * option RocksHandles := NewRocksDB_handles (mkHeap 0 ∅ false) true.
Definition the_handles : RocksHandles := mkRocksHandles 3 4 5 6 0.

(** What [NewRocksDB] makes. *)
Definition made : gmap nat object :=
  list_to_map [(0, OCache); (1, OTableOptions); (2, OOptions); (3, ODB); (4, OReadOptions);
    (5, OWriteOptions); (6, OFlushOptions)]%nat.

(** Beside them, only read options are ever left alive. *)
Record handles_inv (leaked : gmap nat object) (h : Heap) : Prop := {
  hi_live : H_live h = made ∪ leaked;
  hi_leaked : map_Forall (λ p o, (7 ≤ p < H_next h)%nat ∧ o = OReadOptions) leaked;
  hi_next : (7 ≤ H_next h)%nat;
  hi_fault : H_fault h = false
}.

Lemma opened_inv : opened.2 = Some the_handles ∧ handles_inv ∅ opened.1.
Proof.
  split; [done|]. split; [by apply map_to_list_inj; vm_compute|by apply map_Forall_empty|by vm_compute|done].
Qed.

Lemma heap_use_live h p : is_Some (H_live h !! p) → heap_use h p = h.
Proof. intros Hp. unfold heap_use. by rewrite decide_True. Qed.

Lemma H_live_use h p : H_live (heap_use h p) = H_live h.
Proof. unfold heap_use. by case_decide. Qed.
Lemma H_next_use h p : H_next (heap_use h p) = H_next h.
Proof. unfold heap_use. by case_decide. Qed.

Lemma live_made leaked h p : handles_inv leaked h → is_Some (made !! p) → is_Some (H_live h !! p).
Proof. intros I [o Hp]. rewrite (hi_live _ _ I). exists o. by apply lookup_union_Some_l. Qed.

Lemma live_fresh leaked h : handles_inv leaked h → H_live h !! H_next h = None.
Proof.
  intros I. rewrite (hi_live _ _ I), lookup_union_None. pose proof (hi_next _ _ I). split.
  - apply not_elem_of_list_to_map. cbn. set_unfold. lia.
  - apply eq_None_not_Some. intros [o Ho]. apply (hi_leaked _ _ I) in Ho. lia.
Qed.

(** Pointers that were handed out and are dead again. *)
Definition skip (h : Heap) (n : nat) : Heap := mkHeap (n + H_next h) (H_live h) (H_fault h).

Lemma skip_inv leaked h n : handles_inv leaked h → handles_inv leaked (skip h n).
Proof.
  intros [? Hl ? ?]. split; try done; cbn; [|lia].
  eapply map_Forall_impl; [exact Hl|]. cbn. intros. split; [lia|naive_solver].
Qed.

(** A pointer is alive: one of [made], or made since and not destroyed. *)
Ltac alive :=
  repeat (cbn [H_live H_next heap_new fst snd]; rewrite ?H_live_use, ?H_next_use);
  repeat match goal with
    | |- is_Some (<[_ := _]> _ !! _) => apply lookup_insert_is_Some'; first [left; reflexivity|right]
    | |- is_Some (delete _ _ !! _) => apply lookup_delete_is_Some; split; [lia|]
    end;
  by (eapply live_made; [eassumption|vm_compute; eexists; reflexivity]).

(** Uses of what is alive change nothing. *)
Ltac uses := unfold heap_destroy, heap_new; cbn [fst snd];
  repeat match goal with |- context [heap_use ?h ?p] => rewrite (heap_use_live h p) by alive end.

Lemma Get_skip leaked h ok : handles_inv leaked h → ∃ n, Get_handles the_handles h ok = skip h n.
Proof.
  intros I. unfold Get_handles. cbn [RH_db RH_readOpts the_handles].
  uses. destruct ok; [|by exists 0%nat; destruct h]. exists 1%nat. cbn [heap_new].
  uses. unfold skip; cbn. by rewrite delete_insert_id by (eapply live_fresh, I).
Qed.

Lemma BatchPut_skip leaked h : handles_inv leaked h → BatchPut_handles the_handles h = skip h 1.
Proof.
  intros I. unfold BatchPut_handles, Write_handles. cbn [the_handles RH_db RH_writeOpts].
  uses. unfold skip; cbn. by rewrite delete_insert_id by (eapply live_fresh, I).
Qed.

Lemma Ingest_skip leaked h : handles_inv leaked h → RocksDB_IngestExternalFile the_handles h = skip h 1.
Proof.
  intros I. unfold RocksDB_IngestExternalFile. cbn [the_handles RH_db].
  uses. unfold skip; cbn. by rewrite delete_insert_id by (eapply live_fresh, I).
Qed.

Lemma scan_skip leaked h : handles_inv leaked h → scan_handles the_handles h = skip h 1.
Proof.
  intros I. unfold scan_handles, RocksDB_NewIterator. cbn [the_handles RH_db RH_readOpts].
  uses. unfold skip; cbn. by rewrite delete_insert_id by (eapply live_fresh, I).
Qed.

Lemma export_leaks leaked h : handles_inv leaked h →
  handles_inv (<[S (H_next h) := OReadOptions]> leaked) (export_handles the_handles h) ∧
  leaked !! S (H_next h) = None.
Proof.
  intros I. assert (leaked !! S (H_next h) = None) as Hnone.
  { apply eq_None_not_Some. intros [o Ho]. apply (hi_leaked _ _ I) in Ho. lia. }
  split; [|done].
  assert (export_handles the_handles h =
    mkHeap (3 + H_next h) (<[S (H_next h) := OReadOptions]> (H_live h)) (H_fault h)) as ->.
  { unfold export_handles, RocksDB_CreateSnapshot, RocksDB_NewIteratorWithSnapshot, RocksDB_ReleaseSnapshot.
    cbn [the_handles RH_db]. pose proof (hi_next _ _ I). uses. cbn. f_equal.
    pose proof (live_fresh _ _ I) as Hf. pose proof (live_fresh _ _ (skip_inv _ _ 2 I)) as H2. cbn in H2.
    rewrite (delete_insert_id _ (S (S _))) by (rewrite !lookup_insert_ne by lia; done).
    rewrite delete_insert_ne by lia. by rewrite delete_insert_id. }
  destruct I as [Hl Hk Hn Hf]. split; cbn; [| |lia|done].
  - rewrite Hl, insert_union_r; [done|]. apply not_elem_of_list_to_map. cbn. set_unfold. lia.
  - apply map_Forall_insert_2; [split; [lia|done]|]. eapply map_Forall_impl; [exact Hk|]. cbn.
    intros. split; [lia|naive_solver].
Qed.

(** One call keeps the invariant; only an export leaves something behind. *)
Lemma run_call_inv leaked h c : handles_inv leaked h →
  ∃ leaked', handles_inv leaked' (run_call the_handles h c) ∧
    size leaked' = (size leaked + if is_export c then 1 else 0)%nat.
Proof.
  intros I. destruct c; cbn [run_call is_export]; rewrite ?Nat.add_0_r.
  - destruct (Get_skip leaked h ok I) as [n ->]. exists leaked. split; [by apply skip_inv|done].
  - exists leaked. unfold Write_handles. cbn [the_handles RH_db RH_writeOpts]. uses. done.
  - exists leaked. rewrite (BatchPut_skip leaked) by done. split; [by apply skip_inv|done].
  - exists leaked. rewrite (scan_skip leaked) by done. split; [by apply skip_inv|done].
  - destruct (export_leaks leaked h I) as [I' Hn]. eexists. split; [exact I'|].
    rewrite map_size_insert_None by done. lia.
  - exists leaked. unfold RocksDB_Flush. cbn [the_handles RH_db RH_flushOpts]. uses. done.
  - exists leaked. unfold RocksDB_CompactRange. cbn [the_handles RH_db]. uses. done.
  - exists leaked. rewrite (Ingest_skip leaked) by done. split; [by apply skip_inv|done].
  - exists leaked. unfold RocksDB_Stats, RocksDB_GetProperty. cbn [the_handles RH_db]. uses. done.
Qed.

Lemma run_calls_inv leaked h calls : handles_inv leaked h →
  ∃ leaked', handles_inv leaked' (foldl (run_call the_handles) h calls) ∧
    size leaked' = (size leaked + length (filter is_export calls))%nat.
Proof.
  revert leaked h. induction calls as [|c calls IH]; intros leaked h I; cbn [foldl].
  { exists leaked. split; [done|]. cbn. lia. }
  destruct (run_call_inv _ _ c I) as (l1 & I1 & E1). destruct (IH _ _ I1) as (l2 & I2 & E2).
  exists l2. split; [done|]. rewrite E2, E1, filter_cons.
  destruct (is_export c); [rewrite decide_True by done|rewrite decide_False by auto]; cbn [length]; lia.
Qed.

(** What [Close] leaves. *)
Definition options_left : gmap nat object := list_to_map [(1, OTableOptions); (2, OOptions)]%nat.

Lemma Close_live leaked h : handles_inv leaked h →
  H_live (RocksDB_Close the_handles h) = options_left ∪ leaked ∧ H_fault (RocksDB_Close the_handles h) = false.
Proof.
  intros I. unfold RocksDB_Close. cbn [the_handles RH_db RH_readOpts RH_writeOpts RH_flushOpts RH_blockCache].
  uses. cbn. rewrite (hi_live _ _ I), (hi_fault _ _ I). split; [|done].
  assert (∀ p, (p < 7)%nat → leaked !! p = None) as Hlow.
  { intros p Hp. apply eq_None_not_Some. intros [o Ho]. apply (hi_leaked _ _ I) in Ho. lia. }
  rewrite !delete_union, !(delete_id leaked) by (apply Hlow; lia). f_equal.
Qed.

(** The objects are balanced but for the options.  After any sequence of reads,
    writes, batches, scans, exports, flushes, compactions, ingestions and
    statistics no dead object has been touched; [Close] then destroys everything
    but the two options the database was opened with and one [ReadOptions] for
    every export; and a second [Close] destroys dead objects. *)
Lemma handles_balance calls :
  let h := foldl (run_call the_handles) opened.1 calls in
  H_fault h = false ∧
  (∃ leaked, H_live (RocksDB_Close the_handles h) = options_left ∪ leaked ∧
    map_Forall (λ _ o, o = OReadOptions) leaked ∧ size leaked = length (filter is_export calls)) ∧
  H_fault (RocksDB_Close the_handles h) = false ∧
  H_fault (RocksDB_Close the_handles (RocksDB_Close the_handles h)) = true.
Proof.
  cbv zeta. destruct (run_calls_inv ∅ _ calls (proj2 opened_inv)) as (leaked & I & Hs).
  set (h := foldl _ _ _) in *. destruct (Close_live _ _ I) as [Hl Hf].
  split_and!; [apply (hi_fault _ _ I)| |done|].
  - exists leaked. rewrite map_size_empty in Hs. split_and!; [done| |done].
    eapply map_Forall_impl; [apply (hi_leaked _ _ I)|]. naive_solver.
  - set (h1 := RocksDB_Close the_handles h) in *.
    assert (H_live h1 !! 4%nat = None) as H4.
    { rewrite Hl. apply lookup_union_None. split; [done|]. apply eq_None_not_Some. intros [o Ho].
      apply (hi_leaked _ _ I) in Ho. lia. }
    assert (∀ h p, H_fault h = true → H_fault (heap_destroy h p) = true) as Hkeep.
    { intros h2 p Hh. cbn. unfold heap_use. by case_decide. }
    unfold RocksDB_Close at 1. do 4 apply Hkeep. cbn. unfold heap_use. rewrite H4.
    rewrite decide_False; [done|]. by intros [? ?].
Qed.

(** A database that does not open leaves its cache and options behind. *)
Example failed_open_leaks :
  let '(h, r) := NewRocksDB_handles (mkHeap 0 ∅ false) false in
  r = None ∧ map_to_list (H_live h) = [(2, OOptions); (1, OTableOptions); (0, OCache)]%nat.
Proof. cbn. split; [done|]. by vm_compute. Qed.
