(* ===== verification/Keys.v ===== *)
(** * Storage keys

    The key formats of the storage node, from [src/pkg/storage/partition.go]
    (regular keys, partition ranges) and [src/pkg/storage/field_storage.go]
    (field keys), and [compareBytes] of [src/pkg/storage/server.go], which the
    range scans use to stop at the end of a partition.

    A regular key is ["p:" ++ partition_id(4) ++ key]; a field key is
    ["p:" ++ partition_id(4) ++ ":f" ++ pk_len(4) ++ pk ++ field_name]. *)

From S2P Require Import Prelude.

(** ** Regular keys: partition.go *)

Definition TotalPartitions : Z := 4096.
Definition PartitionKeyPrefix : bytes := str_bytes "p:".
Definition colon : byte := Byte.x3a.
Definition FieldKeyMarker : byte := Byte.x66.

(** [CalculatePartition]; [Sum64] is xxhash, a third-party package. *)
Definition CalculatePartition (Sum64 : bytes → Z) (key : bytes) : Z :=
  u32 (Sum64 key mod TotalPartitions).

Definition MakePartitionKey (partitionID : Z) (key : bytes) : bytes :=
  let prefix := PartitionKeyPrefix ++ be32 partitionID in
  prefix ++ key.

Definition ParsePartitionKey (storageKey : bytes) : outcome (Z * bytes) :=
  let prefixLen := len PartitionKeyPrefix + 4 in
  if len storageKey <? prefixLen
  then Err (Errorf "invalid storage key: too short")
  else
    pid ← slice storageKey (len PartitionKeyPrefix) prefixLen;
    key ← slice_from storageKey prefixLen;
    Ret (be_val pid, key).

(** [ParsePartitionKeyEx]: (partitionID, suffix, isFieldKey). *)
Definition ParsePartitionKeyEx (storageKey : bytes) : outcome (Z * bytes * bool) :=
  let prefixLen := len PartitionKeyPrefix + 4 in
  if len storageKey <? prefixLen
  then Err (Errorf "invalid storage key: too short")
  else
    pid ← slice storageKey (len PartitionKeyPrefix) prefixLen;
    suffix ← slice_from storageKey prefixLen;
    if prefixLen + 1 <? len storageKey then
      c0 ← index storageKey prefixLen;
      c1 ← index storageKey (prefixLen + 1);
      Ret (be_val pid, suffix, bool_decide (c0 = colon) && bool_decide (c1 = FieldKeyMarker))
    else Ret (be_val pid, suffix, false).

(** [GetPartitionRange]: [partitionID+1] is computed on 32 bits. *)
Definition GetPartitionRange (partitionID : Z) : bytes * bytes :=
  (PartitionKeyPrefix ++ be32 partitionID,
   PartitionKeyPrefix ++ be32 (u32 (partitionID + 1))).

(** ** Field keys: field_storage.go *)

Record FieldKey := mkFieldKey {
  FK_PartitionID : Z;
  FK_PrimaryKey : bytes;
  FK_FieldName : bytes
}.

Definition FieldKey_Encode (fk : FieldKey) : bytes :=
  PartitionKeyPrefix ++ be32 (FK_PartitionID fk) ++ [colon; FieldKeyMarker] ++
  be32 (len (FK_PrimaryKey fk)) ++ FK_PrimaryKey fk ++ FK_FieldName fk.

Definition DecodeFieldKey (key : bytes) : outcome FieldKey :=
  if len key <? 12 then Err (Errorf "invalid field key: too short")
  else
    k0 ← index key 0; k1 ← index key 1; k6 ← index key 6; k7 ← index key 7;
    if bool_decide (k0 ≠ Byte.x70) || bool_decide (k1 ≠ colon) ||
       bool_decide (k6 ≠ colon) || bool_decide (k7 ≠ FieldKeyMarker)
    then Err (Errorf "invalid field key: wrong format")
    else
      pid ← slice key 2 6;
      pkl ← slice key 8 12;
      let pkLen := be_val pkl in
      (* int(12+pkLen): the sum is a uint32 *)
      let hi := u32 (12 + pkLen) in
      if len key <? hi then Err (Errorf "invalid field key: pk length mismatch")
      else
        pk ← slice key 12 hi;
        name ← slice_from key hi;
        Ret (mkFieldKey (be_val pid) pk name).

Definition MakeFieldKey (partitionID : Z) (pk fieldName : bytes) : bytes :=
  FieldKey_Encode (mkFieldKey partitionID pk fieldName).

Definition GetFieldPrefix (partitionID : Z) (pk : bytes) : bytes :=
  PartitionKeyPrefix ++ be32 partitionID ++ [colon; FieldKeyMarker] ++
  be32 (len pk) ++ pk.

Definition GetPartitionFieldPrefix (partitionID : Z) : bytes :=
  PartitionKeyPrefix ++ be32 partitionID ++ [colon; FieldKeyMarker].

(** ** compareBytes: server.go *)

(** The loop over the first [minLen] positions, from position [i]. *)
Fixpoint compareBytes_loop (a b : bytes) (i : nat) (steps : nat) : option Z :=
  match steps with
  | O => None
  | S n =>
      match a !! i, b !! i with
      | Some x, Some y =>
          if byte_Z x <? byte_Z y then Some (-1)
          else if byte_Z y <? byte_Z x then Some 1
          else compareBytes_loop a b (S i) n
      | _, _ => None
      end
  end.

Definition compareBytes (a b : bytes) : Z :=
  let minLen := if Nat.ltb (length b) (length a) then length b else length a in
  match compareBytes_loop a b 0 minLen with
  | Some r => r
  | None =>
      if len a <? len b then -1 else if len b <? len a then 1 else 0
  end.

(** ** Facts about the encoders *)

Lemma PartitionKeyPrefix_eq : PartitionKeyPrefix = [Byte.x70; colon].
Proof. done. Qed.

(** A field key is a regular key whose user part starts with [":f"]. *)
Lemma MakeFieldKey_as_partition p pk f :
  MakeFieldKey p pk f =
  MakePartitionKey p ([colon; FieldKeyMarker] ++ be32 (len pk) ++ pk ++ f).
Proof. unfold MakeFieldKey, FieldKey_Encode, MakePartitionKey. by rewrite <- !app_assoc. Qed.

Lemma MakeFieldKey_prefix p pk f : MakeFieldKey p pk f = GetFieldPrefix p pk ++ f.
Proof. unfold MakeFieldKey, FieldKey_Encode, GetFieldPrefix. by rewrite <- !app_assoc. Qed.

Lemma MakePartitionKey_inj p q k l :
  is_u32 p → is_u32 q →
  MakePartitionKey p k = MakePartitionKey q l → p = q ∧ k = l.
Proof.
  unfold MakePartitionKey. rewrite <- !app_assoc. intros Hp Hq H%app_inj_1; [|done].
  destruct H as [_ H]. apply app_inj_1 in H; [|by rewrite !length_be32].
  destruct H as [H ->]. split; [by apply be32_inj|done].
Qed.

Lemma len_prefixed_inj pk pk' t t' :
  is_u32 (len pk) → is_u32 (len pk') →
  be32 (len pk) ++ pk ++ t = be32 (len pk') ++ pk' ++ t' → pk = pk' ∧ t = t'.
Proof.
  intros Hk Hk' H. apply app_inj_1 in H as [Hl H]; [|by rewrite !length_be32].
  apply be32_inj in Hl; [|done..]. apply app_inj_1 in H; [done|].
  unfold len in Hl. lia.
Qed.

Lemma MakeFieldKey_inj p q pk pk' f f' :
  is_u32 p → is_u32 q → is_u32 (len pk) → is_u32 (len pk') →
  MakeFieldKey p pk f = MakeFieldKey q pk' f' → p = q ∧ pk = pk' ∧ f = f'.
Proof.
  intros Hp Hq Hk Hk'. rewrite !MakeFieldKey_as_partition.
  intros [-> H]%MakePartitionKey_inj; [|done..].
  apply app_inj_1 in H as [_ H]; [|done]. split; [done|]. by apply len_prefixed_inj.
Qed.

(** A field key carries the prefix of exactly one primary key. *)
Lemma GetFieldPrefix_of_key p q pk pk' f' t :
  is_u32 p → is_u32 q → is_u32 (len pk) → is_u32 (len pk') →
  MakeFieldKey q pk' f' = GetFieldPrefix p pk ++ t → q = p ∧ pk' = pk ∧ f' = t.
Proof. intros. rewrite <- MakeFieldKey_prefix in *. by apply MakeFieldKey_inj. Qed.

(** ** Round trips *)

(** Parsing a storage key made for a partition gives back the partition and
    the user's key, for every partition id that fits 32 bits and every key. *)
Lemma ParsePartitionKey_MakePartitionKey p key :
  is_u32 p → ParsePartitionKey (MakePartitionKey p key) = Ret (p, key).
Proof.
  intros Hp. unfold ParsePartitionKey, MakePartitionKey.
  change (len PartitionKeyPrefix) with 2. rewrite <- app_assoc.
  assert (len (PartitionKeyPrefix ++ be32 p ++ key) = 6 + len key) as Hl.
  { autorewrite with rocks. change (len PartitionKeyPrefix) with 2. lia. }
  pose proof (len_nonneg key).
  rewrite (proj2 (Z.ltb_ge _ _)) by lia.
  rewrite slice_at by (autorewrite with rocks; done). cbn [mbind outcome_bind].
  rewrite app_assoc, slice_from_at by (autorewrite with rocks; done). cbn [mbind outcome_bind].
  by rewrite be_val_be32.
Qed.

(** The shape of a key long enough to hold a field-key header. *)
Lemma field_header_shape (key : bytes) :
  12 ≤ len key → ∃ h0 h1 p0 p1 p2 p3 h6 h7 l0 l1 l2 l3 rest,
    key = [h0; h1] ++ [p0; p1; p2; p3] ++ [h6; h7] ++ [l0; l1; l2; l3] ++ rest.
Proof.
  unfold len. intros H.
  do 12 (destruct key as [|? key]; [simpl in H; lia|]).
  do 13 eexists. reflexivity.
Qed.

(** What [DecodeFieldKey] computes on such a key. *)
Lemma DecodeFieldKey_shape (h0 h1 : byte) (pid : bytes) (h6 h7 : byte) (l rest : bytes) :
  length pid = 4%nat → length l = 4%nat →
  DecodeFieldKey ([h0; h1] ++ pid ++ [h6; h7] ++ l ++ rest) =
  if bool_decide (h0 ≠ Byte.x70) || bool_decide (h1 ≠ colon) ||
     bool_decide (h6 ≠ colon) || bool_decide (h7 ≠ FieldKeyMarker)
  then Err (Errorf "invalid field key: wrong format")
  else
    let hi := u32 (12 + be_val l) in
    if 12 + len rest <? hi then Err (Errorf "invalid field key: pk length mismatch")
    else if hi <? 12 then Panic
    else Ret (mkFieldKey (be_val pid) (take (Z.to_nat (hi - 12)) rest)
                (drop (Z.to_nat (hi - 12)) rest)).
Proof.
  intros Hp Hl. set (key := _ ++ _). unfold DecodeFieldKey.
  assert (len key = 12 + len rest) as Hlen.
  { unfold key. autorewrite with rocks. unfold len. rewrite Hp, Hl. simpl. lia. }
  assert (len pid = 4) as Hp' by (unfold len; by rewrite Hp).
  assert (len l = 4) as Hl' by (unfold len; by rewrite Hl).
  pose proof (len_nonneg rest). rewrite Hlen.
  rewrite (proj2 (Z.ltb_ge _ _)) by lia.
  assert (index key 0 = Ret h0) as -> by by apply (index_at []).
  assert (index key 1 = Ret h1) as -> by by apply (index_at [h0]).
  assert (index key 6 = Ret h6) as ->.
  { apply (index_at ([h0; h1] ++ pid)). rewrite len_app, Hp'. done. }
  assert (index key 7 = Ret h7) as ->.
  { unfold key. rewrite (app_assoc [h0; h1]). change ([h6; h7] ++ l ++ rest) with ([h6] ++ h7 :: l ++ rest).
    rewrite app_assoc. apply index_at. autorewrite with rocks. rewrite Hp'. done. }
  assert (slice key 2 6 = Ret pid) as ->.
  { apply slice_at; [done|]. rewrite Hp'. done. }
  assert (slice key 8 12 = Ret l) as ->.
  { unfold key. rewrite !(app_assoc _ _ (l ++ rest)).
    apply slice_at; autorewrite with rocks; rewrite ?Hp', ?Hl'; done. }
  assert (drop 12 key = rest) as Hd.
  { unfold key. rewrite !app_assoc. apply drop_app_length'.
    rewrite !length_app, Hp, Hl. done. }
  clearbody key. cbn [mbind outcome_bind]. case_match; [done|].
  pose proof (u32_range (12 + be_val l)) as [Hu0 Hu1].
  set (hi := u32 (12 + be_val l)) in *.
  destruct (Z.ltb_spec (12 + len rest) hi); [done|].
  destruct (Z.ltb_spec hi 12).
  { unfold slice. by rewrite (proj2 (Z.leb_gt 12 hi)), andb_false_r by lia. }
  rewrite slice_ret by lia. unfold slice_from. rewrite slice_ret by lia.
  rewrite Hlen. change (Z.to_nat 12) with 12%nat. rewrite Hd. simpl. do 2 f_equal.
  replace (Z.to_nat hi) with (12 + Z.to_nat (hi - 12))%nat by lia.
  rewrite <- drop_drop, Hd. rewrite take_ge; [done|].
  rewrite length_drop. unfold len in *. lia.
Qed.

Lemma bd_not {A} `{EqDecision A} (x : A) : bool_decide (x ≠ x) = false.
Proof. apply bool_decide_eq_false. intros H. by apply H. Qed.

(** Decoding an encoded field key gives back its partition, primary key and
    field name, for every primary key short enough that [12+pkLen] stays within
    32 bits. *)
Lemma DecodeFieldKey_Encode fk :
  is_u32 (FK_PartitionID fk) → len (FK_PrimaryKey fk) < 2 ^ 32 - 12 →
  DecodeFieldKey (FieldKey_Encode fk) = Ret fk.
Proof.
  destruct fk as [p pk name]. intros Hp Hpk. unfold FieldKey_Encode. cbn [FK_PartitionID FK_PrimaryKey FK_FieldName] in *.
  pose proof (len_nonneg pk). pose proof (len_nonneg name). rewrite PartitionKeyPrefix_eq.
  rewrite DecodeFieldKey_shape by apply length_be32. rewrite !bd_not. cbn [orb].
  unfold is_u32 in Hp. rewrite !be_val_be32 by (unfold is_u32; lia).
  rewrite u32_small by (unfold is_u32; lia). rewrite len_app. cbn zeta.
  rewrite !(proj2 (Z.ltb_ge _ _)) by lia.
  replace (Z.to_nat (12 + len pk - 12)) with (length pk) by (unfold len; lia).
  by rewrite take_app_length, drop_app_length.
Qed.

(** Whatever [DecodeFieldKey] accepts is the encoding of the key it returns,
    so no two storage keys decode to the same field key. *)
Lemma DecodeFieldKey_sound key fk :
  DecodeFieldKey key = Ret fk →
  FieldKey_Encode fk = key ∧ is_u32 (FK_PartitionID fk) ∧
  len (FK_PrimaryKey fk) < 2 ^ 32 - 12.
Proof.
  intros Hd. destruct (decide (12 ≤ len key)) as [Hk|Hk]; last first.
  { unfold DecodeFieldKey in Hd. rewrite (proj2 (Z.ltb_lt _ _)) in Hd by lia. done. }
  destruct (field_header_shape key Hk) as
    (h0 & h1 & p0 & p1 & p2 & p3 & h6 & h7 & l0 & l1 & l2 & l3 & rest & ->).
  rewrite DecodeFieldKey_shape in Hd by done.
  assert (length [p0; p1; p2; p3] = 4%nat) as Hp4 by done.
  assert (length [l0; l1; l2; l3] = 4%nat) as Hl4 by done.
  set (pid := [p0; p1; p2; p3]) in *. set (l := [l0; l1; l2; l3]) in *. clearbody pid l.
  destruct (_ || _ || _ || _) eqn:Hh in Hd; [done|]. unbool.
  repeat match goal with H : ¬ (_ ≠ _) |- _ => apply dec_stable in H end. subst h0 h1 h6 h7.
  pose proof (be_val_bound l) as Hl. pose proof (be_val_bound pid) as Hp.
  unfold len in Hl, Hp. rewrite Hl4 in Hl. rewrite Hp4 in Hp.
  change (8 * Z.of_nat 4) with 32 in *.
  cbn zeta in Hd. case_match; [done|]. case_match; [done|]. unbool. simplify_eq.
  unfold u32, wrap in *. destruct (decide (12 + be_val l < 2 ^ 32)) as [Hs|Hs]; last first.
  { replace ((12 + be_val l) mod 2 ^ 32) with (12 + be_val l - 2 ^ 32) in *; [lia|].
    apply Z.mod_unique with 1; lia. }
  rewrite Z.mod_small in * by lia.
  replace (Z.to_nat (12 + be_val l - 12)) with (Z.to_nat (be_val l)) in * by lia.
  assert (len (take (Z.to_nat (be_val l)) rest) = be_val l) as Htk.
  { unfold len in *. rewrite length_take. lia. }
  unfold FieldKey_Encode. cbn [FK_PartitionID FK_PrimaryKey FK_FieldName].
  rewrite Htk. split_and!; [|done..|lia].
  rewrite take_drop. unfold be32. by rewrite !be_bytes_val.
Qed.

(** C37: field keys have one encoding: a storage key decodes to a field key exactly
    when it is the encoding of that field key, for the partition ids and primary
    key lengths whose header arithmetic stays within 32 bits; everything else is
    rejected (or panics).  So decoding inverts encoding and no two storage keys
    name the same field. *)
Theorem DecodeFieldKey_iff key fk :
  DecodeFieldKey key = Ret fk ↔
  key = FieldKey_Encode fk ∧ is_u32 (FK_PartitionID fk) ∧
  len (FK_PrimaryKey fk) < 2 ^ 32 - 12.
Proof.
  split.
  - intros (<- & Hp & Hk)%DecodeFieldKey_sound. done.
  - intros (-> & Hp & Hk). by apply DecodeFieldKey_Encode.
Qed.

(** [DecodeFieldKey] is not total on storage keys: a regular key of the form
    [":f"] followed by a length of at least [2^32-12] makes [12+pkLen] wrap, the
    length test pass and the slice expression panic, and any user can store such
    a key.  [DecodeFieldKey] panics on exactly the keys with this shape. *)
Lemma DecodeFieldKey_panics_iff p n rest :
  is_u32 p → is_u32 n →
  let key := MakePartitionKey p ([colon; FieldKeyMarker] ++ be32 n ++ rest) in
  DecodeFieldKey key = Panic ↔ 2 ^ 32 - 12 ≤ n.
Proof.
  intros Hp Hn key. unfold key, MakePartitionKey. rewrite <- !app_assoc, PartitionKeyPrefix_eq.
  rewrite DecodeFieldKey_shape by apply length_be32. rewrite !bd_not. cbn [orb].
  rewrite !be_val_be32 by done. pose proof (len_nonneg rest). cbn zeta.
  unfold is_u32 in *. unfold u32, wrap.
  destruct (decide (12 + n < 2 ^ 32)) as [Hs|Hs].
  - rewrite Z.mod_small by lia. case_match; [naive_solver lia|]. unbool.
    rewrite (proj2 (Z.ltb_ge _ 12)) by lia. naive_solver lia.
  - replace ((12 + n) mod 2 ^ 32) with (12 + n - 2 ^ 32) by (apply Z.mod_unique with 1; lia).
    rewrite (proj2 (Z.ltb_ge _ _)) by lia. rewrite (proj2 (Z.ltb_lt _ _)) by lia.
    naive_solver lia.
Qed.

Lemma DecodeFieldKey_panics_iff_witness :
  is_u32 9 ∧ is_u32 (2 ^ 32 - 1) ∧
  DecodeFieldKey (MakePartitionKey 9 ([colon; FieldKeyMarker] ++ be32 (2 ^ 32 - 1) ++ []))
  = Panic.
Proof.
  split; [done|]. split; [done|].
  apply DecodeFieldKey_panics_iff; [done..|]. by vm_compute.
Defined.

(** The ["f"] marker does not separate field keys from regular keys: a
    regular key and a field key coincide exactly when the user's key spells out
    the field key's suffix.  In particular no regular key that does not start
    with [":f"] can collide with a field. *)
Lemma field_key_alias_iff p q key pk f :
  is_u32 p → is_u32 q →
  MakePartitionKey p key = MakeFieldKey q pk f ↔
  p = q ∧ key = [colon; FieldKeyMarker] ++ be32 (len pk) ++ pk ++ f.
Proof.
  intros Hp Hq. rewrite MakeFieldKey_as_partition. split.
  - by intros H%MakePartitionKey_inj.
  - by intros [-> ->].
Qed.

Lemma field_key_alias_iff_witness :
  is_u32 1 ∧
  MakePartitionKey 1 ([colon; FieldKeyMarker] ++ be32 1 ++ str_bytes "kname")
  = MakeFieldKey 1 (str_bytes "k") (str_bytes "name").
Proof. split; [done|]. apply field_key_alias_iff; done. Defined.

(** ** Order and ranges *)

Lemma compareBytes_loop_cons x a y b i n :
  compareBytes_loop (x :: a) (y :: b) (S i) n = compareBytes_loop a b i n.
Proof. revert i. induction n as [|n IH]; intros i; [done|]. simpl. by rewrite IH. Qed.

Lemma compareBytes_cons x a y b :
  compareBytes (x :: a) (y :: b) =
  if byte_Z x <? byte_Z y then -1
  else if byte_Z y <? byte_Z x then 1 else compareBytes a b.
Proof.
  unfold compareBytes. rewrite !len_cons. cbn [length].
  change (Nat.ltb (S (length b)) (S (length a))) with (Nat.ltb (length b) (length a)).
  assert ((if Nat.ltb (length b) (length a) then S (length b) else S (length a)) =
    S (if Nat.ltb (length b) (length a) then length b else length a)) as -> by by case_match.
  cbn [compareBytes_loop lookup list_lookup]. rewrite compareBytes_loop_cons.
  destruct (byte_Z x <? byte_Z y); [done|]. destruct (byte_Z y <? byte_Z x); [done|].
  case_match; [done|].
  replace (1 + len a <? 1 + len b) with (len a <? len b); [|apply eq_bool_prop_intro].
  - replace (1 + len b <? 1 + len a) with (len b <? len a); [done|apply eq_bool_prop_intro].
    rewrite !Is_true_true, !Z.ltb_lt. lia.
  - rewrite !Is_true_true, !Z.ltb_lt. lia.
Qed.

(** The byte loop of [compareBytes] is the three-way form of the
    lexicographic order RocksDB iterates in: negative, zero and positive exactly
    when the first key is smaller, equal and greater. *)
Lemma compareBytes_spec a b :
  (compareBytes a b < 0 ↔ bytes_lt a b) ∧
  (compareBytes a b = 0 ↔ a = b) ∧
  (0 < compareBytes a b ↔ bytes_lt b a).
Proof.
  revert b. induction a as [|x a IH]; intros [|y b].
  - unfold bytes_lt, bytes_le. vm_compute. naive_solver.
  - unfold compareBytes, bytes_lt, bytes_le. rewrite len_cons. cbn [length].
    replace (Nat.ltb (S (length b)) 0) with false by done. simpl.
    pose proof (len_nonneg b). rewrite (proj2 (Z.ltb_lt _ _)) by (change (len []) with 0; lia).
    naive_solver lia.
  - unfold compareBytes, bytes_lt, bytes_le. rewrite len_cons. cbn [length].
    replace (Nat.ltb 0 (S (length a))) with true by done. simpl.
    pose proof (len_nonneg a). change (len []) with 0.
    rewrite (proj2 (Z.ltb_ge _ _)), (proj2 (Z.ltb_lt _ _)) by lia. naive_solver lia.
  - rewrite compareBytes_cons. unfold bytes_lt in *. rewrite !bytes_leb_cons.
    destruct (Z.ltb_spec (byte_Z x) (byte_Z y)); [naive_solver lia|].
    destruct (Z.ltb_spec (byte_Z y) (byte_Z x)); [naive_solver lia|].
    assert (x = y) as -> by (apply byte_Z_inj; lia).
    destruct (IH b) as (H1 & H2 & H3). rewrite H1, H2, H3. naive_solver lia.
Qed.

Lemma be_bytes_le_app a b ta tb :
  length a = length b →
  bytes_le (a ++ ta) (b ++ tb) ↔ be_val a < be_val b ∨ (a = b ∧ bytes_le ta tb).
Proof.
  intros Hl. destruct (Z.lt_total (be_val a) (be_val b)) as [H|[H|H]].
  - split; [by left|]. intros _. by apply bytes_lt_le, be_val_lt_bytes.
  - assert (a = b) as ->.
    { apply (f_equal (be_bytes (length a))) in H. by rewrite !be_bytes_val in H. }
    rewrite bytes_le_app. naive_solver lia.
  - split; [|intros [?|[-> ?]]; lia]. intros Hle. exfalso.
    by apply (be_val_lt_bytes b a tb ta).
Qed.

Lemma be_bytes_lt_app a b ta tb :
  length a = length b →
  bytes_lt (a ++ ta) (b ++ tb) ↔ be_val a < be_val b ∨ (a = b ∧ bytes_lt ta tb).
Proof.
  intros Hl. unfold bytes_lt. rewrite be_bytes_le_app by done.
  assert (be_val a = be_val b → a = b) as Hi.
  { intros H. apply (f_equal (be_bytes (length a))) in H. by rewrite !be_bytes_val in H. }
  destruct (Z.lt_total (be_val a) (be_val b)) as [H|[H|H]]; naive_solver lia.
Qed.

(** A scan from the start of a partition's range up to its end, on keys long
    enough to carry a partition id. *)
Definition in_partition_range (p : Z) (key : bytes) : Prop :=
  let '(start, end_) := GetPartitionRange p in
  bytes_le start key ∧ compareBytes key end_ < 0.

(** The key range of a partition holds, among the keys that are long enough
    to carry a partition id, exactly the keys made for that partition, so scans
    over two partitions never meet.  (The end of the range of the largest 32-bit
    id wraps, and ids of this program stay below 4096.) *)
Lemma partition_range_exact p key :
  is_u32 p → p ≠ 2 ^ 32 - 1 → 6 ≤ len key →
  in_partition_range p key ↔ ∃ k, key = MakePartitionKey p k.
Proof.
  intros Hp Hmax Hlen. unfold in_partition_range, GetPartitionRange, MakePartitionKey.
  rewrite (proj1 (compareBytes_spec _ _)).
  rewrite u32_small by (unfold is_u32 in *; lia).
  assert (∃ hd tl, key = hd ++ tl ∧ length hd = 6%nat) as (hd & tl & -> & Hhd).
  { exists (take 6 key), (drop 6 key). rewrite take_drop. split; [done|].
    unfold len in Hlen. rewrite length_take. lia. }
  set (st := PartitionKeyPrefix ++ be32 p). set (en := PartitionKeyPrefix ++ be32 (p + 1)).
  assert (length st = 6%nat) as Hst by done. assert (length en = 6%nat) as Hen by done.
  assert (be_val en = be_val st + 1) as Hnext.
  { unfold st, en. rewrite PartitionKeyPrefix_eq. cbn [app]. rewrite !be_val_cons.
    rewrite !be_val_be32 by (unfold is_u32 in *; lia). autorewrite with rocks. lia. }
  rewrite <- (app_nil_r st) at 1. rewrite <- (app_nil_r en).
  rewrite be_bytes_le_app, be_bytes_lt_app by congruence.
  split.
  - intros [[H1|[H1 _]] [H2|[H2 Ht]]].
    + lia.
    + exfalso. by apply Ht.
    + exists tl. by rewrite H1.
    + rewrite H1, H2 in Hnext. lia.
  - intros [k Hk]. apply app_inj_1 in Hk as [-> ->]; [|congruence]. split.
    + by right.
    + left. lia.
Qed.
