(* ===== verification/FieldCodec.v ===== *)
(** * Field batches and attribute groups

    The two byte formats of [src/pkg/storage/field_storage.go]: [FieldBatch], the
    payload of a field command in the command log and of a field entry in a
    replication request, and [AttributeGroup], the value of a grouped field.

    Decoding reads from a [bytes.Reader]; the reader here is the list of bytes
    that are left.  The three ways the code reads behave differently at the end
    of the input, and the difference matters:
    - [binary.Read] and [io.ReadFull] want all the bytes;
    - [Reader.Read] returns what is left and leaves the rest of the buffer zero,
      but at the end of the input it fails even when asked for nothing;
    - [Reader.ReadByte] wants one byte. *)

From S2P Require Import Prelude.

(** ** bytes.Reader *)

(** [io.ReadFull(r, buf)] with a buffer of [n] bytes; an empty buffer needs no
    read at all. *)
Definition rd_full (n : nat) (r : bytes) : outcome (bytes * bytes) :=
  match n, r with
  | O, _ => Ret ([], r)
  | S _, [] => Err EOF
  | S _, _ :: _ =>
      if Nat.ltb (length r) n then Err UnexpectedEOF
      else Ret (take n r, drop n r)
  end.

(** [buf.Read(b)] with a zeroed buffer of [n] bytes. *)
Definition rd_read (n : nat) (r : bytes) : outcome (bytes * bytes) :=
  match r with
  | [] => Err EOF
  | _ :: _ =>
      let got := take n r in
      Ret (got ++ replicate (n - length got) Byte.x00, drop n r)
  end.

(** [buf.ReadByte()] *)
Definition rd_byte (r : bytes) : outcome (byte * bytes) :=
  match r with
  | [] => Err EOF
  | b :: r' => Ret (b, r')
  end.

(** [binary.Read(buf, binary.BigEndian, &x)] for an unsigned [x] of [n] bytes. *)
Definition rd_uint (n : nat) (r : bytes) : outcome (Z * bytes) :=
  '(b, r') ← rd_full n r; Ret (be_val b, r').

Lemma rd_full_app a r : rd_full (length a) (a ++ r) = Ret (a, r).
Proof.
  unfold rd_full. destruct a as [|x a]; [done|]. cbn [length app].
  rewrite (proj2 (Nat.ltb_ge _ _)) by (cbn [length]; rewrite length_app; lia).
  cbn [take drop]. by rewrite take_app_length, drop_app_length.
Qed.

Lemma rd_full_inv n r a r' : rd_full n r = Ret (a, r') → r = a ++ r' ∧ length a = n.
Proof.
  unfold rd_full. destruct n, r; intros; simplify_eq/=; [done..|].
  case_match eqn:Hl; [done|]. apply Nat.ltb_ge in Hl. simplify_eq/=.
  rewrite take_drop, length_take. split; [done|lia].
Qed.

Lemma rd_full_no_panic n r : rd_full n r ≠ Panic.
Proof. unfold rd_full. destruct n, r; try done. by case_match. Qed.

Lemma rd_read_app a r : a ++ r ≠ [] → rd_read (length a) (a ++ r) = Ret (a, r).
Proof.
  intros Ha. unfold rd_read. destruct (a ++ r) eqn:E; [done|]. rewrite <- E. cbn zeta.
  by rewrite take_app_length, drop_app_length, Nat.sub_diag, app_nil_r.
Qed.

(** A short read: what is missing is zeros. *)
Lemma rd_read_short a n :
  a ≠ [] → (length a ≤ n)%nat →
  rd_read n a = Ret (a ++ replicate (n - length a) Byte.x00, []).
Proof.
  intros Ha Hn. unfold rd_read. destruct a eqn:E; [done|]. rewrite <- E in *. cbn zeta.
  by rewrite take_ge, drop_ge by lia.
Qed.

Lemma rd_uint16 z r : is_u16 z → rd_uint 2 (be16 z ++ r) = Ret (z, r).
Proof.
  intros Hz. unfold rd_uint. pose proof (rd_full_app (be16 z) r) as H.
  rewrite length_be16 in H. rewrite H. cbn [mbind outcome_bind]. by rewrite be_val_be16.
Qed.

Lemma rd_uint32 z r : is_u32 z → rd_uint 4 (be32 z ++ r) = Ret (z, r).
Proof.
  intros Hz. unfold rd_uint. pose proof (rd_full_app (be32 z) r) as H.
  rewrite length_be32 in H. rewrite H. cbn [mbind outcome_bind]. by rewrite be_val_be32.
Qed.

Lemma rd_uint_no_panic n r : rd_uint n r ≠ Panic.
Proof.
  unfold rd_uint. pose proof (rd_full_no_panic n r). by destruct (rd_full n r) as [[]| |].
Qed.
Lemma rd_read_no_panic n r : rd_read n r ≠ Panic.
Proof. by destruct r. Qed.
Lemma rd_byte_no_panic r : rd_byte r ≠ Panic.
Proof. by destruct r. Qed.

Lemma bind_no_panic {A B} (m : outcome A) (k : A → outcome B) :
  m ≠ Panic → (∀ a, m = Ret a → k a ≠ Panic) → m ≫= k ≠ Panic.
Proof. destruct m; naive_solver. Qed.

(** ** FieldBatch *)

Record FieldUpdate := mkFieldUpdate {
  FU_FieldName : bytes;
  FU_Value : bytes;
  FU_IsDelete : bool
}.

#[global] Instance FieldUpdate_eq_dec : EqDecision FieldUpdate.
Proof. solve_decision. Defined.

Definition FieldBatchFormatVersion : byte := Byte.x01.

Record FieldBatch := mkFieldBatch {
  FB_PartitionID : Z;
  FB_PrimaryKey : bytes;
  FB_Updates : list FieldUpdate
}.

#[global] Instance FieldBatch_eq_dec : EqDecision FieldBatch.
Proof. solve_decision. Defined.

Definition encode_update (u : FieldUpdate) : bytes :=
  be16 (len (FU_FieldName u)) ++ FU_FieldName u ++
  [if FU_IsDelete u then Byte.x01 else Byte.x00] ++
  be32 (len (FU_Value u)) ++ FU_Value u.

Definition FieldBatch_Encode (fb : FieldBatch) : bytes :=
  [FieldBatchFormatVersion] ++
  be32 (FB_PartitionID fb) ++
  be32 (len (FB_PrimaryKey fb)) ++ FB_PrimaryKey fb ++
  be32 (len (FB_Updates fb)) ++
  concat (map encode_update (FB_Updates fb)).

(** The body of the loop of [decodeFieldBatchContent]. *)
Definition decode_update (r : bytes) : outcome (FieldUpdate * bytes) :=
  '(fieldLen, r) ← rd_uint 2 r;
  '(fieldBytes, r) ← rd_read (Z.to_nat fieldLen) r;
  '(isDeleteByte, r) ← rd_byte r;
  '(valueLen, r) ← rd_uint 4 r;
  let isDelete := bool_decide (isDeleteByte = Byte.x01) in
  if 0 <? valueLen then
    '(value, r) ← rd_read (Z.to_nat valueLen) r;
    Ret (mkFieldUpdate fieldBytes value isDelete, r)
  else Ret (mkFieldUpdate fieldBytes [] isDelete, r).

Fixpoint decode_updates (count : nat) (r : bytes) : outcome (list FieldUpdate) :=
  match count with
  | O => Ret []
  | S n =>
      '(u, r) ← decode_update r;
      us ← decode_updates n r;
      Ret (u :: us)
  end.

Definition decodeFieldBatchContent (r : bytes) : outcome FieldBatch :=
  '(partitionID, r) ← rd_uint 4 r;
  '(pkLen, r) ← rd_uint 4 r;
  '(pk, r) ← rd_read (Z.to_nat pkLen) r;
  '(count, r) ← rd_uint 4 r;
  updates ← decode_updates (Z.to_nat count) r;
  Ret (mkFieldBatch partitionID pk updates).

Definition decodeFieldBatchV1 (data : bytes) : outcome FieldBatch :=
  if len data <? 12 then Err (Errorf "field batch v1 data too short")
  else decodeFieldBatchContent data.

Definition decodeFieldBatchLegacy (data : bytes) : outcome FieldBatch :=
  decodeFieldBatchContent data.

Definition DecodeFieldBatch (data : bytes) : outcome FieldBatch :=
  match data with
  | [] => Err (Errorf "field batch data too short")
  | version :: rest =>
      if bool_decide (version = FieldBatchFormatVersion) then decodeFieldBatchV1 rest
      else if 12 <=? len data then decodeFieldBatchLegacy data
      else Err (Errorf "unsupported field batch version")
  end.

(** The lengths the encoder writes fit their fields. *)
Definition wf_update (u : FieldUpdate) : Prop :=
  is_u16 (len (FU_FieldName u)) ∧ is_u32 (len (FU_Value u)).
Definition wf_batch (fb : FieldBatch) : Prop :=
  is_u32 (FB_PartitionID fb) ∧ is_u32 (len (FB_PrimaryKey fb)) ∧
  is_u32 (len (FB_Updates fb)) ∧ Forall wf_update (FB_Updates fb).

#[global] Instance wf_update_dec u : Decision (wf_update u).
Proof. unfold wf_update. apply _. Defined.
#[global] Instance wf_batch_dec fb : Decision (wf_batch fb).
Proof. unfold wf_batch. apply _. Defined.

Lemma to_nat_len {A} (l : list A) : Z.to_nat (len l) = length l.
Proof. unfold len. apply Nat2Z.id. Qed.
#[export] Hint Rewrite @to_nat_len : rocks.

Lemma decode_update_app u r :
  wf_update u → decode_update (encode_update u ++ r) = Ret (u, r).
Proof.
  destruct u as [name value del]. intros [Hn Hv]. unfold decode_update, encode_update.
  cbn [FU_FieldName FU_Value FU_IsDelete] in *. rewrite <- !app_assoc.
  rewrite rd_uint16 by done. cbn [mbind outcome_bind].
  rewrite to_nat_len, rd_read_app by (destruct name, del; done). cbn [mbind outcome_bind app rd_byte].
  rewrite rd_uint32 by done. cbn [mbind outcome_bind].
  assert (bool_decide ((if del then Byte.x01 else Byte.x00) = Byte.x01) = del) as ->
    by by destruct del.
  destruct (Z.ltb_spec 0 (len value)) as [Hpos|Hzero].
  - rewrite to_nat_len, rd_read_app by (destruct value; [by vm_compute in Hpos|done]). done.
  - destruct value; [done|]. rewrite len_cons in Hzero. pose proof (len_nonneg value). lia.
Qed.

Lemma decode_updates_app us r :
  Forall wf_update us →
  decode_updates (length us) (concat (map encode_update us) ++ r) = Ret us.
Proof.
  induction 1 as [|u us Hu Hus IH]; [done|]. cbn [decode_updates length map concat].
  rewrite <- app_assoc, decode_update_app by done. cbn [mbind outcome_bind].
  by rewrite IH.
Qed.

Lemma decodeFieldBatchContent_encode fb :
  wf_batch fb → decodeFieldBatchContent (tail (FieldBatch_Encode fb)) = Ret fb.
Proof.
  destruct fb as [p pk us]. intros (Hp & Hk & Hc & Hu).
  cbn [FB_PartitionID FB_PrimaryKey FB_Updates] in *.
  unfold FieldBatch_Encode, decodeFieldBatchContent. cbn [app tail FB_PartitionID FB_PrimaryKey FB_Updates].
  do 2 (rewrite rd_uint32 by done; cbn [mbind outcome_bind]).
  rewrite to_nat_len, rd_read_app by (intros [_ ?]%app_eq_nil; done). cbn [mbind outcome_bind].
  rewrite rd_uint32 by done. cbn [mbind outcome_bind].
  pose proof (decode_updates_app us [] Hu) as H. rewrite app_nil_r in H.
  by rewrite to_nat_len, H.
Qed.

(** C34: a batch written to the command log or sent to a replica decodes to the
    same batch, provided its partition id, key, field names, values and update
    count fit the widths of the format. *)
Theorem DecodeFieldBatch_Encode fb :
  wf_batch fb → DecodeFieldBatch (FieldBatch_Encode fb) = Ret fb.
Proof.
  intros Hwf. pose proof (decodeFieldBatchContent_encode fb Hwf) as H.
  unfold FieldBatch_Encode in *. cbn [app tail DecodeFieldBatch] in *.
  rewrite bool_decide_eq_true_2 by done. unfold decodeFieldBatchV1.
  rewrite (proj2 (Z.ltb_ge _ _)); [done|]. autorewrite with rocks.
  pose proof (len_nonneg (FB_PrimaryKey fb)).
  pose proof (len_nonneg (concat (map encode_update (FB_Updates fb)))). lia.
Qed.

Lemma DecodeFieldBatch_Encode_witness :
  let fb := mkFieldBatch 5 (str_bytes "user:1")
    [mkFieldUpdate (str_bytes "name") (str_bytes "bob") false;
     mkFieldUpdate (str_bytes "age") [] true] in
  wf_batch fb ∧ DecodeFieldBatch (FieldBatch_Encode fb) = Ret fb.
Proof.
  intros fb. assert (wf_batch fb) as H by (apply (bool_decide_unpack _); vm_compute; done).
  split; [exact H|]. exact (DecodeFieldBatch_Encode fb H).
Defined.

(** Data written before the version byte was introduced still decodes: the
    legacy form (the same content with no version byte) is accepted whenever the
    first byte of the partition id is not the version number, which holds for
    every partition id below [2^24]. *)
Lemma DecodeFieldBatch_legacy fb :
  wf_batch fb → FB_PartitionID fb < 2 ^ 24 →
  DecodeFieldBatch (tail (FieldBatch_Encode fb)) = Ret fb.
Proof.
  intros Hwf Hp. pose proof (decodeFieldBatchContent_encode fb Hwf) as H.
  assert (12 ≤ len (tail (FieldBatch_Encode fb))) as Hlen.
  { unfold FieldBatch_Encode. cbn [app tail]. autorewrite with rocks.
    pose proof (len_nonneg (FB_PrimaryKey fb)).
    pose proof (len_nonneg (concat (map encode_update (FB_Updates fb)))). lia. }
  destruct (tail (FieldBatch_Encode fb)) as [|v rest] eqn:E; [by vm_compute in Hlen|].
  unfold DecodeFieldBatch. rewrite bool_decide_eq_false_2.
  - by rewrite (proj2 (Z.leb_le _ _)).
  - unfold FieldBatch_Encode, be32 in E. cbn [app tail be_bytes] in E.
    apply (f_equal head) in E. cbn in E. injection E as <-.
    destruct Hwf as [[Hp0 _] _]. rewrite Z.shiftr_div_pow2, Z.div_small by (done || lia).
    done.
Qed.

Lemma DecodeFieldBatch_legacy_witness :
  let fb := mkFieldBatch 4095 (str_bytes "k") [mkFieldUpdate (str_bytes "f") (str_bytes "v") false] in
  DecodeFieldBatch (tail (FieldBatch_Encode fb)) = Ret fb.
Proof.
  intros fb. apply DecodeFieldBatch_legacy; [|done].
  apply (bool_decide_unpack _). by vm_compute.
Defined.

Lemma decode_update_no_panic r : decode_update r ≠ Panic.
Proof.
  unfold decode_update.
  repeat (apply bind_no_panic;
    [apply rd_uint_no_panic || apply rd_read_no_panic || apply rd_byte_no_panic|intros [? ?] _]).
  case_match; [|done]. apply bind_no_panic; [apply rd_read_no_panic|by intros [? ?] _].
Qed.

Lemma decode_updates_no_panic n r : decode_updates n r ≠ Panic.
Proof.
  revert r. induction n as [|n IH]; intros r; simpl; [done|].
  apply bind_no_panic; [apply decode_update_no_panic|]. intros [u r'] _.
  apply bind_no_panic; [apply IH|done].
Qed.

(** Decoding a field batch never panics, whatever bytes a replication request
    or a log file holds. *)
Lemma DecodeFieldBatch_no_panic data : DecodeFieldBatch data ≠ Panic.
Proof.
  assert (∀ r, decodeFieldBatchContent r ≠ Panic) as Hc.
  { intros r. unfold decodeFieldBatchContent.
    repeat (apply bind_no_panic;
      [apply rd_uint_no_panic || apply rd_read_no_panic|intros [? ?] _]).
    apply bind_no_panic; [apply decode_updates_no_panic|done]. }
  destruct data as [|v rest]; simpl; [done|].
  unfold decodeFieldBatchV1, decodeFieldBatchLegacy. case_split; auto.
Qed.

(** Decoding the updates of a batch whose last value is cut short. *)
Lemma decode_updates_truncated us (name v : bytes) (b : byte) (del : bool) :
  Forall wf_update us → v ≠ [] → is_u16 (len name) → is_u32 (len (v ++ [b])) →
  decode_updates (length us + 1)
    (concat (map encode_update us) ++
     be16 (len name) ++ name ++ [if del then Byte.x01 else Byte.x00] ++
     be32 (len (v ++ [b])) ++ v)
  = Ret (us ++ [mkFieldUpdate name (v ++ [Byte.x00]) del]).
Proof.
  intros Hus Hv Hn Hl. induction Hus as [|u us Hu Hus IH].
  - cbn [length Nat.add decode_updates map concat app]. unfold decode_update.
    rewrite rd_uint16 by done. cbn [mbind outcome_bind].
    rewrite to_nat_len, rd_read_app by (destruct name, del; done). cbn [mbind outcome_bind app rd_byte].
    rewrite rd_uint32 by done. cbn [mbind outcome_bind].
    assert (bool_decide ((if del then Byte.x01 else Byte.x00) = Byte.x01) = del) as ->
      by by destruct del.
    rewrite len_app. rewrite (proj2 (Z.ltb_lt _ _)) by (pose proof (len_nonneg v); change (len [b]) with 1; lia).
    rewrite rd_read_short; [|done|unfold len; lia]. cbn [mbind outcome_bind].
    replace (Z.to_nat (len v + len [b]) - length v)%nat with 1%nat by (unfold len; simpl; lia).
    done.
  - cbn [length Nat.add decode_updates map concat]. rewrite <- app_assoc.
    rewrite decode_update_app by done. cbn [mbind outcome_bind]. by rewrite IH.
Qed.

(** A truncated batch is not always rejected: [Reader.Read] accepts a short
    read, so a batch whose last value lost its last byte decodes, with a zero in
    the place of the byte that is missing. *)
Lemma DecodeFieldBatch_accepts_truncation p pk us (name v : bytes) (b : byte) (del : bool) :
  wf_batch (mkFieldBatch p pk (us ++ [mkFieldUpdate name (v ++ [b]) del])) → v ≠ [] →
  let data := FieldBatch_Encode (mkFieldBatch p pk (us ++ [mkFieldUpdate name (v ++ [b]) del])) in
  DecodeFieldBatch (take (length data - 1) data)
  = Ret (mkFieldBatch p pk (us ++ [mkFieldUpdate name (v ++ [Byte.x00]) del])).
Proof.
  intros (Hp & Hk & Hc & Hu) Hv data. cbn [FB_PartitionID FB_PrimaryKey FB_Updates] in *.
  apply Forall_app in Hu as [Hu Hlast]. apply Forall_inv in Hlast as [Hn Hvl].
  cbn [FU_FieldName FU_Value] in *.
  set (body := concat (map encode_update us) ++ be16 (len name) ++ name ++
    [if del then Byte.x01 else Byte.x00] ++ be32 (len (v ++ [b])) ++ v).
  set (hdr := be32 p ++ be32 (len pk) ++ pk ++
    be32 (len (us ++ [mkFieldUpdate name (v ++ [b]) del])) ++ body).
  assert (data = ([FieldBatchFormatVersion] ++ hdr) ++ [b]) as Hdata.
  { unfold data, FieldBatch_Encode, hdr, body. cbn [FB_PartitionID FB_PrimaryKey FB_Updates].
    rewrite map_app, concat_app. unfold encode_update at 2.
    cbn [map concat FU_FieldName FU_Value FU_IsDelete]. rewrite app_nil_r.
    by repeat (rewrite <- app_assoc || rewrite app_comm_cons). }
  rewrite Hdata, length_app. rewrite (take_app_length' _ [b]) by (simpl; lia).
  cbn [app DecodeFieldBatch]. rewrite bool_decide_eq_true_2 by done.
  unfold decodeFieldBatchV1.
  assert (¬ len hdr < 12) as Hlen.
  { unfold hdr. autorewrite with rocks. pose proof (len_nonneg pk). pose proof (len_nonneg body). lia. }
  rewrite (proj2 (Z.ltb_ge _ _)) by lia. unfold decodeFieldBatchContent, hdr.
  do 2 (rewrite rd_uint32 by done; cbn [mbind outcome_bind]).
  rewrite to_nat_len, rd_read_app by (intros [_ ?]%app_eq_nil; done). cbn [mbind outcome_bind].
  rewrite rd_uint32 by done. cbn [mbind outcome_bind].
  rewrite to_nat_len, length_app. cbn [length].
  unfold body. by rewrite decode_updates_truncated.
Qed.

Lemma DecodeFieldBatch_accepts_truncation_witness :
  let data := FieldBatch_Encode (mkFieldBatch 1 (str_bytes "k")
    [mkFieldUpdate (str_bytes "f") (str_bytes "ab") false]) in
  DecodeFieldBatch (take (length data - 1) data)
  = Ret (mkFieldBatch 1 (str_bytes "k")
      [mkFieldUpdate (str_bytes "f") (str_bytes "a" ++ [Byte.x00]) false]).
Proof.
  apply (DecodeFieldBatch_accepts_truncation 1 (str_bytes "k") [] (str_bytes "f")
    (str_bytes "a") Byte.x62 false).
  - apply (bool_decide_unpack _). by vm_compute.
  - done.
Defined.

(** ** AttributeGroup *)

Record AttributeGroup := mkAttributeGroup {
  AG_Name : bytes;
  AG_Fields : gmap bytes bytes
}.

(** The field names in [sort.Strings] order. *)
Definition sorted_names (m : gmap bytes bytes) : list bytes :=
  merge_sort bytes_le (map_to_list m).*1.

Definition encode_pair (name value : bytes) : bytes :=
  be16 (len name) ++ name ++ be32 (len value) ++ value.

Definition AttributeGroup_Encode (ag : AttributeGroup) : bytes :=
  let names := sorted_names (AG_Fields ag) in
  be32 (Z.of_nat (size (AG_Fields ag))) ++
  concat (map (λ name, encode_pair name (default [] (AG_Fields ag !! name))) names).

Definition decode_pair (r : bytes) : outcome (bytes * bytes * bytes) :=
  '(nameLen, r) ← rd_uint 2 r;
  '(name, r) ← rd_read (Z.to_nat nameLen) r;
  '(valueLen, r) ← rd_uint 4 r;
  '(value, r) ← rd_read (Z.to_nat valueLen) r;
  Ret (name, value, r).

Fixpoint decode_pairs (count : nat) (fields : gmap bytes bytes) (r : bytes) :
    outcome (gmap bytes bytes) :=
  match count with
  | O => Ret fields
  | S n =>
      '(name, value, r) ← decode_pair r;
      decode_pairs n (<[name:=value]> fields) r
  end.

Definition DecodeAttributeGroup (data : bytes) : outcome AttributeGroup :=
  if len data <? 4 then Err (Errorf "attribute group data too short")
  else
    '(count, r) ← rd_uint 4 data;
    fields ← decode_pairs (Z.to_nat count) ∅ r;
    Ret (mkAttributeGroup [] fields).

Definition wf_group (ag : AttributeGroup) : Prop :=
  is_u32 (Z.of_nat (size (AG_Fields ag))) ∧
  map_Forall (λ name value, is_u16 (len name) ∧ is_u32 (len value)) (AG_Fields ag).

#[global] Instance wf_group_dec ag : Decision (wf_group ag).
Proof. unfold wf_group. apply _. Defined.

Lemma decode_pair_app (name value r : bytes) :
  is_u16 (len name) → is_u32 (len value) →
  decode_pair (encode_pair name value ++ r) =
  if bool_decide (value ++ r = []) then Err EOF else Ret (name, value, r).
Proof.
  intros Hn Hv. unfold decode_pair, encode_pair. rewrite <- !app_assoc.
  rewrite rd_uint16 by done. cbn [mbind outcome_bind].
  rewrite to_nat_len, rd_read_app by (by destruct name). cbn [mbind outcome_bind].
  rewrite rd_uint32 by done. cbn [mbind outcome_bind].
  case_bool_decide as He.
  - apply app_eq_nil in He as [-> ->]. done.
  - by rewrite to_nat_len, rd_read_app.
Qed.

Lemma encode_pair_nonempty name value r : encode_pair name value ++ r ≠ [].
Proof. done. Qed.

(** Reading back the pairs of a list of names: the value of the last one must
    not be empty. *)
Lemma decode_pairs_names (F : bytes → bytes) names m :
  Forall (λ n, is_u16 (len n) ∧ is_u32 (len (F n))) names →
  decode_pairs (length names) m (concat (map (λ n, encode_pair n (F n)) names)) =
  if bool_decide (F <$> last names = Some []) then Err EOF
  else Ret (foldl (λ m n, <[n:=F n]> m) m names).
Proof.
  intros Hn. revert m. induction Hn as [|n names [Hn Hv] Hns IH]; intros m; [done|].
  cbn [length map concat decode_pairs]. rewrite decode_pair_app by done.
  destruct names as [|n' names].
  - cbn [map concat last length decode_pairs foldl]. rewrite app_nil_r.
    destruct (decide (F n = [])) as [He|He].
    + by rewrite !bool_decide_eq_true_2 by (simpl; congruence).
    + by rewrite !bool_decide_eq_false_2 by (simpl; congruence).
  - rewrite bool_decide_eq_false_2.
    + cbn [mbind outcome_bind]. rewrite IH. done.
    + intros [_ He]%app_eq_nil. by apply encode_pair_nonempty in He.
Qed.

Lemma foldl_insert_lookup (F : bytes → bytes) (names : list bytes) (m : gmap bytes bytes) (k : bytes) :
  foldl (λ (m : gmap bytes bytes) n, <[n:=F n]> m) m names !! k =
  if decide (k ∈ names) then Some (F k) else m !! k.
Proof.
  revert m. induction names as [|n names IH]; intros m; cbn [foldl].
  { by rewrite decide_False by set_solver. }
  rewrite IH. destruct (decide (k = n)) as [->|Hne].
  - rewrite (decide_True (P := n ∈ n :: names)) by set_solver.
    case_decide; [done|]. by rewrite lookup_insert_eq.
  - rewrite lookup_insert_ne by done.
    destruct (decide (k ∈ names)); [rewrite decide_True by set_solver; done|].
    by rewrite decide_False by set_solver.
Qed.

Lemma elem_of_sorted_names m k : k ∈ sorted_names m ↔ is_Some (m !! k).
Proof.
  unfold sorted_names. rewrite merge_sort_Permutation, list_elem_of_fmap.
  split.
  - intros [[n v] [-> Hnv%elem_of_map_to_list]]. by exists v.
  - intros [v Hv]. exists (k, v). by rewrite elem_of_map_to_list.
Qed.

Lemma length_sorted_names m : length (sorted_names m) = size m.
Proof.
  unfold sorted_names. rewrite merge_sort_Permutation, length_fmap.
  apply length_map_to_list.
Qed.

(** The field with the greatest name has an empty value. *)
Definition ends_empty (m : gmap bytes bytes) : bool :=
  bool_decide ((m !!.) <$> last (sorted_names m) = Some (Some [])).

(** An attribute group decodes to the fields it was encoded from, except when
    the field with the greatest name has an empty value: the decoder then asks a
    reader at its end for zero bytes, gets [io.EOF], and rejects its own encoding. *)
Lemma DecodeAttributeGroup_Encode ag :
  wf_group ag →
  DecodeAttributeGroup (AttributeGroup_Encode ag) =
  if ends_empty (AG_Fields ag) then Err EOF
  else Ret (mkAttributeGroup [] (AG_Fields ag)).
Proof.
  destruct ag as [name m]. intros [Hs Hf]. cbn [AG_Fields AG_Name] in *.
  unfold DecodeAttributeGroup, AttributeGroup_Encode. cbn [AG_Fields].
  set (F := λ n, default [] (m !! n)).
  set (body := concat (map (λ n, encode_pair n (F n)) (sorted_names m))).
  change (concat _) with body.
  rewrite len_app, len_be32. pose proof (len_nonneg body).
  rewrite (proj2 (Z.ltb_ge _ _)) by lia.
  rewrite rd_uint32 by done. cbn [mbind outcome_bind].
  rewrite Nat2Z.id, <- length_sorted_names. subst body. rewrite decode_pairs_names.
  2:{ apply Forall_forall. intros n [v Hv]%elem_of_sorted_names.
      unfold F. rewrite Hv. exact (Hf n v Hv). }
  assert (foldl (λ m' n, <[n:=F n]> m') ∅ (sorted_names m) = m) as ->.
  { apply map_eq. intros k. rewrite foldl_insert_lookup, lookup_empty.
    unfold F. case_decide as Hk; rewrite elem_of_sorted_names in Hk.
    - by destruct Hk as [v ->].
    - by apply eq_None_not_Some in Hk. }
  unfold ends_empty.
  destruct (last (sorted_names m)) as [n|] eqn:Hl; [|done]. cbn [fmap option_fmap option_map].
  assert (is_Some (m !! n)) as [v Hv].
  { apply elem_of_sorted_names. apply last_Some in Hl as [l' ->]. set_solver. }
  unfold F. rewrite Hv. cbn [default]. repeat case_bool_decide; simplify_eq/=; congruence.
Qed.

