(* ===== verification/FieldStorage.v ===== *)
(** * Field storage

    [FieldStorage] and [GroupedFieldStorage] of
    [src/pkg/storage/field_storage.go]: the fields of a primary key are separate
    engine keys under one prefix.

    The abstract view is a document per primary key, a finite map from field
    names to values ([doc_of]).  The refinement theorem says that every operation
    that succeeds acts on the document as its name says, leaves every other
    document and every regular key alone, and that an operation that fails
    changes nothing.

    A Go map is ranged over in an unspecified order: an operation that does so
    takes the entries in the order they are visited, a list without repeated
    names, and its theorems hold for every such list. *)

From S2P Require Import Prelude Engine Keys FieldCodec.

Section FieldStorage.
  Context {D : Type} `{Engine D}.

(** ** FieldStorage: the database and the partition *)

Record FieldStorage := mkFieldStorage {
  FS_db : D;
  FS_partitionID : Z
}.

Definition FS_set (fs : FieldStorage) (d : D) : FieldStorage :=
  mkFieldStorage d (FS_partitionID fs).

Definition FieldStorage_GetField (fs : FieldStorage) (pk fieldName : bytes) :
    outcome (option bytes) :=
  let key := MakeFieldKey (FS_partitionID fs) pk fieldName in
  RocksDB_Get (FS_db fs) key.

Definition FieldStorage_SetField (fs : FieldStorage) (pk fieldName value : bytes) :
    FieldStorage * option goerr :=
  let key := MakeFieldKey (FS_partitionID fs) pk fieldName in
  let '(d, err) := RocksDB_Put (FS_db fs) key value in (FS_set fs d, err).

Definition FieldStorage_DeleteField (fs : FieldStorage) (pk fieldName : bytes) :
    FieldStorage * option goerr :=
  let key := MakeFieldKey (FS_partitionID fs) pk fieldName in
  let '(d, err) := RocksDB_Delete (FS_db fs) key in (FS_set fs d, err).

(** The loop of [GetAllFields] over the entries from the prefix on. *)
Fixpoint get_all_fields_loop (partitionID : Z) (pk prefix : bytes)
    (fields : gmap bytes bytes) (entries : list (bytes * bytes)) :
    outcome (gmap bytes bytes) :=
  match entries with
  | [] => Ret fields
  | (key, value) :: rest =>
      if negb (has_prefix key prefix) then Ret fields
      else
        match DecodeFieldKey key with
        | Panic => Panic
        | Err _ => get_all_fields_loop partitionID pk prefix fields rest
        | Ret fk =>
            if negb (FK_PartitionID fk =? partitionID) || bool_decide (FK_PrimaryKey fk ≠ pk)
            then get_all_fields_loop partitionID pk prefix fields rest
            else get_all_fields_loop partitionID pk prefix
                   (<[FK_FieldName fk := value]> fields) rest
        end
  end.

Definition FieldStorage_GetAllFields (fs : FieldStorage) (pk : bytes) :
    outcome (gmap bytes bytes) :=
  let prefix := GetFieldPrefix (FS_partitionID fs) pk in
  let '(entries, err) := db_scan (FS_db fs) prefix in
  fields ← get_all_fields_loop (FS_partitionID fs) pk prefix ∅ entries;
  match err with
  | Some e => Err e
  | None => Ret fields
  end.

(** [SetFields]: [fields] lists the entries of the map in the order of the range
    loop. *)
Definition FieldStorage_SetFields (fs : FieldStorage) (pk : bytes)
    (fields : list (bytes * bytes)) : FieldStorage * option goerr :=
  let batch := map (λ '(fieldName, value),
    WPut (MakeFieldKey (FS_partitionID fs) pk fieldName) value) fields in
  let '(d, err) := db_write (FS_db fs) batch in (FS_set fs d, err).

Definition FieldStorage_ApplyFieldBatch (fs : FieldStorage) (fb : FieldBatch) :
    FieldStorage * option goerr :=
  let batch := map (λ update,
    let key := MakeFieldKey (FS_partitionID fs) (FB_PrimaryKey fb) (FU_FieldName update) in
    if FU_IsDelete update then WDelete key else WPut key (FU_Value update)) (FB_Updates fb) in
  let '(d, err) := db_write (FS_db fs) batch in (FS_set fs d, err).

Definition FieldStorage_DeleteAllFields (fs : FieldStorage) (pk : bytes) :
    FieldStorage * option goerr :=
  let prefix := GetFieldPrefix (FS_partitionID fs) pk in
  let '(entries, err) := db_scan (FS_db fs) prefix in
  let batch := map (λ e : bytes * bytes, WDelete e.1)
    (take_while (λ e : bytes * bytes, has_prefix e.1 prefix) entries) in
  match err with
  | Some e => (fs, Some e)
  | None => let '(d, err) := db_write (FS_db fs) batch in (FS_set fs d, err)
  end.

(** The loop of [ListPrimaryKeys]; [pks] is the slice built so far. *)
Fixpoint list_primary_keys_loop (prefix : bytes) (limit : Z) (seen : gset bytes)
    (pks : list bytes) (entries : list (bytes * bytes)) : outcome (list bytes) :=
  match entries with
  | [] => Ret pks
  | (key, _) :: rest =>
      if limit <=? len pks then Ret pks
      else if negb (has_prefix key prefix) then Ret pks
      else
        match DecodeFieldKey key with
        | Panic => Panic
        | Err _ => list_primary_keys_loop prefix limit seen pks rest
        | Ret fk =>
            if bool_decide (FK_PrimaryKey fk ∈ seen)
            then list_primary_keys_loop prefix limit seen pks rest
            else list_primary_keys_loop prefix limit ({[ FK_PrimaryKey fk ]} ∪ seen)
                   (pks ++ [FK_PrimaryKey fk]) rest
        end
  end.

Definition FieldStorage_ListPrimaryKeys (fs : FieldStorage) (limit : Z) :
    outcome (list bytes * option goerr) :=
  let prefix := GetPartitionFieldPrefix (FS_partitionID fs) in
  let '(entries, err) := db_scan (FS_db fs) prefix in
  pks ← list_primary_keys_loop prefix limit ∅ [] entries;
  Ret (pks, err).

(** ** GroupedFieldStorage *)

Definition GroupedFieldStorage_GetGroup (gfs : FieldStorage) (pk groupName : bytes) :
    outcome (option AttributeGroup) :=
  let key := MakeFieldKey (FS_partitionID gfs) pk groupName in
  found ← RocksDB_Get (FS_db gfs) key;
  match found with
  | None => Ret None
  | Some data =>
      group ← DecodeAttributeGroup data;
      Ret (Some (mkAttributeGroup groupName (AG_Fields group)))
  end.

Definition GroupedFieldStorage_SetGroup (gfs : FieldStorage) (pk : bytes)
    (group : AttributeGroup) : FieldStorage * option goerr :=
  let key := MakeFieldKey (FS_partitionID gfs) pk (AG_Name group) in
  let '(d, err) := RocksDB_Put (FS_db gfs) key (AttributeGroup_Encode group) in
  (FS_set gfs d, err).

Definition GroupedFieldStorage_UpdateGroupFields (gfs : FieldStorage)
    (pk groupName : bytes) (updates : list (bytes * bytes)) (deletes : list bytes) :
    outcome (FieldStorage * option goerr) :=
  match GroupedFieldStorage_GetGroup gfs pk groupName with
  | Panic => Panic
  | Err e => Ret (gfs, Some e)
  | Ret found =>
      let fields := match found with Some g => AG_Fields g | None => ∅ end in
      let fields := foldl (λ m '(name, value), <[name:=value]> m) fields updates in
      let fields := foldl (λ m name, delete name m) fields deletes in
      Ret (GroupedFieldStorage_SetGroup gfs pk (mkAttributeGroup groupName fields))
  end.

Definition GroupedFieldStorage_DeleteGroup (gfs : FieldStorage) (pk groupName : bytes) :
    FieldStorage * option goerr :=
  let key := MakeFieldKey (FS_partitionID gfs) pk groupName in
  let '(d, err) := RocksDB_Delete (FS_db gfs) key in (FS_set gfs d, err).

End FieldStorage.

Arguments FieldStorage D : clear implicits.
Arguments mkFieldStorage {D} _ _.

(** ** The abstract view: one document per primary key *)

Definition doc_of (m : gmap bytes bytes) (p : Z) (pk : bytes) : gmap bytes bytes :=
  let prefix := GetFieldPrefix p pk in
  list_to_map (omap (λ '(k, v),
    if has_prefix k prefix then Some (drop (length prefix) k, v) else None)
    (map_to_list m)).

Lemma doc_of_lookup m p pk f : doc_of m p pk !! f = m !! MakeFieldKey p pk f.
Proof.
  unfold doc_of. rewrite MakeFieldKey_prefix.
  generalize (GetFieldPrefix p pk). intros pre.
  set (g := λ '(k, v), if has_prefix k pre then Some (drop (length pre) k, v) else None).
  assert (∀ v, (f, v) ∈ omap g (map_to_list m) ↔ m !! (pre ++ f) = Some v) as Hin.
  { intros v. rewrite list_elem_of_omap. split.
    - intros [[k w] [Hk%elem_of_map_to_list Hg]]. simpl in Hg.
      destruct (has_prefix k pre) eqn:Hp; simplify_eq.
      apply has_prefix_true in Hp as [t ->]. by rewrite drop_app_length.
    - intros Hv. exists (pre ++ f, v). rewrite elem_of_map_to_list. split; [done|].
      simpl. rewrite (proj2 (has_prefix_true _ _)) by (by exists f).
      by rewrite drop_app_length. }
  destruct (m !! (pre ++ f)) as [v|] eqn:E.
  - apply elem_of_list_to_map_1'; [|by apply Hin].
    intros w Hw%Hin. congruence.
  - apply not_elem_of_list_to_map_1. intros [[f' v] [Hf Hv]]%list_elem_of_fmap.
    simplify_eq/=. apply Hin in Hv. congruence.
Qed.

(** The abstract operations on one document. *)
Inductive doc_op :=
  | DSetField (f v : bytes)
  | DDeleteField (f : bytes)
  | DSetFields (fields : list (bytes * bytes))
  | DApply (updates : list FieldUpdate)
  | DDeleteAll.

Definition update_step (doc : gmap bytes bytes) (u : FieldUpdate) : gmap bytes bytes :=
  if FU_IsDelete u then delete (FU_FieldName u) doc
  else <[FU_FieldName u := FU_Value u]> doc.

Definition doc_step (doc : gmap bytes bytes) (o : doc_op) : gmap bytes bytes :=
  match o with
  | DSetField f v => <[f:=v]> doc
  | DDeleteField f => delete f doc
  | DSetFields fields => list_to_map fields ∪ doc
  | DApply updates => foldl update_step doc updates
  | DDeleteAll => ∅
  end.

(** The operation of the code each abstract operation stands for. *)
Definition doc_run {D} `{Engine D} (fs : FieldStorage D) (pk : bytes) (o : doc_op) :
    FieldStorage D * option goerr :=
  match o with
  | DSetField f v => FieldStorage_SetField fs pk f v
  | DDeleteField f => FieldStorage_DeleteField fs pk f
  | DSetFields fields => FieldStorage_SetFields fs pk fields
  | DApply updates =>
      FieldStorage_ApplyFieldBatch fs (mkFieldBatch (FS_partitionID fs) pk updates)
  | DDeleteAll => FieldStorage_DeleteAllFields fs pk
  end.

Lemma MakeFieldKey_name_inj p pk f g : MakeFieldKey p pk f = MakeFieldKey p pk g → f = g.
Proof. rewrite !MakeFieldKey_prefix. apply app_inv_head. Qed.

Lemma doc_of_insert m p pk f v :
  doc_of (<[MakeFieldKey p pk f:=v]> m) p pk = <[f:=v]> (doc_of m p pk).
Proof.
  apply map_eq. intros g. rewrite doc_of_lookup. destruct (decide (f = g)) as [->|Hne].
  - by rewrite !lookup_insert_eq.
  - rewrite !lookup_insert_ne, doc_of_lookup; [done..|].
    by intros ?%MakeFieldKey_name_inj.
Qed.

Lemma doc_of_delete m p pk f :
  doc_of (delete (MakeFieldKey p pk f) m) p pk = delete f (doc_of m p pk).
Proof.
  apply map_eq. intros g. rewrite doc_of_lookup. destruct (decide (f = g)) as [->|Hne].
  - by rewrite !lookup_delete_eq.
  - rewrite !lookup_delete_ne, doc_of_lookup; [done..|].
    by intros ?%MakeFieldKey_name_inj.
Qed.

(** A write that touches only the fields of one document. *)
Definition doc_frame (m m' : gmap bytes bytes) (p : Z) (pk : bytes) : Prop :=
  ∀ k, (∀ f, k ≠ MakeFieldKey p pk f) → m' !! k = m !! k.

Lemma batch_frame m ops p pk :
  (∀ o, o ∈ ops → ∃ f, wop_key o = MakeFieldKey p pk f) →
  doc_frame m (batch_apply m ops) p pk.
Proof.
  intros Hops k Hk. apply batch_apply_other. intros o Ho Heq.
  destruct (Hops o Ho) as [f Hf]. apply (Hk f). congruence.
Qed.

(** A frame leaves the documents of other keys and the regular keys that are not
    shaped like field keys as they were. *)
Lemma doc_frame_other m m' p pk q pk' :
  is_u32 p → is_u32 q → is_u32 (len pk) → is_u32 (len pk') → (q, pk') ≠ (p, pk) →
  doc_frame m m' p pk → doc_of m' q pk' = doc_of m q pk'.
Proof.
  intros Hp Hq Hk Hk' Hne Hf. apply map_eq. intros f. rewrite !doc_of_lookup.
  apply Hf. intros g (-> & -> & _)%MakeFieldKey_inj; done.
Qed.

Definition update_wop (p : Z) (pk : bytes) (u : FieldUpdate) : wop :=
  let key := MakeFieldKey p pk (FU_FieldName u) in
  if FU_IsDelete u then WDelete key else WPut key (FU_Value u).

Lemma doc_of_updates m p pk us :
  doc_of (batch_apply m (map (update_wop p pk) us)) p pk
  = foldl update_step (doc_of m p pk) us.
Proof.
  revert m. induction us as [|u us IH]; intros m; [done|].
  change (doc_of (batch_apply (wop_apply m (update_wop p pk u)) (map (update_wop p pk) us)) p pk
    = foldl update_step (update_step (doc_of m p pk) u) us).
  rewrite IH. f_equal. unfold update_wop, update_step. destruct (FU_IsDelete u).
  - apply doc_of_delete.
  - apply doc_of_insert.
Qed.

Lemma update_wop_key p pk us o :
  o ∈ map (update_wop p pk) us → ∃ f, wop_key o = MakeFieldKey p pk f.
Proof.
  intros [u [-> _]]%list_elem_of_fmap. unfold update_wop.
  destruct (FU_IsDelete u); by eexists.
Qed.

(** Setting a list of fields is a batch of updates without deletions. *)
Definition set_update (e : bytes * bytes) : FieldUpdate := mkFieldUpdate e.1 e.2 false.

Lemma foldl_set_updates doc (fields : list (bytes * bytes)) :
  NoDup fields.*1 →
  foldl update_step doc (map set_update fields) = list_to_map fields ∪ doc.
Proof.
  revert doc. induction fields as [|[f v] fields IH]; intros doc Hnd.
  { change (doc = ∅ ∪ doc). by rewrite map_empty_union. }
  apply NoDup_cons in Hnd as [Hf Hnd]. cbn [map foldl]. rewrite list_to_map_cons, IH by done.
  unfold update_step. cbn [set_update FU_IsDelete FU_FieldName FU_Value fst snd].
  rewrite <- insert_union_l, <- insert_union_r; [done|].
  by apply not_elem_of_list_to_map_1.
Qed.

Section refinement.
  Context {D : Type} `{EngineLaws D}.
Implicit Types (fs : FieldStorage D) (d : D).

Lemma db_write_spec d ops d' o :
  db_write d ops = (d', o) →
  db_view d' = match o with None => batch_apply (db_view d) ops | Some _ => db_view d end.
Proof. destruct o; intros E; [by eapply db_write_err|by apply db_write_ok]. Qed.

(** One write of field updates against the document. *)
Lemma db_write_updates d p pk us d' o :
  db_write d (map (update_wop p pk) us) = (d', o) →
  match o with
  | None => doc_of (db_view d') p pk = foldl update_step (doc_of (db_view d) p pk) us ∧
            doc_frame (db_view d) (db_view d') p pk
  | Some _ => db_view d' = db_view d
  end.
Proof.
  intros E%db_write_spec. destruct o; [done|]. rewrite E. split.
  - apply doc_of_updates.
  - apply batch_frame, update_wop_key.
Qed.

Definition doc_refines (fs : FieldStorage D) (pk : bytes) (doc' : gmap bytes bytes)
    (r : FieldStorage D * option goerr) : Prop :=
  let p := FS_partitionID fs in
  FS_partitionID r.1 = p ∧
  match r.2 with
  | None => doc_of (db_view (FS_db r.1)) p pk = doc' ∧
            doc_frame (db_view (FS_db fs)) (db_view (FS_db r.1)) p pk
  | Some _ => db_view (FS_db r.1) = db_view (FS_db fs)
  end.

Lemma SetField_refines fs pk f v :
  doc_refines fs pk (<[f:=v]> (doc_of (db_view (FS_db fs)) (FS_partitionID fs) pk))
    (FieldStorage_SetField fs pk f v).
Proof.
  unfold FieldStorage_SetField. destruct (RocksDB_Put _ _ _) as [d [e|]] eqn:E;
    apply RocksDB_Put_spec in E; (split; [done|]); cbn [snd fst FS_db FS_set]; [done|].
  rewrite E. split; [apply doc_of_insert|].
  intros k Hk. apply lookup_insert_ne. intros <-. by apply (Hk f).
Qed.

Lemma DeleteField_refines fs pk f :
  doc_refines fs pk (delete f (doc_of (db_view (FS_db fs)) (FS_partitionID fs) pk))
    (FieldStorage_DeleteField fs pk f).
Proof.
  unfold FieldStorage_DeleteField. destruct (RocksDB_Delete _ _) as [d [e|]] eqn:E;
    apply RocksDB_Delete_spec in E; (split; [done|]); cbn [snd fst FS_db FS_set]; [done|].
  rewrite E. split; [apply doc_of_delete|].
  intros k Hk. apply lookup_delete_ne. intros <-. by apply (Hk f).
Qed.

Lemma ApplyFieldBatch_refines fs fb :
  doc_refines fs (FB_PrimaryKey fb)
    (foldl update_step (doc_of (db_view (FS_db fs)) (FS_partitionID fs) (FB_PrimaryKey fb))
      (FB_Updates fb))
    (FieldStorage_ApplyFieldBatch fs fb).
Proof.
  unfold FieldStorage_ApplyFieldBatch.
  change (map _ (FB_Updates fb))
    with (map (update_wop (FS_partitionID fs) (FB_PrimaryKey fb)) (FB_Updates fb)).
  destruct (db_write _ _) as [d o] eqn:E. apply db_write_updates in E. by split.
Qed.

Lemma SetFields_refines fs pk fields :
  NoDup fields.*1 →
  doc_refines fs pk
    (list_to_map fields ∪ doc_of (db_view (FS_db fs)) (FS_partitionID fs) pk)
    (FieldStorage_SetFields fs pk fields).
Proof.
  intros Hnd. unfold FieldStorage_SetFields.
  replace (map _ fields)
    with (map (update_wop (FS_partitionID fs) pk) (map set_update fields)).
  2:{ rewrite map_map. by apply map_ext; intros []. }
  destruct (db_write _ _) as [d o] eqn:E. apply db_write_updates in E.
  rewrite foldl_set_updates in E by done. by split.
Qed.

Lemma DeleteAllFields_refines fs pk :
  doc_refines fs pk ∅ (FieldStorage_DeleteAllFields fs pk).
Proof.
  unfold FieldStorage_DeleteAllFields. set (p := FS_partitionID fs).
  set (prefix := GetFieldPrefix p pk).
  destruct (db_scan _ _) as [l [e|]] eqn:Es; [done|]. apply db_scan_ok in Es. subst l.
  set (scan := take_while _ _).
  replace (map _ scan) with (map WDelete scan.*1) by apply map_map.
  destruct (db_write _ _) as [d o] eqn:E. apply db_write_spec in E.
  split; [done|]. cbn [snd fst FS_db FS_set]. destruct o; [done|]. rewrite E.
  assert (∀ k, k ∈ scan.*1 ↔ is_Some (db_view (FS_db fs) !! k) ∧ ∃ f, k = MakeFieldKey p pk f) as Hk.
  { intros k. rewrite list_elem_of_fmap. split.
    - intros [[k' v] [-> [Hv [t Ht]]%prefix_scan_elem]]. simpl. split; [by exists v|].
      exists t. by rewrite MakeFieldKey_prefix.
    - intros [[v Hv] [f ->]]. exists (MakeFieldKey p pk f, v). split; [done|].
      apply prefix_scan_elem. split; [done|]. exists f. apply MakeFieldKey_prefix. }
  split.
  - apply map_eq. intros f. rewrite doc_of_lookup, batch_apply_deletes, lookup_empty.
    case_decide as Hd; [done|]. rewrite Hk in Hd. apply eq_None_not_Some.
    intros Hs. apply Hd. eauto.
  - intros k Hne. rewrite batch_apply_deletes. case_decide as Hd; [|done].
    apply Hk in Hd as [_ [f ->]]. by destruct (Hne f).
Qed.
End refinement.

(** The operations that list map entries list each name once. *)
Definition doc_op_ok (o : doc_op) : Prop :=
  match o with DSetFields fields => NoDup fields.*1 | _ => True end.

(** C9: the field operations implement a store of documents.  An operation of
    [FieldStorage] that reports success changes the document of its primary key
    as the abstract operation does and changes no engine key that is not a field
    of that document; one that reports an error leaves the engine's data as it
    was, so that a batch is applied entirely or not at all. *)
Theorem FieldStorage_refines_documents {D} `{EngineLaws D} (fs : FieldStorage D) pk o :
  doc_op_ok o →
  doc_refines fs pk (doc_step (doc_of (db_view (FS_db fs)) (FS_partitionID fs) pk) o)
    (doc_run fs pk o).
Proof.
  intros Hok. destruct o; simpl.
  - apply SetField_refines.
  - apply DeleteField_refines.
  - by apply SetFields_refines.
  - apply (ApplyFieldBatch_refines fs (mkFieldBatch (FS_partitionID fs) pk updates)).
  - apply DeleteAllFields_refines.
Qed.

Definition demo_fs (faults : list bool) : FieldStorage MemDB :=
  mkFieldStorage {| mem_data := {[ MakeFieldKey 5 (str_bytes "u") (str_bytes "a") := str_bytes "1" ]};
    mem_faults := faults; mem_rfault := false |} 5.

Lemma FieldStorage_refines_documents_witness :
  let o := DSetFields [(str_bytes "b", str_bytes "2"); (str_bytes "a", str_bytes "3")] in
  doc_op_ok o ∧
  (doc_run (demo_fs []) (str_bytes "u") o).2 = None ∧
  doc_refines (demo_fs []) (str_bytes "u")
    {[ str_bytes "a" := str_bytes "3"; str_bytes "b" := str_bytes "2" ]}
    (doc_run (demo_fs []) (str_bytes "u") o).
Proof.
  intros o. assert (doc_op_ok o) as Hok by (apply (bool_decide_unpack _); by vm_compute).
  split_and!; [exact Hok|by vm_compute|].
  exact (FieldStorage_refines_documents (demo_fs []) (str_bytes "u") o Hok).
Defined.

(** ** Reading a document *)

Lemma has_field_prefix p pk key :
  has_prefix key (GetFieldPrefix p pk) = true ↔ ∃ f, key = MakeFieldKey p pk f.
Proof.
  rewrite has_prefix_true. by setoid_rewrite MakeFieldKey_prefix.
Qed.

Lemma get_all_fields_loop_eq p pk fields entries :
  is_u32 p → len pk < 2 ^ 32 - 12 →
  get_all_fields_loop p pk (GetFieldPrefix p pk) fields entries =
  Ret (foldl (λ m '(k, v), <[drop (length (GetFieldPrefix p pk)) k := v]> m) fields
        (take_while (λ e : bytes * bytes, has_prefix e.1 (GetFieldPrefix p pk)) entries)).
Proof.
  intros Hp Hk. revert fields. induction entries as [|[k v] entries IH]; intros fields; [done|].
  cbn [get_all_fields_loop take_while fst].
  destruct (has_prefix k (GetFieldPrefix p pk)) eqn:Hpre; [|done]. cbn [negb].
  apply has_field_prefix in Hpre as [f ->].
  unfold MakeFieldKey. rewrite DecodeFieldKey_Encode by done.
  cbn [FK_PartitionID FK_PrimaryKey FK_FieldName].
  rewrite Z.eqb_refl, bd_not. cbn [negb orb foldl]. rewrite IH.
  change (FieldKey_Encode (mkFieldKey p pk f)) with (MakeFieldKey p pk f).
  by rewrite MakeFieldKey_prefix, drop_app_length.
Qed.

Lemma foldl_scan_lookup (pre : bytes) (l : list (bytes * bytes)) (m0 : gmap bytes bytes) (f : bytes) :
  NoDup l.*1 → (∀ k v, (k, v) ∈ l → ∃ t, k = pre ++ t) →
  foldl (λ (m : gmap bytes bytes) '(k, v), <[drop (length pre) k := v]> m) m0 l !! f =
  match list_to_map (M := gmap bytes bytes) l !! (pre ++ f) with
  | Some v => Some v | None => m0 !! f end.
Proof.
  revert m0. induction l as [|[k v] l IH]; intros m0 Hnd Hpre; [done|].
  apply NoDup_cons in Hnd as [Hk Hnd]. cbn [foldl]. rewrite list_to_map_cons.
  rewrite IH by set_solver. destruct (Hpre k v) as [t ->]; [set_solver|].
  rewrite drop_app_length. destruct (decide (t = f)) as [->|Hne].
  - rewrite lookup_insert_eq, not_elem_of_list_to_map_1 by done.
    by rewrite lookup_insert_eq.
  - rewrite (lookup_insert_ne _ (pre ++ t)) by (by intros ?%app_inv_head).
    by rewrite lookup_insert_ne.
Qed.

Lemma take_while_prefix {A} (P : A → bool) l : take_while P l `prefix_of` l.
Proof.
  induction l as [|x l IH]; simpl; [done|]. destruct (P x); [|apply prefix_nil].
  by apply prefix_cons.
Qed.

(** The fields a prefix scan collects are the document. *)
Lemma scan_doc_of m p pk :
  foldl (λ m '(k, v), <[drop (length (GetFieldPrefix p pk)) k := v]> m) ∅
    (take_while (λ e : bytes * bytes, has_prefix e.1 (GetFieldPrefix p pk))
      (sorted_from m (GetFieldPrefix p pk))) = doc_of m p pk.
Proof.
  set (pre := GetFieldPrefix p pk). set (l := take_while _ _).
  assert (NoDup l.*1) as Hnd.
  { eapply sublist_NoDup; [apply (sorted_from_NoDup m pre)|].
    apply fmap_sublist. destruct (take_while_prefix
      (λ e : bytes * bytes, has_prefix e.1 pre) (sorted_from m pre)) as [r Hr].
    rewrite Hr. by apply sublist_inserts_r. }
  apply map_eq. intros f. rewrite doc_of_lookup, MakeFieldKey_prefix. fold pre.
  rewrite foldl_scan_lookup, lookup_empty; [|done|].
  2:{ intros k v [_ ?]%prefix_scan_elem. done. }
  destruct (m !! (pre ++ f)) as [v|] eqn:E.
  - rewrite (elem_of_list_to_map_1 l (pre ++ f) v); [done..|].
    apply prefix_scan_elem. eauto.
  - rewrite not_elem_of_list_to_map_1; [done|].
    intros [[k v] [Hk [Hv _]%prefix_scan_elem]]%list_elem_of_fmap. simplify_eq/=.
Qed.

Section reading.
  Context {D : Type} `{EngineLaws D}.
Implicit Types (fs : FieldStorage D) (d : D).

Lemma GetAllFields_spec fs pk :
  is_u32 (FS_partitionID fs) → len pk < 2 ^ 32 - 12 →
  FieldStorage_GetAllFields fs pk =
  match (db_scan (FS_db fs) (GetFieldPrefix (FS_partitionID fs) pk)).2 with
  | None => Ret (doc_of (db_view (FS_db fs)) (FS_partitionID fs) pk)
  | Some e => Err e
  end.
Proof.
  intros Hp Hk. unfold FieldStorage_GetAllFields.
  destruct (db_scan _ _) as [l o] eqn:E. rewrite get_all_fields_loop_eq by done.
  cbn [mbind outcome_bind snd]. destruct o; [done|].
  apply db_scan_ok in E. subst l. by rewrite scan_doc_of.
Qed.

Lemma GetField_spec fs pk f r :
  FieldStorage_GetField fs pk f = Ret r →
  r = doc_of (db_view (FS_db fs)) (FS_partitionID fs) pk !! f.
Proof. intros E. apply RocksDB_Get_spec in E. by rewrite doc_of_lookup. Qed.
End reading.

(** Reading a whole document and reading its fields one by one agree, and
    both read the abstract document: [GetAllFields] returns exactly the fields
    of the document (or the iterator's error), skipping nothing and taking
    nothing from a neighbouring primary key, and [GetField] returns its field. *)
Lemma GetAllFields_GetField_agree {D} `{EngineLaws D} (fs : FieldStorage D) pk f r doc :
  is_u32 (FS_partitionID fs) → len pk < 2 ^ 32 - 12 →
  FieldStorage_GetAllFields fs pk = Ret doc →
  FieldStorage_GetField fs pk f = Ret r →
  doc = doc_of (db_view (FS_db fs)) (FS_partitionID fs) pk ∧ r = doc !! f.
Proof.
  intros Hp Hk Hd Hr. rewrite GetAllFields_spec in Hd by done.
  destruct (db_scan _ _).2; simplify_eq. split; [done|]. by apply GetField_spec.
Qed.

Lemma GetAllFields_GetField_agree_witness :
  FieldStorage_GetAllFields (demo_fs []) (str_bytes "u") = Ret {[ str_bytes "a" := str_bytes "1" ]} ∧
  FieldStorage_GetField (demo_fs []) (str_bytes "u") (str_bytes "a") = Ret (Some (str_bytes "1")) ∧
  Some (str_bytes "1") = ({[ str_bytes "a" := str_bytes "1" ]} : gmap bytes bytes) !! str_bytes "a".
Proof.
  assert (FieldStorage_GetAllFields (demo_fs []) (str_bytes "u")
    = Ret {[ str_bytes "a" := str_bytes "1" ]}) as H1 by (vm_compute; reflexivity).
  assert (FieldStorage_GetField (demo_fs []) (str_bytes "u") (str_bytes "a")
    = Ret (Some (str_bytes "1"))) as H2 by (vm_compute; reflexivity).
  split_and!; [exact H1|exact H2|].
  assert (is_u32 (FS_partitionID (demo_fs []))) as Hp by (split; done).
  assert (len (str_bytes "u") < 2 ^ 32 - 12) as Hk by done.
  pose proof (GetAllFields_GetField_agree (demo_fs []) _ _ _ _ Hp Hk H1 H2) as [_ Hr].
  exact Hr.
Defined.

(** ** ListPrimaryKeys *)

Lemma partition_field_prefix p key :
  has_prefix key (GetPartitionFieldPrefix p) = true ↔
  ∃ t, key = MakePartitionKey p ([colon; FieldKeyMarker] ++ t).
Proof.
  rewrite has_prefix_true. unfold GetPartitionFieldPrefix, MakePartitionKey.
  by repeat setoid_rewrite <- app_assoc.
Qed.

(** A primary key some entry of the prefix carries. *)
Definition pk_found (prefix : bytes) (entries : list (bytes * bytes)) (pk : bytes) : Prop :=
  ∃ k v fk, (k, v) ∈ entries ∧ has_prefix k prefix = true ∧
    DecodeFieldKey k = Ret fk ∧ FK_PrimaryKey fk = pk.

Lemma pk_found_cons prefix e entries pk :
  pk_found prefix entries pk → pk_found prefix (e :: entries) pk.
Proof.
  intros (k & v & fk & Hin & Hrest). exists k, v, fk. split; [by right|done].
Qed.

(** What the loop has found when it stops: its keys are distinct, each comes
    from an entry that was visited, and unless the limit was reached every entry
    of the prefix was visited. *)
Lemma list_primary_keys_loop_spec prefix limit seen pks entries r :
  list_primary_keys_loop prefix limit seen pks entries = Ret r →
  (∀ pk, pk ∈ seen ↔ pk ∈ pks) → NoDup pks →
  NoDup r ∧ pks `prefix_of` r ∧ len r ≤ Z.max limit (len pks) ∧
  (∀ pk, pk ∈ r → pk ∈ pks ∨ pk_found prefix entries pk) ∧
  (len r < limit → ∀ k v fk,
    (k, v) ∈ take_while (λ e : bytes * bytes, has_prefix e.1 prefix) entries →
    DecodeFieldKey k = Ret fk → FK_PrimaryKey fk ∈ r).
Proof.
  revert seen pks. induction entries as [|[k v] rest IH]; intros seen pks Hl Hs Hnd;
    cbn [list_primary_keys_loop take_while fst] in *.
  { simplify_eq. split_and!; [done..|lia|auto|]. intros _ ??? []%elem_of_nil. }
  destruct (Z.leb_spec limit (len pks)).
  { simplify_eq. split_and!; [done..|lia|auto|lia]. }
  destruct (has_prefix k prefix) eqn:Hpre; cbn [negb] in Hl.
  2:{ simplify_eq. split_and!; [done..|lia|auto|]. intros _ ??? []%elem_of_nil. }
  destruct (DecodeFieldKey k) as [fk| |] eqn:Hd; [|..|done].
  2:{ apply IH in Hl as (? & ? & ? & Hin & Hall); [|done..]. split_and!; [done..| |].
      - intros pk [?|?]%Hin; [by left|right; by apply pk_found_cons].
      - intros Hlt k' v' fk' [?|?]%elem_of_cons Hd'; [simplify_eq; congruence|eauto]. }
  case_bool_decide as Hseen.
  - apply IH in Hl as (? & Hpp & ? & Hin & Hall); [|done..]. split_and!; [done..| |].
    + intros pk [?|?]%Hin; [by left|right; by apply pk_found_cons].
    + intros Hlt k' v' fk' [?|?]%elem_of_cons Hd'; [|eauto]. simplify_eq.
      assert (fk' = fk) as -> by congruence. apply Hs in Hseen. destruct Hpp as [t ->]. apply elem_of_app. by left.
  - rewrite Hs in Hseen. apply IH in Hl as (? & [t ->] & Hlen & Hin & Hall).
    + split_and!; [done|by rewrite <- app_assoc; apply prefix_app_r| | |].
      * rewrite (len_app pks) in Hlen. change (len [_]) with 1 in Hlen. lia.
      * intros pk Hpk. destruct (Hin pk Hpk) as [[?|?%list_elem_of_singleton]%elem_of_app|?];
          [by left|subst|right; by apply pk_found_cons].
        right. exists k, v, fk. by split; [left|].
      * intros Hlt k' v' fk' [?|?]%elem_of_cons Hd'; [|eauto]. simplify_eq.
        assert (fk' = fk) as -> by congruence. set_solver.
    + intros pk. rewrite elem_of_union, Hs, elem_of_app. set_solver.
    + apply NoDup_app. split_and!; [done| |apply NoDup_singleton].
      by intros x Hx ->%list_elem_of_singleton.
Qed.

(** [ListPrimaryKeys] lists each primary key once, at most [limit] of them,
    only keys that have a field in this partition, and all of them when it stops
    below the limit. *)
Lemma ListPrimaryKeys_spec {D} `{EngineLaws D} (fs : FieldStorage D) limit pks :
  let p := FS_partitionID fs in
  let m := db_view (FS_db fs) in
  is_u32 p → 0 ≤ limit →
  FieldStorage_ListPrimaryKeys fs limit = Ret (pks, None) →
  NoDup pks ∧ len pks ≤ limit ∧
  (∀ pk, pk ∈ pks → doc_of m p pk ≠ ∅) ∧
  (len pks < limit → ∀ pk, len pk < 2 ^ 32 - 12 → doc_of m p pk ≠ ∅ → pk ∈ pks).
Proof.
  intros p m Hp Hlim. unfold FieldStorage_ListPrimaryKeys. fold p.
  destruct (db_scan _ _) as [l o] eqn:E.
  intros (r & Hl & ?)%bind_Ret_inv. simplify_eq. apply db_scan_ok in E. subst l.
  apply list_primary_keys_loop_spec in Hl as (Hnd & _ & Hlen & Hin & Hall);
    [|set_solver|apply NoDup_nil_2].
  change (len []) with 0 in Hlen. split_and!; [done|lia| |].
  - intros pk Hpk He. destruct (Hin pk Hpk) as [?|(k & v & fk & Hk & Hpre & Hd & <-)]; [set_solver|].
    apply elem_of_sorted_from in Hk as [Hk _].
    apply DecodeFieldKey_sound in Hd as (<- & Hfp & _). destruct fk as [q pk f].
    apply partition_field_prefix in Hpre as [t Ht].
    change (MakeFieldKey q pk f = MakePartitionKey p ([colon; FieldKeyMarker] ++ t)) in Ht.
    rewrite MakeFieldKey_as_partition in Ht. apply MakePartitionKey_inj in Ht as [-> _]; [|done..].
    apply (f_equal (.!! f)) in He. rewrite doc_of_lookup, lookup_empty in He.
    unfold MakeFieldKey in He. simpl in *. unfold m in He. congruence.
  - intros Hlt pk Hk Hne. apply map_choose in Hne as (f & v & Hf). rewrite doc_of_lookup in Hf.
    eapply (Hall Hlt (MakeFieldKey p pk f) v (mkFieldKey p pk f)).
    + apply prefix_scan_elem. split; [done|]. eexists (be32 (len pk) ++ pk ++ f).
      rewrite MakeFieldKey_as_partition. unfold MakePartitionKey, GetPartitionFieldPrefix.
      by rewrite <- !app_assoc.
    + by apply DecodeFieldKey_Encode.
Qed.

Lemma ListPrimaryKeys_spec_witness :
  FieldStorage_ListPrimaryKeys (demo_fs []) 10 = Ret ([str_bytes "u"], None) ∧
  NoDup [str_bytes "u"].
Proof.
  assert (FieldStorage_ListPrimaryKeys (demo_fs []) 10 = Ret ([str_bytes "u"], None)) as H1
    by (vm_compute; reflexivity).
  split; [exact H1|].
  assert (is_u32 (FS_partitionID (demo_fs []))) as Hp by (split; done).
  assert (0 ≤ 10) as Hl by done.
  pose proof (ListPrimaryKeys_spec (demo_fs []) 10 _ Hp Hl H1) as [Hn _]. exact Hn.
Defined.

(** ** Attribute groups *)

Definition update_group (old : gmap bytes bytes) (updates : list (bytes * bytes))
    (deletes : list bytes) : gmap bytes bytes :=
  foldl (λ m name, delete name m) (list_to_map updates ∪ old) deletes.

Lemma foldl_insert_union (updates : list (bytes * bytes)) (m : gmap bytes bytes) :
  NoDup updates.*1 →
  foldl (λ (m : gmap bytes bytes) '(name, value), <[name:=value]> m) m updates
  = list_to_map updates ∪ m.
Proof.
  intros Hnd. rewrite <- foldl_set_updates by done. revert m.
  clear Hnd. induction updates as [|[n v] us IH]; intros m; [done|]. apply IH.
Qed.

(** Updating a group is a read-modify-write: the fields named in the update are
    set, then the named fields are removed, the others are kept, and a group that
    did not exist starts empty.  Reading the group back gives these fields,
    except when the field with the greatest name was left empty: the stored
    group then cannot be decoded and every later read and update fails. *)
Lemma UpdateGroupFields_GetGroup {D} `{EngineLaws D} (gfs gfs' : FieldStorage D)
    pk n updates deletes old :
  let fields := update_group (from_option AG_Fields ∅ old) updates deletes in
  NoDup updates.*1 → wf_group (mkAttributeGroup n fields) →
  GroupedFieldStorage_GetGroup gfs pk n = Ret old →
  GroupedFieldStorage_UpdateGroupFields gfs pk n updates deletes = Ret (gfs', None) →
  db_healthy (FS_db gfs') →
  GroupedFieldStorage_GetGroup gfs' pk n =
  if ends_empty fields then Err EOF else Ret (Some (mkAttributeGroup n fields)).
Proof.
  intros fields Hnd Hwf Hg Hu Hh. unfold GroupedFieldStorage_UpdateGroupFields in Hu.
  rewrite Hg in Hu. rewrite foldl_insert_union in Hu by done.
  replace (foldl _ _ deletes) with fields in Hu by (by destruct old).
  unfold GroupedFieldStorage_SetGroup in Hu.
  destruct (RocksDB_Put _ _ _) as [d o] eqn:Ep. simplify_eq. apply RocksDB_Put_spec in Ep.
  unfold GroupedFieldStorage_GetGroup. cbn [FS_set FS_db FS_partitionID AG_Name] in *.
  rewrite RocksDB_Get_healthy by done. rewrite Ep, lookup_insert_eq. cbn [mbind outcome_bind].
  rewrite DecodeAttributeGroup_Encode by done. cbn [AG_Fields].
  by destruct (ends_empty fields).
Qed.

Lemma UpdateGroupFields_GetGroup_witness :
  let gfs0 := mkFieldStorage (mem_of ∅) 5 in
  ∃ gfs', GroupedFieldStorage_UpdateGroupFields gfs0 (str_bytes "u") (str_bytes "g")
    [(str_bytes "a", str_bytes "1"); (str_bytes "b", [])] [] = Ret (gfs', None) ∧
  GroupedFieldStorage_GetGroup gfs' (str_bytes "u") (str_bytes "g") = Err EOF.
Proof.
  intros gfs0. eexists. split; [vm_compute; reflexivity|].
  apply (UpdateGroupFields_GetGroup gfs0 _ (str_bytes "u") (str_bytes "g")
    [(str_bytes "a", str_bytes "1"); (str_bytes "b", [])] [] None).
  - apply (bool_decide_unpack _). by vm_compute.
  - apply (bool_decide_unpack _). by vm_compute.
  - vm_compute. reflexivity.
  - vm_compute. reflexivity.
  - split; [constructor|done].
Defined.
