(* ===== verification/FieldJson.v ===== *)
(** * FieldJson: documents as JSON

    [FieldStorage.ToJSON] and [FieldStorage.FromJSON] of
    [storage/field_storage.go].  encoding/json is the class [Json]: a value of
    type [J] is what an [interface{}] holds, a document is a map from names to
    such values.  A range loop over a map follows the list that [order] makes of
    its entries. *)

From S2P Require Import Prelude Engine Keys FieldCodec FieldStorage.

Class Json (J : Type) := {
  json_string : bytes → J;
  json_Marshal : J → goerr + bytes;
  json_Unmarshal : bytes → goerr + J;
  json_MarshalMap : gmap bytes J → goerr + bytes;
  json_UnmarshalMap : bytes → goerr + gmap bytes J;
  (** Go strings that are valid UTF-8, and values made of them. *)
  json_name_ok : bytes → Prop;
  json_ok : J → Prop
}.

Abbreviation doc_ok := (map_Forall (λ name v, json_name_ok name ∧ json_ok v)).

(** What Unmarshal makes can be marshalled, and reads back as it was. *)
Class JsonLaws (J : Type) `{Json J} := {
  json_Unmarshal_ok b v : json_Unmarshal b = inr v → json_ok v;
  json_UnmarshalMap_ok b doc : json_UnmarshalMap b = inr doc → doc_ok doc;
  json_Marshal_round v : json_ok v → ∃ b, json_Marshal v = inr b ∧ json_Unmarshal b = inr v;
  json_MarshalMap_round doc : doc_ok doc → ∃ b, json_MarshalMap doc = inr b ∧ json_UnmarshalMap b = inr doc
}.

Section Json.
  Context {D J : Type} `{Engine D, Json J}.

(** The value of a field in the document: parsed, or the text as it is. *)
Definition json_field (value : bytes) : J :=
  match json_Unmarshal value with
  | inl _ => json_string value
  | inr jsonValue => jsonValue
  end.

(** The loop of [ToJSON]; [name[0]] panics on an empty name. *)
Fixpoint to_json_loop (doc : gmap bytes J) (fields : list (bytes * bytes)) : outcome (gmap bytes J) :=
  match fields with
  | [] => Ret doc
  | ([], _) :: _ => Panic
  | ((c :: _) as name, value) :: rest =>
      if decide (c = Byte.x5f) then to_json_loop doc rest
      else to_json_loop (<[name := json_field value]> doc) rest
  end.

Definition FieldStorage_ToJSON (order : list (bytes * bytes) → list (bytes * bytes)) (fs : FieldStorage D) (pk : bytes) :
    outcome (option bytes) :=
  fields ← FieldStorage_GetAllFields fs pk;
  if decide (fields = ∅) then Ret None
  else
    doc ← to_json_loop ∅ (order (map_to_list fields));
    match json_MarshalMap doc with
    | inl err => Err err
    | inr data => Ret (Some data)
    end.

Fixpoint from_json_loop (fields : gmap bytes bytes) (doc : list (bytes * J)) : goerr + gmap bytes bytes :=
  match doc with
  | [] => inr fields
  | (name, value) :: rest =>
      match json_Marshal value with
      | inl err => inl (Errorf "failed to marshal field")
      | inr jsonValue => from_json_loop (<[name := jsonValue]> fields) rest
      end
  end.

Definition FieldStorage_FromJSON (order : list (bytes * J) → list (bytes * J))
    (order' : list (bytes * bytes) → list (bytes * bytes)) (fs : FieldStorage D) (pk data : bytes) :
    FieldStorage D * option goerr :=
  match json_UnmarshalMap data with
  | inl err => (fs, Some (Errorf "invalid JSON"))
  | inr doc =>
      match from_json_loop ∅ (order (map_to_list doc)) with
      | inl err => (fs, Some err)
      | inr fields => FieldStorage_SetFields fs pk (order' (map_to_list fields))
      end
  end.
End Json.

(** ** The loops *)

(** The names that [ToJSON] leaves out. *)
Definition internal (name : bytes) : Prop := head name = Some Byte.x5f.

#[global] Instance internal_dec name : Decision (internal name) := decide (head name = Some Byte.x5f).

Section loops.
  Context {J : Type} `{JsonLaws J}.

(** The part of a document that [ToJSON] shows. *)
Definition shown (fields : gmap bytes bytes) : gmap bytes J :=
  json_field <$> filter (λ e, ¬ internal e.1) fields.

Lemma to_json_loop_eq (doc : gmap bytes J) l : NoDup l.*1 →
  to_json_loop doc l = if decide ([] ∈ l.*1) then Panic else Ret (shown (list_to_map l) ∪ doc).
Proof.
  revert doc. induction l as [|[name value] l IH]; intros doc Hnd; cbn [to_json_loop].
  - unfold shown. rewrite decide_False by apply not_elem_of_nil. change (list_to_map []) with (∅ : gmap bytes bytes).
    by rewrite map_filter_empty, fmap_empty, (left_id_L ∅ (∪)).
  - rewrite fmap_cons, list_to_map_cons. cbn [fst snd].
    apply NoDup_cons in Hnd as [Hni Hnd]. destruct name as [|c name].
    { rewrite decide_True; [done|by left]. }
    rewrite !IH by done. unfold shown.
    assert (Hn : list_to_map (M := gmap bytes bytes) l !! (c :: name) = None) by by apply not_elem_of_list_to_map.
    rewrite (decide_ext ([] ∈ (c :: name) :: l.*1) ([] ∈ l.*1)) by (rewrite elem_of_cons; naive_solver).
    destruct (decide (c = Byte.x5f)) as [->|Hc]; destruct (decide ([] ∈ l.*1)); [done| |done|].
    + f_equal. rewrite map_filter_insert_False by (unfold internal; naive_solver).
      by rewrite delete_id.
    + f_equal. rewrite map_filter_insert_True by (unfold internal; naive_solver).
      rewrite fmap_insert, <- insert_union_l, insert_union_r; [done|].
      rewrite lookup_fmap, (proj2 (map_lookup_filter_None _ _ _)); [done|by left].
Qed.

Lemma from_json_loop_ok (doc : list (bytes * J)) fields : NoDup doc.*1 →
  Forall (λ e, json_ok e.2) doc →
  ∃ fields', from_json_loop fields doc = inr (fields' ∪ fields) ∧
    dom fields' = list_to_set doc.*1 ∧ json_field <$> fields' = list_to_map (M := gmap bytes J) doc.
Proof.
  revert fields. induction doc as [|[name v] doc IH]; intros fields Hnd Hok; simpl.
  - exists ∅. by rewrite (left_id_L ∅ (∪)), dom_empty_L, fmap_empty.
  - cbn in Hnd. apply NoDup_cons in Hnd as [Hni Hnd]. apply Forall_cons in Hok as [Hv Hok].
    destruct (json_Marshal_round v Hv) as (b & -> & Hb).
    destruct (IH (<[name:=b]> fields) Hnd Hok) as (f' & -> & Hdom & Hf).
    exists (<[name:=b]> f'). split_and!.
    + f_equal. rewrite <- insert_union_l, insert_union_r; [done|]. apply not_elem_of_dom. rewrite Hdom.
      by rewrite elem_of_list_to_set.
    + by rewrite dom_insert_L, Hdom.
    + rewrite fmap_insert, Hf. f_equal. unfold json_field. by rewrite Hb.
Qed.
End loops.

(** ** The documents *)

Section documents.
  Context {D J : Type} `{EngineLaws D, JsonLaws J}.
Implicit Types (fs : FieldStorage D) (fields old : gmap bytes bytes) (doc : gmap bytes J).

Abbreviation reorders := (λ o, ∀ l, o l ≡ₚ l).
Abbreviation visible := (filter (λ e, ¬ internal e.1)).

Lemma map_Forall_visible (P : bytes → J → Prop) doc : map_Forall P doc → map_Forall P (visible doc).
Proof. intros HP k v [Hk _]%map_lookup_filter_Some. by apply HP. Qed.

Lemma visible_lookup {A} (m : gmap bytes A) k : visible m !! k = if decide (internal k) then None else m !! k.
Proof.
  case_decide as Hk; [apply map_lookup_filter_None; right; intros ? _ HI; by apply HI|].
  destruct (m !! k) eqn:E; [by apply map_lookup_filter_Some|by apply map_lookup_filter_None; left].
Qed.

(** What is shown of new fields over old ones, the new ones being a document. *)
Lemma shown_union fields old doc : json_field <$> fields = doc → shown (fields ∪ old) = visible doc ∪ shown old.
Proof.
  intros <-. apply map_eq. intros k. unfold shown.
  rewrite lookup_union, !lookup_fmap, !visible_lookup, !lookup_fmap, lookup_union. case_decide; [done|].
  by destruct (fields !! k), (old !! k).
Qed.

Lemma ToJSON_spec order fs pk : reorders order → is_u32 (FS_partitionID fs) → len pk < 2 ^ 32 - 12 →
  db_healthy (FS_db fs) →
  let fields := doc_of (db_view (FS_db fs)) (FS_partitionID fs) pk in
  FieldStorage_ToJSON (J := J) order fs pk =
  if decide (fields = ∅) then Ret None else if decide ([] ∈ dom fields) then Panic
  else match json_MarshalMap (shown fields) with inl err => Err err | inr data => Ret (Some data) end.
Proof.
  intros Ho Hp Hk Hh fields.
  destruct (db_healthy_scan _ (GetFieldPrefix (FS_partitionID fs) pk) Hh) as [l Hl]. unfold FieldStorage_ToJSON.
  rewrite GetAllFields_spec by done. rewrite Hl. cbn [snd mbind outcome_bind]. fold fields.
  case_decide; [done|]. assert (Hpm : order (map_to_list fields) ≡ₚ map_to_list fields) by apply Ho.
  assert (Hnd : NoDup (order (map_to_list fields)).*1) by (rewrite Hpm; apply NoDup_fst_map_to_list).
  rewrite to_json_loop_eq by done. rewrite (decide_ext _ ([] ∈ dom fields)).
  - case_decide; [done|]. cbn [mbind outcome_bind].
    by rewrite (list_to_map_proper _ _ Hnd Hpm), list_to_map_to_list, (right_id_L ∅ (∪)).
  - by rewrite Hpm, dom_alt, elem_of_list_to_set.
Qed.

Lemma FromJSON_spec order order' fs pk data : reorders order → reorders order' →
  match json_UnmarshalMap data with
  | inl _ => FieldStorage_FromJSON (J := J) order order' fs pk data = (fs, Some (Errorf "invalid JSON"))
  | inr doc => ∃ fields, dom fields = dom doc ∧ json_field <$> fields = doc ∧
      doc_refines fs pk (fields ∪ doc_of (db_view (FS_db fs)) (FS_partitionID fs) pk)
        (FieldStorage_FromJSON (J := J) order order' fs pk data)
  end.
Proof.
  intros Ho Ho'. unfold FieldStorage_FromJSON. destruct (json_UnmarshalMap data) as [|doc] eqn:E; [done|].
  assert (Hpm : order (map_to_list doc) ≡ₚ map_to_list doc) by apply Ho.
  assert (Hnd : NoDup (order (map_to_list doc)).*1) by (rewrite Hpm; apply NoDup_fst_map_to_list).
  destruct (from_json_loop_ok (order (map_to_list doc)) ∅ Hnd) as (fields & -> & Hdom & Hf).
  { rewrite Hpm. apply Forall_forall. intros [name v] Hin%elem_of_map_to_list. by eapply json_UnmarshalMap_ok. }
  rewrite (right_id_L ∅ (∪)).
  exists fields. split_and!.
  - rewrite Hdom, Hpm. apply leibniz_equiv. by rewrite dom_alt.
  - rewrite Hf, (list_to_map_proper _ _ Hnd Hpm). apply list_to_map_to_list.
  - assert (Hpm' : order' (map_to_list fields) ≡ₚ map_to_list fields) by apply Ho'.
    assert (Hnd' : NoDup (order' (map_to_list fields)).*1) by (rewrite Hpm'; apply NoDup_fst_map_to_list).
    pose proof (SetFields_refines fs pk (order' (map_to_list fields)) Hnd') as HR.
    by rewrite (list_to_map_proper _ _ Hnd' Hpm'), list_to_map_to_list in HR.
Qed.

(** Importing a document into [old]: the merged one is what [ToJSON] gives. *)
Lemma FromJSON_imports o1 o2 fs pk data fs' err : reorders o1 → reorders o2 →
  FieldStorage_FromJSON (J := J) o1 o2 fs pk data = (fs', err) →
  let p := FS_partitionID fs in
  FS_partitionID fs' = p ∧
  match err with
  | Some _ => db_view (FS_db fs') = db_view (FS_db fs)
  | None => ∃ doc fields, json_UnmarshalMap data = inr doc ∧ dom fields = dom doc ∧ json_field <$> fields = doc ∧
      doc_of (db_view (FS_db fs')) p pk = fields ∪ doc_of (db_view (FS_db fs)) p pk ∧
      doc_frame (db_view (FS_db fs)) (db_view (FS_db fs')) p pk
  end.
Proof.
  intros H1' H2' E. pose proof (FromJSON_spec o1 o2 fs pk data H1' H2') as HS. rewrite E in HS.
  destruct (json_UnmarshalMap data) as [|doc]; [by simplify_eq|].
  destruct HS as (fields & Hdom & Hf & Hp & HR). destruct err; [done|]. destruct HR.
  split; [done|]. by exists doc, fields.
Qed.
End documents.

(** C35: a JSON document survives the field store.  [FromJSON] either fails and
    changes nothing, or it adds the fields of the document and touches no other
    key; then [ToJSON] on a healthy database gives nothing exactly when there are
    no fields, panics exactly when a field has the empty name, and otherwise
    gives the encoding of the document over the fields there were before,
    without the names that start with an underscore.  Into an empty key the
    document itself comes back, without those names. *)
Theorem json_document_round_trip {D J} `{EngineLaws D, JsonLaws J} o1 o2 o3 (fs : FieldStorage D) pk data fs' err :
  (∀ l, o1 l ≡ₚ l) → (∀ l, o2 l ≡ₚ l) → (∀ l, o3 l ≡ₚ l) →
  is_u32 (FS_partitionID fs) → len pk < 2 ^ 32 - 12 →
  FieldStorage_FromJSON (J := J) o1 o2 fs pk data = (fs', err) →
  let p := FS_partitionID fs in
  let old := doc_of (db_view (FS_db fs)) p pk in
  match err with
  | Some _ => db_view (FS_db fs') = db_view (FS_db fs)
  | None => ∃ doc, json_UnmarshalMap data = inr doc ∧
      doc_frame (db_view (FS_db fs)) (db_view (FS_db fs')) p pk ∧
      (db_healthy (FS_db fs') →
       let result := FieldStorage_ToJSON (J := J) o3 fs' pk in
       let merged := filter (λ e, ¬ internal e.1) doc ∪ shown old in
       (result = Ret None ↔ doc = ∅ ∧ old = ∅) ∧
       (result = Panic ↔ [] ∈ dom doc ∪ dom old) ∧
       (∀ b, result = Ret (Some b) → json_MarshalMap merged = inr b ∧ (old = ∅ → json_UnmarshalMap b = inr merged)) ∧
       (∀ e, result = Err e → json_MarshalMap merged = inl e ∧ old ≠ ∅))
  end.
Proof.
  intros Ho1 Ho2 Ho3 Hp Hk E p old.
  destruct (FromJSON_imports _ _ _ _ _ _ _ Ho1 Ho2 E) as [Hp' HR]. destruct err; [done|].
  destruct HR as (doc & fields & Hd & Hdom & Hf & Hdoc & Hframe). fold p old in Hdoc, Hframe.
  exists doc. split_and!; [done..|]. intros Hh result merged.
  assert (Hm : shown (fields ∪ old) = merged) by by apply shown_union.
  assert (Hempty : fields ∪ old = ∅ ↔ doc = ∅ ∧ old = ∅).
  { rewrite <- !(dom_empty_iff_L (D := gset bytes)), dom_union_L, Hdom. set_solver. }
  assert (Hround : old = ∅ → ∃ b, json_MarshalMap merged = inr b ∧ json_UnmarshalMap b = inr merged).
  { intros Hold. apply json_MarshalMap_round. unfold merged. rewrite Hold. unfold shown.
    rewrite map_filter_empty, fmap_empty, (right_id_L ∅ (∪)). by eapply map_Forall_visible, json_UnmarshalMap_ok. }
  assert (HT : result = if decide (fields ∪ old = ∅) then Ret None else if decide ([] ∈ dom doc ∪ dom old) then Panic
    else match json_MarshalMap merged with inl e => Err e | inr b => Ret (Some b) end).
  { unfold result. rewrite ToJSON_spec by (done || by rewrite Hp'). rewrite Hp'. fold p. rewrite Hdoc, Hm.
    by rewrite dom_union_L, Hdom. }
  clearbody result merged old. rewrite HT. clear HT.
  assert (Hd0 : fields ∪ old = ∅ → [] ∉ dom doc ∪ dom old) by (intros [-> ->]%Hempty; set_solver).
  repeat case_decide; [by naive_solver..|].
  destruct (json_MarshalMap merged) as [e|b] eqn:EM; split_and!; try naive_solver.
Qed.

(** ** A JSON to run: documents of null, booleans and strings *)

Inductive flat := FNull | FBool (b : bool) | FString (s : bytes).

Definition quote : byte := Byte.x22.
Definition backslash : byte := Byte.x5c.

Fixpoint escaped (s : bytes) : bytes :=
  match s with
  | [] => [quote]
  | c :: s => (if decide (c = quote ∨ c = backslash) then [backslash; c] else [c]) ++ escaped s
  end.

Fixpoint unescaped (b : bytes) : option (bytes * bytes) :=
  match b with
  | [] => None
  | c :: b =>
      if decide (c = quote) then Some ([], b)
      else if decide (c = backslash) then
        match b with [] => None | c :: b => '(s, rest) ← unescaped b; Some (c :: s, rest) end
      else '(s, rest) ← unescaped b; Some (c :: s, rest)
  end.

Definition flat_print (v : flat) : bytes :=
  match v with
  | FNull => str_bytes "null"
  | FBool true => str_bytes "true"
  | FBool false => str_bytes "false"
  | FString s => quote :: escaped s
  end.

Definition flat_parse (b : bytes) : option (flat * bytes) :=
  match b with
  | [] => None
  | c :: b' =>
      if decide (c = quote) then '(s, rest) ← unescaped b'; Some (FString s, rest)
      else if has_prefix b (str_bytes "null") then Some (FNull, drop 4 b)
      else if has_prefix b (str_bytes "true") then Some (FBool true, drop 4 b)
      else if has_prefix b (str_bytes "false") then Some (FBool false, drop 5 b)
      else None
  end.

Definition entry_print (e : bytes * flat) : bytes :=
  quote :: escaped e.1 ++ Byte.x3a :: flat_print e.2 ++ [Byte.x2c].

Fixpoint entries_parse (fuel : nat) (b : bytes) : option (list (bytes * flat)) :=
  match fuel, b with
  | S fuel, c :: b =>
      if decide (c = quote) then
        match unescaped b with
        | Some (name, c1 :: b) =>
            if decide (c1 = Byte.x3a) then
              match flat_parse b with
              | Some (v, c2 :: b) => if decide (c2 = Byte.x2c) then cons (name, v) <$> entries_parse fuel b else None
              | _ => None
              end
            else None
        | _ => None
        end
      else if decide (c = Byte.x7d ∧ b = []) then Some [] else None
  | _, _ => None
  end.

#[global] Instance FlatJson : Json flat := {
  json_string := FString;
  json_Marshal v := inr (flat_print v);
  json_Unmarshal b := match flat_parse b with Some (v, []) => inr v | _ => inl (Errorf "invalid value") end;
  json_MarshalMap doc := inr (Byte.x7b :: flat_map entry_print (map_to_list doc) ++ [Byte.x7d]);
  json_UnmarshalMap b :=
    if decide (b = str_bytes "null") then inr ∅
    else match b with
      | c :: b => if decide (c = Byte.x7b) then
          match entries_parse (length b) b with
          | Some l => inr (list_to_map l)
          | None => inl (Errorf "invalid document")
          end else inl (Errorf "not an object")
      | [] => inl (Errorf "unexpected end of JSON input")
      end;
  json_name_ok _ := True;
  json_ok _ := True
}.

Lemma unescaped_escaped s rest : unescaped (escaped s ++ rest) = Some (s, rest).
Proof.
  induction s as [|c s IH]; [done|]. cbn [escaped]. destruct (decide (c = quote ∨ c = backslash)) as [Hc|Hc]; cbn.
  - by rewrite IH.
  - rewrite !decide_False by naive_solver. by rewrite IH.
Qed.

Lemma flat_parse_print v rest : flat_parse (flat_print v ++ rest) = Some (v, rest).
Proof. destruct v as [|[]|s]; [done..|]. cbn. by rewrite unescaped_escaped. Qed.

Lemma entries_parse_print l fuel : (length l < fuel)%nat →
  entries_parse fuel (flat_map entry_print l ++ [Byte.x7d]) = Some l.
Proof.
  revert fuel. induction l as [|[name v] l IH]; intros [|fuel] Hf; [simpl in Hf; lia|done|simpl in Hf; lia|].
  cbn [flat_map entry_print fst snd app]. rewrite <- !app_assoc. cbn [entries_parse].
  rewrite decide_True, unescaped_escaped by done. cbn [app]. rewrite decide_True by done.
  rewrite <- !app_assoc, flat_parse_print. cbn [app]. rewrite decide_True, IH by (done || (simpl in Hf; lia)). done.
Qed.

Lemma flat_map_entries_length l : (length l ≤ length (flat_map entry_print l))%nat.
Proof. induction l as [|e l IH]; [done|]. cbn [flat_map entry_print app length]. rewrite !length_app. lia. Qed.

#[global] Instance FlatJson_laws : JsonLaws flat.
Proof.
  split; [done|done| |].
  - intros v _. exists (flat_print v). split; [done|]. cbn. rewrite <- (app_nil_r (flat_print v)).
    by rewrite flat_parse_print.
  - intros doc _. eexists. split; [done|]. cbn [json_UnmarshalMap FlatJson]. rewrite decide_False, decide_True by done.
    rewrite entries_parse_print; [by rewrite list_to_map_to_list|].
    rewrite length_app. pose proof (flat_map_entries_length (map_to_list doc)). simpl. lia.
Qed.

Definition demo_data : bytes :=
  str_bytes "{" ++ entry_print (str_bytes "name", FString (str_bytes "ann")) ++
  entry_print (str_bytes "_rev", FBool true) ++ str_bytes "}".

Definition demo_import : FieldStorage MemDB * option goerr :=
  FieldStorage_FromJSON (J := flat) id id (mkFieldStorage (mem_of ∅) 5) (str_bytes "u") demo_data.

Lemma json_document_round_trip_witness :
  is_u32 5 ∧ len (str_bytes "u") < 2 ^ 32 - 12 ∧ demo_import.2 = None ∧ db_healthy (FS_db demo_import.1) ∧
  ∃ b, FieldStorage_ToJSON (J := flat) id demo_import.1 (str_bytes "u") = Ret (Some b) ∧
    json_UnmarshalMap (J := flat) b = inr {[ str_bytes "name" := FString (str_bytes "ann") ]}.
Proof.
  assert (Hp : is_u32 5) by by vm_compute; split.
  assert (Hk : len (str_bytes "u") < 2 ^ 32 - 12) by by vm_compute.
  assert (Hh : db_healthy (FS_db demo_import.1)) by by vm_compute.
  assert (H2 : demo_import.2 = None) by by vm_compute.
  assert (Hi : demo_import = (demo_import.1, None)) by by rewrite <- H2, <- surjective_pairing.
  split; [exact Hp|]. split; [exact Hk|]. split; [exact H2|]. split; [exact Hh|].
  destruct (json_document_round_trip (J := flat) id id id (mkFieldStorage (mem_of ∅) 5) (str_bytes "u") demo_data
    demo_import.1 None (@Permutation_refl _) (@Permutation_refl _) (@Permutation_refl _) Hp Hk Hi) as (doc & Hd & _ & HT).
  destruct (HT Hh) as (_ & _ & HT' & _). clear HT.
  eexists. split; [by vm_compute|].
  destruct (HT' _ ltac:(by vm_compute)) as [_ HU]. rewrite HU; [|by vm_compute].
  apply (f_equal (λ r, match r with inr d => d | inl _ => ∅ end)) in Hd. cbv beta iota in Hd. rewrite <- Hd.
  apply (f_equal inr), map_to_list_inj. vm_compute. reflexivity.
Defined.

(** A field without a name makes [ToJSON] panic. *)
Example empty_name_panics :
  FieldStorage_ToJSON (J := flat) id
    (FieldStorage_SetField (mkFieldStorage (mem_of ∅) 5) (str_bytes "u") [] (str_bytes "null")).1 (str_bytes "u") = Panic.
Proof. by vm_compute. Qed.
