(* ===== verification/CommandEntry.v ===== *)
(** * Command log entries

    [CommandEntry] of [src/pkg/storage/command_log.go]: the record of one write,
    its encoding with a CRC-32, and the decoder that the recovery, replication
    and replay loops call on the bytes of a log file. *)

From S2P Require Import Prelude Crc32 FieldCodec.

Definition CmdTypePut : byte := Byte.x01.
Definition CmdTypeDelete : byte := Byte.x02.
Definition CmdTypeFieldBatch : byte := Byte.x03.

Record CommandEntry := mkCommandEntry {
  CE_Sequence : Z;
  CE_Timestamp : Z;
  CE_CmdType : byte;
  CE_KeyLen : Z;
  CE_ValueLen : Z;
  CE_Key : bytes;
  CE_Value : bytes;
  CE_CRC : Z
}.

#[global] Instance CommandEntry_eq_dec : EqDecision CommandEntry.
Proof. solve_decision. Defined.

(** The first 25 bytes. *)
Definition entry_header (e : CommandEntry) : bytes :=
  be64 (CE_Sequence e) ++ be64 (u64 (CE_Timestamp e)) ++ [CE_CmdType e] ++
  be32 (CE_KeyLen e) ++ be32 (CE_ValueLen e).

(** Everything but the checksum: [buf[:offset]] in [Encode]. *)
Definition entry_body (e : CommandEntry) : bytes :=
  entry_header e ++ CE_Key e ++ CE_Value e.

(** [Encode] returns the bytes and stores the checksum in the entry. *)
Definition CommandEntry_Encode (e : CommandEntry) : bytes * CommandEntry :=
  let crc := ChecksumIEEE (entry_body e) in
  (entry_body e ++ be32 crc,
   mkCommandEntry (CE_Sequence e) (CE_Timestamp e) (CE_CmdType e) (CE_KeyLen e)
     (CE_ValueLen e) (CE_Key e) (CE_Value e) crc).

Definition ComputeEntryCRC (header key value : bytes) : Z :=
  ChecksumIEEE (header ++ key ++ value).

(** [DecodeCommandEntry]: the entry and the bytes that follow it. *)
Definition DecodeCommandEntry (r : bytes) : outcome (CommandEntry * bytes) :=
  '(header, r) ← rd_full 25 r;
  seq ← slice header 0 8;
  ts ← slice header 8 16;
  cmd ← index header 16;
  kl ← slice header 17 21;
  vl ← slice header 21 25;
  let KeyLen := be_val kl in
  let ValueLen := be_val vl in
  '(key, r) ← rd_full (Z.to_nat KeyLen) r;
  '(value, r) ← (if 0 <? ValueLen then rd_full (Z.to_nat ValueLen) r else Ret ([], r));
  '(crcBuf, r) ← rd_full 4 r;
  let storedCRC := be_val crcBuf in
  let expectedCRC := ComputeEntryCRC header key value in
  if negb (storedCRC =? expectedCRC) then Err (Errorf "CRC mismatch")
  else Ret (mkCommandEntry (be_val seq) (i64 (be_val ts)) cmd KeyLen ValueLen
              key value storedCRC, r).

(** An entry as [Append] makes it and [Encode] completes it. *)
Definition wf_entry (e : CommandEntry) : Prop :=
  is_u64 (CE_Sequence e) ∧ is_i64 (CE_Timestamp e) ∧
  CE_KeyLen e = len (CE_Key e) ∧ is_u32 (CE_KeyLen e) ∧
  CE_ValueLen e = len (CE_Value e) ∧ is_u32 (CE_ValueLen e) ∧
  CE_CRC e = ChecksumIEEE (entry_body e).

#[global] Instance wf_entry_dec e : Decision (wf_entry e).
Proof. unfold wf_entry. apply _. Defined.

Definition encode (e : CommandEntry) : bytes := (CommandEntry_Encode e).1.

(** The bytes of a run of entries. *)
Definition encode_all (es : list CommandEntry) : bytes := concat (map encode es).

Lemma encode_all_app es fs : encode_all (es ++ fs) = encode_all es ++ encode_all fs.
Proof. unfold encode_all. by rewrite map_app, concat_app. Qed.
Lemma encode_all_cons e es : encode_all (e :: es) = encode e ++ encode_all es.
Proof. done. Qed.

(** Decoding the five fields of a header. *)
Lemma header_fields e :
  slice (entry_header e) 0 8 = Ret (be64 (CE_Sequence e)) ∧
  slice (entry_header e) 8 16 = Ret (be64 (u64 (CE_Timestamp e))) ∧
  index (entry_header e) 16 = Ret (CE_CmdType e) ∧
  slice (entry_header e) 17 21 = Ret (be32 (CE_KeyLen e)) ∧
  slice (entry_header e) 21 25 = Ret (be32 (CE_ValueLen e)).
Proof.
  unfold entry_header. split_and!.
  - by apply (slice_at []).
  - by apply slice_at.
  - rewrite app_assoc. by apply index_at.
  - rewrite (app_assoc (be64 _)), (app_assoc _ [_]).
    by apply slice_at; autorewrite with rocks.
  - rewrite (app_assoc (be64 _)), (app_assoc _ [_]), (app_assoc _ (be32 _)).
    rewrite <- (app_nil_r (be32 (CE_ValueLen e))).
    by apply slice_at; autorewrite with rocks.
Qed.

Lemma length_entry_header e : length (entry_header e) = 25%nat.
Proof. done. Qed.

Lemma rd_full_at n a r : n = length a → rd_full n (a ++ r) = Ret (a, r).
Proof. intros ->. apply rd_full_app. Qed.

(** Decoding inverts encoding, whatever follows the entry. *)
Lemma DecodeCommandEntry_encode e r :
  wf_entry e → DecodeCommandEntry (encode e ++ r) = Ret (e, r).
Proof.
  intros (Hs & Ht & Hkl & Hku & Hvl & Hvu & Hcrc).
  unfold DecodeCommandEntry, encode, CommandEntry_Encode, entry_body. cbn [fst].
  rewrite <- !app_assoc. rewrite rd_full_at by done. cbn [mbind outcome_bind].
  destruct (header_fields e) as (-> & -> & -> & -> & ->). cbn [mbind outcome_bind].
  rewrite !be_val_be32 by done.
  rewrite rd_full_at by (rewrite Hkl; apply to_nat_len). cbn [mbind outcome_bind].
  fold (entry_body e). fold (ComputeEntryCRC (entry_header e) (CE_Key e) (CE_Value e)).
  assert ((if 0 <? CE_ValueLen e
    then rd_full (Z.to_nat (CE_ValueLen e)) (CE_Value e ++ be32 (ChecksumIEEE (entry_body e)) ++ r)
    else Ret ([], CE_Value e ++ be32 (ChecksumIEEE (entry_body e)) ++ r))
    = Ret (CE_Value e, be32 (ChecksumIEEE (entry_body e)) ++ r)) as ->.
  { destruct (Z.ltb_spec 0 (CE_ValueLen e)).
    - apply rd_full_at. rewrite Hvl. apply to_nat_len.
    - destruct (CE_Value e) as [|x v]; [done|]. rewrite len_cons in Hvl.
      pose proof (len_nonneg v). lia. }
  cbn [mbind outcome_bind]. rewrite rd_full_at by done. cbn [mbind outcome_bind].
  rewrite !be_val_be32 by apply ChecksumIEEE_u32.
  unfold ComputeEntryCRC. fold (entry_body e). rewrite Z.eqb_refl. cbn [negb].
  rewrite !be_val_be64_u. rewrite (u64_small (CE_Sequence e)) by done.
  rewrite (u64_small (u64 _)) by (apply Z.mod_pos_bound; lia). rewrite i64_u64 by done.
  rewrite <- Hcrc. by destruct e.
Qed.

Lemma u64_i64 z : is_u64 z → u64 (i64 z) = z.
Proof.
  unfold is_u64, u64, i64, wrap. intros Hz.
  replace ((z + 2 ^ 63) mod 2 ^ 64 - 2 ^ 63)
    with (z + (- ((z + 2 ^ 63) / 2 ^ 64)) * 2 ^ 64).
  - rewrite Z_mod_plus_full. by apply Z.mod_small.
  - pose proof (Z_div_mod_eq_full (z + 2 ^ 63) (2 ^ 64)). lia.
Qed.

Lemma i64_range z : is_i64 (i64 z).
Proof.
  unfold is_i64, i64. pose proof (Z.mod_pos_bound (z + 2 ^ 63) (2 ^ 64) ltac:(lia)). lia.
Qed.

(** A header is the header of the entry read from it. *)
Lemma header_split (h : bytes) :
  length h = 25%nat → ∃ s t c k v, h = s ++ t ++ [c] ++ k ++ v ∧
    length s = 8%nat ∧ length t = 8%nat ∧ length k = 4%nat ∧ length v = 4%nat.
Proof.
  intros Hl. do 25 (destruct h as [|? h]; [done|]). destruct h; [|done].
  by eexists [_; _; _; _; _; _; _; _], [_; _; _; _; _; _; _; _], _, [_; _; _; _], [_; _; _; _].
Qed.

Lemma be_val_u64 bs : length bs = 8%nat → is_u64 (be_val bs).
Proof. intros Hl. pose proof (be_val_bound bs) as Hb. unfold len in Hb. by rewrite Hl in Hb. Qed.
Lemma be_val_u32 bs : length bs = 4%nat → is_u32 (be_val bs).
Proof. intros Hl. pose proof (be_val_bound bs) as Hb. unfold len in Hb. by rewrite Hl in Hb. Qed.

(** What the decoder accepts is the encoding of what it returns. *)
Lemma DecodeCommandEntry_sound r e r' :
  DecodeCommandEntry r = Ret (e, r') → wf_entry e ∧ r = encode e ++ r'.
Proof.
  unfold DecodeCommandEntry. intros ([h r1] & Hh & Hd)%bind_Ret_inv.
  apply rd_full_inv in Hh as [-> Hlh].
  destruct (header_split h Hlh) as (s & t & c & k & v & -> & Hs & Ht & Hk & Hv).
  set (e0 := mkCommandEntry (be_val s) (i64 (be_val t)) c (be_val k) (be_val v) [] [] 0).
  assert (s ++ t ++ [c] ++ k ++ v = entry_header e0) as Hhdr.
  { unfold entry_header, e0. cbn [CE_Sequence CE_Timestamp CE_CmdType CE_KeyLen CE_ValueLen].
    rewrite u64_i64 by by apply be_val_u64.
    unfold be64, be32. by rewrite !be_bytes_val. }
  rewrite Hhdr in *. destruct (header_fields e0) as (H1 & H2 & H3 & H4 & H5).
  rewrite H1, H2, H3, H4, H5 in Hd. cbn [mbind outcome_bind] in Hd.
  rewrite !be_val_be32, !be_val_be64_u in Hd by by apply be_val_u32.
  apply bind_Ret_inv in Hd as ([key r2] & Hkey & Hd). apply rd_full_inv in Hkey as [-> Hlk].
  apply bind_Ret_inv in Hd as ([value r3] & Hval & Hd).
  apply bind_Ret_inv in Hd as ([crc r4] & Hc & Hd). apply rd_full_inv in Hc as [-> Hlc].
  destruct (negb _) eqn:Hcrc; [done|]. unbool. simplify_eq.
  assert (r2 = value ++ crc ++ r' ∧ len value = CE_ValueLen e0) as [-> Hlv].
  { pose proof (be_val_u32 v Hv) as [? _]. unfold e0 in *. cbn [CE_ValueLen] in *.
    destruct (Z.ltb_spec 0 (be_val v)).
    - apply rd_full_inv in Hval as [-> Hlv]. split; [done|]. unfold len. lia.
    - simplify_eq. split; [done|]. change (len []) with 0. lia. }
  pose proof (be_val_u32 k Hk) as Hku. pose proof (be_val_u32 v Hv) as Hvu.
  pose proof (be_val_u64 s Hs) as Hsu. pose proof (be_val_u64 t Ht) as Htu.
  unfold e0 in *.
  cbn [CE_Sequence CE_Timestamp CE_CmdType CE_KeyLen CE_ValueLen] in *.
  rewrite (u64_small (be_val s)), u64_i64, (u64_small (be_val t)) in * by done.
  set (e1 := mkCommandEntry _ _ _ _ _ key value _).
  assert (ChecksumIEEE (entry_body e1) = be_val crc) as Hck by done.
  split.
  - unfold wf_entry. rewrite Hck. cbn. split_and!; try done.
    + apply i64_range.
    + unfold len. destruct Hku. lia.
  - unfold encode, CommandEntry_Encode. cbn [fst]. rewrite Hck.
    unfold be32. rewrite be_bytes_val by done. unfold entry_body.
    by rewrite <- !app_assoc.
Qed.

Lemma slice_no_panic s lo hi : 0 ≤ lo ≤ hi → hi ≤ len s → slice s lo hi ≠ Panic.
Proof. intros. by rewrite slice_ret. Qed.

Lemma DecodeCommandEntry_no_panic r : DecodeCommandEntry r ≠ Panic.
Proof.
  unfold DecodeCommandEntry. apply bind_no_panic; [apply rd_full_no_panic|].
  intros [h r1] [_ Hl]%rd_full_inv.
  assert (len h = 25) as Hlen by (unfold len; lia).
  do 2 (apply bind_no_panic; [apply slice_no_panic; lia|intros ? _]).
  apply bind_no_panic.
  { destruct (lookup_lt_is_Some_2 h 16) as [b Hb]; [lia|].
    unfold index. change (Z.to_nat 16) with 16%nat. by rewrite Hb. }
  intros ? _. do 2 (apply bind_no_panic; [apply slice_no_panic; lia|intros ? _]).
  apply bind_no_panic; [apply rd_full_no_panic|]. intros [] _.
  apply bind_no_panic; [case_match; [apply rd_full_no_panic|done]|]. intros [] _.
  apply bind_no_panic; [apply rd_full_no_panic|]. intros [] _. by case_match.
Qed.

(** C33: the log format has exactly one reading: the decoder returns an entry and a
    rest exactly when the input is the encoding of that entry, checksum included,
    followed by the rest.  It never panics, so every other input is an error. *)
Theorem DecodeCommandEntry_iff r e r' :
  (DecodeCommandEntry r = Ret (e, r') ↔ wf_entry e ∧ r = encode e ++ r') ∧
  DecodeCommandEntry r ≠ Panic.
Proof.
  split; [|apply DecodeCommandEntry_no_panic]. split.
  - apply DecodeCommandEntry_sound.
  - intros [Hwf ->]. by apply DecodeCommandEntry_encode.
Qed.

(** No encoding is a proper prefix of another. *)
Lemma encode_prefix_free e e' r r' :
  wf_entry e → wf_entry e' → encode e ++ r = encode e' ++ r' → e = e' ∧ r = r'.
Proof.
  intros He He' Heq. pose proof (DecodeCommandEntry_encode e r He) as H1.
  rewrite Heq, DecodeCommandEntry_encode in H1 by done. by simplify_eq.
Qed.

(** A proper prefix of an entry does not decode. *)
Lemma DecodeCommandEntry_torn e t s :
  wf_entry e → encode e = t ++ s → s ≠ [] → ∃ err, DecodeCommandEntry t = Err err.
Proof.
  intros He Hts Hs. destruct (DecodeCommandEntry t) as [[e' r]|err|] eqn:Hd.
  - apply DecodeCommandEntry_sound in Hd as [He' ->]. exfalso.
    rewrite <- app_assoc in Hts.
    assert (encode e ++ [] = encode e' ++ r ++ s) as Heq by (by rewrite app_nil_r).
    apply encode_prefix_free in Heq as [_ Hrs]; [|done..].
    symmetry in Hrs. by apply app_eq_nil in Hrs as [_ ?].
  - by exists err.
  - by apply DecodeCommandEntry_no_panic in Hd.
Qed.

(** ** Decoding a whole file *)

(** The decode loop run to the end: every caller stops at the first error. *)
Fixpoint decode_loop (fuel : nat) (r : bytes) : list CommandEntry :=
  match fuel with
  | O => []
  | S n =>
      match DecodeCommandEntry r with
      | Ret (e, r') => e :: decode_loop n r'
      | _ => []
      end
  end.

(** Every entry takes 29 bytes, so the length of the file is enough fuel. *)
Definition decode_file (r : bytes) : list CommandEntry := decode_loop (length r) r.

Lemma length_encode e : length (encode e) = (29 + length (CE_Key e) + length (CE_Value e))%nat.
Proof.
  unfold encode, CommandEntry_Encode, entry_body. cbn [fst].
  rewrite !length_app, length_entry_header, length_be32. lia.
Qed.

Lemma decode_loop_fuel n m r :
  (length r ≤ n)%nat → (length r ≤ m)%nat → decode_loop n r = decode_loop m r.
Proof.
  revert m r. induction n as [|n IH]; intros m r Hn Hm.
  { destruct r; [|simpl in Hn; lia]. by destruct m. }
  destruct m as [|m]; [by destruct r; [|simpl in Hm; lia]|].
  simpl. destruct (DecodeCommandEntry r) as [[e r']| |] eqn:Hd; [|done..].
  apply DecodeCommandEntry_sound in Hd as [_ ->]. rewrite length_app, length_encode in *.
  f_equal. apply IH; lia.
Qed.

Lemma decode_file_eq r :
  decode_file r =
  match DecodeCommandEntry r with
  | Ret (e, r') => e :: decode_file r'
  | _ => []
  end.
Proof.
  unfold decode_file at 1. rewrite (decode_loop_fuel _ (S (length r)) r) by lia. simpl.
  destruct (DecodeCommandEntry r) as [[e r']| |] eqn:Hd; [|done..].
  f_equal. apply DecodeCommandEntry_sound in Hd as [_ ->].
  apply decode_loop_fuel; rewrite ?length_app; lia.
Qed.

Lemma decode_file_app es r :
  Forall wf_entry es → decode_file (encode_all es ++ r) = es ++ decode_file r.
Proof.
  induction 1 as [|e es He Hes IH]; [done|]. rewrite encode_all_cons, <- app_assoc.
  rewrite decode_file_eq, DecodeCommandEntry_encode by done. cbn [app]. by rewrite IH.
Qed.

Lemma decode_file_err r err : DecodeCommandEntry r = Err err → decode_file r = [].
Proof. intros H. by rewrite decode_file_eq, H. Qed.

Lemma decode_file_nil : decode_file [] = [].
Proof. done. Qed.

(** What a decoded file looks like: its entries, then bytes that do not decode. *)
Lemma decode_file_shape r :
  ∃ junk, r = encode_all (decode_file r) ++ junk ∧ decode_file junk = [] ∧
    Forall wf_entry (decode_file r).
Proof.
  induction r as [r IH] using (induction_ltof1 _ (@length byte)). unfold ltof in IH.
  rewrite decode_file_eq.
  destruct (DecodeCommandEntry r) as [[e r']|err|] eqn:Hd.
  - apply DecodeCommandEntry_sound in Hd as [Hwf ->].
    destruct (IH r') as (junk & Hr & Hj & Hes).
    { rewrite length_app, length_encode. lia. }
    exists junk. rewrite encode_all_cons, <- app_assoc. split_and!; [by f_equal|done|].
    by constructor.
  - exists r. split_and!; [done| |done]. by eapply decode_file_err.
  - by apply DecodeCommandEntry_no_panic in Hd.
Qed.

(** Decoding a prefix of a run of entries: the entries that are wholly inside,
    and a rest that does not decode. *)
Lemma decode_prefix es t :
  Forall wf_entry es → t `prefix_of` encode_all es →
  ∃ k junk, (k ≤ length es)%nat ∧ t = encode_all (take k es) ++ junk ∧
    decode_file t = take k es ∧ decode_file junk = [] ∧
    (length t < length (encode_all (take (S k) es)) ∨ k = length es)%nat.
Proof.
  intros Hes. revert t. induction Hes as [|e es He Hes IH]; intros t [s Hs].
  { symmetry in Hs. apply app_eq_nil in Hs as [-> ->]. exists 0%nat, []. split_and!; [done..|by right]. }
  rewrite encode_all_cons in Hs.
  destruct (decide (length t < length (encode e))%nat) as [Hlt|Hge].
  - exists 0%nat, t. assert (encode e = t ++ take (length (encode e) - length t) s) as Het.
    { apply (f_equal (take (length (encode e)))) in Hs.
      rewrite take_app_length, take_app_ge in Hs by lia. done. }
    destruct (DecodeCommandEntry_torn e t _ He Het) as [err Herr].
    { intros Hn. rewrite Hn, app_nil_r in Het. rewrite Het in Hlt. lia. }
    rewrite (decode_file_err _ _ Herr). split_and!; [lia|done..|].
    left. cbn [take]. rewrite encode_all_cons, length_app. lia.
  - assert (∃ t', t = encode e ++ t') as [t' ->].
    { exists (drop (length (encode e)) t). apply (f_equal (take (length (encode e)))) in Hs.
      rewrite take_app_length, take_app_le in Hs by lia.
      rewrite Hs at 1. by rewrite take_drop. }
    rewrite <- app_assoc in Hs. apply app_inv_head in Hs.
    destruct (IH t') as (k & junk & Hk & Ht & Hd & Hj & Hl); [by exists s|].
    exists (S k), junk. cbn [take length]. split_and!; [lia| | |done|].
    + by rewrite encode_all_cons, <- app_assoc, <- Ht.
    + rewrite decode_file_eq, DecodeCommandEntry_encode by done. by rewrite Hd.
    + rewrite !encode_all_cons, !length_app. destruct Hl; [left; lia|right; lia].
Qed.

(** A crash that cuts a log file anywhere loses only the entries that were not
    wholly written: the decoder returns exactly the entries before the cut and
    stops at the torn one, and an entry of the file that ends before the cut is
    among them. *)
Lemma torn_log_keeps_whole_entries es n :
  Forall wf_entry es →
  ∃ k, decode_file (take n (encode_all es)) = take k es ∧
    (∀ j, (j ≤ length es)%nat → (length (encode_all (take j es)) ≤ n)%nat → (j ≤ k)%nat).
Proof.
  intros Hes. destruct (decode_prefix es (take n (encode_all es)) Hes) as
    (k & junk & Hk & Ht & Hd & _ & Hl).
  { exists (drop n (encode_all es)). by rewrite take_drop. }
  exists k. split; [done|]. intros j Hj Hjn. destruct (decide (j ≤ k)%nat) as [|Hgt]; [done|].
  destruct Hl as [Hl|Hl]; [|lia]. exfalso. rewrite length_take in Hl.
  assert (length (encode_all (take (S k) es)) ≤ length (encode_all (take j es)))%nat.
  { replace (take (S k) es) with (take (S k) (take j es)) by (rewrite take_take; f_equal; lia).
    rewrite <- (take_drop (S k) (take j es)) at 2. rewrite encode_all_app, length_app. lia. }
  assert (length (encode_all (take j es)) ≤ length (encode_all es))%nat.
  { rewrite <- (take_drop j es) at 2. rewrite encode_all_app, length_app. lia. }
  lia.
Qed.

Definition demo_entry (seq : Z) (cmd : byte) (key value : bytes) : CommandEntry :=
  (CommandEntry_Encode (mkCommandEntry seq 1700000000000000000 cmd (len key) (len value)
    key value 0)).2.

Lemma torn_log_keeps_whole_entries_witness :
  let es := [demo_entry 1 CmdTypePut (str_bytes "a") (str_bytes "1");
             demo_entry 2 CmdTypeDelete (str_bytes "a") []] in
  Forall wf_entry es ∧
  ∃ k, decode_file (take 40 (encode_all es)) = take k es ∧
    (∀ j, (j ≤ length es)%nat → (length (encode_all (take j es)) ≤ 40)%nat → (j ≤ k)%nat).
Proof.
  intros es. assert (Forall wf_entry es) as H by (apply (bool_decide_unpack _); by vm_compute).
  split; [exact H|]. exact (torn_log_keeps_whole_entries es 40 H).
Defined.
