(* ===== verification/CommandLog.v ===== *)
(** * The command log

    [CommandLog] of [src/pkg/storage/command_log.go]: an append-only log of one
    partition, in files that rotate at 64 MB, written through a 4 MB
    [bufio.Writer], with an in-memory index from sequence numbers to positions.

    State.  The directory is the list of its log files in the order of
    [sort.Strings]: a name is the creation time in nanoseconds printed with
    ["%020d"], which has a fixed width, so the order is the order of the numbers
    and [parseFileNum] gives the number back (the file [LogNames] proves both); a
    file is known by that number.
    A file has the bytes the operating system was given and how many of them an
    [fsync] has made durable.  What [Append] wrote and has not been flushed is in
    [CL_buf].

    Faults and clocks come from [Env], one per call: the two times the call may
    read, how many more bytes the disk accepts, and whether [fsync] and [open]
    succeed. *)

From S2P Require Import Prelude Crc32 Engine FieldCodec FieldStorage CommandEntry.

Definition LogFileMaxSize : Z := 64 * 1024 * 1024.
Definition LogBufferSize : Z := 4 * 1024 * 1024.

(** ** Files *)

Record LogFile := mkLogFile {
  LF_num : Z;
  LF_data : bytes;
  LF_synced : nat
}.

(** [os.OpenFile(name, O_CREATE|O_WRONLY|O_APPEND)]: a new empty file, or the
    file that has this name already. *)
Fixpoint dir_open (num : Z) (dir : list LogFile) : list LogFile :=
  match dir with
  | [] => [mkLogFile num [] 0]
  | f :: r =>
      if num <? LF_num f then mkLogFile num [] 0 :: dir
      else if num =? LF_num f then dir else f :: dir_open num r
  end.

Definition dir_update (num : Z) (g : LogFile → LogFile) (dir : list LogFile) : list LogFile :=
  map (λ f, if LF_num f =? num then g f else f) dir.

Definition file_append (bs : bytes) (f : LogFile) : LogFile :=
  mkLogFile (LF_num f) (LF_data f ++ bs) (LF_synced f).
Definition file_fsync (f : LogFile) : LogFile :=
  mkLogFile (LF_num f) (LF_data f) (length (LF_data f)).

Record Env := mkEnv {
  ev_now : Z;              (** [time.Now()] of the entry *)
  ev_open_now : Z;         (** [time.Now()] of [openNewLogFile] *)
  ev_space : option nat;   (** bytes the disk still accepts; [None]: no limit *)
  ev_sync_ok : bool;
  ev_open_ok : bool
}.

(** ** State *)

Record logPosition := mkLogPosition { fileNum : Z; offset : Z }.

Record CommandLog := mkCommandLog {
  CL_partitionID : Z;
  CL_dir : list LogFile;
  CL_currentFile : Z;
  CL_fileClosed : bool;    (** the [os.File] of [currentFile] was closed *)
  CL_buf : bytes;          (** [currentWriter]: buffered bytes *)
  CL_werr : bool;          (** [currentWriter]: its sticky error is set *)
  CL_currentSize : Z;
  CL_currentSeq : Z;
  CL_lastSyncSeq : Z;
  CL_index : gmap Z logPosition;
  CL_syncCh : bool;        (** a signal is pending in [syncCh] *)
  CL_closed : bool
}.

Definition set_dir (cl : CommandLog) (d : list LogFile) : CommandLog :=
  mkCommandLog (CL_partitionID cl) d (CL_currentFile cl) (CL_fileClosed cl) (CL_buf cl)
    (CL_werr cl) (CL_currentSize cl) (CL_currentSeq cl) (CL_lastSyncSeq cl) (CL_index cl)
    (CL_syncCh cl) (CL_closed cl).
Definition set_writer (cl : CommandLog) (buf : bytes) (werr : bool) : CommandLog :=
  mkCommandLog (CL_partitionID cl) (CL_dir cl) (CL_currentFile cl) (CL_fileClosed cl) buf
    werr (CL_currentSize cl) (CL_currentSeq cl) (CL_lastSyncSeq cl) (CL_index cl)
    (CL_syncCh cl) (CL_closed cl).
Definition set_file (cl : CommandLog) (d : list LogFile) (file : Z) : CommandLog :=
  mkCommandLog (CL_partitionID cl) d file false [] false 0 (CL_currentSeq cl)
    (CL_lastSyncSeq cl) (CL_index cl) (CL_syncCh cl) (CL_closed cl).
Definition set_fileClosed (cl : CommandLog) : CommandLog :=
  mkCommandLog (CL_partitionID cl) (CL_dir cl) (CL_currentFile cl) true (CL_buf cl)
    (CL_werr cl) (CL_currentSize cl) (CL_currentSeq cl) (CL_lastSyncSeq cl) (CL_index cl)
    (CL_syncCh cl) (CL_closed cl).
Definition set_seq (cl : CommandLog) (seq : Z) : CommandLog :=
  mkCommandLog (CL_partitionID cl) (CL_dir cl) (CL_currentFile cl) (CL_fileClosed cl) (CL_buf cl)
    (CL_werr cl) (CL_currentSize cl) seq (CL_lastSyncSeq cl) (CL_index cl)
    (CL_syncCh cl) (CL_closed cl).
Definition set_appended (cl : CommandLog) (size : Z) (idx : gmap Z logPosition) (sig : bool) : CommandLog :=
  mkCommandLog (CL_partitionID cl) (CL_dir cl) (CL_currentFile cl) (CL_fileClosed cl) (CL_buf cl)
    (CL_werr cl) size (CL_currentSeq cl) (CL_lastSyncSeq cl) idx sig (CL_closed cl).
Definition set_lastSync (cl : CommandLog) (seq : Z) : CommandLog :=
  mkCommandLog (CL_partitionID cl) (CL_dir cl) (CL_currentFile cl) (CL_fileClosed cl) (CL_buf cl)
    (CL_werr cl) (CL_currentSize cl) (CL_currentSeq cl) seq (CL_index cl)
    (CL_syncCh cl) (CL_closed cl).
Definition set_closed (cl : CommandLog) : CommandLog :=
  mkCommandLog (CL_partitionID cl) (CL_dir cl) (CL_currentFile cl) (CL_fileClosed cl) (CL_buf cl)
    (CL_werr cl) (CL_currentSize cl) (CL_currentSeq cl) (CL_lastSyncSeq cl) (CL_index cl)
    (CL_syncCh cl) true.

(** ** The operating system and [bufio.Writer] *)

(** [currentFile.Write(w)]: the new state, the space left, the count written and
    whether all was. *)
Definition os_write (cl : CommandLog) (space : option nat) (w : bytes) :
    CommandLog * option nat * nat * bool :=
  if CL_fileClosed cl then (cl, space, 0%nat, false)
  else
    let put bs := set_dir cl (dir_update (CL_currentFile cl) (file_append bs) (CL_dir cl)) in
    match space with
    | None => (put w, None, length w, true)
    | Some n =>
        if Nat.leb (length w) n then (put w, Some (n - length w)%nat, length w, true)
        else (put (take n w), Some 0%nat, n, false)
    end.

(** [Writer.Flush] *)
Definition Writer_Flush (cl : CommandLog) (space : option nat) :
    CommandLog * option nat * bool :=
  if CL_werr cl then (cl, space, false)
  else
    match CL_buf cl with
    | [] => (cl, space, true)
    | buf =>
        let '(cl1, space1, n, ok) := os_write cl space buf in
        if ok then (set_writer cl1 [] false, space1, true)
        else (set_writer cl1 (drop n buf) true, space1, false)
    end.

(** The loop of [Writer.Write]: while the rest does not fit the buffer, fill and
    flush it, or write past it when it is empty.  A full buffer is flushed once
    and the rest is then written at once, so the loop runs at most twice. *)
Fixpoint writer_loop (fuel : nat) (cl : CommandLog) (space : option nat) (p : bytes) (nn : Z) :
    CommandLog * option nat * bytes * Z :=
  match fuel with
  | O => (cl, space, p, nn)
  | S fuel =>
      if (LogBufferSize - len (CL_buf cl) <? len p) && negb (CL_werr cl) then
        match CL_buf cl with
        | [] =>
            let '(cl1, space1, n, ok) := os_write cl space p in
            writer_loop fuel (set_writer cl1 [] (negb ok)) space1 (drop n p) (nn + Z.of_nat n)
        | buf =>
            let n := Z.to_nat (LogBufferSize - len buf) in
            let '(cl1, space1, _) := Writer_Flush (set_writer cl (buf ++ take n p) false) space in
            writer_loop fuel cl1 space1 (drop n p) (nn + Z.of_nat n)
        end
      else (cl, space, p, nn)
  end.

(** [Writer.Write(p)]: the count and whether it succeeded. *)
Definition Writer_Write (cl : CommandLog) (space : option nat) (p : bytes) :
    CommandLog * Z * bool :=
  let '(cl1, _, p1, nn) := writer_loop 2 cl space p 0 in
  if CL_werr cl1 then (cl1, nn, false)
  else (set_writer cl1 (CL_buf cl1 ++ p1) false, nn + len p1, true).

(** [currentFile.Sync()] *)
Definition file_Sync (cl : CommandLog) (env : Env) : CommandLog * bool :=
  if CL_fileClosed cl || negb (ev_sync_ok env) then (cl, false)
  else (set_dir cl (dir_update (CL_currentFile cl) file_fsync (CL_dir cl)), true).

(** ** Operations *)

Definition openNewLogFile (cl : CommandLog) (env : Env) : CommandLog * option goerr :=
  if ev_open_ok env then
    (set_file cl (dir_open (ev_open_now env) (CL_dir cl)) (ev_open_now env), None)
  else (cl, Some (Errorf "open failed")).

(** [rotateLogFile]; the space left after the flush is handed on. *)
Definition rotateLogFile (cl : CommandLog) (env : Env) : CommandLog * option nat * option goerr :=
  let '(cl, space, ok) := Writer_Flush cl (ev_space env) in
  if negb ok then (cl, space, Some (Errorf "write failed"))
  else
    let '(cl, ok) := file_Sync cl env in
    if negb ok then (cl, space, Some (Errorf "sync failed"))
    else
      let cl := set_fileClosed cl in
      let '(cl, err) := openNewLogFile cl env in (cl, space, err).

(** The entry [Append] makes, before [Encode]. *)
Definition new_entry (seq now : Z) (cmdType : byte) (key value : bytes) : CommandEntry :=
  mkCommandEntry seq now cmdType (u32 (len key)) (u32 (len value)) key value 0.

Definition CommandLog_Append (cl : CommandLog) (env : Env) (cmdType : byte) (key value : bytes) :
    CommandLog * outcome Z :=
  if CL_closed cl then (cl, Err (Errorf "command log is closed"))
  else
    let seq := u64 (CL_currentSeq cl + 1) in
    let cl := set_seq cl seq in
    let '(data, entry) := CommandEntry_Encode (new_entry seq (ev_now env) cmdType key value) in
    let '(cl, space, err) :=
      if LogFileMaxSize <? CL_currentSize cl + len data then rotateLogFile cl env
      else (cl, ev_space env, None) in
    match err with
    | Some _ => (cl, Err (Errorf "failed to rotate log"))
    | None =>
        let off := CL_currentSize cl in
        let '(cl, n, ok) := Writer_Write cl space data in
        if negb ok then (cl, Err (Errorf "failed to write entry"))
        else
          let size := CL_currentSize cl + n in
          let idx := <[seq := mkLogPosition (CL_currentFile cl) off]> (CL_index cl) in
          let sig := CL_syncCh cl || (LogBufferSize / 2 <? len (CL_buf cl)) in
          (set_appended cl size idx sig, Ret seq)
    end.

Definition CommandLog_AppendPut (cl : CommandLog) (env : Env) (key value : bytes) :=
  CommandLog_Append cl env CmdTypePut key value.
Definition CommandLog_AppendDelete (cl : CommandLog) (env : Env) (key : bytes) :=
  CommandLog_Append cl env CmdTypeDelete key [].
Definition CommandLog_AppendFieldBatch (cl : CommandLog) (env : Env) (batchData : bytes) :=
  CommandLog_Append cl env CmdTypeFieldBatch [] batchData.

Definition CommandLog_Sync (cl : CommandLog) (env : Env) : CommandLog * option goerr :=
  let '(cl, _, ok) := Writer_Flush cl (ev_space env) in
  if negb ok then (cl, Some (Errorf "write failed"))
  else
    let '(cl, ok) := file_Sync cl env in
    if negb ok then (cl, Some (Errorf "sync failed"))
    else (set_lastSync cl (CL_currentSeq cl), None).

(** [Close]: flush and sync, whatever they report. *)
Definition CommandLog_Close (cl : CommandLog) (env : Env) : CommandLog :=
  if CL_closed cl then cl
  else
    let '(cl, _, _) := Writer_Flush (set_closed cl) (ev_space env) in
    let '(cl, _) := file_Sync cl env in
    set_fileClosed cl.

Definition CommandLog_Truncate (cl : CommandLog) (beforeSeq : Z) : CommandLog * option goerr :=
  (cl, None).

(** ** Reading *)

(** The inner loop of both readers. *)
Fixpoint read_loop (fuel : nat) (fromSeq limit : Z) (entries : list CommandEntry) (r : bytes) :
    list CommandEntry :=
  match fuel with
  | O => entries
  | S n =>
      if len entries <? limit then
        match DecodeCommandEntry r with
        | Ret (entry, r') =>
            read_loop n fromSeq limit
              (if fromSeq <=? CE_Sequence entry then entries ++ [entry] else entries) r'
        | _ => entries
        end
      else entries
  end.

Definition read_file (fromSeq limit : Z) (entries : list CommandEntry) (r : bytes) :=
  read_loop (length r) fromSeq limit entries r.

(** [opens n]: [os.Open] of file [n] succeeds. *)
Fixpoint full_scan_loop (opens : Z → bool) (fromSeq limit : Z) (entries : list CommandEntry)
    (files : list LogFile) : list CommandEntry :=
  match files with
  | [] => entries
  | f :: rest =>
      if opens (LF_num f) then
        let entries := read_file fromSeq limit entries (LF_data f) in
        if limit <=? len entries then entries
        else full_scan_loop opens fromSeq limit entries rest
      else full_scan_loop opens fromSeq limit entries rest
  end.

(** [make([]*CommandEntry, 0, limit)] panics on a negative limit. *)
Definition readFromFullScan (opens : Z → bool) (cl : CommandLog) (fromSeq limit : Z) :
    outcome (list CommandEntry) :=
  if limit <? 0 then Panic
  else Ret (full_scan_loop opens fromSeq limit [] (CL_dir cl)).

(** The files from the one with number [n] on. *)
Fixpoint files_from (n : Z) (files : list LogFile) : list LogFile :=
  match files with
  | [] => []
  | f :: rest => if LF_num f =? n then files else files_from n rest
  end.

(** The outer loop of [readFromIndex]: the first file is read from [off]. *)
Fixpoint index_scan_loop (opens : Z → bool) (off fromSeq limit : Z)
    (entries : list CommandEntry) (files : list LogFile) : list CommandEntry :=
  match files with
  | [] => entries
  | f :: rest =>
      if len entries <? limit then
        if opens (LF_num f) then
          let data := if 0 <? off then drop (Z.to_nat off) (LF_data f) else LF_data f in
          index_scan_loop opens 0 fromSeq limit (read_file fromSeq limit entries data) rest
        else index_scan_loop opens 0 fromSeq limit entries rest
      else entries
  end.

Definition readFromIndex (opens : Z → bool) (cl : CommandLog) (startPos : logPosition)
    (fromSeq limit : Z) : outcome (list CommandEntry) :=
  if limit <? 0 then Panic
  else
    match files_from (fileNum startPos) (CL_dir cl) with
    | [] => Err (Errorf "indexed file not found")
    | files => Ret (index_scan_loop opens (offset startPos) fromSeq limit [] files)
    end.

(** The search for the first indexed sequence number from [seq] on; [n] numbers
    are left up to [currentSeq]. *)
Fixpoint find_start (idx : gmap Z logPosition) (seq : Z) (n : nat) : option logPosition :=
  match n with
  | O => None
  | S n => match idx !! seq with Some pos => Some pos | None => find_start idx (seq + 1) n end
  end.

Definition CommandLog_ReadFrom (opens : Z → bool) (cl : CommandLog) (fromSeq limit : Z) :
    outcome (list CommandEntry) :=
  match find_start (CL_index cl) fromSeq (Z.to_nat (CL_currentSeq cl - fromSeq + 1)) with
  | Some startPos =>
      match readFromIndex opens cl startPos fromSeq limit with
      | Panic => Panic
      | Ret (e :: es) => Ret (e :: es)
      | _ => readFromFullScan opens cl fromSeq limit
      end
  | None => readFromFullScan opens cl fromSeq limit
  end.

(** ** Recovery *)

(** [entrySize] *)
Definition entry_size (e : CommandEntry) : Z := 29 + len (CE_Key e) + len (CE_Value e).

Fixpoint recover_loop (fuel : nat) (num off : Z) (idx : gmap Z logPosition) (maxSeq : Z) (r : bytes) :
    gmap Z logPosition * Z :=
  match fuel with
  | O => (idx, maxSeq)
  | S n =>
      match DecodeCommandEntry r with
      | Ret (entry, r') =>
          recover_loop n num (off + entry_size entry)
            (<[CE_Sequence entry := mkLogPosition num off]> idx)
            (if maxSeq <? CE_Sequence entry then CE_Sequence entry else maxSeq) r'
      | _ => (idx, maxSeq)
      end
  end.

Fixpoint recover_files (opens : Z → bool) (idx : gmap Z logPosition) (maxSeq : Z)
    (files : list LogFile) : gmap Z logPosition * Z :=
  match files with
  | [] => (idx, maxSeq)
  | f :: rest =>
      if opens (LF_num f) then
        let '(idx, maxSeq) := recover_loop (length (LF_data f)) (LF_num f) 0 idx maxSeq (LF_data f) in
        recover_files opens idx maxSeq rest
      else recover_files opens idx maxSeq rest
  end.

(** [NewCommandLog] in a directory that exists, as it does after a crash:
    [recover] followed by [openNewLogFile]; the fields the recovery does not set
    have their zero values. *)
Definition NewCommandLog (opens : Z → bool) (partitionID : Z) (dir : list LogFile) (env : Env) :
    outcome CommandLog :=
  let '(idx, maxSeq) := recover_files opens ∅ 0 dir in
  let cl := mkCommandLog partitionID dir 0 false [] false 0 maxSeq maxSeq idx false false in
  match openNewLogFile cl env with
  | (_, Some _) => Err (Errorf "failed to open log file")
  | (cl, None) => Ret cl
  end.

(** The whole of [NewCommandLog]: [os.MkdirAll] comes first and its failure ends
    the call. *)
Definition MakeCommandLog (mkdir_ok : bool) (opens : Z → bool) (partitionID : Z) (dir : list LogFile) (env : Env) :
    outcome CommandLog :=
  if mkdir_ok then NewCommandLog opens partitionID dir env else Err (Errorf "failed to create log directory").

(** ** What the readers return *)

Definition seq_from (fromSeq : Z) (es : list CommandEntry) : list CommandEntry :=
  filter (λ e, fromSeq ≤ CE_Sequence e) es.

Lemma seq_from_app fromSeq es fs :
  seq_from fromSeq (es ++ fs) = seq_from fromSeq es ++ seq_from fromSeq fs.
Proof. apply filter_app. Qed.

(** The entries readers can see: those of the bytes that reached the files. *)
Definition flushed (files : list LogFile) : list CommandEntry :=
  concat (map (λ f, decode_file (LF_data f)) files).

(** Reading up to a limit in two steps. *)
Lemma take_limit_app {A} (limit : Z) (acc l k : list A) :
  let acc' := acc ++ take (Z.to_nat (limit - len acc)) l in
  acc' ++ take (Z.to_nat (limit - len acc')) k =
  acc ++ take (Z.to_nat (limit - len acc)) (l ++ k).
Proof.
  intros acc'. unfold acc'. rewrite <- app_assoc. f_equal. rewrite take_app. f_equal.
  rewrite len_app. unfold len. rewrite length_take. f_equal. lia.
Qed.

Lemma read_loop_eq fuel fromSeq limit acc r :
  (length r ≤ fuel)%nat →
  read_loop fuel fromSeq limit acc r =
  acc ++ take (Z.to_nat (limit - len acc)) (seq_from fromSeq (decode_file r)).
Proof.
  revert acc r. induction fuel as [|fuel IH]; intros acc r Hf.
  { destruct r; [|simpl in Hf; lia]. change (seq_from _ _) with (@nil CommandEntry).
    by rewrite take_nil, app_nil_r. }
  cbn [read_loop]. destruct (Z.ltb_spec (len acc) limit) as [Hlt|Hge]; last first.
  { rewrite Z2Nat.nonpos by lia. by rewrite take_0, app_nil_r. }
  rewrite decode_file_eq. destruct (DecodeCommandEntry r) as [[e r']| |] eqn:Hd.
  2-3: change (seq_from _ _) with (@nil CommandEntry); by rewrite take_nil, app_nil_r.
  apply DecodeCommandEntry_sound in Hd as [_ ->]. rewrite length_app, length_encode in Hf.
  rewrite IH by lia. unfold seq_from. rewrite filter_cons.
  destruct (Z.leb_spec fromSeq (CE_Sequence e)).
  - rewrite decide_True by done. pose proof (take_limit_app limit acc [e]
      (filter (λ e, fromSeq ≤ CE_Sequence e) (decode_file r'))) as Ht. cbn zeta in Ht.
    rewrite (take_ge [e]) in Ht by (simpl; lia). by rewrite Ht.
  - by rewrite decide_False by lia.
Qed.

Lemma read_file_eq fromSeq limit acc r :
  read_file fromSeq limit acc r =
  acc ++ take (Z.to_nat (limit - len acc)) (seq_from fromSeq (decode_file r)).
Proof. by apply read_loop_eq. Qed.

Lemma full_scan_loop_eq opens fromSeq limit acc files :
  (∀ f, f ∈ files → opens (LF_num f) = true) →
  full_scan_loop opens fromSeq limit acc files =
  acc ++ take (Z.to_nat (limit - len acc)) (seq_from fromSeq (flushed files)).
Proof.
  revert acc. induction files as [|f files IH]; intros acc Ho.
  { change (seq_from _ _) with (@nil CommandEntry). by rewrite take_nil, app_nil_r. }
  cbn [full_scan_loop]. rewrite Ho by by left. rewrite read_file_eq.
  change (flushed (f :: files)) with (decode_file (LF_data f) ++ flushed files).
  rewrite seq_from_app, <- take_limit_app. cbn zeta. set (acc' := acc ++ _).
  destruct (Z.leb_spec limit (len acc')).
  - rewrite (Z2Nat.nonpos (limit - len acc')) by lia. by rewrite take_0, app_nil_r.
  - apply IH. intros ??. apply Ho. by right.
Qed.

Lemma index_scan_loop_eq opens off fromSeq limit acc f files :
  0 ≤ off → (∀ f', f' ∈ f :: files → opens (LF_num f') = true) →
  index_scan_loop opens off fromSeq limit acc (f :: files) =
  acc ++ take (Z.to_nat (limit - len acc))
    (seq_from fromSeq (decode_file (drop (Z.to_nat off) (LF_data f)) ++ flushed files)).
Proof.
  revert off acc f. induction files as [|g files IH]; intros off acc f Hoff Ho;
    cbn [index_scan_loop]; rewrite (Ho f) by by left.
  all: assert ((if 0 <? off then drop (Z.to_nat off) (LF_data f) else LF_data f)
    = drop (Z.to_nat off) (LF_data f)) as ->
    by (destruct (Z.ltb_spec 0 off); [done|by replace off with 0 by lia]).
  all: destruct (Z.ltb_spec (len acc) limit) as [Hlt|Hge];
    [|rewrite (Z2Nat.nonpos (limit - len acc)) by lia; by rewrite take_0, app_nil_r].
  - rewrite read_file_eq. unfold flushed. simpl. by rewrite app_nil_r.
  - fold (index_scan_loop opens). rewrite read_file_eq.
    rewrite seq_from_app, <- take_limit_app.
    pose proof (IH 0 (acc ++ take (Z.to_nat (limit - len acc))
      (seq_from fromSeq (decode_file (drop (Z.to_nat off) (LF_data f))))) g) as IH'.
    cbn [index_scan_loop] in IH'. rewrite IH'; [done|done|].
    intros ??. apply Ho. by right.
Qed.

(** ** Positions *)

Fixpoint positions (num off : Z) (es : list CommandEntry) : list (Z * logPosition) :=
  match es with
  | [] => []
  | e :: r => (CE_Sequence e, mkLogPosition num off) :: positions num (off + entry_size e) r
  end.

Lemma entry_size_encode e : entry_size e = len (encode e).
Proof. unfold entry_size, len. rewrite length_encode. lia. Qed.

Lemma positions_app num off es fs :
  positions num off (es ++ fs) =
  positions num off es ++ positions num (off + len (encode_all es)) fs.
Proof.
  revert off. induction es as [|e es IH]; intros off; cbn [app positions].
  { change (len (encode_all [])) with 0. by rewrite Z.add_0_r. }
  rewrite IH, encode_all_cons, len_app, entry_size_encode. by rewrite Z.add_assoc.
Qed.

Lemma elem_of_positions num off es s pos :
  (s, pos) ∈ positions num off es →
  ∃ pre e post, es = pre ++ e :: post ∧ s = CE_Sequence e ∧
    pos = mkLogPosition num (off + len (encode_all pre)).
Proof.
  revert off. induction es as [|e es IH]; intros off; cbn [positions]; [set_solver|].
  intros [?|Hin]%elem_of_cons.
  - simplify_eq. exists [], e, es. change (len (encode_all [])) with 0. by rewrite Z.add_0_r.
  - apply IH in Hin as (pre & e' & post & -> & -> & ->). exists (e :: pre), e', post.
    rewrite encode_all_cons, len_app, entry_size_encode. by rewrite Z.add_assoc.
Qed.

Lemma positions_seqs num off es : (positions num off es).*1 = map CE_Sequence es.
Proof. revert off. induction es; intros off; [done|]. cbn. f_equal; auto. Qed.

Definition hist_positions (hist : list (LogFile * list CommandEntry)) : list (Z * logPosition) :=
  concat (map (λ h, positions (LF_num h.1) 0 h.2) hist).
Definition hist_entries (hist : list (LogFile * list CommandEntry)) : list CommandEntry :=
  concat (map snd hist).

Lemma hist_positions_seqs hist : (hist_positions hist).*1 = map CE_Sequence (hist_entries hist).
Proof.
  unfold hist_positions, hist_entries. induction hist as [|h hist IH]; [done|].
  cbn [map concat]. rewrite fmap_app, map_app, positions_seqs. by rewrite IH.
Qed.

Lemma hist_entries_app h1 h2 : hist_entries (h1 ++ h2) = hist_entries h1 ++ hist_entries h2.
Proof. unfold hist_entries. by rewrite map_app, concat_app. Qed.
Lemma hist_positions_app h1 h2 :
  hist_positions (h1 ++ h2) = hist_positions h1 ++ hist_positions h2.
Proof. unfold hist_positions. by rewrite map_app, concat_app. Qed.

(** ** The invariant *)

(** [part] is what is in the file and the buffer after the last whole entry:
    nothing, or the beginning of an entry whose write failed. *)
Definition torn (werr : bool) (part : bytes) : Prop :=
  if werr then ∃ e s, wf_entry e ∧ encode e = part ++ s ∧ s ≠ [] else part = [].

(** [older] pairs each closed file with its entries; [es] are the entries of the
    current file [cur], buffered ones included. *)
Record log_inv (cl : CommandLog) (older : list (LogFile * list CommandEntry))
    (cur : LogFile) (es : list CommandEntry) : Prop := {
  inv_dir : CL_dir cl = map fst older ++ [cur];
  inv_cur : LF_num cur = CL_currentFile cl;
  inv_sorted : StronglySorted Z.lt (map (λ h, LF_num h.1) older ++ [LF_num cur]);
  inv_older : Forall (λ h, decode_file (LF_data h.1) = h.2) older;
  inv_content : ∃ part, LF_data cur ++ CL_buf cl = encode_all es ++ part ∧
    torn (CL_werr cl) part;
  inv_buf : len (CL_buf cl) ≤ LogBufferSize;
  inv_wf : Forall wf_entry es;
  inv_seqs : StronglySorted Z.lt (map CE_Sequence (hist_entries older ++ es));
  inv_seq0 : 0 ≤ CL_currentSeq cl;
  inv_last : CL_lastSyncSeq cl ≤ CL_currentSeq cl;
  inv_max : Forall (λ e, 0 < CE_Sequence e ≤ CL_currentSeq cl) (hist_entries older ++ es);
  inv_index : CL_index cl = list_to_map (hist_positions (older ++ [(cur, es)]));
  inv_size : CL_currentSize cl = len (encode_all es);
  inv_synced_older : Forall (λ h : LogFile * list CommandEntry,
    LF_synced h.1 = length (LF_data h.1)) older;
  inv_synced : (LF_synced cur ≤ length (LF_data cur))%nat;
  inv_durable : ∃ j, (length (encode_all (take j es)) ≤ LF_synced cur)%nat ∧
    Forall (λ e, CL_lastSyncSeq cl < CE_Sequence e) (drop j es)
}.

Definition log_ok (cl : CommandLog) : Prop := ∃ older cur es, log_inv cl older cur es.

(** The abstract log: every entry whose [Append] succeeded, in order.  The
    buffer continues the current file. *)
Definition log_of (cl : CommandLog) : list CommandEntry :=
  concat (map (λ f, decode_file
    (if LF_num f =? CL_currentFile cl then LF_data f ++ CL_buf cl else LF_data f)) (CL_dir cl)).

(** *** Consequences of the invariant *)

Lemma sorted_snoc_lt (l : list Z) x :
  StronglySorted Z.lt (l ++ [x]) → Forall (λ y, y < x) l.
Proof.
  induction l as [|y l IH]; intros Hs; [done|]. inversion Hs as [|? ? Hs' Hall]; subst.
  constructor; [|by apply IH]. apply Forall_app in Hall as [_ Hx]. by inversion Hx.
Qed.

Lemma torn_decode werr part : torn werr part → decode_file part = [].
Proof.
  destruct werr; simpl; [|by intros ->].
  intros (e & s & He & Hs & Hne). destruct (DecodeCommandEntry_torn e part s He Hs Hne) as [err Herr].
  by eapply decode_file_err.
Qed.

Lemma sorted_nums_ne {A} (g : A → Z) (l : list A) n :
  StronglySorted Z.lt (map g l ++ [n]) → ∀ x, x ∈ l → g x ≠ n.
Proof.
  intros Hs%sorted_snoc_lt x Hx. rewrite Forall_forall in Hs.
  assert (g x < n); [|lia]. apply Hs. by apply list_elem_of_fmap_2.
Qed.

Lemma log_of_inv cl older cur es :
  log_inv cl older cur es → log_of cl = hist_entries older ++ es.
Proof.
  intros I. unfold log_of. rewrite (inv_dir _ _ _ _ I), map_app, concat_app. f_equal.
  - unfold hist_entries. f_equal. rewrite map_map. apply map_ext_in. intros h Hh.
    apply list_elem_of_In in Hh.
    rewrite (proj2 (Z.eqb_neq _ _)).
    + pose proof (inv_older _ _ _ _ I) as Ho. rewrite Forall_forall in Ho. by apply Ho.
    + rewrite <- (inv_cur _ _ _ _ I). revert h Hh.
      exact (sorted_nums_ne (λ h, LF_num h.1) older _ (inv_sorted _ _ _ _ I)).
  - cbn [map concat]. rewrite (inv_cur _ _ _ _ I), Z.eqb_refl, app_nil_r.
    destruct (inv_content _ _ _ _ I) as (part & -> & Ht).
    rewrite decode_file_app by apply (inv_wf _ _ _ _ I).
    by rewrite (torn_decode _ _ Ht), app_nil_r.
Qed.

(** The bytes that reached the current file are whole entries and a rest. *)
Lemma cur_flushed cl older cur es :
  log_inv cl older cur es → decode_file (LF_data cur) `prefix_of` es.
Proof.
  intros I. destruct (inv_content _ _ _ _ I) as (part & Hc & Ht).
  assert (∃ fs, Forall wf_entry (es ++ fs) ∧ LF_data cur `prefix_of` encode_all (es ++ fs) ∧
    (length fs ≤ 1)%nat ∧ (fs ≠ [] → length (LF_data cur) < length (encode_all (es ++ fs)))%nat)
    as (fs & Hwf & Hp & Hfs & Hlt).
  { pose proof (inv_wf _ _ _ _ I) as Hes. unfold torn in Ht. destruct (CL_werr cl).
    - destruct Ht as (e & s & He & Hs & Hne). exists [e].
      assert (encode_all (es ++ [e]) = LF_data cur ++ CL_buf cl ++ s) as Heq.
      { rewrite encode_all_app, encode_all_cons, Hs, (app_assoc (LF_data cur)), Hc.
        change (encode_all []) with (@nil byte). by rewrite app_nil_r, <- !app_assoc. }
      split_and!; [apply Forall_app; auto|by eexists|done|].
      intros _. rewrite Heq, !length_app. destruct s; [done|simpl; lia].
    - subst part. exists []. rewrite !app_nil_r in *. split_and!; [done|by eexists|simpl; lia|done]. }
  destruct (decode_prefix _ _ Hwf Hp) as (k & junk & Hk & Hd' & -> & _ & _).
  destruct (decide (k ≤ length es)%nat) as [Hle|Hgt].
  - rewrite take_app_le by done. exists (drop k es). by rewrite take_drop.
  - assert (fs ≠ []) as Hne by (intros ->; rewrite app_nil_r in Hk; lia).
    specialize (Hlt Hne). rewrite length_app in Hk.
    rewrite (take_ge (es ++ fs)) in Hd' by (rewrite length_app; lia).
    apply (f_equal length) in Hd'. rewrite length_app in Hd'. lia.
Qed.

Lemma flushed_app fs gs : flushed (fs ++ gs) = flushed fs ++ flushed gs.
Proof. unfold flushed. by rewrite map_app, concat_app. Qed.

Lemma flushed_older older :
  Forall (λ h, decode_file (LF_data h.1) = h.2) older →
  flushed (map fst older) = hist_entries older.
Proof.
  intros Ho. unfold flushed, hist_entries. f_equal. rewrite map_map.
  apply map_ext_in. intros h Hh%list_elem_of_In. rewrite Forall_forall in Ho. by apply Ho.
Qed.

Lemma flushed_inv cl older cur es :
  log_inv cl older cur es → flushed (CL_dir cl) = hist_entries older ++ decode_file (LF_data cur).
Proof.
  intros I. rewrite (inv_dir _ _ _ _ I), flushed_app, flushed_older by apply (inv_older _ _ _ _ I).
  unfold flushed. cbn [map concat]. by rewrite app_nil_r.
Qed.

Lemma flushed_prefix cl : log_ok cl → flushed (CL_dir cl) `prefix_of` log_of cl.
Proof.
  intros (older & cur & es & I). rewrite (flushed_inv _ _ _ _ I), (log_of_inv _ _ _ _ I).
  apply prefix_app, (cur_flushed _ _ _ _ I).
Qed.

Lemma sorted_lt_NoDup (l : list Z) : StronglySorted Z.lt l → NoDup l.
Proof.
  induction 1 as [|x l Hs IH Hall]; constructor; [|done].
  intros Hx. rewrite Forall_forall in Hall. specialize (Hall _ Hx). lia.
Qed.

Lemma inv_positions_NoDup cl older cur es :
  log_inv cl older cur es → NoDup (hist_positions (older ++ [(cur, es)])).*1.
Proof.
  intros I. rewrite hist_positions_seqs, hist_entries_app.
  apply sorted_lt_NoDup. unfold hist_entries at 2. cbn [map concat snd]. rewrite app_nil_r.
  apply (inv_seqs _ _ _ _ I).
Qed.

Lemma index_lookup cl older cur es s pos :
  log_inv cl older cur es →
  CL_index cl !! s = Some pos ↔ (s, pos) ∈ hist_positions (older ++ [(cur, es)]).
Proof.
  intros I. rewrite (inv_index _ _ _ _ I). symmetry.
  apply elem_of_list_to_map, (inv_positions_NoDup _ _ _ _ I).
Qed.

(** Every entry of the log is indexed. *)
Lemma index_complete cl older cur es e :
  log_inv cl older cur es → e ∈ hist_entries older ++ es →
  is_Some (CL_index cl !! CE_Sequence e).
Proof.
  intros I He. rewrite (inv_index _ _ _ _ I).
  destruct (list_to_map (M := gmap Z logPosition)
    (hist_positions (older ++ [(cur, es)])) !! CE_Sequence e) eqn:E; [done|].
  apply not_elem_of_list_to_map_2 in E. exfalso. apply E.
  rewrite hist_positions_seqs, hist_entries_app. unfold hist_entries at 2.
  cbn [map concat snd]. rewrite app_nil_r. by apply list_elem_of_fmap_2.
Qed.

(** *** Reading through the index *)

Lemma sorted_before (a : list CommandEntry) e b :
  StronglySorted Z.lt (map CE_Sequence (a ++ e :: b)) →
  ∀ e', e' ∈ a → CE_Sequence e' < CE_Sequence e.
Proof.
  induction a as [|x a IH]; intros Hs e' He; [set_solver|].
  cbn [app map] in Hs. inversion Hs as [|? ? Hs' Hall]; subst.
  apply elem_of_cons in He as [->|He]; [|by apply IH].
  rewrite Forall_forall in Hall. apply Hall. rewrite map_app. cbn. set_solver.
Qed.

Lemma hist_positions_split hist s pos :
  (s, pos) ∈ hist_positions hist →
  ∃ h1 f pre e post h2, hist = h1 ++ (f, pre ++ e :: post) :: h2 ∧ s = CE_Sequence e ∧
    pos = mkLogPosition (LF_num f) (len (encode_all pre)).
Proof.
  induction hist as [|[f es] hist IH]; unfold hist_positions; cbn [map concat]; [set_solver|].
  intros [Hin|Hin]%elem_of_app.
  - apply elem_of_positions in Hin as (pre & e & post & Hes & -> & ->). cbn [fst snd] in *. subst es.
    by exists [], f, pre, e, post, hist.
  - apply IH in Hin as (h1 & g & pre & e & post & h2 & -> & -> & ->).
    by exists ((f, es) :: h1), g, pre, e, post, h2.
Qed.

(** Where an indexed position leads: the file, the entries before it, and the
    fact that every entry before it has a smaller sequence number. *)
Definition leads_to (cl : CommandLog) (s : Z) (pos : logPosition) (l1 : list LogFile)
    (f : LogFile) (l2 : list LogFile) (pre : list CommandEntry) : Prop :=
  CL_dir cl = l1 ++ f :: l2 ∧ pos = mkLogPosition (LF_num f) (len (encode_all pre)) ∧
  Forall wf_entry pre ∧
  (∀ e, e ∈ flushed l1 ++ pre → e ∈ log_of cl ∧ CE_Sequence e < s) ∧
  ((∃ rest, LF_data f = encode_all pre ++ rest) ∨
   (l2 = [] ∧ len (LF_data f) < len (encode_all pre))).

Lemma index_position cl older cur es s pos :
  log_inv cl older cur es → CL_index cl !! s = Some pos →
  ∃ l1 f l2 pre, leads_to cl s pos l1 f l2 pre.
Proof.
  intros I Hs. apply (index_lookup _ _ _ _ _ _ I) in Hs.
  apply hist_positions_split in Hs as (h1 & f & pre & e & post & h2 & Hh & -> & ->).
  pose proof (inv_older _ _ _ _ I) as Ho. pose proof (inv_seqs _ _ _ _ I) as Hseq.
  unfold leads_to. rewrite (log_of_inv _ _ _ _ I), (inv_dir _ _ _ _ I).
  destruct h2 as [|z h2 _] using rev_ind.
  - apply app_inj_tail in Hh as [-> Hf]. injection Hf as -> ->.
    exists (map fst h1), f, [], pre.
    pose proof (inv_wf _ _ _ _ I) as Hwf. apply Forall_app in Hwf as [Hwf _].
    split_and!; [done..| |].
    + rewrite flushed_older by done. intros e' He'. split; [set_solver|].
      rewrite app_assoc in Hseq. by eapply sorted_before.
    + destruct (inv_content _ _ _ _ I) as (part & Hc & _).
      rewrite encode_all_app, <- app_assoc in Hc.
      destruct (decide (length (encode_all pre) ≤ length (LF_data f))%nat) as [Hle|Hgt].
      * left. exists (drop (length (encode_all pre)) (LF_data f)).
        apply (f_equal (take (length (encode_all pre)))) in Hc.
        rewrite take_app_length, take_app_le in Hc by done.
        rewrite <- (take_drop (length (encode_all pre)) (LF_data f)) at 1. by rewrite Hc.
      * right. split; [done|]. unfold len. lia.
  - rewrite app_comm_cons, app_assoc in Hh. apply app_inj_tail in Hh as [-> _].
    exists (map fst h1), f, (map fst h2 ++ [cur]), pre.
    apply Forall_app in Ho as [Ho1 Ho2]. inversion Ho2 as [|? ? Hf Ho3]; subst. cbn [fst snd] in Hf.
    destruct (decode_file_shape (LF_data f)) as (junk & Hd & _ & Hwf). rewrite Hf in Hd, Hwf.
    split_and!.
    + rewrite map_app. cbn [map fst]. by rewrite <- app_assoc.
    + done.
    + by apply Forall_app in Hwf as [? _].
    + rewrite flushed_older by done. intros e' He'. rewrite hist_entries_app.
      unfold hist_entries at 2. cbn [map concat snd]. split; [set_solver|].
      rewrite hist_entries_app in Hseq. unfold hist_entries at 2 in Hseq. cbn [map concat snd] in Hseq.
      rewrite <- !app_assoc in Hseq. rewrite app_assoc in Hseq. cbn [app] in Hseq.
      by eapply sorted_before.
    + left. rewrite encode_all_app, <- app_assoc in Hd. by eexists.
Qed.

Lemma files_from_eq l1 f l2 :
  StronglySorted Z.lt (map LF_num (l1 ++ f :: l2)) → files_from (LF_num f) (l1 ++ f :: l2) = f :: l2.
Proof.
  induction l1 as [|g l1 IH]; intros Hs; cbn [app files_from].
  { by rewrite Z.eqb_refl. }
  cbn [app map] in Hs. inversion Hs as [|? ? Hs' Hall]; subst.
  rewrite (proj2 (Z.eqb_neq _ _)); [by apply IH|].
  rewrite Forall_forall in Hall. specialize (Hall (LF_num f)).
  rewrite map_app in Hall. cbn in Hall. assert (LF_num g < LF_num f) by set_solver. lia.
Qed.

Lemma find_start_Some idx seq n pos :
  find_start idx seq n = Some pos →
  ∃ s, seq ≤ s ∧ idx !! s = Some pos ∧ ∀ s', seq ≤ s' < s → idx !! s' = None.
Proof.
  revert seq. induction n as [|n IH]; intros seq Hf; [done|]. cbn [find_start] in Hf.
  destruct (idx !! seq) eqn:E.
  - simplify_eq. exists seq. split_and!; [lia|done|lia].
  - apply IH in Hf as (s & Hle & Hs & Hall). exists s. split_and!; [lia|done|].
    intros s' Hs'. destruct (decide (s' = seq)) as [->|]; [done|]. apply Hall. lia.
Qed.

Lemma seq_from_below fromSeq es :
  (∀ e, e ∈ es → CE_Sequence e < fromSeq) → seq_from fromSeq es = [].
Proof.
  unfold seq_from. induction es as [|e es IH]; intros Hall; [done|].
  rewrite filter_cons, decide_False, IH; [done|set_solver|].
  assert (CE_Sequence e < fromSeq); [|lia]. apply Hall. by left.
Qed.

(** Reading through the index finds the entries of the full scan, or nothing. *)
Lemma readFromIndex_eq opens cl older cur es fromSeq limit s pos :
  log_inv cl older cur es → 0 ≤ limit →
  (∀ f, f ∈ CL_dir cl → opens (LF_num f) = true) →
  fromSeq ≤ s → CL_index cl !! s = Some pos → (∀ s', fromSeq ≤ s' < s → CL_index cl !! s' = None) →
  ∃ r, readFromIndex opens cl pos fromSeq limit = Ret r ∧
    (r = [] ∨ r = take (Z.to_nat limit) (seq_from fromSeq (flushed (CL_dir cl)))).
Proof.
  intros I Hlim Ho Hle Hs Hnone.
  destruct (index_position _ _ _ _ _ _ I Hs) as (l1 & f & l2 & pre & Hd & -> & Hwf & Hbef & Hdat).
  unfold readFromIndex. rewrite (proj2 (Z.ltb_ge _ _)) by done. cbn [fileNum offset].
  assert (StronglySorted Z.lt (map LF_num (CL_dir cl))) as Hsort.
  { rewrite (inv_dir _ _ _ _ I), map_app, map_map. apply (inv_sorted _ _ _ _ I). }
  rewrite Hd in *. rewrite files_from_eq by done. eexists. split; [done|].
  rewrite index_scan_loop_eq by (apply len_nonneg || set_solver).
  change (len []) with 0. rewrite Z.sub_0_r. cbn [app].
  destruct Hdat as [[rest Hr]|[-> Hlt]].
  - right. rewrite to_nat_len, Hr, drop_app_length. f_equal.
    rewrite flushed_app. change (flushed (f :: l2)) with (decode_file (LF_data f) ++ flushed l2).
    rewrite Hr, decode_file_app, <- app_assoc by done. rewrite (app_assoc (flushed l1)).
    rewrite (seq_from_app _ (flushed l1 ++ pre)), (seq_from_below _ (flushed l1 ++ pre)); [done|].
    intros e He. apply Hbef in He as [Hin Hlt]. apply Z.nle_gt. intros Hfe.
    rewrite (log_of_inv _ _ _ _ I) in Hin. destruct (index_complete _ _ _ _ _ I Hin) as [? Hi].
    rewrite Hnone in Hi by lia. done.
  - left. rewrite to_nat_len, drop_ge by (unfold len in Hlt; lia). change (flushed []) with (@nil CommandEntry).
    change (seq_from fromSeq _) with (@nil CommandEntry). apply take_nil.
Qed.

(** Both ways of reading return the flushed entries from [fromSeq] on. *)
Lemma ReadFrom_eq opens cl fromSeq limit :
  log_ok cl → 0 ≤ limit → (∀ f, f ∈ CL_dir cl → opens (LF_num f) = true) →
  CommandLog_ReadFrom opens cl fromSeq limit =
  Ret (take (Z.to_nat limit) (seq_from fromSeq (flushed (CL_dir cl)))).
Proof.
  intros (older & cur & es & I) Hlim Ho.
  assert (readFromFullScan opens cl fromSeq limit =
    Ret (take (Z.to_nat limit) (seq_from fromSeq (flushed (CL_dir cl))))) as Hfull.
  { unfold readFromFullScan. rewrite (proj2 (Z.ltb_ge _ _)) by done.
    rewrite full_scan_loop_eq by done. change (len []) with 0. by rewrite Z.sub_0_r. }
  unfold CommandLog_ReadFrom. destruct (find_start _ _ _) as [pos|] eqn:Hf; [|done].
  apply find_start_Some in Hf as (s & Hle & Hs & Hnone).
  destruct (readFromIndex_eq _ _ _ _ _ _ _ _ _ I Hlim Ho Hle Hs Hnone) as (r & -> & [->| ->]);
    [done|]. by destruct (take _ _).
Qed.

(** C32: reading through the index is equivalent to scanning every file: from any
    log state the operations can reach, [ReadFrom] returns the first [limit]
    flushed entries whose sequence number is at least [fromSeq], in order, with
    none skipped and none repeated, whether the index path or the fallback
    answers. *)
Theorem ReadFrom_spec opens cl fromSeq limit :
  log_ok cl → 0 ≤ limit → (∀ f, f ∈ CL_dir cl → opens (LF_num f) = true) →
  CommandLog_ReadFrom opens cl fromSeq limit =
  Ret (take (Z.to_nat limit) (seq_from fromSeq (flushed (CL_dir cl)))).
Proof. apply ReadFrom_eq. Qed.

(** *** The writer *)

(** The current file is the last one and the only one with its number. *)
Definition at_end (cl : CommandLog) (before : list LogFile) (cur : LogFile) : Prop :=
  CL_dir cl = before ++ [cur] ∧ LF_num cur = CL_currentFile cl ∧
  Forall (λ f, LF_num f ≠ LF_num cur) before.

(** The fields the writer does not touch. *)
Definition same_meta (cl cl' : CommandLog) : Prop :=
  CL_partitionID cl' = CL_partitionID cl ∧ CL_currentFile cl' = CL_currentFile cl ∧
  CL_fileClosed cl' = CL_fileClosed cl ∧ CL_currentSize cl' = CL_currentSize cl ∧
  CL_currentSeq cl' = CL_currentSeq cl ∧ CL_lastSyncSeq cl' = CL_lastSyncSeq cl ∧
  CL_index cl' = CL_index cl ∧ CL_syncCh cl' = CL_syncCh cl ∧ CL_closed cl' = CL_closed cl.

Lemma same_meta_refl cl : same_meta cl cl.
Proof. done. Qed.

Lemma same_meta_trans cl1 cl2 cl3 : same_meta cl1 cl2 → same_meta cl2 cl3 → same_meta cl1 cl3.
Proof. unfold same_meta. intros. destruct_and!. split_and!; congruence. Qed.

Lemma dir_update_end before cur num g :
  LF_num cur = num → Forall (λ f, LF_num f ≠ LF_num cur) before →
  dir_update num g (before ++ [cur]) = before ++ [g cur].
Proof.
  intros <- Hb. unfold dir_update. rewrite map_app. cbn [map]. rewrite Z.eqb_refl. f_equal.
  induction Hb as [|f before Hf Hb IH]; [done|]. cbn [map].
  rewrite (proj2 (Z.eqb_neq _ _)) by done. by rewrite IH.
Qed.

Lemma file_append_nil f : file_append [] f = f.
Proof. unfold file_append. rewrite app_nil_r. by destruct f. Qed.

Lemma at_end_set_dir cl before cur g :
  at_end cl before cur → LF_num (g cur) = LF_num cur →
  let cl' := set_dir cl (dir_update (CL_currentFile cl) g (CL_dir cl)) in
  at_end cl' before (g cur) ∧ same_meta cl cl' ∧ CL_buf cl' = CL_buf cl ∧ CL_werr cl' = CL_werr cl.
Proof.
  intros (Hd & Hc & Hb) Hg cl'. split; [|done]. unfold at_end, cl'. cbn.
  rewrite Hd, dir_update_end by done. rewrite Hg. done.
Qed.

Lemma os_write_spec cl before cur space w cl' space' n ok :
  at_end cl before cur → w ≠ [] → os_write cl space w = (cl', space', n, ok) →
  at_end cl' before (file_append (take n w) cur) ∧ same_meta cl cl' ∧
  CL_buf cl' = CL_buf cl ∧ CL_werr cl' = CL_werr cl ∧
  if ok then n = length w else (n < length w)%nat.
Proof.
  intros Ha Hw. unfold os_write. destruct (CL_fileClosed cl).
  { intros. simplify_eq. rewrite take_0, file_append_nil.
    destruct w; [done|]. split_and!; [done..|simpl; lia]. }
  pose proof (λ bs, at_end_set_dir cl before cur (file_append bs) Ha eq_refl) as Hp. cbn zeta in Hp.
  destruct space as [m|]; [destruct (Nat.leb_spec (length w) m)|]; intros; simplify_eq.
  1,3: rewrite take_ge by lia; destruct (Hp w) as (? & ? & ? & ?); by split_and!.
  destruct (Hp (take n w)) as (? & ? & ? & ?). by split_and!.
Qed.

(** The bytes of the file followed by those of the buffer. *)
Definition pending (cl : CommandLog) (cur : LogFile) : bytes := LF_data cur ++ CL_buf cl.

(** What a flush or a write does: [q] is what was added after the pending bytes. *)
Definition writes (cl : CommandLog) (cur : LogFile) (q : bytes) (cl' : CommandLog)
    (before : list LogFile) (cur' : LogFile) : Prop :=
  at_end cl' before cur' ∧ same_meta cl cl' ∧ LF_synced cur' = LF_synced cur ∧
  LF_data cur `prefix_of` LF_data cur' ∧ pending cl' cur' = pending cl cur ++ q.

Lemma writes_trans cl1 cur1 q1 cl2 before cur2 q2 cl3 cur3 :
  writes cl1 cur1 q1 cl2 before cur2 → writes cl2 cur2 q2 cl3 before cur3 →
  writes cl1 cur1 (q1 ++ q2) cl3 before cur3.
Proof.
  intros (? & Hm1 & ? & ? & Hp1) (? & Hm2 & ? & ? & Hp2). unfold writes.
  split_and!; [done|by eapply same_meta_trans|congruence|by etrans|].
  by rewrite Hp2, Hp1, app_assoc.
Qed.

(** Writing past an empty buffer. *)
Lemma os_write_writes cl before cur space w cl' space' n ok werr :
  at_end cl before cur → w ≠ [] → CL_buf cl = [] → os_write cl space w = (cl', space', n, ok) →
  writes cl cur (take n w) (set_writer cl' [] werr) before (file_append (take n w) cur).
Proof.
  intros Ha Hw Hb Ho.
  destruct (os_write_spec _ _ _ _ _ _ _ _ _ Ha Hw Ho) as (? & ? & _).
  unfold writes, pending. cbn. split_and!; [done..|by eexists|].
  by rewrite Hb, !app_nil_r.
Qed.

Lemma Writer_Flush_spec cl before cur space cl' space' ok :
  at_end cl before cur → Writer_Flush cl space = (cl', space', ok) →
  ∃ cur', writes cl cur [] cl' before cur' ∧ len (CL_buf cl') ≤ len (CL_buf cl) ∧
    if ok then CL_werr cl = false ∧ CL_werr cl' = false ∧ CL_buf cl' = [] else CL_werr cl' = true.
Proof.
  intros Ha. unfold Writer_Flush.
  assert (writes cl cur [] cl before cur) as Hrefl.
  { unfold writes. rewrite app_nil_r. done. }
  destruct (CL_werr cl) eqn:Hw; [intros; simplify_eq; by exists cur|].
  destruct (CL_buf cl) as [|b buf] eqn:Hb.
  { intros. simplify_eq. exists cur. rewrite Hb. done. }
  rewrite <- Hb. destruct (os_write cl space (CL_buf cl)) as [[[cl1 sp1] n] o] eqn:Ho.
  assert (CL_buf cl ≠ []) as Hne by (by rewrite Hb).
  destruct (os_write_spec _ _ _ _ _ _ _ _ _ Ha Hne Ho) as (Ha1 & Hm1 & Hb1 & Hw1 & Hn).
  intros Heq. exists (file_append (take n (CL_buf cl)) cur).
  destruct o; simplify_eq.
  - rewrite take_ge in * by lia.
    split_and!; try done; [|cbn; pose proof (len_nonneg (CL_buf cl)); apply len_nonneg].
    unfold writes, pending. cbn.
    split_and!; [done..|by eexists|by rewrite !app_nil_r].
  - split_and!; try done.
    + unfold writes, pending. cbn. split_and!; [done..|by eexists|].
      by rewrite <- app_assoc, take_drop, app_nil_r.
    + cbn. unfold len. rewrite length_drop. lia.
Qed.

(** One pass of [Writer.Write] with an empty buffer ends the loop. *)
Lemma writer_direct cl before cur space p nn cl' space' p1 nn' :
  at_end cl before cur → CL_buf cl = [] → CL_werr cl = false → p ≠ [] →
  writer_loop 1 cl space p nn = (cl', space', p1, nn') →
  ∃ cur' q, writes cl cur q cl' before cur' ∧ p = q ++ p1 ∧ CL_buf cl' = [] ∧
    nn' = nn + len q ∧ (if CL_werr cl' then p1 ≠ [] else len p1 ≤ LogBufferSize).
Proof.
  intros Ha Hb Hw Hp. cbn [writer_loop]. rewrite Hb, Hw. change (len []) with 0.
  rewrite Z.sub_0_r, andb_true_r. destruct (Z.ltb_spec LogBufferSize (len p)) as [Hlt|Hge].
  - destruct (os_write cl space p) as [[[cl1 sp1] n] ok] eqn:Ho. intros. simplify_eq.
    pose proof (os_write_writes _ _ _ _ _ _ _ _ _ (negb ok) Ha Hp Hb Ho) as Hws.
    destruct (os_write_spec _ _ _ _ _ _ _ _ _ Ha Hp Ho) as (_ & _ & _ & _ & Hn).
    exists (file_append (take n p) cur), (take n p). split_and!; [done|by rewrite take_drop|done| |].
    + unfold len. rewrite length_take. destruct ok; lia.
    + destruct ok; cbn.
      * rewrite drop_ge by lia. done.
      * intros He. apply (f_equal length) in He. rewrite length_drop in He. simpl in He. lia.
  - intros. simplify_eq. exists cur, []. rewrite Hw. change (len []) with 0.
    split_and!; [|done|done|lia|lia]. unfold writes. rewrite app_nil_r. done.
Qed.

(** A full buffer is flushed and the rest of the input written past it. *)
Lemma writer_fill cl before cur space p cl1 sp1 p1 nn :
  at_end cl before cur → len (CL_buf cl) ≤ LogBufferSize → LogBufferSize - len (CL_buf cl) < len p →
  (let n := Z.to_nat (LogBufferSize - len (CL_buf cl)) in
   let '(cl2, space2, _) := Writer_Flush (set_writer cl (CL_buf cl ++ take n p) false) space in
   writer_loop 1 cl2 space2 (drop n p) (0 + Z.of_nat n)) = (cl1, sp1, p1, nn) →
  ∃ cur' q, writes cl cur q cl1 before cur' ∧ p = q ++ p1 ∧
    len (CL_buf cl1) ≤ LogBufferSize ∧ nn = len q ∧
    (if CL_werr cl1 then p1 ≠ [] else len (CL_buf cl1) + len p1 ≤ LogBufferSize).
Proof.
  intros Ha Hbuf Hlt Hloop. cbv zeta in Hloop. set (k := Z.to_nat (LogBufferSize - len (CL_buf cl))) in *.
  assert (length (take k p) = k) as Hk by (rewrite length_take; unfold k, len in *; lia).
  set (cl2 := set_writer cl (CL_buf cl ++ take k p) false) in *.
  destruct (Writer_Flush cl2 space) as [[cl3 sp3] o] eqn:Hfl.
  assert (at_end cl2 before cur) as Ha2 by done.
  destruct (Writer_Flush_spec _ _ _ _ _ _ _ Ha2 Hfl) as (cur2 & Hws2 & Hb2 & Hok).
  assert (writes cl cur (take k p) cl3 before cur2) as Hws.
  { destruct Hws2 as (H1 & H2 & H3 & H4 & H5). unfold writes, pending in *. cbn in *.
    split_and!; [done..|]. by rewrite H5, app_nil_r, app_assoc. }
  assert (drop k p ≠ []) as Hrest.
  { intros He. apply (f_equal length) in He. rewrite length_drop in He.
    simpl in He. unfold k, len in *. lia. }
  assert (len (CL_buf cl2) ≤ LogBufferSize) as Hb2'.
  { unfold cl2. cbn. rewrite len_app. unfold len at 2. rewrite Hk. unfold k. lia. }
  destruct o.
  - destruct Hok as (_ & Hw3 & Hb3). destruct (writer_direct _ _ _ _ _ _ _ _ _ _
      (proj1 Hws) Hb3 Hw3 Hrest Hloop) as (cur' & q & Hws3 & Hpq & Hb1 & Hnn & Hw1).
    exists cur', (take k p ++ q). rewrite Hb1. change (len []) with 0.
    split_and!; [by eapply writes_trans|by rewrite <- app_assoc, <- Hpq, take_drop|done| |].
    + rewrite len_app, Hnn. unfold len at 2. rewrite Hk. lia.
    + destruct (CL_werr cl1); [done|lia].
  - cbn [writer_loop] in Hloop. rewrite Hok, andb_false_r in Hloop.
    injection Hloop as <- <- <- <-. exists cur2, (take k p). rewrite Hok.
    split_and!; [done|by rewrite take_drop|lia| |done]. unfold len. by rewrite Hk.
Qed.

(** The loop of [Writer.Write] writes a part [q] of its input and leaves a rest
    that fits the buffer, unless the writer's error is set. *)
Lemma writer_loop_spec cl before cur space p cl1 sp1 p1 nn :
  at_end cl before cur → len (CL_buf cl) ≤ LogBufferSize → p ≠ [] →
  writer_loop 2 cl space p 0 = (cl1, sp1, p1, nn) →
  ∃ cur' q, writes cl cur q cl1 before cur' ∧ p = q ++ p1 ∧
    len (CL_buf cl1) ≤ LogBufferSize ∧ nn = len q ∧
    (if CL_werr cl1 then (if CL_werr cl then q = [] else p1 ≠ [])
     else CL_werr cl = false ∧ len (CL_buf cl1) + len p1 ≤ LogBufferSize).
Proof.
  intros Ha Hbuf Hp Hloop.
  assert (writes cl cur [] cl before cur) as Hrefl by (unfold writes; by rewrite app_nil_r).
  cbn [writer_loop] in Hloop. destruct (CL_werr cl) eqn:Hw.
  { rewrite andb_false_r in Hloop. simplify_eq. exists cur, []. by rewrite Hw. }
  rewrite andb_true_r in Hloop.
  destruct (Z.ltb_spec (LogBufferSize - len (CL_buf cl)) (len p)) as [Hlt|Hge]; last first.
  { simplify_eq. exists cur, []. rewrite Hw. split_and!; [done..|lia]. }
  destruct (CL_buf cl) as [|b buf] eqn:Hb.
  - assert (writer_loop 1 cl space p 0 = (cl1, sp1, p1, nn)) as Hl1.
    { cbn [writer_loop]. rewrite Hb, Hw, andb_true_r. change (len []) with 0 in *.
      rewrite (proj2 (Z.ltb_lt _ _)) by lia.
      destruct (os_write cl space p) as [[[cl2 sp2] m] o] eqn:Ho.
      destruct (os_write_spec _ _ _ _ _ _ _ _ _ Ha Hp Ho) as (_ & _ & _ & _ & Hm).
      cbn [writer_loop CL_buf CL_werr set_writer] in Hloop. destruct o; cbn [negb] in *.
      - rewrite drop_ge in * by lia. change (len []) with 0 in Hloop.
        rewrite (proj2 (Z.ltb_ge _ _)) in Hloop by (vm_compute; done). done.
      - by rewrite andb_false_r in Hloop. }
    destruct (writer_direct _ _ _ _ _ _ _ _ _ _ Ha Hb Hw Hp Hl1)
      as (cur' & q & Hws & Hpq & Hb1 & Hnn & Hw1).
    exists cur', q. rewrite Hb1. change (len []) with 0. split_and!; [done..|].
    destruct (CL_werr cl1); [done|]. split; [done|lia].
  - rewrite <- Hb in *. destruct (writer_fill _ _ _ _ _ _ _ _ _ Ha Hbuf Hlt Hloop)
      as (cur' & q & Hws & Hpq & Hb1 & Hnn & Hw1).
    exists cur', q. split_and!; [done..|]. by destruct (CL_werr cl1).
Qed.

Lemma Writer_Write_spec cl before cur space p cl' n ok :
  at_end cl before cur → len (CL_buf cl) ≤ LogBufferSize → p ≠ [] →
  Writer_Write cl space p = (cl', n, ok) →
  ∃ cur' q, writes cl cur q cl' before cur' ∧ len (CL_buf cl') ≤ LogBufferSize ∧
    CL_werr cl' = negb ok ∧
    if ok then CL_werr cl = false ∧ q = p ∧ n = len p
    else if CL_werr cl then q = [] else ∃ s, p = q ++ s ∧ s ≠ [].
Proof.
  intros Ha Hbuf Hp. unfold Writer_Write.
  destruct (writer_loop 2 cl space p 0) as [[[cl1 sp1] p1] nn] eqn:Hloop.
  destruct (writer_loop_spec _ _ _ _ _ _ _ _ _ Ha Hbuf Hp Hloop)
    as (cur' & q & Hws & Hpq & Hb1 & Hnn & Hw1).
  destruct (CL_werr cl1) eqn:Hw1'; intros; simplify_eq.
  - exists cur', q. split_and!; [done..|]. destruct (CL_werr cl); [done|]. by exists p1.
  - destruct Hw1 as [Hw Hfit]. exists cur', (q ++ p1). cbn. rewrite !len_app.
    split_and!; [|lia|done..]. destruct Hws as (H1 & H2 & H3 & H4 & H5).
    unfold writes, pending in *. cbn in *. split_and!; [done..|].
    by rewrite app_assoc, H5, <- !app_assoc.
Qed.

(** *** The operations preserve the invariant *)

Lemma hist_positions_last older cur es :
  hist_positions (older ++ [(cur, es)]) = hist_positions older ++ positions (LF_num cur) 0 es.
Proof. rewrite hist_positions_app. unfold hist_positions at 2. cbn. by rewrite app_nil_r. Qed.

Lemma inv_at_end cl older cur es : log_inv cl older cur es → at_end cl (map fst older) cur.
Proof.
  intros I. split_and!; [apply (inv_dir _ _ _ _ I)|apply (inv_cur _ _ _ _ I)|].
  apply Forall_map, Forall_forall.
  exact (sorted_nums_ne (λ h, LF_num h.1) older _ (inv_sorted _ _ _ _ I)).
Qed.

Lemma hist_positions_num older cur cur' es :
  LF_num cur' = LF_num cur →
  hist_positions (older ++ [(cur', es)]) = hist_positions (older ++ [(cur, es)]).
Proof. intros Hn. rewrite !hist_positions_app. unfold hist_positions. cbn. by rewrite Hn. Qed.

(** The files after a step of the writer: the log is the same as long as the
    pending bytes are its entries and a torn rest. *)
Lemma inv_writes cl older cur es q cl' cur' :
  log_inv cl older cur es → writes cl cur q cl' (map fst older) cur' →
  len (CL_buf cl') ≤ LogBufferSize →
  (∃ part, pending cl' cur' = encode_all es ++ part ∧ torn (CL_werr cl') part) →
  log_inv cl' older cur' es.
Proof.
  intros I (Ha & Hm & Hsy & Hpre & Hp) Hb Hpart.
  destruct Ha as (Hd & Hc & _). destruct Hm as (M1 & M2 & M3 & M4 & M5 & M6 & M7 & M8 & M9).
  assert (LF_num cur' = LF_num cur) as Hn by (rewrite Hc, M2; by rewrite (inv_cur _ _ _ _ I)).
  destruct I as [J1 J2 J3 J4 J5 J6 J7 J8 J0 JL J9 J10 J11 J12 J13 J14].
  split; rewrite ?Hn, ?M4, ?M5, ?M6, ?M7, ?Hsy; try done.
  - congruence.
  - by rewrite (hist_positions_num _ cur).
  - apply prefix_length in Hpre. lia.
Qed.

Lemma torn_start werr : torn werr [].
Proof.
  destruct werr; [|done]. exists (demo_entry 1 CmdTypePut [] []), (encode (demo_entry 1 CmdTypePut [] [])).
  split_and!; [|done..]. apply (bool_decide_unpack _). by vm_compute.
Qed.

Lemma inv_flush cl older cur es space cl' space' ok :
  log_inv cl older cur es → Writer_Flush cl space = (cl', space', ok) →
  ∃ cur', log_inv cl' older cur' es ∧ same_meta cl cl' ∧ LF_num cur' = LF_num cur ∧
    if ok then CL_werr cl' = false ∧ CL_buf cl' = [] else CL_werr cl' = true.
Proof.
  intros I Hf. destruct (Writer_Flush_spec _ _ _ _ _ _ _ (inv_at_end _ _ _ _ I) Hf)
    as (cur' & Hws & Hb & Hok).
  exists cur'. destruct (inv_content _ _ _ _ I) as (part & Hc & Ht).
  pose proof (inv_buf _ _ _ _ I). assert (log_inv cl' older cur' es) as I'.
  { eapply inv_writes; [done..|lia|]. exists part.
    destruct Hws as (_ & _ & _ & _ & ->). unfold pending. rewrite app_nil_r. split; [done|].
    destruct ok; [by destruct Hok as (<- & -> & _)|]. rewrite Hok.
    destruct (CL_werr cl); [done|]. simpl in Ht. subst part. apply (torn_start true). }
  split_and!; [done|by destruct Hws as (? & ? & ?)| |].
  - rewrite (inv_cur _ _ _ _ I'), (inv_cur _ _ _ _ I). by destruct Hws as (_ & (? & ? & ?) & _).
  - destruct ok; naive_solver.
Qed.

Lemma inv_fsync cl older cur es env cl' ok :
  log_inv cl older cur es → file_Sync cl env = (cl', ok) →
  ∃ cur', log_inv cl' older cur' es ∧ same_meta cl cl' ∧ LF_num cur' = LF_num cur ∧
    LF_data cur' = LF_data cur ∧ CL_buf cl' = CL_buf cl ∧ CL_werr cl' = CL_werr cl ∧
    (ok = true → LF_synced cur' = length (LF_data cur')).
Proof.
  intros I. unfold file_Sync. destruct (_ || _); intros; simplify_eq; [by exists cur|].
  destruct (at_end_set_dir cl _ _ file_fsync (inv_at_end _ _ _ _ I) eq_refl) as ((Hd & Hc & _) & Hm & Hb & Hw).
  exists (file_fsync cur). split_and!; try done.
  destruct I as [J1 J2 J3 J4 J5 J6 J7 J8 J0 JL J9 J10 J11 J12 J13 (j & Hj & Hall)].
  split; try done.
  - by rewrite (hist_positions_num _ cur).
  - exists j. split; [|done]. cbn. lia.
Qed.

Lemma dir_open_end num dir :
  Forall (λ f, LF_num f < num) dir → dir_open num dir = dir ++ [mkLogFile num [] 0].
Proof.
  induction 1 as [|f dir Hf Hd IH]; [done|]. cbn [dir_open app].
  rewrite (proj2 (Z.ltb_ge _ _)), (proj2 (Z.eqb_neq _ _)) by lia. by rewrite IH.
Qed.

Lemma inv_dir_below cl older cur es num :
  log_inv cl older cur es → LF_num cur < num → Forall (λ f, LF_num f < num) (CL_dir cl).
Proof.
  intros I Hlt. rewrite (inv_dir _ _ _ _ I). apply Forall_app. split; [|by constructor].
  apply Forall_map. pose proof (sorted_snoc_lt _ _ (inv_sorted _ _ _ _ I)) as Hs.
  apply Forall_map in Hs. eapply Forall_impl; [exact Hs|]. cbn. intros. lia.
Qed.

Lemma sorted_snoc (l : list Z) x :
  StronglySorted Z.lt l → Forall (λ y, y < x) l → StronglySorted Z.lt (l ++ [x]).
Proof.
  induction 1 as [|y l Hs IH Hall]; intros Hx; [by repeat constructor|].
  inversion Hx as [|? ? Hy Hl]; subst. cbn [app]. constructor; [by apply IH|].
  apply Forall_app. by split; [|constructor].
Qed.

(** Starting a new file once the current one is flushed and synced. *)
Lemma inv_open cl older cur es num :
  log_inv cl older cur es → CL_buf cl = [] → CL_werr cl = false →
  LF_synced cur = length (LF_data cur) → LF_num cur < num →
  log_inv (set_file cl (dir_open num (CL_dir cl)) num) (older ++ [(cur, es)]) (mkLogFile num [] 0) [].
Proof.
  intros I Hb Hw Hsy Hn.
  pose proof (dir_open_end _ _ (inv_dir_below _ _ _ _ num I Hn)) as Hd.
  pose proof (inv_dir_below _ _ _ _ num I Hn) as Hbel.
  destruct I as [J1 J2 J3 J4 (part & Hc & Ht) J6 J7 J8 J0 JL J9 J10 J11 J12 J13 J14].
  rewrite Hw in Ht. simpl in Ht. subst part. rewrite Hb, !app_nil_r in Hc.
  assert (hist_entries (older ++ [(cur, es)]) = hist_entries older ++ es) as He.
  { rewrite hist_entries_app. unfold hist_entries at 2. cbn. by rewrite app_nil_r. }
  split; cbn; rewrite ?He, ?app_nil_r; try done.
  - rewrite Hd, J1, map_app. cbn. done.
  - rewrite map_app. cbn [map fst]. apply sorted_snoc; [done|].
    rewrite J1 in Hbel. apply Forall_app in Hbel as [Hb1 Hb2].
    apply Forall_app. split.
    + apply Forall_map. by apply Forall_map in Hb1.
    + inversion Hb2; subst. by constructor.
  - apply Forall_app. split; [done|]. constructor; [|done]. cbn.
    rewrite Hc. pose proof (decode_file_app es [] J7) as Hdf. rewrite app_nil_r in Hdf.
    by rewrite Hdf, app_nil_r.
  - by exists [].
  - rewrite J10, (hist_positions_app (older ++ _)). unfold hist_positions at 3. cbn.
    by rewrite app_nil_r.
  - apply Forall_app. split; [done|]. by constructor.
  - by exists 0%nat.
Qed.

(** The entry that [Append] puts in the log. *)
Definition log_entry (seq now : Z) (cmdType : byte) (key value : bytes) : CommandEntry :=
  (CommandEntry_Encode (new_entry seq now cmdType key value)).2.

Lemma log_entry_wf seq now cmd key value :
  is_u64 seq → is_i64 now → is_u32 (len key) → is_u32 (len value) →
  wf_entry (log_entry seq now cmd key value).
Proof.
  intros. unfold wf_entry, log_entry, CommandEntry_Encode, new_entry. cbn.
  rewrite !u32_small by done. done.
Qed.

Lemma list_to_map_snoc {A} (l : list (Z * A)) k x :
  k ∉ l.*1 → list_to_map (M := gmap Z A) (l ++ [(k, x)]) = <[k:=x]> (list_to_map l).
Proof.
  intros Hk. rewrite list_to_map_app. cbn.
  rewrite <- insert_union_r, (right_id ∅ (∪)); [done|].
  by apply not_elem_of_list_to_map_1.
Qed.

Lemma inv_set_seq cl older cur es s :
  log_inv cl older cur es → CL_currentSeq cl ≤ s → log_inv (set_seq cl s) older cur es.
Proof.
  intros [J1 J2 J3 J4 J5 J6 J7 J8 J0 JL J9 J10 J11 J12 J13 J14] Hs. split; try done; cbn; [lia|lia|].
  eapply Forall_impl; [exact J9|]. cbn. intros. lia.
Qed.

(** After a whole entry was written, the bookkeeping of [Append] restores the
    invariant with the entry at the end of the log. *)
Lemma inv_append cl older cur es e cl1 cur1 sig :
  log_inv cl older cur es → Forall (λ e', CE_Sequence e' < CE_Sequence e) (hist_entries older ++ es) →
  wf_entry e → 0 < CE_Sequence e ≤ CL_currentSeq cl → CL_lastSyncSeq cl < CE_Sequence e →
  writes cl cur (encode e) cl1 (map fst older) cur1 → len (CL_buf cl1) ≤ LogBufferSize →
  CL_werr cl = false → CL_werr cl1 = false →
  log_inv (set_appended cl1 (CL_currentSize cl1 + len (encode e))
    (<[CE_Sequence e := mkLogPosition (CL_currentFile cl1) (CL_currentSize cl)]> (CL_index cl1)) sig)
    older cur1 (es ++ [e]).
Proof.
  intros I Hlt Hwf Hmax Hls (Ha & Hm & Hsy & Hpre & Hp) Hb Hw0 Hw.
  destruct Ha as (Hd & Hc & _). destruct Hm as (M1 & M2 & M3 & M4 & M5 & M6 & M7 & M8 & M9).
  assert (LF_num cur1 = LF_num cur) as Hn by (rewrite Hc, M2; by rewrite (inv_cur _ _ _ _ I)).
  destruct I as [J1 J2 J3 J4 (part & Hpc & Ht) J6 J7 J8 J0 JL J9 J10 J11 J12 J13 (j & Hj & Hall)].
  rewrite Hw0 in Ht. simpl in Ht. subst part.
  assert (encode_all [e] = encode e) as He1 by (unfold encode_all; cbn; apply app_nil_r).
  split; cbn; rewrite ?Hn, ?M2, ?M4, ?M5, ?M6, ?M7, ?Hsy, ?app_assoc; try done.
  - exists []. rewrite Hw. split; [|done]. unfold pending in *.
    by rewrite Hp, Hpc, encode_all_app, He1, !app_nil_r.
  - apply Forall_app. by split; [|constructor].
  - rewrite map_app. apply sorted_snoc; [done|]. by apply Forall_map.
  - apply Forall_app. by split; [|constructor].
  - rewrite J10, !hist_positions_last, positions_app, app_assoc.
    cbn [positions]. rewrite Hn, Z.add_0_l, list_to_map_snoc; [|].
    + by rewrite J11, <- J2.
    + rewrite fmap_app, hist_positions_seqs, positions_seqs, <- map_app.
      intros (e' & Heq & He')%list_elem_of_fmap. rewrite Forall_forall in Hlt.
      specialize (Hlt _ He'). lia.
  - by rewrite J11, encode_all_app, (len_app (encode_all es)), He1.
  - apply prefix_length in Hpre. lia.
  - destruct (decide (j ≤ length es)%nat) as [Hle|Hgt].
    + exists j. rewrite take_app_le by done. split; [done|]. rewrite drop_app_le by done.
      apply Forall_app. by split; [|constructor].
    + exists (length es). rewrite take_app_length, drop_app_length.
      rewrite take_ge in Hj by lia. split; [done|]. by constructor.
Qed.

(** [rotateLogFile] keeps the log; when it succeeds the new file is empty. *)
Lemma inv_rotate cl older cur es env cl' space err :
  log_inv cl older cur es → LF_num cur < ev_open_now env →
  rotateLogFile cl env = (cl', space, err) →
  (∃ older' cur' es', log_inv cl' older' cur' es' ∧ hist_entries older' ++ es' = hist_entries older ++ es ∧
    (err = None → CL_werr cl' = false)) ∧
  CL_currentSeq cl' = CL_currentSeq cl ∧ CL_lastSyncSeq cl' = CL_lastSyncSeq cl.
Proof.
  intros I Hn. unfold rotateLogFile.
  destruct (Writer_Flush cl (ev_space env)) as [[cl1 sp1] ok1] eqn:Hf.
  destruct (inv_flush _ _ _ _ _ _ _ _ I Hf) as (cur1 & I1 & Hm1 & Hn1 & Hok1).
  destruct ok1; cbn [negb].
  2:{ intros. simplify_eq. destruct Hm1 as (_ & _ & _ & _ & -> & -> & _).
      split; [|done]. by exists older, cur1, es. }
  destruct (file_Sync cl1 env) as [cl2 ok2] eqn:Hs.
  destruct (inv_fsync _ _ _ _ _ _ _ I1 Hs) as (cur2 & I2 & Hm2 & Hn2 & Hd2 & Hb2 & Hw2 & Hsy).
  destruct (same_meta_trans _ _ _ Hm1 Hm2) as (_ & _ & _ & _ & E1 & E2 & _).
  destruct ok2; cbn [negb].
  2:{ intros. simplify_eq. rewrite E1, E2. split; [|done]. by exists older, cur2, es. }
  assert (log_inv (set_fileClosed cl2) older cur2 es) as I3 by (by destruct I2).
  unfold openNewLogFile. destruct (ev_open_ok env); intros; simplify_eq.
  - cbn. rewrite E1, E2. split; [|done].
    exists (older ++ [(cur2, es)]), (mkLogFile (ev_open_now env) [] 0), []. split_and!; [|..|done].
    + apply (inv_open (set_fileClosed cl2)); cbn; [done| | |by apply Hsy|lia].
      * rewrite Hb2. by destruct Hok1.
      * rewrite Hw2. by destruct Hok1.
    + rewrite app_nil_r, hist_entries_app. unfold hist_entries at 2. cbn. by rewrite app_nil_r.
  - cbn. rewrite E1, E2. split; [|done]. by exists older, cur2, es.
Qed.

Lemma encode_nonempty e : encode e ≠ [].
Proof. intros He. apply (f_equal length) in He. rewrite length_encode in He. simpl in He. lia. Qed.

(** [Append] rotates when the entry does not fit, and the log is the same. *)
Lemma inv_maybe_rotate cl older cur es env (b : bool) cl' space err :
  log_inv cl older cur es → Forall (λ f, LF_num f < ev_open_now env) (CL_dir cl) →
  (if b then rotateLogFile cl env else (cl, ev_space env, None)) = (cl', space, err) →
  (∃ older' cur' es', log_inv cl' older' cur' es' ∧ hist_entries older' ++ es' = hist_entries older ++ es) ∧
  CL_currentSeq cl' = CL_currentSeq cl ∧ CL_lastSyncSeq cl' = CL_lastSyncSeq cl.
Proof.
  intros I Hclk. destruct b; [|intros; simplify_eq; split; [by exists older, cur, es|done]].
  intros Hrot. apply (inv_rotate _ _ _ _ _ _ _ _ I) in Hrot as ((o1 & c1 & e1 & ? & ? & _) & ? & ?);
    [by split; [exists o1, c1, e1|]|].
  rewrite (inv_dir _ _ _ _ I) in Hclk. apply Forall_app in Hclk as [_ Hc]. by inversion Hc.
Qed.

(** A write that fails leaves at most a torn entry at the end of the file. *)
Lemma inv_torn cl older cur es e cl' cur' q :
  log_inv cl older cur es → wf_entry e → writes cl cur q cl' (map fst older) cur' →
  len (CL_buf cl') ≤ LogBufferSize → CL_werr cl' = true →
  (if CL_werr cl then q = [] else ∃ s, encode e = q ++ s ∧ s ≠ []) →
  log_inv cl' older cur' es.
Proof.
  intros I Hwf Hws Hb Hwe Hok. eapply inv_writes; [done..|].
  destruct (inv_content _ _ _ _ I) as (part & Hc & Ht).
  rewrite Hwe. destruct Hws as (_ & _ & _ & _ & ->). unfold pending. rewrite Hc. destruct (CL_werr cl).
  - subst q. exists part. by rewrite app_nil_r.
  - simpl in Ht. subst part. destruct Hok as (s & Hs & Hne). exists q.
    rewrite app_nil_r. split; [done|]. by exists e, s.
Qed.

(** An append either adds its command at the end of the log with the next
    sequence number, or reports an error and leaves the log as it was, whatever
    the disk does: a short write, a failing fsync and a file that cannot be
    opened included.  The invariant that ties the files, the buffer and the
    index together is kept in both cases. *)
Lemma Append_inv cl env cmdType key value cl' r :
  log_ok cl → CL_currentSeq cl + 1 < 2 ^ 64 → is_i64 (ev_now env) →
  is_u32 (len key) → is_u32 (len value) →
  Forall (λ f, LF_num f < ev_open_now env) (CL_dir cl) →
  CommandLog_Append cl env cmdType key value = (cl', r) →
  log_ok cl' ∧
  match r with
  | Ret seq => seq = CL_currentSeq cl + 1 ∧ CL_currentSeq cl' = seq ∧
      log_of cl' = log_of cl ++ [log_entry seq (ev_now env) cmdType key value]
  | Err _ => log_of cl' = log_of cl
  | Panic => False
  end.
Proof.
  intros (older & cur & es & I) Hseq Hnow Hkl Hvl Hclk. unfold CommandLog_Append.
  pose proof (log_of_inv _ _ _ _ I) as Hlog. pose proof (inv_seq0 _ _ _ _ I) as H0.
  destruct (CL_closed cl).
  { intros. simplify_eq. split; [by exists older, cur, es|done]. }
  rewrite u64_small by (unfold is_u64; lia). set (seq := CL_currentSeq cl + 1) in *.
  assert (log_inv (set_seq cl seq) older cur es) as I1 by (apply inv_set_seq; [done|unfold seq; lia]).
  assert (wf_entry (log_entry seq (ev_now env) cmdType key value)) as Hwf.
  { apply log_entry_wf; [unfold is_u64, seq; lia|done..]. }
  assert (Forall (λ e', CE_Sequence e' < seq) (hist_entries older ++ es)) as Hlt.
  { eapply Forall_impl; [apply (inv_max _ _ _ _ I)|]. cbn. unfold seq. intros. lia. }
  set (e := log_entry seq (ev_now env) cmdType key value) in *.
  destruct (CommandEntry_Encode _) as [data entry] eqn:Henc.
  assert (data = encode e) as -> by (injection Henc as <- <-; reflexivity).
  destruct (if LogFileMaxSize <? _ then _ else _) as [[cl1 space] err] eqn:Hrot.
  destruct (inv_maybe_rotate _ _ _ _ _ _ _ _ _ I1 Hclk Hrot) as ((older1 & cur1 & es1 & I2 & Hh) & Hs1 & Hl1).
  destruct err.
  { intros. simplify_eq. split; [by exists older1, cur1, es1|].
    by rewrite (log_of_inv _ _ _ _ I2), Hlog. }
  destruct (Writer_Write cl1 space (encode e)) as [[cl2 n] ok] eqn:Hw.
  destruct (Writer_Write_spec _ _ _ _ _ _ _ _ (inv_at_end _ _ _ _ I2) (inv_buf _ _ _ _ I2)
    (encode_nonempty e) Hw) as (cur2 & q & Hws & Hb & Hwe & Hok).
  destruct ok; cbn [negb] in *; intros Hres; injection Hres as <- <-.
  - destruct Hok as (Hw1 & -> & ->). pose proof (inv_last _ _ _ _ I) as Hlast.
    assert (log_inv (set_appended cl2 (CL_currentSize cl2 + len (encode e))
      (<[seq:=mkLogPosition (CL_currentFile cl2) (CL_currentSize cl1)]> (CL_index cl2))
      (CL_syncCh cl2 || (LogBufferSize / 2 <? len (CL_buf cl2)))) older1 cur2 (es1 ++ [e])) as I3.
    { apply (inv_append cl1 older1 cur1 es1 e); try done.
      - rewrite Hh. done.
      - rewrite Hs1. unfold e, seq; cbn. lia.
      - rewrite Hl1. unfold e, seq; cbn. lia. }
    split; [by exists older1, cur2, (es1 ++ [e])|]. split_and!; [done| |].
    + cbn. destruct Hws as (_ & (_ & _ & _ & _ & -> & _) & _). done.
    + rewrite (log_of_inv _ _ _ _ I3), Hlog, app_assoc, Hh. done.
  - pose proof (inv_torn _ _ _ _ _ _ _ _ I2 Hwf Hws Hb Hwe Hok) as I3.
    split; [by exists older1, cur2, es1|]. by rewrite (log_of_inv _ _ _ _ I3), Hlog.
Qed.

(** *** Sync *)

Lemma Sync_inv cl older cur es env cl' err :
  log_inv cl older cur es → CommandLog_Sync cl env = (cl', err) →
  ∃ cur', log_inv cl' older cur' es ∧
    (err = None → CL_lastSyncSeq cl' = CL_currentSeq cl' ∧ CL_buf cl' = [] ∧
      LF_data cur' = encode_all es ∧ CL_currentSeq cl' = CL_currentSeq cl).
Proof.
  intros I. unfold CommandLog_Sync.
  destruct (Writer_Flush cl (ev_space env)) as [[cl1 sp1] ok1] eqn:Hf.
  destruct (inv_flush _ _ _ _ _ _ _ _ I Hf) as (cur1 & I1 & Hm1 & Hn1 & Hok1).
  destruct ok1; cbn [negb]; [|intros; simplify_eq; by exists cur1].
  destruct (file_Sync cl1 env) as [cl2 ok2] eqn:Hs.
  destruct (inv_fsync _ _ _ _ _ _ _ I1 Hs) as (cur2 & I2 & Hm2 & Hn2 & Hd2 & Hb2 & Hw2 & Hsy).
  destruct ok2; cbn [negb]; [|intros; simplify_eq; by exists cur2].
  intros. simplify_eq. exists cur2. destruct Hok1 as [Hw1 Hb1].
  assert (LF_data cur2 = encode_all es) as Hdata.
  { destruct (inv_content _ _ _ _ I2) as (part & Hc & Ht). rewrite Hb2, Hb1 in Hc.
    rewrite Hw2, Hw1 in Ht. simpl in Ht. subst part. by rewrite !app_nil_r in Hc. }
  split.
  - destruct I2 as [J1 J2 J3 J4 J5 J6 J7 J8 J0 JL J9 J10 J11 J12 J13 J14].
    split; try done. exists (length es). rewrite take_ge, drop_ge by lia.
    rewrite <- Hdata, Hsy by done. done.
  - intros _. cbn. split_and!; [done|by rewrite Hb2|done|].
    destruct (same_meta_trans _ _ _ Hm1 Hm2) as (_ & _ & _ & _ & ? & _). done.
Qed.

(** *** Recovery *)

Lemma recover_loop_eq fuel num off idx m r :
  (length r ≤ fuel)%nat →
  recover_loop fuel num off idx m r =
  (foldl (λ i p, <[p.1:=p.2]> i) idx (positions num off (decode_file r)),
   foldl Z.max m (map CE_Sequence (decode_file r))).
Proof.
  revert off idx m r. induction fuel as [|fuel IH]; intros off idx m r Hf.
  { by destruct r; [|simpl in Hf; lia]. }
  cbn [recover_loop]. rewrite decode_file_eq.
  destruct (DecodeCommandEntry r) as [[e r']| |] eqn:Hd; [|done..].
  apply DecodeCommandEntry_sound in Hd as [_ ->]. rewrite length_app, length_encode in Hf.
  rewrite IH by lia. cbn [positions map foldl fst snd]. f_equal. f_equal.
  destruct (Z.ltb_spec m (CE_Sequence e)); lia.
Qed.

(** A file with the entries the recovery finds in it. *)
Definition with_entries (f : LogFile) : LogFile * list CommandEntry := (f, decode_file (LF_data f)).

Lemma recover_files_eq opens idx m files :
  (∀ f, f ∈ files → opens (LF_num f) = true) →
  recover_files opens idx m files =
  (foldl (λ i p, <[p.1:=p.2]> i) idx (hist_positions (map with_entries files)),
   foldl Z.max m (map CE_Sequence (flushed files))).
Proof.
  revert idx m. induction files as [|f files IH]; intros idx m Ho; [done|].
  cbn [recover_files]. rewrite Ho by by left. rewrite recover_loop_eq by done.
  rewrite IH by (intros ??; apply Ho; by right).
  unfold hist_positions, flushed. cbn [map concat with_entries fst snd].
  by rewrite map_app, !foldl_app.
Qed.

Lemma foldl_max_le l m : m ≤ foldl Z.max m l ∧ Forall (λ x, x ≤ foldl Z.max m l) l.
Proof.
  revert m. induction l as [|x l IH]; intros m; cbn [foldl]; [by split; [lia|]|].
  destruct (IH (Z.max m x)) as [H1 H2]. split; [lia|]. constructor; [lia|done].
Qed.

Lemma foldl_insert_NoDup (l : list (Z * logPosition)) (m : gmap Z logPosition) :
  NoDup l.*1 → foldl (λ i p, <[p.1:=p.2]> i) m l = list_to_map l ∪ m.
Proof.
  revert m. induction l as [|[k x] l IH]; intros m Hnd.
  { change (m = ∅ ∪ m). by rewrite map_empty_union. }
  apply NoDup_cons in Hnd as [Hk Hnd]. cbn [foldl fst snd]. rewrite list_to_map_cons, IH by done.
  rewrite <- insert_union_l, <- insert_union_r; [done|]. by apply not_elem_of_list_to_map_1.
Qed.

(** What a directory needs for its recovery: files in order, sequence numbers
    increasing through them, and nothing on disk that is not durable. *)
Definition dir_ok (dir : list LogFile) : Prop :=
  StronglySorted Z.lt (map LF_num dir) ∧
  StronglySorted Z.lt (map CE_Sequence (flushed dir)) ∧
  Forall (λ e, 0 < CE_Sequence e) (flushed dir) ∧
  Forall (λ f, LF_synced f = length (LF_data f)) dir.

Lemma hist_entries_with files : hist_entries (map with_entries files) = flushed files.
Proof. unfold hist_entries, flushed. by rewrite map_map. Qed.

Lemma NewCommandLog_inv opens p dir env :
  dir_ok dir → (∀ f, f ∈ dir → opens (LF_num f) = true) →
  ev_open_ok env = true → Forall (λ f, LF_num f < ev_open_now env) dir →
  ∃ cl, NewCommandLog opens p dir env = Ret cl ∧
    log_inv cl (map with_entries dir) (mkLogFile (ev_open_now env) [] 0) [] ∧
    CL_currentSeq cl = foldl Z.max 0 (map CE_Sequence (flushed dir)) ∧
    CL_lastSyncSeq cl = CL_currentSeq cl ∧ CL_partitionID cl = p.
Proof.
  intros (Hnum & Hseq & Hpos & Hsy) Ho Hopen Hclk. unfold NewCommandLog.
  rewrite recover_files_eq by done. unfold openNewLogFile. rewrite Hopen.
  eexists. split; [done|]. split_and!; [|done..].
  assert (NoDup (hist_positions (map with_entries dir)).*1) as Hnd.
  { rewrite hist_positions_seqs, hist_entries_with. by apply sorted_lt_NoDup. }
  destruct (foldl_max_le (map CE_Sequence (flushed dir)) 0) as [Hm0 Hmax].
  split; cbn; rewrite ?app_nil_r, ?hist_entries_with; try done.
  - rewrite dir_open_end, map_map by done. by rewrite map_id.
  - rewrite map_map. apply sorted_snoc; [done|]. by apply Forall_map.
  - apply Forall_map, Forall_forall. done.
  - by exists [].
  - rewrite Forall_forall in Hmax. rewrite Forall_forall in Hpos. rewrite Forall_forall. intros e He.
    split; [by apply Hpos|]. by apply Hmax, list_elem_of_fmap_2.
  - rewrite foldl_insert_NoDup, map_union_empty by done.
    rewrite hist_positions_last. cbn. by rewrite app_nil_r.
  - apply Forall_map. done.
  - by exists 0%nat.
Qed.

(** A machine crash: the buffers are gone and each file keeps at least what was
    synced, possibly cut in the middle of an entry. *)
Definition crash_image (f f' : LogFile) : Prop :=
  LF_num f' = LF_num f ∧ ∃ n, (LF_synced f ≤ n)%nat ∧
    LF_data f' = take n (LF_data f) ∧ LF_synced f' = length (LF_data f').

Lemma crash_image_synced f f' :
  LF_synced f = length (LF_data f) → crash_image f f' → f' = f.
Proof.
  destruct f as [n d sy], f' as [n' d' sy']. unfold crash_image. cbn. intros -> (-> & k & Hk & -> & ->).
  by rewrite !take_ge by lia.
Qed.

Lemma crash_older (older : list (LogFile * list CommandEntry)) dir :
  Forall (λ h : LogFile * list CommandEntry, LF_synced h.1 = length (LF_data h.1)) older →
  Forall2 crash_image (map fst older) dir → dir = map fst older.
Proof.
  intros Ho. revert dir. induction Ho as [|h older Hh Ho IH]; intros dir Hc; inversion Hc; subst; [done|].
  cbn [map]. f_equal; [by eapply crash_image_synced|by apply IH].
Qed.

(** The current file after a crash holds the synced entries at least. *)
Lemma crash_current cl older cur es cur' :
  log_inv cl older cur es → crash_image cur cur' →
  decode_file (LF_data cur') `prefix_of` es ∧
  (∀ e, e ∈ es → CE_Sequence e ≤ CL_lastSyncSeq cl → e ∈ decode_file (LF_data cur')).
Proof.
  intros I (_ & n & Hn & Hd & _). destruct (inv_content _ _ _ _ I) as (part & Hc & Ht).
  destruct (inv_durable _ _ _ _ I) as (j & Hj & Hall). pose proof (inv_synced _ _ _ _ I) as Hsy.
  pose proof (inv_wf _ _ _ _ I) as Hwf.
  assert (∃ rest, LF_data cur' = encode_all (take j es) ++ rest) as [rest Hr].
  { rewrite Hd. exists (drop (length (encode_all (take j es))) (take n (LF_data cur))).
    rewrite <- (take_drop (length (encode_all (take j es))) (take n (LF_data cur))) at 1. f_equal.
    rewrite take_take, Nat.min_l by lia.
    apply (f_equal (take (length (encode_all (take j es))))) in Hc.
    rewrite take_app_le in Hc by lia. rewrite Hc.
    rewrite <- (take_drop j es) at 2. rewrite encode_all_app, <- app_assoc.
    by rewrite take_app_length. }
  split.
  - rewrite Hd. etrans; [|apply (cur_flushed _ _ _ _ I)].
    destruct (decode_file_shape (LF_data cur)) as (junk & Hsh & Hjunk & Hwfd).
    destruct (decide (n ≤ length (encode_all (decode_file (LF_data cur))))%nat) as [Hle|Hgt].
    + rewrite Hsh at 1. rewrite take_app_le by done.
      destruct (decode_prefix (decode_file (LF_data cur))
        (take n (encode_all (decode_file (LF_data cur)))) Hwfd) as (k & jk & _ & _ & -> & _).
      { exists (drop n (encode_all (decode_file (LF_data cur)))). by rewrite take_drop. }
      exists (drop k (decode_file (LF_data cur))). by rewrite take_drop.
    + rewrite Hsh at 1. rewrite take_app_ge by lia. rewrite decode_file_app by done.
      (* the junk is a torn entry, and so is any prefix of it *)
      assert (decode_file (take (n - length (encode_all (decode_file (LF_data cur)))) junk) = []) as ->;
        [|by rewrite app_nil_r].
      rewrite decode_file_eq. destruct (DecodeCommandEntry _) as [[e r]| |] eqn:Hde; [|done..].
      apply DecodeCommandEntry_sound in Hde as [He Heq]. exfalso.
      rewrite <- (take_drop (n - length (encode_all (decode_file (LF_data cur)))) junk) in Hjunk.
      rewrite Heq, <- app_assoc, decode_file_eq, DecodeCommandEntry_encode in Hjunk by done. done.
  - intros e He Hle. rewrite Hr, decode_file_app by (by apply Forall_take).
    apply elem_of_app. left. rewrite <- (take_drop j es) in He. apply elem_of_app in He as [?|He]; [done|].
    rewrite Forall_forall in Hall. specialize (Hall _ He). lia.
Qed.

Lemma sorted_app_prefix (a b c : list Z) :
  b `prefix_of` c → StronglySorted Z.lt (a ++ c) → StronglySorted Z.lt (a ++ b).
Proof.
  intros [d ->]. rewrite app_assoc. induction (a ++ b) as [|x l IH]; intros Hs; [constructor|].
  cbn [app] in Hs. inversion Hs as [|? ? Hs' Hall]; subst. constructor; [by apply IH|].
  by apply Forall_app in Hall as [? _].
Qed.

(** The directory after a crash: what the recovery will find there. *)
Lemma crash_dir cl older cur es dir :
  log_inv cl older cur es → Forall2 crash_image (CL_dir cl) dir →
  ∃ es', flushed dir = hist_entries older ++ es' ∧ es' `prefix_of` es ∧
    (∀ e, e ∈ es → CE_Sequence e ≤ CL_lastSyncSeq cl → e ∈ es') ∧ dir_ok dir.
Proof.
  intros I Hcr.
  rewrite (inv_dir _ _ _ _ I) in Hcr. apply Forall2_app_inv_l in Hcr as (d1 & d2 & Hc1 & Hc2 & ->).
  apply (crash_older _ _ (inv_synced_older _ _ _ _ I)) in Hc1 as ->.
  inversion Hc2 as [|? cur' ? d3 Hcur Hnil]; subst. inversion Hnil; subst. clear Hc2 Hnil.
  destruct (crash_current _ _ _ _ _ I Hcur) as [Hpre Hdur].
  pose proof (inv_older _ _ _ _ I) as Holder.
  assert (flushed (map fst older ++ [cur']) = hist_entries older ++ decode_file (LF_data cur')) as Hfl.
  { rewrite flushed_app, flushed_older by done. unfold flushed. cbn. by rewrite app_nil_r. }
  exists (decode_file (LF_data cur')). split_and!; [done..|].
  unfold dir_ok. rewrite Hfl. split_and!.
  - destruct Hcur as (Hn & _). rewrite map_app, map_map. cbn. rewrite Hn. apply (inv_sorted _ _ _ _ I).
  - rewrite map_app. eapply sorted_app_prefix; [|rewrite <- map_app; apply (inv_seqs _ _ _ _ I)].
    destruct Hpre as [t ->]. rewrite map_app. by eexists.
  - pose proof (inv_max _ _ _ _ I) as Hmax. destruct Hpre as [t ->].
    rewrite app_assoc in Hmax. apply Forall_app in Hmax as [Hmax _].
    eapply Forall_impl; [exact Hmax|]. cbn. intros. lia.
  - apply Forall_app. split; [|destruct Hcur as (_ & ? & _ & _ & ?); by constructor].
    apply Forall_map. exact (inv_synced_older _ _ _ _ I).
Qed.

(** C8: what was synced survives.  After a crash that keeps at least the synced part
    of every file and cuts the rest anywhere, reopening the log succeeds and
    gives a log that satisfies the invariant, is a prefix of the log before the
    crash, and has every entry whose sequence number is at most the synced
    sequence number; the next sequence number is beyond every entry it has. *)
Theorem crash_recovery opens cl dir env p :
  log_ok cl → Forall2 crash_image (CL_dir cl) dir →
  (∀ f, f ∈ dir → opens (LF_num f) = true) → ev_open_ok env = true →
  Forall (λ f, LF_num f < ev_open_now env) dir →
  ∃ cl', NewCommandLog opens p dir env = Ret cl' ∧ log_ok cl' ∧
    log_of cl' `prefix_of` log_of cl ∧
    (∀ e, e ∈ log_of cl → CE_Sequence e ≤ CL_lastSyncSeq cl → e ∈ log_of cl') ∧
    (∀ e, e ∈ log_of cl' → CE_Sequence e ≤ CL_currentSeq cl').
Proof.
  intros (older & cur & es & I) Hcr Ho Hopen Hclk.
  destruct (crash_dir _ _ _ _ _ I Hcr) as (es' & Hfl & Hpre & Hdur & Hok).
  destruct (NewCommandLog_inv opens p _ env Hok Ho Hopen Hclk) as (cl' & Hnew & I' & Hseq & _).
  exists cl'. rewrite (log_of_inv _ _ _ _ I'), (log_of_inv _ _ _ _ I), app_nil_r.
  rewrite hist_entries_with, Hfl. split_and!.
  - done.
  - by eexists _, _, _.
  - by apply prefix_app.
  - intros e [He|He]%elem_of_app Hle; apply elem_of_app; [by left|right; by apply Hdur].
  - intros e He. pose proof (inv_max _ _ _ _ I') as Hmax.
    rewrite app_nil_r, hist_entries_with, Hfl, Forall_forall in Hmax. by apply Hmax.
Qed.

Lemma Sync_ok cl env : log_ok cl → log_ok (CommandLog_Sync cl env).1 ∧
  log_of (CommandLog_Sync cl env).1 = log_of cl.
Proof.
  intros (older & cur & es & I). destruct (CommandLog_Sync cl env) as [cl' err] eqn:E.
  destruct (Sync_inv _ _ _ _ _ _ _ I E) as (cur' & I' & _). cbn.
  split; [by exists older, cur', es|]. by rewrite (log_of_inv _ _ _ _ I'), (log_of_inv _ _ _ _ I).
Qed.

Lemma Close_ok cl env :
  log_ok cl → log_ok (CommandLog_Close cl env) ∧ log_of (CommandLog_Close cl env) = log_of cl.
Proof.
  intros (older & cur & es & I). unfold CommandLog_Close.
  destruct (CL_closed cl); [split; [by exists older, cur, es|done]|].
  assert (log_inv (set_closed cl) older cur es) as I0 by (by destruct I).
  destruct (Writer_Flush (set_closed cl) _) as [[cl1 sp1] ok1] eqn:Hf.
  destruct (inv_flush _ _ _ _ _ _ _ _ I0 Hf) as (cur1 & I1 & _).
  destruct (file_Sync cl1 env) as [cl2 ok2] eqn:Hs.
  destruct (inv_fsync _ _ _ _ _ _ _ I1 Hs) as (cur2 & I2 & _).
  assert (log_inv (set_fileClosed cl2) older cur2 es) as I3 by (by destruct I2).
  split; [by exists older, cur2, es|]. by rewrite (log_of_inv _ _ _ _ I3), (log_of_inv _ _ _ _ I).
Qed.

(** *** What the operations leave alone *)

(** The writer and the files touch neither the synced sequence number nor
    [closed] nor the signal. *)
Definition keeps (cl cl' : CommandLog) : Prop :=
  CL_lastSyncSeq cl' = CL_lastSyncSeq cl ∧ CL_closed cl' = CL_closed cl ∧ CL_syncCh cl' = CL_syncCh cl.

Lemma keeps_trans cl1 cl2 cl3 : keeps cl1 cl2 → keeps cl2 cl3 → keeps cl1 cl3.
Proof. unfold keeps. intuition congruence. Qed.

Lemma os_write_keeps cl space w : keeps cl (os_write cl space w).1.1.1.
Proof. unfold os_write. destruct (CL_fileClosed cl), space; try done. by destruct (Nat.leb _ _). Qed.

Lemma Writer_Flush_keeps cl space : keeps cl (Writer_Flush cl space).1.1.
Proof.
  unfold Writer_Flush. destruct (CL_werr cl); [done|]. destruct (CL_buf cl) as [|b buf]; [done|].
  pose proof (os_write_keeps cl space (b :: buf)). destruct (os_write _ _ _) as [[[? ?] ?] []]; done.
Qed.

Lemma writer_loop_keeps fuel cl space p nn : keeps cl (writer_loop fuel cl space p nn).1.1.1.
Proof.
  revert cl space p nn. induction fuel as [|fuel IH]; intros cl space p nn; [done|]. cbn [writer_loop].
  destruct (_ && _); [|done]. destruct (CL_buf cl) as [|b buf].
  - pose proof (os_write_keeps cl space p) as H. destruct (os_write _ _ _) as [[[cl1 ?] ?] ok].
    eapply keeps_trans; [exact H|]. by apply (IH (set_writer cl1 [] (negb ok))).
  - match goal with |- context [Writer_Flush ?c ?s] =>
      pose proof (Writer_Flush_keeps c s) as H; destruct (Writer_Flush c s) as [[cl1 ?] ?] end.
    eapply keeps_trans; [exact H|]. apply IH.
Qed.

Lemma Writer_Write_keeps cl space p : keeps cl (Writer_Write cl space p).1.1.
Proof.
  unfold Writer_Write. pose proof (writer_loop_keeps 2 cl space p 0) as H.
  destruct (writer_loop _ _ _ _ _) as [[[cl1 ?] ?] ?]. by destruct (CL_werr cl1).
Qed.

Lemma file_Sync_keeps cl env : keeps cl (file_Sync cl env).1.
Proof. unfold file_Sync. by destruct (_ || _). Qed.

Lemma rotate_keeps cl env : keeps cl (rotateLogFile cl env).1.1.
Proof.
  unfold rotateLogFile. pose proof (Writer_Flush_keeps cl (ev_space env)) as H1.
  destruct (Writer_Flush _ _) as [[cl1 ?] []]; [|done]. cbn [negb].
  pose proof (file_Sync_keeps cl1 env) as H2. destruct (file_Sync _ _) as [cl2 []];
    [|by eapply keeps_trans]. cbn [negb]. unfold openNewLogFile.
  by destruct (ev_open_ok env); eapply keeps_trans.
Qed.

Lemma Append_keeps cl env c k v : CL_lastSyncSeq (CommandLog_Append cl env c k v).1 = CL_lastSyncSeq cl.
Proof.
  unfold CommandLog_Append. destruct (CL_closed cl); [done|].
  destruct (CommandEntry_Encode _) as [data entry].
  set (cl0 := set_seq cl _). assert (keeps cl cl0) as H0 by done. clearbody cl0.
  destruct (if LogFileMaxSize <? _ then _ else _) as [[cl1 space] err] eqn:E.
  assert (keeps cl cl1) as H1.
  { eapply keeps_trans; [exact H0|]. pose proof (rotate_keeps cl0 env) as Hr.
    destruct (LogFileMaxSize <? _); [|by simplify_eq]. by rewrite E in Hr. }
  destruct err; [apply H1|]. pose proof (keeps_trans _ _ _ H1 (Writer_Write_keeps cl1 space data)) as H2.
  destruct (Writer_Write _ _ _) as [[cl2 n] []]; apply H2.
Qed.

(** A sync neither closes the log nor signals. *)
Lemma Sync_keeps cl env :
  CL_closed (CommandLog_Sync cl env).1 = CL_closed cl ∧ CL_syncCh (CommandLog_Sync cl env).1 = CL_syncCh cl.
Proof.
  unfold CommandLog_Sync. pose proof (Writer_Flush_keeps cl (ev_space env)) as H1.
  destruct (Writer_Flush _ _) as [[cl1 sp1] []]; [|apply H1]. cbn [negb].
  pose proof (keeps_trans _ _ _ H1 (file_Sync_keeps cl1 env)) as H2.
  destruct (file_Sync _ _) as [cl2 []]; apply H2.
Qed.

(** It moves the synced sequence number up or leaves it. *)
Lemma Sync_grows cl env : log_ok cl → CL_lastSyncSeq cl ≤ CL_lastSyncSeq (CommandLog_Sync cl env).1.
Proof.
  intros (older & cur & es & I). unfold CommandLog_Sync.
  destruct (Writer_Flush _ _) as [[cl1 sp1] ok1] eqn:Hf.
  destruct (inv_flush _ _ _ _ _ _ _ _ I Hf) as (cur1 & I1 & (_ & _ & _ & _ & _ & E1 & _) & _).
  destruct ok1; cbn [negb fst]; [|lia].
  destruct (file_Sync _ _) as [cl2 ok2] eqn:Hs.
  destruct (inv_fsync _ _ _ _ _ _ _ I1 Hs) as (cur2 & I2 & (_ & _ & _ & _ & _ & E2 & _) & _).
  pose proof (inv_last _ _ _ _ I2). destruct ok2; cbn; lia.
Qed.

Lemma Close_keeps cl env : CL_lastSyncSeq (CommandLog_Close cl env) = CL_lastSyncSeq cl.
Proof.
  unfold CommandLog_Close. destruct (CL_closed cl) eqn:E; [done|].
  pose proof (Writer_Flush_keeps (set_closed cl) (ev_space env)) as H1.
  destruct (Writer_Flush _ _) as [[cl1 ?] ?]. pose proof (file_Sync_keeps cl1 env) as H2.
  destruct (file_Sync _ _) as [cl2 ?]. destruct (keeps_trans _ _ _ H1 H2) as [E' _]. exact E'.
Qed.

(** A sync that succeeds leaves nothing behind. *)
Lemma Sync_synced cl env : log_ok cl → (CommandLog_Sync cl env).2 = None →
  Forall (λ e, CE_Sequence e ≤ CL_lastSyncSeq (CommandLog_Sync cl env).1) (log_of (CommandLog_Sync cl env).1).
Proof.
  intros (older & cur & es & I) He. destruct (CommandLog_Sync cl env) as [cl' err] eqn:E. cbn in *.
  destruct (Sync_inv _ _ _ _ _ _ _ I E) as (cur' & I' & [Hlast _]); [done|].
  rewrite Hlast, (log_of_inv _ _ _ _ I'). eapply Forall_impl; [apply (inv_max _ _ _ _ I')|]. cbn. lia.
Qed.

(** *** The log as its callers see it *)

(** What a caller observes of a log: the answers of its operations and crashes. *)
Inductive log_event :=
  | Appended (e : CommandEntry)
  | AppendFailed
  | Synced
  | SyncFailed
  | Closed
  | Crashed.

(** The abstract log: the commands it has, and how many of them are durable. *)
Record abstract_log := mkAbstractLog { al_entries : list CommandEntry; al_durable : nat }.

(** A command that is acknowledged goes to the end, and only a successful sync
    promises anything: a crash keeps the durable commands and cuts the others
    anywhere.  What a crash has kept is durable. *)
Inductive abstract_step : abstract_log → log_event → abstract_log → Prop :=
  | abs_append l n e : abstract_step (mkAbstractLog l n) (Appended e) (mkAbstractLog (l ++ [e]) n)
  | abs_append_failed a : abstract_step a AppendFailed a
  | abs_sync l n : abstract_step (mkAbstractLog l n) Synced (mkAbstractLog l (length l))
  | abs_sync_failed a : abstract_step a SyncFailed a
  | abs_close a : abstract_step a Closed a
  | abs_crash l n k : (n ≤ k ≤ length l)%nat →
      abstract_step (mkAbstractLog l n) Crashed (mkAbstractLog (take k l) k).

Inductive abstract_trace : list log_event → abstract_log → Prop :=
  | abs_nil : abstract_trace [] (mkAbstractLog [] 0)
  | abs_snoc tr a ev a' : abstract_trace tr a → abstract_step a ev a' → abstract_trace (tr ++ [ev]) a'.

(** The runs of the code: a new log, then appends, syncs and closes under any disk
    faults, and crashes that keep at least the synced part of every file, each
    followed by a recovery. *)
Inductive log_trace : CommandLog → list log_event → Prop :=
  | trace_new p env cl :
      NewCommandLog (λ _, true) p [] env = Ret cl → log_trace cl []
  | trace_append cl tr env cmdType key value cl' r :
      log_trace cl tr → CL_currentSeq cl + 1 < 2 ^ 64 → is_i64 (ev_now env) →
      is_u32 (len key) → is_u32 (len value) →
      Forall (λ f, LF_num f < ev_open_now env) (CL_dir cl) →
      CommandLog_Append cl env cmdType key value = (cl', r) →
      log_trace cl' (tr ++ [match r with
        | Ret seq => Appended (log_entry seq (ev_now env) cmdType key value)
        | _ => AppendFailed end])
  | trace_sync cl tr env cl' err :
      log_trace cl tr → CommandLog_Sync cl env = (cl', err) →
      log_trace cl' (tr ++ [match err with None => Synced | Some _ => SyncFailed end])
  | trace_close cl tr env :
      log_trace cl tr → log_trace (CommandLog_Close cl env) (tr ++ [Closed])
  | trace_crash cl tr dir env cl' :
      log_trace cl tr → Forall2 crash_image (CL_dir cl) dir →
      Forall (λ f, LF_num f < ev_open_now env) dir →
      NewCommandLog (λ _, true) (CL_partitionID cl) dir env = Ret cl' →
      log_trace cl' (tr ++ [Crashed]).

Lemma NewCommandLog_open opens p dir env cl :
  NewCommandLog opens p dir env = Ret cl → ev_open_ok env = true.
Proof.
  unfold NewCommandLog, openNewLogFile. destruct (recover_files _ _ _ _).
  by destruct (ev_open_ok env).
Qed.

(** Of two prefixes of a list without duplicates, one that has every element of
    the other is the longer. *)
Lemma prefix_by_elements {A} (l1 l2 l : list A) :
  NoDup l → l1 `prefix_of` l → l2 `prefix_of` l → (∀ x, x ∈ l1 → x ∈ l2) → l1 `prefix_of` l2.
Proof.
  intros Hnd H1 H2 Hsub. destruct (prefix_weak_total l1 l2 l H1 H2) as [?|[k ->]]; [done|].
  destruct k as [|x k]; [by rewrite app_nil_r|].
  assert (NoDup (l2 ++ x :: k)) as Hn.
  { destruct H1 as [r ->]. by apply NoDup_app in Hnd as (? & _). }
  apply NoDup_app in Hn as (_ & Hd & _). exfalso. apply (Hd x); [|by left].
  apply Hsub, elem_of_app. right. by left.
Qed.

(** The log has the commands of the abstract log, and the durable ones are
    synced. *)
Definition simulates (cl : CommandLog) (a : abstract_log) : Prop :=
  log_ok cl ∧ log_of cl = al_entries a ∧ (al_durable a ≤ length (al_entries a))%nat ∧
  Forall (λ e, CE_Sequence e ≤ CL_lastSyncSeq cl) (take (al_durable a) (al_entries a)).

Lemma log_of_sequences cl : log_ok cl →
  StronglySorted Z.lt (map CE_Sequence (log_of cl)) ∧
  Forall (λ e, 0 < CE_Sequence e ≤ CL_currentSeq cl) (log_of cl).
Proof.
  intros (older & cur & es & I). rewrite (log_of_inv _ _ _ _ I).
  split; [apply (inv_seqs _ _ _ _ I)|apply (inv_max _ _ _ _ I)].
Qed.

(** A recovered log simulates what the crash has left. *)
Lemma crash_simulates cl l n dir env cl' :
  simulates cl (mkAbstractLog l n) → Forall2 crash_image (CL_dir cl) dir →
  Forall (λ f, LF_num f < ev_open_now env) dir →
  NewCommandLog (λ _, true) (CL_partitionID cl) dir env = Ret cl' →
  ∃ k, (n ≤ k ≤ length l)%nat ∧ simulates cl' (mkAbstractLog (take k l) k).
Proof.
  intros (Hok & Hl & Hn & Hd) Hcr Hclk Hnew. cbn in Hl, Hn, Hd.
  pose proof (proj1 (log_of_sequences _ Hok)) as Hsort. destruct Hok as (older & cur & es & I).
  destruct (crash_dir _ _ _ _ _ I Hcr) as (es' & Hfl & [rest ->] & Hdur & Hdir).
  destruct (NewCommandLog_inv (λ _, true) (CL_partitionID cl) dir env Hdir) as (cl0 & Hcl & I' & _ & Hlast & _);
    [done|by eapply NewCommandLog_open|done|]. rewrite Hnew in Hcl. injection Hcl as <-.
  pose proof (log_of_inv _ _ _ _ I') as Hl'. rewrite app_nil_r, hist_entries_with, Hfl in Hl'.
  rewrite (log_of_inv _ _ _ _ I), app_assoc in Hl, Hsort. set (l' := hist_entries older ++ es') in *.
  assert (take n l `prefix_of` l') as Hpre.
  { apply (prefix_by_elements _ _ l); [|apply prefix_take|by exists rest; rewrite <- Hl|].
    { apply (NoDup_fmap_1 CE_Sequence), sorted_lt_NoDup. by rewrite <- Hl. }
    intros e He. rewrite Forall_forall in Hd. pose proof (Hd e He).
    apply (elem_of_prefix _ l) in He; [|apply prefix_take]. rewrite <- Hl in He. unfold l' in *.
    rewrite <- app_assoc in He. apply elem_of_app in He as [?|He]; apply elem_of_app; [by left|right].
    by apply Hdur. }
  apply prefix_length in Hpre. rewrite length_take in Hpre.
  exists (length l'). rewrite <- Hl, take_app_length, length_app in *. split; [lia|].
  split_and!; [by eexists _, _, _|done|done|]. cbn. rewrite take_ge by lia. rewrite <- Hl', Hlast.
  eapply Forall_impl; [apply (log_of_sequences cl'); by eexists _, _, _|]. cbn. lia.
Qed.

(** Every run of the code is a run of the abstract log. *)
Lemma log_trace_simulates cl tr : log_trace cl tr → ∃ a, abstract_trace tr a ∧ simulates cl a.
Proof.
  intros Ht. induction Ht as [p env cl Hn|cl tr env c k v cl' r _ ([l n] & Ha & Hok & Hl & Hd & Hs) Hq Hnow Hk Hv Hf Hr
    |cl tr env cl' err _ ([l n] & Ha & Hok & Hl & Hd & Hs) Hr|cl tr env _ ([l n] & Ha & Hok & Hl & Hd & Hs)
    |cl tr dir env cl' _ ([l n] & Ha & Hsim) Hc Hclk Hn]; try (cbn in Hl, Hd, Hs).
  - destruct (NewCommandLog_inv (λ _, true) p [] env) as (cl0 & Hcl & I & _);
      [by (split_and!; constructor)|done|by eapply NewCommandLog_open|constructor|].
    rewrite Hn in Hcl. injection Hcl as <-.
    exists (mkAbstractLog [] 0). split; [constructor|]. split_and!; [by eexists _, _, _|by rewrite (log_of_inv _ _ _ _ I)|done|done].
  - pose proof (Append_keeps cl env c k v) as Hkeep. rewrite Hr in Hkeep.
    apply Append_inv in Hr as [Hok' Hres]; [|done..]. destruct r as [seq|e|]; [|exists (mkAbstractLog l n)|done].
    + destruct Hres as (_ & _ & Hl'). eexists. split; [eapply abs_snoc; [exact Ha|apply abs_append]|].
      split_and!; cbn in *; [done|by rewrite Hl', Hl|rewrite length_app; lia|].
      by rewrite take_app_le, Hkeep.
    + split; [eapply abs_snoc; [exact Ha|constructor]|]. split_and!; cbn in *; [done|congruence|done|by rewrite Hkeep].
  - pose proof (Sync_grows cl env Hok) as Hg. pose proof (Sync_ok cl env Hok) as [Hok' Hl'].
    pose proof (Sync_synced cl env Hok) as Hall. rewrite Hr in Hg, Hok', Hl', Hall. cbn in Hg, Hok', Hl', Hall.
    destruct err as [e|]; [exists (mkAbstractLog l n)|exists (mkAbstractLog l (length l))];
      (split; [eapply abs_snoc; [exact Ha|constructor]|]); (split_and!; cbn; [done|congruence|done|]).
    + eapply Forall_impl; [exact Hs|]. cbn. lia.
    + rewrite take_ge by done. rewrite <- Hl, <- Hl'. by apply Hall.
  - exists (mkAbstractLog l n). split; [eapply abs_snoc; [exact Ha|constructor]|].
    destruct (Close_ok cl env Hok) as [? Hl']. split_and!; cbn; [done|congruence|done|by rewrite Close_keeps].
  - destruct (crash_simulates cl l n dir env cl' Hsim Hc Hclk Hn) as (k & Hk & Hsim').
    eexists. split; [eapply abs_snoc; [exact Ha|by apply (abs_crash _ _ k)]|done].
Qed.

Lemma log_trace_ok cl tr : log_trace cl tr → log_ok cl.
Proof. by intros (a & _ & Hok & _)%log_trace_simulates. Qed.

(** C17: the command log refines an abstract log of acknowledged commands.  Every
    run of the code, through appends, syncs, closes and crashes with any disk
    faults, is a run of the abstract log with the same answers: a command that is
    acknowledged goes to the end, a command whose append failed is not in the log, a
    successful sync makes every command durable, and a crash keeps the durable
    commands and a part of the others that is a prefix.  The files and the buffer
    then hold exactly the commands of the abstract log, in order, under strictly
    increasing sequence numbers that never exceed the current one, and what readers
    see is a prefix of them. *)
Theorem reachable_log cl tr :
  log_trace cl tr →
  ∃ a, abstract_trace tr a ∧ log_ok cl ∧ log_of cl = al_entries a ∧
    flushed (CL_dir cl) `prefix_of` al_entries a ∧
    StronglySorted Z.lt (map CE_Sequence (al_entries a)) ∧
    Forall (λ e, 0 < CE_Sequence e ≤ CL_currentSeq cl) (al_entries a).
Proof.
  intros (a & Ha & Hok & Hl & _)%log_trace_simulates. exists a. rewrite <- Hl.
  destruct (log_of_sequences cl Hok). split_and!; [done..|by apply flushed_prefix|done|done].
Qed.

(** *** A concrete log *)

Definition demo_env (t : Z) : Env := mkEnv t t None true true.

(** An append, a sync, and an append that is still in the buffer. *)
Definition demo_log0 : CommandLog :=
  mkCommandLog 7 [mkLogFile 100 [] 0] 100 false [] false 0 0 0 ∅ false false.
Definition demo_log1 : CommandLog :=
  (CommandLog_AppendPut demo_log0 (demo_env 101) (str_bytes "a") (str_bytes "1")).1.
Definition demo_log2 : CommandLog := (CommandLog_Sync demo_log1 (demo_env 102)).1.
Definition demo_log3 : CommandLog :=
  (CommandLog_AppendDelete demo_log2 (demo_env 103) (str_bytes "a")).1.

Definition demo_entries : list CommandEntry :=
  [log_entry 1 101 CmdTypePut (str_bytes "a") (str_bytes "1");
   log_entry 2 103 CmdTypeDelete (str_bytes "a") []].

(** The side conditions of an append at concrete arguments. *)
Ltac demo_side :=
  first [by split | (apply (bool_decide_unpack _); by vm_compute) | (vm_compute; reflexivity)].

Definition demo_trace : list log_event :=
  [Appended (log_entry 1 101 CmdTypePut (str_bytes "a") (str_bytes "1")); Synced;
   Appended (log_entry 2 103 CmdTypeDelete (str_bytes "a") [])].

Lemma demo_reach : log_trace demo_log3 demo_trace.
Proof.
  assert (log_trace demo_log0 []) as R0.
  { apply (trace_new 7 (demo_env 100)). vm_compute. reflexivity. }
  assert (log_trace demo_log1 (take 1 demo_trace)) as R1.
  { refine (trace_append _ _ (demo_env 101) CmdTypePut (str_bytes "a") (str_bytes "1") _ (Ret 1)
      R0 _ _ _ _ _ _); demo_side. }
  assert (log_trace demo_log2 (take 2 demo_trace)) as R2.
  { refine (trace_sync _ _ (demo_env 102) _ None R1 _). vm_compute. reflexivity. }
  refine (trace_append _ _ (demo_env 103) CmdTypeDelete (str_bytes "a") [] _ (Ret 2)
      R2 _ _ _ _ _ _); demo_side.
Qed.

(** The same log after a crash that cuts the file at its synced end: the first
    command is kept, the second, which was acknowledged, is lost. *)
Definition demo_crashed : CommandLog :=
  match NewCommandLog (λ _, true) 7 (CL_dir demo_log3) (demo_env 200) with Ret cl => cl | _ => demo_log0 end.

Lemma demo_crash : log_trace demo_crashed (demo_trace ++ [Crashed]).
Proof.
  apply (trace_crash demo_log3 demo_trace (CL_dir demo_log3) (demo_env 200)).
  - exact demo_reach.
  - vm_compute. repeat constructor. eexists. split; [apply Nat.le_refl|]. split; reflexivity.
  - apply (bool_decide_unpack _). by vm_compute.
  - vm_compute. reflexivity.
Qed.

Lemma reachable_log_witness :
  log_of demo_log3 = demo_entries ∧ flushed (CL_dir demo_log3) = take 1 demo_entries ∧
  log_of demo_crashed = take 1 demo_entries ∧
  ∃ a, abstract_trace (demo_trace ++ [Crashed]) a ∧ al_entries a = take 1 demo_entries.
Proof.
  pose proof (reachable_log _ _ demo_crash) as (a & Ha & _ & Hl & _).
  assert (log_of demo_crashed = take 1 demo_entries) as E by (vm_compute; reflexivity).
  split_and!; [vm_compute; reflexivity|vm_compute; reflexivity|exact E|].
  exists a. split; [exact Ha|]. rewrite <- Hl. exact E.
Defined.

Lemma ReadFrom_spec_witness :
  log_ok demo_log3 ∧
  CommandLog_ReadFrom (λ _, true) demo_log3 1 10 = Ret (take 1 demo_entries).
Proof.
  assert (log_ok demo_log3) as Hok.
  { pose proof demo_reach as R. exact (log_trace_ok _ _ R). }
  split; [exact Hok|].
  assert (0 ≤ 10) as Hl by done.
  assert (∀ f, f ∈ CL_dir demo_log3 → (λ _ : Z, true) (LF_num f) = true) as Ho by done.
  pose proof (ReadFrom_spec (λ _, true) demo_log3 1 10 Hok Hl Ho) as Hr.
  rewrite Hr. vm_compute. reflexivity.
Defined.

Lemma crash_recovery_witness :
  log_ok demo_log3 ∧
  ∃ cl', NewCommandLog (λ _, true) 7 (CL_dir demo_log3) (demo_env 200) = Ret cl' ∧
    log_of cl' `prefix_of` log_of demo_log3.
Proof.
  assert (log_ok demo_log3) as Hok.
  { pose proof demo_reach as R. exact (log_trace_ok _ _ R). }
  split; [exact Hok|].
  assert (Forall2 crash_image (CL_dir demo_log3) (CL_dir demo_log3)) as Hc.
  { vm_compute. repeat constructor. eexists. split; [apply Nat.le_refl|]. split; reflexivity. }
  assert (Forall (λ f, LF_num f < ev_open_now (demo_env 200)) (CL_dir demo_log3)) as Hk
    by (apply (bool_decide_unpack _); by vm_compute).
  pose proof (crash_recovery (λ _, true) demo_log3 (CL_dir demo_log3) (demo_env 200) 7 Hok Hc
    (λ _ _, eq_refl) eq_refl Hk) as (cl' & H1 & _ & H2 & _).
  exists cl'. split; [exact H1|exact H2].
Defined.
