(* ===== verification/LogNames.v ===== *)
(** * LogNames: the names of log files

    The names that [openNewLogFile] of [storage/command_log.go] prints, the numbers
    that [parseFileNum] and [getFileNum] read in them, and the listing of the
    directory, sorted as strings: what lets [CommandLog] know a file by its number
    and keep the directory in the order of the numbers. *)

From S2P Require Import Prelude CommandEntry CommandLog.

Definition slash : byte := Byte.x2f.
Definition zero : byte := Byte.x30.
Definition LogFileSuffix : bytes := str_bytes ".cmdlog".

(** [fmt.Sprintf("%020d", n)]: the zeros stand between the sign and the digits. *)
Definition pad_zero (w : nat) (s : bytes) : bytes := replicate (w - length s) zero ++ s.
Definition Sprintf_020d (n : Z) : bytes :=
  if n <? 0 then Byte.x2d :: pad_zero 19 (FormatUint (- n)) else pad_zero 20 (FormatUint n).

(** [filepath.Join(cl.logDir, fmt.Sprintf(...))] with a clean [logDir]. *)
Definition log_path (logDir : bytes) (n : Z) : bytes := logDir ++ slash :: Sprintf_020d n ++ LogFileSuffix.

(** [filepath.Base] of a path that does not end in a slash. *)
Fixpoint Base (path : bytes) : bytes :=
  match path with
  | [] => []
  | c :: r => if decide (slash ∈ r) then Base r else if decide (c = slash) then r else path
  end.

Definition is_dec (c : byte) : bool := (48 <=? byte_Z c) && (byte_Z c <=? 57).

(** The digits that follow, at most [w] of them. *)
Fixpoint scan_digits (w : nat) (s : bytes) : bytes :=
  match w, s with
  | S w, c :: r => if is_dec c then c :: scan_digits w r else []
  | _, _ => []
  end.

Definition blank (c : byte) : bool := bool_decide (c ∈ [Byte.x09; Byte.x0b; Byte.x0c; Byte.x0d; Byte.x20]).

Fixpoint skip_blanks (s : bytes) : bytes :=
  match s with c :: r => if blank c then skip_blanks r else s | [] => [] end.

(** [fmt.Sscanf(name, "%020d", &fileNum)] into a zero [fileNum]: blanks, a sign and
    digits, 20 bytes of them at most; what is no number of 64 bits leaves 0. *)
Definition Sscanf_020d (name : bytes) : Z :=
  let s := skip_blanks name in
  let '(neg, digits) :=
    match s with
    | c :: r => if decide (c = Byte.x2d) then (true, scan_digits 19 r)
        else if decide (c = Byte.x2b) then (false, scan_digits 19 r) else (false, scan_digits 20 s)
    | [] => (false, [])
    end in
  match ParseUint digits with
  | Some n => let n := if (neg : bool) then - n else n in if decide (is_i64 n) then n else 0
  | None => 0
  end.

Definition parseFileNum (path : bytes) : Z := Sscanf_020d (Base path).

(** [getFileNum]: of the current file, when there is one. *)
Definition CommandLog_getFileNum (currentFile : option bytes) : Z :=
  match currentFile with None => 0 | Some name => parseFileNum name end.

(** [filepath.Glob] gives the paths in some order; [sort.Strings] orders them. *)
Definition list_files (paths : list bytes) : list bytes := merge_sort bytes_le paths.

(** ** Decimal strings of one width *)

Definition dec : Z → bytes → Z := foldl (λ n c, n * 10 + (byte_Z c - 48)).

Abbreviation digits := (Forall (λ c, is_dec c = true)).

Lemma parse_loop_dec n s z : parse_loop n s = Some z → digits s ∧ dec n s = z.
Proof.
  revert n. induction s as [|c s IH]; intros n; cbn [parse_loop]; [by intros [= ->]|].
  destruct ((0 <=? byte_Z c - 48) && (byte_Z c - 48 <=? 9)) eqn:Hd; [|done]. case_match; [done|].
  intros [Hs Hz]%IH. split; [|done]. constructor; [|done]. unbool.
  apply andb_true_iff. split; apply Z.leb_le; lia.
Qed.

Lemma dec_parse_loop n s : digits s → 0 ≤ n → dec n s < 2 ^ 64 → parse_loop n s = Some (dec n s).
Proof.
  revert n. induction s as [|c s IH]; intros n Hs Hn Hb; [done|]. apply Forall_cons in Hs as [Hc Hs].
  cbn [parse_loop dec foldl] in *. unfold is_dec in Hc. unbool.
  rewrite !(proj2 (Z.leb_le _ _)) by lia. cbn [andb].
  assert (Hle : ∀ m, 0 ≤ m → m ≤ dec m s).
  { clear -Hs. induction Hs as [|c s Hc Hs IH]; intros m Hm; [done|]. cbn. unfold is_dec in Hc. unbool.
    etrans; [|apply IH]; lia. }
  specialize (Hle (n * 10 + (byte_Z c - 48)) ltac:(lia)). fold dec in *.
  rewrite (proj2 (Z.leb_gt _ _)) by lia. apply IH; [done|lia|done].
Qed.

Lemma dec_acc n s : dec n s = n * 10 ^ len s + dec 0 s.
Proof.
  revert n. induction s as [|c s IH]; intros n; [cbn; unfold len; cbn; lia|].
  unfold dec. cbn [foldl]. fold dec. rewrite IH, (IH (0 * 10 + _)).
  unfold len. cbn [length]. rewrite Nat2Z.inj_succ, Z.pow_succ_r by lia. lia.
Qed.

Lemma dec_bound s : digits s → 0 ≤ dec 0 s < 10 ^ len s.
Proof.
  induction 1 as [|c s Hc Hs IH]; [cbn; unfold len; cbn; lia|]. unfold dec. cbn [foldl]. fold dec. rewrite dec_acc.
  unfold is_dec in Hc. unbool. unfold len in *. cbn [length]. rewrite Nat2Z.inj_succ, Z.pow_succ_r by lia. nia.
Qed.

(** Strings of digits of one width are ordered as their numbers. *)
Lemma dec_order a b ta tb : digits a → digits b → length a = length b → dec 0 a < dec 0 b → bytes_lt (a ++ ta) (b ++ tb).
Proof.
  intros Ha. revert b. induction Ha as [|x a Hx Ha IH]; intros b Hb Hl Hlt; destruct b as [|y b]; try done.
  apply Forall_cons in Hb as [Hy Hb]. injection Hl as Hl.
  unfold dec in Hlt. cbn [foldl] in Hlt. fold dec in Hlt. rewrite (dec_acc _ a), (dec_acc _ b) in Hlt.
  pose proof (dec_bound a Ha). pose proof (dec_bound b Hb).
  assert (Hab : len a = len b) by (unfold len; congruence). rewrite Hab in *.
  cbn [app]. unfold bytes_lt. rewrite bytes_leb_cons. intros [?|[-> Hle]]; [nia|].
  apply (IH b); [done..|lia|done].
Qed.

(** ** The names *)

Lemma length_format_loop fuel z acc : (length (format_loop fuel z acc) ≤ fuel + length acc)%nat.
Proof.
  revert z acc. induction fuel as [|fuel IH]; intros z acc; cbn [format_loop]; [done|].
  case_match; cbn [length]; [lia|]. etrans; [apply IH|]. cbn [length]. lia.
Qed.

Lemma dec_zeros k s : dec 0 (replicate k zero ++ s) = dec 0 s.
Proof. induction k as [|k IH]; [done|]. exact IH. Qed.

(** What is printed of a time: 20 digits with its value. *)
Lemma Sprintf_020d_spec n : 0 ≤ n < 2 ^ 63 →
  digits (Sprintf_020d n) ∧ length (Sprintf_020d n) = 20%nat ∧ dec 0 (Sprintf_020d n) = n.
Proof.
  intros Hn. unfold Sprintf_020d. rewrite (proj2 (Z.ltb_ge _ _)) by lia.
  assert (HP : parse_loop 0 (FormatUint n) = Some n).
  { pose proof (ParseUint_FormatUint n ltac:(unfold is_u64; lia)) as HP. unfold ParseUint in HP. by destruct (FormatUint n). }
  apply parse_loop_dec in HP as [Hd Hv]. unfold pad_zero.
  pose proof (length_format_loop 20 n []) as Hl. fold (FormatUint n) in Hl. cbn [length] in Hl.
  rewrite length_app, length_replicate, dec_zeros. split_and!; [|lia|done].
  apply Forall_app. split; [by apply Forall_replicate|done].
Qed.

Lemma Base_app d s : slash ∉ s → Base (d ++ slash :: s) = s.
Proof.
  intros Hs. induction d as [|c d IH]; cbn [app Base]; [by rewrite decide_False, decide_True|].
  rewrite decide_True; [done|]. apply elem_of_app. right. by left.
Qed.

Lemma scan_digits_app a c t : digits a → is_dec c = false → scan_digits (length a) (a ++ c :: t) = a.
Proof. intros Ha Hc. induction Ha as [|x a Hx Ha IH]; [done|]. cbn. by rewrite Hx, IH. Qed.

Lemma digits_head a : digits a → match a with [] => True | c :: _ => blank c = false ∧ c ≠ Byte.x2d ∧ c ≠ Byte.x2b end.
Proof. destruct 1 as [|c a Hc _]; [done|]. revert Hc. destruct c; vm_compute; try done; by intros _; split_and!. Qed.

(** The number of a file is read back from its path. *)
Lemma parseFileNum_path logDir n : 0 ≤ n < 2 ^ 63 → parseFileNum (log_path logDir n) = n.
Proof.
  intros Hn. destruct (Sprintf_020d_spec n Hn) as (Hd & Hl & Hv). unfold parseFileNum, log_path.
  set (s := Sprintf_020d n) in *. clearbody s. rewrite Base_app.
  2: { intros [Hin|Hin]%elem_of_app; [by rewrite Forall_forall in Hd; apply Hd in Hin|].
       apply (bool_decide_eq_true_2 _) in Hin. by vm_compute in Hin. }
  unfold Sscanf_020d. pose proof (digits_head s Hd) as Hh. destruct s as [|c s]; [done|]. destruct Hh as (Hb & Hm & Hp).
  cbn [app skip_blanks]. rewrite Hb, !decide_False by done.
  change LogFileSuffix with (Byte.x2e :: str_bytes "cmdlog").
  pose proof (scan_digits_app (c :: s) Byte.x2e (str_bytes "cmdlog") Hd eq_refl) as HS. rewrite Hl in HS. cbn [app] in HS.
  rewrite HS. unfold ParseUint.
  rewrite dec_parse_loop by (done || rewrite Hv; lia). rewrite Hv, decide_True; [done|]. unfold is_i64. lia.
Qed.

Lemma log_path_lt logDir m n : 0 ≤ m < 2 ^ 63 → 0 ≤ n < 2 ^ 63 → m < n → bytes_lt (log_path logDir m) (log_path logDir n).
Proof.
  intros Hm Hn Hmn. destruct (Sprintf_020d_spec m Hm) as (Hdm & Hlm & Hvm).
  destruct (Sprintf_020d_spec n Hn) as (Hdn & Hln & Hvn). unfold log_path, bytes_lt.
  rewrite bytes_le_app. change (slash :: ?x) with ([slash] ++ x)%list. rewrite bytes_le_app.
  apply dec_order; [done..|by rewrite Hlm|lia].
Qed.

(** The listing of a directory whose files were created at the times [LF_num], in
    whatever order the file system gives it: the paths come in the order in which
    the model of the directory has the files, and their numbers are those of the
    files. *)
Lemma listing_is_directory logDir (dir : list LogFile) paths :
  StronglySorted Z.lt (map LF_num dir) → Forall (λ f, 0 ≤ LF_num f < 2 ^ 63) dir →
  paths ≡ₚ map (λ f, log_path logDir (LF_num f)) dir →
  list_files paths = map (λ f, log_path logDir (LF_num f)) dir ∧ map parseFileNum (list_files paths) = map LF_num dir.
Proof.
  intros Hs Hr Hp. assert (E : list_files paths = map (λ f, log_path logDir (LF_num f)) dir).
  { apply (StronglySorted_unique bytes_le).
    - apply StronglySorted_merge_sort; apply _.
    - clear Hp. induction dir as [|f dir IH]; cbn; [constructor|]. apply Forall_cons in Hr as [Hf Hr].
      cbn in Hs. apply StronglySorted_inv in Hs as [Hs Hlt]. constructor; [by apply IH|].
      apply Forall_map, Forall_forall. intros g Hg. rewrite Forall_forall in Hr. rewrite Forall_forall in Hlt.
      apply bytes_lt_le, log_path_lt; [done|by apply Hr|]. apply Hlt. by apply (list_elem_of_fmap_2 LF_num).
    - unfold list_files. by rewrite merge_sort_Permutation. }
  split; [done|]. rewrite E, map_map. clear -Hr. induction Hr as [|f dir Hf Hr IH]; [done|]. cbn.
  by rewrite parseFileNum_path, IH.
Qed.
