(* ===== verification/SyncLoop.v ===== *)
(** * The background sync of the command log

    [syncLoop] of [src/pkg/storage/command_log.go], a goroutine that runs beside
    the operations of the log.  The loop and the operations share the log, the
    ticker and the signal channel, so the system is a step relation: the ticker
    or a signal wakes the loop, the loop looks at [closed], the loop syncs, and
    between any two of these an operation may run.  [Close] is one step: it sets
    [closed], stops the ticker and flushes. *)

From S2P Require Import Prelude CommandEntry CommandLog.

(** ** The loop *)

(** Where the goroutine is. *)
Inductive loop_pc :=
  | Waiting                (** in [select] *)
  | Woken                  (** received, before [closed.Load()] *)
  | Syncing                (** before [cl.Sync()] *)
  | Returned.

#[export] Instance loop_pc_eq_dec : EqDecision loop_pc.
Proof. solve_decision. Defined.

Record SyncSystem := mkSyncSystem {
  SS_log : CommandLog;
  SS_ticker : bool;        (** [syncTicker] runs: a stopped ticker sends nothing *)
  SS_pc : loop_pc
}.

Definition clear_syncCh (cl : CommandLog) : CommandLog :=
  set_appended cl (CL_currentSize cl) (CL_index cl) false.

(** [case <-cl.syncTicker.C] and [case <-cl.syncCh] *)
Definition syncLoop_tick (s : SyncSystem) : SyncSystem :=
  if bool_decide (SS_pc s = Waiting) && SS_ticker s then mkSyncSystem (SS_log s) (SS_ticker s) Woken else s.
Definition syncLoop_signal (s : SyncSystem) : SyncSystem :=
  if bool_decide (SS_pc s = Waiting) && CL_syncCh (SS_log s) then
    mkSyncSystem (clear_syncCh (SS_log s)) (SS_ticker s) Woken
  else s.

(** The rest of both cases: [if cl.closed.Load() { return }], then [cl.Sync()],
    whose error is dropped. *)
Definition syncLoop_check (s : SyncSystem) : SyncSystem :=
  if bool_decide (SS_pc s = Woken) then
    mkSyncSystem (SS_log s) (SS_ticker s) (if CL_closed (SS_log s) then Returned else Syncing)
  else s.
Definition syncLoop_sync (s : SyncSystem) (env : Env) : SyncSystem :=
  if bool_decide (SS_pc s = Syncing) then
    mkSyncSystem (CommandLog_Sync (SS_log s) env).1 (SS_ticker s) Waiting
  else s.

(** The operations, beside the loop. *)
Definition SS_Append (s : SyncSystem) (env : Env) (cmdType : byte) (key value : bytes) : SyncSystem :=
  mkSyncSystem (CommandLog_Append (SS_log s) env cmdType key value).1 (SS_ticker s) (SS_pc s).
Definition SS_Sync (s : SyncSystem) (env : Env) : SyncSystem :=
  mkSyncSystem (CommandLog_Sync (SS_log s) env).1 (SS_ticker s) (SS_pc s).
Definition SS_Close (s : SyncSystem) (env : Env) : SyncSystem :=
  mkSyncSystem (CommandLog_Close (SS_log s) env) (if CL_closed (SS_log s) then SS_ticker s else false) (SS_pc s).

(** The end of [NewCommandLog]: the ticker runs and the loop waits. *)
Definition sync_start (cl : CommandLog) : SyncSystem := mkSyncSystem cl true Waiting.

Inductive background_step (s : SyncSystem) : SyncSystem → Prop :=
  | step_tick : background_step s (syncLoop_tick s)
  | step_signal : background_step s (syncLoop_signal s)
  | step_check : background_step s (syncLoop_check s)
  | step_sync_loop env : background_step s (syncLoop_sync s env)
  | step_append env cmdType key value :
      CL_currentSeq (SS_log s) + 1 < 2 ^ 64 → is_i64 (ev_now env) →
      is_u32 (len key) → is_u32 (len value) →
      Forall (λ f, LF_num f < ev_open_now env) (CL_dir (SS_log s)) →
      background_step s (SS_Append s env cmdType key value)
  | step_sync env : background_step s (SS_Sync s env)
  | step_close env : background_step s (SS_Close s env).

(** ** Durability *)

(** The log [l] is on the disk to stay. *)
Definition secured (l : list CommandEntry) (cl : CommandLog) : Prop :=
  log_ok cl ∧ l `prefix_of` log_of cl ∧ Forall (λ e, CE_Sequence e ≤ CL_lastSyncSeq cl) l.

Lemma secured_mono l cl cl' :
  secured l cl → log_ok cl' → log_of cl `prefix_of` log_of cl' → CL_lastSyncSeq cl ≤ CL_lastSyncSeq cl' →
  secured l cl'.
Proof.
  intros (_ & Hp & Hs) Hok Hp' Hle. split_and!; [done|by etrans|].
  eapply Forall_impl; [exact Hs|]. cbn. intros. lia.
Qed.

Lemma clear_syncCh_ok cl : log_ok cl → log_ok (clear_syncCh cl) ∧ log_of (clear_syncCh cl) = log_of cl.
Proof. intros (older & cur & es & I). split; [|done]. exists older, cur, es. by destruct I. Qed.

(** No step loses an entry of the log or takes the synced number back. *)
Lemma sync_step_grows s s' :
  background_step s s' → log_ok (SS_log s) →
  log_ok (SS_log s') ∧ log_of (SS_log s) `prefix_of` log_of (SS_log s') ∧
  CL_lastSyncSeq (SS_log s) ≤ CL_lastSyncSeq (SS_log s').
Proof.
  intros Hs Hok. destruct Hs as [| | |env|env c k v Hq Hn Hk Hv Hf|env|env].
  - unfold syncLoop_tick. by destruct (_ && _).
  - unfold syncLoop_signal. destruct (_ && _); [|done]. cbn [SS_log].
    by destruct (clear_syncCh_ok _ Hok) as [? ->].
  - unfold syncLoop_check. by destruct (bool_decide _).
  - unfold syncLoop_sync. destruct (bool_decide _); [|done]. cbn.
    pose proof (Sync_grows _ env Hok). by destruct (Sync_ok _ env Hok) as [? ->].
  - cbn. pose proof (Append_keeps (SS_log s) env c k v) as Hl.
    destruct (CommandLog_Append _ _ _ _ _) as [cl' r] eqn:Ha. cbn in *.
    apply Append_inv in Ha as [? Hr]; [|done..]. rewrite Hl. split_and!; [done| |done].
    destruct r; [destruct Hr as (_ & _ & ->); by apply prefix_app_r|by rewrite Hr|done].
  - cbn. pose proof (Sync_grows _ env Hok). by destruct (Sync_ok _ env Hok) as [? ->].
  - cbn. destruct (Close_ok _ env Hok) as [? ->]. by rewrite Close_keeps.
Qed.

Lemma sync_steps_ok s s' : rtc background_step s s' → log_ok (SS_log s) → log_ok (SS_log s').
Proof. induction 1 as [|s s1 s' Hs _ IH]; [done|]. intros Hok. by apply IH, (sync_step_grows s s1). Qed.

Lemma secured_steps l s s' : rtc background_step s s' → secured l (SS_log s) → secured l (SS_log s').
Proof.
  induction 1 as [|s s1 s' Hst _ IH]; [done|]. intros Hs.
  destruct (sync_step_grows _ _ Hst (proj1 Hs)) as (? & ? & ?). by apply IH; eapply secured_mono.
Qed.

(** A sync on a disk that works reaches the disk. *)
Lemma healthy_Sync cl env :
  log_ok cl → CL_werr cl = false → CL_fileClosed cl = false → ev_space env = None → ev_sync_ok env = true →
  secured (log_of cl) (CommandLog_Sync cl env).1.
Proof.
  intros Hok Hw Hc Hsp Hsy. destruct (Sync_ok cl env Hok) as [Hok' Hl].
  destruct Hok as (older & cur & es & I). destruct (CommandLog_Sync cl env) as [cl' err] eqn:E.
  destruct (Sync_inv _ _ _ _ _ _ _ I E) as (cur' & I' & Hn). cbn in Hok', Hl |- *.
  destruct Hn as (Hlast & _).
  - revert E. unfold CommandLog_Sync, Writer_Flush, os_write, file_Sync. rewrite Hw, Hc, Hsp, Hsy.
    destruct (CL_buf cl); cbn [negb orb]; [|unfold set_writer, set_dir; cbn]; rewrite Hc; cbn; congruence.
  - split_and!; [done|by rewrite Hl|]. rewrite Hlast, <- Hl, (log_of_inv _ _ _ _ I').
    eapply Forall_impl; [apply (inv_max _ _ _ _ I')|]. cbn. lia.
Qed.

(** What is secured is recovered after any crash. *)
Lemma secured_recovered l cl dir env opens p :
  secured l cl → Forall2 crash_image (CL_dir cl) dir →
  (∀ f, f ∈ dir → opens (LF_num f) = true) → ev_open_ok env = true →
  Forall (λ f, LF_num f < ev_open_now env) dir →
  ∃ cl', NewCommandLog opens p dir env = Ret cl' ∧ l `prefix_of` log_of cl' ∧ log_of cl' `prefix_of` log_of cl.
Proof.
  intros ((older & cur & es & I) & Hp & Hs) Hcr Ho Hopen Hclk.
  destruct (crash_dir _ _ _ _ _ I Hcr) as (es' & Hfl & Hpre & Hdur & Hdir).
  destruct (NewCommandLog_inv opens p _ env Hdir Ho Hopen Hclk) as (cl' & Hnew & I' & _).
  exists cl'. rewrite (log_of_inv _ _ _ _ I), (log_of_inv _ _ _ _ I'), app_nil_r, hist_entries_with, Hfl in *.
  split_and!; [done| |by apply prefix_app].
  eapply prefix_by_elements; [|exact Hp|by apply prefix_app|].
  - apply (NoDup_fmap_1 CE_Sequence), sorted_lt_NoDup, (inv_seqs _ _ _ _ I).
  - intros x Hx. rewrite Forall_forall in Hs. pose proof (Hs x Hx).
    pose proof (elem_of_prefix _ _ _ Hx Hp) as [?|?]%elem_of_app; apply elem_of_app; [by left|right; by apply Hdur].
Qed.

(** C5: a command is durable once the background loop has synced after it.  Take
    any run of the log and its loop from a fresh log, with operations between the
    steps of the loop, up to a state in which the loop is about to sync, its
    writer has not failed and the disk works.  Whatever happens afterwards, with
    whatever disk faults, and wherever a crash then cuts the files, reopening the
    log succeeds and finds every command that had been acknowledged before that
    sync, in order, followed only by commands acknowledged later. *)
Theorem synced_in_background p env0 cl0 s env s' dir env1 :
  NewCommandLog (λ _, true) p [] env0 = Ret cl0 → rtc background_step (sync_start cl0) s →
  SS_pc s = Syncing → CL_werr (SS_log s) = false → CL_fileClosed (SS_log s) = false →
  ev_space env = None → ev_sync_ok env = true →
  rtc background_step (syncLoop_sync s env) s' → Forall2 crash_image (CL_dir (SS_log s')) dir →
  ev_open_ok env1 = true → Forall (λ f, LF_num f < ev_open_now env1) dir →
  ∃ cl, NewCommandLog (λ _, true) p dir env1 = Ret cl ∧
    log_of (SS_log s) `prefix_of` log_of cl ∧ log_of cl `prefix_of` log_of (SS_log s').
Proof.
  intros Hnew Hrun Hpc Hw Hc Hsp Hsy Hrun' Hcr Hopen Hclk.
  assert (log_ok (SS_log s)) as Hok by exact (sync_steps_ok _ _ Hrun (log_trace_ok _ _ (trace_new _ _ _ Hnew))).
  eapply secured_recovered; [eapply secured_steps; [exact Hrun'|]|done..].
  unfold syncLoop_sync. rewrite bool_decide_true by done. by apply healthy_Sync.
Qed.

(** ** A log that is closed, a writer that has failed *)

(** The loop does not return.  [Close] stops the ticker, and [syncLoop] looks at
    [closed] only after a tick or a signal: when the loop is waiting and no signal
    is pending, it waits for ever, whatever is called on the log afterwards. *)
Lemma closed_loop_waits s s' :
  CL_closed (SS_log s) = true → SS_ticker s = false → CL_syncCh (SS_log s) = false → SS_pc s = Waiting →
  rtc background_step s s' → SS_pc s' = Waiting.
Proof.
  intros Hc Ht Hs Hp Hr. revert Hc Ht Hs Hp. induction Hr as [|s s1 s' Hst _ IH]; [done|].
  destruct s as [cl tk pc]. cbn. intros Hc -> Hs ->.
  cut (s1 = mkSyncSystem (SS_log s1) false Waiting ∧ CL_closed (SS_log s1) = true ∧ CL_syncCh (SS_log s1) = false).
  { intros (E & ? & ?). apply IH; [done|by rewrite E|done|by rewrite E]. }
  clear IH. destruct Hst as [| | |env|env c k v|env|env]; cbn.
  - done.
  - unfold syncLoop_signal. cbn. by rewrite Hs.
  - done.
  - done.
  - unfold SS_Append, CommandLog_Append. cbn. rewrite Hc. cbn. done.
  - destruct (Sync_keeps cl env) as [-> ->]. done.
  - unfold SS_Close, CommandLog_Close. cbn. rewrite Hc. cbn. done.
Qed.

(** A failed writer stays failed.  [bufio.Writer] keeps its first error, the loop
    drops the error of [Sync], and [Sync] stops at the flush: from then on the
    turns of the loop change nothing and no later command becomes durable. *)
Lemma failed_writer_never_syncs cl envs :
  CL_werr cl = true → foldl (λ cl env, (CommandLog_Sync cl env).1) cl envs = cl.
Proof.
  intros Hw. induction envs as [|env envs IH]; [done|]. cbn [foldl].
  assert (CommandLog_Sync cl env = (cl, Some (Errorf "write failed"))) as ->; [|exact IH].
  unfold CommandLog_Sync, Writer_Flush. by rewrite Hw.
Qed.

(** ** A concrete run *)

(** An append, a turn of the loop, and an append that a crash loses. *)
Definition demo_sync0 : SyncSystem :=
  syncLoop_check (syncLoop_tick (SS_Append (sync_start demo_log0) (demo_env 101) CmdTypePut (str_bytes "a") (str_bytes "1"))).
Definition demo_sync1 : SyncSystem :=
  SS_Append (syncLoop_sync demo_sync0 (demo_env 102)) (demo_env 103) CmdTypeDelete (str_bytes "a") [].

Lemma demo_sync0_run : rtc background_step (sync_start demo_log0) demo_sync0.
Proof.
  eapply rtc_l; [apply (step_append _ (demo_env 101) CmdTypePut (str_bytes "a") (str_bytes "1")); demo_side|].
  eapply rtc_l; [apply step_tick|]. eapply rtc_l; [apply step_check|]. apply rtc_refl.
Qed.

Lemma demo_sync1_run : rtc background_step (syncLoop_sync demo_sync0 (demo_env 102)) demo_sync1.
Proof.
  apply rtc_once, (step_append _ (demo_env 103) CmdTypeDelete (str_bytes "a") []); demo_side.
Qed.

Lemma synced_in_background_witness :
  NewCommandLog (λ _, true) 7 [] (demo_env 100) = Ret demo_log0 ∧ SS_pc demo_sync0 = Syncing ∧
  log_of (SS_log demo_sync0) = take 1 demo_entries ∧
  ∃ cl, NewCommandLog (λ _, true) 7 (CL_dir (SS_log demo_sync1)) (demo_env 200) = Ret cl ∧
    take 1 demo_entries `prefix_of` log_of cl.
Proof.
  assert (Forall2 crash_image (CL_dir (SS_log demo_sync1)) (CL_dir (SS_log demo_sync1))) as Hc.
  { vm_compute. repeat constructor. eexists. split; [apply Nat.le_refl|]. split; reflexivity. }
  assert (Forall (λ f, LF_num f < ev_open_now (demo_env 200)) (CL_dir (SS_log demo_sync1))) as Hk
    by (apply (bool_decide_unpack _); by vm_compute).
  assert (NewCommandLog (λ _, true) 7 [] (demo_env 100) = Ret demo_log0) as Hn by (vm_compute; reflexivity).
  assert (SS_pc demo_sync0 = Syncing) as Hp by (vm_compute; reflexivity).
  assert (log_of (SS_log demo_sync0) = take 1 demo_entries) as Hl by (vm_compute; reflexivity).
  pose proof (synced_in_background 7 (demo_env 100) demo_log0 demo_sync0 (demo_env 102) demo_sync1
    (CL_dir (SS_log demo_sync1)) (demo_env 200) Hn demo_sync0_run Hp eq_refl eq_refl eq_refl eq_refl
    demo_sync1_run Hc eq_refl Hk) as (cl & H1 & H2 & _).
  rewrite Hl in H2. split; [exact Hn|]. split; [exact Hp|]. split; [exact Hl|].
  exists cl. split; [exact H1|exact H2].
Defined.

(** Closing a log whose loop waits leaves the goroutine behind. *)
Lemma closed_loop_waits_witness :
  let s := SS_Close (syncLoop_sync demo_sync0 (demo_env 102)) (demo_env 103) in
  CL_closed (SS_log s) = true ∧ ∀ s', rtc background_step s s' → SS_pc s' = Waiting.
Proof.
  cbv zeta. split; [vm_compute; reflexivity|]. intros s'.
  apply closed_loop_waits; vm_compute; reflexivity.
Defined.
