(* ===== verification/Replay.v ===== *)
(** * Replaying the command log

    [CommandLog.ReplayTo] of [src/pkg/storage/command_log.go], which recovers a
    database from the log (the [RecoverPartition] call of the storage server). *)

From S2P Require Import Prelude Engine Keys FieldCodec FieldStorage CommandEntry CommandLog.

Section Replay.
  Context {D : Type} `{Engine D}.

(** The switch on the command type. *)
Definition replay_entry (partitionID : Z) (db : D) (entry : CommandEntry) : D * option goerr :=
  if bool_decide (CE_CmdType entry = CmdTypePut) then
    match RocksDB_Put db (CE_Key entry) (CE_Value entry) with
    | (db, Some _) => (db, Some (Errorf "replay put failed"))
    | (db, None) => (db, None)
    end
  else if bool_decide (CE_CmdType entry = CmdTypeDelete) then
    match RocksDB_Delete db (CE_Key entry) with
    | (db, Some _) => (db, Some (Errorf "replay delete failed"))
    | (db, None) => (db, None)
    end
  else if bool_decide (CE_CmdType entry = CmdTypeFieldBatch) then
    match DecodeFieldBatch (CE_Value entry) with
    | Ret fb =>
        let pid := if FB_PartitionID fb =? 0 then partitionID else FB_PartitionID fb in
        match FieldStorage_ApplyFieldBatch (mkFieldStorage db pid) fb with
        | (fs, Some _) => (FS_db fs, Some (Errorf "replay field batch apply failed"))
        | (fs, None) => (FS_db fs, None)
        end
    | _ => (db, Some (Errorf "replay field batch decode failed"))
    end
  else (db, None).

(** The loop over the entries of one file. *)
Fixpoint replay_loop (fuel : nat) (partitionID fromSeq : Z) (db : D) (lastSeq : Z) (r : bytes) :
    D * Z * option goerr :=
  match fuel with
  | O => (db, lastSeq, None)
  | S n =>
      match DecodeCommandEntry r with
      | Ret (entry, r') =>
          if CE_Sequence entry <=? fromSeq
          then replay_loop n partitionID fromSeq db lastSeq r'
          else
            match replay_entry partitionID db entry with
            | (db, Some e) => (db, lastSeq, Some e)
            | (db, None) => replay_loop n partitionID fromSeq db (CE_Sequence entry) r'
            end
      | _ => (db, lastSeq, None)
      end
  end.

Fixpoint replay_files (opens : Z → bool) (partitionID fromSeq : Z) (db : D) (lastSeq : Z)
    (files : list LogFile) : D * Z * option goerr :=
  match files with
  | [] => (db, lastSeq, None)
  | f :: rest =>
      if opens (LF_num f) then
        match replay_loop (length (LF_data f)) partitionID fromSeq db lastSeq (LF_data f) with
        | (db, lastSeq, Some e) => (db, lastSeq, Some e)
        | (db, lastSeq, None) => replay_files opens partitionID fromSeq db lastSeq rest
        end
      else replay_files opens partitionID fromSeq db lastSeq rest
  end.

Definition CommandLog_ReplayTo (opens : Z → bool) (cl : CommandLog) (db : D) (fromSeq : Z) :
    D * Z * option goerr :=
  replay_files opens (CL_partitionID cl) fromSeq db 0 (CL_dir cl).

End Replay.

(** ** The effect of an entry on the data *)

Definition apply_entry (partitionID : Z) (m : gmap bytes bytes) (e : CommandEntry) : gmap bytes bytes :=
  if bool_decide (CE_CmdType e = CmdTypePut) then <[CE_Key e := CE_Value e]> m
  else if bool_decide (CE_CmdType e = CmdTypeDelete) then delete (CE_Key e) m
  else if bool_decide (CE_CmdType e = CmdTypeFieldBatch) then
    match DecodeFieldBatch (CE_Value e) with
    | Ret fb =>
        let pid := if FB_PartitionID fb =? 0 then partitionID else FB_PartitionID fb in
        batch_apply m (map (update_wop pid (FB_PrimaryKey fb)) (FB_Updates fb))
    | _ => m
    end
  else m.

(** Field entries carry a batch that decodes. *)
Definition replayable (e : CommandEntry) : Prop :=
  CE_CmdType e = CmdTypeFieldBatch → ∃ fb, DecodeFieldBatch (CE_Value e) = Ret fb.

(** The entries a replay applies. *)
Definition after (fromSeq : Z) (es : list CommandEntry) : list CommandEntry :=
  filter (λ e, fromSeq < CE_Sequence e) es.

(** The sequence number a replay returns. *)
Definition last_seq (lastSeq : Z) (es : list CommandEntry) : Z :=
  default lastSeq (CE_Sequence <$> last es).

Section Replay_facts.
  Context {D : Type} `{EngineLaws D}.

Lemma replay_entry_healthy p (db : D) e :
  db_healthy db → replayable e →
  ∃ db', replay_entry p db e = (db', None) ∧ db_healthy db' ∧
    db_view db' = apply_entry p (db_view db) e.
Proof.
  intros Hh Hr. unfold replay_entry, apply_entry. repeat case_bool_decide.
  - destruct (RocksDB_Put_healthy db (CE_Key e) (CE_Value e) Hh) as (db' & -> & ? & ?). by exists db'.
  - destruct (RocksDB_Delete_healthy db (CE_Key e) Hh) as (db' & -> & ? & ?). by exists db'.
  - destruct Hr as [fb Hfb]; [done|]. rewrite Hfb. cbn zeta.
    set (pid := if _ =? 0 then _ else _).
    unfold FieldStorage_ApplyFieldBatch. cbn [FS_db FS_partitionID].
    change (map _ (FB_Updates fb)) with (map (update_wop pid (FB_PrimaryKey fb)) (FB_Updates fb)).
    destruct (db_healthy_write db (map (update_wop pid (FB_PrimaryKey fb)) (FB_Updates fb)) Hh)
      as (db' & E & Hh'). rewrite E. exists db'. split_and!; [done..|]. by apply db_write_ok in E.
  - by exists db.
Qed.

Lemma last_seq_cons s e es : last_seq s (e :: es) = last_seq (CE_Sequence e) es.
Proof. unfold last_seq. rewrite last_cons. by destruct (last es). Qed.

Lemma replay_loop_healthy fuel p fromSeq (db : D) lastSeq r :
  db_healthy db → Forall replayable (decode_file r) → (length r ≤ fuel)%nat →
  ∃ db', replay_loop fuel p fromSeq db lastSeq r =
    (db', last_seq lastSeq (after fromSeq (decode_file r)), None) ∧ db_healthy db' ∧
    db_view db' = foldl (apply_entry p) (db_view db) (after fromSeq (decode_file r)).
Proof.
  revert db lastSeq r. induction fuel as [|fuel IH]; intros db lastSeq r Hh Hr Hf.
  { destruct r; [|simpl in Hf; lia]. by exists db. }
  cbn [replay_loop]. rewrite decode_file_eq in *.
  destruct (DecodeCommandEntry r) as [[e r']| |] eqn:Hd; [|by exists db..].
  apply DecodeCommandEntry_sound in Hd as [_ ->]. rewrite length_app, length_encode in Hf.
  inversion Hr as [|? ? He Hr']; subst. unfold after. rewrite filter_cons.
  destruct (Z.leb_spec (CE_Sequence e) fromSeq).
  - rewrite decide_False by lia. apply IH; [done..|lia].
  - rewrite decide_True by lia.
    destruct (replay_entry_healthy p db e Hh He) as (db1 & -> & Hh1 & Hv1).
    destruct (IH db1 (CE_Sequence e) r' Hh1 Hr') as (db2 & -> & Hh2 & Hv2); [lia|].
    exists db2. split_and!; [by rewrite last_seq_cons|done|]. cbn [foldl]. by rewrite <- Hv1.
Qed.

Lemma last_seq_app s es fs : last_seq s (es ++ fs) = last_seq (last_seq s es) fs.
Proof.
  revert s. induction es as [|e es IH]; intros s; [done|]. cbn [app].
  by rewrite !last_seq_cons.
Qed.

Lemma replay_files_healthy opens p fromSeq (db : D) lastSeq files :
  db_healthy db → Forall replayable (flushed files) →
  (∀ f, f ∈ files → opens (LF_num f) = true) →
  ∃ db', replay_files opens p fromSeq db lastSeq files =
    (db', last_seq lastSeq (after fromSeq (flushed files)), None) ∧ db_healthy db' ∧
    db_view db' = foldl (apply_entry p) (db_view db) (after fromSeq (flushed files)).
Proof.
  revert db lastSeq. induction files as [|f files IH]; intros db lastSeq Hh Hr Ho.
  { by exists db. }
  change (flushed (f :: files)) with (decode_file (LF_data f) ++ flushed files) in *.
  apply Forall_app in Hr as [Hr1 Hr2]. cbn [replay_files]. rewrite Ho by by left.
  destruct (replay_loop_healthy (length (LF_data f)) p fromSeq db lastSeq (LF_data f) Hh Hr1)
    as (db1 & -> & Hh1 & Hv1); [lia|].
  destruct (IH db1 (last_seq lastSeq (after fromSeq (decode_file (LF_data f)))) Hh1 Hr2)
    as (db2 & -> & Hh2 & Hv2); [intros ??; apply Ho; by right|].
  exists db2. unfold after. rewrite filter_app. split_and!; [by rewrite last_seq_app|done|].
  by rewrite foldl_app, Hv2, Hv1.
Qed.
End Replay_facts.

(** A replay applies, in log order, exactly the flushed commands whose sequence
    number is greater than [fromSeq], and returns the last one's, on an engine
    without pending faults and a log whose field batches decode.  So replaying
    from a checkpoint continues where a replay up to the checkpoint stopped. *)
Lemma ReplayTo_spec {D} `{EngineLaws D} opens cl (db : D) fromSeq :
  db_healthy db → (∀ f, f ∈ CL_dir cl → opens (LF_num f) = true) →
  Forall replayable (flushed (CL_dir cl)) →
  ∃ db', CommandLog_ReplayTo opens cl db fromSeq =
    (db', last_seq 0 (after fromSeq (flushed (CL_dir cl))), None) ∧
    db_view db' =
      foldl (apply_entry (CL_partitionID cl)) (db_view db) (after fromSeq (flushed (CL_dir cl))).
Proof.
  intros Hh Ho Hr.
  destruct (replay_files_healthy opens (CL_partitionID cl) fromSeq db 0 (CL_dir cl) Hh Hr Ho)
    as (db' & E & _ & Hv). by exists db'.
Qed.

Lemma ReplayTo_spec_witness :
  ∃ db', CommandLog_ReplayTo (λ _, true) (CommandLog_Sync demo_log3 (demo_env 104)).1
    (mem_of {[ str_bytes "a" := str_bytes "0" ]}) 0 = (db', 2, None) ∧ db_view db' = ∅.
Proof.
  assert (Forall replayable (flushed (CL_dir (CommandLog_Sync demo_log3 (demo_env 104)).1))) as Hr.
  { assert (flushed (CL_dir (CommandLog_Sync demo_log3 (demo_env 104)).1) = demo_entries) as ->
      by (vm_compute; reflexivity).
    repeat constructor; intros Hc; by vm_compute in Hc. }
  assert (db_healthy (mem_of {[ str_bytes "a" := str_bytes "0" ]})) as Hh by (split; [constructor|done]).
  pose proof (ReplayTo_spec (λ _, true) (CommandLog_Sync demo_log3 (demo_env 104)).1
    (mem_of {[ str_bytes "a" := str_bytes "0" ]}) 0 Hh (λ _ _, eq_refl) Hr) as (db' & H1 & H2).
  exists db'. split; [rewrite H1; vm_compute; reflexivity|]. rewrite H2. vm_compute. reflexivity.
Defined.
