(* ===== verification/Proto.v ===== *)
(** * Messages

    The messages and enumerations of [src/proto/rockskv.proto] that the storage
    node, the metadata service and the compute layer exchange. *)

From S2P Require Import Prelude.

Inductive ErrorCode :=
  | OK | PARTITION_NOT_FOUND | PARTITION_MOVED | KEY_NOT_FOUND
  | INTERNAL_ERROR | NOT_PRIMARY | EPOCH_FENCED.

Inductive PartitionStatus := NORMAL | MIGRATING_OUT | MIGRATING_IN | OFFLINE.

Inductive MigrationState :=
  | MIGRATION_NONE | MIGRATION_PREPARING | MIGRATION_COPYING | MIGRATION_CATCHUP
  | MIGRATION_SWITCHING | MIGRATION_COMPLETE | MIGRATION_FAILED.

Inductive MigrationPriority := PRIORITY_LOW | PRIORITY_NORMAL | PRIORITY_HIGH | PRIORITY_URGENT.

(** The numbers of the constants, which Go compares. *)
Definition MigrationPriority_num (p : MigrationPriority) : Z :=
  match p with PRIORITY_LOW => 0 | PRIORITY_NORMAL => 1 | PRIORITY_HIGH => 2 | PRIORITY_URGENT => 3 end.

(** An open enumeration: a message may carry a number that has no name. *)
Inductive ReplicationOpType := REP_OP_PUT | REP_OP_DELETE | REP_OP_FIELD_BATCH | REP_OP_UNNAMED (n : Z).

#[global] Instance ErrorCode_eq_dec : EqDecision ErrorCode.
Proof. solve_decision. Defined.
#[global] Instance PartitionStatus_eq_dec : EqDecision PartitionStatus.
Proof. solve_decision. Defined.
#[global] Instance MigrationState_eq_dec : EqDecision MigrationState.
Proof. solve_decision. Defined.
#[global] Instance MigrationPriority_eq_dec : EqDecision MigrationPriority.
Proof. solve_decision. Defined.
#[global] Instance ReplicationOpType_eq_dec : EqDecision ReplicationOpType.
Proof. solve_decision. Defined.

(** One row of the route table as it travels to storage and compute nodes. *)
Record PartitionInfo := mkPartitionInfo {
  PI_PartitionId : Z;
  PI_Primary : string;
  PI_Replica : string;
  PI_Status : PartitionStatus;
  PI_MigrationTarget : string;
  PI_MigrationState : MigrationState;
  PI_Epoch : Z
}.

Record ReplicationEntry := mkReplicationEntry {
  RE_Offset : Z;
  RE_Key : bytes;
  RE_Value : bytes;
  RE_IsDelete : bool;
  RE_Timestamp : Z;
  RE_OpType : ReplicationOpType
}.

Record ReplicateRequest := mkReplicateRequest {
  RQ_PartitionId : Z;
  RQ_Entries : list ReplicationEntry;
  RQ_CommitOffset : Z
}.

Record ReplicateResponse := mkReplicateResponse {
  RS_Success : bool;
  RS_LastAppliedOffset : Z;
  RS_ErrorMessage : string
}.
