(* ===== verification/Partitions.v ===== *)
(** * The partition manager

    [PartitionManager] of [src/pkg/storage/partition.go]: the partitions a
    storage node hosts, their status, role and epoch, the reads and writes of
    regular keys, and the export, import and clearing of a partition's data.

    The shared state is [partitions], a map of pointers: every handler mutates
    the entry in place under the lock, so an entry of the [gmap] is replaced.
    The gauges are in [Metrics]; the log lines are not modelled. *)

From S2P Require Import Prelude Engine Keys Proto.

Record Partition := mkPartition {
  P_ID : Z;
  P_Status : PartitionStatus;
  P_IsPrime : bool;
  P_Epoch : Z
}.

#[global] Instance Partition_eq_dec : EqDecision Partition.
Proof. solve_decision. Defined.

(** The JSON document of an export. *)
Record PartitionData := mkPartitionData {
  PD_PartitionID : Z;
  PD_KeyValues : gmap bytes bytes
}.

Section PartitionManager.
  Context {D : Type} `{Engine D}.

Record PartitionManager := mkPartitionManager {
  PM_nodeID : string;
  PM_partitions : gmap Z Partition;
  PM_db : D
}.

Definition PM_set_partitions (pm : PartitionManager) (m : gmap Z Partition) : PartitionManager :=
  mkPartitionManager (PM_nodeID pm) m (PM_db pm).
Definition PM_set_db (pm : PartitionManager) (d : D) : PartitionManager :=
  mkPartitionManager (PM_nodeID pm) (PM_partitions pm) d.

Definition NewPartitionManager (nodeID : string) (db : D) : PartitionManager :=
  mkPartitionManager nodeID ∅ db.

(** ** Membership, roles and epochs *)

Definition PartitionManager_AddPartition (pm : PartitionManager) (partitionID : Z) (isPrimary : bool) :
    PartitionManager * option goerr :=
  match PM_partitions pm !! partitionID with
  | Some _ => (pm, Some (Errorf "partition already exists"))
  | None =>
      (PM_set_partitions pm
        (<[partitionID := mkPartition partitionID NORMAL isPrimary 0]> (PM_partitions pm)), None)
  end.

Definition PartitionManager_AddPartitionWithEpoch (pm : PartitionManager) (partitionID : Z)
    (isPrimary : bool) (epoch : Z) : PartitionManager * option goerr :=
  match PM_partitions pm !! partitionID with
  | Some _ => (pm, Some (Errorf "partition already exists"))
  | None =>
      (PM_set_partitions pm
        (<[partitionID := mkPartition partitionID NORMAL isPrimary epoch]> (PM_partitions pm)), None)
  end.

Definition PartitionManager_UpdatePartitionEpoch (pm : PartitionManager) (partitionID epoch : Z) :
    PartitionManager * option goerr :=
  match PM_partitions pm !! partitionID with
  | None => (pm, Some (Errorf "partition not found"))
  | Some partition =>
      if P_Epoch partition <? epoch then
        (PM_set_partitions pm (<[partitionID :=
           mkPartition (P_ID partition) (P_Status partition) (P_IsPrime partition) epoch]>
           (PM_partitions pm)), None)
      else (pm, None)
  end.

Definition PartitionManager_ValidateEpoch (pm : PartitionManager) (partitionID requestEpoch : Z) :
    option goerr :=
  match PM_partitions pm !! partitionID with
  | None => Some (Errorf "partition not found")
  | Some partition =>
      if negb (requestEpoch =? P_Epoch partition) then Some (Errorf "epoch mismatch") else None
  end.

Definition PartitionManager_RemovePartition (pm : PartitionManager) (partitionID : Z) :
    PartitionManager * option goerr :=
  match PM_partitions pm !! partitionID with
  | None => (pm, Some (Errorf "partition not found"))
  | Some _ => (PM_set_partitions pm (delete partitionID (PM_partitions pm)), None)
  end.

Definition PartitionManager_HasPartition (pm : PartitionManager) (partitionID : Z) : bool :=
  bool_decide (is_Some (PM_partitions pm !! partitionID)).

Definition PartitionManager_IsPrimary (pm : PartitionManager) (partitionID : Z) : bool :=
  match PM_partitions pm !! partitionID with
  | None => false
  | Some partition => P_IsPrime partition
  end.

Definition PartitionManager_GetPartition (pm : PartitionManager) (partitionID : Z) : option Partition :=
  PM_partitions pm !! partitionID.

(** [GetPartitionIDs] and [ListPartitions]: the keys in the order of the range
    loop, here the one of [map_to_list]. *)
Definition PartitionManager_ListPartitions (pm : PartitionManager) : list Z :=
  (map_to_list (PM_partitions pm)).*1.

Definition PartitionManager_PartitionCount (pm : PartitionManager) : Z :=
  Z.of_nat (size (PM_partitions pm)).

Definition PartitionManager_SetPartitionStatus (pm : PartitionManager) (partitionID : Z)
    (status : PartitionStatus) : PartitionManager * option goerr :=
  match PM_partitions pm !! partitionID with
  | None => (pm, Some (Errorf "partition not found"))
  | Some partition =>
      (PM_set_partitions pm (<[partitionID :=
         mkPartition (P_ID partition) status (P_IsPrime partition) (P_Epoch partition)]>
         (PM_partitions pm)), None)
  end.

(** ** Reads and writes *)

Definition PartitionManager_Get (pm : PartitionManager) (key : bytes) (partitionID : Z) :
    outcome (option bytes) :=
  if negb (PartitionManager_HasPartition pm partitionID)
  then Err (Errorf "partition not found on this node")
  else RocksDB_Get (PM_db pm) (MakePartitionKey partitionID key).

(** [partition.Status] after [HasPartition]: the pointer is not nil. *)
Definition status_of (pm : PartitionManager) (partitionID : Z) : outcome PartitionStatus :=
  match PartitionManager_GetPartition pm partitionID with
  | Some partition => Ret (P_Status partition)
  | None => Panic
  end.

Definition PartitionManager_Put (pm : PartitionManager) (key value : bytes) (partitionID : Z) :
    outcome (PartitionManager * option goerr) :=
  if negb (PartitionManager_HasPartition pm partitionID)
  then Ret (pm, Some (Errorf "partition not found on this node"))
  else
    status ← status_of pm partitionID;
    if bool_decide (status ≠ NORMAL) && bool_decide (status ≠ MIGRATING_IN)
    then Ret (pm, Some (Errorf "partition is not writable"))
    else
      let '(d, err) := RocksDB_Put (PM_db pm) (MakePartitionKey partitionID key) value in
      Ret (PM_set_db pm d, err).

Definition PartitionManager_Delete (pm : PartitionManager) (key : bytes) (partitionID : Z) :
    outcome (PartitionManager * option goerr) :=
  if negb (PartitionManager_HasPartition pm partitionID)
  then Ret (pm, Some (Errorf "partition not found on this node"))
  else
    status ← status_of pm partitionID;
    if bool_decide (status ≠ NORMAL)
    then Ret (pm, Some (Errorf "partition is not writable"))
    else
      let '(d, err) := RocksDB_Delete (PM_db pm) (MakePartitionKey partitionID key) in
      Ret (PM_set_db pm d, err).

Definition PartitionManager_BatchPut (pm : PartitionManager) (items : list KeyValueItem)
    (partitionID : Z) : outcome (PartitionManager * option goerr) :=
  if negb (PartitionManager_HasPartition pm partitionID)
  then Ret (pm, Some (Errorf "partition not found on this node"))
  else
    status ← status_of pm partitionID;
    if bool_decide (status ≠ NORMAL) && bool_decide (status ≠ MIGRATING_IN)
    then Ret (pm, Some (Errorf "partition is not writable"))
    else
      let storageItems := map (λ item,
        {| Item_Key := MakePartitionKey partitionID (Item_Key item);
           Item_Value := Item_Value item |}) items in
      let '(d, err) := RocksDB_BatchPut (PM_db pm) storageItems in
      Ret (PM_set_db pm d, err).

(** ** UpdateFromRouteTable *)

(** The body of the first loop for one row. *)
Definition route_row (nodeID : string) (st : gmap Z Partition * gset Z) (p : PartitionInfo) :
    gmap Z Partition * gset Z :=
  let '(parts, shouldExist) := st in
  let isPrimary := bool_decide (PI_Primary p = nodeID) in
  let isReplica := bool_decide (PI_Replica p = nodeID) in
  if isPrimary || isReplica then
    let shouldExist := {[ PI_PartitionId p ]} ∪ shouldExist in
    match parts !! PI_PartitionId p with
    | None =>
        (<[PI_PartitionId p := mkPartition (PI_PartitionId p) (PI_Status p) isPrimary 0]> parts,
         shouldExist)
    | Some existing =>
        (<[PI_PartitionId p :=
           mkPartition (P_ID existing) (PI_Status p) isPrimary (P_Epoch existing)]> parts,
         shouldExist)
    end
  else (parts, shouldExist).

Definition PartitionManager_UpdateFromRouteTable (pm : PartitionManager)
    (partitions : list PartitionInfo) : PartitionManager :=
  let '(parts, shouldExist) :=
    foldl (route_row (PM_nodeID pm)) (PM_partitions pm, ∅) partitions in
  PM_set_partitions pm (filter (λ e, e.1 ∈ shouldExist) parts).

(** ** Export, import and clearing *)

(** The test that ends both range loops. *)
Definition past_end (key endKey : bytes) : bool :=
  (len endKey <=? len key) && bytes_leb endKey (take (length endKey) key).

Fixpoint export_loop (partitionID : Z) (endKey : bytes) (kvs : gmap bytes bytes)
    (entries : list (bytes * bytes)) : outcome (gmap bytes bytes) :=
  match entries with
  | [] => Ret kvs
  | (key, value) :: rest =>
      if past_end key endKey then Ret kvs
      else
        match ParsePartitionKey key with
        | Panic => Panic
        | Err _ => export_loop partitionID endKey kvs rest
        | Ret (pID, originalKey) =>
            if negb (pID =? partitionID) then export_loop partitionID endKey kvs rest
            else export_loop partitionID endKey (<[originalKey := value]> kvs) rest
        end
  end.

(** [ExportPartitionData] up to [json.Marshal]; the iterator's error is not
    looked at. *)
Definition PartitionManager_ExportPartitionData (pm : PartitionManager) (partitionID : Z) :
    outcome PartitionData :=
  if negb (PartitionManager_HasPartition pm partitionID)
  then Err (Errorf "partition not found on this node")
  else
    let '(startKey, endKey) := GetPartitionRange partitionID in
    kvs ← export_loop partitionID endKey ∅ (db_scan (PM_db pm) startKey).1;
    Ret (mkPartitionData partitionID kvs).

(** [ImportPartitionData] from the result of [json.Unmarshal]; the items are in
    the order of the range loop over [KeyValues]. *)
Definition PartitionManager_ImportPartitionData (pm : PartitionManager) (partitionID : Z)
    (unmarshalled : option PartitionData) : PartitionManager * outcome Z :=
  let pm :=
    match PM_partitions pm !! partitionID with
    | Some _ => pm
    | None => PM_set_partitions pm
        (<[partitionID := mkPartition partitionID MIGRATING_IN false 0]> (PM_partitions pm))
    end in
  match unmarshalled with
  | None => (pm, Err (Errorf "failed to unmarshal partition data"))
  | Some data =>
      if negb (PD_PartitionID data =? partitionID)
      then (pm, Err (Errorf "partition ID mismatch"))
      else
        let items := map (λ '(key, value),
          {| Item_Key := MakePartitionKey partitionID key; Item_Value := value |})
          (map_to_list (PD_KeyValues data)) in
        if 0 <? len items then
          match RocksDB_BatchPut (PM_db pm) items with
          | (d, Some _) => (PM_set_db pm d, Err (Errorf "failed to batch put"))
          | (d, None) => (PM_set_db pm d, Ret (len items))
          end
        else (pm, Ret (len items))
  end.

(** The keys [ClearPartitionData] collects. *)
Definition clear_keys (endKey : bytes) (entries : list (bytes * bytes)) : list bytes :=
  (take_while (λ e : bytes * bytes, negb (past_end e.1 endKey)) entries).*1.

Fixpoint clear_loop (d : D) (keys : list bytes) : D * option goerr :=
  match keys with
  | [] => (d, None)
  | key :: rest =>
      match RocksDB_Delete d key with
      | (d, Some _) => (d, Some (Errorf "failed to delete key"))
      | (d, None) => clear_loop d rest
      end
  end.

Definition PartitionManager_ClearPartitionData (pm : PartitionManager) (partitionID : Z) :
    PartitionManager * option goerr :=
  let '(startKey, endKey) := GetPartitionRange partitionID in
  let keysToDelete := clear_keys endKey (db_scan (PM_db pm) startKey).1 in
  let '(d, err) := clear_loop (PM_db pm) keysToDelete in
  (PM_set_db pm d, err).

End PartitionManager.

Arguments PartitionManager D : clear implicits.
Arguments mkPartitionManager {D} _ _ _.

(** ** Following the route table *)

(** The row a node hosts for a partition. *)
Definition hosts (nodeID : string) (p : PartitionInfo) : Prop :=
  PI_Primary p = nodeID ∨ PI_Replica p = nodeID.

#[global] Instance hosts_dec nodeID p : Decision (hosts nodeID p).
Proof. unfold hosts. apply _. Defined.

Definition hosted_row (nodeID : string) (table : list PartitionInfo) (id : Z) : option PartitionInfo :=
  snd <$> list_find (λ p, PI_PartitionId p = id ∧ hosts nodeID p) table.

(** The partition a row asks for; an existing one keeps its id and epoch. *)
Definition routed (nodeID : string) (old : option Partition) (p : PartitionInfo) : Partition :=
  match old with
  | None => mkPartition (PI_PartitionId p) (PI_Status p) (bool_decide (PI_Primary p = nodeID)) 0
  | Some e => mkPartition (P_ID e) (PI_Status p) (bool_decide (PI_Primary p = nodeID)) (P_Epoch e)
  end.

Lemma route_row_hosted nodeID parts ex p :
  route_row nodeID (parts, ex) p =
  if decide (hosts nodeID p) then
    (<[PI_PartitionId p := routed nodeID (parts !! PI_PartitionId p) p]> parts,
     {[ PI_PartitionId p ]} ∪ ex)
  else (parts, ex).
Proof.
  unfold route_row, hosts, routed. repeat case_bool_decide; case_decide; simpl; try tauto.
  all: by case_match.
Qed.

Lemma hosted_row_cons nodeID p table id :
  hosted_row nodeID (p :: table) id =
  if decide (PI_PartitionId p = id ∧ hosts nodeID p) then Some p else hosted_row nodeID table id.
Proof.
  unfold hosted_row. simpl. case_decide; [done|].
  by destruct (list_find _ table) as [[]|].
Qed.

Lemma hosted_row_None nodeID table id :
  id ∉ map PI_PartitionId table → hosted_row nodeID table id = None.
Proof.
  induction table as [|p table IH]; intros Hid; [done|]. rewrite hosted_row_cons.
  cbn [map] in Hid. rewrite decide_False by set_solver. apply IH. set_solver.
Qed.

Lemma route_rows_lookup nodeID table parts ex id :
  NoDup (map PI_PartitionId table) →
  let r := foldl (route_row nodeID) (parts, ex) table in
  r.1 !! id = match hosted_row nodeID table id with
              | Some p => Some (routed nodeID (parts !! id) p) | None => parts !! id end ∧
  (id ∈ r.2 ↔ id ∈ ex ∨ is_Some (hosted_row nodeID table id)).
Proof.
  revert parts ex. induction table as [|p table IH]; intros parts ex Hnd r.
  { unfold r. simpl. split; [done|]. split; [auto|]. intros [?|[? [=]]]. done. }
  apply NoDup_cons in Hnd as [Hp Hnd].
  assert (r = foldl (route_row nodeID) (route_row nodeID (parts, ex) p) table) as Hr by done.
  clearbody r. rewrite route_row_hosted in Hr. rewrite hosted_row_cons.
  destruct (decide (hosts nodeID p)) as [Hh|Hh].
  - destruct (IH (<[PI_PartitionId p := routed nodeID (parts !! PI_PartitionId p) p]> parts)
      ({[ PI_PartitionId p ]} ∪ ex) Hnd) as [H1 H2].
    rewrite <- Hr in H1, H2. rewrite H1, H2. destruct (decide (PI_PartitionId p = id)) as [<-|Hne].
    + rewrite decide_True by done. rewrite hosted_row_None, lookup_insert_eq by done.
      split; [done|]. split; [by eauto|]. set_solver.
    + rewrite decide_False by tauto. rewrite lookup_insert_ne by done. split; [done|]. set_solver.
  - rewrite decide_False by tauto. rewrite Hr. by apply IH.
Qed.

(** Following the route table makes the node host exactly the partitions whose
    row names it, each with the status of its row and in the role its row gives
    it; partitions it already had keep their epoch, and the others are dropped. *)
Lemma UpdateFromRouteTable_exact {D} `{Engine D} (pm : PartitionManager D) table id :
  NoDup (map PI_PartitionId table) →
  PM_partitions (PartitionManager_UpdateFromRouteTable pm table) !! id =
  routed (PM_nodeID pm) (PM_partitions pm !! id) <$> hosted_row (PM_nodeID pm) table id.
Proof.
  intros Hnd. unfold PartitionManager_UpdateFromRouteTable.
  destruct (route_rows_lookup (PM_nodeID pm) table (PM_partitions pm) ∅ id Hnd) as [H1 H2].
  destruct (foldl _ _ _) as [parts ex]. cbn [fst snd PM_partitions PM_set_partitions] in *.
  destruct (hosted_row (PM_nodeID pm) table id) as [p|]; cbn.
  - apply map_lookup_filter_Some. split; [done|]. cbn. apply H2. eauto.
  - apply map_lookup_filter_None. right. intros x _ Hin. cbn in Hin. apply H2 in Hin. set_solver.
Qed.

Definition demo_row (id : Z) (primary replica : string) (epoch : Z) : PartitionInfo :=
  mkPartitionInfo id primary replica NORMAL "" MIGRATION_NONE epoch.

Lemma UpdateFromRouteTable_exact_witness :
  let pm := mkPartitionManager "n1" {[ 1 := mkPartition 1 NORMAL false 4; 2 := mkPartition 2 NORMAL true 0 ]}
    (mem_of ∅) in
  let table := [demo_row 1 "n1" "n2" 5; demo_row 2 "n2" "n3" 1] in
  let pm' := PartitionManager_UpdateFromRouteTable pm table in
  PM_partitions pm' !! 1 = Some (mkPartition 1 NORMAL true 4) ∧ PM_partitions pm' !! 2 = None.
Proof.
  intros pm table pm'. assert (NoDup (map PI_PartitionId table)) as Hnd
    by (apply (bool_decide_unpack _); by vm_compute).
  split.
  - unfold pm'. rewrite (UpdateFromRouteTable_exact pm table 1 Hnd). vm_compute. reflexivity.
  - unfold pm'. rewrite (UpdateFromRouteTable_exact pm table 2 Hnd). vm_compute. reflexivity.
Defined.

(** ** The range scans *)

Lemma take_while_before {A} (R : relation A) (P : A → bool) l y :
  StronglySorted R l → y ∈ l → P y = true → (∀ x, x ∈ l → R x y → P x = true) → y ∈ take_while P l.
Proof.
  induction 1 as [|x l Hs IH Hall]; intros Hy Py HP; [set_solver|]. cbn [take_while].
  apply elem_of_cons in Hy as [->|Hy].
  - rewrite Py. by left.
  - rewrite Forall_forall in Hall. rewrite HP by (first [by left|by apply Hall]).
    right. apply IH; [done..|]. intros z Hz. apply HP. by right.
Qed.

Lemma bytes_le_take n a : bytes_le (take n a) a.
Proof.
  revert n. induction a as [|x a IH]; intros [|n]; try done. cbn [take].
  apply bytes_leb_cons. right. split; [done|apply IH].
Qed.

Lemma MakePartitionKey_eq p k : MakePartitionKey p k = (GetPartitionRange p).1 ++ k.
Proof. done. Qed.

(** Relative to the range of partition [p]: keys of [p] start in the range, and
    keys of a later partition are past its end. *)
Lemma range_start_le p k : bytes_le (GetPartitionRange p).1 (MakePartitionKey p k).
Proof.
  rewrite MakePartitionKey_eq. rewrite <- (app_nil_r (GetPartitionRange p).1) at 1.
  by apply bytes_le_app.
Qed.

Lemma range_order p q k t :
  is_u32 p → is_u32 q → p < q → bytes_lt (MakePartitionKey p k) ((GetPartitionRange q).1 ++ t).
Proof.
  intros Hp Hq Hlt. unfold MakePartitionKey, GetPartitionRange. cbn [fst]. rewrite <- !app_assoc.
  unfold bytes_lt. rewrite bytes_le_app. by apply be32_lt.
Qed.

Lemma range_end p : is_u32 p → p ≠ 2 ^ 32 - 1 →
  (GetPartitionRange p).2 = (GetPartitionRange (p + 1)).1 ∧ is_u32 (p + 1).
Proof.
  intros Hp Hmax. assert (is_u32 (p + 1)) as Hp1 by (unfold is_u32 in *; lia).
  split; [|done]. unfold GetPartitionRange. cbn [fst snd]. by rewrite u32_small.
Qed.

Lemma take_range q k : take (length (GetPartitionRange q).1) (MakePartitionKey q k) = (GetPartitionRange q).1.
Proof. rewrite MakePartitionKey_eq. apply take_app_length. Qed.

Lemma past_end_spec p q k :
  is_u32 p → p ≠ 2 ^ 32 - 1 → is_u32 q →
  past_end (MakePartitionKey q k) (GetPartitionRange p).2 = bool_decide (p < q).
Proof.
  intros Hp Hmax Hq. destruct (range_end p Hp Hmax) as [-> Hp1]. unfold past_end.
  change (length (GetPartitionRange (p + 1)).1) with (length (GetPartitionRange q).1).
  rewrite take_range. rewrite (proj2 (Z.leb_le _ _)).
  2:{ unfold MakePartitionKey. rewrite len_app. pose proof (len_nonneg k). unfold GetPartitionRange.
      cbn [fst]. rewrite !len_app, !len_be32. lia. }
  cbn [andb]. case_bool_decide as Hlt.
  - unfold GetPartitionRange. cbn [fst].
    change (bytes_le (PartitionKeyPrefix ++ be32 (p + 1)) (PartitionKeyPrefix ++ be32 q)).
    rewrite bytes_le_app. destruct (decide (p + 1 = q)) as [<-|Hne]; [apply bytes_le_refl|].
    apply bytes_lt_le. rewrite <- (app_nil_r (be32 _)), <- (app_nil_r (be32 q)).
    apply be32_lt; [done..|lia].
  - apply not_true_is_false. intros Hle. destruct (range_order q (p + 1) [] [] Hq Hp1); [lia|].
    unfold MakePartitionKey. by rewrite !app_nil_r.
Qed.

(** What comes before a key of the partition is not past its end. *)
Lemma past_end_before p k x :
  is_u32 p → p ≠ 2 ^ 32 - 1 → bytes_le x (MakePartitionKey p k) →
  past_end x (GetPartitionRange p).2 = false.
Proof.
  intros Hp Hmax Hle. destruct (range_end p Hp Hmax) as [-> Hp1]. unfold past_end.
  apply not_true_is_false. intros [_ He]%andb_true_iff.
  destruct (range_order p (p + 1) k [] Hp Hp1); [lia|]. rewrite app_nil_r.
  etrans; [exact He|]. etrans; [apply bytes_le_take|done].
Qed.

(** The entries a range scan visits: all of the partition's, and none of another
    partition's. *)
Definition range_scan (m : gmap bytes bytes) (p : Z) : list (bytes * bytes) :=
  take_while (λ e : bytes * bytes, negb (past_end e.1 (GetPartitionRange p).2))
    (sorted_from m (GetPartitionRange p).1).

Lemma range_scan_elem m p k v :
  is_u32 p → p ≠ 2 ^ 32 - 1 →
  (MakePartitionKey p k, v) ∈ range_scan m p ↔ m !! MakePartitionKey p k = Some v.
Proof.
  intros Hp Hmax. unfold range_scan. split.
  - intros [[? _]%elem_of_sorted_from _]%elem_of_take_while. done.
  - intros Hv. apply (take_while_before entry_le).
    + apply sorted_from_sorted.
    + apply elem_of_sorted_from. split; [done|apply range_start_le].
    + cbn [fst]. by rewrite past_end_before with (k := k).
    + intros [x w] _ Hle. cbn [fst]. by rewrite past_end_before with (k := k).
Qed.

Lemma range_scan_other m p q k v :
  is_u32 p → p ≠ 2 ^ 32 - 1 → is_u32 q → q ≠ p → (MakePartitionKey q k, v) ∉ range_scan m p.
Proof.
  intros Hp Hmax Hq Hne. unfold range_scan. intros [[_ Hs]%elem_of_sorted_from Hb]%elem_of_take_while.
  cbn [fst] in Hb. rewrite past_end_spec in Hb by done. apply negb_true_iff in Hb. unbool.
  apply (range_order q p k []); [done..|lia|]. by rewrite app_nil_r.
Qed.

(** ** Export and import *)

Lemma ParsePartitionKey_no_panic key : ParsePartitionKey key ≠ Panic.
Proof.
  unfold ParsePartitionKey. change (len PartitionKeyPrefix) with 2.
  destruct (Z.ltb_spec (len key) (2 + 4)); [done|].
  unfold slice_from. by rewrite !slice_ret by lia.
Qed.

Lemma bytes_le_take_r e k : bytes_le e k → bytes_le e (take (length e) k).
Proof.
  revert k. induction e as [|x e IH]; intros [|y k]; [done..|]. cbn [length take].
  rewrite !bytes_leb_cons. naive_solver.
Qed.

(** A key the scan visits and that parses to the partition is a key of it. *)
Lemma range_scan_parse m p key v k :
  is_u32 p → p ≠ 2 ^ 32 - 1 → (key, v) ∈ range_scan m p →
  ParsePartitionKey key = Ret (p, k) → key = MakePartitionKey p k.
Proof.
  intros Hp Hmax [[_ Hs]%elem_of_sorted_from Hb]%elem_of_take_while Hparse. cbn [fst] in Hb.
  assert (6 ≤ len key) as Hlen.
  { unfold ParsePartitionKey in Hparse. change (len PartitionKeyPrefix + 4) with 6 in Hparse.
    by destruct (Z.ltb_spec (len key) 6). }
  assert (∃ k', key = MakePartitionKey p k') as [k' ->].
  { apply partition_range_exact; [done..|]. unfold in_partition_range.
    destruct (GetPartitionRange p) as [st en] eqn:Hr. split; [done|].
    apply (proj1 (compareBytes_spec key en)). intros Hle%bytes_le_take_r.
    apply negb_true_iff in Hb. unfold past_end in Hb. cbn [snd] in Hb.
    rewrite Hle, andb_true_r in Hb. unbool. assert (len en = 6); [|lia].
    assert (en = (GetPartitionRange p).2) as -> by (by rewrite Hr). done. }
  rewrite ParsePartitionKey_MakePartitionKey in Hparse by done. by simplify_eq.
Qed.

(** One step of the export loop. *)
Definition export_step (p : Z) (kvs : gmap bytes bytes) (e : bytes * bytes) : gmap bytes bytes :=
  match ParsePartitionKey e.1 with
  | Ret (q, k) => if q =? p then <[k := e.2]> kvs else kvs
  | _ => kvs
  end.

Lemma export_loop_eq p en kvs l :
  export_loop p en kvs l =
  Ret (foldl (export_step p) kvs (take_while (λ e : bytes * bytes, negb (past_end e.1 en)) l)).
Proof.
  revert kvs. induction l as [|[key v] l IH]; intros kvs; [done|]. cbn [export_loop take_while fst].
  destruct (past_end key en); [done|]. cbn [negb foldl]. unfold export_step at 2. cbn [fst snd].
  pose proof (ParsePartitionKey_no_panic key).
  destruct (ParsePartitionKey key) as [[q k]| |]; [|by rewrite IH|done].
  destruct (q =? p); cbn [negb]; by rewrite IH.
Qed.

Lemma export_fold_lookup (p : Z) (l : list (bytes * bytes)) (m0 : gmap bytes bytes) (k : bytes) :
  is_u32 p → NoDup l.*1 →
  (∀ key v k', (key, v) ∈ l → ParsePartitionKey key = Ret (p, k') → key = MakePartitionKey p k') →
  foldl (export_step p) m0 l !! k =
  match list_to_map (M := gmap bytes bytes) l !! MakePartitionKey p k with
  | Some v => Some v | None => m0 !! k end.
Proof.
  intros Hp. revert m0. induction l as [|[key v] l IH]; intros m0 Hnd Hl; [done|].
  apply NoDup_cons in Hnd as [Hk Hnd]. cbn [foldl]. rewrite list_to_map_cons.
  rewrite IH; [|done|intros; eapply Hl; [by right|done]].
  destruct (decide (key = MakePartitionKey p k)) as [->|Hne].
  - rewrite lookup_insert_eq, not_elem_of_list_to_map_1 by done.
    unfold export_step. cbn [fst snd]. rewrite ParsePartitionKey_MakePartitionKey by done.
    by rewrite Z.eqb_refl, lookup_insert_eq.
  - rewrite lookup_insert_ne by done. case_match; [done|]. unfold export_step. cbn [fst snd].
    destruct (ParsePartitionKey key) as [[q k']| |] eqn:Hpk; [|done..].
    destruct (Z.eqb_spec q p) as [->|]; [|done]. apply lookup_insert_ne. intros ->.
    apply Hne. eapply Hl; [by left|done].
Qed.

Lemma range_scan_NoDup m p : NoDup (range_scan m p).*1.
Proof.
  eapply sublist_NoDup; [apply (sorted_from_NoDup m (GetPartitionRange p).1)|].
  apply fmap_sublist. unfold range_scan.
  induction (sorted_from m _) as [|e l IH]; [done|]. cbn [take_while].
  case_match; [by apply sublist_skip|apply sublist_nil_l].
Qed.

Section export_facts.
  Context {D : Type} `{EngineLaws D}.

Lemma Export_spec (pm : PartitionManager D) p data :
  is_u32 p → p ≠ 2 ^ 32 - 1 → db_healthy (PM_db pm) →
  PartitionManager_ExportPartitionData pm p = Ret data →
  PD_PartitionID data = p ∧ ∀ k, PD_KeyValues data !! k = db_view (PM_db pm) !! MakePartitionKey p k.
Proof.
  intros Hp Hmax Hh. unfold PartitionManager_ExportPartitionData.
  destruct (negb _); [done|]. destruct (GetPartitionRange p) as [st en] eqn:Hr.
  destruct (db_healthy_scan (PM_db pm) st Hh) as [l Hl]. rewrite Hl. apply db_scan_ok in Hl.
  cbn [fst]. rewrite export_loop_eq. cbn [mbind outcome_bind]. intros. simplify_eq. cbn.
  split; [done|]. intros k.
  set (m := db_view (PM_db pm)).
  assert (take_while (λ e : bytes * bytes, negb (past_end e.1 en)) (sorted_from m st) = range_scan m p) as ->.
  { unfold range_scan. by rewrite Hr. }
  rewrite export_fold_lookup; [|done|apply range_scan_NoDup|intros; by eapply range_scan_parse].
  rewrite lookup_empty. destruct (m !! MakePartitionKey p k) as [v|] eqn:E.
  - rewrite (elem_of_list_to_map_1 (range_scan m p) _ v); [done|apply range_scan_NoDup|].
    by apply range_scan_elem.
  - rewrite not_elem_of_list_to_map_1; [done|].
    intros [[key v] [Hk Hin]]%list_elem_of_fmap. cbn in Hk. subst key.
    apply range_scan_elem in Hin; [congruence|done..].
Qed.

Lemma batch_puts_lookup (p : Z) (kvs : list (bytes * bytes)) (m : gmap bytes bytes) (k : bytes) :
  is_u32 p → NoDup kvs.*1 →
  batch_apply m (map (λ i, WPut (Item_Key i) (Item_Value i))
    (map (λ '(key, value), {| Item_Key := MakePartitionKey p key; Item_Value := value |}) kvs))
    !! MakePartitionKey p k
  = match list_to_map (M := gmap bytes bytes) kvs !! k with
    | Some v => Some v | None => m !! MakePartitionKey p k end.
Proof.
  intros Hp. revert m. induction kvs as [|[k' v] kvs IH]; intros m Hnd; [done|].
  apply NoDup_cons in Hnd as [Hk Hnd]. rewrite list_to_map_cons. cbn [map].
  change (batch_apply ?m0 (?o :: ?ops)) with (batch_apply (wop_apply m0 o) ops).
  rewrite IH by done. cbn [wop_apply Item_Key Item_Value].
  destruct (decide (k' = k)) as [->|Hne].
  - by rewrite not_elem_of_list_to_map_1, !lookup_insert_eq by done.
  - rewrite (lookup_insert_ne _ k') by done. rewrite lookup_insert_ne; [done|].
    by intros [_ ?]%MakePartitionKey_inj.
Qed.

Lemma batch_puts_other (p : Z) (kvs : list (bytes * bytes)) (m : gmap bytes bytes) (key : bytes) :
  (∀ k, key ≠ MakePartitionKey p k) →
  batch_apply m (map (λ i, WPut (Item_Key i) (Item_Value i))
    (map (λ '(key, value), {| Item_Key := MakePartitionKey p key; Item_Value := value |}) kvs)) !! key
  = m !! key.
Proof.
  intros Hk. apply batch_apply_other. intros o Ho.
  apply list_elem_of_fmap in Ho as (i & -> & Hi).
  apply list_elem_of_fmap in Hi as ([k v] & -> & _). cbn. intros Heq. by apply (Hk k).
Qed.
End export_facts.

(** Moving a partition by export and import loses and invents nothing: when the
    import of an exported partition succeeds, every key of the partition that
    the source had has the source's value on the target, keys the source did not
    have are as they were, no key outside the partition changes, and the count
    returned is the number of keys.  (The JSON step between the two is the
    identity on the decoded document, which is what [encoding/json] does for
    keys and values that are valid UTF-8.) *)
Lemma Export_Import {D} `{EngineLaws D} (src dst dst' : PartitionManager D) p data n :
  is_u32 p → p ≠ 2 ^ 32 - 1 → db_healthy (PM_db src) →
  PartitionManager_ExportPartitionData src p = Ret data →
  PartitionManager_ImportPartitionData dst p (Some data) = (dst', Ret n) →
  n = Z.of_nat (size (PD_KeyValues data)) ∧
  PartitionManager_HasPartition dst' p = true ∧
  (∀ k, db_view (PM_db dst') !! MakePartitionKey p k =
    match db_view (PM_db src) !! MakePartitionKey p k with
    | Some v => Some v | None => db_view (PM_db dst) !! MakePartitionKey p k end) ∧
  (∀ key, (∀ k, key ≠ MakePartitionKey p k) →
    db_view (PM_db dst') !! key = db_view (PM_db dst) !! key).
Proof.
  intros Hp Hmax Hh Hex. destruct (Export_spec src p data Hp Hmax Hh Hex) as [Hpid Hkv].
  unfold PartitionManager_ImportPartitionData. rewrite Hpid, Z.eqb_refl. cbn [negb].
  set (pm1 := match PM_partitions dst !! p with Some _ => dst | None => _ end).
  assert (PM_db pm1 = PM_db dst ∧ PartitionManager_HasPartition pm1 p = true) as [Hdb Hhas].
  { unfold pm1. destruct (PM_partitions dst !! p) eqn:E; (split; [done|]);
      unfold PartitionManager_HasPartition; apply bool_decide_eq_true; [by rewrite E|].
    cbn. by rewrite lookup_insert_eq. }
  clearbody pm1. set (kvs := map_to_list (PD_KeyValues data)).
  assert (NoDup kvs.*1) as Hnd by apply NoDup_fst_map_to_list.
  assert (∀ k, list_to_map (M := gmap bytes bytes) kvs !! k = db_view (PM_db src) !! MakePartitionKey p k) as Hlk.
  { intros k. unfold kvs. rewrite list_to_map_to_list. apply Hkv. }
  assert (length kvs = size (PD_KeyValues data)) as Hsz by apply length_map_to_list.
  assert (len (map (λ '(key, value), {| Item_Key := MakePartitionKey p key; Item_Value := value |}) kvs)
    = Z.of_nat (size (PD_KeyValues data))) as Hlen by (unfold len; by rewrite length_map, Hsz).
  rewrite Hlen. destruct (Z.ltb_spec 0 (Z.of_nat (size (PD_KeyValues data)))).
  - unfold RocksDB_BatchPut. destruct (db_write _ _) as [d [e|]] eqn:Ew; intros; simplify_eq.
    apply db_write_ok in Ew. cbn [PM_db PM_set_db]. split_and!; [done..| |].
    + intros k. by rewrite Ew, Hdb, batch_puts_lookup, Hlk.
    + intros key Hk. by rewrite Ew, Hdb, batch_puts_other.
  - intros. simplify_eq. assert (PD_KeyValues data = ∅) as He by (apply map_size_empty_iff; lia).
    rewrite He in *. split_and!; [done..| |by intros; rewrite Hdb].
    intros k. by rewrite <- Hkv, lookup_empty, Hdb.
Qed.

Definition demo_pm (m : gmap bytes bytes) (parts : gmap Z Partition) : PartitionManager MemDB :=
  mkPartitionManager "n1" parts (mem_of m).

Lemma Export_Import_witness :
  let src := demo_pm {[ MakePartitionKey 5 (str_bytes "a") := str_bytes "1";
                        MakePartitionKey 6 (str_bytes "a") := str_bytes "2" ]}
               {[ 5 := mkPartition 5 NORMAL true 0 ]} in
  let dst := demo_pm {[ MakePartitionKey 6 (str_bytes "z") := str_bytes "3" ]} ∅ in
  ∃ data dst', PartitionManager_ExportPartitionData src 5 = Ret data ∧
    PartitionManager_ImportPartitionData dst 5 (Some data) = (dst', Ret 1) ∧
    db_view (PM_db dst') !! MakePartitionKey 5 (str_bytes "a") = Some (str_bytes "1").
Proof.
  intros src dst.
  destruct (PartitionManager_ExportPartitionData src 5) as [data| |] eqn:He;
    [|by vm_compute in He..].
  destruct (PartitionManager_ImportPartitionData dst 5 (Some data)) as [dst' r] eqn:Hi.
  assert (data = mkPartitionData 5 {[ str_bytes "a" := str_bytes "1" ]}) as Hd.
  { vm_compute in He. injection He as <-. vm_compute. reflexivity. }
  assert (r = Ret 1) as Hr.
  { rewrite Hd in Hi. apply (f_equal snd) in Hi. vm_compute in Hi. by rewrite <- Hi. }
  rewrite Hr in Hi. exists data, dst'. split_and!; [reflexivity|exact Hi|].
  assert (is_u32 5) as Hp by (split; done). assert (5 ≠ 2 ^ 32 - 1) as Hm by done.
  assert (db_healthy (PM_db src)) as Hh by (split; [constructor|done]).
  pose proof (Export_Import src dst dst' 5 data 1 Hp Hm Hh He Hi) as (_ & _ & Hk & _).
  rewrite Hk. vm_compute. reflexivity.
Defined.

(** ** Clearing *)

Section clear_facts.
  Context {D : Type} `{EngineLaws D}.

Lemma clear_loop_spec (d d' : D) keys o :
  clear_loop d keys = (d', o) →
  ∃ done_, done_ `prefix_of` keys ∧ (o = None → done_ = keys) ∧
    db_view d' = foldl (λ m k, delete k m) (db_view d) done_.
Proof.
  revert d. induction keys as [|k keys IH]; intros d; cbn [clear_loop].
  { intros. simplify_eq. by exists []. }
  destruct (RocksDB_Delete d k) as [d1 [e|]] eqn:Ed; intros Hl; apply RocksDB_Delete_spec in Ed.
  - simplify_eq. exists []. split_and!; [apply prefix_nil|done|done].
  - apply IH in Hl as (dn & Hp & Hn & Hv). exists (k :: dn). split_and!.
    + by apply prefix_cons.
    + intros Ho. by rewrite (Hn Ho).
    + cbn [foldl]. by rewrite Hv, Ed.
Qed.

Lemma foldl_delete_lookup (keys : list bytes) (m : gmap bytes bytes) (k : bytes) :
  foldl (λ m k, delete k m) m keys !! k = if decide (k ∈ keys) then None else m !! k.
Proof.
  rewrite <- (batch_apply_deletes m keys k). f_equal. revert m.
  induction keys as [|a keys IH]; intros m; [done|]. apply IH.
Qed.
End clear_facts.

(** Clearing a partition removes that partition's keys and nothing of any other
    partition: after a call that succeeds no key of the partition is left, and
    in every case, also when a delete fails half way, keys of other partitions
    and of the same partition that remain have their values. *)
Lemma Clear_exact {D} `{EngineLaws D} (pm pm' : PartitionManager D) p o :
  is_u32 p → p ≠ 2 ^ 32 - 1 → db_healthy (PM_db pm) →
  PartitionManager_ClearPartitionData pm p = (pm', o) →
  (∀ q k, is_u32 q → q ≠ p →
    db_view (PM_db pm') !! MakePartitionKey q k = db_view (PM_db pm) !! MakePartitionKey q k) ∧
  (o = None → ∀ k, db_view (PM_db pm') !! MakePartitionKey p k = None).
Proof.
  intros Hp Hmax Hh. unfold PartitionManager_ClearPartitionData.
  destruct (GetPartitionRange p) as [st en] eqn:Hr.
  destruct (db_healthy_scan (PM_db pm) st Hh) as [l Hl]. rewrite Hl. apply db_scan_ok in Hl.
  cbn [fst]. destruct (clear_loop _ _) as [d err] eqn:Hc. intros. simplify_eq.
  cbn [PM_db PM_set_db]. set (m := db_view (PM_db pm)) in *.
  assert (clear_keys en (sorted_from m st) = (range_scan m p).*1) as Hkeys.
  { unfold clear_keys, range_scan. by rewrite Hr. }
  rewrite Hkeys in Hc. apply clear_loop_spec in Hc as (dn & [t Ht] & Hn & Hv). fold m in Hv. split.
  - intros q k Hq Hne. rewrite Hv, foldl_delete_lookup, decide_False; [done|]. intros Hin.
    assert (MakePartitionKey q k ∈ (range_scan m p).*1) as Hin'.
    { rewrite Ht. apply elem_of_app. by left. }
    apply list_elem_of_fmap in Hin' as [[key v] [Hk Hs]]. cbn in Hk. subst key.
    by apply range_scan_other in Hs.
  - intros Ho k. rewrite Hv, (Hn Ho), foldl_delete_lookup. case_decide as Hin; [done|].
    destruct (m !! MakePartitionKey p k) as [v|] eqn:E; [|done]. exfalso. apply Hin.
    apply list_elem_of_fmap. exists (MakePartitionKey p k, v). split; [done|].
    by apply range_scan_elem.
Qed.

Lemma Clear_exact_witness :
  let pm := demo_pm {[ MakePartitionKey 5 (str_bytes "a") := str_bytes "1";
                       MakePartitionKey 6 (str_bytes "a") := str_bytes "2" ]} ∅ in
  let r := PartitionManager_ClearPartitionData pm 5 in
  r.2 = None ∧
  db_view (PM_db r.1) !! MakePartitionKey 5 (str_bytes "a") = None ∧
  db_view (PM_db r.1) !! MakePartitionKey 6 (str_bytes "a") = Some (str_bytes "2").
Proof.
  intros pm r. assert (r.2 = None) as Hn by (vm_compute; reflexivity). split; [exact Hn|].
  assert (is_u32 5) as Hp by (split; done). assert (is_u32 6) as Hq by (split; done).
  assert (5 ≠ 2 ^ 32 - 1) as Hm by done. assert (6 ≠ 5) as Hne by done.
  assert (db_healthy (PM_db pm)) as Hh by (split; [constructor|done]).
  pose proof (Clear_exact pm r.1 5 r.2 Hp Hm Hh (surjective_pairing r)) as [Ho Hc].
  split; [exact (Hc Hn (str_bytes "a"))|].
  rewrite (Ho 6 (str_bytes "a") Hq Hne). vm_compute. reflexivity.
Defined.
