(* ===== verification/Replicator.v ===== *)
(** * The command log replicator

    [CommandLogReplicator] of [src/pkg/storage/command_log_replicator.go]: it
    appends the commands of a partition to its log and ships the flushed ones to
    the replica in batches, keeping the last shipped sequence number in memory
    and in a checkpoint file.

    The replica is reached over gRPC.  [Network] is the interface: what a
    [Replicate] call to an address does to the rest of the world and the reply,
    [None] standing for a transport error. *)

From S2P Require Import Prelude Engine CommandEntry CommandLog Replay Proto.

(** ** The network *)

Class Network (N : Type) :=
  rpc_Replicate : N → string → ReplicateRequest → N * option ReplicateResponse.

(** ** State *)

Definition CLBatchSize : Z := 500.

Record CommandLogReplicator := mkReplicator {
  CLR_partitionID : Z;
  CLR_replicaAddr : string;
  CLR_isPrimary : bool;
  CLR_commandLog : CommandLog;
  CLR_replicatedSeq : Z;
  CLR_conn : bool;                 (** [replicaConn] is not nil *)
  CLR_client : option string;      (** [replicaClient], by the address it was dialled at *)
  CLR_checkpoint : option bytes;   (** the checkpoint file *)
  CLR_running : bool               (** [replicationLoop] was started *)
}.

Definition CLR_set_log (clr : CommandLogReplicator) (cl : CommandLog) : CommandLogReplicator :=
  mkReplicator (CLR_partitionID clr) (CLR_replicaAddr clr) (CLR_isPrimary clr) cl
    (CLR_replicatedSeq clr) (CLR_conn clr) (CLR_client clr) (CLR_checkpoint clr) (CLR_running clr).
Definition CLR_set_conn (clr : CommandLogReplicator) (conn : bool) (client : option string) :
    CommandLogReplicator :=
  mkReplicator (CLR_partitionID clr) (CLR_replicaAddr clr) (CLR_isPrimary clr) (CLR_commandLog clr)
    (CLR_replicatedSeq clr) conn client (CLR_checkpoint clr) (CLR_running clr).
Definition CLR_set_replicated (clr : CommandLogReplicator) (seq : Z) (ck : option bytes) :
    CommandLogReplicator :=
  mkReplicator (CLR_partitionID clr) (CLR_replicaAddr clr) (CLR_isPrimary clr) (CLR_commandLog clr)
    seq (CLR_conn clr) (CLR_client clr) ck (CLR_running clr).
Definition CLR_set_running (clr : CommandLogReplicator) (r : bool) : CommandLogReplicator :=
  mkReplicator (CLR_partitionID clr) (CLR_replicaAddr clr) (CLR_isPrimary clr) (CLR_commandLog clr)
    (CLR_replicatedSeq clr) (CLR_conn clr) (CLR_client clr) (CLR_checkpoint clr) r.

(** The outcome of the calls to the world during one round. *)
Record SyncEnv := mkSyncEnv {
  se_opens : Z → bool;       (** [os.Open] of a log file *)
  se_dial_ok : bool;
  se_mkdir_ok : bool;
  se_write_ok : bool;
  se_rename_ok : bool
}.

(** ** Checkpoints *)

Definition loadCheckpoint (file : option bytes) : Z :=
  match file with
  | None => 0
  | Some data => match ParseUint data with Some seq => seq | None => 0 end
  end.

(** [saveCheckpoint]: the file after the temporary file and the rename. *)
Definition saveCheckpoint (file : option bytes) (env : SyncEnv) (seq : Z) : option bytes :=
  if negb (se_mkdir_ok env) then file
  else if negb (se_write_ok env) then file
  else if negb (se_rename_ok env) then file
  else Some (FormatUint seq).

(** ** Operations *)

Definition NewCommandLogReplicator (mkdir_ok : bool) (opens : Z → bool) (partitionID : Z) (isPrimary : bool)
    (replicaAddr : string) (dir : list LogFile) (checkpoint : option bytes) (env : Env) :
    outcome CommandLogReplicator :=
  commandLog ← MakeCommandLog mkdir_ok opens partitionID dir env;
  Ret (mkReplicator partitionID replicaAddr isPrimary commandLog (loadCheckpoint checkpoint)
        false None checkpoint false).

Definition CommandLogReplicator_Start (clr : CommandLogReplicator) : CommandLogReplicator :=
  if negb (CLR_isPrimary clr) || bool_decide (CLR_replicaAddr clr = "") then clr
  else CLR_set_running clr true.

Definition CommandLogReplicator_AppendPut (clr : CommandLogReplicator) (env : Env) (key value : bytes) :
    CommandLogReplicator * outcome Z :=
  let '(cl, r) := CommandLog_AppendPut (CLR_commandLog clr) env key value in (CLR_set_log clr cl, r).
Definition CommandLogReplicator_AppendDelete (clr : CommandLogReplicator) (env : Env) (key : bytes) :
    CommandLogReplicator * outcome Z :=
  let '(cl, r) := CommandLog_AppendDelete (CLR_commandLog clr) env key in (CLR_set_log clr cl, r).
Definition CommandLogReplicator_AppendFieldBatch (clr : CommandLogReplicator) (env : Env)
    (batchData : bytes) : CommandLogReplicator * outcome Z :=
  let '(cl, r) := CommandLog_AppendFieldBatch (CLR_commandLog clr) env batchData in
  (CLR_set_log clr cl, r).

Definition CommandLogReplicator_GetReplicationLag (clr : CommandLogReplicator) : Z :=
  u64 (CL_currentSeq (CLR_commandLog clr) - CLR_replicatedSeq clr).

Definition CommandLogReplicator_ReplayTo {D} `{Engine D} (opens : Z → bool)
    (clr : CommandLogReplicator) (db : D) (fromSeq : Z) : D * Z * option goerr :=
  CommandLog_ReplayTo opens (CLR_commandLog clr) db fromSeq.

Definition connectToReplica (clr : CommandLogReplicator) (env : SyncEnv) :
    CommandLogReplicator * option goerr :=
  if CLR_conn clr then (clr, None)
  else if se_dial_ok env then (CLR_set_conn clr true (Some (CLR_replicaAddr clr)), None)
  else (clr, Some (Errorf "dial failed")).

(** The conversion of one entry in [sendBatch]; the zero value of the enum is
    [REP_OP_PUT], which an unknown command type gets. *)
Definition entry_op (cmdType : byte) : ReplicationOpType :=
  if bool_decide (cmdType = CmdTypePut) then REP_OP_PUT
  else if bool_decide (cmdType = CmdTypeDelete) then REP_OP_DELETE
  else if bool_decide (cmdType = CmdTypeFieldBatch) then REP_OP_FIELD_BATCH
  else REP_OP_PUT.

Definition pb_entry (entry : CommandEntry) : ReplicationEntry :=
  mkReplicationEntry (i64 (CE_Sequence entry)) (CE_Key entry) (CE_Value entry)
    (bool_decide (CE_CmdType entry = CmdTypeDelete)) (CE_Timestamp entry)
    (entry_op (CE_CmdType entry)).

Definition batch_request (partitionID : Z) (entries : list CommandEntry) : ReplicateRequest :=
  mkReplicateRequest partitionID (map pb_entry entries)
    (foldl (λ m e, if m <? i64 (CE_Sequence e) then i64 (CE_Sequence e) else m) 0 entries).

Section Sync.
  Context {N : Type} `{Network N}.

(** [sendBatch]: a transport error is returned, a rejection by the replica is
    only logged. *)
Definition sendBatch (clr : CommandLogReplicator) (net : N) (entries : list CommandEntry) :
    N * option goerr :=
  match CLR_client clr with
  | None => (net, None)
  | Some addr =>
      match rpc_Replicate net addr (batch_request (CLR_partitionID clr) entries) with
      | (net, None) => (net, Some (Errorf "rpc failed"))
      | (net, Some resp) => (net, None)
      end
  end.

Definition syncToReplica (clr : CommandLogReplicator) (net : N) (env : SyncEnv) :
    outcome (CommandLogReplicator * N) :=
  let currentSeq := CL_currentSeq (CLR_commandLog clr) in
  let replicatedSeq := CLR_replicatedSeq clr in
  if currentSeq <=? replicatedSeq then Ret (clr, net)
  else
    match connectToReplica clr env with
    | (clr, Some _) => Ret (clr, net)
    | (clr, None) =>
        match CommandLog_ReadFrom (se_opens env) (CLR_commandLog clr)
                (u64 (replicatedSeq + 1)) CLBatchSize with
        | Panic => Panic
        | Err _ => Ret (clr, net)
        | Ret entries =>
            match last entries with
            | None => Ret (clr, net)
            | Some lastEntry =>
                match sendBatch clr net entries with
                | (net, Some _) =>
                    Ret ((if CLR_conn clr then CLR_set_conn clr false None else clr), net)
                | (net, None) =>
                    let lastSeq := CE_Sequence lastEntry in
                    Ret (CLR_set_replicated clr lastSeq
                           (saveCheckpoint (CLR_checkpoint clr) env lastSeq), net)
                end
            end
        end
    end.

(** [Stop]: the replication loop makes a last round before it ends; then the log
    and the connection are closed. *)
Definition CommandLogReplicator_Stop (clr : CommandLogReplicator) (net : N) (env : SyncEnv)
    (lenv : Env) : outcome (CommandLogReplicator * N) :=
  '(clr, net) ← (if CLR_running clr then syncToReplica clr net env else Ret (clr, net));
  let clr := CLR_set_running clr false in
  let clr := CLR_set_log clr (CommandLog_Close (CLR_commandLog clr) lenv) in
  Ret (CLR_set_conn clr false (CLR_client clr), net).

End Sync.

Definition UpdateReplicaAddr (clr : CommandLogReplicator) (addr : string) : CommandLogReplicator :=
  if bool_decide (CLR_replicaAddr clr = addr) then clr
  else
    let clr := mkReplicator (CLR_partitionID clr) addr (CLR_isPrimary clr) (CLR_commandLog clr)
      (CLR_replicatedSeq clr) (CLR_conn clr) (CLR_client clr) (CLR_checkpoint clr) (CLR_running clr) in
    if CLR_conn clr then CLR_set_conn clr false None else clr.

(** A restart resumes where replication stopped: the checkpoint written after a
    batch reads back as the batch's last sequence number, and when any step of
    writing it fails the previous checkpoint is read back unchanged. *)
Lemma checkpoint_roundtrip file env seq :
  is_u64 seq →
  loadCheckpoint (saveCheckpoint file env seq) =
  if se_mkdir_ok env && se_write_ok env && se_rename_ok env then seq else loadCheckpoint file.
Proof.
  intros Hs. unfold saveCheckpoint.
  destruct (se_mkdir_ok env), (se_write_ok env), (se_rename_ok env); try done.
  cbn [negb andb loadCheckpoint]. by rewrite ParseUint_FormatUint.
Qed.

Lemma checkpoint_roundtrip_witness :
  loadCheckpoint (saveCheckpoint None (mkSyncEnv (λ _, true) true true true true) (2 ^ 64 - 1))
  = 2 ^ 64 - 1.
Proof.
  assert (is_u64 (2 ^ 64 - 1)) as Hs by (split; done).
  exact (checkpoint_roundtrip None (mkSyncEnv (λ _, true) true true true true) (2 ^ 64 - 1) Hs).
Defined.
