(* ===== verification/StorageServer.v ===== *)
(** * The storage server

    The request handlers of [src/pkg/storage/server.go]: reads and writes of
    regular keys and of fields, the replica side of replication, the node lease,
    and the reaction to a new route table.

    The server's database is shared with the partition manager and with the
    [FieldStorage] values the handlers make for a request, so there is one engine
    state, inside the partition manager.  A partition's command log outlives its
    replicator: [S_disk] holds the log directory and the checkpoint file of the
    partitions that have no replicator. *)

From S2P Require Import Prelude Engine Keys FieldCodec FieldStorage CommandEntry CommandLog Replay Proto Partitions Replicator.

Record Disk := mkDisk { disk_dir : list LogFile; disk_checkpoint : option bytes }.
Definition empty_disk : Disk := mkDisk [] None.

Section Server.
  Context {D : Type} `{Engine D}.

Record Server := mkServer {
  S_pm : PartitionManager D;
  S_etcd : bool;                               (** [etcdClient] is not nil *)
  S_nodeLease : Z;
  S_nodeLeaseLost : bool;
  S_replicators : gmap Z CommandLogReplicator;
  S_disk : gmap Z Disk
}.

Definition S_set_pm (s : Server) (pm : PartitionManager D) : Server :=
  mkServer pm (S_etcd s) (S_nodeLease s) (S_nodeLeaseLost s) (S_replicators s) (S_disk s).
Definition S_set_lease (s : Server) (lease : Z) (lost : bool) : Server :=
  mkServer (S_pm s) (S_etcd s) lease lost (S_replicators s) (S_disk s).
Definition S_set_replicators (s : Server) (m : gmap Z CommandLogReplicator) (disk : gmap Z Disk) : Server :=
  mkServer (S_pm s) (S_etcd s) (S_nodeLease s) (S_nodeLeaseLost s) m disk.
Definition S_set_replicator (s : Server) (pid : Z) (clr : CommandLogReplicator) : Server :=
  S_set_replicators s (<[pid := clr]> (S_replicators s)) (S_disk s).
Definition S_set_fs (s : Server) (fs : FieldStorage D) : Server :=
  S_set_pm s (PM_set_db (S_pm s) (FS_db fs)).
Definition S_db (s : Server) : D := PM_db (S_pm s).

(** ** The node lease *)

Definition Server_canWrite (s : Server) : bool :=
  if negb (S_etcd s) then false
  else negb (S_nodeLeaseLost s) && negb (S_nodeLease s =? 0).

(** [acquireNodeLease]: what etcd's [Grant] and [KeepAlive] return. *)
Definition Server_acquireNodeLease (s : Server) (grant : option Z) (keepalive_ok : bool) :
    Server * option goerr :=
  if negb (S_etcd s) then (s, Some (Errorf "etcd client not initialized"))
  else
    match grant with
    | None => (s, Some (Errorf "failed to create node lease"))
    | Some leaseID =>
        if negb keepalive_ok then (s, Some (Errorf "failed to start keepalive"))
        else (S_set_lease s leaseID false, None)
    end.

(** What [monitorNodeLease] receives: the channel was closed, a nil response, or
    a renewal. *)
Inductive keepalive := KAClosed | KANil | KARenewed.

Definition Server_monitorNodeLease (s : Server) (ka : keepalive) : Server :=
  match ka with
  | KAClosed | KANil => S_set_lease s (S_nodeLease s) true
  | KARenewed => s
  end.

Definition Server_releaseAllLeases (s : Server) : Server := S_set_lease s 0 true.

(** ** Replication queues *)

Definition Server_enqueueReplication (s : Server) (env : Env) (partitionID : Z) (key value : bytes)
    (isDelete : bool) : Server :=
  match S_replicators s !! partitionID with
  | None => s
  | Some replicator =>
      let '(replicator, _) :=
        if isDelete then CommandLogReplicator_AppendDelete replicator env key
        else CommandLogReplicator_AppendPut replicator env key value in
      S_set_replicator s partitionID replicator
  end.

Definition Server_enqueueFieldBatchReplication (s : Server) (env : Env) (partitionID : Z)
    (batchData : bytes) : Server :=
  match S_replicators s !! partitionID with
  | None => s
  | Some replicator =>
      let '(replicator, _) := CommandLogReplicator_AppendFieldBatch replicator env batchData in
      S_set_replicator s partitionID replicator
  end.

(** ** Reads *)

(** A response of [Get] and [GetField]: value, found, error. *)
Definition read_response : Type := bytes * bool * ErrorCode.

Definition read_result (r : outcome (option bytes)) : outcome read_response :=
  match r with
  | Panic => Panic
  | Err _ => Ret ([], false, INTERNAL_ERROR)
  | Ret None => Ret ([], false, OK)
  | Ret (Some value) => Ret (value, true, OK)
  end.

Definition Server_Get (s : Server) (key : bytes) (partitionID : Z) : outcome read_response :=
  if negb (PartitionManager_HasPartition (S_pm s) partitionID)
  then Ret ([], false, PARTITION_NOT_FOUND)
  else read_result (PartitionManager_Get (S_pm s) key partitionID).

Definition Server_GetField (s : Server) (pk fieldName : bytes) (partitionID : Z) :
    outcome read_response :=
  if negb (PartitionManager_HasPartition (S_pm s) partitionID)
  then Ret ([], false, PARTITION_NOT_FOUND)
  else read_result (FieldStorage_GetField (mkFieldStorage (S_db s) partitionID) pk fieldName).

Definition Server_GetAllFields (s : Server) (pk : bytes) (partitionID : Z) :
    outcome (gmap bytes bytes * bool * ErrorCode) :=
  if negb (PartitionManager_HasPartition (S_pm s) partitionID)
  then Ret (∅, false, PARTITION_NOT_FOUND)
  else
    match FieldStorage_GetAllFields (mkFieldStorage (S_db s) partitionID) pk with
    | Panic => Panic
    | Err _ => Ret (∅, false, INTERNAL_ERROR)
    | Ret fields =>
        if bool_decide (size fields = 0%nat) then Ret (∅, false, OK)
        else Ret (fields, true, OK)
    end.

(** ** Writes *)

(** The four checks every write handler starts with, in their order: the lease,
    the partition, the role, the epoch. *)
Definition write_guard (s : Server) (partitionID epoch : Z) : option ErrorCode :=
  if negb (Server_canWrite s) then Some INTERNAL_ERROR
  else if negb (PartitionManager_HasPartition (S_pm s) partitionID) then Some PARTITION_NOT_FOUND
  else if negb (PartitionManager_IsPrimary (S_pm s) partitionID) then Some NOT_PRIMARY
  else
    match PartitionManager_ValidateEpoch (S_pm s) partitionID epoch with
    | Some _ => Some EPOCH_FENCED
    | None => None
    end.

(** A write response: success and error. *)
Definition write_response : Type := bool * ErrorCode.

Definition Server_Put (s : Server) (env : Env) (key value : bytes) (partitionID epoch : Z) :
    outcome (Server * write_response) :=
  match write_guard s partitionID epoch with
  | Some code => Ret (s, (false, code))
  | None =>
      '(pm, err) ← PartitionManager_Put (S_pm s) key value partitionID;
      let s := S_set_pm s pm in
      match err with
      | Some _ => Ret (s, (false, INTERNAL_ERROR))
      | None => Ret (Server_enqueueReplication s env partitionID key value false, (true, OK))
      end
  end.

Definition Server_Delete (s : Server) (env : Env) (key : bytes) (partitionID epoch : Z) :
    outcome (Server * write_response) :=
  match write_guard s partitionID epoch with
  | Some code => Ret (s, (false, code))
  | None =>
      '(pm, err) ← PartitionManager_Delete (S_pm s) key partitionID;
      let s := S_set_pm s pm in
      match err with
      | Some _ => Ret (s, (false, INTERNAL_ERROR))
      | None => Ret (Server_enqueueReplication s env partitionID key [] true, (true, OK))
      end
  end.

Definition Server_SetFields (s : Server) (env : Env) (pk : bytes) (fields : list FieldUpdate)
    (partitionID epoch : Z) : outcome (Server * write_response) :=
  match write_guard s partitionID epoch with
  | Some code => Ret (s, (false, code))
  | None =>
      let fb := mkFieldBatch partitionID pk fields in
      let '(fs, err) := FieldStorage_ApplyFieldBatch (mkFieldStorage (S_db s) partitionID) fb in
      let s := S_set_fs s fs in
      match err with
      | Some _ => Ret (s, (false, INTERNAL_ERROR))
      | None =>
          Ret (Server_enqueueFieldBatchReplication s env partitionID (FieldBatch_Encode fb), (true, OK))
      end
  end.

Definition Server_DeleteField (s : Server) (env : Env) (pk fieldName : bytes) (partitionID epoch : Z) :
    outcome (Server * write_response) :=
  match write_guard s partitionID epoch with
  | Some code => Ret (s, (false, code))
  | None =>
      let '(fs, err) := FieldStorage_DeleteField (mkFieldStorage (S_db s) partitionID) pk fieldName in
      let s := S_set_fs s fs in
      match err with
      | Some _ => Ret (s, (false, INTERNAL_ERROR))
      | None =>
          let fb := mkFieldBatch partitionID pk [mkFieldUpdate fieldName [] true] in
          Ret (Server_enqueueFieldBatchReplication s env partitionID (FieldBatch_Encode fb), (true, OK))
      end
  end.

(** [BatchPut]; the [i]-th append reads the clock and the disk of [envs i]. *)
Definition Server_BatchPut (s : Server) (envs : nat → Env) (items : list KeyValueItem)
    (partitionID epoch : Z) : outcome (Server * write_response) :=
  match write_guard s partitionID epoch with
  | Some code => Ret (s, (false, code))
  | None =>
      '(pm, err) ← PartitionManager_BatchPut (S_pm s) items partitionID;
      let s := S_set_pm s pm in
      match err with
      | Some _ => Ret (s, (false, INTERNAL_ERROR))
      | None =>
          let s := foldl (λ s '(i, item),
            Server_enqueueReplication s (envs i) partitionID (Item_Key item) (Item_Value item) false)
            s (zip (seq 0 (length items)) items) in
          Ret (s, (true, OK))
      end
  end.

(** ** The replica side *)

(** One entry of a [Replicate] request: the new state and the error. *)
Definition replicate_entry (s : Server) (partitionID : Z) (entry : ReplicationEntry) :
    outcome (Server * option goerr) :=
  match RE_OpType entry with
  | REP_OP_DELETE =>
      '(pm, err) ← PartitionManager_Delete (S_pm s) (RE_Key entry) partitionID;
      Ret (S_set_pm s pm, err)
  | REP_OP_FIELD_BATCH =>
      match DecodeFieldBatch (RE_Value entry) with
      | Panic => Panic
      | Err e => Ret (s, Some e)
      | Ret fb =>
          let pid := if FB_PartitionID fb =? 0 then partitionID else FB_PartitionID fb in
          let '(fs, err) := FieldStorage_ApplyFieldBatch (mkFieldStorage (S_db s) pid) fb in
          Ret (S_set_fs s fs, err)
      end
  | REP_OP_PUT =>
      '(pm, err) ← PartitionManager_Put (S_pm s) (RE_Key entry) (RE_Value entry) partitionID;
      Ret (S_set_pm s pm, err)
  | REP_OP_UNNAMED _ =>
      if RE_IsDelete entry then
        '(pm, err) ← PartitionManager_Delete (S_pm s) (RE_Key entry) partitionID;
        Ret (S_set_pm s pm, err)
      else
        '(pm, err) ← PartitionManager_Put (S_pm s) (RE_Key entry) (RE_Value entry) partitionID;
        Ret (S_set_pm s pm, err)
  end.

Fixpoint replicate_loop (s : Server) (partitionID lastApplied : Z) (entries : list ReplicationEntry) :
    outcome (Server * ReplicateResponse) :=
  match entries with
  | [] => Ret (s, mkReplicateResponse true lastApplied "")
  | entry :: rest =>
      '(s, err) ← replicate_entry s partitionID entry;
      match err with
      | Some e => Ret (s, mkReplicateResponse false lastApplied "error")
      | None => replicate_loop s partitionID (RE_Offset entry) rest
      end
  end.

Definition Server_Replicate (s : Server) (req : ReplicateRequest) :
    outcome (Server * ReplicateResponse) :=
  if negb (PartitionManager_HasPartition (S_pm s) (RQ_PartitionId req))
  then Ret (s, mkReplicateResponse false 0 "partition not found")
  else replicate_loop s (RQ_PartitionId req) 0 (RQ_Entries req).

(** [GetReplicationStatus]: (isPrimary, currentOffset, committedOffset, lag, replicaAddr). *)
Definition Server_GetReplicationStatus (s : Server) (partitionID : Z) : bool * Z * Z * Z * string :=
  match S_replicators s !! partitionID with
  | None => (false, 0, 0, 0, "")
  | Some replicator =>
      (CLR_isPrimary replicator, i64 (CL_currentSeq (CLR_commandLog replicator)),
       i64 (CLR_replicatedSeq replicator), i64 (CommandLogReplicator_GetReplicationLag replicator),
       CLR_replicaAddr replicator)
  end.

Definition Server_RecoverPartition (opens : Z → bool) (s : Server) (partitionID : Z) :
    Server * option goerr :=
  match S_replicators s !! partitionID with
  | None => (s, Some (Errorf "no replicator found"))
  | Some replicator =>
      let '(d, _, err) := CommandLogReplicator_ReplayTo opens replicator (S_db s) 0 in
      (S_set_pm s (PM_set_db (S_pm s) d),
       match err with Some _ => Some (Errorf "failed to replay command log") | None => None end)
  end.

(** ** Following the route table *)

Section Route.
  Context {N : Type} `{Network N}.

(** The world during an update: what opening a log, stopping and syncing a
    replicator find. *)
Record RouteEnv := mkRouteEnv { ro_open : Env; ro_close : Env; ro_sync : SyncEnv }.

(** [Stop] leaves the log directory and the checkpoint on disk. *)
Definition disk_of (clr : CommandLogReplicator) : Disk :=
  mkDisk (CL_dir (CLR_commandLog clr)) (CLR_checkpoint clr).

(** [initializeReplicator]: when the new replicator cannot be made, the stopped
    one stays in the map. *)
Definition Server_initializeReplicator (s : Server) (net : N) (env : RouteEnv) (partitionID : Z)
    (isPrimary : bool) (replicaAddr : string) : outcome (Server * N) :=
  '(s, net) ←
    match S_replicators s !! partitionID with
    | Some existing =>
        '(clr, net) ← CommandLogReplicator_Stop existing net (ro_sync env) (ro_close env);
        Ret (S_set_replicator s partitionID clr, net)
    | None => Ret (s, net)
    end;
  let disk :=
    match S_replicators s !! partitionID with
    | Some clr => disk_of clr
    | None => default empty_disk (S_disk s !! partitionID)
    end in
  match NewCommandLogReplicator (se_mkdir_ok (ro_sync env)) (se_opens (ro_sync env)) partitionID isPrimary replicaAddr
          (disk_dir disk) (disk_checkpoint disk) (ro_open env) with
  | Panic => Panic
  | Err _ => Ret (s, net)
  | Ret replicator =>
      Ret (S_set_replicator s partitionID (CommandLogReplicator_Start replicator), net)
  end.

Definition Server_stopReplicator (s : Server) (net : N) (env : RouteEnv) (partitionID : Z) :
    outcome (Server * N) :=
  match S_replicators s !! partitionID with
  | None => Ret (s, net)
  | Some replicator =>
      '(clr, net) ← CommandLogReplicator_Stop replicator net (ro_sync env) (ro_close env);
      Ret (S_set_replicators s (delete partitionID (S_replicators s))
             (<[partitionID := disk_of clr]> (S_disk s)), net)
  end.

(** The first loop of [updatePartitionsFromRoute]. *)
Fixpoint update_rows (s : Server) (net : N) (env : RouteEnv) (myAddr : string)
    (shouldExist : gset Z) (partitions : list PartitionInfo) : outcome (Server * N * gset Z) :=
  match partitions with
  | [] => Ret (s, net, shouldExist)
  | p :: rest =>
      let isPrimary := bool_decide (PI_Primary p = myAddr) in
      let isReplica := bool_decide (PI_Replica p = myAddr) in
      if isPrimary || isReplica then
        let shouldExist := {[ PI_PartitionId p ]} ∪ shouldExist in
        if negb (PartitionManager_HasPartition (S_pm s) (PI_PartitionId p)) then
          match PartitionManager_AddPartitionWithEpoch (S_pm s) (PI_PartitionId p) isPrimary (PI_Epoch p) with
          | (pm, Some _) => update_rows (S_set_pm s pm) net env myAddr shouldExist rest
          | (pm, None) =>
              '(s, net) ← Server_initializeReplicator (S_set_pm s pm) net env (PI_PartitionId p) isPrimary
                            (if isPrimary then PI_Replica p else "");
              update_rows s net env myAddr shouldExist rest
          end
        else
          let '(pm, _) := PartitionManager_UpdatePartitionEpoch (S_pm s) (PI_PartitionId p) (PI_Epoch p) in
          update_rows (S_set_pm s pm) net env myAddr shouldExist rest
      else update_rows s net env myAddr shouldExist rest
  end.

(** The second loop: partitions the table no longer gives this node. *)
Fixpoint remove_rows (s : Server) (net : N) (env : RouteEnv) (shouldExist : gset Z)
    (current : list Z) : outcome (Server * N) :=
  match current with
  | [] => Ret (s, net)
  | pid :: rest =>
      if bool_decide (pid ∈ shouldExist) then remove_rows s net env shouldExist rest
      else
        '(s, net) ← Server_stopReplicator s net env pid;
        let '(pm, _) := PartitionManager_RemovePartition (S_pm s) pid in
        remove_rows (S_set_pm s pm) net env shouldExist rest
  end.

Definition Server_updatePartitionsFromRoute (s : Server) (net : N) (env : RouteEnv)
    (partitions : list PartitionInfo) (myAddr : string) : outcome (Server * N) :=
  '(s, net, shouldExist) ← update_rows s net env myAddr ∅ partitions;
  remove_rows s net env shouldExist (PartitionManager_ListPartitions (S_pm s)).

End Route.
End Server.

Arguments Server D : clear implicits.
Arguments mkServer {D} _ _ _ _ _ _.

(** ** Admission and effect of writes *)

Inductive write_req :=
  | RPut (key value : bytes)
  | RDelete (key : bytes)
  | RSetFields (pk : bytes) (fields : list FieldUpdate)
  | RDeleteField (pk fieldName : bytes)
  | RBatchPut (items : list KeyValueItem).

Definition Server_write {D} `{Engine D} (s : Server D) (envs : nat → Env) (req : write_req)
    (partitionID epoch : Z) : outcome (Server D * write_response) :=
  match req with
  | RPut key value => Server_Put s (envs 0%nat) key value partitionID epoch
  | RDelete key => Server_Delete s (envs 0%nat) key partitionID epoch
  | RSetFields pk fields => Server_SetFields s (envs 0%nat) pk fields partitionID epoch
  | RDeleteField pk f => Server_DeleteField s (envs 0%nat) pk f partitionID epoch
  | RBatchPut items => Server_BatchPut s envs items partitionID epoch
  end.

(** The engine operations a request stands for. *)
Definition req_ops (p : Z) (req : write_req) : list wop :=
  match req with
  | RPut key value => [WPut (MakePartitionKey p key) value]
  | RDelete key => [WDelete (MakePartitionKey p key)]
  | RSetFields pk fields => map (update_wop p pk) fields
  | RDeleteField pk f => [WDelete (MakeFieldKey p pk f)]
  | RBatchPut items => map (λ i, WPut (MakePartitionKey p (Item_Key i)) (Item_Value i)) items
  end.

(** The partition states in which a request is executed: field requests do not
    look at the status. *)
Definition req_status (req : write_req) (st : PartitionStatus) : Prop :=
  match req with
  | RPut _ _ | RBatchPut _ => st = NORMAL ∨ st = MIGRATING_IN
  | RDelete _ => st = NORMAL
  | RSetFields _ _ | RDeleteField _ _ => True
  end.

(** This node may execute writes of the partition in this epoch. *)
Definition may_write {D} (s : Server D) (p epoch : Z) (part : Partition) : Prop :=
  S_etcd s = true ∧ S_nodeLeaseLost s = false ∧ S_nodeLease s ≠ 0 ∧
  PM_partitions (S_pm s) !! p = Some part ∧ P_IsPrime part = true ∧ P_Epoch part = epoch.

Section write_facts.
  Context {D : Type} `{EngineLaws D}.
Implicit Types (s : Server D) (pm : PartitionManager D).

Lemma write_guard_None s p epoch :
  write_guard s p epoch = None ↔ ∃ part, may_write s p epoch part.
Proof.
  unfold write_guard, may_write, Server_canWrite, PartitionManager_HasPartition,
    PartitionManager_IsPrimary, PartitionManager_ValidateEpoch. split.
  - intros Hg. destruct (S_etcd s), (S_nodeLeaseLost s), (Z.eqb_spec (S_nodeLease s) 0);
      try done; cbn in Hg.
    destruct (PM_partitions (S_pm s) !! p) as [part|]; [|done]. cbn in Hg.
    destruct (P_IsPrime part) eqn:Hpr; [|done]. cbn in Hg.
    destruct (Z.eqb_spec epoch (P_Epoch part)); [|done]. exists part. by split_and!.
  - intros (part & -> & -> & Hl & -> & -> & ->). rewrite (proj2 (Z.eqb_neq _ _)) by done. cbn.
    by rewrite Z.eqb_refl.
Qed.

Lemma has_partition_true pm p part :
  PM_partitions pm !! p = Some part → PartitionManager_HasPartition pm p = true.
Proof. intros E. apply bool_decide_eq_true. by rewrite E. Qed.

(** The partition manager's writes, with the status checks decided. *)
Definition pm_result pm (p : Z) (ops : list wop) (r : PartitionManager D * option goerr) : Prop :=
  PM_partitions r.1 = PM_partitions pm ∧ PM_nodeID r.1 = PM_nodeID pm ∧
  db_view (PM_db r.1) =
    match r.2 with None => batch_apply (db_view (PM_db pm)) ops | Some _ => db_view (PM_db pm) end.

Lemma Put_result pm key value p part :
  PM_partitions pm !! p = Some part →
  ∃ r, PartitionManager_Put pm key value p = Ret r ∧
    pm_result pm p [WPut (MakePartitionKey p key) value] r ∧
    (r.2 = None → P_Status part = NORMAL ∨ P_Status part = MIGRATING_IN).
Proof.
  intros E. unfold PartitionManager_Put, status_of, PartitionManager_GetPartition.
  rewrite (has_partition_true _ _ _ E), E. cbn [negb mbind outcome_bind].
  destruct (P_Status part) eqn:Hst; cbn; try (by eexists).
  all: destruct (RocksDB_Put _ _ _) as [d o] eqn:Ep; apply RocksDB_Put_spec in Ep.
  all: eexists; split; [done|]; split; [|by auto]; by split_and!; destruct o.
Qed.

Lemma Delete_result pm key p part :
  PM_partitions pm !! p = Some part →
  ∃ r, PartitionManager_Delete pm key p = Ret r ∧
    pm_result pm p [WDelete (MakePartitionKey p key)] r ∧ (r.2 = None → P_Status part = NORMAL).
Proof.
  intros E. unfold PartitionManager_Delete, status_of, PartitionManager_GetPartition.
  rewrite (has_partition_true _ _ _ E), E. cbn [negb mbind outcome_bind].
  destruct (P_Status part) eqn:Hst; cbn; try (by eexists).
  destruct (RocksDB_Delete _ _) as [d o] eqn:Ep; apply RocksDB_Delete_spec in Ep.
  eexists; split; [done|]; split; [|done]; by split_and!; destruct o.
Qed.

Lemma BatchPut_result pm items p part :
  PM_partitions pm !! p = Some part →
  ∃ r, PartitionManager_BatchPut pm items p = Ret r ∧
    pm_result pm p (map (λ i, WPut (MakePartitionKey p (Item_Key i)) (Item_Value i)) items) r ∧
    (r.2 = None → P_Status part = NORMAL ∨ P_Status part = MIGRATING_IN).
Proof.
  intros E. unfold PartitionManager_BatchPut, status_of, PartitionManager_GetPartition.
  rewrite (has_partition_true _ _ _ E), E. cbn [negb mbind outcome_bind].
  destruct (P_Status part) eqn:Hst; cbn; try (by eexists).
  all: unfold RocksDB_BatchPut; rewrite map_map; cbn [Item_Key Item_Value].
  all: destruct (db_write _ _) as [d o] eqn:Ep; apply db_write_spec in Ep.
  all: destruct o; eexists; (split; [done|]); (split; [|by auto]); by split_and!.
Qed.

(** Queueing a command changes the logs only. *)
Lemma enqueue_pm s env p key value del :
  S_pm (Server_enqueueReplication s env p key value del) = S_pm s.
Proof.
  unfold Server_enqueueReplication. destruct (S_replicators s !! p); [|done].
  by destruct (if del then _ else _).
Qed.

Lemma enqueue_batch_pm s env p data :
  S_pm (Server_enqueueFieldBatchReplication s env p data) = S_pm s.
Proof.
  unfold Server_enqueueFieldBatchReplication. destruct (S_replicators s !! p); [|done].
  by destruct (CommandLogReplicator_AppendFieldBatch _ _ _).
Qed.

Lemma enqueue_items_pm s envs p (l : list (nat * KeyValueItem)) :
  S_pm (foldl (λ s '(i, item),
    Server_enqueueReplication s (envs i) p (Item_Key item) (Item_Value item) false) s l) = S_pm s.
Proof.
  revert s. induction l as [|[i item] l IH]; intros s; [done|]. cbn [foldl].
  by rewrite IH, enqueue_pm.
Qed.

(** Field requests against the shared engine. *)
Lemma ApplyFieldBatch_view (d : D) p fb :
  let r := FieldStorage_ApplyFieldBatch (mkFieldStorage d p) fb in
  db_view (FS_db r.1) = match r.2 with
    | None => batch_apply (db_view d) (map (update_wop p (FB_PrimaryKey fb)) (FB_Updates fb))
    | Some _ => db_view d end.
Proof.
  unfold FieldStorage_ApplyFieldBatch. cbn [FS_db FS_partitionID].
  change (map _ (FB_Updates fb)) with (map (update_wop p (FB_PrimaryKey fb)) (FB_Updates fb)).
  destruct (db_write _ _) as [d' o] eqn:E. by apply db_write_spec in E.
Qed.
End write_facts.

(** The result of a write handler: what success and failure say about the state. *)
Definition write_ok {D} `{Engine D} (s : Server D) (req : write_req) (p epoch : Z)
    (r : Server D * write_response) : Prop :=
  let '(s', (ok, code)) := r in
  PM_partitions (S_pm s') = PM_partitions (S_pm s) ∧
  if ok then
    code = OK ∧ (∃ part, may_write s p epoch part ∧ req_status req (P_Status part)) ∧
    db_view (S_db s') = batch_apply (db_view (S_db s)) (req_ops p req)
  else code ≠ OK ∧ db_view (S_db s') = db_view (S_db s) ∧ S_replicators s' = S_replicators s.

Section write_admission.
  Context {D : Type} `{EngineLaws D}.
Implicit Types (s : Server D).

(** A handler that was let through and changed the manager, then queued. *)
Lemma pm_result_ok s (pm' : PartitionManager D) (err : option goerr) (s' : Server D) req p epoch part :
  may_write s p epoch part → pm_result (S_pm s) p (req_ops p req) (pm', err) →
  (err = None → req_status req (P_Status part)) → S_pm s' = pm' →
  match err with
  | Some _ => write_ok s req p epoch (S_set_pm s pm', (false, INTERNAL_ERROR))
  | None => write_ok s req p epoch (s', (true, OK))
  end.
Proof.
  intros Hm (Hp & _ & Hv) Hst Hs'. unfold write_ok, S_db in *. cbn [fst snd] in *.
  destruct err; cbn; [by split_and!|]. rewrite Hs'. split_and!; [done..| |done].
  exists part. split; [done|]. by apply Hst.
Qed.

(** The same for the field handlers, which write to the engine directly. *)
Lemma fs_result_ok s (fs : FieldStorage D) (err : option goerr) (s' : Server D) req p epoch part :
  may_write s p epoch part → req_status req (P_Status part) →
  db_view (FS_db fs) = match err with
    | None => batch_apply (db_view (S_db s)) (req_ops p req) | Some _ => db_view (S_db s) end →
  S_pm s' = S_pm (S_set_fs s fs) →
  match err with
  | Some _ => write_ok s req p epoch (S_set_fs s fs, (false, INTERNAL_ERROR))
  | None => write_ok s req p epoch (s', (true, OK))
  end.
Proof.
  intros Hm Hst Hv Hs'. unfold write_ok, S_db in *.
  destruct err; cbn; [by split_and!|]. rewrite Hs'. cbn. split_and!; [done..| |done]. by exists part.
Qed.

Lemma write_guard_Some s p epoch code :
  write_guard s p epoch = Some code → code ≠ OK.
Proof. unfold write_guard. by repeat case_match; intros; simplify_eq. Qed.
End write_admission.

(** Every write handler answers, with a result that is [write_ok]. *)
Lemma write_handlers {D} `{EngineLaws D} (s : Server D) envs req p epoch :
  ∃ r, Server_write s envs req p epoch = Ret r ∧ write_ok s req p epoch r.
Proof.
  destruct (write_guard s p epoch) as [code|] eqn:Hg.
  { exists (s, (false, code)). split.
    - destruct req; cbn; unfold Server_Put, Server_Delete, Server_SetFields, Server_DeleteField,
        Server_BatchPut; by rewrite Hg.
    - split_and!; [done|by eapply write_guard_Some|done..]. }
  pose proof Hg as [part Hm]%write_guard_None. assert (Hp := Hm). destruct Hp as (_ & _ & _ & Hp & _).
  destruct req as [key value|key|pk us|pk f|items]; cbn [Server_write];
    unfold Server_Put, Server_Delete, Server_SetFields, Server_DeleteField, Server_BatchPut; rewrite Hg.
  - destruct (Put_result (S_pm s) key value p part Hp) as ([pm err] & -> & Hr & Hst).
    cbn [mbind outcome_bind]. destruct err as [e|]; (eexists; split; [done|]).
    + exact (pm_result_ok s pm (Some e) (S_set_pm s pm) (RPut key value) p epoch part Hm Hr Hst eq_refl).
    + exact (pm_result_ok s pm None _ (RPut key value) p epoch part Hm Hr Hst (enqueue_pm (S_set_pm s pm) _ _ _ _ _)).
  - destruct (Delete_result (S_pm s) key p part Hp) as ([pm err] & -> & Hr & Hst).
    cbn [mbind outcome_bind]. destruct err as [e|]; (eexists; split; [done|]).
    + exact (pm_result_ok s pm (Some e) (S_set_pm s pm) (RDelete key) p epoch part Hm Hr Hst eq_refl).
    + exact (pm_result_ok s pm None _ (RDelete key) p epoch part Hm Hr Hst (enqueue_pm (S_set_pm s pm) _ _ _ _ _)).
  - pose proof (ApplyFieldBatch_view (S_db s) p (mkFieldBatch p pk us)) as Hv. cbn zeta in Hv.
    destruct (FieldStorage_ApplyFieldBatch _ _) as [fs err]. cbn [fst snd] in Hv.
    destruct err as [e|]; (eexists; split; [done|]).
    + exact (fs_result_ok s fs (Some e) (S_set_fs s fs) (RSetFields pk us) p epoch part Hm I Hv eq_refl).
    + exact (fs_result_ok s fs None _ (RSetFields pk us) p epoch part Hm I Hv (enqueue_batch_pm (S_set_fs s fs) _ _ _)).
  - destruct (FieldStorage_DeleteField (mkFieldStorage (S_db s) p) pk f) as [fs err] eqn:E.
    assert (db_view (FS_db fs) = match err with
      | None => batch_apply (db_view (S_db s)) (req_ops p (RDeleteField pk f))
      | Some _ => db_view (S_db s) end) as Hv.
    { unfold FieldStorage_DeleteField in E. cbn [FS_db FS_partitionID] in E.
      destruct (RocksDB_Delete _ _) as [d o] eqn:Ed. apply RocksDB_Delete_spec in Ed. simplify_eq.
      cbn. by destruct err. }
    destruct err as [e|]; (eexists; split; [done|]).
    + exact (fs_result_ok s fs (Some e) (S_set_fs s fs) (RDeleteField pk f) p epoch part Hm I Hv eq_refl).
    + exact (fs_result_ok s fs None _ (RDeleteField pk f) p epoch part Hm I Hv (enqueue_batch_pm (S_set_fs s fs) _ _ _)).
  - destruct (BatchPut_result (S_pm s) items p part Hp) as ([pm err] & -> & Hr & Hst).
    cbn [mbind outcome_bind].
    destruct err as [e|]; (eexists; split; [done|]).
    + exact (pm_result_ok s pm (Some e) (S_set_pm s pm) (RBatchPut items) p epoch part Hm Hr Hst eq_refl).
    + exact (pm_result_ok s pm None _ (RBatchPut items) p epoch part Hm Hr Hst (enqueue_items_pm (S_set_pm s pm) _ _ _)).
Qed.

(** C7: every write handler answers, and answers success only when this node holds a
    live lease, hosts the partition as its primary, and the request carries the
    partition's current epoch (and, for key writes, the partition's status allows
    it); the data then changes exactly as requested.  Every other answer is an
    error code that leaves the data and the command logs untouched.  Batches are
    all or nothing. *)
Theorem write_handlers_spec {D} `{EngineLaws D} (s : Server D) envs req p epoch :
  ∃ r, Server_write s envs req p epoch = Ret r ∧ write_ok s req p epoch r.
Proof. apply write_handlers. Qed.

(** ** A concrete server *)

Definition demo_server (m : gmap bytes bytes) (parts : gmap Z Partition) : Server MemDB :=
  mkServer (demo_pm m parts) true 77 false ∅ ∅.

Lemma write_handlers_spec_witness :
  let s := demo_server ∅ {[ 5 := mkPartition 5 NORMAL true 3 ]} in
  ∃ s', Server_Put s (demo_env 1) (str_bytes "a") (str_bytes "1") 5 3 = Ret (s', (true, OK)) ∧
    db_view (S_db s') = batch_apply ∅ [WPut (MakePartitionKey 5 (str_bytes "a")) (str_bytes "1")].
Proof.
  intros s.
  pose proof (write_handlers_spec s (λ _, demo_env 1) (RPut (str_bytes "a") (str_bytes "1")) 5 3)
    as ([s' [ok code]] & Hr & Hok).
  assert (ok = true) as ->.
  { cbn [Server_write] in Hr. apply (f_equal (λ o, match o with Ret (_, (b, _)) => b | _ => false end)) in Hr.
    vm_compute in Hr. by rewrite <- Hr. }
  destruct Hok as (_ & -> & _ & Hv). exists s'. split; [exact Hr|exact Hv].
Defined.

(** A client reads its own write: once a write was acknowledged, [Get] of any
    key and [GetField] of any field of the partition return what the partition's
    data holds after exactly that write, whichever key they ask for. *)
Lemma acknowledged_reads {D} `{EngineLaws D} (s s' : Server D) envs req p epoch :
  Server_write s envs req p epoch = Ret (s', (true, OK)) → db_healthy (S_db s') →
  let m := batch_apply (db_view (S_db s)) (req_ops p req) in
  let answer o := match o with Some v => Ret (v, true, OK) | None => Ret ([], false, OK) end in
  (∀ key, Server_Get s' key p = answer (m !! MakePartitionKey p key)) ∧
  (∀ pk f, Server_GetField s' pk f p = answer (m !! MakeFieldKey p pk f)).
Proof.
  intros Hw Hh m answer. destruct (write_handlers s envs req p epoch) as (r & Hr & Hok).
  rewrite Hw in Hr. simplify_eq. destruct Hok as (Hp & _ & (part & (_ & _ & _ & Hpart & _) & _) & Hv).
  rewrite <- Hp in Hpart. unfold Server_Get, Server_GetField, PartitionManager_Get, FieldStorage_GetField.
  rewrite (has_partition_true _ _ _ Hpart). cbn [negb FS_db FS_partitionID].
  split; intros; unfold S_db in *; rewrite RocksDB_Get_healthy, Hv by done;
    unfold read_result, answer, m; by case_match.
Qed.

Lemma acknowledged_reads_example :
  let s := demo_server {[ MakePartitionKey 5 (str_bytes "b") := str_bytes "2" ]}
    {[ 5 := mkPartition 5 NORMAL true 3 ]} in
  ∃ s', Server_Put s (demo_env 1) (str_bytes "a") (str_bytes "1") 5 3 = Ret (s', (true, OK)) ∧
    Server_Get s' (str_bytes "a") 5 = Ret (str_bytes "1", true, OK) ∧
    Server_Get s' (str_bytes "b") 5 = Ret (str_bytes "2", true, OK).
Proof.
  intros s.
  destruct (Server_Put s (demo_env 1) (str_bytes "a") (str_bytes "1") 5 3) as [[s' r]| |] eqn:E;
    [|by vm_compute in E..].
  assert (r = (true, OK)) as Hr.
  { apply (f_equal (λ o, match o with Ret (_, r) => r | _ => (false, OK) end)) in E.
    vm_compute in E. by rewrite <- E. }
  subst r. exists s'. split; [reflexivity|].
  assert (db_healthy (S_db s')) as Hh.
  { assert ((mem_faults (S_db s'), mem_rfault (S_db s')) = ([], false)) as Hf.
    { transitivity (match Server_Put s (demo_env 1) (str_bytes "a") (str_bytes "1") 5 3 with
        | Ret (x, _) => (mem_faults (S_db x), mem_rfault (S_db x)) | _ => ([], true) end).
      - by rewrite E.
      - vm_compute. reflexivity. }
    injection Hf as Hf1 Hf2. split; [by rewrite Hf1|done]. }
  pose proof (acknowledged_reads s s' (λ _, demo_env 1) (RPut (str_bytes "a") (str_bytes "1")) 5 3 E Hh)
    as [Hk _].
  rewrite !Hk. split; vm_compute; reflexivity.
Defined.

(** ** The reaction to a route table *)

Lemma ReadFrom_no_panic opens cl fromSeq limit :
  0 ≤ limit → ∃ es, CommandLog_ReadFrom opens cl fromSeq limit = Ret es.
Proof.
  intros Hl. unfold CommandLog_ReadFrom, readFromIndex, readFromFullScan.
  rewrite (proj2 (Z.ltb_ge _ _)) by done. destruct (find_start _ _ _); [|by eexists].
  destruct (files_from _ _); [by eexists|]. destruct (index_scan_loop _ _ _ _ _ _); by eexists.
Qed.

Section totality.
  Context {N : Type} `{Network N}.

Lemma syncToReplica_total clr (net : N) env :
  ∃ r, syncToReplica clr net env = Ret r.
Proof.
  unfold syncToReplica. case_match; [by eexists|].
  destruct (connectToReplica clr env) as [clr1 [e|]]; [by eexists|].
  destruct (ReadFrom_no_panic (se_opens env) (CLR_commandLog clr1)
    (u64 (CLR_replicatedSeq clr + 1)) CLBatchSize) as [es ->]; [done|].
  destruct (last es); [|by eexists]. destruct (sendBatch clr1 net es) as [net1 [e|]]; by eexists.
Qed.

Lemma Stop_total clr (net : N) env lenv :
  ∃ r, CommandLogReplicator_Stop clr net env lenv = Ret r.
Proof.
  unfold CommandLogReplicator_Stop. destruct (CLR_running clr).
  - destruct (syncToReplica_total clr net env) as [[clr1 net1] ->]. by eexists.
  - by eexists.
Qed.

  Context {D : Type} `{Engine D}.
Implicit Types (s : Server D).

Lemma initializeReplicator_pm s (net : N) env p prim addr :
  ∃ s' net', Server_initializeReplicator s net env p prim addr = Ret (s', net') ∧ S_pm s' = S_pm s.
Proof.
  unfold Server_initializeReplicator.
  assert (∃ s1 net1, match S_replicators s !! p with
    | Some existing =>
        '(clr, net) ← CommandLogReplicator_Stop existing net (ro_sync env) (ro_close env);
        Ret (S_set_replicator s p clr, net)
    | None => Ret (s, net) end = Ret (s1, net1) ∧ S_pm s1 = S_pm s) as (s1 & net1 & -> & Hs1).
  { destruct (S_replicators s !! p) as [clr|]; [|by eexists _, _].
    destruct (Stop_total clr net (ro_sync env) (ro_close env)) as [[clr1 net1] ->].
    by eexists _, _. }
  cbn [mbind outcome_bind].
  unfold NewCommandLogReplicator, MakeCommandLog, NewCommandLog.
  destruct (se_mkdir_ok (ro_sync env)); [|by eexists _, _].
  destruct (recover_files _ _ _ _) as [idx m]. unfold openNewLogFile.
  destruct (ev_open_ok (ro_open env)); cbn; by eexists _, _.
Qed.

Lemma stopReplicator_pm s (net : N) env p :
  ∃ s' net', Server_stopReplicator s net env p = Ret (s', net') ∧ S_pm s' = S_pm s.
Proof.
  unfold Server_stopReplicator. destruct (S_replicators s !! p) as [clr|]; [|by eexists _, _].
  destruct (Stop_total clr net (ro_sync env) (ro_close env)) as [[clr1 net1] ->].
  by eexists _, _.
Qed.

(** The partition a row leaves behind: a new partition takes its role and epoch
    from the row, an existing one only a greater epoch. *)
Definition followed (myAddr : string) (old : option Partition) (p : PartitionInfo) : Partition :=
  match old with
  | None => mkPartition (PI_PartitionId p) NORMAL (bool_decide (PI_Primary p = myAddr)) (PI_Epoch p)
  | Some e => mkPartition (P_ID e) (P_Status e) (P_IsPrime e) (Z.max (P_Epoch e) (PI_Epoch p))
  end.

Lemma UpdateEpoch_lookup (pm : PartitionManager D) p e part :
  PM_partitions pm !! p = Some part →
  PM_partitions (PartitionManager_UpdatePartitionEpoch pm p e).1 =
  <[p := mkPartition (P_ID part) (P_Status part) (P_IsPrime part) (Z.max (P_Epoch part) e)]> (PM_partitions pm).
Proof.
  intros E. unfold PartitionManager_UpdatePartitionEpoch. rewrite E.
  destruct (Z.ltb_spec (P_Epoch part) e); cbn.
  - by rewrite Z.max_r by lia.
  - rewrite Z.max_l by lia. rewrite insert_id; [done|]. rewrite E. by destruct part.
Qed.

(** One row, on the partitions and the set of ids to keep. *)
Lemma update_row s (net : N) env myAddr ex p rest :
  ∃ s1 net1, update_rows s net env myAddr ex (p :: rest) =
    update_rows s1 net1 env myAddr
      (if decide (hosts myAddr p) then {[ PI_PartitionId p ]} ∪ ex else ex) rest ∧
    PM_nodeID (S_pm s1) = PM_nodeID (S_pm s) ∧
    PM_partitions (S_pm s1) =
      if decide (hosts myAddr p)
      then <[PI_PartitionId p := followed myAddr (PM_partitions (S_pm s) !! PI_PartitionId p) p]>
             (PM_partitions (S_pm s))
      else PM_partitions (S_pm s).
Proof.
  cbn [update_rows]. assert (bool_decide (PI_Primary p = myAddr) || bool_decide (PI_Replica p = myAddr)
    = bool_decide (hosts myAddr p)) as -> by (unfold hosts; repeat case_bool_decide; naive_solver).
  case_bool_decide as Hh; [rewrite !decide_True by done|rewrite !decide_False by done; by exists s, net].
  unfold PartitionManager_HasPartition.
  destruct (PM_partitions (S_pm s) !! PI_PartitionId p) as [part|] eqn:E; cbn [negb].
  - rewrite bool_decide_eq_true_2 by done. cbn [negb].
    pose proof (UpdateEpoch_lookup (S_pm s) _ (PI_Epoch p) part E) as Hu.
    destruct (PartitionManager_UpdatePartitionEpoch _ _ _) as [pm o] eqn:Hup. cbn [fst] in Hu.
    exists (S_set_pm s pm), net. split_and!; [done| |done].
    unfold PartitionManager_UpdatePartitionEpoch in Hup. rewrite E in Hup.
    case_match; simplify_eq; done.
  - rewrite bool_decide_eq_false_2 by (by intros [? ?]). cbn [negb].
    unfold PartitionManager_AddPartitionWithEpoch. rewrite E. cbn [fst].
    set (pm := PM_set_partitions _ _).
    destruct (initializeReplicator_pm (S_set_pm s pm) net env (PI_PartitionId p)
      (bool_decide (PI_Primary p = myAddr)) (if bool_decide (PI_Primary p = myAddr) then PI_Replica p else ""))
      as (s1 & net1 & -> & Hs1). exists s1, net1. rewrite Hs1. done.
Qed.

Lemma update_rows_lookup s (net : N) env myAddr ex table :
  NoDup (map PI_PartitionId table) →
  ∃ s1 net1 ex1, update_rows s net env myAddr ex table = Ret (s1, net1, ex1) ∧
    (∀ id, PM_partitions (S_pm s1) !! id =
      match hosted_row myAddr table id with
      | Some p => Some (followed myAddr (PM_partitions (S_pm s) !! id) p)
      | None => PM_partitions (S_pm s) !! id end) ∧
    (∀ id, id ∈ ex1 ↔ id ∈ ex ∨ is_Some (hosted_row myAddr table id)).
Proof.
  revert s net ex. induction table as [|p table IH]; intros s net ex Hnd.
  { exists s, net, ex. split_and!; [done..|]. intros id. split; [auto|]. by intros [?|[? [=]]]. }
  apply NoDup_cons in Hnd as [Hp Hnd].
  destruct (update_row s net env myAddr ex p table) as (s1 & net1 & -> & _ & Hpart).
  destruct (IH s1 net1 (if decide (hosts myAddr p) then {[ PI_PartitionId p ]} ∪ ex else ex) Hnd)
    as (s2 & net2 & ex2 & -> & Hlk & Hex).
  exists s2, net2, ex2. split; [done|].
  assert (∀ id, id = PI_PartitionId p → hosted_row myAddr table id = None) as Hnone.
  { intros id ->. by apply hosted_row_None. }
  split; intros id; rewrite ?Hlk, ?Hex, hosted_row_cons, ?Hpart;
    destruct (decide (hosts myAddr p)) as [Hh|Hh];
    destruct (decide (PI_PartitionId p = id)) as [He|He];
    rewrite ?(decide_True (P := _ ∧ _)) by done; rewrite ?(decide_False (P := _ ∧ _)) by tauto;
    rewrite ?(Hnone id) by done.
  - subst id. by rewrite lookup_insert_eq.
  - by rewrite lookup_insert_ne.
  - done.
  - done.
  - set_solver.
  - set_solver.
  - done.
  - done.
Qed.

Lemma remove_rows_lookup s (net : N) env ex current :
  ∃ s1 net1, remove_rows s net env ex current = Ret (s1, net1) ∧
    ∀ id, PM_partitions (S_pm s1) !! id =
      if decide (id ∈ current ∧ id ∉ ex) then None else PM_partitions (S_pm s) !! id.
Proof.
  revert s net. induction current as [|pid current IH]; intros s net; cbn [remove_rows].
  { exists s, net. split; [done|]. intros id. rewrite decide_False; [done|]. set_solver. }
  case_bool_decide as Hin.
  - destruct (IH s net) as (s1 & net1 & -> & Hlk). exists s1, net1. split; [done|].
    intros id. rewrite Hlk. apply decide_ext. set_solver.
  - destruct (stopReplicator_pm s net env pid) as (s1 & net1 & -> & Hpm). cbn [mbind outcome_bind].
    destruct (PartitionManager_RemovePartition (S_pm s1) pid) as [pm o] eqn:Hr.
    destruct (IH (S_set_pm s1 pm) net1) as (s2 & net2 & -> & Hlk). exists s2, net2. split; [done|].
    assert (PM_partitions pm = delete pid (PM_partitions (S_pm s))) as Hd.
    { unfold PartitionManager_RemovePartition in Hr. rewrite Hpm in Hr.
      destruct (PM_partitions (S_pm s) !! pid) eqn:E; simplify_eq; [done|].
      by rewrite delete_id. }
    intros id. rewrite Hlk. cbn. rewrite Hd. destruct (decide (id = pid)) as [->|Hne].
    + rewrite lookup_delete_eq. rewrite (decide_True (P := pid ∈ pid :: current ∧ _)) by set_solver.
      by case_decide.
    + rewrite lookup_delete_ne by done. apply decide_ext. set_solver.
Qed.
End totality.

(** The partitions after a route update. *)
Lemma updatePartitions_followed {D N} `{Engine D, Network N} (s : Server D) (net : N) env table myAddr :
  NoDup (map PI_PartitionId table) →
  ∃ s' net', Server_updatePartitionsFromRoute s net env table myAddr = Ret (s', net') ∧
  ∀ id, PM_partitions (S_pm s') !! id =
    followed myAddr (PM_partitions (S_pm s) !! id) <$> hosted_row myAddr table id.
Proof.
  intros Hnd. unfold Server_updatePartitionsFromRoute.
  destruct (update_rows_lookup s net env myAddr ∅ table Hnd) as (s1 & net1 & ex & -> & Hlk & Hex).
  cbn [mbind outcome_bind].
  destruct (remove_rows_lookup s1 net1 env ex (PartitionManager_ListPartitions (S_pm s1)))
    as (s2 & net2 & -> & Hrm).
  exists s2, net2. split; [done|]. intros id. rewrite Hrm.
  assert (id ∈ PartitionManager_ListPartitions (S_pm s1) ↔ is_Some (PM_partitions (S_pm s1) !! id)) as Hlist.
  { unfold PartitionManager_ListPartitions. rewrite list_elem_of_fmap. split.
    - intros [[i x] [-> Hx%elem_of_map_to_list]]. by exists x.
    - intros [x Hx]. exists (id, x). by rewrite elem_of_map_to_list. }
  specialize (Hlk id). destruct (hosted_row myAddr table id) as [p|] eqn:Hrow; cbn.
  - rewrite decide_False; [done|]. intros [_ Hn]. apply Hn, Hex. rewrite Hrow. eauto.
  - destruct (PM_partitions (S_pm s1) !! id) eqn:E1; [|by case_decide].
    rewrite decide_True; [done|]. split; [by apply Hlist|]. rewrite Hex, Hrow.
    intros [?|[? [=]]]. set_solver.
Qed.

(** C38: after a route update the node hosts exactly the partitions whose row names
    it.  A partition it did not have takes its role and epoch from the row; but a
    partition it already had keeps its role and status, whatever the row says,
    and only its epoch moves, never backwards. *)
Theorem updatePartitionsFromRoute_exact {D N} `{Engine D, Network N} (s : Server D) (net : N) env table myAddr :
  NoDup (map PI_PartitionId table) →
  ∃ s' net', Server_updatePartitionsFromRoute s net env table myAddr = Ret (s', net') ∧
  ∀ id, PM_partitions (S_pm s') !! id =
    followed myAddr (PM_partitions (S_pm s) !! id) <$> hosted_row myAddr table id.
Proof. apply updatePartitions_followed. Qed.

(** A network that answers nothing. *)
#[global] Instance no_network : Network unit := λ _ _ _, (tt, None).

Definition demo_route_env (t : Z) : RouteEnv :=
  mkRouteEnv (demo_env t) (demo_env t) (mkSyncEnv (λ _, true) false true true true).

Lemma updatePartitionsFromRoute_exact_witness :
  let s := demo_server ∅ {[ 1 := mkPartition 1 NORMAL false 4 ]} in
  let table := [demo_row 1 "n1" "n2" 5; demo_row 2 "n2" "n1" 7] in
  NoDup (map PI_PartitionId table) ∧
  ∃ s' net', Server_updatePartitionsFromRoute s tt (demo_route_env 10) table "n1" = Ret (s', net') ∧
    PM_partitions (S_pm s') !! 1 = Some (mkPartition 1 NORMAL false 5) ∧
    PM_partitions (S_pm s') !! 2 = Some (mkPartition 2 NORMAL false 7).
Proof.
  intros s table. assert (NoDup (map PI_PartitionId table)) as Hnd
    by (apply (bool_decide_unpack _); by vm_compute).
  split; [exact Hnd|].
  pose proof (updatePartitionsFromRoute_exact s tt (demo_route_env 10) table "n1" Hnd)
    as (s' & net' & Hr & Hp).
  exists s', net'. rewrite !Hp. split_and!; [exact Hr|vm_compute; reflexivity..].
Defined.

(** A node with a live lease answers NOT_PRIMARY to the writes of a partition it
    hosts as a replica. *)
Lemma replica_role_rejects {D} `{Engine D} (s : Server D) p part envs req epoch :
  Server_canWrite s = true → PM_partitions (S_pm s) !! p = Some part → P_IsPrime part = false →
  Server_write s envs req p epoch = Ret (s, (false, NOT_PRIMARY)).
Proof.
  intros Hcw Hp Hpr. assert (write_guard s p epoch = Some NOT_PRIMARY) as Hg.
  { unfold write_guard. rewrite Hcw. cbn [negb]. rewrite (has_partition_true _ _ _ Hp). cbn [negb].
    unfold PartitionManager_IsPrimary. rewrite Hp. cbn. by rewrite Hpr. }
  destruct req; cbn; unfold Server_Put, Server_Delete, Server_SetFields, Server_DeleteField,
    Server_BatchPut; by rewrite Hg.
Qed.

(** A replica that the route table promotes stays read-only: a node that hosts a
    partition as a replica and receives a route table naming it the primary goes
    on answering NOT_PRIMARY to every write of the partition, in every epoch, as
    long as its lease is live. *)
Lemma promoted_replica_rejects_writes {D N} `{EngineLaws D, Network N} (s : Server D) (net : N) env
    table myAddr p part row envs req epoch :
  NoDup (map PI_PartitionId table) →
  PM_partitions (S_pm s) !! p = Some part → P_IsPrime part = false →
  hosted_row myAddr table p = Some row → PI_Primary row = myAddr →
  ∃ s' net', Server_updatePartitionsFromRoute s net env table myAddr = Ret (s', net') ∧
    (Server_canWrite s' = true →
     Server_write s' envs req p epoch = Ret (s', (false, NOT_PRIMARY))).
Proof.
  intros Hnd Hp Hpr Hrow Hprim.
  destruct (updatePartitions_followed s net env table myAddr Hnd) as (s2 & net2 & -> & Hlk).
  exists s2, net2. split; [done|]. intros Hcw.
  assert (PM_partitions (S_pm s2) !! p = Some (followed myAddr (Some part) row)) as Hp2
    by (by rewrite Hlk, Hrow, Hp).
  by eapply replica_role_rejects.
Qed.

Lemma promoted_replica_rejects_writes_witness :
  let s := demo_server ∅ {[ 1 := mkPartition 1 NORMAL false 4 ]} in
  let table := [demo_row 1 "n1" "n2" 5] in
  ∃ s' net', Server_updatePartitionsFromRoute s tt (demo_route_env 10) table "n1" = Ret (s', net') ∧
    (Server_canWrite s' = true →
     Server_Put s' (demo_env 11) (str_bytes "k") (str_bytes "v") 1 5 = Ret (s', (false, NOT_PRIMARY))).
Proof.
  intros s table. assert (NoDup (map PI_PartitionId table)) as Hnd
    by (apply (bool_decide_unpack _); by vm_compute).
  exact (promoted_replica_rejects_writes s tt (demo_route_env 10) table "n1" 1
    (mkPartition 1 NORMAL false 4) (demo_row 1 "n1" "n2" 5) (λ _, demo_env 11)
    (RPut (str_bytes "k") (str_bytes "v")) 5 Hnd eq_refl eq_refl eq_refl eq_refl).
Defined.
