(* ===== verification/Replication.v ===== *)
(** * Replication between a primary and its replica

    The replicator of [src/pkg/storage/command_log_replicator.go] talks to the
    [Replicate] handler of [src/pkg/storage/server.go] on another node.  This file
    puts the two together: the network delivers a batch to the replica's server,
    or loses the request, or loses the reply after the batch was applied, as a
    script of faults says.

    The refinement: at every moment the replica's data is what applying a prefix
    of the primary's command log gives, and that prefix covers everything the
    replicator believes replicated. *)

From S2P Require Import Prelude Engine Keys FieldCodec FieldStorage CommandEntry CommandLog Replay Proto Partitions Replicator StorageServer.

(** ** What a command does to a partition *)

Definition cmd_ops (p : Z) (e : CommandEntry) : list wop :=
  match entry_op (CE_CmdType e) with
  | REP_OP_PUT => [WPut (MakePartitionKey p (CE_Key e)) (CE_Value e)]
  | REP_OP_DELETE => [WDelete (MakePartitionKey p (CE_Key e))]
  | REP_OP_FIELD_BATCH =>
      match DecodeFieldBatch (CE_Value e) with
      | Ret fb =>
          let pid := if FB_PartitionID fb =? 0 then p else FB_PartitionID fb in
          map (update_wop pid (FB_PrimaryKey fb)) (FB_Updates fb)
      | _ => []
      end
  | REP_OP_UNNAMED _ => []          (** [entry_op] gives none *)
  end.

Definition cmds_ops (p : Z) (es : list CommandEntry) : list wop := concat (map (cmd_ops p) es).

Lemma cmds_ops_app p es fs : cmds_ops p (es ++ fs) = cmds_ops p es ++ cmds_ops p fs.
Proof. unfold cmds_ops. by rewrite map_app, concat_app. Qed.

(** A replica that executes every command: it hosts the partition, the partition
    is in its normal state and the engine has no pending fault. *)
Definition replica_ready {D} `{Engine D} (s : Server D) (p : Z) : Prop :=
  (∃ part, PM_partitions (S_pm s) !! p = Some part ∧ P_Status part = NORMAL) ∧ db_healthy (S_db s).

Section replicate_facts.
  Context {D : Type} `{EngineLaws D}.
Implicit Types (s : Server D).

Lemma ready_write s p ops (d : D) :
  replica_ready s p → db_write (S_db s) ops = (d, None) → db_healthy d →
  replica_ready (S_set_pm s (PM_set_db (S_pm s) d)) p ∧
  db_view (S_db (S_set_pm s (PM_set_db (S_pm s) d))) = batch_apply (db_view (S_db s)) ops.
Proof. intros [Hp Hh] Hw Hd. split; [by split|]. by apply db_write_ok in Hw. Qed.

Lemma replicate_put_ready s p (entry : ReplicationEntry) :
  replica_ready s p → RE_OpType entry = REP_OP_PUT →
  ∃ s', replicate_entry s p entry = Ret (s', None) ∧ replica_ready s' p ∧
    db_view (S_db s') = batch_apply (db_view (S_db s)) [WPut (MakePartitionKey p (RE_Key entry)) (RE_Value entry)].
Proof.
  intros Hr Hop. pose proof Hr as [(part & Hp & Hst) Hh]. unfold replicate_entry. rewrite Hop.
  unfold PartitionManager_Put, status_of, PartitionManager_GetPartition.
  rewrite (has_partition_true _ _ _ Hp), Hp. cbn [negb mbind outcome_bind].
  rewrite Hst, bd_not. cbn [andb]. change (PM_db (S_pm s)) with (S_db s).
  destruct (db_healthy_write (S_db s) [WPut (MakePartitionKey p (RE_Key entry)) (RE_Value entry)] Hh)
    as (d & Hw & Hd).
  unfold RocksDB_Put. rewrite Hw. destruct (ready_write s p _ d Hr Hw Hd). by eexists.
Qed.

Lemma replicate_entry_ready s p e :
  replica_ready s p → replayable e →
  ∃ s', replicate_entry s p (pb_entry e) = Ret (s', None) ∧ replica_ready s' p ∧
    db_view (S_db s') = batch_apply (db_view (S_db s)) (cmd_ops p e).
Proof.
  intros Hr Hdec. pose proof Hr as [(part & Hp & Hst) Hh]. unfold cmd_ops.
  destruct (entry_op (CE_CmdType e)) eqn:Hop; [by apply replicate_put_ready|..];
    unfold replicate_entry; cbn [pb_entry RE_OpType RE_Key RE_Value]; rewrite Hop.
  - unfold PartitionManager_Delete, status_of, PartitionManager_GetPartition.
    rewrite (has_partition_true _ _ _ Hp), Hp. cbn [negb mbind outcome_bind].
    rewrite Hst, bd_not. cbn [andb]. change (PM_db (S_pm s)) with (S_db s).
    destruct (db_healthy_write (S_db s) [WDelete (MakePartitionKey p (CE_Key e))] Hh) as (d & Hw & Hd).
    unfold RocksDB_Delete. rewrite Hw. destruct (ready_write s p _ d Hr Hw Hd). by eexists.
  - destruct Hdec as [fb Hfb].
    { unfold entry_op in Hop. by repeat case_bool_decide. }
    rewrite Hfb. cbn zeta. set (pid := if _ =? 0 then _ else _).
    unfold FieldStorage_ApplyFieldBatch. cbn [FS_db FS_partitionID].
    change (map _ (FB_Updates fb)) with (map (update_wop pid (FB_PrimaryKey fb)) (FB_Updates fb)).
    destruct (db_healthy_write (S_db s) (map (update_wop pid (FB_PrimaryKey fb)) (FB_Updates fb)) Hh)
      as (d & Hw & Hd).
    rewrite Hw. destruct (ready_write s p _ d Hr Hw Hd). by eexists.
  - exfalso. unfold entry_op in Hop. by repeat case_bool_decide.
Qed.

Lemma replicate_loop_ready s p lastApplied es :
  replica_ready s p → Forall replayable es →
  ∃ s' la, replicate_loop s p lastApplied (map pb_entry es) = Ret (s', mkReplicateResponse true la "") ∧
    replica_ready s' p ∧ db_view (S_db s') = batch_apply (db_view (S_db s)) (cmds_ops p es).
Proof.
  intros Hr Hes. revert s lastApplied Hr. induction Hes as [|e es He Hes IH]; intros s la Hr.
  { by exists s, la. }
  cbn [map replicate_loop]. destruct (replicate_entry_ready s p e Hr He) as (s1 & -> & Hr1 & Hv1).
  cbn [mbind outcome_bind]. destruct (IH s1 (RE_Offset (pb_entry e)) Hr1) as (s2 & la2 & -> & Hr2 & Hv2).
  exists s2, la2. split_and!; [done..|].
  change (cmds_ops p (e :: es)) with (cmd_ops p e ++ cmds_ops p es).
  by rewrite batch_apply_app, Hv2, Hv1.
Qed.

Lemma Replicate_ready s p es :
  replica_ready s p → Forall replayable es →
  ∃ s' la, Server_Replicate s (batch_request p es) = Ret (s', mkReplicateResponse true la "") ∧
    replica_ready s' p ∧ db_view (S_db s') = batch_apply (db_view (S_db s)) (cmds_ops p es).
Proof.
  intros Hr Hes. unfold Server_Replicate. cbn [batch_request RQ_PartitionId RQ_Entries].
  pose proof Hr as [(part & Hp & _) _]. rewrite (has_partition_true _ _ _ Hp).
  by apply replicate_loop_ready.
Qed.

(** Batches of puts. *)
Definition pb_put (p : Z) (entry : ReplicationEntry) : wop :=
  WPut (MakePartitionKey p (RE_Key entry)) (RE_Value entry).

Lemma replicate_puts_ready s p la entries :
  replica_ready s p → Forall (λ entry, RE_OpType entry = REP_OP_PUT) entries →
  ∃ s', replicate_loop s p la entries =
      Ret (s', mkReplicateResponse true (default la (RE_Offset <$> last entries)) "") ∧
    replica_ready s' p ∧ db_view (S_db s') = batch_apply (db_view (S_db s)) (pb_put p <$> entries).
Proof.
  intros Hr Hf. revert s la Hr. induction Hf as [|e entries He Hf IH]; intros s la Hr; [by exists s|].
  cbn [replicate_loop]. destruct (replicate_put_ready s p e Hr He) as (s1 & -> & Hr1 & Hv1).
  cbn [mbind outcome_bind]. destruct (IH s1 (RE_Offset e) Hr1) as (s2 & -> & Hr2 & Hv2).
  exists s2. split_and!; [|done|by rewrite Hv2, Hv1]. do 3 f_equal. rewrite last_cons. by destruct (last entries).
Qed.
End replicate_facts.

(** ** The network *)

Inductive netfault := Delivered | LostRequest | LostReply.

(** One replica at an address, and the faults of the calls to come. *)
Record Net (D : Type) := mkNet {
  net_addr : string;
  net_server : Server D;
  net_faults : list netfault
}.
Arguments mkNet {D} _ _ _.
Arguments net_addr {D} _.
Arguments net_server {D} _.
Arguments net_faults {D} _.

#[global] Instance Net_Network {D} `{Engine D} : Network (Net D) := λ net addr req,
  let fault := default Delivered (head (net_faults net)) in
  let later s := mkNet (net_addr net) s (tail (net_faults net)) in
  if bool_decide (addr ≠ net_addr net) then (later (net_server net), None)
  else
    match fault with
    | LostRequest => (later (net_server net), None)
    | _ =>
        match Server_Replicate (net_server net) req with
        | Ret (s, resp) => (later s, match fault with LostReply => None | _ => Some resp end)
        | _ => (later (net_server net), None)
        end
    end.

(** ** The invariant *)

(** [j] commands are known to be replicated and [k] are applied; the commands
    between were applied by a batch whose reply was lost, and the next batch
    will carry them again. *)
Record synced {D} `{Engine D} (clr : CommandLogReplicator) (net : Net D) (m0 : gmap bytes bytes)
    (j k : nat) : Prop := {
  syn_log : log_ok (CLR_commandLog clr);
  syn_seq : CL_currentSeq (CLR_commandLog clr) < 2 ^ 64;
  syn_cmds : Forall replayable (log_of (CLR_commandLog clr));
  syn_conn : CLR_conn clr = true → CLR_client clr = Some (net_addr net);
  syn_addr : CLR_replicaAddr clr = net_addr net;
  syn_ready : replica_ready (net_server net) (CLR_partitionID clr);
  syn_rs : 0 ≤ CLR_replicatedSeq clr;
  syn_sent : Forall (λ e, CE_Sequence e ≤ CLR_replicatedSeq clr) (take j (log_of (CLR_commandLog clr)));
  syn_unsent : Forall (λ e, CLR_replicatedSeq clr < CE_Sequence e) (drop j (log_of (CLR_commandLog clr)));
  syn_bounds : (j ≤ k ≤ j + Z.to_nat CLBatchSize)%nat ∧
    (k ≤ length (flushed (CL_dir (CLR_commandLog clr))))%nat;
  syn_view : db_view (S_db (net_server net)) =
    batch_apply m0 (cmds_ops (CLR_partitionID clr) (take k (log_of (CLR_commandLog clr))))
}.

(** The batch the next round reads. *)
Definition next_batch (clr : CommandLogReplicator) (j : nat) : list CommandEntry :=
  take (Z.to_nat CLBatchSize) (drop j (flushed (CL_dir (CLR_commandLog clr)))).

Section convergence.
  Context {D : Type} `{EngineLaws D}.
Implicit Types (clr : CommandLogReplicator) (net : Net D).

Lemma seq_from_split fromSeq (es fs : list CommandEntry) :
  Forall (λ e, CE_Sequence e < fromSeq) es → Forall (λ e, fromSeq ≤ CE_Sequence e) fs →
  seq_from fromSeq (es ++ fs) = fs.
Proof.
  intros He Hf. rewrite seq_from_app, seq_from_below.
  - induction Hf as [|f fs Hf Hfs IH]; [done|]. unfold seq_from in *. cbn [app].
    rewrite filter_cons, decide_True by done. cbn [app] in IH. by rewrite IH.
  - rewrite Forall_forall in He. intros e Hin. by apply He.
Qed.

Lemma read_next_batch clr net m0 j k opens :
  synced clr net m0 j k → (∀ n, opens n = true) →
  CL_currentSeq (CLR_commandLog clr) > CLR_replicatedSeq clr →
  CommandLog_ReadFrom opens (CLR_commandLog clr) (u64 (CLR_replicatedSeq clr + 1)) CLBatchSize
  = Ret (next_batch clr j).
Proof.
  intros Y Ho Hgt. pose proof (syn_rs _ _ _ _ _ Y). pose proof (syn_seq _ _ _ _ _ Y).
  rewrite u64_small by (unfold is_u64; lia).
  rewrite ReadFrom_eq; [|apply (syn_log _ _ _ _ _ Y)|done|auto].
  unfold next_batch. do 2 f_equal. set (log := log_of (CLR_commandLog clr)).
  destruct (flushed_prefix _ (syn_log _ _ _ _ _ Y)) as [t Ht]. fold log in Ht.
  set (fl := flushed _) in *. rewrite <- (take_drop j fl) at 1.
  destruct (syn_bounds _ _ _ _ _ Y) as [Hjk Hkf]. fold fl in Hkf.
  pose proof (syn_sent _ _ _ _ _ Y) as Hs. pose proof (syn_unsent _ _ _ _ _ Y) as Hu. fold log in Hs, Hu.
  rewrite Ht, take_app_le in Hs by lia. rewrite Ht, drop_app_le in Hu by lia.
  apply Forall_app in Hu as [Hu _]. apply seq_from_split.
  - eapply Forall_impl; [exact Hs|]. cbn. intros. lia.
  - eapply Forall_impl; [exact Hu|]. cbn. intros. lia.
Qed.

(** The batch is the part of the log from [j] on. *)
Lemma next_batch_log clr net m0 j k :
  synced clr net m0 j k →
  take j (log_of (CLR_commandLog clr)) ++ next_batch clr j
  = take (j + length (next_batch clr j)) (log_of (CLR_commandLog clr)) ∧
  (j + length (next_batch clr j) ≤ length (flushed (CL_dir (CLR_commandLog clr))))%nat ∧
  (k ≤ j + length (next_batch clr j))%nat.
Proof.
  intros Y. destruct (syn_bounds _ _ _ _ _ Y) as [Hjk Hkf].
  destruct (flushed_prefix _ (syn_log _ _ _ _ _ Y)) as [t Ht].
  unfold next_batch. set (fl := flushed _) in *. rewrite Ht. split_and!.
  - rewrite !take_app_le by (rewrite ?length_take, ?length_drop; lia).
    rewrite length_take, length_drop. rewrite <- (take_drop j fl) at 4.
    rewrite take_app_add'; [|rewrite length_take; lia]. f_equal.
    destruct (decide (Z.to_nat CLBatchSize ≤ length fl - j)%nat).
    + by rewrite Nat.min_l.
    + rewrite Nat.min_r, !take_ge; [done|rewrite length_drop; lia..|lia].
  - rewrite length_take, length_drop. lia.
  - rewrite length_take, length_drop. lia.
Qed.

Lemma next_batch_replayable clr net m0 j k :
  synced clr net m0 j k → Forall replayable (next_batch clr j).
Proof.
  intros Y. destruct (next_batch_log _ _ _ _ _ Y) as [Hb _].
  pose proof (syn_cmds _ _ _ _ _ Y) as Hc. rewrite <- (take_drop (j + length (next_batch clr j))) in Hc.
  rewrite <- Hb in Hc. rewrite !Forall_app in Hc. tauto.
Qed.

(** Applying the next batch to a replica that has a part of it already. *)
Lemma redo_view clr net m0 j k :
  synced clr net m0 j k →
  batch_apply (db_view (S_db (net_server net))) (cmds_ops (CLR_partitionID clr) (next_batch clr j))
  = batch_apply m0 (cmds_ops (CLR_partitionID clr)
      (take (j + length (next_batch clr j)) (log_of (CLR_commandLog clr)))).
Proof.
  intros Y. destruct (next_batch_log _ _ _ _ _ Y) as (Hb & _ & Hk).
  destruct (syn_bounds _ _ _ _ _ Y) as [[Hjk _] _].
  rewrite (syn_view _ _ _ _ _ Y), <- Hb. set (log := log_of _) in *. set (p := CLR_partitionID clr).
  assert (∃ mid, take k log = take j log ++ mid ∧ mid `prefix_of` next_batch clr j) as (mid & Hmid & [r Hr]).
  { exists (take (k - j) (next_batch clr j)). split.
    - assert (take k log = take k (take (j + length (next_batch clr j)) log)) as ->.
      { rewrite take_take. f_equal. lia. }
      rewrite <- Hb. destruct (decide (j ≤ length log)%nat).
      + replace k with (length (take j log) + (k - j))%nat at 1 by (rewrite length_take; lia).
        by rewrite take_app_add.
      + assert (length (next_batch clr j) = 0%nat) as Hz.
        { apply (f_equal length) in Hb. rewrite length_app, !length_take in Hb. lia. }
        destruct (next_batch clr j); [|done]. rewrite take_nil, app_nil_r, take_take. f_equal.
        simpl in Hk. lia.
    - exists (drop (k - j) (next_batch clr j)). by rewrite take_drop. }
  rewrite Hmid, !cmds_ops_app, !batch_apply_app. apply batch_redo.
  rewrite Hr, cmds_ops_app. by eexists.
Qed.

(** The next call to the replica will be delivered and answered. *)
Definition delivered net : Prop := default Delivered (head (net_faults net)) = Delivered.

Definition net_next net (s : Server D) : Net D := mkNet (net_addr net) s (tail (net_faults net)).

(** A call with a batch of puts. *)
Lemma rpc_puts net p entries co :
  replica_ready (net_server net) p → Forall (λ entry, RE_OpType entry = REP_OP_PUT) entries →
  ∃ s', replica_ready s' p ∧
    db_view (S_db s') = batch_apply (db_view (S_db (net_server net))) (pb_put p <$> entries) ∧
    rpc_Replicate net (net_addr net) (mkReplicateRequest p entries co) =
    match default Delivered (head (net_faults net)) with
    | LostRequest => (net_next net (net_server net), None)
    | LostReply => (net_next net s', None)
    | Delivered => (net_next net s', Some (mkReplicateResponse true (default 0 (RE_Offset <$> last entries)) ""))
    end.
Proof.
  intros Hr Hf. pose proof Hr as [(part & Hp & _) _].
  destruct (replicate_puts_ready (net_server net) p 0 entries Hr Hf) as (s' & Hl & Hr' & Hv). exists s'.
  split_and!; [done..|]. unfold rpc_Replicate, Net_Network. rewrite bool_decide_eq_false_2 by auto.
  unfold Server_Replicate. cbn [RQ_PartitionId RQ_Entries]. rewrite (has_partition_true _ _ _ Hp). cbn [negb]. rewrite Hl.
  by destruct (default Delivered (head (net_faults net))).
Qed.

(** One call: the batch is applied unless the request is lost. *)
Lemma rpc_batch clr net m0 j k :
  synced clr net m0 j k →
  ∃ s', replica_ready s' (CLR_partitionID clr) ∧
    db_view (S_db s') = batch_apply m0 (cmds_ops (CLR_partitionID clr)
      (take (j + length (next_batch clr j)) (log_of (CLR_commandLog clr)))) ∧
    (rpc_Replicate net (net_addr net) (batch_request (CLR_partitionID clr) (next_batch clr j))
       = (net_next net (net_server net), None) ∧ ¬ delivered net ∨
     rpc_Replicate net (net_addr net) (batch_request (CLR_partitionID clr) (next_batch clr j))
       = (net_next net s', None) ∧ ¬ delivered net ∨
     ∃ resp, rpc_Replicate net (net_addr net) (batch_request (CLR_partitionID clr) (next_batch clr j))
       = (net_next net s', Some resp)).
Proof.
  intros Y. destruct (Replicate_ready (net_server net) (CLR_partitionID clr) (next_batch clr j)
    (syn_ready _ _ _ _ _ Y) (next_batch_replayable _ _ _ _ _ Y)) as (s' & la & Hr & Hrd & Hv).
  exists s'. split; [done|]. split; [by rewrite Hv, (redo_view _ _ _ _ _ Y)|].
  unfold rpc_Replicate, Net_Network, delivered, net_next. rewrite bd_not, Hr.
  destruct (default Delivered (head (net_faults net))); eauto.
Qed.

Lemma synced_view clr net m0 j k clr' net' j' k' :
  synced clr net m0 j k →
  CLR_commandLog clr' = CLR_commandLog clr → CLR_partitionID clr' = CLR_partitionID clr →
  CLR_replicaAddr clr' = CLR_replicaAddr clr → net_addr net' = net_addr net →
  (CLR_conn clr' = true → CLR_client clr' = Some (net_addr net)) →
  replica_ready (net_server net') (CLR_partitionID clr) →
  0 ≤ CLR_replicatedSeq clr' →
  Forall (λ e, CE_Sequence e ≤ CLR_replicatedSeq clr') (take j' (log_of (CLR_commandLog clr))) →
  Forall (λ e, CLR_replicatedSeq clr' < CE_Sequence e) (drop j' (log_of (CLR_commandLog clr))) →
  (j' ≤ k' ≤ j' + Z.to_nat CLBatchSize)%nat → (k' ≤ length (flushed (CL_dir (CLR_commandLog clr))))%nat →
  db_view (S_db (net_server net')) =
    batch_apply m0 (cmds_ops (CLR_partitionID clr) (take k' (log_of (CLR_commandLog clr)))) →
  synced clr' net' m0 j' k'.
Proof.
  intros Y Hl Hp Ha Hn Hc Hr H0s Hs Hu Hb1 Hb2 Hv. destruct Y.
  split; rewrite ?Hl, ?Hp, ?Ha, ?Hn; done.
Qed.

(** After a batch ending in [lastEntry] was answered. *)
Lemma batch_boundary clr net m0 j k e :
  synced clr net m0 j k → last (next_batch clr j) = Some e →
  let j' := (j + length (next_batch clr j))%nat in
  0 ≤ CE_Sequence e ∧
  Forall (λ x, CE_Sequence x ≤ CE_Sequence e) (take j' (log_of (CLR_commandLog clr))) ∧
  Forall (λ x, CE_Sequence e < CE_Sequence x) (drop j' (log_of (CLR_commandLog clr))).
Proof.
  intros Y Hlast j'. destruct (next_batch_log _ _ _ _ _ Y) as (Hb & _).
  apply last_Some in Hlast as [b' Hb']. fold j' in Hb. set (log := log_of _) in *.
  pose proof (syn_log _ _ _ _ _ Y) as (older & cur & es & I).
  assert (StronglySorted Z.lt (map CE_Sequence log)) as Hsort.
  { unfold log. rewrite (log_of_inv _ _ _ _ I). apply (inv_seqs _ _ _ _ I). }
  assert (log = (take j log ++ b') ++ e :: drop j' log) as Hlog.
  { rewrite <- (take_drop j' log) at 1. rewrite <- Hb, Hb', <- !app_assoc. done. }
  split_and!.
  - pose proof (inv_max _ _ _ _ I) as Hm. rewrite <- (log_of_inv _ _ _ _ I) in Hm. fold log in Hm.
    rewrite Hlog in Hm. apply Forall_app in Hm as [_ Hm]. inversion Hm; subst. lia.
  - rewrite <- Hb, Hb', app_assoc. apply Forall_app. split; [|by constructor].
    apply Forall_forall. intros x Hx. rewrite Hlog in Hsort.
    pose proof (sorted_before _ _ _ Hsort x Hx). lia.
  - rewrite Hlog in Hsort. rewrite map_app in Hsort. cbn [map] in Hsort.
    clear -Hsort. induction (map CE_Sequence (take j log ++ b')) as [|y l IH]; cbn [app] in Hsort.
    + inversion Hsort as [|? ? _ Hall]; subst. rewrite Forall_map in Hall. exact Hall.
    + inversion Hsort; subst. by apply IH.
Qed.

Lemma idle_batch clr net m0 j k :
  synced clr net m0 j k → CL_currentSeq (CLR_commandLog clr) ≤ CLR_replicatedSeq clr →
  next_batch clr j = [].
Proof.
  intros Y Hle. pose proof (syn_log _ _ _ _ _ Y) as Hok. destruct (flushed_prefix _ Hok) as [t Ht].
  destruct Hok as (older & cur & es & I). pose proof (inv_max _ _ _ _ I) as Hm.
  rewrite <- (log_of_inv _ _ _ _ I) in Hm. pose proof (syn_unsent _ _ _ _ _ Y) as Hu.
  destruct (drop j (log_of (CLR_commandLog clr))) as [|e r] eqn:E.
  - unfold next_batch. rewrite Ht in E. destruct (syn_bounds _ _ _ _ _ Y) as [? ?].
    rewrite drop_app_le in E by lia. apply app_eq_nil in E as [-> _]. apply take_nil.
  - inversion Hu; subst. assert (e ∈ log_of (CLR_commandLog clr)) as Hin.
    { rewrite <- (take_drop j (log_of _)), E. set_solver. }
    rewrite Forall_forall in Hm. specialize (Hm _ Hin). lia.
Qed.

(** One round of replication: whatever the network does, the replica stays a
    prefix of the log; if it is reachable, the whole batch gets through. *)
Lemma sync_step clr net m0 j k env :
  synced clr net m0 j k → (∀ n, se_opens env n = true) →
  ∃ clr' net' j' k', syncToReplica clr net env = Ret (clr', net') ∧ synced clr' net' m0 j' k' ∧
    (j ≤ j')%nat ∧ CLR_commandLog clr' = CLR_commandLog clr ∧
    (net_faults net' = net_faults net ∨ net_faults net' = tail (net_faults net)) ∧
    (se_dial_ok env = true → delivered net → j' = (j + length (next_batch clr j))%nat ∧
       (j' ≠ j → k' = j')).
Proof.
  intros Y Ho. unfold syncToReplica.
  destruct (Z.leb_spec (CL_currentSeq (CLR_commandLog clr)) (CLR_replicatedSeq clr)) as [Hle|Hgt].
  { exists clr, net, j, k. split_and!; try done; [by left|]. intros _ _.
    rewrite (idle_batch _ _ _ _ _ Y Hle). simpl. lia. }
  destruct (connectToReplica clr env) as [clr1 [e|]] eqn:Hconn; unfold connectToReplica in Hconn.
  { destruct (CLR_conn clr) eqn:Ec; [done|]. destruct (se_dial_ok env) eqn:Ed; [done|]. simplify_eq.
    exists clr1, net, j, k. split_and!; try done. by left. }
  assert (synced clr1 net m0 j k ∧ CLR_client clr1 = Some (net_addr net) ∧ CLR_conn clr1 = true ∧
    CLR_commandLog clr1 = CLR_commandLog clr ∧ CLR_replicatedSeq clr1 = CLR_replicatedSeq clr)
    as (Y1 & Hcl & Hc1 & Hlog1 & Hrs1).
  { destruct (CLR_conn clr) eqn:Ec; [simplify_eq; split_and!; try done; by apply (syn_conn _ _ _ _ _ Y)|].
    destruct (se_dial_ok env); simplify_eq. split_and!; try done; [|by rewrite (syn_addr _ _ _ _ _ Y)].
    destruct Y as [Y1 Y2 Y3 Y4 Y5 Y6 Y7 Y8 Y9 Y10 Y11]. split; try done. cbn. intros _. by rewrite Y5. }
  clear Hconn. rewrite <- Hrs1.
  rewrite (read_next_batch clr1 net m0 j k); [|done..|rewrite Hlog1, Hrs1; lia].
  assert (next_batch clr j = next_batch clr1 j) as Hnb by (unfold next_batch; by rewrite Hlog1).
  rewrite Hnb. destruct (last (next_batch clr1 j)) as [lastE|] eqn:Hlast.
  2:{ apply last_None in Hlast. rewrite Hlast. exists clr1, net, j, k.
      split_and!; try done; try (by left); simpl; lia. }
  unfold sendBatch. rewrite Hcl.
  destruct (next_batch_log _ _ _ _ _ Y1) as (_ & Hnf & Hnk).
  destruct (syn_bounds _ _ _ _ _ Y1) as [Hjk Hkf].
  assert (length (next_batch clr1 j) ≤ Z.to_nat CLBatchSize)%nat as Hsz
    by (unfold next_batch; rewrite length_take; lia).
  destruct (rpc_batch _ _ _ _ _ Y1) as (s' & Hrd & Hv & [[-> Hnd]|[[-> Hnd]|[resp ->]]]).
  - rewrite Hc1. do 2 eexists. exists j, k. split; [done|]. split_and!; try done; [|by right].
    eapply synced_view; try done; apply Y1.
  - rewrite Hc1. do 2 eexists. exists j, (j + length (next_batch clr1 j))%nat.
    split; [done|]. split_and!; try done; [|by right].
    eapply synced_view; try done; first [apply Y1 | lia].
  - destruct (batch_boundary _ _ _ _ _ _ Y1 Hlast) as (H0e & Hbs & Hbu).
    do 2 eexists. exists (j + length (next_batch clr1 j))%nat, (j + length (next_batch clr1 j))%nat.
    split; [done|]. split_and!; try done; [|lia|by right].
    eapply synced_view; try done; cbn; lia.
Qed.
End convergence.

(** ** Rounds of replication *)

(** The ticks of [replicationLoop]. *)
Fixpoint replicationLoop {N} `{Network N} (ticks : nat) (clr : CommandLogReplicator) (net : N)
    (env : nat → SyncEnv) : outcome (CommandLogReplicator * N) :=
  match ticks with
  | O => Ret (clr, net)
  | S n => '(clr, net) ← syncToReplica clr net (env n); replicationLoop n clr net env
  end.

Section rounds.
  Context {D : Type} `{EngineLaws D}.
Implicit Types (clr : CommandLogReplicator) (net : Net D).

Lemma replicationLoop_synced ticks clr net env m0 j k :
  synced clr net m0 j k → (∀ i n, se_opens (env i) n = true) →
  ∃ clr' net' j' k', replicationLoop ticks clr net env = Ret (clr', net') ∧
    synced clr' net' m0 j' k' ∧ (j ≤ j')%nat ∧ CLR_commandLog clr' = CLR_commandLog clr ∧
    CLR_partitionID clr' = CLR_partitionID clr ∧
    ((∀ i, se_dial_ok (env i) = true) → net_faults net = [] →
     (length (flushed (CL_dir (CLR_commandLog clr))) - j ≤ ticks * Z.to_nat CLBatchSize)%nat →
     j' = length (flushed (CL_dir (CLR_commandLog clr)))).
Proof.
  intros Y Ho. revert clr net j k Y. induction ticks as [|ticks IH]; intros clr net j k Y.
  { exists clr, net, j, k. split_and!; try done. intros _ _ Hle.
    destruct (syn_bounds _ _ _ _ _ Y). lia. }
  cbn [replicationLoop].
  destruct (sync_step clr net m0 j k (env ticks) Y (Ho ticks))
    as (clr1 & net1 & j1 & k1 & Hs & Y1 & Hj1 & Hlog1 & Hf1 & Hgood).
  rewrite Hs. cbn [mbind outcome_bind].
  destruct (IH clr1 net1 j1 k1 Y1) as (clr2 & net2 & j2 & k2 & -> & Y2 & Hj2 & Hlog2 & Hp2 & Hdone).
  exists clr2, net2, j2, k2. rewrite Hlog1 in *.
  assert (CLR_partitionID clr1 = CLR_partitionID clr) as Hp1.
  { clear -Hs. unfold syncToReplica, connectToReplica in Hs.
    repeat (case_match; simplify_eq/=; try done). }
  split_and!; [done..|lia|done|congruence|].
  intros Hd Hnf Hle. apply Hdone; [done| |].
  - destruct Hf1 as [->| ->]; rewrite Hnf; done.
  - destruct Hgood as [-> _]; [done|unfold delivered; by rewrite Hnf|].
    destruct (next_batch_log _ _ _ _ _ Y) as (_ & Hb & _).
    assert (length (next_batch clr j) =
      Nat.min (Z.to_nat CLBatchSize) (length (flushed (CL_dir (CLR_commandLog clr))) - j)) as Hlen
      by (unfold next_batch; by rewrite length_take, length_drop).
    lia.
Qed.
End rounds.

(** C3: asynchronous replication never corrupts a replica that accepts its batches.
    The start is a replicator in step with its replica: the log satisfies its
    invariant and its field batches decode, its files can be opened, the replica is
    at the configured address, hosts the partition as NORMAL on an engine that
    writes, and its data is a prefix of the primary's log that is at most one batch
    longer than the part recorded as replicated.  Then any number of rounds, with
    requests lost, replies lost after the batch was applied, connections refused and
    batches sent again, leaves a replica whose data is again what applying a prefix
    of the log to the initial data gives, at least as long as the part recorded as
    replicated, which never shrinks.  A replica that rejects a batch is not covered:
    the batch is then skipped. *)
Theorem replica_is_log_prefix {D} `{EngineLaws D} ticks clr (net : Net D) env m0 j k :
  synced clr net m0 j k → (∀ i n, se_opens (env i) n = true) →
  ∃ clr' net' j' k', replicationLoop ticks clr net env = Ret (clr', net') ∧
    (j ≤ j' ≤ k')%nat ∧
    Forall (λ e, CE_Sequence e ≤ CLR_replicatedSeq clr') (take j' (log_of (CLR_commandLog clr))) ∧
    Forall (λ e, CLR_replicatedSeq clr' < CE_Sequence e) (drop j' (log_of (CLR_commandLog clr))) ∧
    db_view (S_db (net_server net')) =
      batch_apply m0 (cmds_ops (CLR_partitionID clr) (take k' (log_of (CLR_commandLog clr)))).
Proof.
  intros Y Ho. destruct (replicationLoop_synced ticks clr net env m0 j k Y Ho)
    as (clr' & net' & j' & k' & Hr & Y' & Hj & Hlog & Hp & _).
  exists clr', net', j', k'. destruct Y' as [_ _ _ _ _ _ _ Hs Hu [[? _] _] Hv].
  rewrite Hlog, ?Hp in *. split_and!; [done|lia|done|done..].
Qed.

(** C6: a reachable replica that accepts its batches catches up.  From a replicator in
    step with its replica (the log satisfies its invariant and its field batches
    decode, its files can be opened, the replica is at the configured address, hosts
    the partition as NORMAL on an engine that writes, and holds a prefix of the log
    that is at most one batch longer than the part recorded as replicated), with a
    network that delivers and a replica that can be dialled, enough rounds of 500
    commands bring over everything that
    was flushed, and the replica's data is then exactly the effect of all flushed
    commands.  A replica that rejects batches is skipped by the code and does not
    catch up. *)
Theorem replica_catches_up {D} `{EngineLaws D} ticks clr (net : Net D) env m0 j k :
  synced clr net m0 j k → (∀ i n, se_opens (env i) n = true) →
  (∀ i, se_dial_ok (env i) = true) → net_faults net = [] →
  (length (flushed (CL_dir (CLR_commandLog clr))) ≤ ticks * Z.to_nat CLBatchSize)%nat →
  ∃ clr' net', replicationLoop ticks clr net env = Ret (clr', net') ∧
    db_view (S_db (net_server net')) =
      batch_apply m0 (cmds_ops (CLR_partitionID clr) (flushed (CL_dir (CLR_commandLog clr)))).
Proof.
  intros Y Ho Hd Hf Hle. destruct (replicationLoop_synced ticks clr net env m0 j k Y Ho)
    as (clr' & net' & j' & k' & Hr & Y' & _ & Hlog & Hp & Hdone).
  exists clr', net'. split; [done|]. rewrite (syn_view _ _ _ _ _ Y'), Hlog, Hp.
  destruct (syn_bounds _ _ _ _ _ Y') as [Hjk Hkf]. rewrite Hlog in Hkf.
  specialize (Hdone Hd Hf ltac:(lia)). assert (k' = j') as -> by lia. rewrite Hdone.
  destruct (flushed_prefix _ (syn_log _ _ _ _ _ Y)) as [t ->]. by rewrite take_app_length.
Qed.

(** *** A concrete pair *)

Definition demo_clr : CommandLogReplicator :=
  mkReplicator 7 "n2" true (CommandLog_Sync demo_log3 (demo_env 104)).1 0 false None None true.

Definition demo_net (faults : list netfault) : Net MemDB :=
  mkNet "n2" (demo_server ∅ {[ 7 := mkPartition 7 NORMAL false 0 ]}) faults.

Lemma demo_log_flushed : flushed (CL_dir (CLR_commandLog demo_clr)) = demo_entries.
Proof. vm_compute. reflexivity. Qed.

Lemma demo_log_reached : log_ok (CLR_commandLog demo_clr) ∧ log_of (CLR_commandLog demo_clr) = demo_entries.
Proof. destruct (Sync_ok demo_log3 (demo_env 104) (log_trace_ok _ _ demo_reach)). split; [done|vm_compute; reflexivity]. Qed.

Lemma demo_synced faults : synced demo_clr (demo_net faults) ∅ 0 0.
Proof.
  pose proof demo_log_reached as [Hok Hl].
  split.
  - exact Hok.
  - vm_compute. reflexivity.
  - rewrite Hl. repeat constructor; intros Hc; by vm_compute in Hc.
  - intros [=].
  - reflexivity.
  - split; [|by split]. exists (mkPartition 7 NORMAL false 0).
    split; vm_compute; reflexivity.
  - apply Z.le_refl.
  - rewrite take_0. constructor.
  - rewrite drop_0, Hl. repeat constructor.
  - rewrite demo_log_flushed. cbn [length demo_entries]. lia.
  - rewrite take_0. reflexivity.
Qed.

Definition demo_sync_env : nat → SyncEnv := λ _, mkSyncEnv (λ _, true) true true true true.

Lemma replica_is_log_prefix_witness :
  ∃ clr' net' j' k',
    replicationLoop 3 demo_clr (demo_net [LostReply; LostRequest]) demo_sync_env = Ret (clr', net') ∧
    (0 ≤ j' ≤ k')%nat ∧
    db_view (S_db (net_server net')) = batch_apply ∅ (cmds_ops 7 (take k' demo_entries)).
Proof.
  pose proof (replica_is_log_prefix 3 demo_clr (demo_net [LostReply; LostRequest]) demo_sync_env ∅ 0 0
    (demo_synced _) (λ _ _, eq_refl)) as (clr' & net' & j' & k' & Hr & Hj & _ & _ & Hv).
  exists clr', net', j', k'. split_and!; [exact Hr|lia|lia|].
  rewrite Hv, (proj2 demo_log_reached). reflexivity.
Defined.

Lemma replica_catches_up_witness :
  ∃ clr' net', replicationLoop 1 demo_clr (demo_net []) demo_sync_env = Ret (clr', net') ∧
    db_view (S_db (net_server net')) = batch_apply ∅ (cmds_ops 7 demo_entries).
Proof.
  assert (length (flushed (CL_dir (CLR_commandLog demo_clr))) ≤ 1 * Z.to_nat CLBatchSize)%nat as Hle.
  { rewrite demo_log_flushed. unfold CLBatchSize. cbn [length demo_entries]. lia. }
  pose proof (replica_catches_up 1 demo_clr (demo_net []) demo_sync_env ∅ 0 0
    (demo_synced _) (λ _ _, eq_refl) (λ _, eq_refl) eq_refl Hle) as (clr' & net' & Hr & Hv).
  exists clr', net'. split; [exact Hr|]. rewrite Hv, demo_log_flushed. reflexivity.
Defined.

(** A batch the replica rejects is dropped: when the call succeeds but the reply
    says the batch was not applied (the partition is not there, is not writable,
    or the engine failed), the replicator advances its sequence number and its
    checkpoint past the batch all the same, and the next round starts after it. *)
Lemma rejected_batch_is_skipped {N} `{Network N} clr (net net' : N) env addr entries lastEntry resp :
  CL_currentSeq (CLR_commandLog clr) > CLR_replicatedSeq clr →
  CLR_conn clr = true → CLR_client clr = Some addr →
  CommandLog_ReadFrom (se_opens env) (CLR_commandLog clr) (u64 (CLR_replicatedSeq clr + 1)) CLBatchSize
    = Ret entries →
  last entries = Some lastEntry →
  rpc_Replicate net addr (batch_request (CLR_partitionID clr) entries) = (net', Some resp) →
  RS_Success resp = false →
  ∃ clr', replicationLoop 1 clr net (λ _, env) = Ret (clr', net') ∧
    CLR_replicatedSeq clr' = CE_Sequence lastEntry ∧
    CLR_checkpoint clr' = saveCheckpoint (CLR_checkpoint clr) env (CE_Sequence lastEntry).
Proof.
  intros Hgt Hc Hcl Hr Hl Hrpc Hrej. cbn [replicationLoop].
  unfold syncToReplica, connectToReplica, sendBatch.
  rewrite (proj2 (Z.leb_gt _ _)) by lia. rewrite Hc, Hr, Hl, Hcl, Hrpc. by eexists.
Qed.

Lemma rejected_batch_is_skipped_witness :
  let net := mkNet "n2" (demo_server ∅ ∅) [] in
  let clr := CLR_set_conn demo_clr true (Some "n2") in
  ∃ clr' net', replicationLoop 1 clr net (λ _, demo_sync_env 0) = Ret (clr', net') ∧
    CLR_replicatedSeq clr' = 2 ∧ db_view (S_db (net_server net')) = ∅.
Proof.
  intros net clr.
  destruct (rpc_Replicate net "n2" (batch_request (CLR_partitionID clr) demo_entries)) as [net' o] eqn:Hrpc.
  assert (o = Some (mkReplicateResponse false 0 "partition not found")) as Ho.
  { transitivity (rpc_Replicate net "n2" (batch_request (CLR_partitionID clr) demo_entries)).2;
      [by rewrite Hrpc|vm_compute; reflexivity]. }
  assert (db_view (S_db (net_server net')) = ∅) as Hv.
  { transitivity (db_view (S_db (net_server
      (rpc_Replicate net "n2" (batch_request (CLR_partitionID clr) demo_entries)).1)));
      [by rewrite Hrpc|vm_compute; reflexivity]. }
  subst o.
  assert (CommandLog_ReadFrom (se_opens (demo_sync_env 0)) (CLR_commandLog clr)
    (u64 (CLR_replicatedSeq clr + 1)) CLBatchSize = Ret demo_entries) as Hr.
  { vm_compute. reflexivity. }
  assert (CL_currentSeq (CLR_commandLog clr) > CLR_replicatedSeq clr) as Hgt by (vm_compute; reflexivity).
  pose proof (rejected_batch_is_skipped clr net net' (demo_sync_env 0) "n2" demo_entries
    (log_entry 2 103 CmdTypeDelete (str_bytes "a") []) _ Hgt eq_refl eq_refl Hr eq_refl Hrpc eq_refl)
    as (clr' & Hs & Hq & _).
  exists clr', net'. split_and!; [exact Hs|rewrite Hq; reflexivity|exact Hv].
Defined.

(** ** Recovery from the log *)

(** A put or delete of a user key that does not itself look like a storage key. *)
Definition plain_cmd (e : CommandEntry) : Prop :=
  (CE_CmdType e = CmdTypePut ∨ CE_CmdType e = CmdTypeDelete) ∧ has_prefix (CE_Key e) PartitionKeyPrefix = false.

#[global] Instance plain_cmd_dec e : Decision (plain_cmd e).
Proof. unfold plain_cmd. apply _. Defined.

Lemma plain_cmd_replayable e : plain_cmd e → replayable e.
Proof. intros [[He|He] _] Hf; rewrite He in Hf; by vm_compute in Hf. Qed.

Lemma apply_plain p m es q key :
  Forall plain_cmd es →
  foldl (apply_entry p) m es !! MakePartitionKey q key = m !! MakePartitionKey q key.
Proof.
  intros Hes. revert m. induction Hes as [|e es [Ht Hk] Hes IH]; intros m; [done|]. cbn [foldl].
  rewrite IH. assert (CE_Key e ≠ MakePartitionKey q key) as Hne.
  { intros Heq. rewrite Heq in Hk. unfold MakePartitionKey in Hk. rewrite <- app_assoc in Hk.
    rewrite (proj2 (has_prefix_true _ _)) in Hk by (by eexists). done. }
  unfold apply_entry. destruct Ht as [-> | ->].
  - rewrite bool_decide_eq_true_2 by done. by rewrite lookup_insert_ne.
  - rewrite bool_decide_eq_false_2, bool_decide_eq_true_2 by done. by rewrite lookup_delete_ne.
Qed.

(** Recovering a partition from its command log restores none of its keys: the
    log holds the users' keys and the replay writes them as they are, while reads
    look under the partition's prefix.  After a recovery that reports success,
    every [Get] of every partition answers what it answered before. *)
Lemma recovery_restores_no_key {D} `{EngineLaws D} opens (s s' : Server D) p clr q key :
  S_replicators s !! p = Some clr → db_healthy (S_db s) →
  (∀ f, f ∈ CL_dir (CLR_commandLog clr) → opens (LF_num f) = true) →
  Forall plain_cmd (flushed (CL_dir (CLR_commandLog clr))) →
  Server_RecoverPartition opens s p = (s', None) → db_healthy (S_db s') →
  Server_Get s' key q = Server_Get s key q.
Proof.
  intros Hclr Hh Ho Hes. unfold Server_RecoverPartition, CommandLogReplicator_ReplayTo, CommandLog_ReplayTo.
  rewrite Hclr. set (cl := CLR_commandLog clr) in *.
  destruct (replay_files_healthy opens (CL_partitionID cl) 0 (S_db s) 0 (CL_dir cl) Hh)
    as (db' & -> & _ & Hv); [by eapply Forall_impl; [|apply plain_cmd_replayable]|done|].
  intros Heq Hh'. injection Heq as <-.
  unfold Server_Get, PartitionManager_Get, PartitionManager_HasPartition, S_db in *.
  cbn [S_pm S_set_pm PM_partitions PM_set_db PM_db] in *.
  case_match; [done|]. rewrite !RocksDB_Get_healthy by done. f_equal. f_equal.
  rewrite Hv. apply apply_plain. apply Forall_forall. intros e He.
  apply list_elem_of_filter in He as [_ He]. rewrite Forall_forall in Hes. by apply Hes.
Qed.

Definition demo_lost_server : Server MemDB :=
  S_set_replicators (demo_server ∅ {[ 7 := mkPartition 7 NORMAL true 0 ]})
    {[ 7 := CLR_set_log demo_clr demo_log2 ]} ∅.

Lemma recovery_restores_no_key_witness :
  ∃ s', Server_RecoverPartition (λ _, true) demo_lost_server 7 = (s', None) ∧
    Server_Get s' (str_bytes "a") 7 = Server_Get demo_lost_server (str_bytes "a") 7.
Proof.
  destruct (Server_RecoverPartition (λ _, true) demo_lost_server 7) as [s' o] eqn:E.
  assert ((o, mem_faults (S_db s'), mem_rfault (S_db s')) = (None, [], false)) as Hx.
  { transitivity (let r := Server_RecoverPartition (λ _, true) demo_lost_server 7 in
      (r.2, mem_faults (S_db r.1), mem_rfault (S_db r.1))); [by rewrite E|vm_compute; reflexivity]. }
  injection Hx as -> Hf1 Hf2. exists s'. split; [reflexivity|].
  assert (S_replicators demo_lost_server !! 7 = Some (CLR_set_log demo_clr demo_log2)) as H1
    by (vm_compute; reflexivity).
  assert (db_healthy (S_db demo_lost_server)) as H2 by (split; [constructor|reflexivity]).
  assert (Forall plain_cmd (flushed (CL_dir (CLR_commandLog (CLR_set_log demo_clr demo_log2))))) as H3
    by (apply (bool_decide_unpack _); by vm_compute).
  assert (db_healthy (S_db s')) as H4 by (split; [rewrite Hf1; constructor|exact Hf2]).
  exact (recovery_restores_no_key (λ _, true) demo_lost_server s' 7 _ 7 (str_bytes "a") H1 H2
    (λ _ _, eq_refl) H3 E H4).
Defined.
