(* ===== verification/WalReplicator.v ===== *)
(** * The WAL replicator

    [WALReplicator] of [src/pkg/storage/wal_replicator.go]: writes go to a ring
    buffer of 100000 entries under a sequence number, and a loop sends the entries
    after the last replicated one to the replica in batches of 500.  No production
    code starts it; the command log replicator took its place.

    [Append] does three atomic steps (the sequence number, the index, the store),
    which the definitions keep apart, because other goroutines can run between
    them.  The loop collects entries in the order of the ring, not of their
    numbers, and the lemmas say when that is harmless: two rounds over a network
    that delivers bring the replica up to date as long as the ring was not
    overrun; and when it is not: a batch that fails behind the wrap is never sent. *)

From S2P Require Import Prelude Engine Keys Proto Partitions Replicator StorageServer Replication.

Definition WALBatchSize : Z := 500.
Definition WALBufferSize : Z := 100000.

Record WALEntry := mkWALEntry {
  WE_Sequence : Z;
  WE_Key : bytes;
  WE_Value : bytes;
  WE_IsDelete : bool;
  WE_Timestamp : Z
}.

Record WALReplicator := mkWALReplicator {
  WR_partitionID : Z;
  WR_replicaAddr : string;
  WR_isPrimary : bool;
  WR_currentSeq : Z;
  WR_replicatedSeq : Z;
  WR_buffer : gmap Z WALEntry;     (** the entries of the ring that are not nil *)
  WR_bufferIdx : Z;
  WR_conn : bool;                  (** [replicaConn] is not nil *)
  WR_client : option string;       (** [replicaClient], by the address it was dialled at *)
  WR_running : bool                (** the loop was started *)
}.

Definition WR_set_seqs (wr : WALReplicator) (currentSeq replicatedSeq : Z) : WALReplicator :=
  mkWALReplicator (WR_partitionID wr) (WR_replicaAddr wr) (WR_isPrimary wr) currentSeq replicatedSeq
    (WR_buffer wr) (WR_bufferIdx wr) (WR_conn wr) (WR_client wr) (WR_running wr).
Definition WR_set_ring (wr : WALReplicator) (buffer : gmap Z WALEntry) (bufferIdx : Z) : WALReplicator :=
  mkWALReplicator (WR_partitionID wr) (WR_replicaAddr wr) (WR_isPrimary wr) (WR_currentSeq wr) (WR_replicatedSeq wr)
    buffer bufferIdx (WR_conn wr) (WR_client wr) (WR_running wr).
Definition WR_set_conn (wr : WALReplicator) (conn : bool) (client : option string) : WALReplicator :=
  mkWALReplicator (WR_partitionID wr) (WR_replicaAddr wr) (WR_isPrimary wr) (WR_currentSeq wr) (WR_replicatedSeq wr)
    (WR_buffer wr) (WR_bufferIdx wr) conn client (WR_running wr).
Definition WR_set_running (wr : WALReplicator) (running : bool) : WALReplicator :=
  mkWALReplicator (WR_partitionID wr) (WR_replicaAddr wr) (WR_isPrimary wr) (WR_currentSeq wr) (WR_replicatedSeq wr)
    (WR_buffer wr) (WR_bufferIdx wr) (WR_conn wr) (WR_client wr) running.

Definition NewWALReplicator (partitionID : Z) (isPrimary : bool) (replicaAddr : string) : WALReplicator :=
  mkWALReplicator partitionID replicaAddr isPrimary 0 0 ∅ 0 false None false.

Definition WALReplicator_Start (wr : WALReplicator) : WALReplicator :=
  if negb (WR_isPrimary wr) || bool_decide (WR_replicaAddr wr = "") then wr else WR_set_running wr true.

(** The three steps of [Append]: [atomic.AddUint64] of the sequence number,
    [atomic.AddInt64] of the index, the store under the lock. *)
Definition append_seq (wr : WALReplicator) : WALReplicator * Z :=
  let seq := u64 (WR_currentSeq wr + 1) in (WR_set_seqs wr seq (WR_replicatedSeq wr), seq).

Definition append_idx (wr : WALReplicator) : WALReplicator * Z :=
  let idx := i64 (WR_bufferIdx wr + 1) in (WR_set_ring wr (WR_buffer wr) idx, idx - 1).

Definition append_store (wr : WALReplicator) (idx : Z) (entry : WALEntry) : WALReplicator :=
  WR_set_ring wr (<[Z.rem idx WALBufferSize := entry]> (WR_buffer wr)) (WR_bufferIdx wr).

(** [now] is [time.Now().UnixNano()]. *)
Definition WALReplicator_Append (wr : WALReplicator) (now : Z) (key value : bytes) (isDelete : bool) :
    WALReplicator * Z :=
  if negb (WR_isPrimary wr) then (wr, 0)
  else
    let '(wr, seq) := append_seq wr in
    let entry := mkWALEntry seq key value isDelete now in
    let '(wr, idx) := append_idx wr in
    (append_store wr idx entry, seq).

Definition WALReplicator_GetCurrentSequence (wr : WALReplicator) : Z := WR_currentSeq wr.
Definition WALReplicator_GetReplicatedSequence (wr : WALReplicator) : Z := WR_replicatedSeq wr.
Definition WALReplicator_GetReplicationLag (wr : WALReplicator) : Z := u64 (WR_currentSeq wr - WR_replicatedSeq wr).

Definition WALReplicator_connectToReplica (wr : WALReplicator) (dial_ok : bool) : WALReplicator * option goerr :=
  if WR_conn wr then (wr, None)
  else if dial_ok then (WR_set_conn wr true (Some (WR_replicaAddr wr)), None)
  else (wr, Some (Errorf "dial failed")).

(** The loop over the ring, with [n] indices left from [i] on. *)
Fixpoint collect_loop (buffer : gmap Z WALEntry) (fromSeq toSeq : Z) (n : nat) (i : Z) : list WALEntry :=
  match n with
  | O => []
  | Datatypes.S n =>
      match buffer !! i with
      | Some entry =>
          if (fromSeq <=? WE_Sequence entry) && (WE_Sequence entry <=? toSeq)
          then entry :: collect_loop buffer fromSeq toSeq n (i + 1)
          else collect_loop buffer fromSeq toSeq n (i + 1)
      | None => collect_loop buffer fromSeq toSeq n (i + 1)
      end
  end.

Definition collectEntries (wr : WALReplicator) (fromSeq toSeq : Z) : list WALEntry :=
  collect_loop (WR_buffer wr) fromSeq toSeq (Z.to_nat WALBufferSize) 0.

(** The operation type is not set, so it is the zero value of the enum. *)
Definition wal_pb_entry (entry : WALEntry) : ReplicationEntry :=
  mkReplicationEntry (i64 (WE_Sequence entry)) (WE_Key entry) (WE_Value entry) (WE_IsDelete entry)
    (WE_Timestamp entry) REP_OP_PUT.

Definition wal_request (partitionID : Z) (entries : list WALEntry) : ReplicateRequest :=
  mkReplicateRequest partitionID (map wal_pb_entry entries)
    (foldl (λ m e, if m <? i64 (WE_Sequence e) then i64 (WE_Sequence e) else m) 0 entries).

Section Wal.
  Context {N : Type} `{Network N}.

(** A rejection is only logged. *)
Definition WALReplicator_sendBatch (wr : WALReplicator) (net : N) (entries : list WALEntry) : N * option goerr :=
  match WR_client wr with
  | None => (net, None)
  | Some addr =>
      match rpc_Replicate net addr (wal_request (WR_partitionID wr) entries) with
      | (net, None) => (net, Some (Errorf "rpc failed"))
      | (net, Some _) => (net, None)
      end
  end.

(** The loop over the batches.  The fuel is the number of entries: a batch has at
    least one. *)
Fixpoint send_batches (fuel : nat) (wr : WALReplicator) (net : N) (entries : list WALEntry) : WALReplicator * N :=
  match fuel, entries with
  | O, _ | _, [] => (wr, net)
  | Datatypes.S fuel, _ =>
      let batch := take (Z.to_nat WALBatchSize) entries in
      match WALReplicator_sendBatch wr net batch with
      | (net, Some _) => ((if WR_conn wr then WR_set_conn wr false None else wr), net)
      | (net, None) =>
          let lastSeq := default 0 (WE_Sequence <$> last batch) in
          send_batches fuel (WR_set_seqs wr (WR_currentSeq wr) lastSeq) net (drop (Z.to_nat WALBatchSize) entries)
      end
  end.

Definition WALReplicator_syncToReplica (wr : WALReplicator) (net : N) (dial_ok : bool) : WALReplicator * N :=
  let currentSeq := WALReplicator_GetCurrentSequence wr in
  let replicatedSeq := WALReplicator_GetReplicatedSequence wr in
  if currentSeq <=? replicatedSeq then (wr, net)
  else
    match WALReplicator_connectToReplica wr dial_ok with
    | (wr, Some _) => (wr, net)
    | (wr, None) =>
        let entries := collectEntries wr (u64 (replicatedSeq + 1)) currentSeq in
        send_batches (length entries) wr net entries
    end.

(** [replicationLoop] for these ticks, each with the outcome of a dial. *)
Fixpoint WALReplicator_replicationLoop (wr : WALReplicator) (net : N) (ticks : list bool) : WALReplicator * N :=
  match ticks with
  | [] => (wr, net)
  | dial_ok :: ticks =>
      let '(wr, net) := WALReplicator_syncToReplica wr net dial_ok in WALReplicator_replicationLoop wr net ticks
  end.

(** [Stop]: the loop makes a last round, then the connection is closed. *)
Definition WALReplicator_Stop (wr : WALReplicator) (net : N) (dial_ok : bool) : WALReplicator * N :=
  let '(wr, net) := if WR_running wr then WALReplicator_syncToReplica wr net dial_ok else (wr, net) in
  (WR_set_conn (WR_set_running wr false) false (WR_client wr), net).

End Wal.

Definition WALReplicator_UpdateReplicaAddr (wr : WALReplicator) (addr : string) : WALReplicator :=
  if bool_decide (WR_replicaAddr wr = addr) then wr
  else
    let wr := mkWALReplicator (WR_partitionID wr) addr (WR_isPrimary wr) (WR_currentSeq wr) (WR_replicatedSeq wr)
      (WR_buffer wr) (WR_bufferIdx wr) (WR_conn wr) (WR_client wr) (WR_running wr) in
    if WR_conn wr then WR_set_conn wr false None else wr.

(** ** The ring holds the end of the history *)

(** [h] are the entries appended so far: entry number [n] is at index [n mod B] if
    it is one of the last [B]. *)
Record ring_ok (wr : WALReplicator) (h : list WALEntry) : Prop := {
  ro_seq : WR_currentSeq wr = len h;
  ro_idx : WR_bufferIdx wr = len h;
  ro_width : len h < 2 ^ 63;
  ro_numbers : ∀ n e, h !! n = Some e → WE_Sequence e = Z.of_nat n + 1;
  ro_ring : ∀ i e, 0 ≤ i < WALBufferSize →
    WR_buffer wr !! i = Some e ↔
    ∃ n, h !! n = Some e ∧ Z.of_nat n mod WALBufferSize = i ∧ len h - WALBufferSize ≤ Z.of_nat n
}.

Lemma WALBufferSize_pos : 0 < WALBufferSize.
Proof. done. Qed.
#[local] Opaque WALBufferSize.

Lemma ring_new p isPrimary addr : ring_ok (NewWALReplicator p isPrimary addr) [].
Proof.
  split; [done..|]. intros i e _. cbn. rewrite lookup_empty. split; [done|]. by intros (n & ? & _).
Qed.

Lemma mod_same_window (a b B : Z) : 0 < B → a mod B = b mod B → a < b + B → b < a + B → a = b.
Proof.
  intros HB Hm H1 H2. pose proof (Z.div_mod a B ltac:(lia)). pose proof (Z.div_mod b B ltac:(lia)).
  assert (a / B = b / B) by nia. lia.
Qed.

Lemma mod_block (q B i : Z) : 0 ≤ i < B → (B * q + i) mod B = i.
Proof. intros. rewrite Z.add_comm, Z.mul_comm, Z.mod_add, Z.mod_small; lia. Qed.

Lemma ring_append wr h now key value isDelete wr' seq :
  ring_ok wr h → WR_isPrimary wr = true → len h + 1 < 2 ^ 63 →
  WALReplicator_Append wr now key value isDelete = (wr', seq) →
  seq = len h + 1 ∧ ring_ok wr' (h ++ [mkWALEntry seq key value isDelete now]).
Proof.
  intros [Hs Hi Hw Hn Hr] Hp Hb Ha. unfold WALReplicator_Append in Ha. rewrite Hp in Ha. cbn in Ha.
  pose proof (len_nonneg h) as Hl. pose proof WALBufferSize_pos as HB.
  rewrite Hs, Hi, u64_small, i64_small in Ha by (unfold is_u64, is_i64; lia).
  injection Ha as <- <-. split; [done|].
  unfold append_store. replace (len h + 1 - 1) with (len h) by lia. rewrite Z.rem_mod_nonneg by lia.
  set (e0 := mkWALEntry _ _ _ _ _). assert (len (h ++ [e0]) = len h + 1) as Hlen by (by rewrite len_app).
  split; rewrite ?Hlen; cbn; [done|done|lia| |].
  - intros n e He. apply lookup_app_Some in He as [He|[Hge He]]; [by eapply Hn|].
    apply list_lookup_singleton_Some in He as [Hz <-]. cbn. unfold len. lia.
  - intros i e Hi0. destruct (decide (i = len h mod WALBufferSize)) as [->|Hne].
    + rewrite lookup_insert_eq. split.
      * intros [= <-]. exists (length h). rewrite lookup_app_r, Nat.sub_diag by done. unfold len. split_and!; [done|done|lia].
      * intros (n & He & Hm & Hge). apply lookup_app_Some in He as [He|[Hge' He]].
        -- exfalso. pose proof (lookup_lt_Some _ _ _ He). unfold len in *.
           apply mod_same_window in Hm; lia.
        -- apply list_lookup_singleton_Some in He as [_ ->]. done.
    + rewrite lookup_insert_ne by done. rewrite Hr by done. split; intros (n & He & Hm & Hge).
      * exists n. rewrite lookup_app_l by (by eapply lookup_lt_Some). split_and!; [done..|].
        destruct (decide (Z.of_nat n = len h - WALBufferSize)) as [Heq|]; [|lia]. exfalso. apply Hne.
        rewrite <- Hm, Heq, <- (Z.mod_add (len h - WALBufferSize) 1) by lia. f_equal. lia.
      * exists n. apply lookup_app_Some in He as [He|[Hge' He]]; [split_and!; [done..|lia]|].
        apply list_lookup_singleton_Some in He as [Hz _]. exfalso. apply Hne. rewrite <- Hm. unfold len. f_equal. lia.
Qed.

(** ** What a round collects *)

Lemma omap_none {A C} (f : A → option C) l : (∀ x, x ∈ l → f x = None) → omap f l = [].
Proof.
  induction l as [|x l IH]; intros Hf; [done|]. cbn. rewrite Hf by (by left). apply IH. intros y Hy. apply Hf. by right.
Qed.

Section collect.
  Context (wr : WALReplicator) (h : list WALEntry) (Hok : ring_ok wr h) (a : nat).

Definition pick (i : Z) : option WALEntry :=
  entry ← WR_buffer wr !! i;
  if (Z.of_nat a + 1 <=? WE_Sequence entry) && (WE_Sequence entry <=? len h) then Some entry else None.

Lemma collect_loop_pick n i :
  collect_loop (WR_buffer wr) (Z.of_nat a + 1) (len h) n i = omap pick (seqZ i (Z.of_nat n)).
Proof.
  revert i. induction n as [|n IH]; intros i; [done|]. rewrite seqZ_cons by lia.
  replace (Z.pred (Z.of_nat (S n))) with (Z.of_nat n) by lia. replace (Z.succ i) with (i + 1) by lia.
  cbn [collect_loop omap list_omap]. rewrite IH.
  assert (pick i = match WR_buffer wr !! i with
    | Some entry => if (Z.of_nat a + 1 <=? WE_Sequence entry) && (WE_Sequence entry <=? len h) then Some entry else None
    | None => None end) as -> by (unfold pick; by destruct (WR_buffer wr !! i)).
  destruct (WR_buffer wr !! i); [|done]. by destruct (_ && _).
Qed.

(** A stretch of the ring that holds a stretch of the history. *)
Lemma pick_stretch (k j : nat) (s : Z) :
  (∀ i : nat, (i < k)%nat → WR_buffer wr !! (s + Z.of_nat i) = h !! (j + i)%nat) → (j + k ≤ length h)%nat →
  omap pick (seqZ s (Z.of_nat k)) = drop (a `max` j) (take (j + k) h).
Proof.
  revert j s. induction k as [|k IH]; intros j s Hs Hle.
  { rewrite drop_ge by (rewrite length_take; lia). done. }
  rewrite seqZ_cons by lia. replace (Z.pred (Z.of_nat (S k))) with (Z.of_nat k) by lia. cbn [omap list_omap].
  rewrite (IH (S j) (Z.succ s)); [| |lia].
  2:{ intros i Hi. replace (Z.succ s + Z.of_nat i) with (s + Z.of_nat (S i)) by lia. rewrite Hs by lia. f_equal. lia. }
  unfold pick. pose proof (Hs 0%nat ltac:(lia)) as H0. rewrite Z.add_0_r, Nat.add_0_r in H0. rewrite H0.
  destruct (lookup_lt_is_Some_2 h j ltac:(lia)) as [e He]. rewrite He. cbn [mbind option_bind].
  rewrite (ro_numbers _ _ Hok _ _ He). unfold len.
  replace (S j + k)%nat with (j + S k)%nat by lia.
  destruct (decide (a ≤ j)%nat).
  - rewrite (proj2 (Z.leb_le _ _)), (proj2 (Z.leb_le (Z.of_nat j + 1) _)) by lia. cbn [andb].
    replace (a `max` j)%nat with j by lia. replace (a `max` S j)%nat with (S j) by lia.
    symmetry. apply drop_S. rewrite lookup_take_lt by lia. done.
  - rewrite (proj2 (Z.leb_gt _ _)) by lia. cbn [andb]. f_equal. lia.
Qed.

(** The collected entries: the ones after the wrap come first. *)
Definition ring_split : nat := Z.to_nat (WALBufferSize * (len h / WALBufferSize)).

Lemma collect_eq :
  (a ≤ length h)%nat →
  collectEntries wr (Z.of_nat a + 1) (len h) =
  drop (a `max` ring_split) h ++ drop (a `max` (length h - Z.to_nat WALBufferSize)) (take ring_split h).
Proof.
  intros Ha. pose proof WALBufferSize_pos as HB. pose proof (len_nonneg h) as Hl.
  set (B := WALBufferSize) in *. set (r := len h mod B). set (q := len h / B).
  assert (len h = B * q + r ∧ 0 ≤ r < B ∧ 0 ≤ q) as (Hlen & Hr & Hq).
  { split_and!; [by apply Z.div_mod; lia|by apply Z.mod_pos_bound..|by apply Z.div_pos]. }
  assert (Z.of_nat ring_split = B * q) as Hsp by (unfold ring_split; rewrite Z2Nat.id; [done|];
    exact (Z.mul_nonneg_nonneg B q ltac:(lia) Hq)).
  assert (len h / B = q) as Hqd by done. clearbody r q.
  assert (length h = (ring_split + Z.to_nat r)%nat) as Hn by (unfold len in Hlen; lia).
  assert (collectEntries wr (Z.of_nat a + 1) (len h) = omap pick (seqZ 0 B)) as ->
    by (unfold collectEntries; rewrite collect_loop_pick, Z2Nat.id by lia; done).
  replace B with (Z.of_nat (Z.to_nat r) + (B - r)) by lia.
  rewrite seqZ_app, omap_app by lia. f_equal.
  - rewrite (pick_stretch _ ring_split); [by rewrite <- Hn, firstn_all| |lia].
    intros i Hi. apply option_eq. intros e. rewrite (ro_ring _ _ Hok) by (fold B; lia). fold B. split.
    + intros (n & He & Hm & Hge). rewrite <- He. f_equal. pose proof (lookup_lt_Some _ _ _ He).
      assert (Z.of_nat n = B * q + Z.of_nat i); [|lia]. apply (mod_same_window _ _ B); [done| |unfold len in *; lia..].
      rewrite Hm, mod_block; lia.
    + intros He. exists (ring_split + i)%nat. split_and!; [done| |unfold len in *; lia].
      rewrite Nat2Z.inj_add, Hsp, mod_block; lia.
  - destruct (decide (q = 0)) as [->|Hq0].
    + assert (ring_split = 0%nat) as -> by lia. cbn [take]. change (take 0 h) with (@nil WALEntry). rewrite skipn_nil.
      apply omap_none. intros i Hi%elem_of_seqZ.
      unfold pick. destruct (WR_buffer wr !! i) as [e|] eqn:Hb; [|done]. exfalso.
      apply (ro_ring _ _ Hok) in Hb as (n & He & Hm & _); [|fold B; lia].
      pose proof (lookup_lt_Some _ _ _ He). fold B in Hm. rewrite Z.mod_small in Hm; unfold len in *; lia.
    + replace (B - r) with (Z.of_nat (Z.to_nat (B - r))) by lia. set (k := Z.to_nat (B - r)).
      rewrite (pick_stretch _ (length h - Z.to_nat B)); [do 2 f_equal; nia| |nia].
      intros i Hi. apply option_eq. intros e. rewrite (ro_ring _ _ Hok) by (fold B; lia). fold B. split.
      * intros (n & He & Hm & Hge). rewrite <- He. f_equal. pose proof (lookup_lt_Some _ _ _ He).
        assert (Z.of_nat n = B * (q - 1) + (r + Z.of_nat i)); [|nia].
        apply (mod_same_window _ _ B); [done| |unfold len in *; nia..].
        rewrite Hm, mod_block; lia.
      * intros He. eexists. split; [exact He|].
        assert (Z.of_nat (length h - Z.to_nat B + i) = B * (q - 1) + (r + Z.of_nat i)) as Heq by (unfold len in *; nia).
        rewrite Heq. split; [|unfold len in *; nia]. rewrite mod_block; lia.
Qed.

Lemma collect_last x :
  (a ≤ length h)%nat → last (collectEntries wr (Z.of_nat a + 1) (len h)) = Some x → 1 ≤ WE_Sequence x ≤ len h.
Proof.
  intros Ha El%last_Some_elem_of. rewrite collect_eq in El by done.
  assert (x ∈ h) as [n Hn]%list_elem_of_lookup.
  { apply elem_of_app in El as [El|El]; apply subseteq_drop in El; [done|by apply subseteq_take in El]. }
  rewrite (ro_numbers _ _ Hok _ _ Hn). pose proof (lookup_lt_Some _ _ _ Hn). unfold len. lia.
Qed.
End collect.

(** ** The replica *)

(** What the replica executes for an entry: a put, also for a deletion. *)
Definition wal_ops (p : Z) (es : list WALEntry) : list wop :=
  (λ e, WPut (MakePartitionKey p (WE_Key e)) (WE_Value e)) <$> es.

Section rounds.
  Context {D : Type} `{EngineLaws D}.
Implicit Types (s : Server D) (net : Net D).

(** A replicator, the network to its replica and the history: [a] entries are
    replicated. *)
Record wal_state (wr : WALReplicator) net (h : list WALEntry) (a : nat) : Prop := {
  ws_ring : ring_ok wr h;
  ws_rep : WR_replicatedSeq wr = Z.of_nat a;
  ws_le : (a ≤ length h)%nat;
  ws_conn : WR_conn wr = true → WR_client wr = Some (net_addr net);
  ws_addr : WR_replicaAddr wr = net_addr net;
  ws_ready : replica_ready (net_server net) (WR_partitionID wr)
}.

Definition delivers net : Prop := Forall (eq Delivered) (net_faults net).

Definition replica_view net : gmap bytes bytes := db_view (S_db (net_server net)).

Lemma wal_rpc wr net es :
  replica_ready (net_server net) (WR_partitionID wr) →
  ∃ s', replica_ready s' (WR_partitionID wr) ∧
    db_view (S_db s') = batch_apply (replica_view net) (wal_ops (WR_partitionID wr) es) ∧
    rpc_Replicate net (net_addr net) (wal_request (WR_partitionID wr) es) =
    match default Delivered (head (net_faults net)) with
    | LostRequest => (net_next net (net_server net), None)
    | LostReply => (net_next net s', None)
    | Delivered => (net_next net s', Some (mkReplicateResponse true
        (default 0 (RE_Offset <$> last (map wal_pb_entry es))) ""))
    end.
Proof.
  intros Hr. destruct (rpc_puts net (WR_partitionID wr) (map wal_pb_entry es) (RQ_CommitOffset (wal_request (WR_partitionID wr) es)) Hr)
    as (s' & Hr' & Hv & He); [by apply Forall_fmap, Forall_true|].
  exists s'. split_and!; [done| |done]. rewrite Hv. unfold replica_view. f_equal. by rewrite <- list_fmap_compose.
Qed.

(** One batch on a network that delivers. *)
Lemma wal_batch_delivered (wr : WALReplicator) net es :
  WR_client wr = Some (net_addr net) → replica_ready (net_server net) (WR_partitionID wr) →
  default Delivered (head (net_faults net)) = Delivered →
  ∃ s', WALReplicator_sendBatch wr net es = (net_next net s', None) ∧
    replica_ready s' (WR_partitionID wr) ∧
    db_view (S_db s') = batch_apply (replica_view net) (wal_ops (WR_partitionID wr) es).
Proof.
  intros Hc Hr Hd. destruct (wal_rpc wr net es Hr) as (s' & Hr' & Hv & He).
  exists s'. unfold WALReplicator_sendBatch. by rewrite Hc, He, Hd.
Qed.

Lemma send_batches_delivered fuel (wr : WALReplicator) net es :
  (length es ≤ fuel)%nat → WR_client wr = Some (net_addr net) →
  replica_ready (net_server net) (WR_partitionID wr) → delivers net →
  ∃ net', send_batches fuel wr net es =
      (WR_set_seqs wr (WR_currentSeq wr) (default (WR_replicatedSeq wr) (WE_Sequence <$> last es)), net') ∧
    replica_ready (net_server net') (WR_partitionID wr) ∧ delivers net' ∧ net_addr net' = net_addr net ∧
    replica_view net' = batch_apply (replica_view net) (wal_ops (WR_partitionID wr) es).
Proof.
  revert wr net es. induction fuel as [|fuel IH]; intros wr net es Hf Hc Hr Hd.
  { destruct es; [|cbn in Hf; lia]. exists net. split_and!; [by destruct wr|done..]. }
  destruct es as [|e es']; [exists net; split_and!; [by destruct wr|done..]|]. set (es := e :: es') in *.
  cbn [send_batches]. fold es. unfold es at 1. set (k := Z.to_nat WALBatchSize).
  assert (0 < k)%nat as Hk by (apply Nat.ltb_lt; reflexivity). clearbody k.
  destruct (wal_batch_delivered wr net (take k es) Hc Hr) as (s' & -> & Hr' & Hv).
  { destruct (net_faults net) eqn:E; [done|]. unfold delivers in Hd. rewrite E in Hd. by apply Forall_cons in Hd as [<- _]. }
  set (wr1 := WR_set_seqs wr _ _).
  destruct (IH wr1 (net_next net s') (drop k es)) as (net' & He & Hr2 & Hd2 & Ha2 & Hv2);
    [rewrite length_drop; unfold es in *; cbn in *; lia|done|done| |].
  { unfold delivers in *. cbn. destruct (net_faults net); [done|]. by apply Forall_cons in Hd as [_ ?]. }
  exists net'. rewrite He. split_and!; [|done|done|done|].
  - f_equal. unfold wr1. cbn. unfold WR_set_seqs. cbn. f_equal. rewrite <- (take_drop k es) at 3. rewrite last_app.
    destruct (last (drop k es)) as [x|] eqn:El; [done|]. cbn.
    destruct (last (take k es)) eqn:E2; [done|]. apply last_None in E2. unfold es in E2. destruct k; [lia|done].
  - rewrite Hv2. unfold replica_view at 1. cbn [net_next net_server]. rewrite Hv.
    cbn [WR_partitionID wr1 WR_set_seqs]. rewrite <- batch_apply_app. unfold wal_ops.
    by rewrite <- fmap_app, take_drop.
Qed.

Lemma WR_set_seqs_ring wr h rep : ring_ok wr h → ring_ok (WR_set_seqs wr (WR_currentSeq wr) rep) h.
Proof. intros [? ? ? ? ?]. by split. Qed.

(** The replicator after it has connected. *)
Definition connected (wr : WALReplicator) : WALReplicator :=
  if WR_conn wr then wr else WR_set_conn wr true (Some (WR_replicaAddr wr)).

Lemma connected_ok wr net h a :
  wal_state wr net h a →
  wal_state (connected wr) net h a ∧ WR_client (connected wr) = Some (net_addr net) ∧
  WR_partitionID (connected wr) = WR_partitionID wr.
Proof.
  intros [[? ? ? ? ?] ? ? Hc ? ?]. unfold connected. destruct (WR_conn wr) eqn:E.
  - split_and!; [|auto|done]. by do 2 (split; auto).
  - split_and!; [|cbn; congruence|done]. split; cbn; [by split|done|done|congruence|done|done].
Qed.

Lemma sync_sends wr net h a :
  wal_state wr net h a → (a < length h)%nat →
  let X := collectEntries wr (Z.of_nat a + 1) (len h) in
  WALReplicator_syncToReplica wr net true = send_batches (length X) (connected wr) net X.
Proof.
  intros W Ha X. pose proof (ws_ring _ _ _ _ W) as R. pose proof (ro_width _ _ R) as Hw.
  unfold WALReplicator_syncToReplica, WALReplicator_GetCurrentSequence, WALReplicator_GetReplicatedSequence,
    WALReplicator_connectToReplica.
  rewrite (ro_seq _ _ R), (ws_rep _ _ _ _ W), (proj2 (Z.leb_gt _ _)) by (unfold len; lia).
  rewrite u64_small by (unfold is_u64, len in *; lia). unfold X, connected. by destruct (WR_conn wr).
Qed.

(** A round: the entries it collects reach the replica, in that order. *)
Lemma wal_round wr net h a :
  wal_state wr net h a → delivers net →
  let X := collectEntries wr (Z.of_nat a + 1) (len h) in
  ∃ wr' net', WALReplicator_syncToReplica wr net true = (wr', net') ∧
    wal_state wr' net' h (Z.to_nat (default (Z.of_nat a) (WE_Sequence <$> last X))) ∧ delivers net' ∧
    WR_partitionID wr' = WR_partitionID wr ∧
    replica_view net' = batch_apply (replica_view net) (wal_ops (WR_partitionID wr) X).
Proof.
  intros W Hd X. pose proof (ws_le _ _ _ _ W) as Ha. destruct (decide (a = length h)) as [Heq|Hne].
  { assert (X = []) as ->.
    { unfold X. rewrite collect_eq, !drop_ge; [done|rewrite length_take; lia|lia|apply W|done]. }
    exists wr, net. cbn. rewrite Nat2Z.id. split_and!; [|done..].
    unfold WALReplicator_syncToReplica, WALReplicator_GetCurrentSequence, WALReplicator_GetReplicatedSequence.
    rewrite (ro_seq _ _ (ws_ring _ _ _ _ W)), (ws_rep _ _ _ _ W), (proj2 (Z.leb_le _ _)) by (unfold len; lia). done. }
  rewrite (sync_sends wr net h a W) by lia. fold X.
  destruct (connected_ok wr net h a W) as ([R1 Hrep _ Hcon Hadr Hrd] & Hc & Hp).
  destruct (send_batches_delivered (length X) (connected wr) net X) as (net' & He & Hr' & Hd' & Haddr & Hv); [done..|].
  rewrite He, Hrep. eexists _, net'. split; [done|]. rewrite Hp in Hv.
  split_and!; [|done|done|done]. split; cbn.
  - by apply WR_set_seqs_ring.
  - destruct (last X) as [x|] eqn:El; cbn; [|by rewrite Nat2Z.id].
    apply (collect_last wr h (ws_ring _ _ _ _ W) a) in El; [|done]. lia.
  - destruct (last X) as [x|] eqn:El; cbn; [|by rewrite Nat2Z.id].
    apply (collect_last wr h (ws_ring _ _ _ _ W) a) in El; [|done]. unfold len in El. lia.
  - by rewrite Haddr.
  - by rewrite Haddr.
  - done.
Qed.

(** *** Two rounds *)

Lemma ring_split_le h : (ring_split h ≤ length h)%nat.
Proof.
  unfold ring_split. pose proof (Z.mul_div_le (len h) WALBufferSize WALBufferSize_pos). unfold len in *. lia.
Qed.

Lemma last_stretch wr h (s e : nat) :
  ring_ok wr h → (s ≤ e ≤ length h)%nat →
  default (Z.of_nat s) (WE_Sequence <$> last (drop s (take e h))) = Z.of_nat e.
Proof.
  intros R Hse. destruct (decide (s = e)) as [->|Hne]; [by rewrite drop_ge by (rewrite length_take; lia)|].
  rewrite last_lookup, lookup_drop, length_drop, length_take, lookup_take_lt by lia.
  destruct (lookup_lt_is_Some_2 h (s + Nat.pred (e `min` length h - s)) ltac:(lia)) as [x Hx]. rewrite Hx. cbn.
  rewrite (ro_numbers _ _ R _ _ Hx). lia.
Qed.

(** What a round collects when the ring was not overrun, and where it ends. *)
Lemma round_window wr h a :
  ring_ok wr h → (a ≤ length h)%nat → len h - Z.of_nat a ≤ WALBufferSize →
  let X := collectEntries wr (Z.of_nat a + 1) (len h) in
  X = drop (a `max` ring_split h) h ++ drop a (take (ring_split h) h) ∧
  default (Z.of_nat a) (WE_Sequence <$> last X) =
    Z.of_nat (if decide (a < ring_split h)%nat then ring_split h else length h).
Proof.
  intros R Ha Hwin X. pose proof (ring_split_le h) as Hs.
  assert (X = drop (a `max` ring_split h) h ++ drop a (take (ring_split h) h)) as HX.
  { unfold X. rewrite collect_eq by done. do 2 f_equal. unfold len in Hwin. lia. }
  split; [done|]. rewrite HX, last_app. case_decide as Hlt.
  - pose proof (last_stretch wr h a (ring_split h) R ltac:(lia)) as Hl.
    destruct (last (drop a _)) as [x|]; [done|]. cbn in Hl. lia.
  - rewrite (drop_ge (take _ h)) by (rewrite length_take; lia). cbn [last].
    replace (a `max` ring_split h)%nat with a by lia.
    pose proof (last_stretch wr h a (length h) R ltac:(lia)) as Hl. by rewrite firstn_all in Hl.
Qed.

(** Without new appends, and as long as the ring was not overrun, two rounds over
    a network that delivers bring the replica to the whole history.  The first
    round may send the entries after the wrap before the ones in front of it; it
    then ends at the wrap, and the second round repeats the former. *)
Lemma two_rounds_catch_up wr net h a m0 :
  wal_state wr net h a → delivers net → len h - Z.of_nat a ≤ WALBufferSize →
  replica_view net = batch_apply m0 (wal_ops (WR_partitionID wr) (take a h)) →
  let '(wr', net') := WALReplicator_replicationLoop wr net [true; true] in
  WALReplicator_GetReplicationLag wr' = 0 ∧
  replica_view net' = batch_apply m0 (wal_ops (WR_partitionID wr) h).
Proof.
  intros W Hd Hwin Hv. cbn [WALReplicator_replicationLoop].
  pose proof (round_window wr h a (ws_ring _ _ _ _ W) (ws_le _ _ _ _ W) Hwin) as [HX Ha1].
  destruct (wal_round wr net h a W Hd) as (wr1 & net1 & -> & W1 & Hd1 & Hp1 & Hv1).
  rewrite Ha1, Nat2Z.id in W1. set (sp := ring_split h) in *. set (a1 := if decide _ then _ else _) in W1.
  assert (a ≤ a1)%nat as Hle by (pose proof (ws_le _ _ _ _ W); unfold a1; case_decide; lia).
  pose proof (round_window wr1 h a1 (ws_ring _ _ _ _ W1) (ws_le _ _ _ _ W1) ltac:(lia)) as [HY Ha2]. fold sp in HY, Ha2.
  destruct (wal_round wr1 net1 h a1 W1 Hd1) as (wr2 & net2 & -> & W2 & Hd2 & Hp2 & Hv2).
  assert (¬ (a1 < sp)%nat) as Hge by (pose proof (ring_split_le h) as Hs; fold sp in Hs; unfold a1; destruct (decide (a < sp)%nat); lia).
  rewrite Ha2, Nat2Z.id, (decide_False (P := (a1 < sp)%nat)) in W2 by done.
  split.
  { unfold WALReplicator_GetReplicationLag.
    by rewrite (ws_rep _ _ _ _ W2), (ro_seq _ _ (ws_ring _ _ _ _ W2)), Z.sub_diag. }
  rewrite Hv2, Hv1, Hv, Hp1, <- !batch_apply_app, HX, HY. unfold wal_ops. rewrite <- !fmap_app.
  fold (wal_ops (WR_partitionID wr)). unfold a1. clear -W. pose proof (ring_split_le h) as Hs. fold sp in Hs.
  pose proof (ws_le _ _ _ _ W). case_decide as Hlt.
  - replace (a `max` sp)%nat with sp by lia. rewrite Nat.max_id, (drop_ge (take sp h) sp) by (rewrite length_take; lia).
    rewrite app_nil_r, <- (app_assoc (drop sp h)), !fmap_app, batch_apply_app, batch_early, <- batch_apply_app, <- !fmap_app.
    do 2 f_equal. rewrite app_assoc.
    replace (take a h) with (take a (take sp h)) by (rewrite take_take; f_equal; lia). by rewrite !take_drop.
  - rewrite (drop_ge (take sp h) a) by (rewrite length_take; lia). rewrite (drop_ge h (length h `max` sp)) by lia.
    rewrite (drop_ge (take sp h) (length h)) by (rewrite length_take; lia). replace (a `max` sp)%nat with a by lia.
    by rewrite !app_nil_r, take_drop.
Qed.

(** *** Entries that are never sent *)

Lemma send_batches_step fuel wr net es :
  es ≠ [] →
  send_batches (S fuel) wr net es =
  match WALReplicator_sendBatch wr net (take (Z.to_nat WALBatchSize) es) with
  | (net, Some _) => ((if WR_conn wr then WR_set_conn wr false None else wr), net)
  | (net, None) =>
      send_batches fuel (WR_set_seqs wr (WR_currentSeq wr)
        (default 0 (WE_Sequence <$> last (take (Z.to_nat WALBatchSize) es)))) net (drop (Z.to_nat WALBatchSize) es)
  end.
Proof. by destruct es. Qed.

Lemma wal_batch_lost wr net es :
  WR_client wr = Some (net_addr net) → replica_ready (net_server net) (WR_partitionID wr) →
  head (net_faults net) = Some LostRequest →
  WALReplicator_sendBatch wr net es = (net_next net (net_server net), Some (Errorf "rpc failed")).
Proof.
  intros Hc Hr Hf. destruct (wal_rpc wr net es Hr) as (s' & _ & _ & He).
  unfold WALReplicator_sendBatch. by rewrite Hc, He, Hf.
Qed.

(** When the second batch of a wrapped window fails, everything in front of the
    wrap counts as replicated although none of it was sent. *)
Lemma wrapped_batch_is_lost wr net h a rest :
  wal_state wr net h a → len h - Z.of_nat a ≤ WALBufferSize →
  (a < ring_split h)%nat → (ring_split h + Z.to_nat WALBatchSize ≤ length h)%nat →
  net_faults net = Delivered :: LostRequest :: rest →
  let '(wr', net') := WALReplicator_syncToReplica wr net true in
  WR_replicatedSeq wr' = Z.of_nat (ring_split h) + WALBatchSize ∧
  replica_view net' = batch_apply (replica_view net)
    (wal_ops (WR_partitionID wr) (take (Z.to_nat WALBatchSize) (drop (ring_split h) h))).
Proof.
  intros W Hwin Ha Hb Hf. pose proof (ws_ring _ _ _ _ W) as R. pose proof (ws_le _ _ _ _ W) as Hle.
  rewrite (sync_sends wr net h a W) by lia. destruct (connected_ok wr net h a W) as (W1 & Hc & Hp).
  pose proof (round_window wr h a R Hle Hwin) as [-> _]. set (sp := ring_split h) in *.
  replace (a `max` sp)%nat with sp by lia. set (k := Z.to_nat WALBatchSize) in *.
  assert (0 < k)%nat as Hk by (apply Nat.ltb_lt; reflexivity). set (X := drop sp h ++ drop a (take sp h)).
  assert (take k X = take k (drop sp h)) as Ht by (unfold X; by rewrite take_app_le by (rewrite length_drop; lia)).
  assert (k < length X)%nat as HlX by (unfold X; rewrite length_app, !length_drop, length_take; lia).
  destruct (length X) as [|[|fuel]] eqn:El; [lia..|].
  rewrite send_batches_step by (intros E; rewrite E in El; done). fold k. rewrite Ht.
  destruct (wal_batch_delivered (connected wr) net (take k (drop sp h)) Hc) as (s' & -> & Hr' & Hv);
    [apply W1|by rewrite Hf|].
  rewrite send_batches_step by (intros E; apply (f_equal length) in E; rewrite length_drop in E; cbn in E; lia).
  rewrite wal_batch_lost by (cbn; by rewrite ?Hf).
  assert (default 0 (WE_Sequence <$> last (take k (drop sp h))) = Z.of_nat sp + WALBatchSize) as ->.
  { pose proof (last_stretch wr h sp (sp + k) R ltac:(lia)) as Hl. rewrite skipn_firstn_comm in Hl.
    replace (sp + k - sp)%nat with k in Hl by lia. destruct (last _) as [x|]; cbn in *; [|lia].
    rewrite Hl. unfold k. rewrite Nat2Z.inj_add, Z2Nat.id by done. done. }
  split; [by destruct (WR_conn _)|]. unfold replica_view at 1. cbn [net_next net_server]. by rewrite Hv, Hp.
Qed.

(** A deletion reaches the replica as a put of its value. *)
Lemma wal_delete_is_a_put wr net h a e :
  wal_state wr net h a → WR_client wr = Some (net_addr net) →
  default Delivered (head (net_faults net)) = Delivered → WE_IsDelete e = true →
  let '(net', err) := WALReplicator_sendBatch wr net [e] in
  err = None ∧ replica_view net' !! MakePartitionKey (WR_partitionID wr) (WE_Key e) = Some (WE_Value e).
Proof.
  intros W Hc Hd _. destruct (wal_batch_delivered wr net [e] Hc (ws_ready _ _ _ _ W) Hd) as (s' & -> & _ & Hv).
  split; [done|]. unfold replica_view. cbn [net_next net_server]. rewrite Hv. apply lookup_insert_eq.
Qed.
End rounds.

(** ** Examples *)

(** Two goroutines append; the loop runs while the first one has its number but
    has not stored its entry.  That entry is never sent, and the lag is zero. *)
Example append_race :
  let '(wr, seq1) := append_seq (NewWALReplicator 7 true "n2") in
  let '(wr, idx1) := append_idx wr in
  let '(wr, _) := WALReplicator_Append wr 0 (str_bytes "b") (str_bytes "2") false in
  let '(wr, net) := WALReplicator_syncToReplica wr (demo_net []) true in
  let wr := append_store wr idx1 (mkWALEntry seq1 (str_bytes "a") (str_bytes "1") false 0) in
  let '(wr, net) := WALReplicator_replicationLoop wr net [true; true] in
  WALReplicator_GetReplicationLag wr = 0 ∧
  replica_view net !! MakePartitionKey 7 (str_bytes "b") = Some (str_bytes "2") ∧
  replica_view net !! MakePartitionKey 7 (str_bytes "a") = None.
Proof. vm_compute. done. Qed.

(** The hypotheses of [two_rounds_catch_up] for a replicator with one entry. *)
Example catch_up_applies :
  let '(wr, _) := WALReplicator_Append (NewWALReplicator 7 true "n2") 0 (str_bytes "a") (str_bytes "1") false in
  let '(wr', net') := WALReplicator_replicationLoop wr (demo_net []) [true; true] in
  WALReplicator_GetReplicationLag wr' = 0 ∧ replica_view net' !! MakePartitionKey 7 (str_bytes "a") = Some (str_bytes "1").
Proof.
  destruct (WALReplicator_Append _ _ _ _ _) as [wr seq] eqn:Ea.
  pose proof Ea as Hr. apply (ring_append _ []) in Hr as [-> R]; [|apply ring_new|done|done].
  set (h := [] ++ _) in R.
  assert (wal_state wr (demo_net []) h 0) as W.
  { apply (f_equal fst) in Ea. cbn in Ea. subst wr. split; [exact R|done|cbn; lia|done|done|].
    split; [|by split; [constructor|]]. eexists. by split. }
  pose proof (two_rounds_catch_up wr (demo_net []) h 0 ∅ W ltac:(constructor) ltac:(done) ltac:(done)) as Ht.
  destruct (WALReplicator_replicationLoop wr (demo_net []) [true; true]) as [wr' net']. destruct Ht as [Hl Hv].
  split; [done|]. rewrite Hv. apply (f_equal fst) in Ea. cbn in Ea. subst wr. vm_compute. done.
Qed.
