(* ===== verification/PartitionReplicator.v ===== *)
(** * The partition replicator

    [PartitionReplicator] of [src/pkg/storage/replication.go], the first of the
    three replicators; no production code starts it.  A primary puts entries into
    a channel, a loop moves them into a batch and sends the batch when it is full,
    on a signal or on a tick.  There is no retry: what is dropped from the full
    channel, and every batch that fails, is gone.

    The channel and the batch are part of the state, and the [select] of the loop
    is a choice of an event. *)

From S2P Require Import Prelude Engine Keys Proto Partitions Replicator StorageServer Replication.

Definition ReplicationBatchSize : Z := 100.
Definition MaxPendingEntries : Z := 10000.

(** [ReplicationEntry] of the package storage. *)
Record QueuedEntry := mkQueuedEntry {
  QE_Offset : Z;
  QE_Key : bytes;
  QE_Value : bytes;
  QE_IsDelete : bool;
  QE_Timestamp : Z
}.

Record PartitionReplicator := mkPartitionReplicator {
  PR_partitionID : Z;
  PR_replicaAddr : string;
  PR_isPrimary : bool;
  PR_currentOffset : Z;
  PR_committedOffset : Z;
  PR_pendingEntries : list QueuedEntry;   (** the channel *)
  PR_flushSignal : bool;                  (** the channel of capacity one is full *)
  PR_conn : bool;
  PR_client : option string;
  PR_batch : list QueuedEntry;            (** the variable of the loop *)
  PR_running : bool
}.

Definition PR_set_offsets (pr : PartitionReplicator) (current committed : Z) : PartitionReplicator :=
  mkPartitionReplicator (PR_partitionID pr) (PR_replicaAddr pr) (PR_isPrimary pr) current committed
    (PR_pendingEntries pr) (PR_flushSignal pr) (PR_conn pr) (PR_client pr) (PR_batch pr) (PR_running pr).
Definition PR_set_queue (pr : PartitionReplicator) (pending : list QueuedEntry) (flush : bool)
    (batch : list QueuedEntry) : PartitionReplicator :=
  mkPartitionReplicator (PR_partitionID pr) (PR_replicaAddr pr) (PR_isPrimary pr) (PR_currentOffset pr)
    (PR_committedOffset pr) pending flush (PR_conn pr) (PR_client pr) batch (PR_running pr).
Definition PR_set_conn (pr : PartitionReplicator) (conn : bool) (client : option string) : PartitionReplicator :=
  mkPartitionReplicator (PR_partitionID pr) (PR_replicaAddr pr) (PR_isPrimary pr) (PR_currentOffset pr)
    (PR_committedOffset pr) (PR_pendingEntries pr) (PR_flushSignal pr) conn client (PR_batch pr) (PR_running pr).
Definition PR_set_running (pr : PartitionReplicator) (running : bool) : PartitionReplicator :=
  mkPartitionReplicator (PR_partitionID pr) (PR_replicaAddr pr) (PR_isPrimary pr) (PR_currentOffset pr)
    (PR_committedOffset pr) (PR_pendingEntries pr) (PR_flushSignal pr) (PR_conn pr) (PR_client pr) (PR_batch pr) running.

Definition NewPartitionReplicator (partitionID : Z) (isPrimary : bool) (replicaAddr : string) : PartitionReplicator :=
  mkPartitionReplicator partitionID replicaAddr isPrimary 0 0 [] false false None [] false.

Definition PartitionReplicator_connectToReplica (pr : PartitionReplicator) (dial_ok : bool) :
    PartitionReplicator * option goerr :=
  if PR_conn pr then (pr, None)
  else if dial_ok then (PR_set_conn pr true (Some (PR_replicaAddr pr)), None)
  else (pr, Some (Errorf "dial failed")).

(** A failed connection is only logged. *)
Definition PartitionReplicator_Start (pr : PartitionReplicator) (dial_ok : bool) : PartitionReplicator :=
  if negb (PR_isPrimary pr) then pr
  else
    let pr := if bool_decide (PR_replicaAddr pr ≠ "") then (PartitionReplicator_connectToReplica pr dial_ok).1 else pr in
    PR_set_running pr true.

(** The two steps of [Enqueue]: the offset, then the send to the channel, which
    drops the entry when the channel is full. *)
Definition enqueue_offset (pr : PartitionReplicator) (now : Z) (key value : bytes) (isDelete : bool) :
    PartitionReplicator * QueuedEntry :=
  let offset := i64 (PR_currentOffset pr + 1) in
  (PR_set_offsets pr offset (PR_committedOffset pr), mkQueuedEntry offset key value isDelete now).

Definition enqueue_send (pr : PartitionReplicator) (entry : QueuedEntry) : PartitionReplicator :=
  if len (PR_pendingEntries pr) <? MaxPendingEntries then
    let pending := PR_pendingEntries pr ++ [entry] in
    PR_set_queue pr pending (if ReplicationBatchSize <=? len pending then true else PR_flushSignal pr) (PR_batch pr)
  else pr.

Definition PartitionReplicator_Enqueue (pr : PartitionReplicator) (now : Z) (key value : bytes) (isDelete : bool) :
    PartitionReplicator :=
  if negb (PR_isPrimary pr) then pr
  else let '(pr, entry) := enqueue_offset pr now key value isDelete in enqueue_send pr entry.

Definition PartitionReplicator_GetCurrentOffset (pr : PartitionReplicator) : Z := PR_currentOffset pr.
Definition PartitionReplicator_GetCommittedOffset (pr : PartitionReplicator) : Z := PR_committedOffset pr.
Definition PartitionReplicator_GetReplicationLag (pr : PartitionReplicator) : Z :=
  i64 (PR_currentOffset pr - PR_committedOffset pr).

Definition PartitionReplicator_SetOffset (pr : PartitionReplicator) (offset : Z) : PartitionReplicator :=
  PR_set_offsets pr offset offset.

Definition PartitionReplicator_ApplyEntry (pr : PartitionReplicator) (entry : QueuedEntry) : PartitionReplicator :=
  if PR_isPrimary pr then pr
  else if PR_currentOffset pr <? QE_Offset entry then PR_set_offsets pr (QE_Offset entry) (PR_committedOffset pr)
  else pr.

Definition PartitionReplicator_CommitOffset (pr : PartitionReplicator) (offset : Z) : PartitionReplicator :=
  if PR_committedOffset pr <? offset then PR_set_offsets pr (PR_currentOffset pr) offset else pr.

Definition queue_pb_entry (entry : QueuedEntry) : ReplicationEntry :=
  mkReplicationEntry (QE_Offset entry) (QE_Key entry) (QE_Value entry) (QE_IsDelete entry) (QE_Timestamp entry) REP_OP_PUT.

Definition queue_request (partitionID : Z) (entries : list QueuedEntry) : ReplicateRequest :=
  mkReplicateRequest partitionID (map queue_pb_entry entries)
    (foldl (λ m e, if m <? QE_Offset e then QE_Offset e else m) 0 entries).

Section Queue.
  Context {N : Type} `{Network N}.

Definition PartitionReplicator_sendBatch (pr : PartitionReplicator) (net : N) (dial_ok : bool)
    (entries : list QueuedEntry) : PartitionReplicator * N :=
  match entries with
  | [] => (pr, net)
  | _ =>
      let '(pr, err) :=
        match PR_client pr with
        | None => PartitionReplicator_connectToReplica pr dial_ok
        | Some _ => (pr, None)
        end in
      match err, PR_client pr with
      | Some _, _ | None, None => (pr, net)
      | None, Some addr =>
          match rpc_Replicate net addr (queue_request (PR_partitionID pr) entries) with
          | (net, None) => ((if PR_conn pr then PR_set_conn pr false None else pr), net)
          | (net, Some resp) =>
              ((if RS_Success resp then PartitionReplicator_CommitOffset pr (RS_LastAppliedOffset resp) else pr), net)
          end
      end
  end.

(** The cases of the [select]. *)
Inductive loop_event := EvDone | EvEntry | EvFlush | EvTick.

Definition flush_batch (pr : PartitionReplicator) (net : N) (dial_ok : bool) : PartitionReplicator * N :=
  let '(pr, net) := PartitionReplicator_sendBatch pr net dial_ok (PR_batch pr) in
  (PR_set_queue pr (PR_pendingEntries pr) (PR_flushSignal pr) [], net).

(** One turn of [replicationLoop]; a case that is not ready is not taken. *)
Definition PartitionReplicator_replicationLoop (pr : PartitionReplicator) (net : N) (dial_ok : bool) (ev : loop_event) :
    PartitionReplicator * N :=
  if negb (PR_running pr) then (pr, net) else
  match ev with
  | EvDone =>
      let '(pr, net) := PartitionReplicator_sendBatch pr net dial_ok (PR_batch pr) in (PR_set_running pr false, net)
  | EvEntry =>
      match PR_pendingEntries pr with
      | [] => (pr, net)
      | entry :: pending =>
          let pr := PR_set_queue pr pending (PR_flushSignal pr) (PR_batch pr ++ [entry]) in
          if ReplicationBatchSize <=? len (PR_batch pr) then flush_batch pr net dial_ok else (pr, net)
      end
  | EvFlush =>
      if PR_flushSignal pr then flush_batch (PR_set_queue pr (PR_pendingEntries pr) false (PR_batch pr)) net dial_ok
      else (pr, net)
  | EvTick => flush_batch pr net dial_ok
  end.

Definition PartitionReplicator_Stop (pr : PartitionReplicator) (net : N) (dial_ok : bool) : PartitionReplicator * N :=
  let '(pr, net) := PartitionReplicator_replicationLoop pr net dial_ok EvDone in
  (PR_set_conn pr false (PR_client pr), net).

End Queue.

Definition PartitionReplicator_UpdateReplicaAddr (pr : PartitionReplicator) (addr : string) : PartitionReplicator :=
  if bool_decide (PR_replicaAddr pr = addr) then pr
  else
    let pr := mkPartitionReplicator (PR_partitionID pr) addr (PR_isPrimary pr) (PR_currentOffset pr)
      (PR_committedOffset pr) (PR_pendingEntries pr) (PR_flushSignal pr) (PR_conn pr) (PR_client pr) (PR_batch pr)
      (PR_running pr) in
    if PR_conn pr then PR_set_conn pr false None else pr.

(** ** What reaches the replica *)

Definition queue_ops (p : Z) (es : list QueuedEntry) : list wop :=
  (λ e, WPut (MakePartitionKey p (QE_Key e)) (QE_Value e)) <$> es.

Section queue_facts.
  Context {D : Type} `{EngineLaws D}.
Implicit Types (net : Net D) (pr : PartitionReplicator).

(** The connection leads to the replica, which executes what it gets. *)
Record queue_link pr net : Prop := {
  ql_addr : PR_replicaAddr pr = net_addr net;
  ql_client : ∀ addr, PR_client pr = Some addr → addr = net_addr net;
  ql_conn : PR_conn pr = true → is_Some (PR_client pr);
  ql_ready : replica_ready (net_server net) (PR_partitionID pr)
}.

(** What a send leaves of the queue. *)
Definition same_queue pr pr' : Prop :=
  PR_partitionID pr' = PR_partitionID pr ∧ PR_isPrimary pr' = PR_isPrimary pr ∧
  PR_currentOffset pr' = PR_currentOffset pr ∧ PR_pendingEntries pr' = PR_pendingEntries pr ∧
  PR_flushSignal pr' = PR_flushSignal pr ∧ PR_batch pr' = PR_batch pr ∧ PR_running pr' = PR_running pr.

Definition view net : gmap bytes bytes := db_view (S_db (net_server net)).

Definition no_loss net : Prop := Forall (λ f, f ≠ LostRequest) (net_faults net).

(** The connection before a send. *)
Lemma connect_for_send pr net dial_ok pr1 err :
  queue_link pr net →
  match PR_client pr with None => PartitionReplicator_connectToReplica pr dial_ok | Some _ => (pr, None) end = (pr1, err) →
  queue_link pr1 net ∧ same_queue pr pr1 ∧ PR_committedOffset pr1 = PR_committedOffset pr ∧
  (PR_client pr1 = Some (net_addr net) ∧ err = None ∨ is_Some err ∧ dial_ok = false).
Proof.
  intros L Hc. destruct (PR_client pr) as [addr|] eqn:E.
  { injection Hc as <- <-. rewrite E, (ql_client _ _ L addr E). split_and!; [done|by split_and!|done|by left]. }
  unfold PartitionReplicator_connectToReplica in Hc.
  destruct (PR_conn pr) eqn:Ec; [destruct (ql_conn _ _ L Ec); congruence|]. destruct dial_ok; injection Hc as <- <-.
  - destruct L as [A B C' D']. split_and!; [|by split_and!|done|left; cbn; by rewrite A].
    split; cbn; [done|naive_solver|eauto|done].
  - split_and!; [done|by split_and!|done|right; eauto].
Qed.

(** The call with the batch. *)
Lemma queue_rpc pr net es :
  queue_link pr net →
  ∃ s', replica_ready s' (PR_partitionID pr) ∧
    db_view (S_db s') = batch_apply (view net) (queue_ops (PR_partitionID pr) es) ∧
    rpc_Replicate net (net_addr net) (queue_request (PR_partitionID pr) es) =
    match default Delivered (head (net_faults net)) with
    | LostRequest => (net_next net (net_server net), None)
    | LostReply => (net_next net s', None)
    | Delivered => (net_next net s', Some (mkReplicateResponse true (default 0 (QE_Offset <$> last es)) ""))
    end.
Proof.
  intros L. destruct (rpc_puts net (PR_partitionID pr) (map queue_pb_entry es)
    (RQ_CommitOffset (queue_request (PR_partitionID pr) es)) (ql_ready _ _ L)) as (s' & Hr' & Hv & He);
    [by apply Forall_fmap, Forall_true|].
  exists s'. split_and!; [done| |].
  - rewrite Hv. unfold view. f_equal. by rewrite <- list_fmap_compose.
  - change (queue_request _ _) with (mkReplicateRequest (PR_partitionID pr) (map queue_pb_entry es)
      (RQ_CommitOffset (queue_request (PR_partitionID pr) es))). rewrite He.
    destruct (default Delivered _); [|done..]. do 3 f_equal. change (map queue_pb_entry es) with (queue_pb_entry <$> es).
    rewrite fmap_last. by destruct (last es).
Qed.

Lemma no_loss_next net s : no_loss net → no_loss (net_next net s).
Proof. unfold no_loss. cbn. destruct (net_faults net); [done|]. by intros [_ ?]%Forall_cons. Qed.

(** A batch reaches the replica as a whole or not at all; it does when the dial
    succeeds and the request is not lost. *)
Lemma sendBatch_cases pr net dial_ok es pr' net' :
  queue_link pr net → PartitionReplicator_sendBatch pr net dial_ok es = (pr', net') →
  queue_link pr' net' ∧ same_queue pr pr' ∧ (no_loss net → no_loss net') ∧
  (view net' = batch_apply (view net) (queue_ops (PR_partitionID pr) es) ∨
   view net' = view net ∧ PR_committedOffset pr' = PR_committedOffset pr ∧ ¬ (dial_ok = true ∧ no_loss net)) ∧
  (PR_committedOffset pr' = PR_committedOffset pr ∨
   PR_committedOffset pr < PR_committedOffset pr' ∧ ∃ e, e ∈ es ∧ PR_committedOffset pr' = QE_Offset e).
Proof.
  intros L Hs. destruct es as [|e0 es0]; [cbn in Hs; simplify_eq; split_and!; auto; by split_and!|].
  set (es := e0 :: es0) in *. unfold PartitionReplicator_sendBatch in Hs. unfold es at 1 in Hs. fold es in Hs.
  destruct (match PR_client pr with None => _ | Some _ => _ end) as [pr1 err] eqn:E1.
  apply (connect_for_send pr net) in E1 as (L1 & S1 & C1 & Hor); [|done].
  destruct Hor as [[Hcl ->]|[[e ->] ->]].
  2:{ injection Hs as <- <-. split_and!; auto. right. split_and!; [done|done|]. by intros [? _]. }
  rewrite Hcl in Hs. destruct (queue_rpc pr1 net es L1) as (s' & Hr' & Hv & He). rewrite He in Hs.
  destruct L1 as [A1 B1 C1' D1]. pose proof S1 as (P1 & _). rewrite P1 in Hv.
  pose proof (no_loss_next net) as Hnl. rewrite <- C1.
  destruct (default Delivered (head (net_faults net))) eqn:Ef; injection Hs as <- <-.
  - unfold PartitionReplicator_CommitOffset. cbn [RS_Success RS_LastAppliedOffset]. set (la := default 0 _).
    split_and!; [by destruct (_ <? _); split|by destruct (_ <? _)|auto|by left|].
    destruct (Z.ltb_spec (PR_committedOffset pr1) la); [right|by left]. split; [done|].
    destruct (last es) as [e|] eqn:El; [|by apply last_None in El]. exists e. split; [by apply last_Some_elem_of|done].
  - split_and!; [by destruct (PR_conn pr1); split|by destruct (PR_conn pr1)|auto| |left; by destruct (PR_conn pr1)].
    right. split_and!; [done|by destruct (PR_conn pr1)|]. intros [_ Hn]. unfold no_loss in Hn.
    destruct (net_faults net); [done|]. cbn in Ef. subst. by apply Forall_cons in Hn as [? _].
  - split_and!; [by destruct (PR_conn pr1) eqn:?; split|by destruct (PR_conn pr1)|auto|by left|left; by destruct (PR_conn pr1)].
Qed.

(** *** Runs *)

(** The states a started primary reaches, with the entries of the calls of [Enqueue]
    that have taken their offset and not reached the channel yet, and the entries
    put to the channel so far: the calls run concurrently, so an entry with a larger
    offset can be first.  In a clean run nothing is dropped from the channel, dials
    succeed and the loop does not end. *)
Inductive queue_reach (clean : bool) (p : Z) (addr : string) (net0 : Net D) :
    PartitionReplicator → list QueuedEntry → Net D → list QueuedEntry → Prop :=
  | qr_start dial_ok :
      queue_reach clean p addr net0 (PartitionReplicator_Start (NewPartitionReplicator p true addr) dial_ok) [] net0 []
  | qr_offset pr calls net enq now key value isDelete :
      queue_reach clean p addr net0 pr calls net enq → PR_currentOffset pr + 1 < 2 ^ 63 →
      queue_reach clean p addr net0 (enqueue_offset pr now key value isDelete).1
        (calls ++ [(enqueue_offset pr now key value isDelete).2]) net enq
  | qr_send pr calls net enq i entry :
      queue_reach clean p addr net0 pr calls net enq → calls !! i = Some entry →
      (clean = true → len (PR_pendingEntries pr) < MaxPendingEntries) →
      queue_reach clean p addr net0 (enqueue_send pr entry) (delete i calls) net (enq ++ [entry])
  | qr_loop pr calls net enq dial_ok ev pr' net' :
      queue_reach clean p addr net0 pr calls net enq → (clean = true → dial_ok = true ∧ ev ≠ EvDone) →
      PartitionReplicator_replicationLoop pr net dial_ok ev = (pr', net') →
      queue_reach clean p addr net0 pr' calls net' enq.

(** A call of [Enqueue] that nothing interrupts. *)
Lemma qr_enqueue clean p addr net0 pr net enq now key value isDelete :
  queue_reach clean p addr net0 pr [] net enq → PR_isPrimary pr = true → PR_currentOffset pr + 1 < 2 ^ 63 →
  (clean = true → len (PR_pendingEntries pr) < MaxPendingEntries) →
  queue_reach clean p addr net0 (PartitionReplicator_Enqueue pr now key value isDelete) [] net
    (enq ++ [(enqueue_offset pr now key value isDelete).2]).
Proof.
  intros Hq Hp Hw Hc. unfold PartitionReplicator_Enqueue. rewrite Hp. cbn [negb].
  pose proof (qr_offset _ _ _ _ _ _ _ _ now key value isDelete Hq Hw) as Ho.
  apply (qr_send _ _ _ _ _ _ _ _ 0 (enqueue_offset pr now key value isDelete).2) in Ho; [|done|exact Hc].
  exact Ho.
Qed.

(** The batch of a loop that has not ended. *)
Definition live_batch pr : list QueuedEntry := if PR_running pr then PR_batch pr else [].

Record queue_inv (clean : bool) (net0 : Net D) (calls sent enq : list QueuedEntry) pr net : Prop := {
  qi_link : queue_link pr net;
  qi_primary : PR_isPrimary pr = true;
  qi_current : 0 ≤ PR_currentOffset pr;
  qi_offsets : Forall (λ e, 1 ≤ QE_Offset e ≤ PR_currentOffset pr) (enq ++ calls);
  qi_distinct : NoDup (QE_Offset <$> enq ++ calls);
  qi_sub : sublist (sent ++ live_batch pr ++ PR_pendingEntries pr) enq;
  qi_view : view net = batch_apply (view net0) (queue_ops (PR_partitionID pr) sent);
  qi_clean : clean = true → no_loss net0 → sent ++ live_batch pr ++ PR_pendingEntries pr = enq ∧ no_loss net;
  qi_committed : PR_committedOffset pr = 0 ∨ ∃ e, e ∈ sent ∧ PR_committedOffset pr = QE_Offset e
}.

(** Sending the batch of a running loop, after which it is empty or over. *)
Lemma inv_send clean net0 calls sent enq pr net dial_ok pr1 net1 pr2 :
  queue_inv clean net0 calls sent enq pr net → PR_running pr = true → (clean = true → dial_ok = true) →
  PartitionReplicator_sendBatch pr net dial_ok (PR_batch pr) = (pr1, net1) →
  live_batch pr2 = [] → PR_pendingEntries pr2 = PR_pendingEntries pr1 → PR_currentOffset pr2 = PR_currentOffset pr1 →
  PR_isPrimary pr2 = PR_isPrimary pr1 → PR_partitionID pr2 = PR_partitionID pr1 →
  PR_committedOffset pr2 = PR_committedOffset pr1 → (queue_link pr1 net1 → queue_link pr2 net1) →
  ∃ sent', queue_inv clean net0 calls sent' enq pr2 net1.
Proof.
  intros I Hrun Hcl Hs Hb2 Hp2 Hc2 Hi2 Hid2 Hco2 Hlk.
  apply sendBatch_cases in Hs as (L1 & (P1 & P2 & P3 & P4 & _) & Hn & Hv & Hco); [|apply I].
  destruct I as [_ Ipr Icur Ioff Idis Isub Iv Icl Ico]. unfold live_batch in Isub, Icl. rewrite Hrun in Isub, Icl.
  assert (∀ sent', sent' = sent ++ PR_batch pr ∨ sent' = sent →
    (sent' = sent → PR_committedOffset pr1 = PR_committedOffset pr) →
    view net1 = batch_apply (view net0) (queue_ops (PR_partitionID pr) sent') →
    (clean = true → no_loss net0 → sent' = sent ++ PR_batch pr) → queue_inv clean net0 calls sent' enq pr2 net1) as Hmk.
  { intros sent' Hor Hsame Hview Hclean. split; [by apply Hlk|congruence|by rewrite Hc2, P3|by rewrite Hc2, P3|done|..]; rewrite ?Hb2, ?Hp2, ?P4; cbn [app].
    - etrans; [|exact Isub]. destruct Hor as [->| ->]; [by rewrite <- app_assoc|].
      apply sublist_app; [done|]. by apply sublist_inserts_l.
    - by rewrite Hid2, P1.
    - intros Hc Hnl. destruct (Icl Hc Hnl) as [<- Hnl']. rewrite (Hclean Hc Hnl), <- app_assoc. auto.
    - rewrite Hco2. destruct Hor as [->| ->].
      + destruct Hco as [->|(_ & e & He & ->)]; [|right; exists e; split; [set_solver|done]].
        destruct Ico as [?|(e & He & ?)]; [by left|right; exists e; split; [set_solver|done]].
      + rewrite Hsame by done. done. }
  destruct Hv as [Hv|(Hv & Hc & Hnot)].
  - exists (sent ++ PR_batch pr). apply Hmk; [by left| |by rewrite Hv, Iv, <- batch_apply_app; unfold queue_ops; rewrite fmap_app|done].
    intros Heq. destruct (PR_batch pr) as [|e b] eqn:Eb; [|apply (f_equal length) in Heq; rewrite length_app in Heq; cbn in Heq; lia].
    destruct Hco as [?|(_ & e & He & _)]; [done|by apply elem_of_nil in He].
  - exists sent. apply Hmk; [by right|done|by rewrite Hv|]. intros Hcl' Hnl. destruct Hnot. split; [auto|by apply Icl].
Qed.

Lemma inv_offset clean net0 calls sent enq pr net now key value isDelete :
  queue_inv clean net0 calls sent enq pr net → PR_currentOffset pr + 1 < 2 ^ 63 →
  queue_inv clean net0 (calls ++ [(enqueue_offset pr now key value isDelete).2]) sent enq
    (enqueue_offset pr now key value isDelete).1 net.
Proof.
  intros [[A B C' D'] Ipr Icur Ioff Idis Isub Iv Icl Ico] Hw. unfold enqueue_offset. cbn [fst snd].
  rewrite i64_small by (unfold is_i64; lia). split; cbn; [by split|done|lia| |..|done|done|done|done].
  - rewrite app_assoc. apply Forall_app. split; [|by constructor; [cbn; lia|]].
    eapply Forall_impl; [exact Ioff|]. cbn. lia.
  - rewrite app_assoc, fmap_app. apply NoDup_app. split_and!; [done| |apply NoDup_singleton].
    intros x (e & -> & He)%list_elem_of_fmap Hx. apply list_elem_of_singleton in Hx. cbn in Hx.
    rewrite Forall_forall in Ioff. specialize (Ioff e He). lia.
Qed.

Lemma inv_enqueue_send clean net0 calls sent enq pr net i entry :
  queue_inv clean net0 calls sent enq pr net → calls !! i = Some entry →
  (clean = true → len (PR_pendingEntries pr) < MaxPendingEntries) →
  queue_inv clean net0 (delete i calls) sent (enq ++ [entry]) (enqueue_send pr entry) net.
Proof.
  intros [L Ipr Icur Ioff Idis Isub Iv Icl Ico] Hi Hfull.
  assert ((enq ++ [entry]) ++ delete i calls ≡ₚ enq ++ calls) as Hperm.
  { rewrite <- app_assoc. cbn [app]. by rewrite <- (delete_Permutation calls i entry Hi). }
  rewrite <- Hperm in Ioff, Idis. unfold enqueue_send. destruct L as [A B C' D'].
  destruct (Z.ltb_spec (len (PR_pendingEntries pr)) MaxPendingEntries) as [Hlt|Hge].
  - split; cbn; [by split|done|done|done|done| |done| |done].
    + change (live_batch _) with (live_batch pr). rewrite (app_assoc (live_batch pr)), (app_assoc sent). by apply sublist_app.
    + intros Hc Hnl. destruct (Icl Hc Hnl) as [<- ?]. split; [|done]. change (live_batch _) with (live_batch pr). by rewrite <- !app_assoc.
  - split; cbn; [by split|done|done|done|done| |done| |done].
    + by apply sublist_inserts_r.
    + intros Hc. specialize (Hfull Hc). lia.
Qed.

Lemma inv_loop clean net0 calls sent enq pr net dial_ok ev pr' net' :
  queue_inv clean net0 calls sent enq pr net → (clean = true → dial_ok = true ∧ ev ≠ EvDone) →
  PartitionReplicator_replicationLoop pr net dial_ok ev = (pr', net') → ∃ sent', queue_inv clean net0 calls sent' enq pr' net'.
Proof.
  intros I Hcl Hl. unfold PartitionReplicator_replicationLoop in Hl.
  destruct (PR_running pr) eqn:Hrun; cbn [negb] in Hl; [|simplify_eq; eauto].
  assert (clean = true → dial_ok = true) as Hd by (intros; by apply Hcl).
  assert (∀ pr0, queue_inv clean net0 calls sent enq pr0 net → PR_running pr0 = true →
    flush_batch pr0 net dial_ok = (pr', net') → ∃ sent', queue_inv clean net0 calls sent' enq pr' net') as Hflush.
  { intros pr0 I0 Hr0 Hf. unfold flush_batch in Hf.
    destruct (PartitionReplicator_sendBatch pr0 net dial_ok (PR_batch pr0)) as [pr1 net1] eqn:Es. injection Hf as <- <-.
    eapply (inv_send _ _ _ _ _ pr0); [done|done|done|exact Es|unfold live_batch; cbn; by destruct (PR_running pr1)|done..|].
    intros [? ? ? ?]. by split. }
  destruct ev.
  - destruct (PartitionReplicator_sendBatch pr net dial_ok (PR_batch pr)) as [pr1 net1] eqn:Es. injection Hl as <- <-.
    eapply (inv_send _ _ _ _ _ pr); [done|done|done|exact Es|done..|]. intros [? ? ? ?]. by split.
  - destruct (PR_pendingEntries pr) as [|entry pending] eqn:Ep; [simplify_eq; eauto|].
    set (pr0 := PR_set_queue pr pending (PR_flushSignal pr) (PR_batch pr ++ [entry])) in Hl.
    assert (queue_inv clean net0 calls sent enq pr0 net) as I0.
    { destruct I as [[? ? ? ?] ? ? ? ? Isub ? Icl ?]. unfold live_batch in Isub, Icl. rewrite Hrun, Ep in Isub, Icl.
      split; try done; unfold live_batch; cbn; rewrite Hrun, <- (app_assoc (PR_batch pr)); done. }
    destruct (_ <=? _); [by apply (Hflush pr0)|simplify_eq; eauto].
  - destruct (PR_flushSignal pr); [|simplify_eq; eauto]. eapply (Hflush (PR_set_queue pr (PR_pendingEntries pr) false (PR_batch pr))); [|done|exact Hl].
    destruct I as [[? ? ? ?] ? ? ? ? ? ? ? ?]. by split.
  - by eapply Hflush.
Qed.

Lemma queue_reach_inv clean p addr net0 pr calls net enq :
  addr = net_addr net0 → replica_ready (net_server net0) p →
  queue_reach clean p addr net0 pr calls net enq → PR_partitionID pr = p ∧ ∃ sent, queue_inv clean net0 calls sent enq pr net.
Proof.
  intros -> Hr Hq. induction Hq as [dial_ok|pr calls net enq now key value isDelete Hq [Hp [sent I]] Hw|pr calls net enq i entry Hq [Hp [sent I]] Hi Hfull
    |pr calls net enq dial_ok ev pr' net' Hq [Hp [sent I]] Hcl Hl].
  - set (pr1 := PartitionReplicator_Start _ _).
    assert (PR_partitionID pr1 = p ∧ PR_isPrimary pr1 = true ∧ PR_currentOffset pr1 = 0 ∧ PR_committedOffset pr1 = 0 ∧
      PR_pendingEntries pr1 = [] ∧ PR_batch pr1 = [] ∧ queue_link pr1 net0) as (H1 & H2 & H3 & H4 & H5 & H6 & H7).
    { unfold pr1, PartitionReplicator_Start. cbn [PR_isPrimary NewPartitionReplicator negb].
      destruct (bool_decide _), dial_ok; cbn; split_and!; try done; split; cbn; naive_solver. }
    split; [done|]. exists []. split; [done|done|by rewrite H3|constructor|constructor| |done|intros _ Hnl|by left];
      unfold live_batch; rewrite H5, H6; [by destruct (PR_running _)|]. split; [by destruct (PR_running _)|done].
  - split; [done|eexists; by apply inv_offset].
  - split; [|eexists; by apply inv_enqueue_send]. unfold enqueue_send. by destruct (_ <? _).
  - destruct (inv_loop _ _ _ _ _ _ _ _ _ _ _ I Hcl Hl) as [sent' I']. split; [|eauto]. subst p.
    assert (∀ pr0 d, queue_link pr0 net → ∀ x y, PartitionReplicator_sendBatch pr0 net d (PR_batch pr0) = (x, y) →
      PR_partitionID x = PR_partitionID pr0) as Hsend.
    { intros pr0 d L x y Hs. by apply sendBatch_cases in Hs as (_ & (-> & _) & _). }
    pose proof (qi_link _ _ _ _ _ _ _ I) as [A B C' D']. clear I I' Hq.
    unfold PartitionReplicator_replicationLoop, flush_batch in Hl.
    repeat case_match; simplify_eq; try done;
      match goal with Hx : PartitionReplicator_sendBatch _ _ _ _ = _ |- _ => apply Hsend in Hx; [exact Hx|by split] end.
Qed.
End queue_facts.

(** C22: the partition replicator delivers a subsequence in order.  The replica
    is at the configured address and hosts the partition as NORMAL on an engine that
    writes, so it accepts every batch that reaches it; offsets stay below [2 ^ 63].
    However the calls of [Enqueue] and the loop are
    scheduled, dials fail and requests and replies are lost, the replica has
    executed a part of the entries put to the channel, in the order they were put
    there, each as a put; that part, the batch and the channel are together a
    subsequence of all of them, and all of them when nothing was dropped, every dial
    succeeded, the loop was not ended and no request was lost; no two entries have
    the same offset; and the committed offset is one of an executed entry, never
    more than the current one. *)
Theorem queue_delivers_in_order {D} `{EngineLaws D} clean p addr (net0 net : Net D) pr calls enq :
  addr = net_addr net0 → replica_ready (net_server net0) p → queue_reach clean p addr net0 pr calls net enq →
  ∃ sent, sublist (sent ++ live_batch pr ++ PR_pendingEntries pr) enq ∧
    view net = batch_apply (view net0) (queue_ops p sent) ∧
    (clean = true → no_loss net0 → sent ++ live_batch pr ++ PR_pendingEntries pr = enq) ∧
    NoDup (QE_Offset <$> enq) ∧
    (PartitionReplicator_GetCommittedOffset pr = 0 ∨
     ∃ e, e ∈ sent ∧ PartitionReplicator_GetCommittedOffset pr = QE_Offset e) ∧
    0 ≤ PartitionReplicator_GetCommittedOffset pr ≤ PartitionReplicator_GetCurrentOffset pr.
Proof.
  intros Ha Hr Hq. destruct (queue_reach_inv clean p addr net0 pr calls net enq Ha Hr Hq) as [Hp [sent I]].
  destruct I as [_ _ Icur Ioff Idis Isub Iv Icl Ico]. exists sent. rewrite Hp in Iv.
  rewrite fmap_app in Idis. apply NoDup_app in Idis as [Idis _].
  split_and!; [done|done|by intros; apply Icl|done|done|..]; unfold PartitionReplicator_GetCommittedOffset,
    PartitionReplicator_GetCurrentOffset;
    (destruct Ico as [->|(e & He & ->)]; [done|]); rewrite Forall_forall in Ioff;
    (assert (e ∈ enq) as Hin by (eapply elem_of_sublist; [|exact Isub]; set_solver));
    specialize (Ioff e ltac:(set_solver)); lia.
Qed.

(** ** Examples *)

(** A request that is lost takes its batch with it; the next batch commits past
    it, and the lag is zero. *)
Example lost_batch_is_forgotten :
  let pr := PartitionReplicator_Start (NewPartitionReplicator 7 true "n2") true in
  let pr := PartitionReplicator_Enqueue pr 0 (str_bytes "a") (str_bytes "1") false in
  let '(pr, net) := PartitionReplicator_replicationLoop pr (demo_net [LostRequest]) true EvEntry in
  let '(pr, net) := PartitionReplicator_replicationLoop pr net true EvTick in
  let pr := PartitionReplicator_Enqueue pr 0 (str_bytes "b") (str_bytes "2") false in
  let '(pr, net) := PartitionReplicator_replicationLoop pr net true EvEntry in
  let '(pr, net) := PartitionReplicator_replicationLoop pr net true EvTick in
  PartitionReplicator_GetReplicationLag pr = 0 ∧ view net !! MakePartitionKey 7 (str_bytes "a") = None ∧
  view net !! MakePartitionKey 7 (str_bytes "b") = Some (str_bytes "2").
Proof. vm_compute. done. Qed.

(** [Stop] sends the batch and leaves what is in the channel. *)
Example stop_forgets_the_channel :
  let pr := PartitionReplicator_Start (NewPartitionReplicator 7 true "n2") true in
  let pr := PartitionReplicator_Enqueue pr 0 (str_bytes "a") (str_bytes "1") false in
  let '(pr, net) := PartitionReplicator_Stop pr (demo_net []) true in
  PR_running pr = false ∧ view net !! MakePartitionKey 7 (str_bytes "a") = None.
Proof. vm_compute. done. Qed.

(** A run of one entry, one batch and a lost reply. *)
Definition demo_queue : PartitionReplicator :=
  PartitionReplicator_Enqueue (PartitionReplicator_Start (NewPartitionReplicator 7 true "n2") true) 0
    (str_bytes "a") (str_bytes "1") false.
Definition demo_queue_net : Net MemDB := demo_net [LostReply].

Lemma queue_delivers_in_order_witness :
  ∃ pr net enq, queue_reach true 7 "n2" demo_queue_net pr [] net enq ∧
    PartitionReplicator_GetReplicationLag pr = 1 ∧
    ∃ sent, sent ++ live_batch pr ++ PR_pendingEntries pr = enq ∧
      view net = batch_apply (view demo_queue_net) (queue_ops 7 sent).
Proof.
  destruct (PartitionReplicator_replicationLoop demo_queue demo_queue_net true EvEntry) as [pr1 net1] eqn:E1.
  destruct (PartitionReplicator_replicationLoop pr1 net1 true EvTick) as [pr2 net2] eqn:E2.
  assert (queue_reach true 7 "n2" demo_queue_net pr2 [] net2 ([] ++ [mkQueuedEntry 1 (str_bytes "a") (str_bytes "1") false 0])) as Hq.
  { eapply (qr_loop _ _ _ _ _ _ _ _ true EvTick); [|by intros|exact E2]. eapply (qr_loop _ _ _ _ _ _ _ _ true EvEntry); [|by intros|exact E1].
    apply (qr_enqueue true 7 "n2" demo_queue_net (PartitionReplicator_Start (NewPartitionReplicator 7 true "n2") true) _ []
      0 (str_bytes "a") (str_bytes "1") false); [apply qr_start|done|by vm_compute|by vm_compute]. }
  eexists pr2, net2, _. split; [exact Hq|]. split.
  - assert (pr2 = (PartitionReplicator_replicationLoop
      (PartitionReplicator_replicationLoop demo_queue demo_queue_net true EvEntry).1
      (PartitionReplicator_replicationLoop demo_queue demo_queue_net true EvEntry).2 true EvTick).1) as ->
      by (rewrite E1; cbn [fst snd]; by rewrite E2). vm_compute. reflexivity.
  - assert (replica_ready (net_server demo_queue_net) 7) as Hr.
    { split; [|by split; [constructor|]]. eexists. by split. }
    destruct (queue_delivers_in_order true 7 "n2" demo_queue_net net2 pr2 [] _ eq_refl Hr Hq)
      as (sent & _ & Hv & Hc & _). exists sent. split; [|exact Hv]. apply Hc; [done|].
    apply Forall_cons. by split; [|constructor].
Defined.
