(* ===== verification/SstTransfer.v ===== *)
(** * Moving a partition between storage nodes

    [ExportSST] and [IngestSST] of [src/pkg/storage/server.go]: the source writes
    the key range of a partition to an SST file and streams it in chunks of 64 KB;
    the target collects the chunks in a file and ingests it.

    SST files belong to RocksDB: the class [SstEngine] has the file a writer makes
    from the entries put into it and the ingestion of a file, with the documented
    effect as laws.  What the file system, the writer and the stream answer is the
    record [ExportEnv] and [IngestEnv]. *)

From S2P Require Import Prelude Engine Keys Proto Partitions FieldStorage Replicator StorageServer.

#[local] Open Scope Z_scope.

Class SstEngine (D : Type) `{Engine D} := {
  (** the file of an [SSTFileWriter] after these puts *)
  sst_file : list (bytes * bytes) → bytes;
  (** [DB.IngestExternalFile] of a file with this content *)
  db_ingest : D → bytes → D * option goerr
}.

Definition puts (entries : list (bytes * bytes)) : list wop := (λ e : bytes * bytes, WPut e.1 e.2) <$> entries.

Class SstLaws (D : Type) `{SstEngine D} := {
  sst_file_nonempty entries : sst_file entries ≠ [];
  db_ingest_ok d d' entries :
    NoDup entries.*1 → db_ingest d (sst_file entries) = (d', None) →
    db_view d' = batch_apply (db_view d) (puts entries);
  db_ingest_err d d' data e : db_ingest d data = (d', Some e) → db_view d' = db_view d
}.

Record SSTChunk := mkSSTChunk {
  CK_Data : bytes;
  CK_Filename : string;
  CK_IsLast : bool;
  CK_PartitionId : Z;
  CK_TotalSize : Z
}.

Definition ChunkSize : nat := 65536.

(** What the writer, the file system and the stream answer: an error for the
    [i]-th put, read or send. *)
Record ExportEnv := mkExportEnv {
  xe_name : string;
  xe_open : option goerr;
  xe_put : nat → option goerr;
  xe_finish : option goerr;
  xe_fopen : option goerr;
  xe_read : nat → option goerr;
  xe_send : nat → option goerr
}.

Record IngestEnv := mkIngestEnv {
  ie_create : option goerr;
  ie_write : nat → option goerr
}.

(** The pieces the loop over [file.Read] sees.  The fuel is the length of the
    file: every piece has at least one byte. *)
Fixpoint file_pieces (fuel : nat) (data : bytes) : list bytes :=
  match fuel with
  | O => []
  | Datatypes.S fuel =>
      match data with
      | [] => []
      | _ => take ChunkSize data :: file_pieces fuel (drop ChunkSize data)
      end
  end.

(** The first put that fails. *)
Fixpoint put_all (env : ExportEnv) (i : nat) (entries : list (bytes * bytes)) : option goerr :=
  match entries with
  | [] => None
  | _ :: rest => match xe_put env i with Some err => Some err | None => put_all env (i + 1) rest end
  end.

(** The chunks sent, and the error that ended the loop. *)
Fixpoint send_pieces (env : ExportEnv) (i : nat) (pieces : list bytes) : list SSTChunk * option goerr :=
  match pieces with
  | [] =>
      match xe_read env i with
      | Some _ => ([], Some (Errorf "failed to read sst file"))
      | None =>
          match xe_send env i with
          | Some err => ([], Some err)
          | None => ([mkSSTChunk [] (xe_name env) true 0 0], None)
          end
      end
  | piece :: rest =>
      match xe_read env i with
      | Some _ => ([], Some (Errorf "failed to read sst file"))
      | None =>
          match xe_send env i with
          | Some err => ([], Some err)
          | None =>
              let '(sent, err) := send_pieces env (i + 1) rest in
              (mkSSTChunk piece (xe_name env) false 0 0 :: sent, err)
          end
      end
  end.

Section Transfer.
  Context {D : Type} `{SstEngine D}.

(** The entries the loop visits, and what [iter.Err] says after it: the error
    of a scan shows only when the loop has not left it before. *)
Definition export_entries (d : D) (partitionID : Z) : list (bytes * bytes) * option goerr :=
  let '(startKey, endKey) := GetPartitionRange partitionID in
  let '(entries, err) := db_scan d startKey in
  let visited := take_while (λ e : bytes * bytes, compareBytes e.1 endKey <? 0) entries in
  (visited, if decide (length visited = length entries) then err else None).

Definition empty_name (partitionID : Z) : string := "partition_" +:+ bytes_str (FormatUint partitionID) +:+ "_empty.sst".

Definition Server_ExportSST (s : Server D) (env : ExportEnv) (partitionID : Z) :
    Server D * list SSTChunk * option goerr :=
  if negb (PartitionManager_HasPartition (S_pm s) partitionID) then
    (s, [], Some (Errorf "partition not found"))
  else
  match PartitionManager_SetPartitionStatus (S_pm s) partitionID MIGRATING_OUT with
  | (pm, Some _) => (S_set_pm s pm, [], Some (Errorf "failed to set partition status"))
  | (pm, None) =>
      let s := S_set_pm s pm in
      match xe_open env with
      | Some _ => (s, [], Some (Errorf "failed to open sst writer"))
      | None =>
          let '(entries, scanErr) := export_entries (S_db s) partitionID in
          match put_all env 0 entries with
          | Some _ => (s, [], Some (Errorf "failed to write to sst"))
          | None =>
              match scanErr with
              | Some _ => (s, [], Some (Errorf "iterator error"))
              | None =>
                  match entries with
                  | [] =>
                      match xe_send env 0 with
                      | Some err => (s, [], Some err)
                      | None => (s, [mkSSTChunk [] (empty_name partitionID) true partitionID 0], None)
                      end
                  | _ =>
                      match xe_finish env, xe_fopen env with
                      | Some _, _ => (s, [], Some (Errorf "failed to finish sst"))
                      | None, Some _ => (s, [], Some (Errorf "failed to open sst file"))
                      | None, None =>
                          let data := sst_file entries in
                          let '(sent, err) := send_pieces env 0 (file_pieces (length data) data) in
                          (s, sent, err)
                      end
                  end
              end
          end
      end
  end.

(** How the client's side of a stream ends. *)
Inductive stream_end := StreamEOF | StreamError (err : goerr).

(** The variables of the loop of [IngestSST]: [file] is the content of the
    file, once it is created. *)
Record IngestState := mkIngestState {
  IS_file : option bytes;
  IS_partitionID : Z;
  IS_hasData : bool
}.

(** The loop over the stream: it ends early with a response for an empty
    partition, with an error, or with the state in which the file is complete. *)
Inductive ingest_end :=
  | IngestEmpty (partitionID : Z)
  | IngestFailed (err : goerr)
  | IngestComplete (st : IngestState).

Fixpoint ingest_loop (env : IngestEnv) (i : nat) (st : IngestState) (chunks : list SSTChunk) (fin : stream_end) :
    ingest_end :=
  match chunks with
  | [] => match fin with StreamEOF => IngestComplete st | StreamError err => IngestFailed err end
  | chunk :: rest =>
      let partitionID :=
        if (IS_partitionID st =? 0) && negb (CK_PartitionId chunk =? 0) then CK_PartitionId chunk
        else IS_partitionID st in
      if CK_IsLast chunk && (len (CK_Data chunk) =? 0) && negb (IS_hasData st) then IngestEmpty partitionID else
      if 0 <? len (CK_Data chunk) then
        match IS_file st, ie_create env with
        | None, Some _ => IngestFailed (Errorf "failed to create sst file")
        | _, _ =>
            match ie_write env i with
            | Some _ => IngestFailed (Errorf "failed to write sst file")
            | None =>
                let st := mkIngestState (Some (default [] (IS_file st) ++ CK_Data chunk)) partitionID true in
                if CK_IsLast chunk then IngestComplete st else ingest_loop env (i + 1) st rest fin
            end
        end
      else
        let st := mkIngestState (IS_file st) partitionID (IS_hasData st) in
        if CK_IsLast chunk then IngestComplete st else ingest_loop env i st rest fin
  end.

(** The response is [Success] when there is no error. *)
Definition Server_IngestSST (s : Server D) (env : IngestEnv) (chunks : list SSTChunk) (fin : stream_end) :
    Server D * option goerr :=
  match ingest_loop env 0 (mkIngestState None 0 false) chunks fin with
  | IngestFailed err => (s, Some err)
  | IngestEmpty partitionID =>
      if negb (partitionID =? 0) && negb (PartitionManager_HasPartition (S_pm s) partitionID) then
        (S_set_pm s (PartitionManager_AddPartition (S_pm s) partitionID false).1, None)
      else (s, None)
  | IngestComplete st =>
      match IS_file st with
      | Some data =>
          if IS_hasData st then
            match db_ingest (S_db s) data with
            | (d, Some _) => (S_set_pm s (PM_set_db (S_pm s) d), Some (Errorf "failed to ingest sst"))
            | (d, None) => (S_set_pm s (PM_set_db (S_pm s) d), None)
            end
          else (s, None)
      | None => (s, None)
      end
  end.

End Transfer.

(** ** The stream *)

Lemma firstn_cons_nonempty {A} n (x : A) l : (0 < n)%nat → take n (x :: l) = x :: take (n - 1) l.
Proof. destruct n as [|n]; [lia|]. intros _. by replace (Datatypes.S n - 1)%nat with n by lia. Qed.

Lemma file_pieces_concat fuel data :
  (length data ≤ fuel)%nat → concat (file_pieces fuel data) = data ∧ Forall (λ p, p ≠ []) (file_pieces fuel data).
Proof.
  revert data. induction fuel as [|fuel IH]; intros data Hlen; cbn [file_pieces].
  { destruct data; [done|cbn in Hlen; lia]. }
  destruct data as [|b data]; [done|].
  destruct (IH (drop ChunkSize (b :: data))) as [Hc Hf].
  { rewrite length_drop. assert (0 < ChunkSize)%nat by (apply Nat.ltb_lt; reflexivity). cbn [length] in *. lia. }
  split.
  - cbn [concat]. rewrite Hc. apply take_drop.
  - constructor; [|done]. rewrite firstn_cons_nonempty by (apply Nat.ltb_lt; reflexivity). discriminate.
Qed.

Lemma send_pieces_ok env i pieces sent :
  send_pieces env i pieces = (sent, None) →
  sent = ((λ p, mkSSTChunk p (xe_name env) false 0 0) <$> pieces) ++ [mkSSTChunk [] (xe_name env) true 0 0].
Proof.
  revert i sent. induction pieces as [|p pieces IH]; intros i sent; cbn [send_pieces].
  - destruct (xe_read env i); [done|]. destruct (xe_send env i); [done|]. by intros [= <-].
  - destruct (xe_read env i); [done|]. destruct (xe_send env i); [done|].
    destruct (send_pieces env (i + 1) pieces) as [rest err] eqn:Hr. intros [= <- ->]. by rewrite (IH _ _ Hr).
Qed.

(** What the target has collected at the end of a complete stream. *)
Lemma ingest_loop_file env i st pieces name fin :
  Forall (λ p, p ≠ []) pieces → (pieces ≠ [] ∨ IS_hasData st = true) → (IS_hasData st = true → is_Some (IS_file st)) →
  let r := ingest_loop env i st
    (((λ p, mkSSTChunk p name false 0 0) <$> pieces) ++ [mkSSTChunk [] name true 0 0]) fin in
  (∃ err, r = IngestFailed err) ∨
  r = IngestComplete (mkIngestState (Some (default [] (IS_file st) ++ concat pieces)) (IS_partitionID st) true).
Proof.
  intros Hp. revert i st. induction Hp as [|p pieces Hne Hp IH]; intros i st Hd Hf; cbv zeta; cbn [fmap list_fmap app].
  - destruct Hd as [|Hd]; [done|]. destruct (Hf Hd) as [data Hdata]. cbn [ingest_loop CK_PartitionId CK_IsLast CK_Data].
    rewrite Hd, Hdata. cbn. rewrite andb_false_r, app_nil_r. right. change (0 <? len []) with false. by rewrite andb_false_r.
  - cbn [ingest_loop CK_PartitionId CK_IsLast CK_Data]. change (0 =? 0) with true. cbn [negb andb].
    rewrite andb_false_r. destruct (Z.ltb_spec 0 (len p)) as [_|Hz].
    2:{ destruct p; [done|]. rewrite len_cons in Hz. pose proof (len_nonneg p). lia. }
    assert (∀ st', st' = mkIngestState (Some (default [] (IS_file st) ++ p)) (IS_partitionID st) true →
      (∃ err, ingest_loop env (i + 1) st' (((λ p, mkSSTChunk p name false 0 0) <$> pieces) ++
         [mkSSTChunk [] name true 0 0]) fin = IngestFailed err) ∨
      ingest_loop env (i + 1) st' (((λ p, mkSSTChunk p name false 0 0) <$> pieces) ++
         [mkSSTChunk [] name true 0 0]) fin =
      IngestComplete (mkIngestState (Some (default [] (IS_file st) ++ p ++ concat pieces)) (IS_partitionID st) true)) as Hnext.
    { intros st' ->. destruct (IH (i + 1)%nat (mkIngestState (Some (default [] (IS_file st) ++ p)) (IS_partitionID st) true))
        as [Hr|Hr]; [by right|by cbn; eauto|by left|]. right. cbn [IS_file IS_partitionID default] in Hr.
      cbn in Hr. rewrite Hr, <- app_assoc. done. }
    destruct (IS_file st) as [data|]; [|destruct (ie_create env); [by left; eauto|]];
      (destruct (ie_write env i); [by left; eauto|]); by apply Hnext.
Qed.

Lemma prefix_take_while {A} (P : A → bool) l l' :
  l `prefix_of` l' → length (take_while P l) ≠ length l → take_while P l' = take_while P l.
Proof.
  intros [t ->]. induction l as [|x l IH]; cbn; [done|]. destruct (P x); [|done]. cbn. intros Hn.
  f_equal. apply IH. lia.
Qed.

Lemma take_while_sublist {A} (P : A → bool) l : sublist (take_while P l) l.
Proof. induction l as [|x l IH]; cbn; [done|]. destruct (P x); [by constructor|apply sublist_nil_l]. Qed.

(** ** What is copied *)

Section TransferFacts.
  Context {D : Type} `{Engine D, !EngineLaws D, !SstEngine D, !SstLaws D}.

Definition partition_entries (m : gmap bytes bytes) (p : Z) : list (bytes * bytes) :=
  take_while (λ e : bytes * bytes, compareBytes e.1 (GetPartitionRange p).2 <? 0)
    (sorted_from m (GetPartitionRange p).1).

Lemma export_entries_ok (d : D) p entries :
  export_entries d p = (entries, None) → entries = partition_entries (db_view d) p.
Proof.
  unfold export_entries, partition_entries. destruct (GetPartitionRange p) as [st en]. cbn [fst snd].
  destruct (db_scan d st) as [l [err|]] eqn:Hs.
  - apply db_scan_err in Hs. case_decide as Hlen; [done|]. intros [= <-]. symmetry. by apply prefix_take_while.
  - apply db_scan_ok in Hs as ->. case_decide; by intros [= <-].
Qed.

Lemma partition_entries_NoDup m p : NoDup (partition_entries m p).*1.
Proof.
  eapply sublist_NoDup; [apply (sorted_from_NoDup m (GetPartitionRange p).1)|].
  apply fmap_sublist, take_while_sublist.
Qed.

Lemma partition_entries_elem m p k v :
  is_u32 p → p ≠ 2 ^ 32 - 1 →
  (MakePartitionKey p k, v) ∈ partition_entries m p ↔ m !! MakePartitionKey p k = Some v.
Proof.
  intros Hp Hmax. unfold partition_entries. split.
  - intros [[? _]%elem_of_sorted_from _]%elem_of_take_while. done.
  - intros Hv. assert (6 ≤ len (MakePartitionKey p k)) as Hlen.
    { unfold MakePartitionKey. rewrite !len_app, len_be32. change (len PartitionKeyPrefix) with 2.
      pose proof (len_nonneg k). lia. }
    assert (in_partition_range p (MakePartitionKey p k)) as Hin by (apply partition_range_exact; eauto).
    unfold in_partition_range in Hin. destruct (GetPartitionRange p) as [st en]. cbn [fst snd].
    destruct Hin as [Hst Hen]. apply (take_while_before entry_le).
    + apply sorted_from_sorted.
    + apply elem_of_sorted_from. done.
    + cbn [fst]. by apply Z.ltb_lt.
    + intros [x w] _ Hle. cbn [fst]. apply Z.ltb_lt. apply (proj1 (compareBytes_spec x en)).
      apply (proj1 (compareBytes_spec _ en)) in Hen. eapply bytes_le_lt_trans; [exact Hle|done].
Qed.

Lemma partition_entries_other m p q k v :
  is_u32 p → p ≠ 2 ^ 32 - 1 → is_u32 q → q ≠ p → (MakePartitionKey q k, v) ∉ partition_entries m p.
Proof.
  intros Hp Hmax Hq Hne [[_ Hs]%elem_of_sorted_from Hb]%elem_of_take_while. cbn [fst] in Hb. apply Z.ltb_lt in Hb.
  assert (∃ k', MakePartitionKey q k = MakePartitionKey p k') as [k' Hk].
  { apply partition_range_exact; [done..| |].
    - unfold MakePartitionKey. rewrite !len_app, len_be32. change (len PartitionKeyPrefix) with 2.
      pose proof (len_nonneg k). lia.
    - unfold in_partition_range. by destruct (GetPartitionRange p). }
  apply (f_equal ParsePartitionKey) in Hk. rewrite !ParsePartitionKey_MakePartitionKey in Hk by done. by simplify_eq.
Qed.

Lemma batch_apply_puts m l k v : NoDup l.*1 → (k, v) ∈ l → batch_apply m (puts l) !! k = Some v.
Proof.
  revert m. induction l as [|[k' v'] l IH]; intros m Hnd Hin; [by apply elem_of_nil in Hin|].
  rewrite fmap_cons in Hnd. apply NoDup_cons in Hnd as [Hnew Hnd].
  change (batch_apply (<[k' := v']> m) (puts l) !! k = Some v). apply elem_of_cons in Hin as [[= -> ->]|Hin].
  - rewrite batch_apply_other; [apply lookup_insert_eq|]. intros o Ho.
    apply list_elem_of_fmap in Ho as ([a b] & -> & Ho). cbn. intros ->. apply Hnew.
    by apply (list_elem_of_fmap_2 fst) in Ho.
  - by apply IH.
Qed.

Lemma batch_apply_puts_other m l k : k ∉ l.*1 → batch_apply m (puts l) !! k = m !! k.
Proof.
  intros Hk. apply batch_apply_other. intros o Ho. apply list_elem_of_fmap in Ho as ([a b] & -> & Ho). cbn.
  intros ->. apply Hk. by apply (list_elem_of_fmap_2 fst) in Ho.
Qed.

(** A complete export: the stream of the partition's entries, and the data of
    the source untouched. *)
Lemma ExportSST_ok (s s' : Server D) env p sent :
  Server_ExportSST s env p = (s', sent, None) →
  db_view (S_db s') = db_view (S_db s) ∧
  (∃ part, PM_partitions (S_pm s') !! p = Some part ∧ P_Status part = MIGRATING_OUT) ∧
  let entries := partition_entries (db_view (S_db s)) p in
  sent = if decide (entries = []) then [mkSSTChunk [] (empty_name p) true p 0]
         else ((λ d, mkSSTChunk d (xe_name env) false 0 0) <$>
                file_pieces (length (sst_file entries)) (sst_file entries)) ++ [mkSSTChunk [] (xe_name env) true 0 0].
Proof.
  unfold Server_ExportSST. destruct (PartitionManager_HasPartition (S_pm s) p); cbn [negb]; [|done].
  unfold PartitionManager_SetPartitionStatus. destruct (PM_partitions (S_pm s) !! p) as [part|] eqn:Hpart; [|done].
  set (s1 := S_set_pm s _). destruct (xe_open env); [done|].
  assert (S_db s1 = S_db s) as Hdb by done. rewrite Hdb.
  destruct (export_entries (S_db s) p) as [entries [scanErr|]] eqn:He; [by destruct (put_all env 0 entries)|].
  apply export_entries_ok in He as <-. destruct (put_all env 0 entries); [done|].
  assert (∃ part0, PM_partitions (S_pm s1) !! p = Some part0 ∧ P_Status part0 = MIGRATING_OUT) as Hst
    by (cbn; rewrite lookup_insert_eq; eauto).
  cbv zeta. destruct entries as [|e entries].
  - destruct (xe_send env 0); [done|]. intros [= <- <-]. done.
  - destruct (xe_finish env); [done|]. destruct (xe_fopen env); [done|].
    destruct (send_pieces env 0 _) as [sent' err] eqn:Hsend. intros [= <- <- ->].
    apply send_pieces_ok in Hsend as ->. done.
Qed.

(** What the target holds after a complete stream. *)
Lemma IngestSST_ok (s s' : Server D) env entries name ename p fin :
  NoDup entries.*1 →
  Server_IngestSST s env (if decide (entries = []) then [mkSSTChunk [] ename true p 0]
     else ((λ d, mkSSTChunk d name false 0 0) <$> file_pieces (length (sst_file entries)) (sst_file entries)) ++
       [mkSSTChunk [] name true 0 0]) fin = (s', None) →
  db_view (S_db s') = batch_apply (db_view (S_db s)) (puts entries).
Proof.
  intros Hnd. unfold Server_IngestSST. case_decide as Hempty.
  - subst entries. cbn [ingest_loop CK_IsLast CK_Data CK_PartitionId IS_partitionID IS_hasData].
    change (len [] =? 0) with true. cbn [andb negb].
    set (q := if (0 =? 0) && negb (p =? 0) then p else 0).
    destruct (negb (q =? 0) && negb (PartitionManager_HasPartition (S_pm s) q)); intros [= <-]; [|done].
    unfold PartitionManager_AddPartition. by destruct (PM_partitions (S_pm s) !! q).
  - destruct (file_pieces_concat (length (sst_file entries)) (sst_file entries)) as [Hc Hf]; [done|].
    assert (file_pieces (length (sst_file entries)) (sst_file entries) ≠ []) as Hne.
    { intros Hn. rewrite Hn in Hc. by destruct (sst_file_nonempty entries). }
    destruct (ingest_loop_file env 0 (mkIngestState None 0 false) _ name fin Hf) as [[err ->]| ->];
      [by left|done|done|]. cbn [IS_file IS_hasData default]. cbn. rewrite Hc.
    destruct (db_ingest (S_db s) (sst_file entries)) as [d [err|]] eqn:Hi; [done|]. intros [= <-].
    by eapply db_ingest_ok.
Qed.

(** A map that took in the entries of a partition of [m]. *)
Lemma ingested_partition (m0 m : gmap bytes bytes) p : is_u32 p → p ≠ 2 ^ 32 - 1 →
  let m1 := batch_apply m0 (puts (partition_entries m p)) in
  (∀ k, m1 !! MakePartitionKey p k =
     match m !! MakePartitionKey p k with Some v => Some v | None => m0 !! MakePartitionKey p k end) ∧
  (∀ q k, is_u32 q → q ≠ p → m1 !! MakePartitionKey q k = m0 !! MakePartitionKey q k).
Proof.
  intros Hp Hmax m1. pose proof (partition_entries_NoDup m p) as Hnd. split.
  - intros k. destruct (m !! MakePartitionKey p k) as [v|] eqn:Hv.
    + apply batch_apply_puts; [done|]. by apply partition_entries_elem.
    + apply batch_apply_puts_other. intros ([k' v] & Hk & Hin)%list_elem_of_fmap. cbn in Hk. subst k'.
      apply partition_entries_elem in Hin; [congruence|done..].
  - intros q k Hq Hne. apply batch_apply_puts_other. intros ([k' v] & Hk & Hin)%list_elem_of_fmap. cbn in Hk.
    subst k'. by apply (partition_entries_other _ p q k v) in Hin.
Qed.

End TransferFacts.

(** C25: a complete transfer copies the partition.  When an export ends without an
    error and the target acknowledges the whole stream, then at the target every
    key of the partition has the value it had at the source (keys the source does
    not have keep what the target had), keys of other partitions are untouched,
    and the source keeps its data and is marked as migrating out. *)
Theorem transfer_copies_partition {D} `{Engine D, !EngineLaws D, !SstEngine D, !SstLaws D}
    (src src' dst dst' : Server D) xenv ienv p sent fin :
  is_u32 p → p ≠ 2 ^ 32 - 1 →
  Server_ExportSST src xenv p = (src', sent, None) →
  Server_IngestSST dst ienv sent fin = (dst', None) →
  (∀ k, db_view (S_db dst') !! MakePartitionKey p k =
     match db_view (S_db src) !! MakePartitionKey p k with
     | Some v => Some v
     | None => db_view (S_db dst) !! MakePartitionKey p k
     end) ∧
  (∀ q k, is_u32 q → q ≠ p →
     db_view (S_db dst') !! MakePartitionKey q k = db_view (S_db dst) !! MakePartitionKey q k) ∧
  db_view (S_db src') = db_view (S_db src) ∧
  ∃ part, PM_partitions (S_pm src') !! p = Some part ∧ P_Status part = MIGRATING_OUT.
Proof.
  intros Hp Hmax Hexp Hing. apply ExportSST_ok in Hexp as (Hsrc & Hst & ->).
  apply IngestSST_ok in Hing; [|apply partition_entries_NoDup]. rewrite Hing.
  destruct (ingested_partition (db_view (S_db dst)) (db_view (S_db src)) p Hp Hmax). by split_and!.
Qed.

(** A stream that is closed before its first chunk is acknowledged. *)
Lemma IngestSST_nothing {D} `{Engine D, !SstEngine D} (dst : Server D) ienv :
  Server_IngestSST dst ienv [] StreamEOF = (dst, None).
Proof. done. Qed.

(** ** Two servers *)

(** A file format to run: a byte of data is preceded by 1, a string is ended by
    0, a file starts with 2. *)
Fixpoint demo_string (b : bytes) : bytes :=
  match b with [] => [Byte.x00] | x :: b => Byte.x01 :: x :: demo_string b end.

Definition demo_file (entries : list (bytes * bytes)) : bytes :=
  Byte.x02 :: concat ((λ e : bytes * bytes, demo_string e.1 ++ demo_string e.2) <$> entries).

Fixpoint demo_take (data : bytes) : option (bytes * bytes) :=
  match data with
  | Byte.x00 :: rest => Some ([], rest)
  | Byte.x01 :: x :: rest => '(s, rest) ← demo_take rest; Some (x :: s, rest)
  | _ => None
  end.

Fixpoint demo_entries (fuel : nat) (data : bytes) : option (list (bytes * bytes)) :=
  match data, fuel with
  | [], _ => Some []
  | _, O => None
  | _, Datatypes.S fuel =>
      '(k, rest) ← demo_take data; '(v, rest) ← demo_take rest; cons (k, v) <$> demo_entries fuel rest
  end.

Lemma demo_take_string s rest : demo_take (demo_string s ++ rest) = Some (s, rest).
Proof. induction s as [|x s IH]; [done|]. cbn [demo_string app demo_take]. by rewrite IH. Qed.

Lemma demo_entries_file entries fuel :
  (length entries ≤ fuel)%nat →
  demo_entries fuel (concat ((λ e : bytes * bytes, demo_string e.1 ++ demo_string e.2) <$> entries)) = Some entries.
Proof.
  revert fuel. induction entries as [|[k v] entries IH]; intros fuel Hlen; [by destruct fuel|].
  destruct fuel as [|fuel]; [cbn in Hlen; lia|]. rewrite fmap_cons. cbn [concat]. rewrite <- app_assoc. cbn [fst snd].
  assert (∃ x r, demo_string k ++ demo_string v ++
    concat ((λ e : bytes * bytes, demo_string e.1 ++ demo_string e.2) <$> entries) = x :: r) as (x & r & Heq)
    by (destruct k; cbn; eauto).
  cbn [demo_entries]. rewrite Heq, <- Heq, demo_take_string. cbn [mbind option_bind]. rewrite demo_take_string.
  cbn [mbind option_bind]. rewrite IH; [done|]. cbn in Hlen. lia.
Qed.

#[global] Instance MemDB_SstEngine : SstEngine MemDB := {|
  sst_file := demo_file;
  db_ingest d data :=
    match demo_entries (length data) (tail data) with
    | Some entries => db_write d (puts entries)
    | None => (d, Some (Errorf "corruption"))
    end
|}.

Lemma demo_string_length s : (0 < length (demo_string s))%nat.
Proof. destruct s; cbn; lia. Qed.

Lemma demo_file_length entries :
  (length entries ≤ length (concat ((λ e : bytes * bytes, demo_string e.1 ++ demo_string e.2) <$> entries)))%nat.
Proof.
  induction entries as [|[k v] entries IH]; [done|]. rewrite fmap_cons, concat_cons, !length_app.
  pose proof (demo_string_length k). cbn [fst snd length]. lia.
Qed.

#[global] Instance MemDB_SstLaws : SstLaws MemDB.
Proof.
  split.
  - done.
  - intros d d' entries _. cbn [db_ingest MemDB_SstEngine sst_file demo_file tail].
    rewrite demo_entries_file.
    + apply db_write_ok.
    + pose proof (demo_file_length entries). cbn. lia.
  - intros d d' data e. cbn [db_ingest MemDB_SstEngine]. destruct (demo_entries _ _); [apply db_write_err|].
    by intros [= <- _].
Qed.

Definition demo_export_env : ExportEnv :=
  mkExportEnv "partition_5.sst" None (λ _, None) None None (λ _, None) (λ _, None).
Definition demo_ingest_env : IngestEnv := mkIngestEnv None (λ _, None).

Definition demo_source : Server MemDB :=
  demo_server {[ MakePartitionKey 5 (str_bytes "a") := str_bytes "1"; MakePartitionKey 5 (str_bytes "b") := str_bytes "2";
    MakePartitionKey 6 (str_bytes "a") := str_bytes "3" ]} {[ 5 := mkPartition 5 NORMAL true 1 ]}.
Definition demo_target : Server MemDB := demo_server {[ MakePartitionKey 5 (str_bytes "b") := str_bytes "old" ]} ∅.

Lemma transfer_copies_partition_witness :
  let '(src', sent, err) := Server_ExportSST demo_source demo_export_env 5 in
  let '(dst', err') := Server_IngestSST demo_target demo_ingest_env sent StreamEOF in
  err = None ∧ err' = None ∧
  ∀ k, db_view (S_db dst') !! MakePartitionKey 5 k =
    match db_view (S_db demo_source) !! MakePartitionKey 5 k with
    | Some v => Some v
    | None => db_view (S_db demo_target) !! MakePartitionKey 5 k
    end.
Proof.
  destruct (Server_ExportSST demo_source demo_export_env 5) as [[src' sent] err] eqn:Hexp.
  destruct (Server_IngestSST demo_target demo_ingest_env sent StreamEOF) as [dst' err'] eqn:Hing.
  assert (sent = (Server_ExportSST demo_source demo_export_env 5).1.2) as Hsent by by rewrite Hexp.
  assert (err = None) as ->.
  { apply (f_equal snd) in Hexp. cbn [snd] in Hexp. rewrite <- Hexp. vm_compute. reflexivity. }
  assert (err' = None) as ->.
  { apply (f_equal snd) in Hing. cbn [snd] in Hing. rewrite <- Hing, Hsent. vm_compute. reflexivity. }
  split_and!; [done..|].
  apply (transfer_copies_partition demo_source src' demo_target dst' demo_export_env demo_ingest_env 5 sent StreamEOF);
    [vm_compute; split; congruence|done|done|done].
Defined.
