(* ===== verification/MigrationManager.v ===== *)
(** * The migration manager of a storage node

    [src/pkg/storage/migration.go]: the export of a partition to a file, the copy of
    a partition between two nodes over their export and ingestion handlers, the
    batched deletion of a partition and its size.

    A copy that fails leaves the target without the partition or with all of it,
    and the deletion ends on every database. *)

From S2P Require Import Prelude Engine Keys Proto Partitions FieldStorage Replicator StorageServer SstTransfer.

#[local] Open Scope Z_scope.

(** What the network answers to the copy: the errors of the connections, of the
    calls that open the streams, of receiving and sending the [i]-th chunk and of
    the last answer, with what the two handlers meet. *)
Record MigrateEnv := mkMigrateEnv {
  me_dialSource : option goerr;
  me_dialTarget : option goerr;
  me_startExport : option goerr;
  me_startIngest : option goerr;
  me_recv : nat → option goerr;
  me_send : nat → option goerr;
  me_close : option goerr;
  me_export : ExportEnv;
  me_ingest : IngestEnv
}.

(** The loop from one stream to the other: the chunks sent and the error it ends
    with.  [exportErr] is the status with which the source ends its stream. *)
Fixpoint stream_loop (env : MigrateEnv) (i : nat) (chunks : list SSTChunk) (exportErr : option goerr) :
    list SSTChunk * option goerr :=
  match chunks with
  | [] =>
      match exportErr with
      | None => ([], None)
      | Some _ => ([], Some (Errorf "export stream error"))
      end
  | chunk :: rest =>
      match me_recv env i with
      | Some _ => ([], Some (Errorf "export stream error"))
      | None =>
          match me_send env i with
          | Some _ => ([], Some (Errorf "ingest stream error"))
          | None =>
              if CK_IsLast chunk then ([chunk], None)
              else let '(sent, err) := stream_loop env (i + 1) rest exportErr in (chunk :: sent, err)
          end
      end
  end.

Definition deleteBatchSize : nat := Z.to_nat 10000.

Section MigrationManager.
  Context {D : Type} `{SstEngine D}.

(** The file (its content) and the number of keys in it; [mkdir] is the error of
    making the directory. *)
Definition MigrationManager_ExportPartition (s : Server D) (mkdir : option goerr) (env : ExportEnv) (partitionID : Z) :
    goerr + bytes * Z :=
  if negb (PartitionManager_HasPartition (S_pm s) partitionID) then inl (Errorf "partition not found")
  else
  match mkdir, xe_open env with
  | Some _, _ => inl (Errorf "failed to create output directory")
  | None, Some _ => inl (Errorf "failed to open sst writer")
  | None, None =>
      let '(entries, scanErr) := export_entries (S_db s) partitionID in
      match put_all env 0 entries, scanErr, xe_finish env with
      | Some _, _, _ => inl (Errorf "failed to write to sst")
      | None, Some _, _ => inl (Errorf "iterator error")
      | None, None, Some _ => inl (Errorf "failed to finish sst")
      | None, None, None => inr (sst_file entries, len entries)
      end
  end.

Definition MigrationManager_IngestSST (s : Server D) (file : bytes) : Server D * option goerr :=
  match db_ingest (S_db s) file with
  | (d, Some _) => (S_set_pm s (PM_set_db (S_pm s) d), Some (Errorf "failed to ingest sst"))
  | (d, None) => (S_set_pm s (PM_set_db (S_pm s) d), None)
  end.

(** The servers of the source and of the target after the copy.  When the loop
    fails the connections are closed, which ends the stream of the target with an
    error. *)
Definition MigrationManager_MigratePartition (src dst : Server D) (env : MigrateEnv) (partitionID : Z) :
    Server D * Server D * option goerr :=
  match me_dialSource env, me_dialTarget env, me_startExport env with
  | Some _, _, _ => (src, dst, Some (Errorf "failed to connect to source"))
  | None, Some _, _ => (src, dst, Some (Errorf "failed to connect to target"))
  | None, None, Some _ => (src, dst, Some (Errorf "failed to start export"))
  | None, None, None =>
      let '(src, chunks, exportErr) := Server_ExportSST src (me_export env) partitionID in
      match me_startIngest env with
      | Some _ => (src, dst, Some (Errorf "failed to start ingest"))
      | None =>
          match stream_loop env 0 chunks exportErr with
          | (sent, Some err) =>
              (src, (Server_IngestSST dst (me_ingest env) sent (StreamError (Errorf "canceled"))).1, Some err)
          | (sent, None) =>
              let '(dst, ingestErr) := Server_IngestSST dst (me_ingest env) sent StreamEOF in
              match ingestErr, me_close env with
              | Some _, _ | _, Some _ => (src, dst, Some (Errorf "failed to close ingest stream"))
              | None, None => (src, dst, None)
              end
          end
      end
  end.

(** The keys of one batch. *)
Definition delete_batch (d : D) (startKey endKey : bytes) : list bytes :=
  take deleteBatchSize (take_while (λ e : bytes * bytes, compareBytes e.1 endKey <? 0) (db_scan d startKey).1).*1.

(** The loop over the batches; [None] when the fuel is out. *)
Fixpoint delete_loop (fuel : nat) (d : D) (startKey endKey : bytes) : option (D * option goerr) :=
  match fuel with
  | O => None
  | Datatypes.S fuel =>
      let keys := delete_batch d startKey endKey in
      if decide (keys = []) then Some (d, None)
      else
        match db_write d (map WDelete keys) with
        | (d, Some _) => Some (d, Some (Errorf "failed to delete partition data batch"))
        | (d, None) => delete_loop fuel d startKey endKey
        end
  end.

(** The fuel is one more than the number of keys: every batch deletes one.  The
    compaction at the end does not change the data. *)
Definition MigrationManager_DeletePartitionData (s : Server D) (partitionID : Z) : option (Server D * option goerr) :=
  if negb (PartitionManager_HasPartition (S_pm s) partitionID) then Some (s, Some (Errorf "partition not found"))
  else
    let '(startKey, endKey) := GetPartitionRange partitionID in
    '(d, err) ← delete_loop (Datatypes.S (size (db_view (S_db s)))) (S_db s) startKey endKey;
    Some (S_set_pm s (PM_set_db (S_pm s) d), err).

(** Number of keys and total size. *)
Definition MigrationManager_GetPartitionSize (s : Server D) (partitionID : Z) : Z * Z :=
  let '(startKey, endKey) := GetPartitionRange partitionID in
  foldl (λ (acc : Z * Z) (e : bytes * bytes), (i64 (acc.1 + 1), i64 (acc.2 + (len e.1 + len e.2)))) (0, 0)
    (take_while (λ e : bytes * bytes, compareBytes e.1 endKey <? 0) (db_scan (S_db s) startKey).1).

End MigrationManager.

(** ** The stream *)

(** Only a stream that ends without an error has a last chunk, at its end. *)
Lemma send_pieces_last env i pieces sent err :
  send_pieces env i pieces = (sent, Some err) → Forall (λ c, CK_IsLast c = false) sent.
Proof.
  revert i sent. induction pieces as [|p pieces IH]; intros i sent; cbn [send_pieces];
    (destruct (xe_read env i); [intros; simplify_eq; constructor|]);
    (destruct (xe_send env i); [intros; simplify_eq; constructor|]); [done|].
  destruct (send_pieces env (i + 1) pieces) as [rest err'] eqn:Hr. intros [= <- ->].
  constructor; [done|by eapply IH].
Qed.

Lemma ExportSST_failed {D} `{SstEngine D} (s s' : Server D) env p sent err :
  Server_ExportSST s env p = (s', sent, Some err) → Forall (λ c, CK_IsLast c = false) sent.
Proof.
  unfold Server_ExportSST. intros Hx. repeat case_match; simplify_eq; try by constructor.
  by eapply send_pieces_last.
Qed.

Lemma ExportSST_data {D} `{SstEngine D} (s s' : Server D) env p sent err :
  Server_ExportSST s env p = (s', sent, err) → S_db s' = S_db s.
Proof.
  unfold Server_ExportSST, PartitionManager_SetPartitionStatus. intros Hx. repeat case_match; by simplify_eq.
Qed.

(** What the loop passes on is the whole stream when it does not fail, and
    otherwise has no last chunk. *)
Lemma stream_loop_ok env i chunks exportErr sent :
  (is_Some exportErr → Forall (λ c, CK_IsLast c = false) chunks) →
  stream_loop env i chunks exportErr = (sent, None) → exportErr = None ∧ sent `prefix_of` chunks ∧
    (∀ body c, chunks = body ++ [c] → Forall (λ c, CK_IsLast c = false) body → sent = chunks).
Proof.
  revert i sent. induction chunks as [|c chunks IH]; intros i sent Hex; cbn [stream_loop].
  { destruct exportErr; [done|]. intros [= <-]. split_and!; [done|done|]. by intros [] ?. }
  destruct (me_recv env i); [done|]. destruct (me_send env i); [done|]. destruct (CK_IsLast c) eqn:El.
  - intros [= <-]. split_and!.
    + destruct exportErr; [|done]. assert (Forall (λ c, CK_IsLast c = false) (c :: chunks)) as Hf by (apply Hex; eauto).
      apply Forall_cons in Hf as [? _]. congruence.
    + by exists chunks.
    + intros [|b body] c' Hc Hf; cbn in Hc; simplify_eq; [done|]. apply Forall_cons in Hf as [? _]. congruence.
  - destruct (stream_loop env (i + 1) chunks exportErr) as [rest err] eqn:Er. intros [= <- ->].
    apply IH in Er as (-> & Hp & Hall).
    2:{ intros He. by apply Hex, Forall_cons in He as [_ ?]. }
    split_and!; [done|by apply prefix_cons|]. intros [|b body] c' Hc Hf; cbn in Hc; simplify_eq.
    + destruct Hp as [[|? ?] Hp]; destruct rest; by simplify_eq.
    + apply Forall_cons in Hf as [_ Hf]. f_equal. by eapply Hall.
Qed.

Lemma stream_loop_failed env i chunks exportErr sent err :
  stream_loop env i chunks exportErr = (sent, Some err) → Forall (λ c, CK_IsLast c = false) sent.
Proof.
  revert i sent. induction chunks as [|c chunks IH]; intros i sent; cbn [stream_loop].
  { destruct exportErr; intros; simplify_eq; constructor. }
  destruct (me_recv env i); [intros; simplify_eq; constructor|].
  destruct (me_send env i); [intros; simplify_eq; constructor|]. destruct (CK_IsLast c) eqn:El; [done|].
  destruct (stream_loop env (i + 1) chunks exportErr) as [rest err'] eqn:Er. intros [= <- ->].
  constructor; [done|by eapply IH].
Qed.

(** A stream without a last chunk that is cut changes nothing at the target. *)
Lemma ingest_loop_cut env i st chunks err :
  Forall (λ c, CK_IsLast c = false) chunks → ∃ err', ingest_loop env i st chunks (StreamError err) = IngestFailed err'.
Proof.
  intros Hf. revert i st. induction Hf as [|c chunks Hc Hf IH]; intros i st; cbn [ingest_loop]; [eauto|].
  rewrite Hc. cbn [andb]. destruct (0 <? len (CK_Data c)); [|apply IH].
  destruct (IS_file st); [|destruct (ie_create env); [eauto|]]; (destruct (ie_write env i); [eauto|apply IH]).
Qed.

Lemma IngestSST_cut {D} `{SstEngine D} (s : Server D) env chunks err :
  Forall (λ c, CK_IsLast c = false) chunks → (Server_IngestSST s env chunks (StreamError err)).1 = s.
Proof. intros Hf. unfold Server_IngestSST. by destruct (ingest_loop_cut env 0 (mkIngestState None 0 false) chunks err Hf) as [? ->]. Qed.

Section copy.
  Context {D : Type} `{Engine D, !EngineLaws D, !SstEngine D, !SstLaws D}.
Implicit Types (src dst : Server D).

Lemma IngestSST_failed dst dst' env chunks fin err :
  Server_IngestSST dst env chunks fin = (dst', Some err) → db_view (S_db dst') = db_view (S_db dst).
Proof.
  unfold Server_IngestSST. intros Hi. repeat case_match; simplify_eq; try done.
  match goal with Hx : db_ingest _ _ = _ |- _ => by apply db_ingest_err in Hx end.
Qed.

(** Copying a partition is all or nothing, whatever fails on the way: the source
    keeps its data, and the target has its own data or, for every key of the
    partition the source has, the value of the source.  It has the latter when no
    error is returned. *)
Lemma migrate_all_or_nothing src dst env p src' dst' err :
  MigrationManager_MigratePartition src dst env p = (src', dst', err) →
  S_db src' = S_db src ∧
  (db_view (S_db dst') = batch_apply (db_view (S_db dst)) (puts (partition_entries (db_view (S_db src)) p)) ∨
   db_view (S_db dst') = db_view (S_db dst) ∧ err ≠ None).
Proof.
  unfold MigrationManager_MigratePartition. intros Hm.
  destruct (me_dialSource env); [simplify_eq; eauto|]. destruct (me_dialTarget env); [simplify_eq; eauto|].
  destruct (me_startExport env); [simplify_eq; eauto|].
  destruct (Server_ExportSST src (me_export env) p) as [[src1 chunks] exportErr] eqn:Ex.
  pose proof (ExportSST_data _ _ _ _ _ _ Ex) as Hdata.
  destruct (me_startIngest env); [simplify_eq; eauto|].
  destruct (stream_loop env 0 chunks exportErr) as [sent [serr|]] eqn:El.
  { simplify_eq. split; [done|]. right. rewrite IngestSST_cut by (by eapply stream_loop_failed). done. }
  apply stream_loop_ok in El as (-> & _ & Hall); [|intros [e ->]; by eapply ExportSST_failed].
  apply ExportSST_ok in Ex as (_ & _ & Hsent). cbv zeta in Hsent.
  assert (sent = chunks) as ->.
  { case_decide; [eapply (Hall []); [exact Hsent|constructor]|].
    eapply Hall; [exact Hsent|]. by apply Forall_fmap, Forall_true. }
  destruct (Server_IngestSST dst (me_ingest env) chunks StreamEOF) as [dst1 [ierr|]] eqn:Ei.
  { simplify_eq. apply IngestSST_failed in Ei. eauto. }
  rewrite Hsent in Ei. apply IngestSST_ok in Ei; [|apply partition_entries_NoDup].
  destruct (me_close env); simplify_eq; eauto.
Qed.
End copy.

(** ** Deletion *)

Section deletion.
  Context {D : Type} `{Engine D, !EngineLaws D}.

Lemma delete_batch_elem (d : D) p key :
  key ∈ delete_batch d (GetPartitionRange p).1 (GetPartitionRange p).2 →
  in_partition_range p key ∧ is_Some (db_view d !! key).
Proof.
  unfold delete_batch, in_partition_range. destruct (GetPartitionRange p) as [st en]. cbn [fst snd]. intros Hk.
  apply (subseteq_take (A := bytes)) in Hk. apply list_elem_of_fmap in Hk as ([k v] & -> & [Hin Hlt]%elem_of_take_while).
  cbn [fst] in *. apply Z.ltb_lt in Hlt. assert ((k, v) ∈ sorted_from (db_view d) st) as [Hv Hle]%elem_of_sorted_from.
  { destruct (db_scan d st) as [l [err|]] eqn:Es; cbn [fst] in Hin.
    - apply db_scan_err in Es as [t ->]. apply elem_of_app. by left.
    - by apply db_scan_ok in Es as <-. }
  by rewrite Hv.
Qed.

(** On a healthy database a batch is empty only when no key is left. *)
Lemma delete_batch_empty (d : D) p :
  db_healthy d → delete_batch d (GetPartitionRange p).1 (GetPartitionRange p).2 = [] →
  ∀ key, in_partition_range p key → db_view d !! key = None.
Proof.
  unfold delete_batch, in_partition_range. destruct (GetPartitionRange p) as [st en]. cbn [fst snd]. intros Hh Hb key [Hle Hlt].
  destruct (db_view d !! key) as [v|] eqn:Hv; [|done]. exfalso.
  destruct (db_healthy_scan d st Hh) as [l Hl]. rewrite Hl in Hb. apply db_scan_ok in Hl as ->. cbn [fst] in Hb.
  assert ((key, v) ∈ take_while (λ e : bytes * bytes, compareBytes e.1 en <? 0) (sorted_from (db_view d) st)) as Hin.
  { apply (take_while_before entry_le); [apply sorted_from_sorted|by apply elem_of_sorted_from|by apply Z.ltb_lt|].
    intros [x w] _ Hxk. cbn [fst]. apply Z.ltb_lt, (proj1 (compareBytes_spec x en)).
    apply (proj1 (compareBytes_spec _ en)) in Hlt. eapply bytes_le_lt_trans; [exact Hxk|done]. }
  apply take_nil_inv in Hb as [Hb|Hb]; [done|].
  apply fmap_nil_inv in Hb. rewrite Hb in Hin. by apply elem_of_nil in Hin.
Qed.

(** The loop with enough fuel. *)
Lemma delete_loop_ends fuel (d : D) p :
  (size (db_view d) < fuel)%nat →
  ∃ d' err, delete_loop fuel d (GetPartitionRange p).1 (GetPartitionRange p).2 = Some (d', err) ∧
    db_view d' ⊆ db_view d ∧
    (∀ key, ¬ in_partition_range p key → db_view d' !! key = db_view d !! key) ∧
    (db_healthy d → err = None ∧ ∀ key, in_partition_range p key → db_view d' !! key = None).
Proof.
  revert d. induction fuel as [|fuel IH]; intros d Hsize; [lia|]. cbn [delete_loop].
  destruct (decide (delete_batch d _ _ = [])) as [Hb|Hb].
  { exists d, None. split_and!; [done..|]. intros Hh. split; [done|]. by apply delete_batch_empty. }
  set (keys := delete_batch d _ _) in *.
  destruct (db_write d (map WDelete keys)) as [d1 [e|]] eqn:Ew.
  { pose proof (db_write_err _ _ _ _ Ew) as Hv. eexists d1, _. rewrite Hv. split_and!; [done..|].
    intros Hh. destruct (db_healthy_write d (map WDelete keys) Hh) as (d2 & E2 & _). congruence. }
  pose proof (db_write_ok _ _ _ Ew) as Hv.
  assert (∀ key, db_view d1 !! key = if decide (key ∈ keys) then None else db_view d !! key) as Hlk
    by (intros; by rewrite Hv, batch_apply_deletes).
  assert (db_view d1 ⊆ db_view d) as Hsub.
  { apply map_subseteq_spec. intros key v. rewrite Hlk. by case_decide. }
  assert (size (db_view d1) < size (db_view d))%nat as Hlt.
  { assert (∃ k, k ∈ keys) as [k Hin] by (destruct keys as [|k ?]; [done|exists k; by left]).
    assert (k ∈ delete_batch d (GetPartitionRange p).1 (GetPartitionRange p).2) as Hk by done.
    apply delete_batch_elem in Hk as [_ [v Hkv]].
    apply map_subset_size. split; [done|]. intros Hs. apply (lookup_weaken _ (db_view d1)) in Hkv; [|done].
    by rewrite Hlk, decide_True in Hkv. }
  destruct (IH d1) as (d' & err & Hl & Hsub' & Hout & Hall); [lia|]. exists d', err. split_and!; [done|by etrans| |].
  - intros key Hk. rewrite Hout, Hlk, decide_False; [done| |done]. intros [? _]%delete_batch_elem. done.
  - intros Hh. apply Hall. destruct (db_healthy_write d (map WDelete keys) Hh) as (d2 & E2 & Hh2).
    rewrite Ew in E2. by simplify_eq.
Qed.

(** Deleting a partition ends, also when reads and writes fail; it changes no key
    outside of the partition's range and no value; and when nothing fails no key
    of the partition is left. *)
Lemma DeletePartitionData_exact (s : Server D) p :
  is_u32 p → p ≠ 2 ^ 32 - 1 → PartitionManager_HasPartition (S_pm s) p = true →
  ∃ s' err, MigrationManager_DeletePartitionData s p = Some (s', err) ∧
    db_view (S_db s') ⊆ db_view (S_db s) ∧
    (∀ q k, is_u32 q → q ≠ p →
      db_view (S_db s') !! MakePartitionKey q k = db_view (S_db s) !! MakePartitionKey q k) ∧
    (db_healthy (S_db s) → err = None ∧ ∀ k, db_view (S_db s') !! MakePartitionKey p k = None).
Proof.
  intros Hp Hmax Hhas. unfold MigrationManager_DeletePartitionData. rewrite Hhas. cbn [negb].
  destruct (delete_loop_ends (Datatypes.S (size (db_view (S_db s)))) (S_db s) p) as (d' & err & Hl & Hsub & Hout & Hall);
    [lia|]. destruct (GetPartitionRange p) as [st en]. cbn [fst snd] in Hl. rewrite Hl.
  eexists _, err. split; [reflexivity|]. change (S_db (S_set_pm s (PM_set_db (S_pm s) d'))) with d'.
  assert (∀ q k, 6 ≤ len (MakePartitionKey q k)) as Hlen.
  { intros q k. unfold MakePartitionKey. rewrite !len_app, len_be32. change (len PartitionKeyPrefix) with 2.
    pose proof (len_nonneg k). lia. }
  split_and!; [done| |].
  - intros q k Hq Hne. apply Hout. intros [k' Hk]%partition_range_exact; [|done..|apply Hlen].
    apply (f_equal ParsePartitionKey) in Hk. rewrite !ParsePartitionKey_MakePartitionKey in Hk by done. by simplify_eq.
  - intros Hh. destruct (Hall Hh) as [-> Hgone]. split; [done|]. intros k. apply Hgone.
    apply partition_range_exact; [done..|apply Hlen|eauto].
Qed.
End deletion.

(** The loop does not ask the iterator for its error: when reads fail it deletes
    nothing and reports success. *)
Lemma DeletePartitionData_unread (s : Server MemDB) p :
  PartitionManager_HasPartition (S_pm s) p = true → mem_rfault (S_db s) = true →
  ∃ s', MigrationManager_DeletePartitionData s p = Some (s', None) ∧ db_view (S_db s') = db_view (S_db s).
Proof.
  intros Hhas Hf. unfold MigrationManager_DeletePartitionData. rewrite Hhas. cbn [negb].
  destruct (GetPartitionRange p) as [st en]. cbn [delete_loop].
  assert (delete_batch (S_db s) st en = []) as -> by (unfold delete_batch; cbn; by rewrite Hf).
  by eexists.
Qed.

(** ** Examples *)

Definition demo_migrate_env (close : option goerr) : MigrateEnv :=
  mkMigrateEnv None None None None (λ _, None) (λ _, None) close demo_export_env demo_ingest_env.

Example demo_migrate :
  let '(_, dst, err) := MigrationManager_MigratePartition demo_source demo_target (demo_migrate_env None) 5 in
  err = None ∧ db_view (S_db dst) !! MakePartitionKey 5 (str_bytes "b") = Some (str_bytes "2") ∧
  db_view (S_db dst) !! MakePartitionKey 6 (str_bytes "a") = None.
Proof. vm_compute. done. Qed.

Example demo_delete :
  match MigrationManager_DeletePartitionData demo_source 5 with
  | Some (s, err) => err = None ∧ db_view (S_db s) !! MakePartitionKey 5 (str_bytes "a") = None ∧
      db_view (S_db s) !! MakePartitionKey 6 (str_bytes "a") = Some (str_bytes "3")
  | None => False
  end.
Proof. vm_compute. done. Qed.

Example demo_size : MigrationManager_GetPartitionSize demo_source 5 = (2, 16).
Proof. vm_compute. done. Qed.
