(* ===== verification/HashRing.v ===== *)
(** * The consistent-hash ring

    [ConsistentHash] of [src/pkg/metadata/consistent_hash.go]: every storage
    node owns [virtualNodes] points of a ring of 32-bit hashes, a partition
    belongs to the first point at or after its own hash, and its replica is the
    next point of another node.

    [clockwise h ring] is the reference view: the points of the ring in the
    order they are met from [h].  The operations are shown to read it, and the
    movement of partitions when a node joins or leaves follows from the way it
    commutes with inserting and removing points. *)

From S2P Require Import Prelude Crc32.

(** ** sort.Search *)

(** [for i < j { h := int(uint(i+j) >> 1); if !f(h) { i = h + 1 } else { j = h } }];
    [j - i] decreases at every turn, so [n] turns are enough. *)
Fixpoint search_loop (fuel : nat) (f : Z → bool) (i j : Z) : Z :=
  match fuel with
  | O => i
  | S m =>
      if i <? j then
        let h := (i + j) / 2 in
        if negb (f h) then search_loop m f (h + 1) j else search_loop m f i h
      else i
  end.

Definition sort_Search (n : Z) (f : Z → bool) : Z := search_loop (Z.to_nat n) f 0 n.

Definition search_post (f : Z → bool) (n r : Z) : Prop :=
  0 ≤ r ≤ n ∧ (∀ k, 0 ≤ k < r → f k = false) ∧ (r < n → f r = true).

Lemma search_loop_spec fuel f n i j :
  (∀ a b, 0 ≤ a ≤ b → b < n → f a = true → f b = true) →
  0 ≤ i ≤ j → j ≤ n → j - i ≤ Z.of_nat fuel →
  (∀ k, 0 ≤ k < i → f k = false) → (j < n → f j = true) →
  search_post f n (search_loop fuel f i j).
Proof.
  intros Hm. revert i j. induction fuel as [|fuel IH]; intros i j Hij Hj Hf Hlo Hhi; simpl.
  { assert (i = j) as -> by lia. repeat split; auto; lia. }
  destruct (Z.ltb_spec i j); [|assert (i = j) as -> by lia; repeat split; auto; lia].
  assert (i ≤ (i + j) / 2 < j) as Hh.
  { split; [apply Z.div_le_lower_bound|apply Z.div_lt_upper_bound]; lia. }
  set (h := (i + j) / 2) in *. destruct (f h) eqn:E; simpl.
  - apply IH; try lia; auto.
  - apply IH; try lia; auto. intros k Hk. destruct (f k) eqn:Ek; [|done].
    rewrite (Hm k h) in E; [done|lia..|done].
Qed.

(** On a monotone predicate the search returns the first index where it holds,
    or [n]. *)
Lemma sort_Search_spec n f :
  0 ≤ n → (∀ a b, 0 ≤ a ≤ b → b < n → f a = true → f b = true) →
  search_post f n (sort_Search n f).
Proof. intros. apply search_loop_spec; auto; lia. Qed.

(** ** State and operations *)

Definition DefaultVirtualNodes : Z := 150.

Record ConsistentHash := mkConsistentHash {
  CH_virtualNodes : Z;
  CH_ring : list Z;            (** sorted hash values *)
  CH_nodeMap : gmap Z string;  (** hash -> node address *)
  CH_nodes : gset string       (** the physical nodes *)
}.

Definition NewConsistentHash (virtualNodes : Z) : ConsistentHash :=
  let virtualNodes := if virtualNodes <=? 0 then DefaultVirtualNodes else virtualNodes in
  mkConsistentHash virtualNodes [] ∅ ∅.

Definition ring_hash (key : bytes) : Z := ChecksumIEEE key.

(** [fmt.Sprintf("%s#%d", nodeAddr, i)] and [fmt.Sprintf("partition-%d", id)]. *)
Definition vnode_key (nodeAddr : string) (i : Z) : bytes :=
  str_bytes nodeAddr ++ str_bytes "#" ++ FormatUint i.
Definition partition_key (partitionID : Z) : bytes :=
  str_bytes "partition-" ++ FormatUint partitionID.

(** The loop that adds the virtual nodes. *)
Fixpoint add_vnodes (nodeAddr : string) (ivs : list Z) (ring : list Z) (nodeMap : gmap Z string) :
    list Z * gmap Z string :=
  match ivs with
  | [] => (ring, nodeMap)
  | i :: ivs =>
      let hash := ring_hash (vnode_key nodeAddr i) in
      add_vnodes nodeAddr ivs (ring ++ [hash]) (<[hash := nodeAddr]> nodeMap)
  end.

Definition ConsistentHash_AddNode (ch : ConsistentHash) (nodeAddr : string) : ConsistentHash :=
  if decide (nodeAddr ∈ CH_nodes ch) then ch else
  let '(ring, nodeMap) :=
    add_vnodes nodeAddr (seqZ 0 (CH_virtualNodes ch)) (CH_ring ch) (CH_nodeMap ch) in
  mkConsistentHash (CH_virtualNodes ch) (merge_sort Z.le ring) nodeMap ({[nodeAddr]} ∪ CH_nodes ch).

(** [nodeMap[hash]]: the empty string when the key is missing. *)
Definition owner (nodeMap : gmap Z string) (hash : Z) : string := default ""%string (nodeMap !! hash).

(** The loop of [RemoveNode]: [nodeMap] shrinks while the ring is scanned. *)
Fixpoint remove_vnodes (nodeAddr : string) (ring : list Z) (nodeMap : gmap Z string) :
    list Z * gmap Z string :=
  match ring with
  | [] => ([], nodeMap)
  | hash :: ring =>
      if decide (owner nodeMap hash ≠ nodeAddr) then
        let '(newRing, nodeMap) := remove_vnodes nodeAddr ring nodeMap in (hash :: newRing, nodeMap)
      else remove_vnodes nodeAddr ring (delete hash nodeMap)
  end.

(** [make([]uint32, 0, len(ch.ring)-ch.virtualNodes)] panics when the ring has
    fewer than [virtualNodes] points. *)
Definition ConsistentHash_RemoveNode (ch : ConsistentHash) (nodeAddr : string) :
    outcome ConsistentHash :=
  if decide (nodeAddr ∉ CH_nodes ch) then Ret ch else
  if len (CH_ring ch) - CH_virtualNodes ch <? 0 then Panic else
  let '(newRing, nodeMap) := remove_vnodes nodeAddr (CH_ring ch) (CH_nodeMap ch) in
  Ret (mkConsistentHash (CH_virtualNodes ch) newRing nodeMap (CH_nodes ch ∖ {[nodeAddr]})).

(** [ch.ring[i]]; [search_bounds] shows that the index is in range. *)
Definition ring_at (ch : ConsistentHash) (i : Z) : Z := default 0 (CH_ring ch !! Z.to_nat i).

Definition ConsistentHash_search (ch : ConsistentHash) (hash : Z) : Z :=
  let idx := sort_Search (len (CH_ring ch)) (λ i, hash <=? ring_at ch i) in
  if len (CH_ring ch) <=? idx then 0 else idx.

Definition ConsistentHash_GetNode (ch : ConsistentHash) (key : bytes) : string :=
  if len (CH_ring ch) =? 0 then ""%string else
  owner (CH_nodeMap ch) (ring_at ch (ConsistentHash_search ch (ring_hash key))).

(** [for i := 1; i < len(ch.ring); i++] of [GetNodes]. *)
Fixpoint replica_loop (ch : ConsistentHash) (primary : string) (idx : Z) (ivs : list Z) : string :=
  match ivs with
  | [] => ""%string
  | i :: ivs =>
      let nextIdx := (idx + i) mod len (CH_ring ch) in
      let nextNode := owner (CH_nodeMap ch) (ring_at ch nextIdx) in
      if decide (nextNode ≠ primary) then nextNode else replica_loop ch primary idx ivs
  end.

Definition ConsistentHash_GetNodes (ch : ConsistentHash) (partitionID : Z) : string * string :=
  if len (CH_ring ch) =? 0 then (""%string, ""%string) else
  let idx := ConsistentHash_search ch (ring_hash (partition_key partitionID)) in
  let primary := owner (CH_nodeMap ch) (ring_at ch idx) in
  (primary, replica_loop ch primary idx (seqZ 1 (len (CH_ring ch) - 1))).

(** Go's order of strings. *)
Definition str_le (a b : string) : Prop := bytes_le (str_bytes a) (str_bytes b).
#[global] Instance str_le_dec : RelDecision str_le.
Proof. intros a b. unfold str_le. apply _. Defined.

Definition ConsistentHash_GetAllNodes (ch : ConsistentHash) : list string :=
  merge_sort str_le (elements (CH_nodes ch)).

Definition ConsistentHash_NodeCount (ch : ConsistentHash) : Z := Z.of_nat (size (CH_nodes ch)).

Definition count_primary (ch : ConsistentHash) (distribution : gmap string Z) (partitionID : Z) :
    gmap string Z :=
  let primary := (ConsistentHash_GetNodes ch partitionID).1 in
  if decide (primary ≠ ""%string)
  then <[primary := default 0 (distribution !! primary) + 1]> distribution
  else distribution.

Definition ConsistentHash_GetPartitionDistribution (ch : ConsistentHash) (totalPartitions : Z) :
    gmap string Z :=
  foldl (count_primary ch) (set_to_map (λ node, (node, 0)) (CH_nodes ch)) (seqZ 0 totalPartitions).

(** ** The clockwise order *)

Definition clockwise (h : Z) (ring : list Z) : list Z :=
  filter (λ x, h ≤ x) ring ++ filter (λ x, x < h) ring.

(** The distance from [h] to a point, in steps of the ring of [2^32] hashes. *)
Definition cw_dist (h x : Z) : Z := (x - h) mod 2 ^ 32.

Lemma cw_dist_ge h x : is_u32 h → is_u32 x → h ≤ x → cw_dist h x = x - h.
Proof. unfold cw_dist, is_u32. intros. apply Z.mod_small. lia. Qed.
Lemma cw_dist_lt h x : is_u32 h → is_u32 x → x < h → cw_dist h x = x - h + 2 ^ 32.
Proof.
  unfold cw_dist, is_u32. intros. rewrite <- (Z_mod_plus_full _ 1).
  replace (x - h + 1 * 2 ^ 32) with (x - h + 2 ^ 32) by lia. apply Z.mod_small. lia.
Qed.

Lemma cw_dist_inj h x y : is_u32 h → is_u32 x → is_u32 y → cw_dist h x = cw_dist h y → x = y.
Proof.
  intros Hh Hx Hy. unfold is_u32 in *.
  destruct (Z.le_gt_cases h x), (Z.le_gt_cases h y);
    rewrite ?(cw_dist_ge h x), ?(cw_dist_lt h x), ?(cw_dist_ge h y), ?(cw_dist_lt h y)
      by (done || lia); lia.
Qed.

Lemma elem_of_clockwise h ring x : x ∈ clockwise h ring ↔ x ∈ ring.
Proof.
  unfold clockwise. rewrite elem_of_app, !list_elem_of_filter.
  destruct (Z.le_gt_cases h x); naive_solver lia.
Qed.

Lemma clockwise_filter (P : Z → Prop) `{∀ x, Decision (P x)} h ring :
  filter P (clockwise h ring) = clockwise h (filter P ring).
Proof.
  unfold clockwise. rewrite filter_app. f_equal; rewrite !list_filter_filter;
    apply list_filter_iff; naive_solver.
Qed.

(** The first point met is the nearest one clockwise. *)
Lemma clockwise_head h ring x :
  is_u32 h → Forall is_u32 ring → StronglySorted Z.le ring → head (clockwise h ring) = Some x →
  x ∈ ring ∧ ∀ y, y ∈ ring → cw_dist h x ≤ cw_dist h y.
Proof.
  intros Hh Hu Hs Hx. assert (x ∈ ring) as Hin.
  { apply (elem_of_clockwise h). destruct (clockwise h ring); simplify_eq/=. left. }
  split; [done|]. intros y Hy.
  rewrite Forall_forall in Hu. pose proof (Hu x Hin) as Hux. pose proof (Hu y Hy) as Huy.
  assert (∀ (P : Z → Prop) `{∀ z, Decision (P z)} z l,
    filter P ring = z :: l → P y → z ≤ y) as Hmin.
  { intros P HP z l Hf Py. assert (StronglySorted Z.le (filter P ring)) as Hsf.
    { by apply StronglySorted_filter. }
    rewrite Hf in Hsf. apply StronglySorted_inv in Hsf as [_ Hz]. rewrite Forall_forall in Hz.
    assert (y ∈ z :: l) as Hyl by (rewrite <- Hf; by apply list_elem_of_filter).
    apply elem_of_cons in Hyl as [->|Hyl]; [lia|]. by apply Hz. }
  unfold clockwise in Hx. destruct (filter (λ z, h ≤ z) ring) as [|z l] eqn:Ef; simplify_eq/=.
  - destruct (filter (λ z, z < h) ring) as [|z l] eqn:Eg; simplify_eq/=.
    assert (∀ z, z ∈ ring → z < h) as Hlt.
    { intros z Hz. destruct (Z.le_gt_cases h z); [|lia].
      by destruct (filter_nil_not_elem_of _ _ z Ef). }
    rewrite !cw_dist_lt by auto. pose proof (Hmin (λ z, z < h) _ _ _ Eg (Hlt y Hy)). lia.
  - assert (h ≤ x) by (assert (x ∈ filter (λ z, h ≤ z) ring) as Hxf by (rewrite Ef; left);
      by apply list_elem_of_filter in Hxf as [? _]).
    rewrite (cw_dist_ge h x) by done. destruct (Z.le_gt_cases h y).
    + rewrite cw_dist_ge by done. pose proof (Hmin (λ z, h ≤ z) _ _ _ Ef ltac:(done)). lia.
    + rewrite cw_dist_lt by done. unfold is_u32 in *. lia.
Qed.

(** ** search *)

Lemma sorted_lookup_le (l : list Z) (i j : nat) x y :
  StronglySorted Z.le l → l !! i = Some x → l !! j = Some y → (i ≤ j)%nat → x ≤ y.
Proof.
  intros Hs. revert i j. induction Hs as [|z l Hs IH Hz]; intros i j Hi Hj Hij; [done|].
  destruct i as [|i], j as [|j]; simplify_eq/=; [lia| |lia|].
  - rewrite Forall_forall in Hz. apply Hz. by eapply list_elem_of_lookup_2.
  - apply (IH i j); auto; lia.
Qed.

Lemma ring_at_lookup ch (i : nat) x : CH_ring ch !! i = Some x → ring_at ch (Z.of_nat i) = x.
Proof. unfold ring_at. rewrite Nat2Z.id. by intros ->. Qed.

Lemma ring_at_lookup_Z ch i :
  0 ≤ i < len (CH_ring ch) → CH_ring ch !! Z.to_nat i = Some (ring_at ch i).
Proof.
  unfold ring_at, len. intros Hi. destruct (CH_ring ch !! Z.to_nat i) eqn:E; [done|].
  apply lookup_ge_None in E. lia.
Qed.

Lemma search_split ch h r :
  StronglySorted Z.le (CH_ring ch) →
  search_post (λ i, h <=? ring_at ch i) (len (CH_ring ch)) r →
  drop (Z.to_nat r) (CH_ring ch) = filter (λ x, h ≤ x) (CH_ring ch) ∧
  take (Z.to_nat r) (CH_ring ch) = filter (λ x, x < h) (CH_ring ch).
Proof.
  intros Hs [Hr [Hlo Hhi]].
  assert (Forall (λ x, x < h) (take (Z.to_nat r) (CH_ring ch))) as Ht.
  { apply Forall_lookup. intros i x Hi.
    assert (i < Z.to_nat r)%nat as Hlt.
    { apply lookup_lt_Some in Hi. rewrite length_take in Hi. lia. }
    rewrite lookup_take_lt in Hi by done. apply ring_at_lookup in Hi as <-.
    specialize (Hlo (Z.of_nat i) ltac:(lia)). by apply Z.leb_gt in Hlo. }
  assert (Forall (λ x, h ≤ x) (drop (Z.to_nat r) (CH_ring ch))) as Hd.
  { apply Forall_lookup. intros i x Hi. rewrite lookup_drop in Hi.
    pose proof (lookup_lt_Some _ _ _ Hi) as Hlt. unfold len in *.
    specialize (Hhi ltac:(lia)). apply Z.leb_le in Hhi.
    pose proof (ring_at_lookup_Z ch r ltac:(unfold len; lia)) as Hx.
    pose proof (sorted_lookup_le _ _ _ _ _ Hs Hx Hi ltac:(lia)). lia. }
  rewrite <- (take_drop (Z.to_nat r) (CH_ring ch)) at 2 4.
  rewrite !filter_app. split.
  - rewrite (list_filter_none _ (take _ _)), (list_filter_all _ (drop _ _)); [done|done|].
    eapply Forall_impl; [exact Ht|]. simpl. lia.
  - rewrite (list_filter_all _ (take _ _)), (list_filter_none _ (drop _ _)); [by rewrite app_nil_r| |done].
    eapply Forall_impl; [exact Hd|]. simpl. lia.
Qed.

Lemma search_bounds ch h :
  CH_ring ch ≠ [] → StronglySorted Z.le (CH_ring ch) →
  0 ≤ ConsistentHash_search ch h < len (CH_ring ch) ∧
  rotate (Z.to_nat (ConsistentHash_search ch h)) (CH_ring ch) = clockwise h (CH_ring ch).
Proof.
  intros Hne Hs.
  assert (0 < len (CH_ring ch)) as Hpos by (destruct (CH_ring ch); [done|rewrite len_cons; pose proof (len_nonneg l); lia]).
  assert (search_post (λ i, h <=? ring_at ch i) (len (CH_ring ch))
    (sort_Search (len (CH_ring ch)) (λ i, h <=? ring_at ch i))) as Hp.
  { apply sort_Search_spec; [lia|]. intros a b Ha Hb Hle. apply Z.leb_le in Hle. apply Z.leb_le.
    pose proof (ring_at_lookup_Z ch a ltac:(lia)). pose proof (ring_at_lookup_Z ch b ltac:(lia)).
    enough (ring_at ch a ≤ ring_at ch b) by lia. eapply sorted_lookup_le; eauto. lia. }
  destruct (search_split _ _ _ Hs Hp) as [Hd Ht]. destruct Hp as [Hr _].
  unfold ConsistentHash_search. set (r := sort_Search _ _) in *. unfold rotate, clockwise.
  rewrite <- Hd, <- Ht. unfold len in *. destruct (Z.leb_spec (Z.of_nat (length (CH_ring ch))) r).
  - split; [lia|]. rewrite Nat.mod_0_l by lia.
    rewrite drop_0, take_0, app_nil_r. by rewrite drop_ge, take_ge by lia.
  - split; [lia|]. by rewrite Nat.mod_small by lia.
Qed.

(** ** What the lookups return *)

(** The owners met clockwise from the hash of a partition. *)
Definition owners_from (ch : ConsistentHash) (h : Z) : list string :=
  owner (CH_nodeMap ch) <$> clockwise h (CH_ring ch).

(** Reference: the first owner, and the first other owner. *)
Definition pick_nodes (owners : list string) : string * string :=
  let primary := default ""%string (head owners) in
  (primary, default ""%string (head (filter (λ a, a ≠ primary) owners))).

Lemma replica_loop_filter ch primary idx ivs :
  replica_loop ch primary idx ivs =
  default ""%string (head (filter (λ a, a ≠ primary)
    ((λ i, owner (CH_nodeMap ch) (ring_at ch ((idx + i) mod len (CH_ring ch)))) <$> ivs))).
Proof.
  induction ivs as [|i ivs IH]; [done|]. cbn [replica_loop]. rewrite fmap_cons, filter_cons, IH.
  by case_decide.
Qed.

Lemma owners_tail ch h :
  CH_ring ch ≠ [] → StronglySorted Z.le (CH_ring ch) →
  let idx := ConsistentHash_search ch h in
  owners_from ch h = owner (CH_nodeMap ch) (ring_at ch idx) ::
    ((λ i, owner (CH_nodeMap ch) (ring_at ch ((idx + i) mod len (CH_ring ch))))
       <$> seqZ 1 (len (CH_ring ch) - 1)).
Proof.
  intros Hne Hs idx. destruct (search_bounds ch h Hne Hs) as [Hb Hrot]. fold idx in Hb, Hrot.
  transitivity ((λ i, owner (CH_nodeMap ch) (ring_at ch ((idx + i) mod len (CH_ring ch))))
    <$> seqZ 0 (len (CH_ring ch))).
  - unfold owners_from. rewrite <- Hrot. apply list_eq. intros i. rewrite !list_lookup_fmap.
    destruct (decide (i < length (CH_ring ch))%nat).
    + rewrite lookup_seqZ_lt, lookup_rotate_r by (unfold len; lia). cbn [fmap option_fmap option_map].
      unfold rotate_nat_add. fold (len (CH_ring ch)). rewrite Z2Nat.id by lia.
      rewrite (ring_at_lookup_Z ch), Z.add_0_l; [done|]. apply Z.mod_pos_bound. lia.
    + rewrite lookup_seqZ_ge, (proj2 (lookup_ge_None _ _)) by (rewrite ?length_rotate; unfold len in *; lia).
      done.
  - rewrite seqZ_cons by lia. rewrite fmap_cons, Z.add_0_r, Z.mod_small by lia.
    by rewrite <- Z.sub_1_r.
Qed.

Lemma GetNodes_pick ch p :
  StronglySorted Z.le (CH_ring ch) →
  ConsistentHash_GetNodes ch p = pick_nodes (owners_from ch (ring_hash (partition_key p))).
Proof.
  intros Hs. unfold ConsistentHash_GetNodes. destruct (decide (CH_ring ch = [])) as [E|Hne].
  { unfold owners_from. by rewrite E. }
  rewrite (proj2 (Z.eqb_neq _ _)) by (destruct (CH_ring ch); [done|unfold len; simpl; lia]).
  rewrite owners_tail by done. unfold pick_nodes. cbn [head default].
  rewrite replica_loop_filter, filter_cons_False by tauto. done.
Qed.

Lemma GetNode_pick ch key :
  StronglySorted Z.le (CH_ring ch) →
  ConsistentHash_GetNode ch key = default ""%string (head (owners_from ch (ring_hash key))).
Proof.
  intros Hs. unfold ConsistentHash_GetNode. destruct (decide (CH_ring ch = [])) as [E|Hne].
  { unfold owners_from. by rewrite E. }
  rewrite (proj2 (Z.eqb_neq _ _)) by (destruct (CH_ring ch); [done|unfold len; simpl; lia]).
  by rewrite owners_tail by done.
Qed.

(** ** The ring holds exactly the virtual nodes of its members *)

Definition vnode_hashes (vn : Z) (a : string) : list Z :=
  (λ i, ring_hash (vnode_key a i)) <$> seqZ 0 vn.

Record ring_exact (ch : ConsistentHash) : Prop := {
  re_vn : 0 < CH_virtualNodes ch;
  re_sorted : StronglySorted Z.le (CH_ring ch);
  re_nodup : NoDup (CH_ring ch);
  re_ring : ∀ x, x ∈ CH_ring ch ↔ ∃ a, a ∈ CH_nodes ch ∧ x ∈ vnode_hashes (CH_virtualNodes ch) a;
  re_map : ∀ a x, a ∈ CH_nodes ch → x ∈ vnode_hashes (CH_virtualNodes ch) a →
    CH_nodeMap ch !! x = Some a;
  re_vnodes : ∀ a, a ∈ CH_nodes ch → NoDup (vnode_hashes (CH_virtualNodes ch) a)
}.

Lemma vnode_hash_u32 vn a x : x ∈ vnode_hashes vn a → is_u32 x.
Proof. intros (i & -> & _)%list_elem_of_fmap. apply ChecksumIEEE_u32. Qed.

Lemma add_vnodes_spec a ivs ring m :
  let hs := (λ i, ring_hash (vnode_key a i)) <$> ivs in
  (add_vnodes a ivs ring m).1 = ring ++ hs ∧
  ∀ x, (add_vnodes a ivs ring m).2 !! x = if decide (x ∈ hs) then Some a else m !! x.
Proof.
  revert ring m. induction ivs as [|i ivs IH]; intros ring m hs.
  { split; [by rewrite app_nil_r|]. intros x. by rewrite decide_False by set_solver. }
  cbn [add_vnodes]. destruct (IH (ring ++ [ring_hash (vnode_key a i)])
    (<[ring_hash (vnode_key a i) := a]> m)) as [H1 H2]. split.
  - rewrite H1, <- (assoc_L (++)). done.
  - intros x. rewrite H2. unfold hs. rewrite fmap_cons.
    destruct (decide (x = ring_hash (vnode_key a i))) as [->|Hx].
    + rewrite (decide_True _ _ (list_elem_of_here _ _)), lookup_insert_eq. by case_decide.
    + rewrite lookup_insert_ne by done. do 2 case_decide; set_solver.
Qed.

Lemma AddNode_new ch a :
  a ∉ CH_nodes ch →
  let hs := vnode_hashes (CH_virtualNodes ch) a in
  let ch' := ConsistentHash_AddNode ch a in
  CH_virtualNodes ch' = CH_virtualNodes ch ∧
  CH_ring ch' ≡ₚ CH_ring ch ++ hs ∧ StronglySorted Z.le (CH_ring ch') ∧
  (∀ x, CH_nodeMap ch' !! x = if decide (x ∈ hs) then Some a else CH_nodeMap ch !! x) ∧
  CH_nodes ch' = {[a]} ∪ CH_nodes ch.
Proof.
  intros Ha hs. unfold ConsistentHash_AddNode. rewrite decide_False by done.
  destruct (add_vnodes_spec a (seqZ 0 (CH_virtualNodes ch)) (CH_ring ch) (CH_nodeMap ch)) as [H1 H2].
  destruct (add_vnodes _ _ _ _) as [r m]. simpl in *. subst r.
  repeat split; auto; [apply merge_sort_Permutation|].
  apply Sorted_StronglySorted; [intros ????; lia|]. apply Sorted_merge_sort, _.
Qed.

Lemma NewConsistentHash_exact vn : ring_exact (NewConsistentHash vn).
Proof.
  split; simpl; try set_solver; try constructor.
  unfold DefaultVirtualNodes. destruct (Z.leb_spec vn 0); lia.
Qed.

(** A node whose virtual nodes hit no point of the ring joins exactly. *)
Lemma AddNode_exact ch a :
  ring_exact ch → NoDup (vnode_hashes (CH_virtualNodes ch) a) →
  (∀ x, a ∉ CH_nodes ch → x ∈ vnode_hashes (CH_virtualNodes ch) a → x ∉ CH_ring ch) →
  ring_exact (ConsistentHash_AddNode ch a).
Proof.
  intros Hx Hnd Hfresh. destruct (decide (a ∈ CH_nodes ch)) as [Ha|Ha].
  { unfold ConsistentHash_AddNode. by rewrite decide_True. }
  destruct (AddNode_new ch a Ha) as (Hv & Hp & Hs & Hm & Hn).
  set (ch' := ConsistentHash_AddNode ch a) in *. split; rewrite ?Hv.
  - apply Hx.
  - done.
  - rewrite Hp. apply NoDup_app. split_and!; [apply Hx| |done]. intros x Hr Hh. by apply (Hfresh x).
  - intros x. rewrite Hp, Hn, elem_of_app, (re_ring _ Hx). set_solver.
  - intros b x Hb Hxb. rewrite Hm. rewrite Hn in Hb. case_decide as Hd.
    + f_equal. apply elem_of_union in Hb as [->%elem_of_singleton|Hb]; [done|].
      destruct (Hfresh x Ha Hd). apply (re_ring _ Hx). eauto.
    + apply elem_of_union in Hb as [->%elem_of_singleton|Hb]; [done|]. by apply (re_map _ Hx).
  - intros b. rewrite Hn. intros [->%elem_of_singleton|Hb]%elem_of_union; [done|]. by apply (re_vnodes _ Hx).
Qed.

Lemma remove_vnodes_spec a ring m :
  NoDup ring →
  (remove_vnodes a ring m).1 = filter (λ x, owner m x ≠ a) ring ∧
  ∀ x, owner m x ≠ a → (remove_vnodes a ring m).2 !! x = m !! x.
Proof.
  intros Hnd. revert m. induction Hnd as [|h ring Hh Hnd IH]; intros m; [done|].
  cbn [remove_vnodes]. case_decide as Ho.
  - destruct (IH m) as [H1 H2]. destruct (remove_vnodes a ring m) as [r m']. simpl in *.
    rewrite filter_cons_True by done. by subst.
  - destruct (IH (delete h m)) as [H1 H2].
    assert (∀ x, x ≠ h → owner (delete h m) x = owner m x) as Hod.
    { intros x Hx. unfold owner. by rewrite lookup_delete_ne. }
    rewrite filter_cons_False by tauto. split.
    + rewrite H1. clear -Hod Hh. induction ring as [|y ring IH]; [done|].
      rewrite !filter_cons, Hod, IH by set_solver. by case_decide.
    + intros x Hx. assert (x ≠ h) by (intros ->; tauto).
      rewrite H2, lookup_delete_ne by (rewrite ?Hod; done). done.
Qed.

Lemma owner_exact ch a x :
  ring_exact ch → a ∈ CH_nodes ch → x ∈ vnode_hashes (CH_virtualNodes ch) a →
  owner (CH_nodeMap ch) x = a.
Proof. intros Hx Ha Hh. unfold owner. by rewrite (re_map _ Hx a). Qed.

(** Removing a member succeeds, keeps the ring exact and takes the node out of
    the clockwise order. *)
Lemma RemoveNode_exact ch a :
  ring_exact ch → a ∈ CH_nodes ch →
  ∃ ch', ConsistentHash_RemoveNode ch a = Ret ch' ∧ ring_exact ch' ∧
    CH_nodes ch' = CH_nodes ch ∖ {[a]} ∧
    ∀ h, owners_from ch' h = filter (λ b, b ≠ a) (owners_from ch h).
Proof.
  intros Hx Ha. unfold ConsistentHash_RemoveNode. rewrite decide_False by tauto.
  assert (CH_virtualNodes ch ≤ len (CH_ring ch)) as Hlen.
  { assert (vnode_hashes (CH_virtualNodes ch) a ⊆+ CH_ring ch) as Hsub%submseteq_length.
    { apply NoDup_submseteq; [by apply (re_vnodes _ Hx)|]. intros x Hxa. apply (re_ring _ Hx). eauto. }
    unfold vnode_hashes in Hsub. rewrite length_fmap, length_seqZ in Hsub. unfold len. lia. }
  rewrite (proj2 (Z.ltb_ge _ _)) by lia.
  destruct (remove_vnodes_spec a (CH_ring ch) (CH_nodeMap ch) (re_nodup _ Hx)) as [H1 H2].
  destruct (remove_vnodes a _ _) as [r m]. simpl in *. eexists. split; [done|].
  assert (∀ x, x ∈ r ↔ ∃ b, b ∈ CH_nodes ch ∖ {[a]} ∧ x ∈ vnode_hashes (CH_virtualNodes ch) b) as Hr.
  { intros x. rewrite H1, list_elem_of_filter, (re_ring _ Hx). split.
    - intros [Hne (b & Hb & Hxb)]. rewrite (owner_exact ch b) in Hne by done. set_solver.
    - intros (b & Hb & Hxb). rewrite (owner_exact ch b) by set_solver. set_solver. }
  split_and!; [|done|].
  - split; simpl; [apply Hx| | |done| |].
    + rewrite H1. apply StronglySorted_filter, Hx.
    + rewrite H1. apply NoDup_filter, Hx.
    + intros b x Hb Hxb. rewrite H2; [|rewrite (owner_exact ch b)]; [apply (re_map _ Hx)|..]; set_solver.
    + intros b Hb. apply (re_vnodes _ Hx). set_solver.
  - intros h. unfold owners_from. simpl.
    rewrite (filter_fmap (λ x, owner (CH_nodeMap ch) x ≠ a)) by done.
    rewrite clockwise_filter, <- H1. apply list_fmap_ext. intros i x Hxi.
    assert (x ∈ r) as Hin by (apply (elem_of_clockwise h); by eapply list_elem_of_lookup_2).
    unfold owner at 1 2. rewrite H2; [done|]. rewrite H1 in Hin. by apply list_elem_of_filter in Hin as [? _].
Qed.

(** ** Choosing two owners *)

Lemma head_filter_filter {A} (P Q : A → Prop) `{∀ x, Decision (P x)} `{∀ x, Decision (Q x)} l x :
  head (filter P l) = Some x → Q x → head (filter P (filter Q l)) = Some x.
Proof.
  intros Hh HQ. rewrite list_filter_filter. induction l as [|y l IH]; [done|].
  rewrite filter_cons in Hh. rewrite filter_cons.
  destruct (decide (P y)) as [Hp|Hp]; simplify_eq/=.
  - by rewrite decide_True.
  - rewrite decide_False by tauto. auto.
Qed.

Lemma pick_nodes_cons a l :
  pick_nodes (a :: l) = (a, default ""%string (head (filter (λ b, b ≠ a) l))).
Proof. unfold pick_nodes. cbn [head default id]. by rewrite filter_cons_False by tauto. Qed.

Lemma pick_nodes_members owners :
  owners ≠ [] → (pick_nodes owners).1 ∈ owners ∧
  ((pick_nodes owners).2 = ""%string ∧ (∀ a, a ∈ owners → a = (pick_nodes owners).1) ∨
   (pick_nodes owners).2 ∈ owners ∧ (pick_nodes owners).2 ≠ (pick_nodes owners).1).
Proof.
  destruct owners as [|a l]; [done|]. intros _. rewrite pick_nodes_cons. cbn [fst snd].
  split; [left|]. destruct (filter _ l) as [|b k] eqn:E; cbn [head default id].
  - left. split; [done|]. intros b [->|Hb]%elem_of_cons; [done|].
    destruct (decide (b = a)) as [|Hne]; [done|]. by destruct (filter_nil_not_elem_of _ _ b E).
  - right. pose proof (list_elem_of_here b k) as Hb. rewrite <- E in Hb.
    apply list_elem_of_filter in Hb as [? ?]. split; [by right|done].
Qed.

(** Taking one owner out of the clockwise order: the pair is unchanged when it
    does not contain that owner, and the second owner steps in for the first. *)
Lemma pick_nodes_remove owners a :
  let '(primary, replica) := pick_nodes owners in
  (pick_nodes (filter (λ b, b ≠ a) owners)).1 = (if decide (primary = a) then replica else primary) ∧
  (primary ≠ a → replica ≠ a → pick_nodes (filter (λ b, b ≠ a) owners) = (primary, replica)).
Proof.
  destruct owners as [|b l]; [split; [by unfold pick_nodes; simpl; case_decide|done]|].
  rewrite pick_nodes_cons. destruct (decide (b = a)) as [->|Hne].
  { rewrite filter_cons_False by tauto. split; [done|tauto]. }
  rewrite filter_cons_True, pick_nodes_cons by done. split; [done|]. intros _ Hr. f_equal.
  destruct (filter (λ c, c ≠ b) l) as [|c k] eqn:E; cbn [head default id] in *.
  - rewrite list_filter_none; [done|]. rewrite Forall_forall. intros d [_ Hd]%list_elem_of_filter.
    intros Hdb. by destruct (filter_nil_not_elem_of _ _ d E).
  - erewrite head_filter_filter; [done|by rewrite E|done].
Qed.

Lemma owners_from_nodes ch h a :
  ring_exact ch → a ∈ owners_from ch h ↔ a ∈ CH_nodes ch.
Proof.
  intros Hx. unfold owners_from. rewrite list_elem_of_fmap. split.
  - intros (x & -> & Hin%elem_of_clockwise). apply (re_ring _ Hx) in Hin as (b & Hb & Hxb).
    by rewrite (owner_exact ch b).
  - intros Ha. assert (ring_hash (vnode_key a 0) ∈ vnode_hashes (CH_virtualNodes ch) a) as H0.
    { apply list_elem_of_fmap. exists 0. split; [done|]. apply elem_of_seqZ. pose proof (re_vn _ Hx). lia. }
    exists (ring_hash (vnode_key a 0)). split; [by rewrite (owner_exact ch a)|].
    apply elem_of_clockwise, (re_ring _ Hx). eauto.
Qed.

Lemma GetNodes_members ch p :
  ring_exact ch → (2 ≤ size (CH_nodes ch))%nat → ""%string ∉ CH_nodes ch →
  let '(primary, replica) := ConsistentHash_GetNodes ch p in
  primary ∈ CH_nodes ch ∧ replica ∈ CH_nodes ch ∧ primary ≠ replica.
Proof.
  intros Hx Hsz Hempty. rewrite GetNodes_pick by apply Hx.
  set (l := owners_from ch _). assert (∀ a, a ∈ l ↔ a ∈ CH_nodes ch) as Hl by (intros; by apply owners_from_nodes).
  assert (l ≠ []) as Hne.
  { intros E. rewrite E in Hl. assert (CH_nodes ch ≡ ∅) as Hem by set_solver.
    rewrite Hem, size_empty in Hsz. lia. }
  destruct (pick_nodes_members l Hne) as [Hp Hr]. destruct (pick_nodes l) as [pr re]. simpl in *.
  destruct Hr as [[_ Hall]|[Hr Hpr]].
  - exfalso. assert (CH_nodes ch ⊆ {[pr]}) as Hsub%subseteq_size by (intros a Ha%Hl; set_solver).
    rewrite size_singleton in Hsub. lia.
  - rewrite <- !Hl. auto.
Qed.

(** ** Properties *)

(** A key belongs to the member whose point is nearest clockwise: the binary
    search with its wrap-around finds a point of the ring that no other point
    precedes in the distance [(x - hash) mod 2^32], and [GetNode] returns the
    owner of that point. *)
Lemma GetNode_nearest ch key :
  ring_exact ch → CH_nodes ch ≠ ∅ →
  ∃ x, x ∈ CH_ring ch ∧ CH_nodeMap ch !! x = Some (ConsistentHash_GetNode ch key) ∧
    ∀ y, y ∈ CH_ring ch → cw_dist (ring_hash key) x ≤ cw_dist (ring_hash key) y.
Proof.
  intros Hx Hne. rewrite GetNode_pick by apply Hx. unfold owners_from.
  destruct (clockwise (ring_hash key) (CH_ring ch)) as [|x l] eqn:E.
  - destruct Hne. apply leibniz_equiv. intros a. split; [|set_solver]. intros Ha.
    apply (owners_from_nodes ch (ring_hash key)) in Ha; [|done]. unfold owners_from in Ha.
    rewrite E in Ha. set_solver.
  - destruct (clockwise_head (ring_hash key) (CH_ring ch) x) as [Hin Hmin].
    + apply ChecksumIEEE_u32.
    + apply Forall_forall. intros y (a & _ & Hy)%(re_ring _ Hx). by eapply vnode_hash_u32.
    + apply Hx.
    + by rewrite E.
    + exists x. split_and!; [done| |done]. apply (re_ring _ Hx) in Hin as (a & Ha & Hxa).
      rewrite fmap_cons. cbn [head default]. rewrite (owner_exact ch a) by done. by apply (re_map _ Hx).
Qed.

(** C30: removing a member moves only what it held.  On an exact ring, one whose
    points are the virtual nodes of its members and where no two virtual nodes share
    a hash, [RemoveNode] of a member succeeds, the ring stays exact, a partition
    keeps its primary unless the removed node was it, in which case its replica
    becomes the primary, and a partition that did not use the node keeps both.  With
    colliding virtual nodes it does not hold. *)
Theorem RemoveNode_moves_only_its_partitions ch a :
  ring_exact ch → a ∈ CH_nodes ch →
  ∃ ch', ConsistentHash_RemoveNode ch a = Ret ch' ∧ ring_exact ch' ∧
    CH_nodes ch' = CH_nodes ch ∖ {[a]} ∧
    ∀ p, let '(primary, replica) := ConsistentHash_GetNodes ch p in
      (ConsistentHash_GetNodes ch' p).1 = (if decide (primary = a) then replica else primary) ∧
      (primary ≠ a → replica ≠ a → ConsistentHash_GetNodes ch' p = (primary, replica)).
Proof.
  intros Hx Ha. destruct (RemoveNode_exact ch a Hx Ha) as (ch' & Hrm & Hx' & Hn & Ho).
  exists ch'. split_and!; [done..|]. intros p.
  rewrite (GetNodes_pick ch'), (GetNodes_pick ch), Ho by (apply Hx || apply Hx').
  apply pick_nodes_remove.
Qed.

(** Adding a node moves keys only to it: afterwards every key belongs to the
    new node or to the node it belonged to before, whether or not hashes
    collide. *)
Lemma AddNode_moves_only_to_the_node ch a key :
  StronglySorted Z.le (CH_ring ch) → Forall is_u32 (CH_ring ch) → 0 < CH_virtualNodes ch →
  a ∉ CH_nodes ch →
  ConsistentHash_GetNode (ConsistentHash_AddNode ch a) key ∈ [a; ConsistentHash_GetNode ch key].
Proof.
  intros Hs Hu Hv Ha. destruct (AddNode_new ch a Ha) as (_ & Hp & Hs' & Hm & _).
  set (ch' := ConsistentHash_AddNode ch a) in *. rewrite !GetNode_pick by done.
  set (h := ring_hash key). assert (is_u32 h) as Hh by apply ChecksumIEEE_u32. unfold owners_from.
  assert (Forall is_u32 (CH_ring ch')) as Hu'.
  { rewrite Hp. apply Forall_app. split; [done|]. apply Forall_forall. apply vnode_hash_u32. }
  destruct (clockwise h (CH_ring ch')) as [|x l] eqn:E.
  { exfalso. assert (ring_hash (vnode_key a 0) ∈ clockwise h (CH_ring ch')) as Hin; [|rewrite E in Hin; set_solver].
    apply elem_of_clockwise. rewrite Hp. apply elem_of_app. right. apply list_elem_of_fmap. exists 0.
    split; [done|]. apply elem_of_seqZ. lia. }
  destruct (clockwise_head h (CH_ring ch') x) as [Hin Hmin]; [done..|by rewrite E|].
  rewrite fmap_cons. cbn [head default]. unfold owner at 1. rewrite Hm. case_decide as Hd; [set_solver|].
  assert (x ∈ CH_ring ch) as Hold by (rewrite Hp in Hin; set_solver).
  destruct (clockwise h (CH_ring ch)) as [|y k] eqn:Ey.
  { exfalso. apply (elem_of_clockwise h) in Hold. rewrite Ey in Hold. set_solver. }
  destruct (clockwise_head h (CH_ring ch) y) as [Hyin Hymin]; [done..|by rewrite Ey|].
  assert (x = y) as ->; [|set_solver]. rewrite Forall_forall in Hu, Hu'.
  apply (cw_dist_inj h); auto. assert (y ∈ CH_ring ch') by (rewrite Hp; set_solver).
  specialize (Hmin y ltac:(done)). specialize (Hymin x Hold). lia.
Qed.

(** ** Histories of a ring *)

Inductive ring_op := RAdd (a : string) | RRemove (a : string).

Definition ring_op_addr (o : ring_op) : string := match o with RAdd a | RRemove a => a end.

Definition ring_step (ch : ConsistentHash) (o : ring_op) : outcome ConsistentHash :=
  match o with
  | RAdd a => Ret (ConsistentHash_AddNode ch a)
  | RRemove a => ConsistentHash_RemoveNode ch a
  end.

Fixpoint ring_run (ch : ConsistentHash) (ops : list ring_op) : outcome ConsistentHash :=
  match ops with
  | [] => Ret ch
  | o :: ops => ch ← ring_step ch o; ring_run ch ops
  end.

(** The set of members a history should leave. *)
Definition members_step (m : gset string) (o : ring_op) : gset string :=
  match o with RAdd a => {[a]} ∪ m | RRemove a => m ∖ {[a]} end.

(** No two virtual nodes of the addresses share a hash. *)
Definition collision_free (vn : Z) (addrs : list string) : Prop :=
  ∀ a, a ∈ addrs → NoDup (vnode_hashes vn a) ∧
    ∀ b x, b ∈ addrs → a ≠ b → x ∈ vnode_hashes vn a → x ∉ vnode_hashes vn b.

Lemma collision_free_concat vn addrs :
  NoDup (mjoin (vnode_hashes vn <$> addrs)) → collision_free vn addrs.
Proof.
  induction addrs as [|a addrs IH]; intros Hnd b Hb; [by apply elem_of_nil in Hb|].
  simpl in Hnd. apply NoDup_app in Hnd as (Ha & Hdis & Hnd).
  assert (∀ c x, c ∈ addrs → x ∈ vnode_hashes vn a → x ∉ vnode_hashes vn c) as Hac.
  { intros c x Hc Hx Hxc. apply (Hdis x Hx). apply list_elem_of_join. exists (vnode_hashes vn c).
    split; [done|]. by apply list_elem_of_fmap_2. }
  specialize (IH Hnd). apply elem_of_cons in Hb as [->|Hb].
  - split; [done|]. intros c x Hc Hne. apply elem_of_cons in Hc as [->|Hc]; [done|]. by apply Hac.
  - destruct (IH b Hb) as [Hndb Hb']. split; [done|]. intros c x Hc Hne Hx Hxc.
    apply elem_of_cons in Hc as [->|Hc]; [by apply (Hac b x)|by apply (Hb' c x)].
Qed.

Lemma virtualNodes_step ch o ch' :
  ring_step ch o = Ret ch' → CH_virtualNodes ch' = CH_virtualNodes ch.
Proof.
  destruct o as [a|a]; simpl.
  - intros [= <-]. unfold ConsistentHash_AddNode. case_decide; [done|]. by destruct (add_vnodes _ _ _ _).
  - unfold ConsistentHash_RemoveNode. case_decide; [by intros [= <-]|]. case_match; [done|].
    destruct (remove_vnodes _ _ _). by intros [= <-].
Qed.

Lemma ring_step_exact addrs ch o :
  ring_exact ch → collision_free (CH_virtualNodes ch) addrs →
  (∀ a, a ∈ CH_nodes ch → a ∈ addrs) → ring_op_addr o ∈ addrs →
  ∃ ch', ring_step ch o = Ret ch' ∧ ring_exact ch' ∧ CH_nodes ch' = members_step (CH_nodes ch) o.
Proof.
  intros Hx Hcf Hsub Ho. destruct o as [a|a]; simpl in *.
  - eexists. split; [done|]. destruct (Hcf a Ho) as [Hnd Hdis]. split.
    + apply AddNode_exact; [done..|]. intros x Ha Hxa (b & Hb & Hxb)%(re_ring _ Hx).
      apply (Hdis b x); auto. by intros ->.
    + destruct (decide (a ∈ CH_nodes ch)) as [Ha|Ha].
      * unfold ConsistentHash_AddNode. rewrite decide_True by done. set_solver.
      * apply (AddNode_new ch a Ha).
  - destruct (decide (a ∈ CH_nodes ch)) as [Ha|Ha].
    + destruct (RemoveNode_exact ch a Hx Ha) as (ch' & ? & ? & ? & _). eauto.
    + exists ch. unfold ConsistentHash_RemoveNode. rewrite decide_True by done. set_solver.
Qed.

Lemma ring_run_exact addrs ops ch :
  ring_exact ch → collision_free (CH_virtualNodes ch) addrs →
  (∀ a, a ∈ CH_nodes ch → a ∈ addrs) → Forall (λ o, ring_op_addr o ∈ addrs) ops →
  ∃ ch', ring_run ch ops = Ret ch' ∧ ring_exact ch' ∧
    CH_virtualNodes ch' = CH_virtualNodes ch ∧
    CH_nodes ch' = foldl members_step (CH_nodes ch) ops.
Proof.
  revert ch. induction ops as [|o ops IH]; intros ch Hx Hcf Hsub Hops; [eauto|].
  apply Forall_cons in Hops as [Ho Hops].
  destruct (ring_step_exact addrs ch o Hx Hcf Hsub Ho) as (ch1 & E & Hx1 & Hn1).
  pose proof (virtualNodes_step _ _ _ E) as Hv. cbn [ring_run foldl]. rewrite E, <- Hn1, <- Hv.
  apply IH; [done|by rewrite Hv| |done].
  intros a. rewrite Hn1. destruct o; simpl in *; set_solver.
Qed.

(** C16: refinement of the ring to the set of its members: along any history of
    joins and departures over addresses whose virtual nodes do not collide, no
    operation panics, the ring holds exactly the virtual nodes of the current
    members, sorted and without duplicates, and the members are those the
    history leaves. *)
Theorem ring_refines_members vn addrs ops :
  let ch0 := NewConsistentHash vn in
  collision_free (CH_virtualNodes ch0) addrs → Forall (λ o, ring_op_addr o ∈ addrs) ops →
  ∃ ch, ring_run ch0 ops = Ret ch ∧ ring_exact ch ∧ CH_nodes ch = foldl members_step ∅ ops.
Proof.
  intros ch0 Hcf Hops.
  destruct (ring_run_exact addrs ops ch0) as (ch & ? & ? & _ & ?); eauto.
  - apply NewConsistentHash_exact.
  - simpl. set_solver.
Qed.

(** The loop of [allocatePartitions] and [RebalancePartitions] that builds a ring. *)
Definition build_ring (addrs : list string) : ConsistentHash :=
  foldl ConsistentHash_AddNode (NewConsistentHash DefaultVirtualNodes) addrs.

Lemma ring_run_build addrs ch : ring_run ch (RAdd <$> addrs) = Ret (foldl ConsistentHash_AddNode ch addrs).
Proof. revert ch. induction addrs as [|a addrs IH]; intros ch; [done|]. apply IH. Qed.

Lemma build_ring_exact addrs :
  collision_free DefaultVirtualNodes addrs →
  ring_exact (build_ring addrs) ∧ CH_nodes (build_ring addrs) = list_to_set addrs.
Proof.
  intros Hcf. destruct (ring_run_exact addrs (RAdd <$> addrs) (NewConsistentHash DefaultVirtualNodes))
    as (ch & E & Hx & _ & Hn).
  - apply NewConsistentHash_exact.
  - done.
  - simpl. set_solver.
  - apply Forall_fmap, Forall_forall. done.
  - rewrite ring_run_build in E. injection E as <-. split; [done|].
    change (CH_nodes (build_ring addrs)) with (CH_nodes (foldl ConsistentHash_AddNode (NewConsistentHash DefaultVirtualNodes) addrs)).
    rewrite Hn. clear. change (CH_nodes (NewConsistentHash DefaultVirtualNodes)) with (∅ : gset string).
    enough (∀ m : gset string, foldl members_step m (RAdd <$> addrs) = m ∪ list_to_set addrs) as ->
      by set_solver.
    induction addrs as [|a addrs IH]; intros m; [set_solver|]. rewrite fmap_cons. cbn [foldl].
    rewrite IH. set_solver.
Qed.

(** ** Distribution *)

(** [GetPartitionDistribution] lists every member and counts, for every
    address, the partitions whose primary it is. *)
Lemma GetPartitionDistribution_counts ch total a :
  a ≠ ""%string →
  default 0 (ConsistentHash_GetPartitionDistribution ch total !! a) =
    len (filter (λ p, (ConsistentHash_GetNodes ch p).1 = a) (seqZ 0 total)) ∧
  (a ∈ CH_nodes ch → is_Some (ConsistentHash_GetPartitionDistribution ch total !! a)).
Proof.
  intros Ha. unfold ConsistentHash_GetPartitionDistribution. generalize (seqZ 0 total). intros ps.
  assert (set_to_map (M := gmap string Z) (λ node, (node, 0)) (CH_nodes ch) !! a =
    if decide (a ∈ CH_nodes ch) then Some 0 else None) as H0.
  { case_decide as Hin.
    - apply lookup_set_to_map; [naive_solver|]. eauto.
    - apply eq_None_not_Some. intros [z Hz]. apply lookup_set_to_map in Hz; naive_solver. }
  induction ps as [|p ps IH] using rev_ind.
  { simpl. rewrite H0. case_decide; naive_solver. }
  rewrite foldl_app, filter_app, len_app. cbn [foldl].
  set (m := foldl _ _ ps) in *. unfold count_primary. rewrite filter_cons, filter_nil.
  destruct (decide ((ConsistentHash_GetNodes ch p).1 = a)) as [->|Hne].
  - rewrite decide_True, lookup_insert_eq by done. destruct IH as [<- _]. split; [done|eauto].
  - change (len (@nil Z)) with 0. rewrite Z.add_0_r.
    destruct (decide ((ConsistentHash_GetNodes ch p).1 ≠ ""%string)); [|done].
    by rewrite lookup_insert_ne.
Qed.

(** ** Colliding virtual nodes *)

Lemma remove_vnodes_unowned a ring m x :
  a ≠ ""%string → m !! x = None →
  (x ∈ ring → x ∈ (remove_vnodes a ring m).1) ∧ (remove_vnodes a ring m).2 !! x = None.
Proof.
  intros Ha. revert m. induction ring as [|h ring IH]; intros m Hm; [set_solver|].
  cbn [remove_vnodes]. destruct (decide (owner m h ≠ a)) as [Ho|Ho].
  - destruct (IH m Hm). destruct (remove_vnodes a ring m). simpl in *. set_solver.
  - assert (x ≠ h) by (intros ->; apply Ho; unfold owner; by rewrite Hm).
    destruct (IH (delete h m)); [by rewrite lookup_delete_ne|]. set_solver.
Qed.

Lemma remove_vnodes_duplicate a r1 r2 m x :
  a ≠ ""%string → x ∉ r1 → x ∈ r2 → m !! x = Some a →
  x ∈ (remove_vnodes a (r1 ++ x :: r2) m).1 ∧ (remove_vnodes a (r1 ++ x :: r2) m).2 !! x = None.
Proof.
  intros Ha Hr1 Hr2. revert m. induction r1 as [|h r1 IH]; intros m Hm; cbn [app remove_vnodes].
  - rewrite decide_False by (unfold owner; rewrite Hm; tauto).
    destruct (remove_vnodes_unowned a r2 (delete x m) x Ha (lookup_delete_eq _ _)). auto.
  - assert (x ≠ h) by set_solver. destruct (decide (owner m h ≠ a)) as [Ho|Ho].
    + destruct (IH ltac:(set_solver) m Hm). destruct (remove_vnodes a _ m). simpl in *. set_solver.
    + apply IH; [set_solver|]. by rewrite lookup_delete_ne.
Qed.

(** When two virtual nodes share a hash, the point is in the ring twice, and
    removing its owner leaves the second copy behind with no owner: keys that
    hash to it are then assigned to the empty address. *)
Lemma RemoveNode_orphans_shared_points ch a r1 r2 x :
  a ≠ ""%string → a ∈ CH_nodes ch → CH_virtualNodes ch ≤ len (CH_ring ch) →
  CH_ring ch = r1 ++ x :: r2 → x ∉ r1 → x ∈ r2 → CH_nodeMap ch !! x = Some a →
  ∃ ch', ConsistentHash_RemoveNode ch a = Ret ch' ∧ x ∈ CH_ring ch' ∧
    owner (CH_nodeMap ch') x = ""%string.
Proof.
  intros Ha Hn Hv Hr Hr1 Hr2 Hm. unfold ConsistentHash_RemoveNode.
  rewrite decide_False, (proj2 (Z.ltb_ge _ _)) by (tauto || lia). rewrite Hr.
  destruct (remove_vnodes_duplicate a r1 r2 (CH_nodeMap ch) x Ha Hr1 Hr2 Hm) as [H1 H2].
  destruct (remove_vnodes a _ _) as [r m]. eexists. split; [done|]. simpl in *.
  split; [done|]. unfold owner. by rewrite H2.
Qed.

(** ** Concrete rings *)

Definition demo_addrs : list string := ["storage-1:9001"; "storage-2:9001"; "storage-3:9001"]%string.

Lemma demo_collision_free : collision_free DefaultVirtualNodes demo_addrs.
Proof. apply collision_free_concat. apply (bool_decide_unpack _). vm_compute. exact I. Qed.

Lemma demo_ring_exact : ring_exact (build_ring demo_addrs).
Proof. apply build_ring_exact, demo_collision_free. Qed.

Lemma GetNode_nearest_witness :
  ∃ x, x ∈ CH_ring (build_ring demo_addrs) ∧
    CH_nodeMap (build_ring demo_addrs) !! x =
      Some (ConsistentHash_GetNode (build_ring demo_addrs) (str_bytes "user:1")) ∧
    ∀ y, y ∈ CH_ring (build_ring demo_addrs) →
      cw_dist (ring_hash (str_bytes "user:1")) x ≤ cw_dist (ring_hash (str_bytes "user:1")) y.
Proof.
  apply (GetNode_nearest (build_ring demo_addrs) (str_bytes "user:1")).
  - apply demo_ring_exact.
  - rewrite (proj2 (build_ring_exact _ demo_collision_free)). set_solver.
Defined.

Example demo_GetNodes :
  ConsistentHash_GetNodes (build_ring demo_addrs) 5 = ("storage-1:9001", "storage-3:9001")%string.
Proof. vm_compute. reflexivity. Qed.

Lemma RemoveNode_moves_only_its_partitions_witness :
  ∃ ch', ConsistentHash_RemoveNode (build_ring demo_addrs) "storage-1:9001" = Ret ch' ∧ ring_exact ch' ∧
    CH_nodes ch' = CH_nodes (build_ring demo_addrs) ∖ {["storage-1:9001"%string]} ∧
    ∀ p, let '(primary, replica) := ConsistentHash_GetNodes (build_ring demo_addrs) p in
      (ConsistentHash_GetNodes ch' p).1 =
        (if decide (primary = "storage-1:9001"%string) then replica else primary) ∧
      (primary ≠ "storage-1:9001"%string → replica ≠ "storage-1:9001"%string →
       ConsistentHash_GetNodes ch' p = (primary, replica)).
Proof.
  apply (RemoveNode_moves_only_its_partitions (build_ring demo_addrs) "storage-1:9001"%string).
  - apply demo_ring_exact.
  - apply (bool_decide_unpack _). vm_compute. exact I.
Defined.

Lemma AddNode_moves_only_to_the_node_witness :
  ConsistentHash_GetNode (ConsistentHash_AddNode (build_ring demo_addrs) "storage-4:9001")
    (str_bytes "user:1") ∈
  ["storage-4:9001"%string; ConsistentHash_GetNode (build_ring demo_addrs) (str_bytes "user:1")].
Proof.
  apply (AddNode_moves_only_to_the_node (build_ring demo_addrs) "storage-4:9001"%string).
  - apply demo_ring_exact.
  - apply (bool_decide_unpack _). vm_compute. exact I.
  - vm_compute. reflexivity.
  - apply (bool_decide_unpack _). vm_compute. exact I.
Defined.

Lemma ring_refines_members_witness :
  ∃ ch, ring_run (NewConsistentHash 0)
      [RAdd "storage-1:9001"; RAdd "storage-2:9001"; RRemove "storage-1:9001"; RAdd "storage-3:9001"]
    = Ret ch ∧ ring_exact ch ∧
    CH_nodes ch = foldl members_step ∅
      [RAdd "storage-1:9001"; RAdd "storage-2:9001"; RRemove "storage-1:9001"; RAdd "storage-3:9001"].
Proof.
  apply (ring_refines_members 0 demo_addrs).
  - apply demo_collision_free.
  - repeat constructor; set_solver.
Defined.

Lemma GetPartitionDistribution_counts_witness :
  default 0 (ConsistentHash_GetPartitionDistribution (build_ring demo_addrs) 100 !! "storage-1:9001"%string) =
    len (filter (λ p, (ConsistentHash_GetNodes (build_ring demo_addrs) p).1 = "storage-1:9001"%string)
      (seqZ 0 100)) ∧
  ("storage-1:9001"%string ∈ CH_nodes (build_ring demo_addrs) →
   is_Some (ConsistentHash_GetPartitionDistribution (build_ring demo_addrs) 100 !! "storage-1:9001"%string)).
Proof. apply (GetPartitionDistribution_counts (build_ring demo_addrs) 100 "storage-1:9001"%string). done. Defined.

(** Two addresses whose virtual nodes 0 and 140 have the same CRC-32. *)
Definition twin_addrs : list string := ["10.0.1.4:9002"; "192.168.0.90:9002"]%string.

Lemma RemoveNode_orphans_shared_points_witness :
  (∃ ch', ConsistentHash_RemoveNode (build_ring twin_addrs) "192.168.0.90:9002" = Ret ch' ∧
     2373230375 ∈ CH_ring ch' ∧ owner (CH_nodeMap ch') 2373230375 = ""%string) ∧
  (ch' ← ConsistentHash_RemoveNode (build_ring twin_addrs) "192.168.0.90:9002";
   Ret (ConsistentHash_GetNodes ch' 52)) = Ret (""%string, "10.0.1.4:9002"%string).
Proof.
  split; [|vm_compute; reflexivity].
  apply (RemoveNode_orphans_shared_points (build_ring twin_addrs) "192.168.0.90:9002"%string
    (filter (λ x, x < 2373230375) (CH_ring (build_ring twin_addrs)))
    (drop 1 (filter (λ x, 2373230375 ≤ x) (CH_ring (build_ring twin_addrs)))) 2373230375).
  - done.
  - apply (bool_decide_unpack _). vm_compute. exact I.
  - apply (bool_decide_unpack _). vm_compute. exact I.
  - vm_compute. reflexivity.
  - apply (bool_decide_unpack _). vm_compute. exact I.
  - apply (bool_decide_unpack _). vm_compute. exact I.
  - vm_compute. reflexivity.
Defined.
