(* ===== verification/MetaStore.v ===== *)
(** * The metadata store

    The data of [src/pkg/metadata/store.go], its interface [Store] as a class
    with the laws a client may rely on, and the implementation [EtcdStore] of
    [src/pkg/metadata/etcd.go] with the proof that it has the laws.

    etcd is a service: it appears as the class [EtcdClient] of the calls the
    store makes, with the laws [EtcdLaws].  A failed write may or may not have
    taken effect, as with any request whose reply is lost.  The values are kept
    typed instead of as JSON text; a value of the wrong type stands for text
    that does not unmarshal.  Timestamps that no code reads ([UpdatedAt],
    [CreatedAt], [StartedAt]) are left out. *)

From S2P Require Import Prelude Proto.

#[local] Open Scope string_scope.
#[local] Open Scope Z_scope.

(** The results of methods that return a value or an error. *)
Inductive result (A : Type) :=
  | Ok (a : A)
  | Error (e : goerr).
Arguments Ok {A} _.
Arguments Error {A} _.

#[global] Instance result_fmap : FMap result := λ A B f m,
  match m with Ok a => Ok (f a) | Error e => Error e end.

(** ** Data *)

Definition ClusterStatePending : string := "pending".
Definition ClusterStateInitializing : string := "initializing".
Definition ClusterStateRunning : string := "running".

Record ClusterInfo := mkClusterInfo {
  CI_State : string;
  CI_ReplicaCount : Z
}.

Definition NodeRoleStorage : string := "storage".
Definition NodeRoleCompute : string := "compute".
Definition NodeRoleMetadata : string := "metadata".

Definition NodeStatusOnline : string := "online".
Definition NodeStatusOffline : string := "offline".
Definition NodeStatusDraining : string := "draining".
Definition NodeStatusRemoved : string := "removed".

Record NodeInfo := mkNodeInfo {
  NI_ID : string;
  NI_Addr : string;
  NI_Role : string;
  NI_Status : string;
  NI_LastHeartbeat : Z;
  NI_RegisteredAt : Z;
  NI_Partitions : list Z
}.

Definition PartitionStatusNormal : string := "normal".
Definition PartitionStatusMigratingOut : string := "migrating_out".
Definition PartitionStatusMigratingIn : string := "migrating_in".
Definition PartitionStatusOffline : string := "offline".

(** [PartitionInfo] of the metadata package (the message of the same name is in
    [Proto]). *)
Record RoutePartition := mkRoutePartition {
  RP_ID : Z;
  RP_Primary : string;
  RP_Replica : string;
  RP_Status : string;
  RP_MigrationTarget : string;
  RP_MigrationState : MigrationState;
  RP_Epoch : Z
}.

Record RouteTable := mkRouteTable {
  RT_Version : Z;
  RT_Partitions : gmap Z RoutePartition
}.

Definition NewRouteTable : RouteTable := mkRouteTable 1 ∅.

Record MigrationInfo := mkMigrationInfo {
  MI_PartitionID : Z;
  MI_Target : string;
  MI_State : MigrationState;
  MI_IsPrimaryMove : bool
}.

#[global] Instance ClusterInfo_eq_dec : EqDecision ClusterInfo.
Proof. solve_decision. Defined.
#[global] Instance NodeInfo_eq_dec : EqDecision NodeInfo.
Proof. solve_decision. Defined.
#[global] Instance RoutePartition_eq_dec : EqDecision RoutePartition.
Proof. solve_decision. Defined.
#[global] Instance RouteTable_eq_dec : EqDecision RouteTable.
Proof. solve_decision. Defined.
#[global] Instance MigrationInfo_eq_dec : EqDecision MigrationInfo.
Proof. solve_decision. Defined.

Definition NI_set_status (n : NodeInfo) (status : string) : NodeInfo :=
  mkNodeInfo (NI_ID n) (NI_Addr n) (NI_Role n) status (NI_LastHeartbeat n) (NI_RegisteredAt n)
    (NI_Partitions n).

(** ** The interface *)

(** What a store holds. *)
Record StoreView := mkStoreView {
  sv_cluster : ClusterInfo;
  sv_nodes : gmap string NodeInfo;
  sv_table : RouteTable;
  sv_migrations : gmap string MigrationInfo  (** by decimal partition number *)
}.

Definition sv_set_cluster (v : StoreView) (c : ClusterInfo) : StoreView :=
  mkStoreView c (sv_nodes v) (sv_table v) (sv_migrations v).
Definition sv_set_nodes (v : StoreView) (m : gmap string NodeInfo) : StoreView :=
  mkStoreView (sv_cluster v) m (sv_table v) (sv_migrations v).
Definition sv_set_table (v : StoreView) (t : RouteTable) : StoreView :=
  mkStoreView (sv_cluster v) (sv_nodes v) t (sv_migrations v).
Definition sv_set_migrations (v : StoreView) (m : gmap string MigrationInfo) : StoreView :=
  mkStoreView (sv_cluster v) (sv_nodes v) (sv_table v) m.

(** [%d] of a partition number. *)
Definition decimal (p : Z) : string := bytes_str (FormatUint p).

Lemma decimal_inj p q : is_u32 p → is_u32 q → decimal p = decimal q → p = q.
Proof.
  unfold is_u32. intros Hp Hq H%(f_equal str_bytes). unfold decimal, bytes_str, str_bytes in H.
  rewrite !String.list_byte_of_string_of_list_byte in H. apply (f_equal ParseUint) in H.
  rewrite !ParseUint_FormatUint in H by (unfold is_u64; lia). congruence.
Qed.

(** The methods of the interface the router and the server call.  A method
    returns the store it leaves; [UpdateRouteTable] also returns the table,
    whose version it sets through the pointer. *)
Class Store (S : Type) := {
  GetClusterInfo : S → S * result ClusterInfo;
  SetClusterState : S → string → S * option goerr;
  RegisterNode : S → Z → NodeInfo → S * option goerr;
  UnregisterNode : S → string → S * option goerr;
  GetNode : S → string → S * result (option NodeInfo);
  ListNodes : S → string → S * result (list NodeInfo);
  UpdateNodeHeartbeat : S → string → S * option goerr;
  UpdateNodeStatus : S → string → string → S * option goerr;
  GetRouteTable : S → S * result RouteTable;
  UpdateRouteTable : S → RouteTable → S * RouteTable * option goerr;
  SetMigrationState : S → Z → MigrationInfo → S * option goerr;
  GetMigrationState : S → Z → S * result (option MigrationInfo);
  DeleteMigrationState : S → Z → S * option goerr
}.

(** A read leaves the contents and returns what is there. *)
Definition reads {S A} (view : S → StoreView) (s : S) (expected : StoreView → A)
    (r : S * result A) : Prop :=
  view r.1 = view s ∧ (∀ a, r.2 = Ok a → a = expected (view s)).

(** A write that reports success has taken effect; one that reports an error
    has taken effect or not. *)
Definition writes {S} (view : S → StoreView) (s : S) (effect : StoreView → StoreView)
    (r : S * option goerr) : Prop :=
  (r.2 = None → view r.1 = effect (view s)) ∧
  (view r.1 = view s ∨ view r.1 = effect (view s)).

Definition with_state (c : ClusterInfo) (state : string) : ClusterInfo :=
  mkClusterInfo state (CI_ReplicaCount c).
Definition next_table (v : StoreView) (t : RouteTable) : RouteTable :=
  mkRouteTable (u64 (RT_Version (sv_table v) + 1)) (RT_Partitions t).
Definition registered (now : Z) (n : NodeInfo) : NodeInfo :=
  mkNodeInfo (NI_ID n) (NI_Addr n) (NI_Role n) "online" now now (NI_Partitions n).
Definition role_matches (role : string) (n : NodeInfo) : Prop := role = "" ∨ NI_Role n = role.
#[global] Instance role_matches_dec role n : Decision (role_matches role n).
Proof. unfold role_matches. apply _. Defined.

Class StoreLaws (S : Type) `{Store S} := {
  store_ok : S → Prop;
  store_view : S → StoreView;
  law_GetClusterInfo s : store_ok s →
    store_ok (GetClusterInfo s).1 ∧ reads store_view s sv_cluster (GetClusterInfo s);
  law_SetClusterState s state : store_ok s →
    store_ok (SetClusterState s state).1 ∧
    writes store_view s (λ v, sv_set_cluster v (with_state (sv_cluster v) state)) (SetClusterState s state);
  law_RegisterNode s now n : store_ok s →
    store_ok (RegisterNode s now n).1 ∧
    writes store_view s (λ v, sv_set_nodes v (<[NI_ID n := registered now n]> (sv_nodes v)))
      (RegisterNode s now n);
  law_UnregisterNode s id : store_ok s →
    store_ok (UnregisterNode s id).1 ∧
    writes store_view s (λ v, sv_set_nodes v (delete id (sv_nodes v))) (UnregisterNode s id);
  law_GetNode s id : store_ok s →
    store_ok (GetNode s id).1 ∧ reads store_view s (λ v, sv_nodes v !! id) (GetNode s id);
  law_ListNodes s role : store_ok s →
    let '(s', r) := ListNodes s role in
    store_ok s' ∧ store_view s' = store_view s ∧
    ∀ l, r = Ok l → l ≡ₚ filter (role_matches role) (map_to_list (sv_nodes (store_view s))).*2;
  law_UpdateNodeHeartbeat s id : store_ok s →
    store_ok (UpdateNodeHeartbeat s id).1 ∧
    store_view (UpdateNodeHeartbeat s id).1 = store_view s;
  law_UpdateNodeStatus s id status : store_ok s →
    store_ok (UpdateNodeStatus s id status).1 ∧
    writes store_view s (λ v, sv_set_nodes v (alter (λ n, NI_set_status n status) id (sv_nodes v)))
      (UpdateNodeStatus s id status) ∧
    ((UpdateNodeStatus s id status).2 = None → is_Some (sv_nodes (store_view s) !! id));
  law_GetRouteTable s : store_ok s →
    store_ok (GetRouteTable s).1 ∧ reads store_view s sv_table (GetRouteTable s);
  law_UpdateRouteTable s t : store_ok s →
    let '(s', t', r) := UpdateRouteTable s t in
    store_ok s' ∧ RT_Partitions t' = RT_Partitions t ∧
    (r = None → t' = next_table (store_view s) t) ∧
    writes store_view s (λ v, sv_set_table v (next_table v t)) (s', r);
  law_SetMigrationState s p m : store_ok s →
    store_ok (SetMigrationState s p m).1 ∧
    writes store_view s (λ v, sv_set_migrations v (<[decimal p := m]> (sv_migrations v))) (SetMigrationState s p m);
  law_GetMigrationState s p : store_ok s →
    store_ok (GetMigrationState s p).1 ∧
    reads store_view s (λ v, sv_migrations v !! decimal p) (GetMigrationState s p);
  law_DeleteMigrationState s p : store_ok s →
    store_ok (DeleteMigrationState s p).1 ∧
    writes store_view s (λ v, sv_set_migrations v (delete (decimal p) (sv_migrations v))) (DeleteMigrationState s p)
}.

(** ** etcd *)

Inductive etcd_value :=
  | VCluster (c : ClusterInfo)
  | VNode (n : NodeInfo)
  | VTable (t : RouteTable)
  | VMigration (m : MigrationInfo)
  | VPartition (p : RoutePartition)
  | VText (s : string).

(** [None] is an error of the call, for [etcd_Get] [Some None] a missing key. *)
Class EtcdClient (E : Type) := {
  etcd_Get : E → string → E * option (option etcd_value);
  etcd_GetPrefix : E → string → E * option (list (string * etcd_value));
  etcd_Put : E → string → etcd_value → E * bool;
  etcd_Delete : E → string → E * bool;
  etcd_Grant : E → Z → E * bool;
  etcd_Lock : E → string → E * bool;
  etcd_Unlock : E → string → E * bool
}.

Definition is_prefix (p k : string) : Prop := ∃ s, k = p +:+ s.

Class EtcdLaws (E : Type) `{EtcdClient E} := {
  etcd_kv : E → gmap string etcd_value;
  etcd_Get_kv e k : etcd_kv (etcd_Get e k).1 = etcd_kv e;
  etcd_Get_result e k r : (etcd_Get e k).2 = Some r → r = etcd_kv e !! k;
  etcd_GetPrefix_kv e p : etcd_kv (etcd_GetPrefix e p).1 = etcd_kv e;
  etcd_GetPrefix_result e p l : (etcd_GetPrefix e p).2 = Some l →
    NoDup l.*1 ∧ ∀ k v, (k, v) ∈ l ↔ etcd_kv e !! k = Some v ∧ is_prefix p k;
  etcd_Put_done e k v : (etcd_Put e k v).2 = true →
    etcd_kv (etcd_Put e k v).1 = <[k := v]> (etcd_kv e);
  etcd_Put_kv e k v : etcd_kv (etcd_Put e k v).1 = etcd_kv e ∨
    etcd_kv (etcd_Put e k v).1 = <[k := v]> (etcd_kv e);
  etcd_Delete_done e k : (etcd_Delete e k).2 = true →
    etcd_kv (etcd_Delete e k).1 = delete k (etcd_kv e);
  etcd_Delete_kv e k : etcd_kv (etcd_Delete e k).1 = etcd_kv e ∨
    etcd_kv (etcd_Delete e k).1 = delete k (etcd_kv e);
  etcd_Grant_kv e ttl : etcd_kv (etcd_Grant e ttl).1 = etcd_kv e;
  etcd_Lock_kv e k : etcd_kv (etcd_Lock e k).1 = etcd_kv e;
  etcd_Unlock_kv e k : etcd_kv (etcd_Unlock e k).1 = etcd_kv e
}.

(** ** EtcdStore *)

Definition nodePrefix : string := "/rockskv/nodes/".
Definition heartbeatPrefix : string := "/rockskv/heartbeats/".
Definition routeTableKey : string := "/rockskv/route_table".
Definition partitionPrefix : string := "/rockskv/partitions/".
Definition migrationPrefix : string := "/rockskv/migrations/".
Definition clusterInfoKey : string := "/rockskv/cluster_info".
Definition routeTableLockKey : string := "/rockskv/locks/route-table".
Definition heartbeatLeaseTTL : Z := 15.
Definition defaultReplicaCount : Z := 2.

Definition default_cluster : ClusterInfo := mkClusterInfo ClusterStatePending defaultReplicaCount.

Section EtcdStore.
  Context {E : Type} `{EtcdClient E}.

Definition EtcdStore_GetClusterInfo (s : E) : E * result ClusterInfo :=
  let '(s, resp) := etcd_Get s clusterInfoKey in
  (s, match resp with
      | None => Error (Errorf "failed to get cluster info")
      | Some None => Ok default_cluster
      | Some (Some (VCluster info)) => Ok info
      | Some (Some _) => Error (Errorf "failed to unmarshal cluster info")
      end).

Definition EtcdStore_SetClusterState (s : E) (state : string) : E * option goerr :=
  let '(s, r) := EtcdStore_GetClusterInfo s in
  match r with
  | Error err => (s, Some err)
  | Ok info =>
      let '(s, ok) := etcd_Put s clusterInfoKey (VCluster (with_state info state)) in
      (s, if ok : bool then None else Some (Errorf "failed to put cluster info"))
  end.

Definition EtcdStore_RegisterNode (s : E) (now : Z) (node : NodeInfo) : E * option goerr :=
  let node := mkNodeInfo (NI_ID node) (NI_Addr node) (NI_Role node) "online" now now (NI_Partitions node) in
  let '(s, ok) := etcd_Put s (nodePrefix +:+ NI_ID node) (VNode node) in
  (s, if ok : bool then None else Some (Errorf "failed to register node")).

Definition EtcdStore_UnregisterNode (s : E) (nodeID : string) : E * option goerr :=
  let '(s, ok) := etcd_Delete s (nodePrefix +:+ nodeID) in
  (s, if ok : bool then None else Some (Errorf "failed to unregister node")).

Definition EtcdStore_GetNode (s : E) (nodeID : string) : E * result (option NodeInfo) :=
  let '(s, resp) := etcd_Get s (nodePrefix +:+ nodeID) in
  (s, match resp with
      | None => Error (Errorf "failed to get node")
      | Some None => Ok None
      | Some (Some (VNode node)) => Ok (Some node)
      | Some (Some _) => Error (Errorf "failed to unmarshal node")
      end).

(** The loop over [resp.Kvs]: values that do not unmarshal are skipped. *)
Definition list_nodes (role : string) (kvs : list (string * etcd_value)) : list NodeInfo :=
  omap (λ kv : string * etcd_value, match kv.2 with
    | VNode node => if decide (role_matches role node) then Some node else None
    | _ => None
    end) kvs.

Definition EtcdStore_ListNodes (s : E) (role : string) : E * result (list NodeInfo) :=
  let '(s, resp) := etcd_GetPrefix s nodePrefix in
  (s, match resp with
      | None => Error (Errorf "failed to list nodes")
      | Some kvs => Ok (list_nodes role kvs)
      end).

Definition EtcdStore_UpdateNodeHeartbeat (s : E) (nodeID : string) : E * option goerr :=
  let '(s, r) := EtcdStore_GetNode s nodeID in
  match r with
  | Error err => (s, Some err)
  | Ok None => (s, Some (Errorf "node not found"))
  | Ok (Some _) =>
      let '(s, ok) := etcd_Grant s heartbeatLeaseTTL in
      if negb ok then (s, Some (Errorf "failed to create heartbeat lease")) else
      let '(s, ok) := etcd_Put s (heartbeatPrefix +:+ nodeID) (VText "timestamp") in
      (s, if ok : bool then None else Some (Errorf "failed to update heartbeat"))
  end.

Definition EtcdStore_UpdateNodeStatus (s : E) (nodeID status : string) : E * option goerr :=
  let '(s, r) := EtcdStore_GetNode s nodeID in
  match r with
  | Error err => (s, Some err)
  | Ok None => (s, Some (Errorf "node not found"))
  | Ok (Some node) =>
      let '(s, ok) := etcd_Put s (nodePrefix +:+ nodeID) (VNode (NI_set_status node status)) in
      (s, if ok : bool then None else Some (Errorf "failed to update node status"))
  end.

Definition EtcdStore_GetRouteTable (s : E) : E * result RouteTable :=
  let '(s, resp) := etcd_Get s routeTableKey in
  (s, match resp with
      | None => Error (Errorf "failed to get route table")
      | Some None => Ok NewRouteTable
      | Some (Some (VTable table)) => Ok table
      | Some (Some _) => Error (Errorf "failed to unmarshal route table")
      end).

(** The deferred [Unlock] runs on every return after the lock is taken; its
    error is only logged. *)
Definition EtcdStore_UpdateRouteTable (s : E) (table : RouteTable) : E * RouteTable * option goerr :=
  let '(s, ok) := etcd_Lock s routeTableLockKey in
  if negb ok then (s, table, Some (Errorf "failed to acquire route table lock")) else
  let unlock (s : E) := (etcd_Unlock s routeTableLockKey).1 in
  let '(s, r) := EtcdStore_GetRouteTable s in
  match r with
  | Error err => (unlock s, table, Some err)
  | Ok current =>
      let table := mkRouteTable (u64 (RT_Version current + 1)) (RT_Partitions table) in
      let '(s, ok) := etcd_Put s routeTableKey (VTable table) in
      (unlock s, table, if ok : bool then None else Some (Errorf "failed to put route table"))
  end.

Definition EtcdStore_SetMigrationState (s : E) (partitionID : Z) (state : MigrationInfo) :
    E * option goerr :=
  let '(s, ok) := etcd_Put s (migrationPrefix +:+ decimal partitionID) (VMigration state) in
  (s, if ok : bool then None else Some (Errorf "failed to set migration state")).

Definition EtcdStore_GetMigrationState (s : E) (partitionID : Z) : E * result (option MigrationInfo) :=
  let '(s, resp) := etcd_Get s (migrationPrefix +:+ decimal partitionID) in
  (s, match resp with
      | None => Error (Errorf "failed to get migration state")
      | Some None => Ok None
      | Some (Some (VMigration state)) => Ok (Some state)
      | Some (Some _) => Error (Errorf "failed to unmarshal migration state")
      end).

Definition EtcdStore_DeleteMigrationState (s : E) (partitionID : Z) : E * option goerr :=
  let '(s, ok) := etcd_Delete s (migrationPrefix +:+ decimal partitionID) in
  (s, if ok : bool then None else Some (Errorf "failed to delete migration state")).

(** The rows under their own keys, which nothing in the program reads or writes. *)
Definition EtcdStore_GetPartition (s : E) (partitionID : Z) : E * result (option RoutePartition) :=
  let '(s, resp) := etcd_Get s (partitionPrefix +:+ decimal partitionID) in
  (s, match resp with
      | None => Error (Errorf "failed to get partition")
      | Some None => Ok None
      | Some (Some (VPartition partition)) => Ok (Some partition)
      | Some (Some _) => Error (Errorf "failed to unmarshal partition")
      end).

Definition EtcdStore_UpdatePartition (s : E) (partition : RoutePartition) : E * option goerr :=
  let '(s, ok) := etcd_Put s (partitionPrefix +:+ decimal (RP_ID partition)) (VPartition partition) in
  (s, if ok : bool then None else Some (Errorf "failed to update partition")).

#[global] Instance EtcdStore_Store : Store E := {
  GetClusterInfo := EtcdStore_GetClusterInfo;
  SetClusterState := EtcdStore_SetClusterState;
  RegisterNode := EtcdStore_RegisterNode;
  UnregisterNode := EtcdStore_UnregisterNode;
  GetNode := EtcdStore_GetNode;
  ListNodes := EtcdStore_ListNodes;
  UpdateNodeHeartbeat := EtcdStore_UpdateNodeHeartbeat;
  UpdateNodeStatus := EtcdStore_UpdateNodeStatus;
  GetRouteTable := EtcdStore_GetRouteTable;
  UpdateRouteTable := EtcdStore_UpdateRouteTable;
  SetMigrationState := EtcdStore_SetMigrationState;
  GetMigrationState := EtcdStore_GetMigrationState;
  DeleteMigrationState := EtcdStore_DeleteMigrationState
}.

End EtcdStore.

(** ** EtcdStore has the laws *)

Fixpoint strip (p k : string) : option string :=
  match p, k with
  | EmptyString, _ => Some k
  | String a p, String b k => if Ascii.eqb a b then strip p k else None
  | String _ _, EmptyString => None
  end.

Lemma strip_Some p k s : strip p k = Some s ↔ k = p +:+ s.
Proof.
  revert k. induction p as [|a p IH]; intros k.
  { change (Some k = Some s ↔ k = s). naive_solver. }
  destruct k as [|b k]; cbn [strip]; [split; discriminate|].
  change (String a p +:+ s) with (String a (p +:+ s)).
  destruct (Ascii.eqb_spec a b) as [->|Hne]; [rewrite IH|]; naive_solver.
Qed.

(** The keys under a prefix, decoded by [f]. *)
Section SubView.
  Context {A : Type} (pre : string) (f : etcd_value → option A).

Definition sub_entry (kv : string * etcd_value) : option (string * A) :=
  s ← strip pre kv.1; a ← f kv.2; Some (s, a).

Definition sub_view (m : gmap string etcd_value) : gmap string A :=
  list_to_map (omap sub_entry (map_to_list m)).

Lemma sub_entry_Some k v s a : sub_entry (k, v) = Some (s, a) ↔ k = pre +:+ s ∧ f v = Some a.
Proof.
  unfold sub_entry. cbn [fst snd]. split.
  - intros (s' & ->%strip_Some & (a' & Hf & [= -> ->])%bind_Some)%bind_Some. done.
  - intros [-> Hf]. rewrite (proj2 (strip_Some pre _ s) eq_refl). simpl. by rewrite Hf.
Qed.

Lemma elem_of_sub_entries m s a :
  (s, a) ∈ omap sub_entry (map_to_list m) ↔ (m !! (pre +:+ s)) ≫= f = Some a.
Proof.
  rewrite list_elem_of_omap. split.
  - intros ([k v] & Hin%elem_of_map_to_list & [-> Hf]%sub_entry_Some). by rewrite Hin.
  - intros (v & Hv & Hf)%bind_Some. exists (pre +:+ s, v).
    by rewrite elem_of_map_to_list, sub_entry_Some.
Qed.

Lemma lookup_sub_view m s : sub_view m !! s = (m !! (pre +:+ s)) ≫= f.
Proof.
  apply option_eq. intros a. rewrite <- elem_of_sub_entries. split.
  - apply elem_of_list_to_map_2.
  - intros Hin. apply elem_of_list_to_map_1'; [|done]. intros b Hb.
    apply elem_of_sub_entries in Hin, Hb. congruence.
Qed.

Lemma sub_view_insert m s v a :
  f v = Some a → sub_view (<[pre +:+ s := v]> m) = <[s := a]> (sub_view m).
Proof.
  intros Hf. apply map_eq. intros t. rewrite lookup_sub_view, !lookup_insert, lookup_sub_view.
  destruct (decide (s = t)) as [->|Hne].
  - by rewrite decide_True.
  - rewrite decide_False; [done|]. intros Heq. apply Hne. by apply (inj (String.append pre)).
Qed.

Lemma sub_view_delete m s : sub_view (delete (pre +:+ s) m) = delete s (sub_view m).
Proof.
  apply map_eq. intros t. rewrite lookup_sub_view, !lookup_delete, lookup_sub_view.
  destruct (decide (s = t)) as [->|Hne].
  - by rewrite decide_True.
  - rewrite decide_False; [done|]. intros Heq. apply Hne. by apply (inj (String.append pre)).
Qed.

Lemma sub_view_other_insert m k v : strip pre k = None → sub_view (<[k := v]> m) = sub_view m.
Proof.
  intros Hk. apply map_eq. intros t. rewrite !lookup_sub_view, lookup_insert_ne; [done|].
  intros ->. rewrite (proj2 (strip_Some pre _ t) eq_refl) in Hk. done.
Qed.

Lemma sub_view_other_delete m k : strip pre k = None → sub_view (delete k m) = sub_view m.
Proof.
  intros Hk. apply map_eq. intros t. rewrite !lookup_sub_view, lookup_delete_ne; [done|].
  intros ->. rewrite (proj2 (strip_Some pre _ t) eq_refl) in Hk. done.
Qed.

End SubView.

Definition as_node (v : etcd_value) : option NodeInfo := match v with VNode n => Some n | _ => None end.
Definition as_migration (v : etcd_value) : option MigrationInfo :=
  match v with VMigration m => Some m | _ => None end.

Definition kv_view (m : gmap string etcd_value) : StoreView :=
  mkStoreView
    (match m !! clusterInfoKey with Some (VCluster c) => c | _ => default_cluster end)
    (sub_view nodePrefix as_node m)
    (match m !! routeTableKey with Some (VTable t) => t | _ => NewRouteTable end)
    (sub_view migrationPrefix as_migration m).

(** Every key the store reads holds a value that unmarshals. *)
Record kv_ok (m : gmap string etcd_value) : Prop := {
  ko_cluster v : m !! clusterInfoKey = Some v → ∃ c, v = VCluster c;
  ko_table v : m !! routeTableKey = Some v → ∃ t, v = VTable t;
  ko_nodes id v : m !! (nodePrefix +:+ id) = Some v → ∃ n, v = VNode n;
  ko_migrations id v : m !! (migrationPrefix +:+ id) = Some v → ∃ i, v = VMigration i
}.

(** A key and value the store may write. *)
Inductive well_typed : string → etcd_value → Prop :=
  | wt_cluster c : well_typed clusterInfoKey (VCluster c)
  | wt_table t : well_typed routeTableKey (VTable t)
  | wt_node id n : well_typed (nodePrefix +:+ id) (VNode n)
  | wt_migration id i : well_typed (migrationPrefix +:+ id) (VMigration i)
  | wt_heartbeat id s : well_typed (heartbeatPrefix +:+ id) (VText s).

Lemma kv_ok_insert m k v : well_typed k v → kv_ok m → kv_ok (<[k := v]> m).
Proof.
  intros Hwt [Hc Ht Hn Hm].
  split; intros *; rewrite lookup_insert; (case_decide as Hk; [|eauto]);
    intros [= <-]; destruct Hwt; simplify_eq/=; eauto.
Qed.

Lemma kv_ok_delete m k : kv_ok m → kv_ok (delete k m).
Proof.
  intros [Hc Ht Hn Hm]. split; intros *; rewrite lookup_delete; case_decide; naive_solver.
Qed.

(** How each write shows in the view. *)
Lemma kv_view_cluster m c : kv_view (<[clusterInfoKey := VCluster c]> m) = sv_set_cluster (kv_view m) c.
Proof.
  unfold kv_view, sv_set_cluster. simpl.
  by rewrite lookup_insert_eq, lookup_insert_ne, !sub_view_other_insert.
Qed.

Lemma kv_view_table m t : kv_view (<[routeTableKey := VTable t]> m) = sv_set_table (kv_view m) t.
Proof.
  unfold kv_view, sv_set_table. simpl.
  by rewrite lookup_insert_eq, lookup_insert_ne, !sub_view_other_insert.
Qed.

Lemma kv_view_node m id n :
  kv_view (<[nodePrefix +:+ id := VNode n]> m) = sv_set_nodes (kv_view m) (<[id := n]> (sv_nodes (kv_view m))).
Proof.
  unfold kv_view, sv_set_nodes. cbn [sv_cluster sv_nodes sv_table sv_migrations].
  by rewrite !lookup_insert_ne, (sub_view_insert nodePrefix as_node m id (VNode n) n), sub_view_other_insert.
Qed.

Lemma kv_view_node_delete m id :
  kv_view (delete (nodePrefix +:+ id) m) = sv_set_nodes (kv_view m) (delete id (sv_nodes (kv_view m))).
Proof.
  unfold kv_view, sv_set_nodes. cbn [sv_cluster sv_nodes sv_table sv_migrations].
  by rewrite !lookup_delete_ne, sub_view_delete, sub_view_other_delete.
Qed.

Lemma kv_view_migration m id i :
  kv_view (<[migrationPrefix +:+ id := VMigration i]> m) =
  sv_set_migrations (kv_view m) (<[id := i]> (sv_migrations (kv_view m))).
Proof.
  unfold kv_view, sv_set_migrations. cbn [sv_cluster sv_nodes sv_table sv_migrations].
  rewrite !lookup_insert_ne, (sub_view_other_insert nodePrefix) by done.
  by rewrite (sub_view_insert migrationPrefix as_migration m id (VMigration i) i).
Qed.

Lemma kv_view_migration_delete m id :
  kv_view (delete (migrationPrefix +:+ id) m) =
  sv_set_migrations (kv_view m) (delete id (sv_migrations (kv_view m))).
Proof.
  unfold kv_view, sv_set_migrations. cbn [sv_cluster sv_nodes sv_table sv_migrations].
  by rewrite !lookup_delete_ne, (sub_view_other_delete nodePrefix), sub_view_delete.
Qed.

Lemma kv_view_heartbeat m id s : kv_view (<[heartbeatPrefix +:+ id := VText s]> m) = kv_view m.
Proof.
  unfold kv_view. by rewrite !lookup_insert_ne, !sub_view_other_insert.
Qed.

Lemma alter_present `{Countable K} {A} (f : A → A) (m : gmap K A) (i : K) x :
  m !! i = Some x → alter f i m = <[i := f x]> m.
Proof.
  intros Hx. apply map_eq. intros j. rewrite lookup_alter, lookup_insert. case_decide; subst; [|done].
  by rewrite Hx.
Qed.

Section EtcdStoreLaws.
  Context {E : Type} `{EtcdLaws E}.

Definition es_ok (s : E) : Prop := kv_ok (etcd_kv s).
Definition es_view (s : E) : StoreView := kv_view (etcd_kv s).

(** The calls that do not write: the contents stay. *)
Ltac etcd_get s k :=
  let Hk := fresh "Hkv" in let Hr := fresh "Hres" in
  pose proof (etcd_Get_kv s k) as Hk; pose proof (etcd_Get_result s k) as Hr;
  destruct (etcd_Get s k) as [? [?|]]; cbn [fst snd] in *;
  [specialize (Hr _ eq_refl); subst|clear Hr].

(** A put of a well-typed value whose effect on the view is [Hview]. *)
Lemma put_writes (s : E) (k : string) (v : etcd_value) (effect : StoreView → StoreView) (err : goerr) :
  es_ok s → well_typed k v →
  kv_view (<[k := v]> (etcd_kv s)) = effect (es_view s) →
  let r := (let '(s, ok) := etcd_Put s k v in (s, if ok : bool then None else Some err)) in
  es_ok r.1 ∧ writes es_view s effect r.
Proof.
  intros Hok Hwt Hv. pose proof (etcd_Put_done s k v) as Hd. pose proof (etcd_Put_kv s k v) as He.
  destruct (etcd_Put s k v) as [s' ok]. cbn [fst snd] in *. unfold es_ok, writes, es_view in *. cbn [fst snd].
  split; [|split].
  - destruct He as [->| ->]; [done|]. by apply kv_ok_insert.
  - destruct ok; [|done]. intros _. by rewrite Hd.
  - destruct He as [->| ->]; auto.
Qed.

Lemma delete_writes (s : E) (k : string) (effect : StoreView → StoreView) (err : goerr) :
  es_ok s → kv_view (delete k (etcd_kv s)) = effect (es_view s) →
  let r := (let '(s, ok) := etcd_Delete s k in (s, if ok : bool then None else Some err)) in
  es_ok r.1 ∧ writes es_view s effect r.
Proof.
  intros Hok Hv. pose proof (etcd_Delete_done s k) as Hd. pose proof (etcd_Delete_kv s k) as He.
  destruct (etcd_Delete s k) as [s' ok]. cbn [fst snd] in *. unfold es_ok, writes, es_view in *. cbn [fst snd].
  split; [|split].
  - destruct He as [->| ->]; [done|]. by apply kv_ok_delete.
  - destruct ok; [|done]. intros _. by rewrite Hd.
  - destruct He as [->| ->]; auto.
Qed.

(** A write that stops before the put leaves the contents. *)
Lemma writes_refused (s s' : E) effect (err : goerr) :
  etcd_kv s' = etcd_kv s → es_ok s → es_ok s' ∧ writes es_view s effect (s', Some err).
Proof.
  intros Hk Hok. unfold es_ok, writes, es_view in *. cbn [fst snd]. rewrite Hk.
  split; [done|]. split; [done|by left].
Qed.

(** Writing from a state with the same contents. *)
Lemma writes_same (s s' : E) effect r :
  etcd_kv s' = etcd_kv s → writes es_view s' effect r → writes es_view s effect r.
Proof. unfold writes, es_view. by intros ->. Qed.

Lemma GetClusterInfo_law s :
  es_ok s → es_ok (EtcdStore_GetClusterInfo s).1 ∧
  reads es_view s sv_cluster (EtcdStore_GetClusterInfo s).
Proof.
  intros Hok. unfold EtcdStore_GetClusterInfo, reads, es_ok, es_view.
  etcd_get s clusterInfoKey; cbn [fst snd]; rewrite Hkv; [|done]. split_and!; [done..|].
  intros c. unfold kv_view. cbn [sv_cluster]. case_match; [case_match|]; congruence.
Qed.

Lemma GetNode_law s id :
  es_ok s → es_ok (EtcdStore_GetNode s id).1 ∧
  reads es_view s (λ v, sv_nodes v !! id) (EtcdStore_GetNode s id).
Proof.
  intros Hok. unfold EtcdStore_GetNode, reads, es_ok, es_view.
  etcd_get s (nodePrefix +:+ id); cbn [fst snd]; rewrite Hkv; [|done]. split_and!; [done..|].
  intros n. unfold kv_view. cbn [sv_nodes]. rewrite lookup_sub_view.
  destruct (etcd_kv s !! _) as [[]|]; simpl; congruence.
Qed.

Lemma GetRouteTable_law s :
  es_ok s → es_ok (EtcdStore_GetRouteTable s).1 ∧
  reads es_view s sv_table (EtcdStore_GetRouteTable s).
Proof.
  intros Hok. unfold EtcdStore_GetRouteTable, reads, es_ok, es_view.
  etcd_get s routeTableKey; cbn [fst snd]; rewrite Hkv; [|done]. split_and!; [done..|].
  intros t. unfold kv_view. cbn [sv_table]. destruct (etcd_kv s !! _) as [[]|]; congruence.
Qed.

Lemma GetMigrationState_law s p :
  es_ok s → es_ok (EtcdStore_GetMigrationState s p).1 ∧
  reads es_view s (λ v, sv_migrations v !! decimal p) (EtcdStore_GetMigrationState s p).
Proof.
  intros Hok. unfold EtcdStore_GetMigrationState, reads, es_ok, es_view.
  etcd_get s (migrationPrefix +:+ decimal p); cbn [fst snd]; rewrite Hkv; [|done]. split_and!; [done..|].
  intros i. unfold kv_view. cbn [sv_migrations]. rewrite lookup_sub_view.
  destruct (etcd_kv s !! _) as [[]|]; simpl; congruence.
Qed.

Lemma SetClusterState_law s state :
  es_ok s → es_ok (EtcdStore_SetClusterState s state).1 ∧
  writes es_view s (λ v, sv_set_cluster v (with_state (sv_cluster v) state))
    (EtcdStore_SetClusterState s state).
Proof.
  intros Hok. unfold EtcdStore_SetClusterState.
  destruct (GetClusterInfo_law s Hok) as [Hok' [Hv Hr]].
  assert (etcd_kv (EtcdStore_GetClusterInfo s).1 = etcd_kv s) as Hkv.
  { unfold EtcdStore_GetClusterInfo. pose proof (etcd_Get_kv s clusterInfoKey). by destruct (etcd_Get _ _). }
  destruct (EtcdStore_GetClusterInfo s) as [s' [info|err]]; cbn [fst snd] in *; [|by apply writes_refused].
  specialize (Hr info eq_refl) as ->.
  edestruct (put_writes s' clusterInfoKey (VCluster (with_state (sv_cluster (es_view s)) state))
    (λ v, sv_set_cluster v (with_state (sv_cluster v) state)) (Errorf "failed to put cluster info"))
    as [H1 H2]; [done|constructor| |].
  { by rewrite kv_view_cluster, <- Hv. }
  split; [done|]. by apply (writes_same s s').
Qed.

Lemma GetNode_kv (s : E) id : etcd_kv (EtcdStore_GetNode s id).1 = etcd_kv s.
Proof. unfold EtcdStore_GetNode. pose proof (etcd_Get_kv s (nodePrefix +:+ id)). by destruct (etcd_Get _ _). Qed.

Lemma UpdateNodeHeartbeat_law s id :
  es_ok s → es_ok (EtcdStore_UpdateNodeHeartbeat s id).1 ∧
  es_view (EtcdStore_UpdateNodeHeartbeat s id).1 = es_view s.
Proof.
  intros Hok. unfold EtcdStore_UpdateNodeHeartbeat. pose proof (GetNode_kv s id) as Hkv.
  assert (∀ s' : E, etcd_kv s' = etcd_kv s → es_ok s' ∧ es_view s' = es_view s) as Hsame.
  { intros s' Heq. unfold es_ok, es_view. by rewrite Heq. }
  destruct (EtcdStore_GetNode s id) as [s1 [[n|]|err]]; cbn [fst snd] in *; [|by apply Hsame..].
  pose proof (etcd_Grant_kv s1 heartbeatLeaseTTL) as Hg.
  destruct (etcd_Grant s1 heartbeatLeaseTTL) as [s2 ok]. cbn [fst] in Hg.
  destruct ok; cbn [negb]; [|apply Hsame; cbn [fst]; congruence].
  pose proof (etcd_Put_kv s2 (heartbeatPrefix +:+ id) (VText "timestamp")) as Hp.
  destruct (etcd_Put _ _ _) as [s3 ok]. cbn [fst] in *. unfold es_ok, es_view in *.
  rewrite Hg, Hkv in Hp. destruct Hp as [->| ->]; [done|].
  split; [|apply kv_view_heartbeat]. apply kv_ok_insert; [constructor|done].
Qed.

Lemma UpdateNodeStatus_law s id status :
  es_ok s → es_ok (EtcdStore_UpdateNodeStatus s id status).1 ∧
  writes es_view s (λ v, sv_set_nodes v (alter (λ n, NI_set_status n status) id (sv_nodes v)))
    (EtcdStore_UpdateNodeStatus s id status) ∧
  ((EtcdStore_UpdateNodeStatus s id status).2 = None → is_Some (sv_nodes (es_view s) !! id)).
Proof.
  intros Hok. unfold EtcdStore_UpdateNodeStatus. pose proof (GetNode_kv s id) as Hkv.
  destruct (GetNode_law s id Hok) as [Hok' [Hv Hr]].
  assert (∀ (s' : E) (err : goerr) effect, etcd_kv s' = etcd_kv s →
    es_ok s' ∧ writes es_view s effect (s', Some err) ∧
    (Some err = None → is_Some (sv_nodes (es_view s) !! id))) as Href.
  { intros s' err effect Heq. destruct (writes_refused s s' effect err Heq Hok). split_and!; done. }
  destruct (EtcdStore_GetNode s id) as [s1 [[n|]|err]]; cbn [fst snd] in *;
    [|by apply Href..].
  specialize (Hr _ eq_refl). symmetry in Hr.
  edestruct (put_writes s1 (nodePrefix +:+ id) (VNode (NI_set_status n status))
    (λ v, sv_set_nodes v (alter (λ n, NI_set_status n status) id (sv_nodes v)))
    (Errorf "failed to update node status")) as [H1 H2]; [done|constructor| |].
  { rewrite kv_view_node. fold (es_view s1). rewrite Hv. f_equal. by rewrite (alter_present _ _ _ _ Hr). }
  split_and!; [done|by apply (writes_same s s1)|eauto].
Qed.

Lemma UpdateRouteTable_law s t :
  es_ok s →
  let '(s', t', r) := EtcdStore_UpdateRouteTable s t in
  es_ok s' ∧ RT_Partitions t' = RT_Partitions t ∧ (r = None → t' = next_table (es_view s) t) ∧
  writes es_view s (λ v, sv_set_table v (next_table v t)) (s', r).
Proof.
  intros Hok. unfold EtcdStore_UpdateRouteTable.
  pose proof (etcd_Lock_kv s routeTableLockKey) as Hl.
  destruct (etcd_Lock s routeTableLockKey) as [s1 ok]. cbn [fst] in Hl.
  assert (es_ok s1) as Hok1 by (unfold es_ok in *; by rewrite Hl).
  destruct ok; cbn [negb].
  2: { split_and!; [done|done|done|]. by apply writes_refused. }
  destruct (GetRouteTable_law s1 Hok1) as [Hok2 [Hv Hr]].
  assert (etcd_kv (EtcdStore_GetRouteTable s1).1 = etcd_kv s) as Hkv.
  { rewrite <- Hl. unfold EtcdStore_GetRouteTable. pose proof (etcd_Get_kv s1 routeTableKey).
    by destruct (etcd_Get _ _). }
  destruct (EtcdStore_GetRouteTable s1) as [s2 [cur|err]]; cbn [fst snd] in *.
  2: { pose proof (etcd_Unlock_kv s2 routeTableLockKey) as Hu.
       edestruct (writes_refused s (etcd_Unlock s2 routeTableLockKey).1) as [? ?]; [congruence|done|].
       split_and!; eauto. done. }
  assert (cur = sv_table (es_view s)) as -> by (rewrite (Hr cur eq_refl); unfold es_view; by rewrite Hl).
  fold (next_table (es_view s) t).
  edestruct (put_writes s2 routeTableKey (VTable (next_table (es_view s) t))
    (λ v, sv_set_table v (next_table v t)) (Errorf "failed to put route table"))
    as [H1 H2]; [done|constructor| |].
  { rewrite kv_view_table. unfold es_view. by rewrite Hkv. }
  apply (writes_same s s2) in H2; [|done].
  destruct (etcd_Put s2 routeTableKey _) as [s3 ok].
  pose proof (etcd_Unlock_kv s3 routeTableLockKey) as Hu.
  unfold es_ok, writes, es_view in *. cbn [fst snd] in *. rewrite Hu. split_and!; try done; apply H2.
Qed.

(** The listing is the values of the nodes, filtered by role. *)
Lemma list_nodes_perm role m kvs :
  kv_ok m → NoDup kvs.*1 → (∀ k v, (k, v) ∈ kvs ↔ m !! k = Some v ∧ is_prefix nodePrefix k) →
  list_nodes role kvs ≡ₚ filter (role_matches role) (map_to_list (sub_view nodePrefix as_node m)).*2.
Proof.
  intros Hok Hnd Hkvs.
  assert (omap (sub_entry nodePrefix as_node) kvs ≡ₚ map_to_list (sub_view nodePrefix as_node m)) as Hp.
  { apply NoDup_Permutation.
    - clear -Hnd. induction kvs as [|[k v] kvs IH]; [constructor|]. cbn [omap list_omap].
      apply NoDup_cons in Hnd as [Hk Hnd]. specialize (IH Hnd).
      destruct (sub_entry nodePrefix as_node (k, v)) as [[s n]|] eqn:E; [|done].
      constructor; [|done]. intros ([k' v'] & Hin & [-> _]%sub_entry_Some)%list_elem_of_omap. apply Hk.
      apply sub_entry_Some in E as [-> _]. apply list_elem_of_fmap. by exists (nodePrefix +:+ s, v').
    - apply NoDup_map_to_list.
    - intros [s n]. rewrite elem_of_map_to_list, lookup_sub_view, list_elem_of_omap. split.
      + intros ([k v] & Hin%Hkvs & [-> Ha]%sub_entry_Some). by destruct Hin as [-> _].
      + intros (v & Hv & Ha)%bind_Some. exists (nodePrefix +:+ s, v).
        rewrite Hkvs, sub_entry_Some. unfold is_prefix. eauto. }
  rewrite <- Hp. clear Hp.
  assert (∀ k v, (k, v) ∈ kvs → ∃ s n, k = nodePrefix +:+ s ∧ v = VNode n) as Hty.
  { intros k v [Hv [s ->]]%Hkvs. destruct (ko_nodes _ Hok s v Hv) as [n ->]. eauto. }
  clear -Hty. induction kvs as [|[k v] kvs IH]; [done|].
  destruct (Hty k v (list_elem_of_here _ _)) as (s & n & -> & ->).
  unfold list_nodes. cbn [omap list_omap snd]. fold (list_nodes role kvs).
  rewrite (proj2 (sub_entry_Some nodePrefix as_node _ (VNode n) s n)) by done.
  rewrite fmap_cons, filter_cons. cbn [snd].
  assert (∀ k v, (k, v) ∈ kvs → ∃ s n, k = nodePrefix +:+ s ∧ v = VNode n) as Hty'
    by (intros; apply Hty; by right).
  specialize (IH Hty'). case_decide; [by constructor|done].
Qed.

Lemma ListNodes_law s role :
  es_ok s →
  let '(s', r) := EtcdStore_ListNodes s role in
  es_ok s' ∧ es_view s' = es_view s ∧
  ∀ l, r = Ok l → l ≡ₚ filter (role_matches role) (map_to_list (sv_nodes (es_view s))).*2.
Proof.
  intros Hok. unfold EtcdStore_ListNodes.
  pose proof (etcd_GetPrefix_kv s nodePrefix) as Hkv.
  pose proof (etcd_GetPrefix_result s nodePrefix) as Hr.
  destruct (etcd_GetPrefix s nodePrefix) as [s' [kvs|]]; cbn [fst snd] in *;
    unfold es_ok, es_view; rewrite Hkv; [|done].
  destruct (Hr kvs eq_refl) as [Hnd Hin]. split_and!; [done..|]. intros l [= <-].
  by apply list_nodes_perm.
Qed.

#[global] Instance EtcdStore_StoreLaws : StoreLaws E.
Proof.
  refine {|
    store_ok := es_ok;
    store_view := es_view;
    law_GetClusterInfo := GetClusterInfo_law;
    law_SetClusterState := SetClusterState_law;
    law_GetNode := GetNode_law;
    law_ListNodes := ListNodes_law;
    law_UpdateNodeHeartbeat := UpdateNodeHeartbeat_law;
    law_UpdateNodeStatus := UpdateNodeStatus_law;
    law_GetRouteTable := GetRouteTable_law;
    law_UpdateRouteTable := UpdateRouteTable_law;
    law_GetMigrationState := GetMigrationState_law
  |}.
  - intros s now n Hok. apply put_writes; [done|apply wt_node|apply kv_view_node].
  - intros s id Hok. apply delete_writes; [done|apply kv_view_node_delete].
  - intros s p m Hok. apply put_writes; [done|apply wt_migration|apply kv_view_migration].
  - intros s p Hok. apply delete_writes; [done|apply kv_view_migration_delete].
Defined.

End EtcdStoreLaws.

(** ** An etcd to run

    Each call consumes one fault: [FNone] works, [FFail] fails without effect
    and [FLost] takes effect but reports an error. *)

Inductive etcd_fault := FNone | FFail | FLost.

Record MemEtcd := mkMemEtcd {
  me_kv : gmap string etcd_value;
  me_faults : list etcd_fault
}.

Definition me_next (e : MemEtcd) : etcd_fault * MemEtcd :=
  match me_faults e with
  | [] => (FNone, e)
  | f :: fs => (f, mkMemEtcd (me_kv e) fs)
  end.

Definition me_read {A} (e : MemEtcd) (a : A) : MemEtcd * option A :=
  let '(f, e') := me_next e in (e', match f with FNone => Some a | _ => None end).

Definition me_write (e : MemEtcd) (m : gmap string etcd_value) : MemEtcd * bool :=
  let '(f, e') := me_next e in
  match f with
  | FNone => (mkMemEtcd m (me_faults e'), true)
  | FFail => (e', false)
  | FLost => (mkMemEtcd m (me_faults e'), false)
  end.

#[global] Instance is_prefix_dec p k : Decision (is_prefix p k).
Proof.
  destruct (strip p k) as [s|] eqn:E.
  - left. exists s. by apply strip_Some.
  - right. intros [s ->]. rewrite (proj2 (strip_Some p _ s) eq_refl) in E. done.
Defined.

Definition key_le (a b : string * etcd_value) : Prop := bytes_le (str_bytes a.1) (str_bytes b.1).
#[global] Instance key_le_dec : RelDecision key_le.
Proof. intros a b. unfold key_le. apply _. Defined.

Definition me_list (m : gmap string etcd_value) (p : string) : list (string * etcd_value) :=
  merge_sort key_le
    (filter (λ kv : string * etcd_value, is_prefix p kv.1) (map_to_list m)).

#[global] Instance MemEtcd_client : EtcdClient MemEtcd := {
  etcd_Get e k := me_read e (me_kv e !! k);
  etcd_GetPrefix e p := me_read e (me_list (me_kv e) p);
  etcd_Put e k v := me_write e (<[k := v]> (me_kv e));
  etcd_Delete e k := me_write e (delete k (me_kv e));
  etcd_Grant e _ := me_write e (me_kv e);
  etcd_Lock e _ := me_write e (me_kv e);
  etcd_Unlock e _ := me_write e (me_kv e)
}.

Lemma me_next_kv e : me_kv (me_next e).2 = me_kv e.
Proof. unfold me_next. by destruct (me_faults e). Qed.

Lemma me_read_spec {A} e (a : A) :
  me_kv (me_read e a).1 = me_kv e ∧ ∀ r, (me_read e a).2 = Some r → r = a.
Proof.
  unfold me_read. pose proof (me_next_kv e). destruct (me_next e) as [f e']. simpl in *.
  split; [done|]. destruct f; naive_solver.
Qed.

Lemma me_write_spec e m :
  ((me_write e m).2 = true → me_kv (me_write e m).1 = m) ∧
  (me_kv (me_write e m).1 = me_kv e ∨ me_kv (me_write e m).1 = m).
Proof.
  unfold me_write. pose proof (me_next_kv e). destruct (me_next e) as [f e']. simpl in *.
  destruct f; simpl; auto. split; [done|]. by left.
Qed.

#[global] Instance MemEtcd_laws : EtcdLaws MemEtcd.
Proof.
  refine {| etcd_kv := me_kv |}; cbn [etcd_Get etcd_GetPrefix etcd_Put etcd_Delete etcd_Grant etcd_Lock etcd_Unlock MemEtcd_client].
  - intros. apply me_read_spec.
  - intros ??? Hr. by apply me_read_spec in Hr.
  - intros. apply me_read_spec.
  - intros e p l Hr. apply me_read_spec in Hr as ->. unfold me_list. split.
    + rewrite merge_sort_Permutation. eapply NoDup_fmap_fst.
      * intros k v1 v2 [_ H1%elem_of_map_to_list]%list_elem_of_filter
          [_ H2%elem_of_map_to_list]%list_elem_of_filter. congruence.
      * apply NoDup_filter, NoDup_map_to_list.
    + intros k v. rewrite merge_sort_Permutation, list_elem_of_filter, elem_of_map_to_list. naive_solver.
  - intros. by apply me_write_spec.
  - intros. apply me_write_spec.
  - intros. by apply me_write_spec.
  - intros. apply me_write_spec.
  - intros. destruct (me_write_spec e (me_kv e)) as [_ [?|?]]; done.
  - intros. destruct (me_write_spec e (me_kv e)) as [_ [?|?]]; done.
  - intros. destruct (me_write_spec e (me_kv e)) as [_ [?|?]]; done.
Defined.
