(* ===== verification/MetaRouter.v ===== *)
(** * The partition router

    [Router] of [src/pkg/metadata/router.go]: it owns the placement of the 4096
    partitions.  It keeps a cached copy of the route table, which only the etcd
    watch refreshes, writes new tables to the store, and fans updates out to
    subscribers over buffered channels.

    The router is written against the interface [Store]; the theorems use the
    laws of that interface only.  [ShutdownNode], which needs the migration
    scheduler, is in [Shutdown]. *)

From S2P Require Import Prelude Crc32 Proto HashRing MetaStore.

#[local] Open Scope string_scope.
#[local] Open Scope Z_scope.

Definition RouterTotalPartitions : Z := 4096.
Definition MinReplicaNodes : Z := 2.
Definition SubscriberBuffer : nat := 10.

Definition allocated (hashRing : ConsistentHash) (i : Z) : RoutePartition :=
  let '(primary, replica) := ConsistentHash_GetNodes hashRing i in
  mkRoutePartition i primary replica PartitionStatusNormal "" MIGRATION_NONE 1.

(** The rows of the loop over the partitions. *)
Definition allocation (hashRing : ConsistentHash) : gmap Z RoutePartition :=
  foldl (λ m i, <[i := allocated hashRing i]> m) (RT_Partitions NewRouteTable)
    (seqZ 0 RouterTotalPartitions).
Lemma lookup_foldl_insert {A} (f : Z → A) (l : list Z) (m : gmap Z A) k :
  foldl (λ m i, <[i := f i]> m) m l !! k = if decide (k ∈ l) then Some (f k) else m !! k.
Proof.
  revert m. induction l as [|i l IH]; intros m; [by rewrite decide_False by set_solver|].
  cbn [foldl]. rewrite IH. destruct (decide (k ∈ l)), (decide (k = i)) as [->|Hne].
  - by rewrite decide_True by set_solver.
  - by rewrite decide_True by set_solver.
  - by rewrite lookup_insert_eq, decide_True by set_solver.
  - by rewrite lookup_insert_ne, decide_False by set_solver.
Qed.

Lemma lookup_allocation hashRing i :
  allocation hashRing !! i =
  if decide (0 ≤ i < RouterTotalPartitions) then Some (allocated hashRing i) else None.
Proof.
  unfold allocation. rewrite lookup_foldl_insert.
  change (RT_Partitions NewRouteTable) with (∅ : gmap Z RoutePartition). rewrite lookup_empty.
  destruct (decide (i ∈ _)) as [Hin|Hin]; rewrite elem_of_seqZ in Hin.
  - by rewrite decide_True by lia.
  - by rewrite decide_False by lia.
Qed.
#[global] Opaque allocation.

Section Router.
  Context {S : Type} `{Store S}.

(** [subscribers]: the tables waiting in each subscriber's channel. *)
Record Router := mkRouter {
  R_store : S;
  R_routeTable : RouteTable;
  R_hashRing : ConsistentHash;
  R_subscribers : gmap string (list RouteTable)
}.

Definition R_set_store (r : Router) (s : S) : Router :=
  mkRouter s (R_routeTable r) (R_hashRing r) (R_subscribers r).
Definition R_set_ring (r : Router) (ch : ConsistentHash) : Router :=
  mkRouter (R_store r) (R_routeTable r) ch (R_subscribers r).
Definition R_set_subscribers (r : Router) (m : gmap string (list RouteTable)) : Router :=
  mkRouter (R_store r) (R_routeTable r) (R_hashRing r) m.

Definition NewRouter (store : S) : Router :=
  mkRouter store NewRouteTable (NewConsistentHash DefaultVirtualNodes) ∅.

Definition Router_updateRouteTable (r : Router) (table : RouteTable) : Router :=
  mkRouter (R_store r) table (R_hashRing r) (R_subscribers r).

(** [select { case ch <- table: default: }] on a channel of capacity 10. *)
Definition try_send (ch : list RouteTable) (table : RouteTable) : list RouteTable :=
  if decide (length ch < SubscriberBuffer)%nat then ch ++ [table] else ch.

Definition Router_notifySubscribers (r : Router) (table : RouteTable) : Router :=
  R_set_subscribers r ((λ ch, try_send ch table) <$> R_subscribers r).

(** The body of the goroutine [Start] spawns, for one table of the watch. *)
Definition Router_watch (r : Router) (table : RouteTable) : Router :=
  Router_notifySubscribers (Router_updateRouteTable r table) table.

(** [Start] up to the watch. *)
Definition Router_Start (r : Router) : Router * option goerr :=
  let '(s, res) := GetRouteTable (R_store r) in
  let r := R_set_store r s in
  match res with
  | Ok table => (Router_updateRouteTable r table, None)
  | Error err => (r, Some err)
  end.

Definition Router_GetRouteTable (r : Router) : RouteTable := R_routeTable r.

Definition Router_GetPartitionNodes (r : Router) (partitionID : Z) : result (string * string) :=
  match RT_Partitions (R_routeTable r) !! partitionID with
  | None => Error (Errorf "partition not found")
  | Some partition => Ok (RP_Primary partition, RP_Replica partition)
  end.

Definition Router_Subscribe (r : Router) (nodeID : string) : Router :=
  R_set_subscribers r (<[nodeID := try_send [] (R_routeTable r)]> (R_subscribers r)).

Definition Router_Unsubscribe (r : Router) (nodeID : string) : Router :=
  R_set_subscribers r (delete nodeID (R_subscribers r)).

(** A subscriber takes the next table out of its channel. *)
Definition Router_receive (r : Router) (nodeID : string) : Router * option RouteTable :=
  match R_subscribers r !! nodeID with
  | Some (table :: rest) => (R_set_subscribers r (<[nodeID := rest]> (R_subscribers r)), Some table)
  | _ => (r, None)
  end.

Definition Router_GetClusterState (r : Router) : Router * result string :=
  let '(s, res) := GetClusterInfo (R_store r) in (R_set_store r s, CI_State <$> res).

(** ** Placement *)

Definition Router_allocatePartitions (r : Router) (nodes : list NodeInfo) : Router * option goerr :=
  let hashRing := build_ring (NI_Addr <$> nodes) in
  let r := R_set_ring r hashRing in
  let table := mkRouteTable (RT_Version NewRouteTable) (allocation hashRing) in
  let '(s, table, err) := UpdateRouteTable (R_store r) table in
  let r := R_set_store r s in
  match err with
  | Some err => (r, Some err)
  | None => (Router_updateRouteTable r table, None)
  end.

Definition Router_InitializePartitions (r : Router) : Router * option goerr :=
  let '(s, res) := ListNodes (R_store r) NodeRoleStorage in
  let r := R_set_store r s in
  match res with
  | Error err => (r, Some err)
  | Ok nodes =>
      if len nodes <? MinReplicaNodes then (r, Some (Errorf "need at least 2 storage nodes"))
      else Router_allocatePartitions r nodes
  end.

Definition Router_InitCluster (r : Router) : Router * option goerr :=
  let '(s, res) := GetClusterInfo (R_store r) in
  let r := R_set_store r s in
  match res with
  | Error err => (r, Some err)
  | Ok info =>
      if decide (CI_State info ≠ ClusterStatePending) then
        (r, Some (Errorf "cluster is not in PENDING state"))
      else
      let '(s, res) := ListNodes (R_store r) NodeRoleStorage in
      let r := R_set_store r s in
      match res with
      | Error err => (r, Some err)
      | Ok nodes =>
          if len nodes <? MinReplicaNodes then (r, Some (Errorf "need at least 2 storage nodes")) else
          if negb (forallb (λ node, bool_decide (NI_Status node = "online")) nodes) then
            (r, Some (Errorf "node is not online"))
          else
          let '(s, err) := SetClusterState (R_store r) ClusterStateInitializing in
          let r := R_set_store r s in
          match err with
          | Some err => (r, Some err)
          | None =>
              let '(r, err) := Router_allocatePartitions r nodes in
              match err with
              | Some err =>
                  let '(s, _) := SetClusterState (R_store r) ClusterStatePending in
                  (R_set_store r s, Some err)
              | None =>
                  let '(s, err) := SetClusterState (R_store r) ClusterStateRunning in
                  (R_set_store r s, err)
              end
          end
      end
  end.

(** One turn of the loop of [RebalancePartitions]: the new row and how many of
    primary and replica changed. *)
Definition rebalanced (hashRing : ConsistentHash) (partitionID : Z) (partition : RoutePartition) :
    RoutePartition :=
  let '(newPrimary, newReplica) := ConsistentHash_GetNodes hashRing partitionID in
  mkRoutePartition (RP_ID partition)
    (if decide (RP_Primary partition = newPrimary) then RP_Primary partition else newPrimary)
    (if decide (RP_Replica partition = newReplica) then RP_Replica partition else newReplica)
    (RP_Status partition) "" MIGRATION_NONE
    (if decide (RP_Primary partition = newPrimary) then RP_Epoch partition
     else u64 (RP_Epoch partition + 1)).

Definition changes (hashRing : ConsistentHash) (row : Z * RoutePartition) : Z :=
  let '(newPrimary, newReplica) := ConsistentHash_GetNodes hashRing row.1 in
  (if decide (RP_Primary row.2 = newPrimary) then 0 else 1) +
  (if decide (RP_Replica row.2 = newReplica) then 0 else 1).

Definition Router_RebalancePartitions (r : Router) : Router * option goerr :=
  let '(s, res) := ListNodes (R_store r) NodeRoleStorage in
  let r := R_set_store r s in
  match res with
  | Error err => (r, Some err)
  | Ok nodes =>
      let onlineNodes := filter (λ node, NI_Status node = NodeStatusOnline) nodes in
      if len onlineNodes <? MinReplicaNodes then
        (r, Some (Errorf "need at least 2 online storage nodes"))
      else
      let newHashRing := build_ring (NI_Addr <$> onlineNodes) in
      let currentTable := R_routeTable r in
      let newTable := mkRouteTable (RT_Version currentTable)
        (map_imap (λ id p, Some (rebalanced newHashRing id p)) (RT_Partitions currentTable)) in
      let totalChanges :=
        foldr Z.add 0 (changes newHashRing <$> map_to_list (RT_Partitions currentTable)) in
      if 0 <? totalChanges then
        let r := R_set_ring r newHashRing in
        let '(s, _, err) := UpdateRouteTable (R_store r) newTable in
        (R_set_store r s, err)
      else (r, None)
  end.

(** ** Changes to one partition

    The copies of [PromoteReplica] and [CompleteMigration] leave the two
    migration fields out; the one of [SetPartitionStatus] keeps them. *)

Definition copy_partition (p : RoutePartition) : RoutePartition :=
  mkRoutePartition (RP_ID p) (RP_Primary p) (RP_Replica p) (RP_Status p) "" MIGRATION_NONE (RP_Epoch p).

(** The row of a promoted replica. *)
Definition promoted (partition : RoutePartition) : RoutePartition :=
  mkRoutePartition (RP_ID partition) (RP_Replica partition) (RP_Primary partition)
    (RP_Status partition) "" MIGRATION_NONE (u64 (RP_Epoch partition + 1)).

Definition Router_PromoteReplica (r : Router) (partitionID : Z) : Router * option goerr :=
  match RT_Partitions (R_routeTable r) !! partitionID with
  | None => (r, Some (Errorf "partition not found"))
  | Some partition =>
      let partitions := copy_partition <$> RT_Partitions (R_routeTable r) in
      let newTable := mkRouteTable (RT_Version (R_routeTable r))
        (<[partitionID := promoted partition]> partitions) in
      let '(s, _, err) := UpdateRouteTable (R_store r) newTable in
      (R_set_store r s, err)
  end.

Definition Router_SetPartitionStatus (r : Router) (partitionID : Z) (status : string) :
    Router * option goerr :=
  match RT_Partitions (R_routeTable r) !! partitionID with
  | None => (r, Some (Errorf "partition not found"))
  | Some p =>
      let newTable := mkRouteTable (RT_Version (R_routeTable r))
        (<[partitionID := mkRoutePartition (RP_ID p) (RP_Primary p) (RP_Replica p) status
            (RP_MigrationTarget p) (RP_MigrationState p) (RP_Epoch p)]>
          (RT_Partitions (R_routeTable r))) in
      let '(s, _, err) := UpdateRouteTable (R_store r) newTable in
      (R_set_store r s, err)
  end.

Definition Router_SetPartitionMigration (r : Router) (partitionID : Z) (targetNode : string)
    (state : MigrationState) : Router * option goerr :=
  match RT_Partitions (R_routeTable r) !! partitionID with
  | None => (r, Some (Errorf "partition not found"))
  | Some partition =>
      let isPrimaryMove := bool_decide (RP_Primary partition ≠ targetNode) in
      let '(s, err) := SetMigrationState (R_store r) partitionID
        (mkMigrationInfo partitionID targetNode state isPrimaryMove) in
      (R_set_store r s, err)
  end.

Definition migrated_partition (partition : RoutePartition) (newNode : string) (isPrimary : bool) :
    RoutePartition :=
  if isPrimary then
    mkRoutePartition (RP_ID partition) newNode
      (if decide (RP_Primary partition ≠ newNode) then RP_Primary partition else RP_Replica partition)
      PartitionStatusNormal "" MIGRATION_NONE (u64 (RP_Epoch partition + 1))
  else
    mkRoutePartition (RP_ID partition) (RP_Primary partition) newNode
      PartitionStatusNormal "" MIGRATION_NONE (RP_Epoch partition).

(** A failure to delete the migration state is only logged. *)
Definition Router_CompleteMigration (r : Router) (partitionID : Z) (newNode : string)
    (isPrimary : bool) : Router * option goerr :=
  let '(s, _) := DeleteMigrationState (R_store r) partitionID in
  let r := R_set_store r s in
  match RT_Partitions (R_routeTable r) !! partitionID with
  | None => (r, Some (Errorf "partition not found"))
  | Some partition =>
      let newTable := mkRouteTable (RT_Version (R_routeTable r))
        (<[partitionID := migrated_partition partition newNode isPrimary]>
          (copy_partition <$> RT_Partitions (R_routeTable r))) in
      let '(s, _, err) := UpdateRouteTable (R_store r) newTable in
      (R_set_store r s, err)
  end.

Definition Router_GetPartitionMigrationTarget (r : Router) (partitionID : Z) :
    Router * (string * MigrationState) :=
  let '(s, res) := GetMigrationState (R_store r) partitionID in
  (R_set_store r s,
   match res with
   | Ok (Some info) => (MI_Target info, MI_State info)
   | _ => ("", MIGRATION_NONE)
   end).

Definition Router_GetNodePartitionCounts (r : Router) (nodeAddr : string) : Z * Z :=
  foldr (λ row c : Z * Z, (row.1 + c.1, row.2 + c.2)) (0, 0)
    ((λ row : Z * RoutePartition,
        ((if decide (RP_Primary row.2 = nodeAddr) then 1 else 0),
         (if decide (RP_Replica row.2 = nodeAddr) then 1 else 0)))
       <$> map_to_list (RT_Partitions (R_routeTable r))).

End Router.

(** ** Placement of a new cluster *)

Section RouterProofs.
  Context {S : Type} `{StoreLaws S}.

Abbreviation view := store_view.

Lemma allocatePartitions_writes (r : Router) nodes :
  store_ok (R_store r) →
  let '(r', err) := Router_allocatePartitions r nodes in
  store_ok (R_store r') ∧
  writes view (R_store r) (λ v, sv_set_table v (next_table v (mkRouteTable 1 (allocation (build_ring (NI_Addr <$> nodes))))))
    (R_store r', err) ∧
  R_hashRing r' = build_ring (NI_Addr <$> nodes) ∧
  (err = None → R_routeTable r' = sv_table (view (R_store r'))) ∧
  R_subscribers r' = R_subscribers r.
Proof.
  intros Hok. unfold Router_allocatePartitions. cbn [R_store R_set_ring].
  pose proof (law_UpdateRouteTable (R_store r)
    (mkRouteTable 1 (allocation (build_ring (NI_Addr <$> nodes)))) Hok) as Hlaw.
  change (RT_Version NewRouteTable) with 1.
  destruct (UpdateRouteTable _ _) as [[s t] err]. destruct Hlaw as (Hok' & _ & Ht & Hw).
  destruct err as [err|]; cbn [R_store R_set_store R_set_ring Router_updateRouteTable R_hashRing
    R_routeTable R_subscribers]; split_and!; try done.
  intros _. destruct Hw as [Hw _]. cbn [fst snd] in Hw. rewrite Hw, Ht by done. done.
Qed.

(** The storage nodes a store lists. *)
Definition storage_nodes (v : StoreView) : list NodeInfo :=
  filter (role_matches NodeRoleStorage) (map_to_list (sv_nodes v)).*2.

Lemma ListNodes_storage (s : S) :
  store_ok s →
  let '(s', r) := ListNodes s NodeRoleStorage in
  store_ok s' ∧ view s' = view s ∧ ∀ l, r = Ok l → l ≡ₚ storage_nodes (view s).
Proof. apply law_ListNodes. Qed.

(** What a run of [InitCluster] may leave, by what the store held before. *)
Definition init_post (v v' : StoreView) (t' : RouteTable) (err : option goerr) : Prop :=
  sv_nodes v' = sv_nodes v ∧ sv_migrations v' = sv_migrations v ∧
  (CI_State (sv_cluster v) ≠ ClusterStatePending → v' = v ∧ is_Some err) ∧
  ((v' = v ∧ is_Some err) ∨
   ∃ nodes, nodes ≡ₚ storage_nodes v ∧ MinReplicaNodes ≤ len nodes ∧
     Forall (λ n, NI_Status n = NodeStatusOnline) nodes ∧
     (sv_table v' = sv_table v ∨ sv_table v' = next_table v (mkRouteTable 1 (allocation (build_ring (NI_Addr <$> nodes))))) ∧
     (CI_State (sv_cluster v') = ClusterStateRunning → RT_Partitions (sv_table v') = allocation (build_ring (NI_Addr <$> nodes))) ∧
     (err = None → CI_State (sv_cluster v') = ClusterStateRunning ∧
        sv_table v' = next_table v (mkRouteTable 1 (allocation (build_ring (NI_Addr <$> nodes)))) ∧ t' = sv_table v')).

Lemma init_refused (v : StoreView) t e : init_post v v t (Some e).
Proof. repeat split; eauto. Qed.

Lemma forallb_online nodes :
  forallb (λ node, bool_decide (NI_Status node = "online")) nodes = true →
  Forall (λ n, NI_Status n = NodeStatusOnline) nodes.
Proof.
  intros Hf. apply Forall_forall. intros n Hn. rewrite forallb_forall in Hf.
  apply list_elem_of_In in Hn. apply Hf in Hn. by apply bool_decide_eq_true in Hn.
Qed.

(** The part of [InitCluster] after the checks. *)
Lemma init_phases (r : Router) nodes :
  store_ok (R_store r) → CI_State (sv_cluster (view (R_store r))) = ClusterStatePending →
  nodes ≡ₚ storage_nodes (view (R_store r)) → MinReplicaNodes ≤ len nodes →
  Forall (λ n, NI_Status n = NodeStatusOnline) nodes →
  let '(r', err) :=
    (let '(s, err) := SetClusterState (R_store r) ClusterStateInitializing in
     let r := R_set_store r s in
     match err with
     | Some err => (r, Some err)
     | None =>
         let '(r, err) := Router_allocatePartitions r nodes in
         match err with
         | Some err =>
             let '(s, _) := SetClusterState (R_store r) ClusterStatePending in
             (R_set_store r s, Some err)
         | None =>
             let '(s, err) := SetClusterState (R_store r) ClusterStateRunning in
             (R_set_store r s, err)
         end
     end) in
  store_ok (R_store r') ∧ init_post (view (R_store r)) (view (R_store r')) (R_routeTable r') err.
Proof.
  intros Hok Hpend Hnodes Hlen Honline. set (v := view (R_store r)) in *.
  pose proof (law_SetClusterState (R_store r) ClusterStateInitializing Hok) as [Hok1 [Hd1 He1]].
  destruct (SetClusterState (R_store r) ClusterStateInitializing) as [s1 err1]. cbn [fst snd] in *.
  destruct err1 as [err1|].
  { cbn [R_store R_set_store]. split; [done|]. fold v in He1. destruct He1 as [->| ->]; [apply init_refused|].
    repeat split; [done..|]. right. exists nodes. split_and!; try done; by left. }
  specialize (Hd1 eq_refl). fold v in Hd1. clear He1.
  pose proof (allocatePartitions_writes (R_set_store r s1) nodes) as Ha. cbn [R_store R_set_store] in Ha.
  specialize (Ha Hok1). destruct (Router_allocatePartitions _ nodes) as [r2 err2].
  destruct Ha as (Hok2 & [Hd2 He2] & _ & Hrt & _). cbn [fst snd] in *. rewrite Hd1 in Hd2, He2.
  destruct err2 as [err2|].
  - pose proof (law_SetClusterState (R_store r2) ClusterStatePending Hok2) as [Hok3 [_ He3]].
    destruct (SetClusterState (R_store r2) ClusterStatePending) as [s3 err3]. cbn [fst snd R_store R_set_store] in *.
    split; [done|]. destruct He2 as [E2|E2]; rewrite E2 in He3; destruct He3 as [E3|E3]; rewrite E3;
      (repeat split; [done..|]); right; exists nodes; split_and!; simpl; auto; done.
  - specialize (Hd2 eq_refl). specialize (Hrt eq_refl). rewrite Hd2 in Hrt.
    pose proof (law_SetClusterState (R_store r2) ClusterStateRunning Hok2) as [Hok3 [Hd3 He3]].
    destruct (SetClusterState (R_store r2) ClusterStateRunning) as [s3 err3]. cbn [fst snd R_store R_set_store R_routeTable] in *.
    split; [done|]. rewrite Hd2 in Hd3, He3.
    assert (sv_nodes (view s3) = sv_nodes v ∧ sv_migrations (view s3) = sv_migrations v ∧
      sv_table (view s3) = next_table v (mkRouteTable 1 (allocation (build_ring (NI_Addr <$> nodes))))) as (Hn3 & Hm3 & Ht3)
      by (destruct He3 as [->| ->]; done).
    split_and!; [done|done|by rewrite Hpend|]. right. exists nodes. rewrite Ht3. split_and!; auto.
    intros ->. rewrite Hd3 by done. split_and!; done.
Qed.

Lemma InitCluster_post (r : Router) :
  store_ok (R_store r) →
  let '(r', err) := Router_InitCluster r in
  store_ok (R_store r') ∧ init_post (view (R_store r)) (view (R_store r')) (R_routeTable r') err.
Proof.
  intros Hok. unfold Router_InitCluster.
  pose proof (law_GetClusterInfo (R_store r) Hok) as [Hok1 [Hv1 Hr1]].
  destruct (GetClusterInfo (R_store r)) as [s1 [info|err]]; cbn [fst snd R_store R_set_store] in *.
  2: { split; [done|]. rewrite Hv1. apply init_refused. }
  specialize (Hr1 info eq_refl) as ->. rewrite <- Hv1.
  case_decide as Hst; [by eauto using init_refused|].
  assert (CI_State (sv_cluster (view s1)) = ClusterStatePending) as Hpend.
  { destruct (decide (CI_State (sv_cluster (view s1)) = ClusterStatePending)); [done|tauto]. }
  pose proof (ListNodes_storage s1 Hok1) as Hl.
  destruct (ListNodes s1 NodeRoleStorage) as [s2 [nodes|err]]; destruct Hl as (Hok2 & Hv2 & Hl);
    cbn [R_store R_set_store] in *; rewrite <- Hv2 in *; [|by eauto using init_refused].
  destruct (Z.ltb_spec (len nodes) MinReplicaNodes); [by eauto using init_refused|].
  destruct (forallb _ nodes) eqn:Hf; cbn [negb]; [|by eauto using init_refused].
  apply (init_phases (R_set_store (R_set_store r s1) s2)); auto using forallb_online.
Qed.

(** C15: two-phase initialisation is safe against every failure of the store.  A
    cluster that is not pending is refused and left alone; nodes and migrations
    are never touched; otherwise the run is refused before writing or the pre-checks
    held (two or more storage nodes, all online), the table is the old one or the
    full allocation one version later, the cluster is never marked running without
    that allocation, and success means running with the allocation in the store and
    in the cache. *)
Theorem InitCluster_two_phase (r : Router) :
  store_ok (R_store r) →
  let '(r', err) := Router_InitCluster r in
  store_ok (R_store r') ∧ init_post (view (R_store r)) (view (R_store r')) (R_routeTable r') err.
Proof. apply InitCluster_post. Qed.

(** The table a successful initialisation leaves in the cache. *)
Lemma InitCluster_table (r r' : Router) :
  store_ok (R_store r) →
  Router_InitCluster r = (r', None) →
  let addrs := NI_Addr <$> storage_nodes (view (R_store r)) in
  collision_free DefaultVirtualNodes addrs → "" ∉ addrs →
  (2 ≤ size (list_to_set addrs : gset string))%nat →
  ∀ i, if decide (0 ≤ i < RouterTotalPartitions)
    then ∃ p, RT_Partitions (R_routeTable r') !! i = Some p ∧ RP_ID p = i ∧
      RP_Primary p ∈ addrs ∧ RP_Replica p ∈ addrs ∧ RP_Primary p ≠ RP_Replica p ∧
      RP_Status p = PartitionStatusNormal ∧ RP_Epoch p = 1
    else RT_Partitions (R_routeTable r') !! i = None.
Proof.
  intros Hok Hrun addrs Hcf Hne Hsz i. pose proof (InitCluster_post r Hok) as Hp. rewrite Hrun in Hp.
  destruct Hp as (_ & _ & _ & _ & [[_ [? ?]]|(nodes & Hn & _ & _ & _ & _ & Hdone)]); [done|].
  destruct (Hdone eq_refl) as (_ & Ht & ->). rewrite Ht. cbn [next_table RT_Partitions].
  rewrite lookup_allocation. case_decide; [|done].
  assert (∀ a, a ∈ NI_Addr <$> nodes ↔ a ∈ addrs) as Hin by (intros a; unfold addrs; by rewrite Hn).
  assert (collision_free DefaultVirtualNodes (NI_Addr <$> nodes)) as Hcf'.
  { intros a Ha%Hin. destruct (Hcf a Ha) as [Hnd Hd]. split; [done|]. intros b x Hb%Hin. by apply Hd. }
  destruct (build_ring_exact _ Hcf') as [Hx Hnodes].
  assert (list_to_set (NI_Addr <$> nodes) = (list_to_set addrs : gset string)) as Hset.
  { apply leibniz_equiv. intros a. by rewrite !elem_of_list_to_set, Hin. }
  pose proof (GetNodes_members _ i Hx) as Hm. rewrite Hnodes, Hset in Hm.
  specialize (Hm Hsz ltac:(by rewrite elem_of_list_to_set)). unfold allocated.
  destruct (ConsistentHash_GetNodes _ i) as [primary replica].
  rewrite !elem_of_list_to_set in Hm. eexists. split; [done|]. simpl. naive_solver.
Qed.

(** C31: initialisation replicates every partition.  After a successful
    initialisation over storage nodes whose virtual nodes do not collide, none of
    which has the empty address and which have at least two different addresses
    between them, the cached table has exactly the partitions 0 to 4095, each normal,
    at epoch 1, with a primary and a replica on two different registered storage
    nodes.  The code itself only counts node records: two registrations at one
    address pass its check and get no replica. *)
Theorem InitCluster_replicates (r r' : Router) :
  store_ok (R_store r) →
  Router_InitCluster r = (r', None) →
  let addrs := NI_Addr <$> storage_nodes (view (R_store r)) in
  collision_free DefaultVirtualNodes addrs → "" ∉ addrs →
  (2 ≤ size (list_to_set addrs : gset string))%nat →
  ∀ i, if decide (0 ≤ i < RouterTotalPartitions)
    then ∃ p, RT_Partitions (R_routeTable r') !! i = Some p ∧ RP_ID p = i ∧
      RP_Primary p ∈ addrs ∧ RP_Replica p ∈ addrs ∧ RP_Primary p ≠ RP_Replica p ∧
      RP_Status p = PartitionStatusNormal ∧ RP_Epoch p = 1
    else RT_Partitions (R_routeTable r') !! i = None.
Proof. apply InitCluster_table. Qed.

(** ** Epochs fence primaries *)

(** The operations that write the route table of a running cluster. *)
Inductive table_op :=
  | OpPromote (id : Z)
  | OpStatus (id : Z) (status : string)
  | OpComplete (id : Z) (newNode : string) (isPrimary : bool)
  | OpRebalance.

Definition run_op (r : Router) (op : table_op) : Router * option goerr :=
  match op with
  | OpPromote id => Router_PromoteReplica r id
  | OpStatus id status => Router_SetPartitionStatus r id status
  | OpComplete id newNode isPrimary => Router_CompleteMigration r id newNode isPrimary
  | OpRebalance => Router_RebalancePartitions r
  end.

(** A row keeps its number, and may keep its epoch only when it keeps its primary. *)
Definition row_fenced (p p' : RoutePartition) : Prop :=
  RP_ID p' = RP_ID p ∧
  ((RP_Epoch p' = RP_Epoch p ∧ RP_Primary p' = RP_Primary p) ∨ RP_Epoch p' = u64 (RP_Epoch p + 1)).

Definition rows_fenced (m m' : gmap Z RoutePartition) : Prop :=
  ∀ id, match m !! id, m' !! id with
    | Some p, Some p' => row_fenced p p'
    | None, None => True
    | _, _ => False
    end.

Lemma rows_fenced_refl m : rows_fenced m m.
Proof. intros id. destruct (m !! id); [by split; [|left]|done]. Qed.

(** Rewriting every row with a fenced one. *)
Lemma rows_fenced_insert m f id p p' :
  m !! id = Some p → row_fenced p p' → (∀ q, row_fenced q (f q)) →
  rows_fenced m (<[id := p']> (f <$> m)).
Proof.
  intros Hid Hp Hf k. destruct (decide (id = k)) as [<-|Hk].
  - by rewrite Hid, lookup_insert_eq.
  - rewrite lookup_insert_ne, lookup_fmap by done. destruct (m !! k); simpl; auto.
Qed.

(** What an operation leaves in the store: the old table, or the next version
    of a table fenced against the cached one. *)
Definition op_post (r r' : Router) : Prop :=
  store_ok (R_store r') ∧ R_routeTable r' = R_routeTable r ∧
  (sv_table (view (R_store r')) = sv_table (view (R_store r)) ∨
   ∃ m, rows_fenced (RT_Partitions (R_routeTable r)) m ∧
     sv_table (view (R_store r')) = mkRouteTable (u64 (RT_Version (sv_table (view (R_store r))) + 1)) m).

(** Every operation ends in one [UpdateRouteTable] of a fenced table. *)
Lemma update_post (r : Router) (s : S) (ring : ConsistentHash) (t : RouteTable) :
  store_ok s → sv_table (view s) = sv_table (view (R_store r)) →
  rows_fenced (RT_Partitions (R_routeTable r)) (RT_Partitions t) →
  let '(s', _, err) := UpdateRouteTable s t in
  op_post r (mkRouter s' (R_routeTable r) ring (R_subscribers r)).
Proof.
  intros Hok Hv Hf. pose proof (law_UpdateRouteTable s t Hok) as Hlaw.
  destruct (UpdateRouteTable s t) as [[s' t'] err]. destruct Hlaw as (Hok' & _ & _ & [_ He]).
  split; [done|]. split; [done|]. cbn [fst snd R_store] in *. destruct He as [->| ->]; [by left|].
  right. exists (RT_Partitions t). split; [done|]. by rewrite <- Hv.
Qed.

Lemma rebalanced_fenced hashRing m :
  rows_fenced m (map_imap (λ id p, Some (rebalanced hashRing id p)) m).
Proof.
  intros id. rewrite map_lookup_imap. destruct (m !! id) as [p|]; simpl; [|done].
  unfold row_fenced, rebalanced. destruct (ConsistentHash_GetNodes hashRing id) as [np nr]. simpl.
  case_decide; auto.
Qed.

Lemma run_op_post (r : Router) (op : table_op) :
  store_ok (R_store r) → op_post r (run_op r op).1.
Proof.
  intros Hok. assert (op_post r r) as Hsame by (split; auto).
  assert (∀ s : S, store_ok s → sv_table (view s) = sv_table (view (R_store r)) →
    op_post r (R_set_store r s)) as Hkeep by (intros s Hs Hv; split; auto).
  destruct op as [id|id status|id newNode isPrimary|]; cbn [run_op].
  - unfold Router_PromoteReplica. destruct (RT_Partitions _ !! id) as [p|] eqn:Hp; [|done].
    match goal with |- context [UpdateRouteTable ?s ?t] =>
      pose proof (update_post r s (R_hashRing r) t Hok eq_refl) as Hu;
      destruct (UpdateRouteTable s t) as [[s' t'] err] end.
    apply Hu. apply (rows_fenced_insert _ copy_partition id p); [done|by split; [|right]|by split; [|left]].
  - unfold Router_SetPartitionStatus. destruct (RT_Partitions _ !! id) as [p|] eqn:Hp; [|done].
    match goal with |- context [UpdateRouteTable ?s ?t] =>
      pose proof (update_post r s (R_hashRing r) t Hok eq_refl) as Hu;
      destruct (UpdateRouteTable s t) as [[s' t'] err] end.
    apply Hu. cbn [RT_Partitions]. rewrite <- (map_fmap_id (RT_Partitions (R_routeTable r))) at 2.
    apply (rows_fenced_insert _ Datatypes.id id p); [done|by split; [|left]|by split; [|left]].
  - unfold Router_CompleteMigration.
    pose proof (law_DeleteMigrationState (R_store r) id Hok) as [Hok1 [_ Hd]].
    destruct (DeleteMigrationState (R_store r) id) as [s1 err1]. cbn [fst snd R_store R_set_store R_routeTable] in *.
    assert (sv_table (view s1) = sv_table (view (R_store r))) as Ht by (destruct Hd as [->| ->]; done).
    destruct (RT_Partitions _ !! id) as [p|] eqn:Hp; [|by apply Hkeep].
    match goal with |- context [UpdateRouteTable ?s ?t] =>
      pose proof (update_post r s (R_hashRing r) t Hok1 Ht) as Hu;
      destruct (UpdateRouteTable s t) as [[s' t'] err] end.
    apply Hu. apply (rows_fenced_insert _ copy_partition id p); [done| |by split; [|left]].
    destruct isPrimary; (split; [done|]); [by right|by left].
  - unfold Router_RebalancePartitions. pose proof (ListNodes_storage (R_store r) Hok) as Hl.
    destruct (ListNodes (R_store r) NodeRoleStorage) as [s1 [nodes|err]]; destruct Hl as (Hok1 & Hv1 & _);
      cbn [R_store R_set_store R_set_ring R_routeTable] in *;
      (assert (sv_table (view s1) = sv_table (view (R_store r))) as Ht by by rewrite Hv1);
      [|by apply Hkeep].
    case_match; [by apply Hkeep|]. case_match; [|by apply Hkeep].
    match goal with |- context [UpdateRouteTable ?s ?t] =>
      pose proof (update_post r s (build_ring (NI_Addr <$> filter (λ node, NI_Status node = NodeStatusOnline) nodes)) t Hok1
        Ht (rebalanced_fenced _ _)) as Hu;
      destruct (UpdateRouteTable s t) as [[s' t'] err] end.
    apply Hu.
Qed.

(** The watch hands the router the table that is in the store. *)
Definition deliver (r : Router) : Router := Router_watch r (sv_table (view (R_store r))).

Definition synced (r : Router) : Prop :=
  store_ok (R_store r) ∧ R_routeTable r = sv_table (view (R_store r)).

(** A history in which every table written is delivered before the next
    operation; between operations other parts of the store (nodes, cluster state,
    migrations) may change in any way. *)
Inductive router_step : Router → Router → Prop :=
  | step_op r op : router_step r (deliver (run_op r op).1)
  | step_env r s : store_ok s → sv_table (view s) = sv_table (view (R_store r)) →
      router_step r (R_set_store r s).

Lemma router_step_fenced r r' :
  synced r → router_step r r' →
  synced r' ∧ rows_fenced (RT_Partitions (R_routeTable r)) (RT_Partitions (R_routeTable r')).
Proof.
  intros [Hok Hs] Hstep. destruct Hstep as [r op|r s Hs' Ht].
  - destruct (run_op_post r op Hok) as (Hok' & Hc & Ht). destruct (run_op r op) as [r' err]. simpl in *.
    split; [by split|]. destruct Ht as [->|(m & Hm & ->)]; [|done]. rewrite <- Hs. apply rows_fenced_refl.
  - split; [split; [done|]; simpl; congruence|]. apply rows_fenced_refl.
Qed.

Lemma row_fenced_bound p p' :
  row_fenced p p' → 0 ≤ RP_Epoch p → RP_Epoch p + 1 < 2 ^ 64 →
  RP_Epoch p ≤ RP_Epoch p' ≤ RP_Epoch p + 1 ∧ (RP_Epoch p = RP_Epoch p' → RP_Primary p = RP_Primary p').
Proof.
  intros [_ [[-> ->]| ->]] Hlo Hhi; [split; [lia|done]|]. rewrite u64_small by (unfold is_u64; lia). lia.
Qed.

Lemma epochs_along n r r' :
  nsteps router_step n r r' → synced r →
  (∀ id p, RT_Partitions (R_routeTable r) !! id = Some p →
     0 ≤ RP_Epoch p ∧ RP_Epoch p + Z.of_nat n < 2 ^ 64) →
  ∀ id, match RT_Partitions (R_routeTable r) !! id, RT_Partitions (R_routeTable r') !! id with
    | Some p, Some p' => RP_Epoch p ≤ RP_Epoch p' ≤ RP_Epoch p + Z.of_nat n ∧
        (RP_Epoch p = RP_Epoch p' → RP_Primary p = RP_Primary p')
    | None, None => True
    | _, _ => False
    end.
Proof.
  intros Hn. induction Hn as [r|n r1 r2 r3 Hstep Hn IH]; intros Hs Hb id.
  { destruct (RT_Partitions _ !! id); [split; [lia|done]|done]. }
  destruct (router_step_fenced r1 r2 Hs Hstep) as [Hs2 Hf]. specialize (IH Hs2).
  assert (∀ id p, RT_Partitions (R_routeTable r2) !! id = Some p →
    0 ≤ RP_Epoch p ∧ RP_Epoch p + Z.of_nat n < 2 ^ 64) as Hb2.
  { intros k p Hp. specialize (Hf k). rewrite Hp in Hf.
    destruct (RT_Partitions (R_routeTable r1) !! k) as [q|] eqn:Hq; [|done].
    destruct (Hb k q Hq). destruct (row_fenced_bound q p Hf) as [? _]; lia. }
  specialize (IH Hb2 id). specialize (Hf id).
  destruct (RT_Partitions (R_routeTable r1) !! id) as [p|] eqn:Hp,
    (RT_Partitions (R_routeTable r2) !! id) as [q|] eqn:Hq; try done.
  destruct (Hb id p Hp). destruct (row_fenced_bound p q Hf) as [? Hpq]; [lia..|].
  destruct (RT_Partitions (R_routeTable r3) !! id) as [p'|]; [|done]. destruct IH as [? Hqp]. split; [lia|].
  intros Heq. rewrite Hpq, Hqp by lia. done.
Qed.

(** C10: epochs are fencing tokens.  Along every history of promotions, status
    changes, completed migrations and rebalancings in which each table written
    reaches the router before the next operation (whatever the store refuses or
    loses the reply of), the set of partitions is stable, epochs never decrease,
    and a partition that has the same epoch at two times has the same primary at
    both. *)
Theorem epochs_fence_primaries n (r r' : Router) :
  synced r → nsteps router_step n r r' →
  (∀ id p, RT_Partitions (R_routeTable r) !! id = Some p →
     0 ≤ RP_Epoch p ∧ RP_Epoch p + Z.of_nat n < 2 ^ 64) →
  ∀ id, match RT_Partitions (R_routeTable r) !! id, RT_Partitions (R_routeTable r') !! id with
    | Some p, Some p' => RP_Epoch p ≤ RP_Epoch p' ∧
        (RP_Epoch p = RP_Epoch p' → RP_Primary p = RP_Primary p')
    | None, None => True
    | _, _ => False
    end.
Proof.
  intros Hs Hn Hb id. pose proof (epochs_along n r r' Hn Hs Hb id) as He.
  repeat case_match; naive_solver lia.
Qed.

(** A promotion writes the next version of the table with one row promoted; a
    promotion that fails may have written it. *)
Lemma PromoteReplica_effect (r : Router) id p :
  store_ok (R_store r) → RT_Partitions (R_routeTable r) !! id = Some p →
  let '(r', err) := Router_PromoteReplica r id in
  store_ok (R_store r') ∧ R_routeTable r' = R_routeTable r ∧ R_hashRing r' = R_hashRing r ∧
  let v' := sv_set_table (view (R_store r)) (mkRouteTable (u64 (RT_Version (sv_table (view (R_store r))) + 1))
    (<[id := promoted p]> (copy_partition <$> RT_Partitions (R_routeTable r)))) in
  (err = None → view (R_store r') = v') ∧ (view (R_store r') = view (R_store r) ∨ view (R_store r') = v').
Proof.
  intros Hok Hp. unfold Router_PromoteReplica. rewrite Hp.
  match goal with |- context [UpdateRouteTable ?s ?t] =>
    pose proof (law_UpdateRouteTable s t Hok) as Hlaw; destruct (UpdateRouteTable s t) as [[s' t'] err] end.
  by destruct Hlaw as (Hok' & _ & _ & Hw).
Qed.

Lemma PromoteReplica_done (r r' : Router) id p :
  store_ok (R_store r) → RT_Partitions (R_routeTable r) !! id = Some p →
  Router_PromoteReplica r id = (r', None) →
  store_ok (R_store r') ∧ R_routeTable r' = R_routeTable r ∧
  view (R_store r') = sv_set_table (view (R_store r))
    (mkRouteTable (u64 (RT_Version (sv_table (view (R_store r))) + 1))
      (<[id := promoted p]> (copy_partition <$> RT_Partitions (R_routeTable r)))).
Proof.
  intros Hok Hp Hr. pose proof (PromoteReplica_effect r id p Hok Hp) as He. rewrite Hr in He.
  destruct He as (? & ? & _ & Hv & _). auto.
Qed.

(** Promotions that outrun the watch are lost.  [PromoteReplica] builds the
    table from the cached copy, which only the watch refreshes: when two
    partitions are promoted one after the other before the first table is
    delivered, both calls succeed, yet the second table brings the first
    partition's old primary and old epoch back. *)
Lemma undelivered_promotion_is_lost (r r1 r2 : Router) id1 id2 p1 p2 :
  store_ok (R_store r) → id1 ≠ id2 →
  RT_Partitions (R_routeTable r) !! id1 = Some p1 → RT_Partitions (R_routeTable r) !! id2 = Some p2 →
  Router_PromoteReplica r id1 = (r1, None) → Router_PromoteReplica r1 id2 = (r2, None) →
  (∃ q, RT_Partitions (sv_table (view (R_store r1))) !! id1 = Some q ∧
     RP_Primary q = RP_Replica p1 ∧ RP_Epoch q = u64 (RP_Epoch p1 + 1)) ∧
  (∃ q, RT_Partitions (sv_table (view (R_store r2))) !! id1 = Some q ∧
     RP_Primary q = RP_Primary p1 ∧ RP_Replica q = RP_Replica p1 ∧ RP_Epoch q = RP_Epoch p1).
Proof.
  intros Hok Hne Hp1 Hp2 H1 H2.
  destruct (PromoteReplica_done r r1 id1 p1 Hok Hp1 H1) as (Hok1 & Hc1 & Hv1).
  rewrite <- Hc1 in Hp2. destruct (PromoteReplica_done r1 r2 id2 p2 Hok1 Hp2 H2) as (_ & _ & Hv2).
  split.
  - rewrite Hv1. simpl. rewrite lookup_insert_eq. eauto.
  - rewrite Hv2. cbn [sv_set_table sv_table RT_Partitions].
    rewrite lookup_insert_ne, lookup_fmap, Hc1, Hp1 by done. simpl. eauto 6.
Qed.

(** ** Rebalancing *)

Lemma changes_nonneg hashRing row : 0 ≤ changes hashRing row ≤ 2.
Proof. unfold changes. destruct (ConsistentHash_GetNodes _ _). do 2 case_decide; lia. Qed.

Lemma changes_zero hashRing id p :
  changes hashRing (id, p) = 0 ↔ (RP_Primary p, RP_Replica p) = ConsistentHash_GetNodes hashRing id.
Proof.
  unfold changes. cbn [fst snd]. destruct (ConsistentHash_GetNodes _ _) as [np nr].
  do 2 case_decide; naive_solver lia.
Qed.

Lemma sum_zero (l : list Z) : Forall (λ z, 0 ≤ z) l → foldr Z.add 0 l ≤ 0 → Forall (λ z, z = 0) l.
Proof.
  assert (∀ l, Forall (λ z, 0 ≤ z) l → 0 ≤ foldr Z.add 0 l) as Hpos.
  { induction 1; simpl; lia. }
  induction 1 as [|z l Hz Hl IH]; simpl; intros Hs; [constructor|].
  specialize (Hpos l Hl). constructor; [lia|]. apply IH. lia.
Qed.

(** A rebalancing that succeeds leaves every partition of the cached table
    where the ring of the online storage nodes puts it: either all rows are there
    already and nothing is written, or the stored table is the next version with
    every row on its two ring nodes, an epoch bumped exactly where the primary
    moved, and no partition added or dropped. *)
Lemma RebalancePartitions_places (r r' : Router) :
  store_ok (R_store r) → Router_RebalancePartitions r = (r', None) →
  ∃ nodes, nodes ≡ₚ storage_nodes (view (R_store r)) ∧
    let online := filter (λ n, NI_Status n = NodeStatusOnline) nodes in
    let ring := build_ring (NI_Addr <$> online) in
    MinReplicaNodes ≤ len online ∧
    ((∀ id p, RT_Partitions (R_routeTable r) !! id = Some p →
        (RP_Primary p, RP_Replica p) = ConsistentHash_GetNodes ring id) ∧
     view (R_store r') = view (R_store r) ∨
     sv_table (view (R_store r')) = mkRouteTable (u64 (RT_Version (sv_table (view (R_store r))) + 1))
       (RT_Partitions (sv_table (view (R_store r')))) ∧
     ∀ id, match RT_Partitions (R_routeTable r) !! id,
             RT_Partitions (sv_table (view (R_store r'))) !! id with
       | Some p, Some p' => (RP_Primary p', RP_Replica p') = ConsistentHash_GetNodes ring id ∧
           RP_ID p' = RP_ID p ∧ RP_Status p' = RP_Status p ∧
           RP_Epoch p' = (if decide (RP_Primary p' = RP_Primary p) then RP_Epoch p
                          else u64 (RP_Epoch p + 1))
       | None, None => True
       | _, _ => False
       end).
Proof.
  intros Hok. unfold Router_RebalancePartitions. pose proof (ListNodes_storage (R_store r) Hok) as Hl.
  destruct (ListNodes (R_store r) NodeRoleStorage) as [s1 [nodes|err]]; [|done].
  destruct Hl as (Hok1 & Hv1 & Hl). cbn [R_store R_set_store R_set_ring R_routeTable].
  set (online := filter _ nodes). destruct (Z.ltb_spec (len online) MinReplicaNodes); [done|].
  set (ring := build_ring _). intros Hrun. exists nodes. split; [by apply Hl|]. split; [done|].
  destruct (Z.ltb_spec 0 (foldr Z.add 0 (changes ring <$> map_to_list (RT_Partitions (R_routeTable r)))))
    as [_|Hz].
  - right. revert Hrun. match goal with |- context [UpdateRouteTable ?s ?t] =>
      pose proof (law_UpdateRouteTable s t Hok1) as Hlaw; destruct (UpdateRouteTable s t) as [[s' t'] err] end.
    destruct Hlaw as (_ & _ & _ & [Hd _]). intros [= <- ->]. specialize (Hd eq_refl).
    cbn [R_store R_set_store fst snd] in *. rewrite Hd, Hv1. split; [done|]. intros id.
    cbn [sv_set_table sv_table next_table RT_Partitions]. rewrite map_lookup_imap.
    destruct (RT_Partitions (R_routeTable r) !! id) as [p|]; simpl; [|done]. unfold rebalanced.
    cbv zeta. fold online. fold ring. destruct (ConsistentHash_GetNodes ring id) as [np nr]. simpl.
    destruct (decide (RP_Primary p = np)) as [<-|Hne], (decide (RP_Replica p = nr)) as [<-|];
      split_and!; try done; (by rewrite decide_True) || (by rewrite decide_False by congruence).
  - left. injection Hrun as <-. split; [|done]. intros id p Hp. apply changes_zero.
    apply sum_zero in Hz; [|apply Forall_fmap, Forall_forall; intros; apply changes_nonneg].
    rewrite Forall_fmap, Forall_forall in Hz. apply (Hz (id, p)). by apply elem_of_map_to_list.
Qed.

(** ** Migration state *)

Lemma CompleteMigration_done (r r' : Router) id p newNode isPrimary :
  store_ok (R_store r) → RT_Partitions (R_routeTable r) !! id = Some p →
  Router_CompleteMigration r id newNode isPrimary = (r', None) →
  store_ok (R_store r') ∧ R_routeTable r' = R_routeTable r ∧ R_hashRing r' = R_hashRing r ∧
  sv_table (view (R_store r')) = mkRouteTable (u64 (RT_Version (sv_table (view (R_store r))) + 1))
    (<[id := migrated_partition p newNode isPrimary]> (copy_partition <$> RT_Partitions (R_routeTable r))) ∧
  sv_cluster (view (R_store r')) = sv_cluster (view (R_store r)) ∧
  sv_nodes (view (R_store r')) = sv_nodes (view (R_store r)).
Proof.
  intros Hok Hp. unfold Router_CompleteMigration.
  pose proof (law_DeleteMigrationState (R_store r) id Hok) as [Hok1 [_ Hdel]].
  destruct (DeleteMigrationState (R_store r) id) as [s1 err1].
  cbn [fst snd R_store R_set_store R_routeTable] in *. rewrite Hp.
  match goal with |- context [UpdateRouteTable ?s ?t] =>
    pose proof (law_UpdateRouteTable s t Hok1) as Hlaw; destruct (UpdateRouteTable s t) as [[s' t'] err] end.
  destruct Hlaw as (Hok' & _ & _ & [Hd _]). intros [= <- ->]. specialize (Hd eq_refl).
  cbn [R_store R_set_store R_routeTable R_hashRing fst snd] in *. rewrite Hd.
  destruct Hdel as [->| ->]; done.
Qed.

(** Completing a migration installs the new placement: the new
    node as primary with the old primary as replica and the next epoch, or the
    new node as replica at the same epoch, with status normal. *)
Lemma CompleteMigration_installs (r r' : Router) id p newNode isPrimary :
  store_ok (R_store r) → RT_Partitions (R_routeTable r) !! id = Some p →
  Router_CompleteMigration r id newNode isPrimary = (r', None) →
  (∃ q, RT_Partitions (sv_table (view (R_store r'))) !! id = Some q ∧
     RP_Status q = PartitionStatusNormal ∧
     (if isPrimary then RP_Primary q = newNode ∧ RP_Epoch q = u64 (RP_Epoch p + 1) ∧
        (RP_Primary p ≠ newNode → RP_Replica q = RP_Primary p)
      else RP_Replica q = newNode ∧ RP_Primary q = RP_Primary p ∧ RP_Epoch q = RP_Epoch p)) ∧
  (∀ k, k ≠ id → RT_Partitions (sv_table (view (R_store r'))) !! k =
     copy_partition <$> RT_Partitions (R_routeTable r) !! k) ∧
  sv_cluster (view (R_store r')) = sv_cluster (view (R_store r)) ∧
  sv_nodes (view (R_store r')) = sv_nodes (view (R_store r)).
Proof.
  intros Hok Hp Hrun.
  destruct (CompleteMigration_done r r' id p newNode isPrimary Hok Hp Hrun) as (_ & _ & _ & -> & -> & ->).
  cbn [RT_Partitions]. split_and!; [| |done..].
  - rewrite lookup_insert_eq. eexists. split; [done|]. unfold migrated_partition.
    destruct isPrimary; simpl; [|done]. split_and!; [done..|]. intros. by rewrite decide_True.
  - intros k Hk. by rewrite lookup_insert_ne, lookup_fmap.
Qed.

End RouterProofs.

(** ** Concrete clusters *)

Lemma kv_ok_empty : kv_ok ∅.
Proof. split; intros *; by rewrite lookup_empty. Qed.

Definition demo_node (id addr : string) : NodeInfo := mkNodeInfo id addr NodeRoleStorage "" 0 0 [].

(** Three registered storage nodes, nothing allocated. *)
Definition demo_store : MemEtcd :=
  foldl (λ s n, (RegisterNode s 7 n).1) (mkMemEtcd ∅ [])
    [demo_node "n1" "storage-1:9001"; demo_node "n2" "storage-2:9001"; demo_node "n3" "storage-3:9001"].

Lemma demo_store_ok : store_ok demo_store.
Proof.
  assert (∀ (ns : list NodeInfo) (s : MemEtcd), store_ok s →
    store_ok (foldl (λ s n, (RegisterNode s 7 n).1) s ns)) as Hregs.
  { induction ns as [|n ns IH]; intros s Hs; [done|]. apply IH. by apply (law_RegisterNode s 7 n). }
  apply Hregs. apply kv_ok_empty.
Qed.

Definition demo_router : Router := NewRouter demo_store.

Lemma demo_addrs_of_store :
  NI_Addr <$> storage_nodes (store_view demo_store) =
  ["storage-3:9001"; "storage-1:9001"; "storage-2:9001"].
Proof. vm_compute. reflexivity. Qed.

Lemma InitCluster_two_phase_witness :
  store_ok (R_store demo_router) ∧
  (let '(r', err) := Router_InitCluster demo_router in
   store_ok (R_store r') ∧
   init_post (store_view (R_store demo_router)) (store_view (R_store r')) (R_routeTable r') err).
Proof. split; [apply demo_store_ok|]. apply (InitCluster_two_phase demo_router). apply demo_store_ok. Defined.

Lemma demo_init_succeeds : Router_InitCluster demo_router = ((Router_InitCluster demo_router).1, None).
Proof. rewrite (surjective_pairing (Router_InitCluster demo_router)) at 1. f_equal. Qed.

Lemma InitCluster_replicates_witness :
  ∃ p, RT_Partitions (R_routeTable (Router_InitCluster demo_router).1) !! 17 = Some p ∧ RP_ID p = 17 ∧
    RP_Primary p ∈ NI_Addr <$> storage_nodes (store_view (R_store demo_router)) ∧
    RP_Replica p ∈ NI_Addr <$> storage_nodes (store_view (R_store demo_router)) ∧
    RP_Primary p ≠ RP_Replica p ∧ RP_Status p = PartitionStatusNormal ∧ RP_Epoch p = 1.
Proof.
  apply (InitCluster_replicates demo_router (Router_InitCluster demo_router).1) with (i := 17).
  - apply demo_store_ok.
  - apply demo_init_succeeds.
  - change (R_store demo_router) with demo_store. rewrite demo_addrs_of_store.
    intros a Ha. destruct (demo_collision_free a) as [H1 H2]; [unfold demo_addrs; set_solver|].
    split; [done|]. intros b x Hb. apply H2. unfold demo_addrs. set_solver.
  - change (R_store demo_router) with demo_store. rewrite demo_addrs_of_store. set_solver.
  - change (R_store demo_router) with demo_store. rewrite demo_addrs_of_store. vm_compute. lia.
Defined.

(** Two partitions between nodes A and B, with an up-to-date cache. *)
Definition demo_table : RouteTable := mkRouteTable 5
  (list_to_map [(1, mkRoutePartition 1 "A" "B" "normal" "" MIGRATION_NONE 1);
                (2, mkRoutePartition 2 "A" "B" "normal" "" MIGRATION_NONE 1)]).

Definition demo_running : Router :=
  mkRouter (mkMemEtcd {[ routeTableKey := VTable demo_table ]} []) demo_table
    (NewConsistentHash DefaultVirtualNodes) ∅.

Lemma demo_running_synced : synced demo_running.
Proof.
  split; [|vm_compute; reflexivity].
  change (kv_ok (<[routeTableKey := VTable demo_table]> ∅)). apply kv_ok_insert; [constructor|apply kv_ok_empty].
Qed.

Lemma epochs_fence_primaries_witness :
  let r' := deliver (run_op (deliver (run_op demo_running (OpPromote 1)).1) (OpComplete 1 "C" true)).1 in
  RT_Partitions (R_routeTable r') !! 1 = Some (mkRoutePartition 1 "C" "B" "normal" "" MIGRATION_NONE 3) ∧
  ∀ id, match RT_Partitions (R_routeTable demo_running) !! id, RT_Partitions (R_routeTable r') !! id with
    | Some p, Some p' => RP_Epoch p ≤ RP_Epoch p' ∧
        (RP_Epoch p = RP_Epoch p' → RP_Primary p = RP_Primary p')
    | None, None => True
    | _, _ => False
    end.
Proof.
  split; [vm_compute; reflexivity|]. apply (epochs_fence_primaries 2 demo_running).
  - apply demo_running_synced.
  - apply nsteps_l with (deliver (run_op demo_running (OpPromote 1)).1); [apply step_op|].
    apply nsteps_once, step_op.
  - change (map_Forall (λ (_ : Z) p, 0 ≤ RP_Epoch p ∧ RP_Epoch p + 2 < 2 ^ 64)
      (RT_Partitions (R_routeTable demo_running))).
    apply (bool_decide_unpack _). vm_compute. exact I.
Defined.

Lemma undelivered_promotion_is_lost_witness :
  let r1 := (Router_PromoteReplica demo_running 1).1 in
  let r2 := (Router_PromoteReplica r1 2).1 in
  (∃ q, RT_Partitions (sv_table (store_view (R_store r1))) !! 1 = Some q ∧
     RP_Primary q = "B" ∧ RP_Epoch q = u64 (1 + 1)) ∧
  (∃ q, RT_Partitions (sv_table (store_view (R_store r2))) !! 1 = Some q ∧
     RP_Primary q = "A" ∧ RP_Replica q = "B" ∧ RP_Epoch q = 1).
Proof.
  apply (undelivered_promotion_is_lost demo_running (Router_PromoteReplica demo_running 1).1
    (Router_PromoteReplica (Router_PromoteReplica demo_running 1).1 2).1 1 2
    (mkRoutePartition 1 "A" "B" "normal" "" MIGRATION_NONE 1)
    (mkRoutePartition 2 "A" "B" "normal" "" MIGRATION_NONE 1)).
  - apply demo_running_synced.
  - done.
  - reflexivity.
  - reflexivity.
  - vm_compute. reflexivity.
  - vm_compute. reflexivity.
Defined.

(** Partition 1 is misplaced and nodes 1 and 2 are online. *)
Definition demo_unbalanced : Router :=
  mkRouter demo_store (mkRouteTable 5
    {[ 1 := mkRoutePartition 1 "storage-9:9001" "storage-1:9001" "normal" "" MIGRATION_NONE 4 ]})
    (NewConsistentHash DefaultVirtualNodes) ∅.

Lemma demo_rebalance_succeeds :
  Router_RebalancePartitions demo_unbalanced = ((Router_RebalancePartitions demo_unbalanced).1, None).
Proof.
  assert ((Router_RebalancePartitions demo_unbalanced).2 = None) as Hn by (vm_compute; reflexivity).
  destruct (Router_RebalancePartitions demo_unbalanced). simpl in *. by subst.
Qed.

Lemma RebalancePartitions_places_witness :
  ∃ nodes, nodes ≡ₚ storage_nodes (store_view (R_store demo_unbalanced)) ∧
    let online := filter (λ n, NI_Status n = NodeStatusOnline) nodes in
    let ring := build_ring (NI_Addr <$> online) in
    let r' := (Router_RebalancePartitions demo_unbalanced).1 in
    MinReplicaNodes ≤ len online ∧
    ((∀ id p, RT_Partitions (R_routeTable demo_unbalanced) !! id = Some p →
        (RP_Primary p, RP_Replica p) = ConsistentHash_GetNodes ring id) ∧
     store_view (R_store r') = store_view (R_store demo_unbalanced) ∨
     sv_table (store_view (R_store r')) =
       mkRouteTable (u64 (RT_Version (sv_table (store_view (R_store demo_unbalanced))) + 1))
       (RT_Partitions (sv_table (store_view (R_store r')))) ∧
     ∀ id, match RT_Partitions (R_routeTable demo_unbalanced) !! id,
             RT_Partitions (sv_table (store_view (R_store r'))) !! id with
       | Some p, Some p' => (RP_Primary p', RP_Replica p') = ConsistentHash_GetNodes ring id ∧
           RP_ID p' = RP_ID p ∧ RP_Status p' = RP_Status p ∧
           RP_Epoch p' = (if decide (RP_Primary p' = RP_Primary p) then RP_Epoch p
                          else u64 (RP_Epoch p + 1))
       | None, None => True
       | _, _ => False
       end).
Proof.
  apply (RebalancePartitions_places demo_unbalanced (Router_RebalancePartitions demo_unbalanced).1).
  - apply demo_store_ok.
  - apply demo_rebalance_succeeds.
Defined.

Lemma CompleteMigration_installs_witness :
  let r' := (Router_CompleteMigration demo_running 1 "C" true).1 in
  (∃ q, RT_Partitions (sv_table (store_view (R_store r'))) !! 1 = Some q ∧
     RP_Status q = PartitionStatusNormal ∧ RP_Primary q = "C" ∧ RP_Epoch q = u64 (1 + 1) ∧
     ("A" ≠ "C" → RP_Replica q = "A")) ∧
  (∀ k, k ≠ 1 → RT_Partitions (sv_table (store_view (R_store r'))) !! k =
     copy_partition <$> RT_Partitions (R_routeTable demo_running) !! k) ∧
  sv_cluster (store_view (R_store r')) = sv_cluster (store_view (R_store demo_running)) ∧
  sv_nodes (store_view (R_store r')) = sv_nodes (store_view (R_store demo_running)).
Proof.
  apply (CompleteMigration_installs demo_running (Router_CompleteMigration demo_running 1 "C" true).1 1
    (mkRoutePartition 1 "A" "B" "normal" "" MIGRATION_NONE 1) "C" true).
  - apply demo_running_synced.
  - reflexivity.
  - vm_compute. reflexivity.
Defined.
