(* ===== verification/EtcdWatch.v ===== *)
(** * Watching etcd

    The watches of [src/pkg/metadata/etcd.go], through which the router of a
    metadata server learns of the tables that others write: [WatchRouteTable],
    [WatchNodes] and the goroutine of [Router.Start]; the per-partition keys; and
    the compaction of [src/pkg/metadata/etcd_compact.go].

    etcd's watch reports the events from the moment it was begun; the goroutine
    that reads it drops a table when its channel is full.  The tables that are
    written, the beginning of the watch, the reports and the deliveries are
    separate steps of [watch_step]. *)

From S2P Require Import Prelude Proto HashRing MetaStore MetaRouter.

(** ** Events *)

(** [create]: [event.IsCreate()]. *)
Inductive etcd_event :=
  | EvPut (key : string) (value : etcd_value) (create : bool)
  | EvDelete (key : string).

(** The body of [WatchRouteTable]'s loops: what [ch] holds after an event.  Its
    capacity is that of the subscribers' channels. *)
Definition EtcdStore_WatchRouteTable (ch : list RouteTable) (ev : etcd_event) : list RouteTable :=
  match ev with
  | EvPut _ (VTable table) _ => try_send ch table
  | _ => ch
  end.

Definition NodeEventAdded : string := "added".
Definition NodeEventRemoved : string := "removed".
Definition NodeEventUpdated : string := "updated".

Record NodeEvent := mkNodeEvent { NE_Type : string; NE_NodeID : string; NE_Node : option NodeInfo }.

(** [key[len(nodePrefix):]] of a longer key. *)
Definition node_id_of (key : string) : string :=
  if decide (String.length nodePrefix < String.length key)%nat
  then String.substring (String.length nodePrefix) (String.length key - String.length nodePrefix) key
  else "".

(** The event of [WatchNodes]; a value that does not unmarshal is skipped. *)
Definition node_event (ev : etcd_event) : option NodeEvent :=
  match ev with
  | EvPut key (VNode node) create =>
      Some (mkNodeEvent (if create then NodeEventAdded else NodeEventUpdated) (node_id_of key) (Some node))
  | EvPut _ _ _ => None
  | EvDelete key => Some (mkNodeEvent NodeEventRemoved (node_id_of key) None)
  end.

Definition WatchBuffer : nat := 10.

Definition EtcdStore_WatchNodes (ch : list NodeEvent) (ev : etcd_event) : list NodeEvent :=
  match node_event ev with
  | Some e => if decide (length ch < WatchBuffer)%nat then (ch ++ [e])%list else ch
  | None => ch
  end.

(** ** Compaction *)

(** [compactHistory]: the revision that is compacted to, and the error.  [status]
    is the current revision. *)
Definition compactHistory (status : option Z) (compact_ok defragment_ok : bool) : option Z * option goerr :=
  match status with
  | None => (None, Some (Errorf "status failed"))
  | Some currentRevision =>
      if 100 <? currentRevision then
        if compact_ok then (Some (currentRevision - 100), None) else (None, Some (Errorf "compact failed"))
      else (None, None)
  end.

(** The ticks of [StartAutoCompact]: an error is only logged, so the last revision
    compacted to is what remains. *)
Definition StartAutoCompact (compacted : option Z) (ticks : list (option Z * bool * bool)) : option Z :=
  foldl (λ acc '(status, compact_ok, defragment_ok),
    match (compactHistory status compact_ok defragment_ok).1 with Some rev => Some rev | None => acc end)
    compacted ticks.

(** Every compaction leaves the last hundred revisions, and with revisions that do
    not go back the compacted one does not either. *)
Lemma compaction_keeps_history ticks compacted :
  (∀ c, compacted = Some c → ∀ rev b d, (Some rev, b, d) ∈ ticks → c + 100 ≤ rev) →
  (∀ i j ri rj bi bj di dj, (i ≤ j)%nat → ticks !! i = Some (Some ri, bi, di) →
     ticks !! j = Some (Some rj, bj, dj) → ri ≤ rj) →
  ∀ c, StartAutoCompact compacted ticks = Some c →
    (∀ c0, compacted = Some c0 → c0 ≤ c) ∧
    (compacted = Some c ∨ ∃ rev b d, (Some rev, b, d) ∈ ticks ∧ c = rev - 100 ∧ 0 < c).
Proof.
  revert compacted. induction ticks as [|[[st b] d] ticks IH]; intros compacted Hc Hm c; cbn [StartAutoCompact foldl].
  { intros ->. split; [by intros c0 [= ->]|by left]. }
  intros Hrun. set (next := match (compactHistory st b d).1 with Some rev => Some rev | None => compacted end) in Hrun.
  assert (next = compacted ∨ ∃ rev, st = Some rev ∧ next = Some (rev - 100) ∧ 100 < rev) as Hnext.
  { unfold next, compactHistory. destruct st as [rev|]; [|by left]. destruct (Z.ltb_spec 100 rev); [|by left].
    destruct b; [right; by exists rev|by left]. }
  destruct (IH next) with (c := c) as [Hle Hsrc].
  - intros c0 Hc0 rev b' d' Hin. destruct Hnext as [E|(r & -> & E & _)].
    + rewrite E in Hc0. eapply Hc; [done|]. by right.
    + rewrite E in Hc0. simplify_eq. apply list_elem_of_lookup in Hin as [j Hj].
      assert (r ≤ rev); [|lia]. by apply (Hm 0%nat (S j) r rev b b' d d'); [lia|..].
  - intros i j ri rj bi bj di dj Hij Hi Hj. by apply (Hm (S i) (S j) ri rj bi bj di dj); [lia|..].
  - exact Hrun.
  - split.
    + intros c0 Hc0. destruct Hnext as [E|(r & -> & E & _)]; [apply Hle; by rewrite E|].
      specialize (Hle _ E). assert (c0 + 100 ≤ r); [|lia]. eapply Hc; [done|]. by left.
    + destruct Hsrc as [E'|(rev & b' & d' & Hin & Hr)]; [|right; exists rev, b', d'; split; [by right|done]].
      destruct Hnext as [E|(r & -> & E & Hr)]; [left; congruence|].
      right. exists r, b, d. split; [by left|]. split; [congruence|]. rewrite E in E'. simplify_eq. lia.
Qed.

(** ** The per-partition keys *)

Lemma UpdatePartition_GetPartition {E} `{EtcdLaws E} (s s' : E) p :
  EtcdStore_UpdatePartition s p = (s', None) →
  ∀ r, (EtcdStore_GetPartition s' (RP_ID p)).2 = Ok r → r = Some p.
Proof.
  unfold EtcdStore_UpdatePartition, EtcdStore_GetPartition. set (k := partitionPrefix +:+ decimal (RP_ID p)).
  pose proof (etcd_Put_done s k (VPartition p)) as Hp. destruct (etcd_Put s k (VPartition p)) as [s1 ok].
  destruct ok; intros [= <-]. specialize (Hp eq_refl). cbn [fst] in Hp. intros r.
  pose proof (etcd_Get_result s1 k) as Hg. destruct (etcd_Get s1 k) as [s2 [resp|]]; [|done].
  specialize (Hg resp eq_refl). rewrite Hp, lookup_insert_eq in Hg. subst resp. by intros [= <-].
Qed.

(** ** The router and its watch *)

Section Watch.
  Context {St : Type} `{Store St}.

(** The tables written after the router loaded its first one, in the order of
    their revisions; how many of them there were when the watch began, and how many
    it has reported; the channel; the router; the tables of its own allocations that
    it has written and not yet put into its cache.  For the statements: the table
    loaded first, whether a report was dropped, and the table an allocation has put
    into the cache since the last delivery. *)
Record WatchSystem := mkWatchSystem {
  ws_written : list RouteTable;
  ws_watch : option (nat * nat);
  ws_ch : list RouteTable;
  ws_router : @Router St;
  ws_own : list RouteTable;
  ws_loaded : RouteTable;
  ws_dropped : bool;
  ws_installed : option RouteTable
}.

(** [Router.Start] has loaded a table. *)
Definition watch_start (r : @Router St) : WatchSystem := mkWatchSystem [] None [] r [] (R_routeTable r) false None.

(** A write by any server; a write by [allocatePartitions] of this router, which
    then puts the table into its own cache; the beginning of the watch; a report of
    the watch; a delivery. *)
Inductive watch_step : WatchSystem → WatchSystem → Prop :=
  | wt_write w o ch r own l d ins t : RT_Version (default l (last w)) < RT_Version t →
      watch_step (mkWatchSystem w o ch r own l d ins) (mkWatchSystem (w ++ [t]) o ch r own l d ins)
  | wt_allocate w o ch r own l d ins t : RT_Version (default l (last w)) < RT_Version t →
      watch_step (mkWatchSystem w o ch r own l d ins) (mkWatchSystem (w ++ [t]) o ch r (own ++ [t]) l d ins)
  | wt_install w o ch r own1 t own2 l d ins :
      watch_step (mkWatchSystem w o ch r (own1 ++ t :: own2) l d ins)
        (mkWatchSystem w o ch (Router_updateRouteTable r t) (own1 ++ own2) l d (Some t))
  | wt_begin w r own l d ins :
      watch_step (mkWatchSystem w None [] r own l d ins)
        (mkWatchSystem w (Some (length w, length w)) [] r own l d ins)
  | wt_report w b i ch r own l d ins t : w !! i = Some t →
      watch_step (mkWatchSystem w (Some (b, i)) ch r own l d ins)
        (mkWatchSystem w (Some (b, S i)) (EtcdStore_WatchRouteTable ch (EvPut routeTableKey (VTable t) false)) r own l
          (d || bool_decide (SubscriberBuffer ≤ length ch)%nat) ins)
  | wt_apply w o t ch r own l d ins :
      watch_step (mkWatchSystem w o (t :: ch) r own l d ins) (mkWatchSystem w o ch (Router_watch r t) own l d None).

Abbreviation older := (λ t t' : RouteTable, RT_Version t < RT_Version t').

(** What the router has applied and will apply is a part, in order, of what the
    watch reported; all of it while nothing was dropped.  The cache holds the last
    table applied, unless an allocation has put one there since. *)
Record watch_inv (sys : WatchSystem) : Prop := {
  wi_sorted : StronglySorted older (ws_loaded sys :: ws_written sys);
  wi_own : ∀ t, t ∈ ws_own sys ∨ ws_installed sys = Some t → t ∈ ws_written sys;
  wi_reports : match ws_watch sys with
    | None => ws_ch sys = [] ∧ R_routeTable (ws_router sys) = default (ws_loaded sys) (ws_installed sys)
    | Some (b, i) => (b ≤ i ≤ length (ws_written sys))%nat ∧
        ∃ applied, R_routeTable (ws_router sys) =
            default (default (ws_loaded sys) (last applied)) (ws_installed sys) ∧
          applied ++ ws_ch sys `sublist_of` take (i - b) (drop b (ws_written sys)) ∧
          (ws_dropped sys = false → (applied ++ ws_ch sys = take (i - b) (drop b (ws_written sys)))%list)
    end
}.

Lemma take_drop_snoc {A} (w : list A) b i t :
  (b ≤ i)%nat → w !! i = Some t → take (S i - b) (drop b w) = (take (i - b) (drop b w) ++ [t])%list.
Proof.
  intros Hbi Hi. replace (S i - b)%nat with (S (i - b)) by lia. apply take_S_r. rewrite lookup_drop.
  by replace (b + (i - b))%nat with i by lia.
Qed.

Lemma StronglySorted_snoc {A} (R : relation A) `{!Transitive R} x l t :
  StronglySorted R (x :: l) → R (default x (last l)) t → StronglySorted R (x :: l ++ [t]).
Proof.
  revert x. induction l as [|y l IH]; intros x Hs Hr; cbn.
  - by repeat constructor.
  - apply StronglySorted_inv in Hs as [Hs Hx]. apply Forall_cons in Hx as [Hxy Hx].
    assert (StronglySorted R (y :: l ++ [t])) as Hyl.
    { apply IH; [done|]. by rewrite last_cons in Hr; destruct (last l). }
    constructor; [done|]. constructor; [done|]. apply Forall_app. split; [done|]. constructor; [|constructor].
    transitivity y; [done|]. apply StronglySorted_inv in Hyl as [_ Hy]. rewrite Forall_forall in Hy.
    apply Hy, elem_of_app. right. by left.
Qed.

(** A write leaves what was reported. *)
Lemma write_inv w o ch r own own' l d ins t :
  RT_Version (default l (last w)) < RT_Version t → (∀ x, x ∈ own' → x ∈ own ∨ x = t) →
  watch_inv (mkWatchSystem w o ch r own l d ins) → watch_inv (mkWatchSystem (w ++ [t]) o ch r own' l d ins).
Proof.
  intros Ht Hown [Hs Ho Hr]. cbn in *. split; cbn; [apply StronglySorted_snoc; [intros ???; lia|done..]| |].
  { intros x Hx. apply elem_of_app. destruct Hx as [[?| ->]%Hown|?]; [left; auto|right; by left|left; auto]. }
  destruct o as [[b i]|]; [|done].
  destruct Hr as (Hbi & applied & Ht' & Hsub & Heq). rewrite length_app. split; [cbn; lia|].
  exists applied. rewrite drop_app_le, take_app_le by (rewrite ?length_drop; lia). done.
Qed.

Lemma watch_step_inv sys sys' : watch_step sys sys' → watch_inv sys → watch_inv sys'.
Proof.
  intros Hstep HI. destruct Hstep as [w o ch r own l d ins t Ht|w o ch r own l d ins t Ht|w o ch r own1 t own2 l d ins
    |w r own l d ins|w b i ch r own l d ins t Hi|w o t ch r own l d ins].
  - apply (write_inv w o ch r own); [done|auto|done].
  - apply (write_inv w o ch r own); [done| |done]. intros x [?|?%list_elem_of_singleton]%elem_of_app; auto.
  - destruct HI as [Hs Ho Hr]. split; cbn in *; [done| |].
    { intros x [Hx|[= <-]]; apply Ho; left; set_solver. }
    destruct o as [[b i]|]; [|by destruct Hr]. destruct Hr as (Hbi & applied & _ & Hr). split; [done|]. by exists applied.
  - destruct HI as [Hs Ho [_ Hl]]. split; cbn in *; [done..|]. split; [lia|]. exists []. cbn.
    by rewrite Nat.sub_diag, take_0.
  - destruct HI as [Hs Ho (Hbi & applied & Ht' & Hsub & Heq)]. cbn in *. assert (Hlt := lookup_lt_Some _ _ _ Hi).
    split; cbn; [done..|]. split; [lia|]. exists applied. split; [done|]. rewrite (take_drop_snoc w b i t) by (lia || done).
    unfold try_send. destruct (decide (length ch < SubscriberBuffer)%nat).
    + rewrite bool_decide_eq_false_2, orb_false_r by lia. rewrite app_assoc. split; [by apply sublist_app|].
      intros Hd. by rewrite Heq.
    + rewrite bool_decide_eq_true_2, orb_true_r by lia. split; [|done]. by apply sublist_inserts_r.
  - destruct HI as [Hs Ho Hr]. cbn in *. destruct o as [[b i]|]; [|by destruct Hr].
    destruct Hr as (Hbi & applied & Ht' & Hsub & Heq). split; cbn; [done|by intros x [?|?]; [auto|done]|]. split; [done|].
    exists (applied ++ [t])%list. rewrite last_snoc, <- app_assoc. done.
Qed.

Lemma watch_reach_inv sys sys' : rtc watch_step sys sys' → watch_inv sys → watch_inv sys'.
Proof. induction 1; eauto using watch_step_inv. Qed.

Lemma watch_start_inv r : watch_inv (watch_start r).
Proof. split; cbn; [by repeat constructor|by intros t [?%not_elem_of_nil|?]|done]. Qed.

Lemma last_drop_lt {A} (l : list A) n : (n < length l)%nat → last (drop n l) = last l.
Proof.
  intros Hn. rewrite <- (take_drop n l) at 2. rewrite last_app.
  destruct (last (drop n l)) eqn:E; [done|]. apply last_None, (f_equal length) in E.
  rewrite length_drop in E. cbn in E. lia.
Qed.

(** A sublist of tables in the order of their versions is in that order too, after
    the loaded one. *)
Lemma sublist_sorted l (k w : list RouteTable) :
  StronglySorted older (l :: w) → k `sublist_of` w → StronglySorted older (l :: k).
Proof.
  intros [Hw Hl]%StronglySorted_inv Hsub. constructor.
  - clear Hl. induction Hsub as [|x k w Hsub IH|x k w Hsub IH]; [constructor|..];
      apply StronglySorted_inv in Hw as [Hw Hx]; [|by apply IH].
    constructor; [by apply IH|]. rewrite Forall_forall in *. intros y Hy. apply Hx. by eapply elem_of_sublist.
  - rewrite Forall_forall in *. intros y Hy. apply Hl. by eapply elem_of_sublist.
Qed.

(** The next table is newer than the last one applied. *)
Lemma sorted_next l (applied ch : list RouteTable) t :
  StronglySorted older (l :: applied ++ t :: ch) → RT_Version (default l (last applied)) < RT_Version t.
Proof.
  revert l. induction applied as [|x applied IH]; intros l Hs.
  - apply StronglySorted_inv in Hs as [_ Hs]. by apply Forall_cons in Hs as [? _].
  - apply StronglySorted_inv in Hs as [Hs _]. rewrite last_cons. specialize (IH x Hs). by destruct (last applied).
Qed.
End Watch.

(** C20: the cache of a metadata router follows the writes of all servers.  Whatever
    the order of writes, reports, deliveries and allocations of its own, and however
    many reports are dropped, the cached table is the one loaded at the start or one
    that was written; its version goes down only when an allocation puts its table
    into the cache or at the first delivery after that.  When every write was
    reported and delivered, none was dropped, the last write came after the watch
    began (or nothing was written), and no allocation has touched the cache since the
    last delivery, the cache holds the last table. *)
Theorem router_follows_watch {St} `{Store St} (r : @Router St) sys :
  rtc watch_step (watch_start r) sys →
  R_routeTable (ws_router sys) ∈ ws_loaded sys :: ws_written sys ∧
  (∀ sys', watch_step sys sys' → ws_installed sys = None → ws_installed sys' = None →
     RT_Version (R_routeTable (ws_router sys)) ≤ RT_Version (R_routeTable (ws_router sys'))) ∧
  (∀ b, ws_watch sys = Some (b, length (ws_written sys)) → ws_ch sys = [] → ws_dropped sys = false →
     (b < length (ws_written sys))%nat ∨ ws_written sys = [] → ws_installed sys = None →
     R_routeTable (ws_router sys) = default (ws_loaded sys) (last (ws_written sys))).
Proof.
  intros [Hs Ho Hrep]%watch_reach_inv; [|apply watch_start_inv]. split_and!.
  - destruct (ws_installed sys) as [t|] eqn:Hin.
    { right. assert (R_routeTable (ws_router sys) = t) as ->; [|auto].
      destruct (ws_watch sys) as [[b i]|]; [by destruct Hrep as (_ & applied & -> & _)|by destruct Hrep as [_ ->]]. }
    destruct (ws_watch sys) as [[b i]|]; [|destruct Hrep as [_ ->]; by left].
    destruct Hrep as (_ & applied & -> & Hsub & _). cbn. destruct (last applied) as [t|] eqn:El; [|by left]. right.
    apply last_Some_elem_of in El. assert (t ∈ take (i - b) (drop b (ws_written sys))) as Ht.
    { eapply elem_of_sublist; [|exact Hsub]. apply elem_of_app. by left. }
    apply elem_of_take in Ht as (j & Hj & _). rewrite lookup_drop in Hj. by eapply list_elem_of_lookup_2.
  - intros sys' Hstep Hin Hin'. destruct Hstep as [| | | | |w o t ch r0 own l d ins]; cbn in *; [lia|lia|done|lia|lia|].
    destruct o as [[b i]|]; [|by destruct Hrep]. subst ins. destruct Hrep as (_ & applied & -> & Hsub & _). cbn.
    apply Z.lt_le_incl, (sorted_next l applied ch). eapply sublist_sorted; [exact Hs|].
    etrans; [exact Hsub|]. etrans; [apply sublist_take|apply sublist_drop].
  - intros b Hb Hch Hd Hlast Hin. rewrite Hb, Hin in Hrep. destruct Hrep as (Hbi & applied & -> & _ & Heq). cbn.
    specialize (Heq Hd). rewrite Hch, app_nil_r in Heq. rewrite Heq, take_ge by (rewrite length_drop; lia).
    destruct Hlast as [Hlt| ->]; [|by rewrite drop_nil]. by rewrite last_drop_lt.
Qed.

Definition watched_table (v : Z) : RouteTable := mkRouteTable v ∅.

Lemma router_follows_watch_witness :
  ∃ sys, rtc watch_step (watch_start demo_router) sys ∧
    R_routeTable (ws_router sys) = watched_table 7.
Proof.
  set (t := watched_table 7). set (r := demo_router).
  set (sys := mkWatchSystem [t] (Some (0, 1)%nat) [] (Router_watch r t) [] (R_routeTable r) false None).
  assert (rtc watch_step (watch_start r) sys) as Hr.
  { eapply rtc_l; [apply (wt_begin [] r [] (R_routeTable r) false None)|].
    eapply rtc_l; [apply (wt_write [] _ [] r [] (R_routeTable r) false None t); by vm_compute|].
    eapply rtc_l; [apply (wt_report [t] 0 0 [] r [] (R_routeTable r) false None t); reflexivity|].
    eapply rtc_l; [apply (wt_apply [t] (Some (0, 1)%nat) t [] r [] (R_routeTable r) false None)|]. apply rtc_refl. }
  exists sys. split; [exact Hr|].
  destruct (router_follows_watch r sys Hr) as (_ & _ & Hlast).
  exact (Hlast 0%nat eq_refl eq_refl eq_refl (or_introl (le_n 1)) eq_refl).
Defined.

(** An allocation can take the cache back, in two ways: its own table is in the
    cache when an older one that was still in the channel is delivered; or a newer
    table has been delivered when the allocation puts its own into the cache, and
    then everything was reported and delivered and the cache stays behind. *)
Lemma allocation_goes_back {St} `{Store St} (r : @Router St) t1 t2 :
  RT_Version (R_routeTable r) < RT_Version t1 → RT_Version t1 < RT_Version t2 →
  (∃ sys sys', rtc watch_step (watch_start r) sys ∧ watch_step sys sys' ∧
     R_routeTable (ws_router sys) = t2 ∧ R_routeTable (ws_router sys') = t1) ∧
  ∃ sys, rtc watch_step (watch_start r) sys ∧ ws_watch sys = Some (0, 2)%nat ∧ ws_written sys = [t1; t2] ∧
    ws_ch sys = [] ∧ ws_dropped sys = false ∧ R_routeTable (ws_router sys) = t1.
Proof.
  intros H1 H2. set (l := R_routeTable r). split.
  - exists (mkWatchSystem [t1; t2] (Some (0, 1)%nat) [t1] (Router_updateRouteTable r t2) [] l false (Some t2)),
      (mkWatchSystem [t1; t2] (Some (0, 1)%nat) [] (Router_watch (Router_updateRouteTable r t2) t1) [] l false None).
    split_and!; [|apply wt_apply|done|done].
    eapply rtc_l; [apply wt_begin|]. eapply rtc_l; [by apply (wt_write [] _ [] r [] l false None t1)|].
    eapply rtc_l; [by apply (wt_report [t1] 0 0 [] r [] l false None t1)|].
    eapply rtc_l; [by apply (wt_allocate [t1] _ _ r [] l false None t2)|].
    eapply rtc_l; [apply (wt_install _ _ _ _ [] t2 [])|]. apply rtc_refl.
  - exists (mkWatchSystem [t1; t2] (Some (0, 2)%nat) [] (Router_updateRouteTable (Router_watch (Router_watch r t1) t2) t1)
      [] l false (Some t1)). split_and!; [|done..].
    eapply rtc_l; [apply wt_begin|]. eapply rtc_l; [by apply (wt_allocate [] _ [] r [] l false None t1)|].
    eapply rtc_l; [by apply (wt_write [t1] _ [] r [t1] l false None t2)|].
    eapply rtc_l; [by apply (wt_report [t1; t2] 0 0 [] r [t1] l false None t1)|].
    eapply rtc_l; [by apply (wt_report [t1; t2] 0 1 _ r [t1] l false None t2)|].
    eapply rtc_l; [apply wt_apply|]. eapply rtc_l; [apply wt_apply|].
    eapply rtc_l; [apply (wt_install _ _ _ _ [] t1 [])|]. apply rtc_refl.
Qed.

(** A table written after the router has loaded its first one and before the watch
    begins is never seen: everything is reported and delivered, nothing was
    dropped, and the cache stays behind until the next write. *)
Lemma load_watch_gap {St} `{Store St} (r : @Router St) t :
  RT_Version (R_routeTable r) < RT_Version t →
  rtc watch_step (watch_start r) (mkWatchSystem [t] (Some (1, 1)%nat) [] r [] (R_routeTable r) false None).
Proof.
  intros Hv. eapply rtc_l; [by apply wt_write|]. eapply rtc_l; [apply wt_begin|]. apply rtc_refl.
Qed.

(** A burst of eleven tables that the router has not taken yet loses the newest:
    the cache ends at the tenth. *)
Lemma burst_report_n {St} `{Store St} (r : @Router St) l w : ∀ n : nat, (n ≤ length w)%nat →
  (n ≤ SubscriberBuffer)%nat →
  rtc watch_step (mkWatchSystem w (Some (0, 0)%nat) [] r [] l false None)
    (mkWatchSystem w (Some (0, n)%nat) (take n w) r [] l false None).
Proof.
  induction n as [|n IH]; intros Hn Hb; [apply rtc_refl|].
  destruct (lookup_lt_is_Some_2 w n ltac:(lia)) as [t Ht].
  eapply rtc_r; [apply IH; lia|]. rewrite (take_S_r w n t Ht).
  pose proof (wt_report w 0 n (take n w) r [] l false None t Ht) as Hs. cbn in Hs. unfold try_send in Hs.
  rewrite length_take, Nat.min_l, decide_True, bool_decide_eq_false_2 in Hs by lia. exact Hs.
Qed.

Lemma burst_drops_newest {St} `{Store St} (r : @Router St) l w t :
  length w = SubscriberBuffer →
  rtc watch_step (mkWatchSystem (w ++ [t]) (Some (0, 0)%nat) [] r [] l false None)
    (mkWatchSystem (w ++ [t]) (Some (0, S SubscriberBuffer)%nat) w r [] l true None).
Proof.
  intros Hw. eapply rtc_r; [apply (burst_report_n r l (w ++ [t]) SubscriberBuffer); rewrite ?length_app; cbn; lia|].
  rewrite <- Hw, take_app_length. assert ((w ++ [t])%list !! length w = Some t) as Ht
    by (rewrite lookup_app_r, Nat.sub_diag by lia; done).
  pose proof (wt_report (w ++ [t]) 0 (length w) w r [] l false None t Ht) as Hs. cbn in Hs. unfold try_send in Hs.
  rewrite decide_False, bool_decide_eq_true_2 in Hs by lia. exact Hs.
Qed.
