(* ===== verification/MetaServer.v ===== *)
(** * The metadata service

    The handlers of [src/pkg/metadata/server.go] that registration, heartbeats
    and route distribution go through.  The server and its router share one
    store, so the state of the server is the one of the router.

    The second half follows a route table from the service to a storage node
    ([updatePartitionsFromRoute] of [src/pkg/storage/server.go]). *)

From S2P Require Import Prelude Engine Keys Proto Partitions Replicator StorageServer HashRing MetaStore MetaRouter.

#[local] Open Scope string_scope.
#[local] Open Scope Z_scope.

(** ** Conversions *)

Definition convertPartitionStatus (status : string) : PartitionStatus :=
  if decide (status = PartitionStatusNormal) then NORMAL
  else if decide (status = PartitionStatusMigratingOut) then MIGRATING_OUT
  else if decide (status = PartitionStatusMigratingIn) then MIGRATING_IN
  else if decide (status = PartitionStatusOffline) then OFFLINE
  else NORMAL.

(** A row of [GetRouteTable] and [sendRouteUpdate]: a field the literal does not
    name is zero. *)
Definition pb_partition (partition : RoutePartition) : PartitionInfo :=
  mkPartitionInfo (RP_ID partition) (RP_Primary partition) (RP_Replica partition)
    (convertPartitionStatus (RP_Status partition)) (RP_MigrationTarget partition)
    (RP_MigrationState partition) 0.

(** The message of [sendRouteUpdate]: version and rows, in the order of the
    range loop. *)
Definition sendRouteUpdate (table : RouteTable) : Z * list PartitionInfo :=
  (RT_Version table, (λ row : Z * RoutePartition, pb_partition row.2) <$> map_to_list (RT_Partitions table)).

Inductive pb_NodeRole := STORAGE | COMPUTE | METADATA.

Inductive pb_ClusterState := CLUSTER_PENDING | CLUSTER_INITIALIZING | CLUSTER_RUNNING.

Definition convertClusterState (state : string) : pb_ClusterState :=
  if decide (state = ClusterStatePending) then CLUSTER_PENDING
  else if decide (state = ClusterStateInitializing) then CLUSTER_INITIALIZING
  else if decide (state = ClusterStateRunning) then CLUSTER_RUNNING
  else CLUSTER_PENDING.

Inductive pb_NodeStatus := NODE_ONLINE | NODE_OFFLINE | NODE_DRAINING | NODE_REMOVED.

#[global] Instance pb_NodeStatus_eq_dec : EqDecision pb_NodeStatus.
Proof. solve_decision. Defined.

(** The status switch of [GetNodeStatus], its inner test included. *)
Definition node_status (status : string) : pb_NodeStatus :=
  if decide (status = NodeStatusOnline) then NODE_ONLINE
  else if decide (status = NodeStatusOffline) then NODE_OFFLINE
  else if decide (status = NodeStatusDraining) then NODE_DRAINING
  else if decide (status = NodeStatusRemoved) then NODE_REMOVED
  else if decide (status = "online") then NODE_ONLINE
  else NODE_OFFLINE.

Record NodeStatusResponse := mkNodeStatusResponse {
  NS_NodeId : string;
  NS_Status : pb_NodeStatus;
  NS_Addr : string;
  NS_LastHeartbeat : Z;
  NS_PrimaryPartitionCount : Z;
  NS_ReplicaPartitionCount : Z;
  NS_IsDraining : bool;
  NS_DrainingPartitionsRemaining : Z
}.

Section MetaServer.
  Context {S : Type} `{Store S}.

(** ** Handlers *)

(** A client that is up to date gets the version and no rows. *)
Definition MetaServer_GetRouteTable (r : @Router S) (version : Z) : Z * list PartitionInfo :=
  let table := Router_GetRouteTable r in
  if RT_Version table <=? version then (RT_Version table, [])
  else (RT_Version table,
    (λ row : Z * RoutePartition, pb_partition row.2) <$> map_to_list (RT_Partitions table)).

Definition MetaServer_tryInitializePartitions (r : @Router S) : Router :=
  if decide (0 < size (RT_Partitions (Router_GetRouteTable r)))%nat then r
  else (Router_InitializePartitions r).1.

Definition node_role (role : pb_NodeRole) : string :=
  match role with
  | STORAGE => NodeRoleStorage
  | COMPUTE => NodeRoleCompute
  | METADATA => NodeRoleMetadata
  end.

(** The response is whether the registration succeeded. *)
Definition MetaServer_RegisterNode (r : @Router S) (now : Z) (nodeId addr : string) (role : pb_NodeRole) :
    Router * bool :=
  let node := mkNodeInfo nodeId addr (node_role role) "" 0 0 [] in
  let '(s, err) := RegisterNode (R_store r) now node in
  let r := R_set_store r s in
  match err with
  | Some _ => (r, false)
  | None =>
      match role with
      | STORAGE => (MetaServer_tryInitializePartitions r, true)
      | _ => (r, true)
      end
  end.

(** Success and the route version. *)
Definition MetaServer_Heartbeat (r : @Router S) (nodeId : string) : Router * (bool * Z) :=
  let '(s, err) := UpdateNodeHeartbeat (R_store r) nodeId in
  let r := R_set_store r s in
  match err with
  | Some _ => (r, (false, 0))
  | None => (r, (true, RT_Version (Router_GetRouteTable r)))
  end.

(** State, replica count, storage nodes, partitions. *)
Definition MetaServer_GetClusterInfo (r : @Router S) :
    @Router S * result (pb_ClusterState * Z * Z * Z) :=
  let '(s, res) := GetClusterInfo (R_store r) in
  let r := R_set_store r s in
  match res with
  | Error err => (r, Error err)
  | Ok info =>
      let '(s, res) := ListNodes (R_store r) NodeRoleStorage in
      let r := R_set_store r s in
      match res with
      | Error err => (r, Error err)
      | Ok nodes =>
          (r, Ok (convertClusterState (CI_State info), i32 (CI_ReplicaCount info), i32 (len nodes),
            i32 (Z.of_nat (size (RT_Partitions (Router_GetRouteTable r))))))
      end
  end.

(** Success, partitions, nodes; a failure to list the nodes counts none. *)
Definition MetaServer_InitCluster (r : @Router S) : @Router S * (bool * Z * Z) :=
  let '(r, err) := Router_InitCluster r in
  match err with
  | Some _ => (r, (false, 0, 0))
  | None =>
      let '(s, res) := ListNodes (R_store r) NodeRoleStorage in
      let r := R_set_store r s in
      let nodes := match res with Ok nodes => nodes | Error _ => [] end in
      (r, (true, i32 (Z.of_nat (size (RT_Partitions (Router_GetRouteTable r)))), i32 (len nodes)))
  end.

Definition MetaServer_GetNodeStatus (r : @Router S) (nodeId : string) :
    @Router S * result NodeStatusResponse :=
  let '(s, res) := GetNode (R_store r) nodeId in
  let r := R_set_store r s in
  match res with
  | Error err => (r, Error err)
  | Ok None => (r, Error (Errorf "node not found"))
  | Ok (Some node) =>
      let '(primaryCount, replicaCount) := Router_GetNodePartitionCounts r (NI_Addr node) in
      let status := node_status (NI_Status node) in
      let isDraining := bool_decide (status = NODE_DRAINING) in
      let drainingRemaining := if isDraining then i32 (primaryCount + replicaCount) else 0 in
      (r, Ok (mkNodeStatusResponse (NI_ID node) status (NI_Addr node) (NI_LastHeartbeat node)
        (i32 primaryCount) (i32 replicaCount) isDraining drainingRemaining))
  end.

End MetaServer.

(** ** Registration *)

Section ServerProofs.
  Context {S : Type} `{StoreLaws S}.

(** Registering nodes places the partitions once.  A successful registration
    stores the node as online; when it is a storage node and no table is cached,
    the table in the store afterwards is the old one or the allocation over all
    storage nodes then listed, which there are at least two of; otherwise the
    table is left alone.  The cluster state never changes: automatic placement
    leaves a pending cluster pending. *)
Lemma RegisterNode_places_once (r : @Router S) now nodeId addr role :
  store_ok (R_store r) →
  let '(r', ok) := MetaServer_RegisterNode r now nodeId addr role in
  store_ok (R_store r') ∧
  sv_cluster (store_view (R_store r')) = sv_cluster (store_view (R_store r)) ∧
  (ok = true → sv_nodes (store_view (R_store r')) =
     <[nodeId := mkNodeInfo nodeId addr (node_role role) "online" now now []]>
       (sv_nodes (store_view (R_store r)))) ∧
  (sv_table (store_view (R_store r')) = sv_table (store_view (R_store r)) ∨
   role = STORAGE ∧ RT_Partitions (R_routeTable r) = ∅ ∧
   ∃ nodes, nodes ≡ₚ storage_nodes (store_view (R_store r')) ∧ MinReplicaNodes ≤ len nodes ∧
     sv_table (store_view (R_store r')) =
       next_table (store_view (R_store r)) (mkRouteTable 1 (allocation (build_ring (NI_Addr <$> nodes))))).
Proof.
  intros Hok. unfold MetaServer_RegisterNode.
  pose proof (law_RegisterNode (R_store r) now (mkNodeInfo nodeId addr (node_role role) "" 0 0 []) Hok)
    as [Hok1 [Hd1 He1]].
  destruct (RegisterNode (R_store r) now _) as [s1 [err|]]; cbn [fst snd] in *.
  { cbn [R_store R_set_store]. split_and!; [done| |done|]; destruct He1 as [->| ->]; simpl; auto. }
  specialize (Hd1 eq_refl). clear He1.
  assert (sv_cluster (store_view s1) = sv_cluster (store_view (R_store r)) ∧
    sv_table (store_view s1) = sv_table (store_view (R_store r))) as [Hc1 Ht1] by (by rewrite Hd1).
  destruct role; cbn [R_store R_set_store]; [|by rewrite Hd1; split_and!; auto..].
  unfold MetaServer_tryInitializePartitions. cbn [Router_GetRouteTable R_routeTable R_set_store].
  case_decide as Hsz; cbn [R_store R_set_store]; [by rewrite Hd1; split_and!; auto|].
  unfold Router_InitializePartitions. cbn [R_store R_set_store].
  pose proof (ListNodes_storage s1 Hok1) as Hl.
  destruct (ListNodes s1 NodeRoleStorage) as [s2 [nodes|err]]; destruct Hl as (Hok2 & Hv2 & Hl);
    cbn [fst R_store R_set_store]; [|by rewrite Hv2, Hd1; split_and!; auto].
  destruct (Z.ltb_spec (len nodes) MinReplicaNodes); cbn [fst R_store R_set_store];
    [by rewrite Hv2, Hd1; split_and!; auto|].
  pose proof (allocatePartitions_writes (R_set_store (R_set_store r s1) s2) nodes) as Ha.
  cbn [R_store R_set_store] in Ha. specialize (Ha Hok2).
  destruct (Router_allocatePartitions _ nodes) as [r3 err3]. destruct Ha as (Hok3 & [_ He3] & _).
  cbn [fst snd] in *. rewrite Hv2, Hd1 in He3. specialize (Hl nodes eq_refl). rewrite Hd1 in Hl.
  split_and!; [done| | |]; destruct He3 as [->| ->]; auto.
  right. split_and!; [done| |].
  - apply map_size_empty_inv. lia.
  - by exists nodes.
Qed.

End ServerProofs.

(** ** Route tables on their way to the storage nodes *)

(** Every row is filed under its own number. *)
Definition ids_ok (t : RouteTable) : Prop := map_Forall (λ id p, RP_ID p = id) (RT_Partitions t).

Lemma pb_partition_id p : PI_PartitionId (pb_partition p) = RP_ID p.
Proof. done. Qed.

Lemma sendRouteUpdate_ids t :
  ids_ok t → NoDup (map PI_PartitionId (sendRouteUpdate t).2).
Proof.
  intros Hids. assert (map PI_PartitionId (sendRouteUpdate t).2 = (map_to_list (RT_Partitions t)).*1) as ->.
  { unfold sendRouteUpdate. cbn [snd].
    assert (∀ id p, (id, p) ∈ map_to_list (RT_Partitions t) → RP_ID p = id) as Hin
      by (intros id p Hp%elem_of_map_to_list; by apply Hids).
    induction (map_to_list (RT_Partitions t)) as [|[id p] l IH]; [done|]. cbn [fmap list_fmap map].
    rewrite <- IH by set_solver. f_equal. apply Hin. left. }
  apply NoDup_fst_map_to_list.
Qed.

Lemma elem_of_sendRouteUpdate t row :
  row ∈ (sendRouteUpdate t).2 ↔ ∃ id p, RT_Partitions t !! id = Some p ∧ row = pb_partition p.
Proof.
  unfold sendRouteUpdate. cbn [snd]. rewrite list_elem_of_fmap. split.
  - intros ([id p] & -> & Hp%elem_of_map_to_list). eauto.
  - intros (id & p & Hp & ->). exists (id, p). by rewrite elem_of_map_to_list.
Qed.

Lemma hosted_row_elem nodeID table id row :
  hosted_row nodeID table id = Some row → row ∈ table.
Proof.
  induction table as [|p table IH]; [done|]. rewrite hosted_row_cons. case_decide; [|set_solver].
  intros [= ->]. left.
Qed.

Lemma hosted_row_Some nodeID table row :
  NoDup (map PI_PartitionId table) → row ∈ table → hosts nodeID row →
  hosted_row nodeID table (PI_PartitionId row) = Some row.
Proof.
  induction table as [|p table IH]; intros Hnd Hin Hh; [by apply elem_of_nil in Hin|].
  apply NoDup_cons in Hnd as [Hp Hnd]. rewrite hosted_row_cons.
  apply elem_of_cons in Hin as [->|Hin]; [by rewrite decide_True|].
  rewrite decide_False; [by apply IH|]. intros [He _]. apply Hp. rewrite He.
  by apply list_elem_of_fmap_2.
Qed.

(** Fencing never engages.  The service publishes route tables without their
    epochs, so a storage node that starts at epoch 0 stays there whatever the
    table says, and a node that lost the primary role of a partition to another
    node but still hosts it as a replica goes on passing every write check at the
    epoch the service publishes. *)
Lemma demoted_primary_keeps_writing {D N} `{Engine D, Network N} (s : Server D) (net : N) env
    (t : RouteTable) myAddr p row part :
  ids_ok t → RT_Partitions t !! p = Some row →
  RP_Primary row ≠ myAddr → RP_Replica row = myAddr →
  map_Forall (λ _ q, P_Epoch q = 0) (PM_partitions (S_pm s)) →
  PM_partitions (S_pm s) !! p = Some part → P_IsPrime part = true →
  ∃ s' net', Server_updatePartitionsFromRoute s net env (sendRouteUpdate t).2 myAddr = Ret (s', net') ∧
    map_Forall (λ _ q, P_Epoch q = 0) (PM_partitions (S_pm s')) ∧
    (Server_canWrite s' = true → write_guard s' p (PI_Epoch (pb_partition row)) = None).
Proof.
  intros Hids Hrow _ Hrep Hz Hpart Hprime.
  destruct (updatePartitions_followed s net env (sendRouteUpdate t).2 myAddr (sendRouteUpdate_ids t Hids))
    as (s' & net' & -> & Hlk).
  exists s', net'. split; [done|].
  assert (map_Forall (λ _ q, P_Epoch q = 0) (PM_partitions (S_pm s'))) as Hz'.
  { intros id q Hq. rewrite Hlk in Hq. apply fmap_Some in Hq as (r & Hr%hosted_row_elem & ->).
    apply elem_of_sendRouteUpdate in Hr as (id' & p' & _ & ->).
    destruct (PM_partitions (S_pm s) !! id) as [e|] eqn:He; simpl; [|done]. by rewrite (Hz id e He). }
  split; [done|]. intros Hcw.
  assert (hosted_row myAddr (sendRouteUpdate t).2 p = Some (pb_partition row)) as Hh.
  { rewrite <- (Hids p row Hrow), <- pb_partition_id. apply hosted_row_Some.
    - by apply sendRouteUpdate_ids.
    - apply elem_of_sendRouteUpdate. eauto.
    - by right. }
  pose proof (Hlk p) as Hp. rewrite Hh, Hpart in Hp. cbn [fmap option_fmap option_map followed] in Hp.
  unfold write_guard. rewrite Hcw. cbn [negb]. rewrite (has_partition_true _ _ _ Hp). cbn [negb].
  unfold PartitionManager_IsPrimary, PartitionManager_ValidateEpoch. rewrite Hp. cbn [P_IsPrime P_Epoch].
  rewrite Hprime, (Hz p part Hpart). done.
Qed.

(** ** Concrete runs *)

Lemma RegisterNode_places_once_witness :
  let r := NewRouter (mkMemEtcd ∅ []) in
  store_ok (R_store r) ∧
  let '(r', ok) := MetaServer_RegisterNode r 7 "n1" "storage-1:9001" STORAGE in
  store_ok (R_store r') ∧
  sv_cluster (store_view (R_store r')) = sv_cluster (store_view (R_store r)) ∧
  (ok = true → sv_nodes (store_view (R_store r')) =
     <[("n1" : string) := mkNodeInfo "n1" "storage-1:9001" (node_role STORAGE) "online" 7 7 []]>
       (sv_nodes (store_view (R_store r)))) ∧
  (sv_table (store_view (R_store r')) = sv_table (store_view (R_store r)) ∨
   STORAGE = STORAGE ∧ RT_Partitions (R_routeTable r) = ∅ ∧
   ∃ nodes, nodes ≡ₚ storage_nodes (store_view (R_store r')) ∧ MinReplicaNodes ≤ len nodes ∧
     sv_table (store_view (R_store r')) =
       next_table (store_view (R_store r)) (mkRouteTable 1 (allocation (build_ring (NI_Addr <$> nodes))))).
Proof.
  split; [apply kv_ok_empty|].
  apply (RegisterNode_places_once (NewRouter (mkMemEtcd ∅ [])) 7 "n1" "storage-1:9001" STORAGE).
  apply kv_ok_empty.
Defined.

(** Node A was the primary of partition 1; the table of epoch 2 names B. *)
Definition demoted_table : RouteTable :=
  mkRouteTable 6 {[ 1 := mkRoutePartition 1 "B" "A" "normal" "" MIGRATION_NONE 2 ]}.

Lemma demoted_primary_keeps_writing_witness :
  let s := demo_server ∅ {[ 1 := mkPartition 1 NORMAL true 0 ]} in
  ∃ s' net', Server_updatePartitionsFromRoute s tt (demo_route_env 10)
      (sendRouteUpdate demoted_table).2 "A" = Ret (s', net') ∧
    map_Forall (λ _ q, P_Epoch q = 0) (PM_partitions (S_pm s')) ∧
    (Server_canWrite s' = true →
     write_guard s' 1 (PI_Epoch (pb_partition (mkRoutePartition 1 "B" "A" "normal" "" MIGRATION_NONE 2))) = None).
Proof.
  apply (demoted_primary_keeps_writing (demo_server ∅ {[ 1 := mkPartition 1 NORMAL true 0 ]}) tt
    (demo_route_env 10) demoted_table "A" 1 (mkRoutePartition 1 "B" "A" "normal" "" MIGRATION_NONE 2)
    (mkPartition 1 NORMAL true 0)).
  - apply (bool_decide_unpack _). vm_compute. exact I.
  - reflexivity.
  - done.
  - done.
  - apply (bool_decide_unpack _). vm_compute. exact I.
  - reflexivity.
  - reflexivity.
Defined.
