(* ===== verification/NodeLifecycle.v ===== *)
(** * The life of a storage node

    How a node of [src/pkg/storage/server.go] comes up, joins the cluster and goes
    down: [NewServer] with the database of [rocksdb.go], [Start], the
    registration with its retries, the heartbeats, the subscription that feeds
    [updatePartitionsFromRoute], and [Stop].

    The operating system, etcd and RocksDB appear as the answers of [BootEnv];
    the metadata service as the class [MetadataRPC], with the metadata server
    behind an unreliable network as its instance.  The handles a failed or
    stopped node leaves open are part of the state. *)

From S2P Require Import Prelude Engine CommandLog Proto Partitions Replicator StorageServer Replication HashRing MetaStore MetaRouter MetaServer.

(** ** Opening the database *)

Record RocksDBConfig := mkRocksDBConfig {
  RC_DataDir : string;
  RC_WALDir : string;
  RC_BlockCacheSize : Z;
  RC_WriteBufferSize : Z;
  RC_MaxWriteBufferNumber : Z;
  RC_MaxBackgroundCompactions : Z;
  RC_MaxBackgroundFlushes : Z;
  RC_TargetFileSizeBase : Z;
  RC_MaxBytesForLevelBase : Z;
  RC_CompressionType : string
}.

Definition DefaultRocksDBConfig (numCPU : Z) : RocksDBConfig :=
  mkRocksDBConfig "/data/rockskv" "/data/rockskv/wal" (512 * 1024 * 1024) (64 * 1024 * 1024) 4
    (numCPU ÷ 2) 2 (64 * 1024 * 1024) (256 * 1024 * 1024) "lz4".

Inductive CompressionType := LZ4Compression | ZSTDCompression | SnappyCompression.

#[global] Instance CompressionType_eq_dec : EqDecision CompressionType.
Proof. solve_decision. Defined.

(** The switch on the configured name; unknown names, "none" included, are LZ4. *)
Definition compression_of (name : string) : CompressionType :=
  if decide (name = "lz4"%string) then LZ4Compression
  else if decide (name = "zstd"%string) then ZSTDCompression
  else if decide (name = "snappy"%string) then SnappyCompression
  else LZ4Compression.

(** The options [NewRocksDB] sets from the configuration; [None] is an option it
    does not touch. *)
Record DBOptions := mkDBOptions {
  DO_BlockCache : Z;
  DO_BlockSize : Z;
  DO_WalDir : option string;
  DO_WriteBufferSize : Z;
  DO_MaxWriteBufferNumber : Z;
  DO_MaxBackgroundCompactions : Z;
  DO_MaxBackgroundFlushes : Z;
  DO_TargetFileSizeBase : Z;
  DO_MaxBytesForLevelBase : Z;
  DO_Compression : CompressionType
}.

Definition db_options (config : RocksDBConfig) : DBOptions :=
  mkDBOptions (u64 (RC_BlockCacheSize config)) (16 * 1024)
    (if decide (RC_WALDir config = ""%string) then None else Some (RC_WALDir config))
    (RC_WriteBufferSize config) (RC_MaxWriteBufferNumber config) (RC_MaxBackgroundCompactions config)
    (RC_MaxBackgroundFlushes config) (RC_TargetFileSizeBase config) (RC_MaxBytesForLevelBase config)
    (compression_of (RC_CompressionType config)).

(** [OpenDb] is the call of the RocksDB library. *)
Definition NewRocksDB {D} (numCPU : Z) (OpenDb : DBOptions → string → goerr + D)
    (config : option RocksDBConfig) : goerr + D :=
  let config := default (DefaultRocksDBConfig numCPU) config in
  match OpenDb (db_options config) (RC_DataDir config) with
  | inl _ => inl (Errorf "failed to open rocksdb")
  | inr db => inr db
  end.

(** ** Configuration *)

Record StorageConfig := mkStorageConfig {
  STC_NodeID : string;
  STC_ListenAddr : string;
  STC_MetadataAddr : string;
  STC_EtcdEndpoints : list string;
  STC_RocksDB : option RocksDBConfig;
  STC_SSTDir : string;
  STC_CommandLogDir : string
}.

Definition DefaultStorageConfig (numCPU : Z) : StorageConfig :=
  mkStorageConfig "storage-1" ":9001" "localhost:9000" ["localhost:2379"%string]
    (Some (DefaultRocksDBConfig numCPU)) "/tmp/rockskv/sst" "/tmp/rockskv/cmdlog".

(** What the world answers while a node is made. *)
Record BootEnv (D : Type) := mkBootEnv {
  be_NumCPU : Z;
  be_OpenDb : DBOptions → string → goerr + D;
  be_MkdirAll : string → bool;
  be_etcd_New : list string → bool;
  be_etcd_Status : string → bool;
  be_Grant : option Z;
  be_KeepAlive : bool
}.
Arguments mkBootEnv {D} _ _ _ _ _ _ _.
Arguments be_NumCPU {D} _.
Arguments be_OpenDb {D} _ _ _.
Arguments be_MkdirAll {D} _ _.
Arguments be_etcd_New {D} _ _.
Arguments be_etcd_Status {D} _ _.
Arguments be_Grant {D} _.
Arguments be_KeepAlive {D} _.

(** The handles that are open: the database, the etcd client, the context of the
    lease monitor, the connection to the metadata service. *)
Record Handles := mkHandles { h_db : bool; h_etcd : bool; h_lease : bool; h_meta : bool }.

#[global] Instance Handles_eq_dec : EqDecision Handles.
Proof. solve_decision. Defined.

Section Node.
  Context {D : Type} `{Engine D}.

(** A node: its configuration, the state of its handlers, the handles it holds,
    whether [metadataClient] is set and whether [Serve] runs. *)
Record Node := mkNode {
  ND_config : StorageConfig;
  ND_server : Server D;
  ND_handles : Handles;
  ND_client : bool;
  ND_serving : bool
}.

Definition ND_set_server (n : Node) (s : Server D) : Node :=
  mkNode (ND_config n) s (ND_handles n) (ND_client n) (ND_serving n).

(** A new node, or the error with the handles that nobody closed. *)
Inductive boot :=
  | Booted (n : Node)
  | Refused (err : goerr) (left : Handles).

(** [&Server{...}] before the lease. *)
Definition fresh_server (config : StorageConfig) (db : D) : Server D :=
  mkServer (NewPartitionManager (STC_NodeID config) db) true 0 false ∅ ∅.

(** The two steps that follow the directories. *)
Definition connect_etcd (config : StorageConfig) (env : BootEnv D) : option goerr :=
  match STC_EtcdEndpoints config with
  | [] => Some (Errorf "etcd endpoints required for node-level lease management")
  | endpoint :: _ =>
      if negb (be_etcd_New env (STC_EtcdEndpoints config)) then Some (Errorf "failed to connect to etcd")
      else if negb (be_etcd_Status env endpoint) then Some (Errorf "failed to verify etcd connection")
      else None
  end.

Definition NewServer (config : option StorageConfig) (env : BootEnv D) : boot :=
  let config := default (DefaultStorageConfig (be_NumCPU env)) config in
  match NewRocksDB (be_NumCPU env) (be_OpenDb env) (STC_RocksDB config) with
  | inl _ => Refused (Errorf "failed to initialize rocksdb") (mkHandles false false false false)
  | inr db =>
      if negb (be_MkdirAll env (STC_SSTDir config)) then
        Refused (Errorf "failed to create sst directory") (mkHandles true false false false)
      else if negb (be_MkdirAll env (STC_CommandLogDir config)) then
        Refused (Errorf "failed to create command log directory") (mkHandles true false false false)
      else
        match connect_etcd config env with
        | Some err => Refused err (mkHandles false false false false)
        | None =>
            match Server_acquireNodeLease (fresh_server config db) (be_Grant env) (be_KeepAlive env) with
            | (_, Some _) => Refused (Errorf "failed to acquire node lease") (mkHandles false true false false)
            | (s, None) => Booted (mkNode config s (mkHandles true true true false) false false)
            end
        end
  end.

(** [Start] up to [Serve]: [listen] is the error of the listener. *)
Definition Server_Start (n : Node) (listen : option goerr) : Node * option goerr :=
  match listen with
  | Some _ => (n, Some (Errorf "failed to listen"))
  | None => (mkNode (ND_config n) (ND_server n) (ND_handles n) (ND_client n) true, None)
  end.

(** [Stop]: the replicators are not stopped. *)
Definition Server_Stop (n : Node) : Node :=
  mkNode (ND_config n) (Server_releaseAllLeases (ND_server n)) (mkHandles false false false false)
    (ND_client n) false.

(** ** The address a node is known by *)

(** [addr[0] == ':'] of an empty address panics. *)
Definition advertised (listenAddr : string) : outcome string :=
  match listenAddr with
  | EmptyString => Panic
  | _ => Ret (if String.prefix ":" listenAddr then String.append "localhost" listenAddr else listenAddr)
  end.
End Node.

Arguments Node D : clear implicits.
Arguments boot D : clear implicits.

(** ** Joining the cluster *)

(** The metadata service as a node calls it.  [None] is a call that failed: its
    request may have been executed. *)
Class MetadataRPC (M : Type) := {
  meta_Dial : M → string → M * bool;
  meta_RegisterNode : M → string → string → pb_NodeRole → M * option bool;
  meta_Heartbeat : M → string → M * option (bool * Z)
}.

Section Join.
  Context {D M : Type} `{Engine D, MetadataRPC M}.

(** One attempt to register.  The first result of the triple is the node, with
    the connection it made: an earlier one is overwritten, not closed. *)
Definition Server_doRegister (n : Node D) (m : M) : outcome (Node D * M * option goerr) :=
  let config := ND_config n in
  let '(m, dialled) := meta_Dial m (STC_MetadataAddr config) in
  if negb dialled then Ret (n, m, Some (Errorf "failed to connect to metadata"))
  else
    let h := ND_handles n in
    let n := mkNode config (ND_server n) (mkHandles (h_db h) (h_etcd h) (h_lease h) true) true (ND_serving n) in
    addr ← advertised (STC_ListenAddr config);
    let '(m, resp) := meta_RegisterNode m (STC_NodeID config) addr STORAGE in
    Ret (n, m,
      match resp with
      | None => Some (Errorf "register failed")
      | Some false => Some (Errorf "register returned failure")
      | Some true => None
      end).

(** The loop of [registerWithMetadata], with a bound on the attempts; the result
    says whether the node registered. *)
Fixpoint Server_registerWithMetadata (attempts : nat) (n : Node D) (m : M) : outcome (Node D * M * bool) :=
  match attempts with
  | O => Ret (n, m, false)
  | Datatypes.S attempts =>
      '(n, m, err) ← Server_doRegister n m;
      match err with
      | Some _ => Server_registerWithMetadata attempts n m
      | None => Ret (n, m, true)
      end
  end.

(** A tick of [heartbeatLoop]: the answer is not looked at. *)
Definition Server_heartbeat (n : Node D) (m : M) : M :=
  if negb (ND_client n) then m else (meta_Heartbeat m (STC_NodeID (ND_config n))).1.
End Join.

(** What the loops of [subscribeRouteUpdates] meet: a subscription that fails, a
    message of the stream, the end of the stream. *)
Inductive sub_event :=
  | SubscribeFailed
  | StreamUpdate (rows : list PartitionInfo)
  | StreamEnded.

Section Follow.
  Context {D N : Type} `{Engine D, Network N}.

(** One message of the stream. *)
Definition Server_follow (n : Node D) (net : N) (env : RouteEnv) (rows : list PartitionInfo) :
    outcome (Node D * N) :=
  addr ← advertised (STC_ListenAddr (ND_config n));
  '(s, net) ← Server_updatePartitionsFromRoute (ND_server n) net env rows addr;
  Ret (ND_set_server n s, net).

(** [subscribeRouteUpdates]: without a client nothing is received. *)
Fixpoint Server_subscribeRouteUpdates (n : Node D) (net : N) (env : RouteEnv) (events : list sub_event) :
    outcome (Node D * N) :=
  match events with
  | [] => Ret (n, net)
  | event :: rest =>
      '(n, net) ←
        match event with
        | StreamUpdate rows => if negb (ND_client n) then Ret (n, net) else Server_follow n net env rows
        | SubscribeFailed | StreamEnded => Ret (n, net)
        end;
      Server_subscribeRouteUpdates n net env rest
  end.
End Follow.

(** ** The metadata server behind a network *)

(** The metadata server at an address, its clock, and the faults of the calls to
    come. *)
Record MetaNet (S : Type) := mkMetaNet {
  mn_addr : string;
  mn_now : Z;
  mn_router : @Router S;
  mn_faults : list netfault
}.
Arguments mkMetaNet {S} _ _ _ _.
Arguments mn_addr {S} _.
Arguments mn_now {S} _.
Arguments mn_router {S} _.
Arguments mn_faults {S} _.

Definition mn_call {S A} (m : MetaNet S) (f : @Router S → @Router S * A) : MetaNet S * option A :=
  let later r := mkMetaNet (mn_addr m) (mn_now m) r (tail (mn_faults m)) in
  match default Delivered (head (mn_faults m)) with
  | LostRequest => (later (mn_router m), None)
  | Delivered => let '(r, resp) := f (mn_router m) in (later r, Some resp)
  | LostReply => let '(r, _) := f (mn_router m) in (later r, None)
  end.

(** [grpc.Dial] without the blocking option succeeds at once. *)
#[global] Instance MetaNet_RPC {S} `{Store S} : MetadataRPC (MetaNet S) := {|
  meta_Dial m addr := (m, true);
  meta_RegisterNode m id addr role :=
    mn_call m (λ r, MetaServer_RegisterNode r (mn_now m) id addr role);
  meta_Heartbeat m id := mn_call m (λ r, MetaServer_Heartbeat r id)
|}.

(** ** Making a node *)

(** What the handlers need of a node before it hosts anything: nothing is hosted
    and the lease is the granted one. *)
Lemma NewServer_booted {D} `{Engine D} config env (n : Node D) :
  NewServer config env = Booted n ↔
  ∃ db lease, let cfg := default (DefaultStorageConfig (be_NumCPU env)) config in
    NewRocksDB (be_NumCPU env) (be_OpenDb env) (STC_RocksDB cfg) = inr db ∧
    be_MkdirAll env (STC_SSTDir cfg) = true ∧ be_MkdirAll env (STC_CommandLogDir cfg) = true ∧
    connect_etcd cfg env = None ∧ be_Grant env = Some lease ∧ be_KeepAlive env = true ∧
    n = mkNode cfg (mkServer (NewPartitionManager (STC_NodeID cfg) db) true lease false ∅ ∅)
          (mkHandles true true true false) false false.
Proof.
  unfold NewServer, Server_acquireNodeLease, fresh_server. cbn zeta. split.
  - intros Hn. repeat case_match; simplify_eq/=; unbool; eexists _, _; by split_and!.
  - intros (db & lease & -> & -> & -> & -> & -> & -> & ->). done.
Qed.

(** A node that is refused holds no lease context and no connection, but two
    paths leave a handle open: the database when a directory cannot be made, the
    etcd client when the lease cannot be acquired. *)
Lemma NewServer_leaks {D} `{Engine D} config env err (h : Handles) :
  NewServer config env = @Refused D err h →
  let cfg := default (DefaultStorageConfig (be_NumCPU env)) config in
  let opened := match NewRocksDB (be_NumCPU env) (be_OpenDb env) (STC_RocksDB cfg) with
    | inl _ => false | inr _ => true end in
  let dirs := be_MkdirAll env (STC_SSTDir cfg) && be_MkdirAll env (STC_CommandLogDir cfg) in
  h = mkHandles (opened && negb dirs)
        (opened && dirs && bool_decide (connect_etcd cfg env = None)) false false.
Proof.
  unfold NewServer, Server_acquireNodeLease, fresh_server. cbn zeta. intros Hn.
  repeat case_match; simplify_eq/=; unbool; try done;
    repeat match goal with E : _ = (_ : bool) |- _ => rewrite E end; try done;
    match goal with E : connect_etcd _ _ = _ |- _ => by rewrite E end.
Qed.

(** ** Joining *)

(** After [k] lost requests the next attempt registers the node, when the store
    takes the registration: the store lists it, online, under the address it
    advertises. *)
Lemma registration_succeeds {D S} `{Engine D, StoreLaws S} (n : Node D) (m : MetaNet S) k addr :
  store_ok (R_store (mn_router m)) → mn_faults m = replicate k LostRequest →
  advertised (STC_ListenAddr (ND_config n)) = Ret addr →
  let id := STC_NodeID (ND_config n) in
  (RegisterNode (R_store (mn_router m)) (mn_now m) (mkNodeInfo id addr NodeRoleStorage "" 0 0 [])).2 = None →
  ∃ n' m', Server_registerWithMetadata (Datatypes.S k) n m = Ret (n', m', true) ∧
    ND_server n' = ND_server n ∧ ND_config n' = ND_config n ∧ ND_client n' = true ∧
    sv_nodes (store_view (R_store (mn_router m'))) !! id =
      Some (mkNodeInfo id addr NodeRoleStorage "online" (mn_now m) (mn_now m) []).
Proof.
  intros Hok Hf Haddr id Hreg. revert n m Hok Hf Haddr id Hreg.
  induction k as [|k IH]; intros n m Hok Hf Haddr id Hreg; cbn [Server_registerWithMetadata];
    unfold Server_doRegister; cbn [meta_Dial meta_RegisterNode MetaNet_RPC negb]; rewrite Haddr;
    cbn [mbind outcome_bind]; unfold mn_call; rewrite Hf; cbn [replicate head default tail].
  - pose proof (RegisterNode_places_once (mn_router m) (mn_now m) id addr STORAGE Hok) as Hr.
    fold id. destruct (MetaServer_RegisterNode (mn_router m) (mn_now m) id addr STORAGE) as [r ok] eqn:E.
    destruct Hr as (_ & _ & Hn & _). assert (ok = true) as ->.
    { unfold MetaServer_RegisterNode in E. cbn [node_role] in E.
      destruct (RegisterNode _ _ _) as [st err]. cbn [snd] in Hreg. subst err. by simplify_eq. }
    eexists _, _. split; [done|]. split_and!; [done..|]. cbn. rewrite Hn by done. apply lookup_insert_eq.
  - destruct (IH (mkNode (ND_config n) (ND_server n)
      (mkHandles (h_db (ND_handles n)) (h_etcd (ND_handles n)) (h_lease (ND_handles n)) true) true (ND_serving n))
      (mkMetaNet (mn_addr m) (mn_now m) (mn_router m) (replicate k LostRequest))) as (n' & m' & Hr & Hn');
      [done..|]. cbn [Server_registerWithMetadata] in Hr. exists n', m'. split; [exact Hr|exact Hn'].
Qed.

(** ** Following the route table *)

(** A route update leaves the lease and the data alone. *)
Definition keeps_lease {D} (s s' : Server D) : Prop :=
  S_etcd s' = S_etcd s ∧ S_nodeLease s' = S_nodeLease s ∧ S_nodeLeaseLost s' = S_nodeLeaseLost s ∧
  S_db s' = S_db s.

#[global] Instance keeps_lease_preorder {D} : PreOrder (@keeps_lease D).
Proof. split; [done|]. intros a b c (? & ? & ? & ?) (? & ? & ? & ?). split_and!; congruence. Qed.

Section follow_facts.
  Context {D N : Type} `{Engine D, Network N}.
Implicit Types (s : Server D) (net : N).

Lemma initializeReplicator_keeps s net env p prim addr s' net' :
  Server_initializeReplicator s net env p prim addr = Ret (s', net') → keeps_lease s s'.
Proof.
  destruct (initializeReplicator_pm s net env p prim addr) as (s1 & net1 & E & Hpm). rewrite E.
  intros [= <- <-]. revert E. unfold Server_initializeReplicator, keeps_lease, S_db. rewrite Hpm.
  destruct (S_replicators s !! p) as [clr|]; cbn [mbind outcome_bind].
  - destruct (CommandLogReplicator_Stop clr net _ _) as [[clr1 net2]| |]; cbn [mbind outcome_bind]; try done.
    intros E. repeat case_match; simplify_eq; done.
  - intros E. repeat case_match; simplify_eq; done.
Qed.

Lemma stopReplicator_keeps s net env p s' net' :
  Server_stopReplicator s net env p = Ret (s', net') → keeps_lease s s'.
Proof.
  unfold Server_stopReplicator. destruct (S_replicators s !! p) as [clr|]; [|by intros [= <- <-]].
  destruct (CommandLogReplicator_Stop clr net _ _) as [[clr1 net2]| |]; cbn; try done. by intros [= <- <-].
Qed.

Lemma set_partitions_keeps s pm : PM_db pm = PM_db (S_pm s) → keeps_lease s (S_set_pm s pm).
Proof. intros E. unfold keeps_lease. by split_and!. Qed.

Lemma update_rows_keeps rows s net env myAddr ex s' net' ex' :
  update_rows s net env myAddr ex rows = Ret (s', net', ex') → keeps_lease s s'.
Proof.
  revert s net ex. induction rows as [|row rows IH]; intros s net ex; cbn [update_rows]; [by intros [= <- <- <-]|].
  destruct (_ || _); [|apply IH]. destruct (negb _).
  - unfold PartitionManager_AddPartitionWithEpoch.
    destruct (PM_partitions (S_pm s) !! _); [intros E; by apply IH in E|].
    set (pm := PM_set_partitions _ _).
    destruct (initializeReplicator_pm (S_set_pm s pm) net env (PI_PartitionId row)
      (bool_decide (PI_Primary row = myAddr)) (if bool_decide (PI_Primary row = myAddr) then PI_Replica row else ""))
      as (s1 & net1 & E1 & _). rewrite E1. cbn [mbind outcome_bind]. intros E%IH.
    apply initializeReplicator_keeps in E1. etrans; [|exact E]. etrans; [|exact E1].
    by apply set_partitions_keeps.
  - destruct (PartitionManager_UpdatePartitionEpoch _ _ _) as [pm o] eqn:Eu. intros E%IH. etrans; [|exact E].
    apply set_partitions_keeps. unfold PartitionManager_UpdatePartitionEpoch in Eu. by case_split.
Qed.

Lemma remove_rows_keeps ids s net env ex s' net' :
  remove_rows s net env ex ids = Ret (s', net') → keeps_lease s s'.
Proof.
  revert s net. induction ids as [|id ids IH]; intros s net; cbn [remove_rows]; [by intros [= <- <-]|].
  case_bool_decide; [apply IH|]. destruct (stopReplicator_pm s net env id) as (s1 & net1 & E1 & _). rewrite E1.
  cbn [mbind outcome_bind]. destruct (PartitionManager_RemovePartition _ _) as [pm o] eqn:Er. intros E%IH.
  etrans; [eapply stopReplicator_keeps, E1|]. etrans; [|exact E]. apply set_partitions_keeps.
  unfold PartitionManager_RemovePartition in Er. by case_split.
Qed.

Lemma updatePartitions_keeps s net env table myAddr s' net' :
  Server_updatePartitionsFromRoute s net env table myAddr = Ret (s', net') → keeps_lease s s'.
Proof.
  unfold Server_updatePartitionsFromRoute.
  destruct (update_rows s net env myAddr ∅ table) as [[[s1 net1] ex]| |] eqn:E1; cbn; try done.
  intros E%remove_rows_keeps. etrans; [|exact E]. by eapply update_rows_keeps.
Qed.

(** One message: the hosted partitions follow, the rest of the node stays. *)
Lemma follow_message (n : Node D) net env addr rows :
  advertised (STC_ListenAddr (ND_config n)) = Ret addr → NoDup (map PI_PartitionId rows) →
  ∃ s' net', Server_follow n net env rows = Ret (ND_set_server n s', net') ∧
    keeps_lease (ND_server n) s' ∧
    ∀ id, PM_partitions (S_pm s') !! id =
      followed addr (PM_partitions (S_pm (ND_server n)) !! id) <$> hosted_row addr rows id.
Proof.
  intros Ha Hnd. unfold Server_follow. rewrite Ha. cbn [mbind outcome_bind].
  destruct (updatePartitions_followed (ND_server n) net env rows addr Hnd) as (s' & net' & E & Hp).
  rewrite E. cbn [mbind outcome_bind]. exists s', net'. split_and!; [done| |done].
  by eapply updatePartitions_keeps.
Qed.

(** The tables a run of the subscription received. *)
Definition received (events : list sub_event) : list (list PartitionInfo) :=
  omap (λ e, match e with StreamUpdate rows => Some rows | _ => None end) events.

(** The node hosts what the rows give it. *)
Definition hosts_exactly s (addr : string) (rows : list PartitionInfo) : Prop :=
  ∀ id, is_Some (PM_partitions (S_pm s) !! id) ↔ is_Some (hosted_row addr rows id).

Lemma subscription_steps events (n : Node D) net env addr rows0 :
  advertised (STC_ListenAddr (ND_config n)) = Ret addr → ND_client n = true →
  Forall (λ rows, NoDup (map PI_PartitionId rows)) (received events) →
  hosts_exactly (ND_server n) addr rows0 →
  ∃ s' net', Server_subscribeRouteUpdates n net env events = Ret (ND_set_server n s', net') ∧
    keeps_lease (ND_server n) s' ∧ hosts_exactly s' addr (default rows0 (last (received events))).
Proof.
  revert n net rows0. induction events as [|event events IH]; intros n net rows0 Ha Hc Hnd Hh.
  { exists (ND_server n), net. by destruct n. }
  cbn [Server_subscribeRouteUpdates].
  destruct event as [|rows|]; cbn [mbind outcome_bind]; [by apply (IH n)| |by apply (IH n)].
  change (received (StreamUpdate rows :: events)) with (rows :: received events) in *.
  apply Forall_cons in Hnd as [Hnd Hnds]. rewrite Hc. cbn [negb].
  destruct (follow_message n net env addr rows Ha Hnd) as (s1 & net1 & -> & Hk & Hp). cbn [mbind outcome_bind].
  destruct (IH (ND_set_server n s1) net1 rows) as (s2 & net2 & -> & Hk2 & Hh2); [done..| |].
  { intros id. cbn. rewrite Hp. by rewrite fmap_is_Some. }
  exists s2, net2. split_and!; [done|by etrans|]. rewrite last_cons. by destruct (last (received events)).
Qed.
End follow_facts.

(** A node that was made and has connected follows the routes: however often the
    subscription fails, the stream breaks and starts again, the node never panics,
    keeps its lease and its data, and hosts exactly the partitions that the last
    table it received gives to the address it advertises. *)
Lemma booted_follows {D N} `{Engine D, Network N} config env (n : Node D) (net : N) renv events addr :
  NewServer config env = Booted n → advertised (STC_ListenAddr (ND_config n)) = Ret addr →
  Forall (λ rows, NoDup (map PI_PartitionId rows)) (received events) →
  let n := mkNode (ND_config n) (ND_server n) (ND_handles n) true (ND_serving n) in
  ∃ s' net', Server_subscribeRouteUpdates n net renv events = Ret (ND_set_server n s', net') ∧
    keeps_lease (ND_server n) s' ∧ hosts_exactly s' addr (default [] (last (received events))).
Proof.
  intros (db & lease & _ & _ & _ & _ & _ & _ & ->)%NewServer_booted Ha Hnd. cbn zeta.
  apply subscription_steps; [done..|]. intros id. cbn. rewrite lookup_empty. by split; intros [? ?].
Qed.

Definition demo_boot : BootEnv MemDB :=
  mkBootEnv 8 (λ _ _, inr (mem_of ∅)) (λ _, true) (λ _, true) (λ _, true) (Some 77) true.

Example booted_follows_example :
  ∃ n s' net', NewServer None demo_boot = Booted n ∧
    Server_subscribeRouteUpdates (mkNode (ND_config n) (ND_server n) (ND_handles n) true (ND_serving n)) tt
      (demo_route_env 1) [SubscribeFailed; StreamUpdate [demo_row 1 "localhost:9001" "b" 0]; StreamEnded;
        StreamUpdate [demo_row 1 "a" "b" 0; demo_row 2 "a" "localhost:9001" 0]] = Ret (ND_set_server
          (mkNode (ND_config n) (ND_server n) (ND_handles n) true (ND_serving n)) s', net') ∧
    ¬ is_Some (PM_partitions (S_pm s') !! 1) ∧ is_Some (PM_partitions (S_pm s') !! 2).
Proof.
  destruct (NewServer None demo_boot) as [n|err h] eqn:E; [|by vm_compute in E].
  assert (STC_ListenAddr (ND_config n) = ":9001") as Hl by (vm_compute in E; by simplify_eq).
  destruct (booted_follows None demo_boot n tt (demo_route_env 1)
    [SubscribeFailed; StreamUpdate [demo_row 1 "localhost:9001" "b" 0]; StreamEnded;
     StreamUpdate [demo_row 1 "a" "b" 0; demo_row 2 "a" "localhost:9001" 0]] "localhost:9001" E)
    as (s' & net' & Hr & _ & Hh).
  - by rewrite Hl.
  - repeat constructor; set_solver.
  - exists n, s', net'. split_and!; [done|exact Hr|..]; rewrite (Hh _); vm_compute; [by intros [? ?]|by eexists].
Qed.

(** ** Stopping *)

(** A stopped node executes no write and closes what it opened. *)
Lemma stopped_node_refuses {D} `{Engine D} (n : Node D) envs req p epoch :
  Server_write (ND_server (Server_Stop n)) envs req p epoch =
    Ret (ND_server (Server_Stop n), (false, INTERNAL_ERROR)) ∧
  ND_handles (Server_Stop n) = mkHandles false false false false.
Proof.
  split; [|done].
  assert (write_guard (ND_server (Server_Stop n)) p epoch = Some INTERNAL_ERROR) as Hg.
  { unfold write_guard, Server_canWrite. cbn. by destruct (S_etcd _). }
  destruct req; cbn [Server_write]; unfold Server_Put, Server_Delete, Server_SetFields, Server_DeleteField,
    Server_BatchPut; by rewrite Hg.
Qed.

(** [Stop] does not close the replicators, and a command log writes through a
    buffer: an acknowledged write whose entry is still there is in no file when
    the process has ended, so the next start of the node finds an empty log and
    the entry is never replicated. *)
Example stop_loses_buffered_entries :
  let node := mkNode (DefaultStorageConfig 8)
    (mkServer (demo_pm ∅ ∅) true 77 false ∅ ∅) (mkHandles true true true true) true true in
  match Server_follow node tt (demo_route_env 1) [demo_row 1 "localhost:9001" "b" 0] with
  | Ret (node, _) =>
      match Server_Put (ND_server node) (demo_env 2) (str_bytes "a") (str_bytes "1") 1 0 with
      | Ret (s, resp) =>
          let files := default [] ((λ clr, CL_dir (CLR_commandLog clr)) <$>
            S_replicators (ND_server (Server_Stop (ND_set_server node s))) !! 1) in
          resp = (true, OK) ∧ flushed files = []
      | _ => False
      end
  | _ => False
  end.
Proof. vm_compute. by split. Qed.
