(* ===== verification/MigrationScheduler.v ===== *)
(** * The migration scheduler

    [MigrationScheduler] of [src/pkg/metadata/migration_scheduler.go]: a priority
    queue of migration tasks, of which at most [maxConcurrent] are active, each
    executed by a goroutine of its own.

    Tasks are shared through pointers (the queue, the map of active tasks, the
    list of completed ones and the goroutine all hold the same object), so they
    live in a heap, [MS_tasks], and everything else holds their addresses.  A
    goroutine is the phase it has reached in [executeMigration]; between two
    phases any other step may happen: ticks of the scheduler, calls of clients,
    other goroutines, table operations of the router and deliveries of its watch.
    Timestamps, which nothing reads, are left out. *)

From S2P Require Import Prelude Crc32 Proto HashRing MetaStore MetaRouter.

#[local] Open Scope string_scope.
#[local] Open Scope Z_scope.

Definition DefaultMaxConcurrent : Z := 4.
Definition DefaultBandwidthLimit : Z := 50 * 1024 * 1024.

(** The address of a task. *)
Abbreviation task_ptr := nat.

(** [MT_cancel]: whether the field [cancel] is set. *)
Record MigrationTask := mkMigrationTask {
  MT_PartitionID : Z;
  MT_Source : string;
  MT_Target : string;
  MT_Priority : MigrationPriority;
  MT_IsPrimary : bool;
  MT_State : MigrationState;
  MT_BytesCopied : Z;
  MT_BytesTotal : Z;
  MT_ErrorMessage : option goerr;
  MT_cancel : bool
}.

#[global] Instance MigrationTask_eq_dec : EqDecision MigrationTask.
Proof. solve_decision. Defined.

Definition MT_set_state (t : MigrationTask) (state : MigrationState) : MigrationTask :=
  mkMigrationTask (MT_PartitionID t) (MT_Source t) (MT_Target t) (MT_Priority t) (MT_IsPrimary t) state
    (MT_BytesCopied t) (MT_BytesTotal t) (MT_ErrorMessage t) (MT_cancel t).
Definition MT_set_error (t : MigrationTask) (err : goerr) : MigrationTask :=
  mkMigrationTask (MT_PartitionID t) (MT_Source t) (MT_Target t) (MT_Priority t) (MT_IsPrimary t) (MT_State t)
    (MT_BytesCopied t) (MT_BytesTotal t) (Some err) (MT_cancel t).
Definition MT_set_cancel (t : MigrationTask) : MigrationTask :=
  mkMigrationTask (MT_PartitionID t) (MT_Source t) (MT_Target t) (MT_Priority t) (MT_IsPrimary t) (MT_State t)
    (MT_BytesCopied t) (MT_BytesTotal t) (MT_ErrorMessage t) true.

(** Where a goroutine is in [executeMigration]. *)
Inductive phase :=
  | AtStart                         (** about to store the migration state *)
  | AtWait                          (** in the [select] *)
  | AtSwitch                        (** about to switch the route *)
  | AtFinish (err : option goerr).  (** about to call [completeMigration] *)

(** [MS_loop]: the goroutine of [schedulerLoop] is alive; [MS_ctxDone]: the
    scheduler's context is cancelled. *)
Record MigrationScheduler := mkMigrationScheduler {
  MS_tasks : gmap task_ptr MigrationTask;
  MS_maxConcurrent : Z;
  MS_bandwidthLimit : Z;
  MS_pendingTasks : list task_ptr;
  MS_activeTasks : gmap Z task_ptr;
  MS_completedTasks : list task_ptr;
  MS_totalMigrated : Z;
  MS_totalFailed : Z;
  MS_totalBytesTransferred : Z;
  MS_isRunning : bool;
  MS_ctxDone : bool;
  MS_loop : bool;
  MS_goroutines : gmap task_ptr phase
}.

Definition MS_set_tasks (ms : MigrationScheduler) m : MigrationScheduler :=
  mkMigrationScheduler m (MS_maxConcurrent ms) (MS_bandwidthLimit ms) (MS_pendingTasks ms) (MS_activeTasks ms)
    (MS_completedTasks ms) (MS_totalMigrated ms) (MS_totalFailed ms) (MS_totalBytesTransferred ms)
    (MS_isRunning ms) (MS_ctxDone ms) (MS_loop ms) (MS_goroutines ms).
Definition MS_set_queue (ms : MigrationScheduler) pending active completed : MigrationScheduler :=
  mkMigrationScheduler (MS_tasks ms) (MS_maxConcurrent ms) (MS_bandwidthLimit ms) pending active completed
    (MS_totalMigrated ms) (MS_totalFailed ms) (MS_totalBytesTransferred ms)
    (MS_isRunning ms) (MS_ctxDone ms) (MS_loop ms) (MS_goroutines ms).
Definition MS_set_totals (ms : MigrationScheduler) migrated failed transferred : MigrationScheduler :=
  mkMigrationScheduler (MS_tasks ms) (MS_maxConcurrent ms) (MS_bandwidthLimit ms) (MS_pendingTasks ms)
    (MS_activeTasks ms) (MS_completedTasks ms) migrated failed transferred
    (MS_isRunning ms) (MS_ctxDone ms) (MS_loop ms) (MS_goroutines ms).
Definition MS_set_goroutines (ms : MigrationScheduler) g : MigrationScheduler :=
  mkMigrationScheduler (MS_tasks ms) (MS_maxConcurrent ms) (MS_bandwidthLimit ms) (MS_pendingTasks ms)
    (MS_activeTasks ms) (MS_completedTasks ms) (MS_totalMigrated ms) (MS_totalFailed ms)
    (MS_totalBytesTransferred ms) (MS_isRunning ms) (MS_ctxDone ms) (MS_loop ms) g.
Definition MS_set_control (ms : MigrationScheduler) isRunning ctxDone loop : MigrationScheduler :=
  mkMigrationScheduler (MS_tasks ms) (MS_maxConcurrent ms) (MS_bandwidthLimit ms) (MS_pendingTasks ms)
    (MS_activeTasks ms) (MS_completedTasks ms) (MS_totalMigrated ms) (MS_totalFailed ms)
    (MS_totalBytesTransferred ms) isRunning ctxDone loop (MS_goroutines ms).

Definition NewMigrationScheduler : MigrationScheduler :=
  mkMigrationScheduler ∅ DefaultMaxConcurrent DefaultBandwidthLimit [] ∅ [] 0 0 0 false false false ∅.

Definition MigrationScheduler_SetConfig (ms : MigrationScheduler) (maxConcurrent bandwidthLimit : Z) :
    MigrationScheduler :=
  mkMigrationScheduler (MS_tasks ms)
    (if 0 <? maxConcurrent then maxConcurrent else MS_maxConcurrent ms)
    (if 0 <? bandwidthLimit then bandwidthLimit else MS_bandwidthLimit ms)
    (MS_pendingTasks ms) (MS_activeTasks ms) (MS_completedTasks ms) (MS_totalMigrated ms) (MS_totalFailed ms)
    (MS_totalBytesTransferred ms) (MS_isRunning ms) (MS_ctxDone ms) (MS_loop ms) (MS_goroutines ms).

(** A loop started on a cancelled context returns from its first [select]. *)
Definition MigrationScheduler_Start (ms : MigrationScheduler) : MigrationScheduler :=
  if MS_isRunning ms then ms
  else MS_set_control ms true (MS_ctxDone ms) (negb (MS_ctxDone ms)).

(** [Stop] up to its wait for the goroutines. *)
Definition MigrationScheduler_Stop (ms : MigrationScheduler) : MigrationScheduler :=
  if negb (MS_isRunning ms) then ms else MS_set_control ms false true false.

(** A field of the task at an address. *)
Definition task_field {A} (f : MigrationTask → A) (ms : MigrationScheduler) (l : task_ptr) : option A :=
  f <$> MS_tasks ms !! l.

(** The place of a new task: before the first one of lower priority. *)
Fixpoint insert_by_priority (tasks : gmap task_ptr MigrationTask) (l : task_ptr) (priority : MigrationPriority)
    (pending : list task_ptr) : list task_ptr :=
  match pending with
  | [] => [l]
  | t :: rest =>
      match tasks !! t with
      | Some task =>
          if MigrationPriority_num (MT_Priority task) <? MigrationPriority_num priority then l :: pending
          else t :: insert_by_priority tasks l priority rest
      | None => t :: insert_by_priority tasks l priority rest
      end
  end.

(** The address of a task that was never allocated holds nothing: the call
    would dereference nil. *)
Definition MigrationScheduler_AddTask (ms : MigrationScheduler) (l : task_ptr) :
    outcome (MigrationScheduler * option goerr) :=
  match MS_tasks ms !! l with
  | None => Panic
  | Some task =>
      if decide (is_Some (MS_activeTasks ms !! MT_PartitionID task)) then
        Ret (ms, Some (Errorf "partition already has active migration"))
      else
      if existsb (λ t, bool_decide (task_field MT_PartitionID ms t = Some (MT_PartitionID task))) (MS_pendingTasks ms)
      then Ret (ms, Some (Errorf "partition already in pending queue"))
      else
      let ms := MS_set_tasks ms (<[l := MT_set_state task MIGRATION_PREPARING]> (MS_tasks ms)) in
      Ret (MS_set_queue ms (insert_by_priority (MS_tasks ms) l (MT_Priority task) (MS_pendingTasks ms))
        (MS_activeTasks ms) (MS_completedTasks ms), None)
  end.

(** [&MigrationTask{...}]: addresses are handed out in order. *)
Definition new_task (ms : MigrationScheduler) (task : MigrationTask) : MigrationScheduler * task_ptr :=
  let l := size (MS_tasks ms) in (MS_set_tasks ms (<[l := task]> (MS_tasks ms)), l).

Fixpoint MigrationScheduler_AddTasks (ms : MigrationScheduler) (tasks : list task_ptr) :
    outcome (MigrationScheduler * option goerr) :=
  match tasks with
  | [] => Ret (ms, None)
  | task :: rest =>
      '(ms, err) ← MigrationScheduler_AddTask ms task;
      match err with
      | Some err => Ret (ms, Some err)
      | None => MigrationScheduler_AddTasks ms rest
      end
  end.

(** The task at [l] is marked failed with the message [err], moved to the
    completed tasks and counted.  Its [cancel] is called, which cancels a context
    that nothing waits on. *)
Definition cancel_active (err : goerr) (ms : MigrationScheduler) (partitionID : Z) (l : task_ptr) :
    MigrationScheduler :=
  let ms := MS_set_tasks ms (alter (λ t, MT_set_error (MT_set_state t MIGRATION_FAILED) err) l (MS_tasks ms)) in
  let ms := MS_set_queue ms (MS_pendingTasks ms) (delete partitionID (MS_activeTasks ms))
    (MS_completedTasks ms ++ [l]) in
  MS_set_totals ms (MS_totalMigrated ms) (i64 (MS_totalFailed ms + 1)) (MS_totalBytesTransferred ms).

(** The first pending task of a partition is taken out. *)
Fixpoint remove_pending (tasks : gmap task_ptr MigrationTask) (partitionID : Z) (pending : list task_ptr) :
    option (list task_ptr) :=
  match pending with
  | [] => None
  | t :: rest =>
      if decide (MT_PartitionID <$> tasks !! t = Some partitionID) then Some rest
      else cons t <$> remove_pending tasks partitionID rest
  end.

Definition MigrationScheduler_CancelTask (ms : MigrationScheduler) (partitionID : Z) :
    MigrationScheduler * option goerr :=
  match MS_activeTasks ms !! partitionID with
  | Some l => (cancel_active (Errorf "cancelled by user") ms partitionID l, None)
  | None =>
      match remove_pending (MS_tasks ms) partitionID (MS_pendingTasks ms) with
      | Some pending => (MS_set_queue ms pending (MS_activeTasks ms) (MS_completedTasks ms), None)
      | None => (ms, Some (Errorf "partition not found in migration queue"))
      end
  end.

(** [order] is the order in which the loop meets the entries of the map. *)
Definition MigrationScheduler_CancelAllTasks (ms : MigrationScheduler) (order : list (Z * task_ptr)) :
    MigrationScheduler :=
  let ms := foldl (λ ms e, cancel_active (Errorf "cancelled (all tasks)") ms e.1 e.2) ms order in
  MS_set_queue ms [] (MS_activeTasks ms) (MS_completedTasks ms).

Record MigrationStatus := mkMigrationStatus {
  ST_IsRunning : bool;
  ST_MaxConcurrent : Z;
  ST_BandwidthLimit : Z;
  ST_PendingCount : Z;
  ST_ActiveCount : Z;
  ST_TotalMigrated : Z;
  ST_TotalFailed : Z;
  ST_TotalBytes : Z;
  ST_ActiveTasks : list task_ptr
}.

Definition MigrationScheduler_GetStatus (ms : MigrationScheduler) : MigrationStatus :=
  mkMigrationStatus (MS_isRunning ms) (MS_maxConcurrent ms) (MS_bandwidthLimit ms)
    (len (MS_pendingTasks ms)) (Z.of_nat (size (MS_activeTasks ms)))
    (MS_totalMigrated ms) (MS_totalFailed ms) (MS_totalBytesTransferred ms)
    (map_to_list (MS_activeTasks ms)).*2.

Definition MigrationScheduler_GetPendingCount (ms : MigrationScheduler) : Z := len (MS_pendingTasks ms).
Definition MigrationScheduler_GetActiveCount (ms : MigrationScheduler) : Z :=
  Z.of_nat (size (MS_activeTasks ms)).

(** One task leaves the queue: it becomes active and gets a goroutine.  The code
    starts the goroutine after it has released the lock; a goroutine that has not
    been started and one that has not moved are the same to everything but the wait
    group, so both are [AtStart]. *)
Definition start_task (ms : MigrationScheduler) (l : task_ptr) : MigrationScheduler :=
  match MS_tasks ms !! l with
  | None => ms
  | Some task =>
      let ms := MS_set_tasks ms (<[l := MT_set_state (MT_set_cancel task) MIGRATION_COPYING]> (MS_tasks ms)) in
      let ms := MS_set_queue ms (MS_pendingTasks ms) (<[MT_PartitionID task := l]> (MS_activeTasks ms))
        (MS_completedTasks ms) in
      MS_set_goroutines ms (<[l := AtStart]> (MS_goroutines ms))
  end.

Definition availableSlots (ms : MigrationScheduler) : Z :=
  i32 (MS_maxConcurrent ms - i32 (Z.of_nat (size (MS_activeTasks ms)))).

Definition MigrationScheduler_processQueue (ms : MigrationScheduler) : MigrationScheduler :=
  if decide (availableSlots ms ≤ 0 ∨ MS_pendingTasks ms = []) then ms else
  let tasksToStart := take (Z.to_nat (availableSlots ms)) (MS_pendingTasks ms) in
  foldl start_task
    (MS_set_queue ms (drop (length tasksToStart) (MS_pendingTasks ms)) (MS_activeTasks ms) (MS_completedTasks ms))
    tasksToStart.

(** A tick reaches the loop while it is alive. *)
Definition MigrationScheduler_tick (ms : MigrationScheduler) : MigrationScheduler :=
  if MS_loop ms then MigrationScheduler_processQueue ms else ms.

(** What [WaitForCompletion] sees at its ticks: the scheduler, or the end of
    its context.  [None] is a wait that goes on. *)
Fixpoint MigrationScheduler_WaitForCompletion (polls : list (result MigrationScheduler)) :
    option (option goerr) :=
  match polls with
  | [] => None
  | Error err :: _ => Some (Some err)
  | Ok ms :: rest =>
      if decide (len (MS_pendingTasks ms) = 0 ∧ Z.of_nat (size (MS_activeTasks ms)) = 0) then Some None
      else MigrationScheduler_WaitForCompletion rest
  end.

(** A caller makes a task, with the other fields at their zero values, and adds it. *)
Definition add_new (ms : MigrationScheduler) (partitionID : Z) (source target : string)
    (priority : MigrationPriority) (isPrimary : bool) : MigrationScheduler * option goerr :=
  let '(ms, l) := new_task ms
    (mkMigrationTask partitionID source target priority isPrimary MIGRATION_NONE 0 0 None false) in
  match MigrationScheduler_AddTask ms l with
  | Ret (ms, err) => (ms, err)
  | Err err => (ms, Some err)
  | Panic => (ms, None)
  end.

(** ** Goroutines *)

Section Execution.
  Context {S : Type} `{Store S}.

(** The scheduler and the router it was created with; [ms.store] is the store
    of the router. *)
Record Sys := mkSys {
  sy_ms : MigrationScheduler;
  sy_router : @Router S
}.

Definition goto (ms : MigrationScheduler) (l : task_ptr) (ph : phase) : MigrationScheduler :=
  MS_set_goroutines ms (<[l := ph]> (MS_goroutines ms)).

(** The effect of [completeMigration] on the scheduler. *)
Definition finish_task (ms : MigrationScheduler) (l : task_ptr) (task : MigrationTask) (err : option goerr) :
    MigrationScheduler :=
  let task' := match err with
    | Some err => MT_set_error (MT_set_state task MIGRATION_FAILED) err
    | None => MT_set_state task MIGRATION_COMPLETE
    end in
  let ms := MS_set_tasks ms (<[l := task']> (MS_tasks ms)) in
  let ms := match err with
    | Some _ => MS_set_totals ms (MS_totalMigrated ms) (i64 (MS_totalFailed ms + 1)) (MS_totalBytesTransferred ms)
    | None => MS_set_totals ms (i64 (MS_totalMigrated ms + 1)) (MS_totalFailed ms)
                (i64 (MS_totalBytesTransferred ms + MT_BytesCopied task))
    end in
  MS_set_queue ms (MS_pendingTasks ms) (delete (MT_PartitionID task) (MS_activeTasks ms))
    (MS_completedTasks ms ++ [l]).

Definition MigrationScheduler_completeMigration (sy : Sys) (l : task_ptr) (task : MigrationTask)
    (err : option goerr) : Sys :=
  let ms := finish_task (sy_ms sy) l task err in
  let '(s, _) := DeleteMigrationState (R_store (sy_router sy)) (MT_PartitionID task) in
  mkSys ms (R_set_store (sy_router sy) s).

(** The goroutine of the task at [l] runs from one phase to the next.
    [ctxErr] is what its context says when it waits. *)
Definition MigrationScheduler_executeMigration (sy : Sys) (l : task_ptr) (ctxErr : option goerr) : Sys :=
  match MS_goroutines (sy_ms sy) !! l, MS_tasks (sy_ms sy) !! l with
  | Some AtStart, Some task =>
      let migrationInfo := mkMigrationInfo (MT_PartitionID task) (MT_Target task) MIGRATION_COPYING
        (MT_IsPrimary task) in
      let '(s, err) := SetMigrationState (R_store (sy_router sy)) (MT_PartitionID task) migrationInfo in
      mkSys (goto (sy_ms sy) l (match err with
        | Some _ => AtFinish (Some (Errorf "failed to set migration state"))
        | None => AtWait
        end))
        (R_set_store (sy_router sy) s)
  | Some AtWait, Some task =>
      mkSys (goto (sy_ms sy) l (match ctxErr with Some err => AtFinish (Some err) | None => AtSwitch end))
        (sy_router sy)
  | Some AtSwitch, Some task =>
      let '(r, err) := Router_CompleteMigration (sy_router sy) (MT_PartitionID task) (MT_Target task)
        (MT_IsPrimary task) in
      mkSys (goto (sy_ms sy) l (AtFinish err)) r
  | Some (AtFinish err), Some task =>
      let sy := MigrationScheduler_completeMigration sy l task err in
      mkSys (MS_set_goroutines (sy_ms sy) (delete l (MS_goroutines (sy_ms sy)))) (sy_router sy)
  | _, _ => sy
  end.

(** ** Histories *)

Inductive event :=
  | EvAdd (partitionID : Z) (source target : string) (priority : MigrationPriority) (isPrimary : bool)
  | EvCancel (partitionID : Z)
  | EvCancelAll (order : list (Z * task_ptr))
  | EvSetConfig (maxConcurrent bandwidthLimit : Z)
  | EvStart
  | EvStop
  | EvTick
  | EvExec (l : task_ptr) (ctxErr : option goerr)
  | EvTable (op : table_op)
  | EvWatch (table : RouteTable).

Definition on_ms (f : MigrationScheduler → MigrationScheduler) (sy : Sys) : Sys :=
  mkSys (f (sy_ms sy)) (sy_router sy).

Definition sys_step (sy : Sys) (ev : event) : Sys :=
  match ev with
  | EvAdd partitionID source target priority isPrimary =>
      on_ms (λ ms, (add_new ms partitionID source target priority isPrimary).1) sy
  | EvCancel partitionID => on_ms (λ ms, (MigrationScheduler_CancelTask ms partitionID).1) sy
  | EvCancelAll order => on_ms (λ ms, MigrationScheduler_CancelAllTasks ms order) sy
  | EvSetConfig maxConcurrent bandwidthLimit =>
      on_ms (λ ms, MigrationScheduler_SetConfig ms maxConcurrent bandwidthLimit) sy
  | EvStart => on_ms MigrationScheduler_Start sy
  | EvStop => on_ms MigrationScheduler_Stop sy
  | EvTick => on_ms MigrationScheduler_tick sy
  | EvExec l ctxErr => MigrationScheduler_executeMigration sy l ctxErr
  | EvTable op => mkSys (sy_ms sy) (run_op (sy_router sy) op).1
  | EvWatch table => mkSys (sy_ms sy) (Router_watch (sy_router sy) table)
  end.

(** The loop of [CancelAllTasks] visits each active task once; the limit is a
    32-bit integer. *)
Definition event_ok (sy : Sys) (ev : event) : Prop :=
  match ev with
  | EvCancelAll order => order ≡ₚ map_to_list (MS_activeTasks (sy_ms sy))
  | EvSetConfig maxConcurrent _ => maxConcurrent < 2 ^ 31
  | _ => True
  end.

(** The histories of a new scheduler in which only [allowed] events happen. *)
Inductive sys_reach (allowed : event → Prop) (r : @Router S) : Sys → Prop :=
  | reach_new : sys_reach allowed r (mkSys NewMigrationScheduler r)
  | reach_step sy ev : sys_reach allowed r sy → allowed ev → event_ok sy ev →
      sys_reach allowed r (sys_step sy ev).

End Execution.

(** ** The invariant of the queue *)

(** The order of the queue: by falling priority, and by age within a priority
    (addresses grow with time). *)
Definition queued_before (tasks : gmap task_ptr MigrationTask) (a b : task_ptr) : Prop :=
  ∃ ta tb, tasks !! a = Some ta ∧ tasks !! b = Some tb ∧
    (MigrationPriority_num (MT_Priority tb) < MigrationPriority_num (MT_Priority ta) ∨
     MT_Priority ta = MT_Priority tb ∧ (a < b)%nat).

Record sched_inv (ms : MigrationScheduler) : Prop := {
  inv_heap l : is_Some (MS_tasks ms !! l) ↔ (l < size (MS_tasks ms))%nat;
  inv_pending l : l ∈ MS_pendingTasks ms → ∃ t, MS_tasks ms !! l = Some t ∧
    MT_State t = MIGRATION_PREPARING ∧ MS_activeTasks ms !! MT_PartitionID t = None ∧
    MS_goroutines ms !! l = None;
  inv_unique : NoDup (task_field MT_PartitionID ms <$> MS_pendingTasks ms);
  inv_sorted : StronglySorted (queued_before (MS_tasks ms)) (MS_pendingTasks ms);
  inv_active p l : MS_activeTasks ms !! p = Some l → ∃ t, MS_tasks ms !! l = Some t ∧
    MT_PartitionID t = p ∧ MT_State t = MIGRATION_COPYING ∧ is_Some (MS_goroutines ms !! l);
  inv_goroutines l : is_Some (MS_goroutines ms !! l) → is_Some (MS_tasks ms !! l);
  inv_totals : ∃ m f, 0 ≤ m ∧ 0 ≤ f ∧ MS_totalMigrated ms = i64 m ∧ MS_totalFailed ms = i64 f ∧
    m + f = len (MS_completedTasks ms)
}.

Lemma NewMigrationScheduler_inv : sched_inv NewMigrationScheduler.
Proof.
  split; cbn [MS_tasks MS_pendingTasks MS_activeTasks MS_goroutines MS_totalMigrated MS_totalFailed
    MS_completedTasks NewMigrationScheduler].
  - intros l. rewrite lookup_empty, map_size_empty. split; [by intros []|lia].
  - intros l Hl. by apply elem_of_nil in Hl.
  - constructor.
  - constructor.
  - intros p l. by rewrite lookup_empty.
  - intros l. rewrite lookup_empty. by intros [].
  - by exists 0, 0.
Qed.

(** *** Adding *)

Lemma insert_by_priority_perm tasks l pr pending :
  insert_by_priority tasks l pr pending ≡ₚ l :: pending.
Proof.
  induction pending as [|t rest IH]; simpl; [done|].
  repeat case_match; rewrite ?IH; try done; apply Permutation_swap.
Qed.

Lemma elem_of_insert_by_priority tasks l pr pending x :
  x ∈ insert_by_priority tasks l pr pending ↔ x = l ∨ x ∈ pending.
Proof. by rewrite insert_by_priority_perm, elem_of_cons. Qed.

Lemma insert_by_priority_sorted tasks l task pending :
  tasks !! l = Some task → StronglySorted (queued_before tasks) pending →
  (∀ x, x ∈ pending → is_Some (tasks !! x) ∧ (x < l)%nat) →
  StronglySorted (queued_before tasks) (insert_by_priority tasks l (MT_Priority task) pending).
Proof.
  intros Hl Hs Hp. induction Hs as [|t rest Hs IH Ht]; simpl; [repeat constructor|].
  destruct (Hp t) as [[task' Ht'] Hlt]; [set_solver|]. rewrite Ht'.
  rewrite Forall_forall in Ht. destruct (Z.ltb_spec (MigrationPriority_num (MT_Priority task')) (MigrationPriority_num (MT_Priority task))) as [Hpr|Hpr].
  - constructor; [by constructor; [|apply Forall_forall]|]. apply Forall_forall. intros x Hx.
    exists task. destruct (Hp x Hx) as [[tx Hx'] _]. exists tx. split_and!; [done..|].
    apply elem_of_cons in Hx as [->|Hx]; [simplify_eq; by left|].
    destruct (Ht x Hx) as (a & b & Ha & Hb & Hab). simplify_eq. left.
    destruct Hab as [|[Hab _]]; [lia|]. rewrite Hab in Hpr. lia.
  - constructor; [apply IH; set_solver|]. apply Forall_forall. intros x Hx.
    rewrite insert_by_priority_perm in Hx. apply elem_of_cons in Hx as [->|Hx]; [|by apply Ht].
    exists task', task. split_and!; [done..|].
    destruct (Z.eq_dec (MigrationPriority_num (MT_Priority task')) (MigrationPriority_num (MT_Priority task))) as [E|E]; [|left; lia].
    right. split; [|done]. by destruct (MT_Priority task'), (MT_Priority task).
Qed.

(** Tasks keep their partition and priority for life. *)
Definition same_tasks (m m' : gmap task_ptr MigrationTask) : Prop :=
  ∀ l t, m !! l = Some t → ∃ t', m' !! l = Some t' ∧
    MT_PartitionID t' = MT_PartitionID t ∧ MT_Priority t' = MT_Priority t.

Lemma sorted_same m m' pending :
  same_tasks m m' → StronglySorted (queued_before m) pending → StronglySorted (queued_before m') pending.
Proof.
  intros Hm Hs. induction Hs as [|t rest Hs IH Ht]; constructor; [done|].
  eapply Forall_impl; [done|]. intros x (ta & tb & Ha & Hb & Hab).
  destruct (Hm _ _ Ha) as (ta' & Ha' & _ & Hpa), (Hm _ _ Hb) as (tb' & Hb' & _ & Hpb).
  exists ta', tb'. by rewrite Hpa, Hpb.
Qed.

Lemma same_tasks_insert m l t t' :
  m !! l = Some t → MT_PartitionID t' = MT_PartitionID t → MT_Priority t' = MT_Priority t →
  same_tasks m (<[l := t']> m).
Proof.
  intros Hl Hp Hq x tx Hx. destruct (decide (l = x)) as [<-|Hne].
  - rewrite lookup_insert_eq. simplify_eq. eauto.
  - rewrite lookup_insert_ne by done. eauto.
Qed.

Lemma same_tasks_new m l t : m !! l = None → same_tasks m (<[l := t]> m).
Proof. intros Hl x tx Hx. rewrite lookup_insert_ne by congruence. eauto. Qed.

Lemma partitions_same m m' (pending : list task_ptr) :
  same_tasks m m' → (∀ l, l ∈ pending → is_Some (m !! l)) →
  (λ l, MT_PartitionID <$> m' !! l) <$> pending = (λ l, MT_PartitionID <$> m !! l) <$> pending.
Proof.
  intros Hm Hp. apply list_fmap_ext. intros i x Hx. apply list_elem_of_lookup_2, Hp in Hx as [t Ht].
  destruct (Hm _ _ Ht) as (t' & -> & Hid & _). rewrite Ht. simpl. by rewrite Hid.
Qed.

Lemma heap_insert (m : gmap task_ptr MigrationTask) l t t' :
  m !! l = Some t → (∀ x, is_Some (m !! x) ↔ (x < size m)%nat) →
  ∀ x, is_Some (<[l := t']> m !! x) ↔ (x < size (<[l := t']> m))%nat.
Proof.
  intros Hl Hm x. rewrite map_size_insert_Some by eauto. rewrite <- Hm, lookup_insert_is_Some'.
  split; [intros [<-|]; [eauto|done]|by right].
Qed.

Lemma new_task_inv ms t : sched_inv ms → sched_inv (new_task ms t).1.
Proof.
  intros [Hh Hp Hu Hs Ha Hg Ht]. cbn [new_task fst]. set (l := size (MS_tasks ms)).
  assert (MS_tasks ms !! l = None) as Hl by (apply eq_None_not_Some; rewrite Hh; unfold l; lia).
  assert (∀ x tx, MS_tasks ms !! x = Some tx → <[l := t]> (MS_tasks ms) !! x = Some tx) as Hx
    by (intros; rewrite lookup_insert_ne by congruence; done).
  split; cbn [MS_set_tasks MS_tasks MS_pendingTasks MS_activeTasks MS_goroutines MS_totalMigrated
    MS_totalFailed MS_completedTasks].
  - intros x. rewrite map_size_insert_None, lookup_insert_is_Some', Hh by done. unfold l. lia.
  - intros x Hin. destruct (Hp x Hin) as (tx & Htx & ?). eauto.
  - unfold task_field in *. cbn [MS_tasks MS_set_tasks].
    rewrite (partitions_same (MS_tasks ms)); [done|by apply same_tasks_new|].
    intros x Hin. destruct (Hp x Hin) as (tx & ? & _). eauto.
  - eapply sorted_same; [|done]. by apply same_tasks_new.
  - intros p x Hin. destruct (Ha p x Hin) as (tx & ? & ?). eauto.
  - intros x Hin. destruct (Hg x Hin) as [tx Htx]. eauto.
  - done.
Qed.

(** A task that nothing holds yet. *)
Definition unused (ms : MigrationScheduler) (l : task_ptr) : Prop :=
  (∀ x, x ∈ MS_pendingTasks ms → (x < l)%nat) ∧ MS_goroutines ms !! l = None ∧
  (∀ p, MS_activeTasks ms !! p ≠ Some l).

Lemma new_task_unused ms t :
  sched_inv ms → unused (new_task ms t).1 (new_task ms t).2 ∧
  MS_tasks (new_task ms t).1 !! (new_task ms t).2 = Some t.
Proof.
  intros [Hh Hp Hu Hs Ha Hg Ht]. cbn [new_task fst snd]. split; [|apply lookup_insert_eq].
  assert (¬ is_Some (MS_tasks ms !! size (MS_tasks ms))) as Hl by (rewrite Hh; lia).
  split_and!; cbn [MS_set_tasks MS_pendingTasks MS_goroutines MS_activeTasks].
  - intros x Hin. destruct (Hp x Hin) as (tx & Htx & _). apply Hh. eauto.
  - apply eq_None_not_Some. intros Hin. apply Hl. eauto.
  - intros p Hin. destruct (Ha p _ Hin) as (tx & ? & _). eauto.
Qed.

(** *** What [AddTask] does *)
Lemma AddTask_cases ms l t :
  MS_tasks ms !! l = Some t →
  (∃ e, MigrationScheduler_AddTask ms l = Ret (ms, Some e) ∧
     (is_Some (MS_activeTasks ms !! MT_PartitionID t) ∨
      ∃ x, x ∈ MS_pendingTasks ms ∧ task_field MT_PartitionID ms x = Some (MT_PartitionID t))) ∨
  (MS_activeTasks ms !! MT_PartitionID t = None ∧
   (∀ x, x ∈ MS_pendingTasks ms → task_field MT_PartitionID ms x ≠ Some (MT_PartitionID t)) ∧
   let tasks := <[l := MT_set_state t MIGRATION_PREPARING]> (MS_tasks ms) in
   MigrationScheduler_AddTask ms l =
     Ret (MS_set_queue (MS_set_tasks ms tasks)
       (insert_by_priority tasks l (MT_Priority t) (MS_pendingTasks ms))
       (MS_activeTasks ms) (MS_completedTasks ms), None)).
Proof.
  intros Hl. unfold MigrationScheduler_AddTask. rewrite Hl. case_decide as Ha; [left; eauto|].
  destruct (existsb _ _) eqn:He.
  - left. eexists. split; [done|]. right. apply existsb_exists in He as (x & Hx & He).
    exists x. rewrite list_elem_of_In. split; [done|]. by apply bool_decide_eq_true in He.
  - right. split; [by apply eq_None_not_Some|]. split; [|done]. intros x Hx Hf.
    assert (existsb (λ t0, bool_decide (task_field MT_PartitionID ms t0 = Some (MT_PartitionID t)))
      (MS_pendingTasks ms) = true); [|congruence].
    apply existsb_exists. exists x. rewrite <- list_elem_of_In. split; [done|by apply bool_decide_eq_true].
Qed.

Lemma AddTask_inv ms l t :
  sched_inv ms → MS_tasks ms !! l = Some t → unused ms l →
  ∃ ms' err, MigrationScheduler_AddTask ms l = Ret (ms', err) ∧ sched_inv ms'.
Proof.
  intros Hinv Hl (Hlt & Hgl & Hal). pose proof Hinv as [Hh Hp Hu Hs Ha Hg Ht].
  destruct (AddTask_cases ms l t Hl) as [(e & -> & _)|(Hact & Hpend & ->)]; [eauto|].
  eexists _, _. split; [done|]. set (t' := MT_set_state t MIGRATION_PREPARING).
  assert (same_tasks (MS_tasks ms) (<[l := t']> (MS_tasks ms))) as Hsame by by eapply same_tasks_insert.
  assert (l ∉ MS_pendingTasks ms) as Hnew by (intros Hin; apply Hlt in Hin; lia).
  assert (∀ x, x ∈ MS_pendingTasks ms → is_Some (MS_tasks ms !! x)) as Hall
    by (intros x Hin; destruct (Hp x Hin) as (tx & ? & _); eauto).
  split; cbn [MS_set_tasks MS_set_queue MS_tasks MS_pendingTasks MS_activeTasks MS_goroutines
    MS_totalMigrated MS_totalFailed MS_completedTasks].
  - by eapply heap_insert.
  - intros x. rewrite insert_by_priority_perm. intros [->|Hin]%elem_of_cons.
    + rewrite lookup_insert_eq. eauto.
    + rewrite lookup_insert_ne by set_solver. by apply Hp.
  - unfold task_field in *. cbn [MS_tasks MS_set_tasks MS_set_queue].
    rewrite insert_by_priority_perm. rewrite fmap_cons, lookup_insert_eq. constructor.
    + intros (x & Hx & Hin)%list_elem_of_fmap. apply (Hpend x Hin).
      rewrite lookup_insert_ne in Hx by set_solver. by rewrite <- Hx.
    + by rewrite (partitions_same (MS_tasks ms)).
  - change (MT_Priority t) with (MT_Priority t').
    apply insert_by_priority_sorted; [apply lookup_insert_eq|by eapply sorted_same|].
    intros x Hin. split; [|by apply Hlt]. rewrite lookup_insert_is_Some'. right. by apply Hall.
  - intros p x Hx. destruct (Ha p x Hx) as (tx & Htx & ?).
    rewrite lookup_insert_ne by (intros ->; by eapply Hal). eauto.
  - intros x Hx. rewrite lookup_insert_is_Some'. right. by apply Hg.
  - done.
Qed.

Lemma add_new_inv ms partitionID source target priority isPrimary :
  sched_inv ms → sched_inv (add_new ms partitionID source target priority isPrimary).1.
Proof.
  intros Hinv. unfold add_new. set (t := mkMigrationTask _ _ _ _ _ _ _ _ _ _).
  destruct (new_task_unused ms t Hinv) as [Hun Hl]. pose proof (new_task_inv ms t Hinv) as Hinv'.
  destruct (new_task ms t) as [ms' l]. cbn [fst snd] in *.
  destruct (AddTask_inv ms' l t Hinv' Hl Hun) as (ms'' & err & -> & Hinv''). done.
Qed.

(** *** Starting *)

Definition MS_set_pending (ms : MigrationScheduler) (pending : list task_ptr) : MigrationScheduler :=
  MS_set_queue ms pending (MS_activeTasks ms) (MS_completedTasks ms).

Lemma start_task_pending ms l pending :
  start_task (MS_set_pending ms pending) l = MS_set_pending (start_task ms l) pending.
Proof. unfold start_task. simpl. by destruct (MS_tasks ms !! l). Qed.

Lemma start_task_queue ms l : MS_pendingTasks (start_task ms l) = MS_pendingTasks ms.
Proof. unfold start_task. by destruct (MS_tasks ms !! l). Qed.

(** The queue gives up its first task. *)
Definition start_first (ms : MigrationScheduler) : MigrationScheduler :=
  match MS_pendingTasks ms with
  | [] => ms
  | l :: rest => start_task (MS_set_pending ms rest) l
  end.

Lemma start_first_iter k ms :
  foldl start_task (MS_set_pending ms (drop (length (take k (MS_pendingTasks ms))) (MS_pendingTasks ms)))
    (take k (MS_pendingTasks ms)) = Nat.iter k start_first ms.
Proof.
  revert ms. induction k as [|k IH]; intros ms; [by destruct ms|]. rewrite Nat.iter_succ_r, <- IH. clear IH.
  unfold start_first. destruct (MS_pendingTasks ms) as [|l rest] eqn:Hp.
  - rewrite Hp. destruct ms. simpl in *. subst. by rewrite take_nil.
  - cbn [take length drop foldl]. rewrite start_task_queue. cbn [MS_set_pending MS_set_queue MS_pendingTasks].
    f_equal. rewrite <- !start_task_pending. done.
Qed.

Lemma processQueue_iter ms :
  MigrationScheduler_processQueue ms = Nat.iter (Z.to_nat (availableSlots ms)) start_first ms.
Proof.
  unfold MigrationScheduler_processQueue. case_decide as Hd; [|apply start_first_iter].
  destruct Hd as [Hd|Hd]; [by replace (Z.to_nat (availableSlots ms)) with 0%nat by lia|].
  assert (start_first ms = ms) as Hid by (unfold start_first; by rewrite Hd).
  generalize (Z.to_nat (availableSlots ms)) as k. induction k as [|k IH]; [done|].
  by rewrite Nat.iter_succ, <- IH.
Qed.

Lemma start_first_inv ms : sched_inv ms → sched_inv (start_first ms).
Proof.
  intros Hinv. pose proof Hinv as [Hh Hp Hu Hs Ha Hg Ht]. unfold start_first, task_field in *.
  destruct (MS_pendingTasks ms) as [|l rest] eqn:Hpend; [done|].
  destruct (Hp l) as (t & Hl & Hst & Hact & Hgo); [set_solver|].
  unfold start_task. cbn [MS_set_pending MS_set_queue MS_tasks]. rewrite Hl.
  set (t' := MT_set_state (MT_set_cancel t) MIGRATION_COPYING).
  assert (same_tasks (MS_tasks ms) (<[l := t']> (MS_tasks ms))) as Hsame by by eapply same_tasks_insert.
  apply NoDup_cons in Hu as [Hnl Hu]. apply StronglySorted_inv in Hs as [Hs Hf].
  assert (∀ x, x ∈ rest → x ≠ l) as Hne.
  { intros x Hx ->. apply Hnl. apply list_elem_of_fmap. by exists l. }
  split; cbn [MS_set_tasks MS_set_queue MS_set_goroutines MS_tasks MS_pendingTasks MS_activeTasks MS_goroutines
    MS_totalMigrated MS_totalFailed MS_completedTasks].
  - by eapply heap_insert.
  - intros x Hx. pose proof (Hne x Hx). destruct (Hp x) as (tx & Htx & Hst' & Hax & Hgx); [set_solver|].
    exists tx. rewrite !lookup_insert_ne; [done|done| |done]. intros Heq. apply Hnl.
    rewrite Hl. simpl. rewrite Heq. apply list_elem_of_fmap. exists x. by rewrite Htx.
  - unfold task_field. cbn [MS_tasks MS_set_tasks MS_set_queue MS_set_goroutines].
    rewrite (partitions_same (MS_tasks ms)); [done..|].
    intros x Hx. destruct (Hp x) as (tx & ? & _); [set_solver|eauto].
  - by eapply sorted_same.
  - intros p x. destruct (decide (MT_PartitionID t = p)) as [<-|Hpne].
    + rewrite lookup_insert_eq. intros [= <-]. rewrite !lookup_insert_eq. eauto 6.
    + rewrite lookup_insert_ne by done. intros Hx. destruct (Ha p x Hx) as (tx & Htx & Hpx & Hsx & Hgx).
      exists tx. rewrite !lookup_insert_ne by congruence. done.
  - intros x. rewrite !lookup_insert_is_Some'. intros [Hx|Hx]; [by left|right; by apply Hg].
  - done.
Qed.

Lemma tick_inv ms : sched_inv ms → sched_inv (MigrationScheduler_tick ms).
Proof.
  intros Hinv. unfold MigrationScheduler_tick. case_match; [|done]. rewrite processQueue_iter.
  induction (Z.to_nat _) as [|k IH]; [done|]. by apply start_first_inv.
Qed.

(** *** Cancelling and finishing *)

(** The task at [l] leaves the active tasks in a final state. *)
Lemma retire_inv ms l t t' migrated failed transferred :
  sched_inv ms → MS_tasks ms !! l = Some t → l ∉ MS_pendingTasks ms →
  MT_PartitionID t' = MT_PartitionID t → MT_Priority t' = MT_Priority t →
  (∃ m f, 0 ≤ m ∧ 0 ≤ f ∧ migrated = i64 m ∧ failed = i64 f ∧ m + f = len (MS_completedTasks ms) + 1) →
  sched_inv (MS_set_totals (MS_set_queue (MS_set_tasks ms (<[l := t']> (MS_tasks ms))) (MS_pendingTasks ms)
    (delete (MT_PartitionID t) (MS_activeTasks ms)) (MS_completedTasks ms ++ [l])) migrated failed transferred).
Proof.
  intros [Hh Hp Hu Hs Ha Hg Ht] Hl Hnp Hid Hpr Htot. unfold task_field in *.
  assert (same_tasks (MS_tasks ms) (<[l := t']> (MS_tasks ms))) as Hsame by by eapply same_tasks_insert.
  split; cbn [MS_set_tasks MS_set_queue MS_set_totals MS_tasks MS_pendingTasks MS_activeTasks MS_goroutines
    MS_totalMigrated MS_totalFailed MS_completedTasks].
  - by eapply heap_insert.
  - intros x Hx. destruct (Hp x Hx) as (tx & Htx & ? & Hax & ?). exists tx.
    rewrite lookup_insert_ne by set_solver. rewrite lookup_delete_None. auto.
  - unfold task_field. cbn [MS_tasks MS_set_tasks MS_set_queue MS_set_totals].
    rewrite (partitions_same (MS_tasks ms)); [done..|].
    intros x Hx. destruct (Hp x Hx) as (tx & ? & _). eauto.
  - by eapply sorted_same.
  - intros p x [Hpne Hx]%lookup_delete_Some. destruct (Ha p x Hx) as (tx & Htx & Hpx & ?).
    exists tx. rewrite lookup_insert_ne by congruence. done.
  - intros x Hx. rewrite lookup_insert_is_Some'. right. by apply Hg.
  - rewrite len_app. exact Htot.
Qed.

Lemma totals_failed ms : sched_inv ms →
  ∃ m f, 0 ≤ m ∧ 0 ≤ f ∧ MS_totalMigrated ms = i64 m ∧ i64 (MS_totalFailed ms + 1) = i64 f ∧
    m + f = len (MS_completedTasks ms) + 1.
Proof.
  intros [_ _ _ _ _ _ (m & f & ? & ? & -> & -> & ?)]. exists m, (f + 1). rewrite i64_add_l. split_and!; lia || done.
Qed.

Lemma totals_migrated ms : sched_inv ms →
  ∃ m f, 0 ≤ m ∧ 0 ≤ f ∧ i64 (MS_totalMigrated ms + 1) = i64 m ∧ MS_totalFailed ms = i64 f ∧
    m + f = len (MS_completedTasks ms) + 1.
Proof.
  intros [_ _ _ _ _ _ (m & f & ? & ? & -> & -> & ?)]. exists (m + 1), f. rewrite i64_add_l. split_and!; lia || done.
Qed.

Lemma running_not_pending ms l : sched_inv ms → is_Some (MS_goroutines ms !! l) → l ∉ MS_pendingTasks ms.
Proof. intros Hinv [ph Hl] Hin. destruct (inv_pending ms Hinv l Hin) as (t & _ & _ & _ & ?). congruence. Qed.

Lemma cancel_active_inv err ms p l :
  sched_inv ms → MS_activeTasks ms !! p = Some l → sched_inv (cancel_active err ms p l).
Proof.
  intros Hinv Hl. destruct (inv_active ms Hinv p l Hl) as (t & Ht & <- & _ & Hgo).
  unfold cancel_active. rewrite (alter_present _ _ _ _ Ht).
  apply (retire_inv ms l t); try done; [by apply running_not_pending|exact (totals_failed ms Hinv)].
Qed.

Lemma CancelAllTasks_loop err order ms :
  sched_inv ms → NoDup order.*1 → (∀ p l, (p, l) ∈ order → MS_activeTasks ms !! p = Some l) →
  sched_inv (foldl (λ ms e, cancel_active err ms e.1 e.2) ms order) ∧
  ∀ p, MS_activeTasks (foldl (λ ms e, cancel_active err ms e.1 e.2) ms order) !! p =
    if decide (p ∈ order.*1) then None else MS_activeTasks ms !! p.
Proof.
  revert ms. induction order as [|[p l] order IH]; intros ms Hinv Hnd Hin.
  { split; [done|]. intros q. by rewrite decide_False by set_solver. }
  rewrite fmap_cons in Hnd. apply NoDup_cons in Hnd as [Hp Hnd]. cbn [foldl fst snd].
  pose proof (Hin p l ltac:(set_solver)) as Hl.
  destruct (IH (cancel_active err ms p l)) as [Hinv' Hq]; [by apply cancel_active_inv|done| |].
  { intros q x Hq. cbn. rewrite lookup_delete_ne; [set_solver|]. intros ->. apply Hp.
    by apply (list_elem_of_fmap_2 fst) in Hq. }
  split; [done|]. intros q. rewrite Hq. cbn. destruct (decide (q = p)) as [->|Hne].
  - rewrite (decide_False (P:=p ∈ order.*1)) by done. rewrite lookup_delete_eq. by rewrite decide_True by set_solver.
  - rewrite lookup_delete_ne by done. destruct (decide (q ∈ order.*1)); [by rewrite decide_True by set_solver|].
    by rewrite decide_False by set_solver.
Qed.

Lemma clear_pending_inv ms pending :
  sched_inv ms → sublist pending (MS_pendingTasks ms) → sched_inv (MS_set_pending ms pending).
Proof.
  intros [Hh Hp Hu Hs Ha Hg Ht] Hsub. split; try done; cbn [MS_set_pending MS_set_queue MS_pendingTasks].
  - intros l Hl. apply Hp. by eapply elem_of_sublist.
  - eapply sublist_NoDup; [done|]. by apply fmap_sublist.
  - clear -Hs Hsub. cbn. induction Hsub; [constructor| |]; apply StronglySorted_inv in Hs as [Hs Hf]; [|auto].
    constructor; [auto|]. rewrite Forall_forall in *. intros y Hy. apply Hf.
    by eapply elem_of_sublist.
Qed.

Lemma CancelAllTasks_inv ms order :
  sched_inv ms → order ≡ₚ map_to_list (MS_activeTasks ms) →
  sched_inv (MigrationScheduler_CancelAllTasks ms order) ∧
  MS_activeTasks (MigrationScheduler_CancelAllTasks ms order) = ∅.
Proof.
  intros Hinv Hord. unfold MigrationScheduler_CancelAllTasks.
  destruct (CancelAllTasks_loop (Errorf "cancelled (all tasks)") order ms Hinv) as [Hi Hq].
  { rewrite Hord. apply NoDup_fst_map_to_list. }
  { intros p l. rewrite Hord. apply elem_of_map_to_list. }
  split; [apply clear_pending_inv; [done|apply sublist_nil_l]|]. apply map_empty. intros p. cbn. rewrite Hq.
  case_decide as Hin; [done|]. apply eq_None_not_Some. intros [l Hl]. apply Hin. rewrite Hord.
  apply elem_of_map_to_list in Hl. by apply (list_elem_of_fmap_2 fst) in Hl.
Qed.

Lemma remove_pending_sublist tasks p pending pending' :
  remove_pending tasks p pending = Some pending' → sublist pending' pending.
Proof.
  revert pending'. induction pending as [|t rest IH]; simpl; [done|]. intros pending'. case_decide.
  - intros [= <-]. by constructor.
  - destruct (remove_pending tasks p rest) as [r|]; [|done]. intros [= <-]. constructor. by apply IH.
Qed.

Lemma CancelTask_inv ms p : sched_inv ms → sched_inv (MigrationScheduler_CancelTask ms p).1.
Proof.
  intros Hinv. unfold MigrationScheduler_CancelTask.
  destruct (MS_activeTasks ms !! p) as [l|] eqn:Hl; [by apply cancel_active_inv|].
  destruct (remove_pending _ _ _) as [pending|] eqn:Hp; [|done].
  apply clear_pending_inv; [done|]. by eapply remove_pending_sublist.
Qed.

Lemma goto_inv ms l ph : sched_inv ms → is_Some (MS_goroutines ms !! l) → sched_inv (goto ms l ph).
Proof.
  intros Hinv Hl. pose proof (running_not_pending ms l Hinv Hl) as Hnp.
  destruct Hinv as [Hh Hp Hu Hs Ha Hg Ht]. split; try done; cbn [goto MS_set_goroutines MS_goroutines
    MS_pendingTasks MS_activeTasks MS_tasks].
  - intros x Hx. rewrite lookup_insert_ne by set_solver. by apply Hp.
  - intros p x Hx. destruct (Ha p x Hx) as (t & ? & ? & ? & ?). exists t. rewrite lookup_insert_is_Some'. auto.
  - intros x Hx. rewrite lookup_insert_is_Some' in Hx. destruct Hx as [<-|]; auto.
Qed.

(** A goroutine ends. *)
Lemma end_inv ms l :
  sched_inv ms → (∀ p, MS_activeTasks ms !! p ≠ Some l) →
  sched_inv (MS_set_goroutines ms (delete l (MS_goroutines ms))).
Proof.
  intros [Hh Hp Hu Hs Ha Hg Ht] Hl. split; try done; cbn [MS_set_goroutines MS_goroutines
    MS_pendingTasks MS_activeTasks MS_tasks].
  - intros x Hx. destruct (Hp x Hx) as (t & ? & ? & ? & ?). exists t. rewrite lookup_delete_None. auto.
  - intros p x Hx. destruct (Ha p x Hx) as (t & ? & ? & ? & ?). exists t.
    rewrite lookup_delete_ne by (intros ->; by eapply Hl). auto.
  - intros x. rewrite lookup_delete_is_Some. intros [_ Hx]. auto.
Qed.

Lemma finish_task_inv ms l t err :
  sched_inv ms → is_Some (MS_goroutines ms !! l) → MS_tasks ms !! l = Some t →
  sched_inv (finish_task ms l t err) ∧ ∀ p, MS_activeTasks (finish_task ms l t err) !! p ≠ Some l.
Proof.
  intros Hinv Hgo Hl. pose proof (running_not_pending ms l Hinv Hgo) as Hnp. split.
  - destruct err as [e|]; (apply (retire_inv ms l t); try done);
      [exact (totals_failed ms Hinv)|exact (totals_migrated ms Hinv)].
  - intros p. replace (MS_activeTasks (finish_task ms l t err)) with (delete (MT_PartitionID t) (MS_activeTasks ms))
      by by destruct err. intros [Hne Hp]%lookup_delete_Some.
    destruct (inv_active ms Hinv p l Hp) as (t' & ? & ? & _). congruence.
Qed.

(** *** Histories *)

Section Histories.
  Context {S : Type} `{Store S}.

(** What a step of a goroutine does to the scheduler. *)
Lemma executeMigration_ms (sy : Sys) l ctxErr :
  let ms := sy_ms sy in
  let ms' := sy_ms (MigrationScheduler_executeMigration sy l ctxErr) in
  ms' = ms ∧ (MS_goroutines ms !! l = None ∨ MS_tasks ms !! l = None) ∨
  (∃ t ph ph', MS_tasks ms !! l = Some t ∧ MS_goroutines ms !! l = Some ph ∧ ms' = goto ms l ph' ∧
     ((ph = AtStart ∧ ph' ≠ AtStart ∧ ph' ≠ AtSwitch) ∨ (ph = AtWait ∧ ph' ≠ AtStart ∧ ph' ≠ AtWait) ∨
      ph = AtSwitch ∧ ∃ err, ph' = AtFinish err)) ∨
  ∃ t err, MS_tasks ms !! l = Some t ∧ MS_goroutines ms !! l = Some (AtFinish err) ∧
    ms' = MS_set_goroutines (finish_task ms l t err) (delete l (MS_goroutines ms)).
Proof.
  cbv zeta. unfold MigrationScheduler_executeMigration.
  destruct (MS_goroutines (sy_ms sy) !! l) as [ph|] eqn:Hg; [|by left; auto].
  destruct (MS_tasks (sy_ms sy) !! l) as [t|] eqn:Ht; [|by left; destruct ph; auto]. right.
  destruct ph as [| | |err].
  - left. destruct (SetMigrationState _ _ _) as [s err]. eexists t, _, _. split_and!; [done..|].
    left. by destruct err.
  - left. eexists t, _, _. split_and!; [done..|]. right; left. by destruct ctxErr.
  - left. destruct (Router_CompleteMigration _ _ _ _) as [r err]. eexists t, _, _. split_and!; [done..|].
    right; right. eauto.
  - right. exists t, err. split_and!; [done..|]. unfold MigrationScheduler_completeMigration.
    destruct (DeleteMigrationState _ _) as [s e]. by destruct err.
Qed.

Lemma sys_step_inv (sy : Sys) (ev : event) :
  sched_inv (sy_ms sy) → event_ok sy ev → sched_inv (sy_ms (sys_step sy ev)).
Proof.
  intros Hinv Hok. destruct ev as [| | | | | | |l ctxErr| |]; cbn [sys_step on_ms sy_ms] in *.
  - by apply add_new_inv.
  - by apply CancelTask_inv.
  - by apply CancelAllTasks_inv.
  - destruct Hinv. by split.
  - unfold MigrationScheduler_Start. case_match; [done|]. destruct Hinv. by split.
  - unfold MigrationScheduler_Stop. case_match; [done|]. destruct Hinv. by split.
  - by apply tick_inv.
  - destruct (executeMigration_ms sy l ctxErr) as [[-> _]|[(t & ph & ph' & Ht & Hg & -> & _)|(t & err & Ht & Hg & ->)]];
      [done|by apply goto_inv; eauto|].
    destruct (finish_task_inv (sy_ms sy) l t err Hinv) as [Hinv' Hl]; [eauto..|].
    replace (MS_goroutines (sy_ms sy)) with (MS_goroutines (finish_task (sy_ms sy) l t err)) by by destruct err.
    by apply end_inv.
  - done.
  - done.
Qed.

Lemma sys_reach_inv allowed (r : Router) (sy : Sys) : sys_reach allowed r sy → sched_inv (sy_ms sy).
Proof. induction 1; [apply NewMigrationScheduler_inv|by apply sys_step_inv]. Qed.

(** C12: the invariant of the migration queue.  Whatever clients, ticks,
    goroutines, the router and the store do, the pending tasks are ordered by
    falling priority and by age within a priority, a partition has at most one
    pending task and none while it has an active one, the map of active tasks
    holds each task under its own partition with a goroutine that runs it, and
    the counters add up to the completed tasks. *)
Theorem queue_invariant (r : Router) (sy : Sys) :
  sys_reach (λ _, True) r sy → sched_inv (sy_ms sy).
Proof. apply sys_reach_inv. Qed.

(** *** Concurrency *)

Definition config_within (limit : Z) (ev : event) : Prop :=
  match ev with EvSetConfig maxConcurrent _ => maxConcurrent ≤ limit | _ => True end.

Definition within (limit : Z) (ms : MigrationScheduler) : Prop :=
  0 < MS_maxConcurrent ms ≤ limit ∧ Z.of_nat (size (MS_activeTasks ms)) ≤ limit.

Lemma start_first_size ms :
  MS_maxConcurrent (start_first ms) = MS_maxConcurrent ms ∧
  (size (MS_activeTasks (start_first ms)) ≤ size (MS_activeTasks ms) + 1)%nat.
Proof.
  unfold start_first, start_task. destruct (MS_pendingTasks ms) as [|l rest]; [split; [done|lia]|].
  cbn [MS_set_pending MS_set_queue MS_tasks]. destruct (MS_tasks ms !! l) as [t|]; [|split; [done|simpl; lia]].
  simpl. split; [done|]. destruct (MS_activeTasks ms !! MT_PartitionID t) eqn:Ha.
  - rewrite map_size_insert_Some by eauto. lia.
  - rewrite map_size_insert_None by done. lia.
Qed.

Lemma start_first_sizes k ms :
  MS_maxConcurrent (Nat.iter k start_first ms) = MS_maxConcurrent ms ∧
  (size (MS_activeTasks (Nat.iter k start_first ms)) ≤ size (MS_activeTasks ms) + k)%nat.
Proof.
  induction k as [|k [IHm IH]]; [split; [done|simpl; lia]|]. rewrite Nat.iter_succ.
  destruct (start_first_size (Nat.iter k start_first ms)) as [-> ?]. split; [done|lia].
Qed.

Lemma slots_within limit ms :
  limit < 2 ^ 31 → within limit ms →
  availableSlots ms = MS_maxConcurrent ms - Z.of_nat (size (MS_activeTasks ms)).
Proof. unfold within, availableSlots. intros ? [??]. rewrite !i32_small; rewrite ?i32_small; lia. Qed.

Lemma tick_within limit ms :
  limit < 2 ^ 31 → within limit ms → within limit (MigrationScheduler_tick ms).
Proof.
  intros Hlim Hw. unfold MigrationScheduler_tick. case_match; [|done]. rewrite processQueue_iter.
  pose proof (slots_within limit ms Hlim Hw) as Hs. destruct Hw as [Hm Ha].
  destruct (start_first_sizes (Z.to_nat (availableSlots ms)) ms) as [Hm' Ha']. unfold within. rewrite Hm'. lia.
Qed.

(** The other operations only take tasks out of the map. *)
Lemma add_new_frame ms partitionID source target priority isPrimary :
  let ms' := (add_new ms partitionID source target priority isPrimary).1 in
  MS_activeTasks ms' = MS_activeTasks ms ∧ MS_maxConcurrent ms' = MS_maxConcurrent ms ∧
  MS_completedTasks ms' = MS_completedTasks ms ∧ MS_goroutines ms' = MS_goroutines ms ∧
  MS_totalMigrated ms' = MS_totalMigrated ms ∧ MS_totalFailed ms' = MS_totalFailed ms.
Proof.
  unfold add_new. cbn [new_task]. set (ms1 := MS_set_tasks ms _).
  destruct (AddTask_cases ms1 (size (MS_tasks ms))
    (mkMigrationTask partitionID source target priority isPrimary MIGRATION_NONE 0 0 None false))
    as [(e & -> & _)|(_ & _ & ->)]; [apply lookup_insert_eq|done|done].
Qed.

Lemma active_shrinks (sy : Sys) (ev : event) :
  ev ≠ EvTick → MS_activeTasks (sy_ms (sys_step sy ev)) ⊆ MS_activeTasks (sy_ms sy).
Proof.
  intros Hev. destruct ev as [| |order| | | | |l ctxErr| |]; cbn [sys_step on_ms sy_ms]; try done.
  - by destruct (add_new_frame (sy_ms sy) partitionID source target priority isPrimary) as [-> _].
  - unfold MigrationScheduler_CancelTask. destruct (MS_activeTasks _ !! _); [apply delete_subseteq|].
    by destruct (remove_pending _ _ _).
  - unfold MigrationScheduler_CancelAllTasks. cbn [MS_set_queue MS_activeTasks]. clear Hev.
    generalize (sy_ms sy) as ms. induction order as [|e order IH]; intros ms; [done|].
    cbn [foldl]. etrans; [apply IH|]. apply delete_subseteq.
  - unfold MigrationScheduler_Start. by case_match.
  - unfold MigrationScheduler_Stop. by case_match.
  - destruct (executeMigration_ms sy l ctxErr) as [[-> _]|[(t & ph & ph' & _ & _ & -> & _)|(t & err & _ & _ & ->)]];
      [done..|]. destruct err; apply delete_subseteq.
Qed.

Lemma maxConcurrent_step (sy : Sys) (ev : event) :
  MS_maxConcurrent (sy_ms (sys_step sy ev)) =
  match ev with
  | EvSetConfig mc _ => if 0 <? mc then mc else MS_maxConcurrent (sy_ms sy)
  | _ => MS_maxConcurrent (sy_ms sy)
  end.
Proof.
  destruct ev as [| |order| | | | |l ctxErr| |]; cbn [sys_step on_ms sy_ms]; try done.
  - by destruct (add_new_frame (sy_ms sy) partitionID source target priority isPrimary) as (_ & -> & _).
  - unfold MigrationScheduler_CancelTask. destruct (MS_activeTasks _ !! _); [done|].
    by destruct (remove_pending _ _ _).
  - unfold MigrationScheduler_CancelAllTasks. cbn [MS_set_queue MS_maxConcurrent].
    generalize (sy_ms sy) as ms. induction order as [|e order IH]; intros ms; [done|]. cbn [foldl]. by rewrite IH.
  - unfold MigrationScheduler_Start. by case_match.
  - unfold MigrationScheduler_Stop. by case_match.
  - unfold MigrationScheduler_tick. case_match; [|done]. rewrite processQueue_iter. apply start_first_sizes.
  - destruct (executeMigration_ms sy l ctxErr) as [[-> _]|[(t & ph & ph' & _ & _ & -> & _)|(t & err & _ & _ & ->)]];
      [done..|]. by destruct err.
Qed.

Lemma sys_reach_within limit (r : Router) (sy : Sys) :
  DefaultMaxConcurrent ≤ limit < 2 ^ 31 → sys_reach (config_within limit) r sy → within limit (sy_ms sy).
Proof.
  intros Hlim. induction 1 as [|sy ev Hr IH Hev Hok].
  { unfold within. cbn. unfold DefaultMaxConcurrent in *. rewrite map_size_empty. lia. }
  assert (ev = EvTick ∨ ev ≠ EvTick) as [->|Hne] by (destruct ev; (by left) || by right); [apply tick_within; [lia|done]|].
  destruct IH as [Hm Ha]. unfold within. rewrite maxConcurrent_step. split.
  - destruct ev; try done. simpl in Hev. destruct (Z.ltb_spec 0 maxConcurrent); lia.
  - pose proof (active_shrinks sy ev Hne) as Hs%subseteq_dom%subseteq_size. rewrite !size_dom in Hs. lia.
Qed.

(** The number of active migrations never exceeds the largest limit that
    was configured, also while the limit is raised and lowered. *)
Lemma active_bounded limit (r : Router) (sy : Sys) :
  DefaultMaxConcurrent ≤ limit < 2 ^ 31 → sys_reach (config_within limit) r sy →
  MigrationScheduler_GetActiveCount (sy_ms sy) ≤ limit.
Proof. intros Hlim Hr. by destruct (sys_reach_within limit r sy Hlim Hr). Qed.

(** *** The life of a task *)

Definition not_cancel (ev : event) : Prop :=
  match ev with EvCancel _ | EvCancelAll _ => False | _ => True end.

(** Where a task is, by its state. *)
Definition in_place (ms : MigrationScheduler) (l : task_ptr) (t : MigrationTask) : Prop :=
  match MT_State t with
  | MIGRATION_NONE =>
      l ∉ MS_pendingTasks ms ∧ MS_activeTasks ms !! MT_PartitionID t ≠ Some l ∧
      MS_goroutines ms !! l = None ∧ l ∉ MS_completedTasks ms
  | MIGRATION_PREPARING =>
      l ∈ MS_pendingTasks ms ∧ MS_activeTasks ms !! MT_PartitionID t ≠ Some l ∧
      MS_goroutines ms !! l = None ∧ l ∉ MS_completedTasks ms
  | MIGRATION_COPYING =>
      l ∉ MS_pendingTasks ms ∧ MS_activeTasks ms !! MT_PartitionID t = Some l ∧
      is_Some (MS_goroutines ms !! l) ∧ l ∉ MS_completedTasks ms
  | MIGRATION_COMPLETE | MIGRATION_FAILED =>
      l ∉ MS_pendingTasks ms ∧ MS_activeTasks ms !! MT_PartitionID t ≠ Some l ∧
      MS_goroutines ms !! l = None ∧ l ∈ MS_completedTasks ms
  | _ => False
  end.

(** How many completed tasks are in a state. *)
Definition completed_in (ms : MigrationScheduler) (state : MigrationState) : Z :=
  len (filter (λ l, task_field MT_State ms l = Some state) (MS_completedTasks ms)).

Record lifecycle (ms : MigrationScheduler) : Prop := {
  life_place l t : MS_tasks ms !! l = Some t → in_place ms l t;
  life_completed : NoDup (MS_completedTasks ms);
  life_known l : l ∈ MS_completedTasks ms → is_Some (MS_tasks ms !! l);
  life_migrated : MS_totalMigrated ms = i64 (completed_in ms MIGRATION_COMPLETE);
  life_failed : MS_totalFailed ms = i64 (completed_in ms MIGRATION_FAILED)
}.

Lemma list_filter_ext {A} (P Q : A → Prop) `{∀ x, Decision (P x), ∀ x, Decision (Q x)} (l : list A) :
  (∀ x, x ∈ l → P x ↔ Q x) → filter P l = filter Q l.
Proof.
  induction l as [|x l IH]; intros Hx; [done|]. rewrite !filter_cons, IH by set_solver.
  pose proof (Hx x ltac:(set_solver)). repeat case_decide; tauto || done.
Qed.

(** Changes to tasks that are not completed leave the counts. *)
Lemma completed_in_frame ms (tasks : gmap task_ptr MigrationTask) state :
  (∀ l, l ∈ MS_completedTasks ms → tasks !! l = MS_tasks ms !! l) →
  len (filter (λ l, MT_State <$> tasks !! l = Some state) (MS_completedTasks ms)) = completed_in ms state.
Proof.
  intros Hf. unfold completed_in, task_field. f_equal. apply list_filter_ext. intros l Hl. by rewrite Hf.
Qed.

Lemma life_completed_state ms l t :
  lifecycle ms → MS_tasks ms !! l = Some t → l ∈ MS_completedTasks ms →
  MT_State t = MIGRATION_COMPLETE ∨ MT_State t = MIGRATION_FAILED.
Proof.
  intros Hlife Hl Hin. pose proof (life_place ms Hlife l t Hl) as Hp. unfold in_place in Hp.
  destruct (MT_State t); naive_solver.
Qed.

Lemma life_running ms l t :
  lifecycle ms → MS_tasks ms !! l = Some t → is_Some (MS_goroutines ms !! l) →
  MT_State t = MIGRATION_COPYING ∧ MS_activeTasks ms !! MT_PartitionID t = Some l ∧
  l ∉ MS_pendingTasks ms ∧ l ∉ MS_completedTasks ms.
Proof.
  intros Hlife Hl [ph Hg]. pose proof (life_place ms Hlife l t Hl) as Hp. unfold in_place in Hp.
  destruct (MT_State t); naive_solver.
Qed.

(** One task that is not completed changes or appears. *)
Lemma life_frame ms ms' l t' :
  lifecycle ms → MS_tasks ms' = <[l := t']> (MS_tasks ms) → l ∉ MS_completedTasks ms →
  MS_completedTasks ms' = MS_completedTasks ms → MS_totalMigrated ms' = MS_totalMigrated ms →
  MS_totalFailed ms' = MS_totalFailed ms → in_place ms' l t' →
  (∀ x tx, x ≠ l → MS_tasks ms !! x = Some tx → in_place ms x tx → in_place ms' x tx) →
  lifecycle ms'.
Proof.
  intros Hlife Ht Hl Hc Hm Hf Hin Hother.
  assert (∀ state, completed_in ms' state = completed_in ms state) as Hcount.
  { intros state. unfold completed_in at 1. unfold task_field. rewrite Ht, Hc. apply completed_in_frame.
    intros x Hx. rewrite lookup_insert_ne; [done|set_solver]. }
  split.
  - intros x tx. rewrite Ht. destruct (decide (x = l)) as [->|Hne].
    + rewrite lookup_insert_eq. by intros [= <-].
    + rewrite lookup_insert_ne by done. intros Hx. apply Hother; [done..|]. by apply (life_place ms Hlife).
  - rewrite Hc. apply Hlife.
  - intros x. rewrite Hc, Ht, lookup_insert_is_Some'. intros Hx. right. by apply (life_known ms Hlife).
  - rewrite Hm, Hcount. apply Hlife.
  - rewrite Hf, Hcount. apply Hlife.
Qed.

Lemma add_new_life ms partitionID source target priority isPrimary :
  sched_inv ms → lifecycle ms → lifecycle (add_new ms partitionID source target priority isPrimary).1.
Proof.
  intros Hinv Hlife. unfold add_new. set (t := mkMigrationTask _ _ _ _ _ _ _ _ _ _).
  destruct (new_task_unused ms t Hinv) as [(Hpend & Hgo & Hact) Hl].
  assert (MS_tasks ms !! size (MS_tasks ms) = None) as Hnone
    by (apply eq_None_not_Some; rewrite (inv_heap ms Hinv); lia).
  cbn [new_task fst snd] in *. set (l := size (MS_tasks ms)) in *.
  assert (l ∉ MS_completedTasks ms) as Hnc by (intros Hc; destruct (life_known ms Hlife l Hc); congruence).
  assert (l ∉ MS_pendingTasks ms) as Hnp by (intros Hc; apply Hpend in Hc; lia).
  destruct (AddTask_cases _ l t Hl) as [(e & -> & _)|(_ & _ & ->)]; cbn [fst].
  - apply (life_frame ms _ l t); try done.
  - cbn [MS_tasks MS_set_tasks] in *. rewrite insert_insert_eq in *.
    apply (life_frame ms _ l (MT_set_state t MIGRATION_PREPARING)); try done.
    + split_and!; try done. cbn [MS_set_queue MS_pendingTasks].
      rewrite elem_of_insert_by_priority. by left.
    + intros x tx Hne _. unfold in_place. cbn [MS_set_queue MS_pendingTasks MS_activeTasks MS_goroutines
        MS_completedTasks MS_set_tasks].
      destruct (MT_State tx); rewrite ?elem_of_insert_by_priority; naive_solver.
Qed.

Lemma start_first_life ms : sched_inv ms → lifecycle ms → lifecycle (start_first ms).
Proof.
  intros Hinv Hlife. unfold start_first. destruct (MS_pendingTasks ms) as [|l rest] eqn:Hpend; [done|].
  destruct (inv_pending ms Hinv l) as (t & Hl & Hst & Hact & Hgo); [rewrite Hpend; set_solver|].
  pose proof (inv_unique ms Hinv) as Hu. rewrite Hpend, fmap_cons in Hu. apply NoDup_cons in Hu as [Hnl _].
  assert (l ∉ rest) as Hnr by (intros Hr; apply Hnl, list_elem_of_fmap; by exists l).
  pose proof (life_place ms Hlife l t Hl) as Hp. unfold in_place in Hp. rewrite Hst in Hp.
  destruct Hp as (_ & _ & _ & Hnc).
  unfold start_task. cbn [MS_set_pending MS_set_queue MS_tasks]. rewrite Hl.
  apply (life_frame ms _ l (MT_set_state (MT_set_cancel t) MIGRATION_COPYING)); try done.
  - unfold in_place. cbn. rewrite !lookup_insert_eq. eauto.
  - intros x tx Hne Hx. unfold in_place. rewrite Hpend. cbn. rewrite (lookup_insert_ne (MS_goroutines ms)) by done.
    destruct (decide (MT_PartitionID tx = MT_PartitionID t)) as [Heq|Hpne].
    + rewrite Heq, lookup_insert_eq, Hact. destruct (MT_State tx); set_solver.
    + rewrite lookup_insert_ne by done. destruct (MT_State tx); set_solver.
Qed.

Lemma tick_life ms : sched_inv ms → lifecycle ms → lifecycle (MigrationScheduler_tick ms).
Proof.
  intros Hinv Hlife. unfold MigrationScheduler_tick. case_match; [|done]. rewrite processQueue_iter.
  assert (∀ k, sched_inv (Nat.iter k start_first ms) ∧ lifecycle (Nat.iter k start_first ms)) as Hk.
  { induction k as [|k [IHi IHl]]; [done|]. rewrite Nat.iter_succ. split; [by apply start_first_inv|].
    by apply start_first_life. }
  apply Hk.
Qed.

Lemma goto_life ms l ph : is_Some (MS_goroutines ms !! l) → lifecycle ms → lifecycle (goto ms l ph).
Proof.
  intros Hl Hlife. split; try apply Hlife. intros x t Hx. pose proof (life_place ms Hlife x t Hx) as Hp.
  revert Hp. unfold in_place. cbn. destruct (decide (x = l)) as [->|Hne].
  - rewrite lookup_insert_eq. destruct Hl as [ph' Hl]. rewrite Hl. destruct (MT_State t); naive_solver.
  - by rewrite lookup_insert_ne.
Qed.

(** The counts after the task at [l] is appended with a final state. *)
Lemma completed_in_snoc ms (l : task_ptr) (t' : MigrationTask) state :
  l ∉ MS_completedTasks ms →
  len (filter (λ x, MT_State <$> <[l := t']> (MS_tasks ms) !! x = Some state) (MS_completedTasks ms ++ [l])%list) =
  completed_in ms state + (if decide (MT_State t' = state) then 1 else 0).
Proof.
  intros Hl. rewrite filter_app, len_app, completed_in_frame.
  2:{ intros x Hx. rewrite lookup_insert_ne; [done|set_solver]. }
  f_equal. rewrite filter_cons, lookup_insert_eq. simpl. rewrite filter_nil.
  destruct (decide (MT_State t' = state)) as [->|Hne]; [by rewrite decide_True|].
  by rewrite decide_False by congruence.
Qed.

Lemma finish_life ms l t err :
  lifecycle ms → MS_tasks ms !! l = Some t → is_Some (MS_goroutines ms !! l) →
  lifecycle (MS_set_goroutines (finish_task ms l t err) (delete l (MS_goroutines ms))).
Proof.
  intros Hlife Hl Hg. destruct (life_running ms l t Hlife Hl Hg) as (Hst & Hact & Hnp & Hnc).
  set (t' := match err with Some err => MT_set_error (MT_set_state t MIGRATION_FAILED) err
    | None => MT_set_state t MIGRATION_COMPLETE end).
  set (ms' := MS_set_goroutines _ _).
  assert (MS_tasks ms' = <[l := t']> (MS_tasks ms)) as Ht by by unfold t'; destruct err.
  assert (MS_completedTasks ms' = MS_completedTasks ms ++ [l])%list as Hc by by destruct err.
  assert (MS_activeTasks ms' = delete (MT_PartitionID t) (MS_activeTasks ms)) as Ha by by destruct err.
  assert (MS_pendingTasks ms' = MS_pendingTasks ms) as Hp by by destruct err.
  assert (MS_goroutines ms' = delete l (MS_goroutines ms)) as Hgo by done.
  assert (MT_PartitionID t' = MT_PartitionID t) as Hid by by unfold t'; destruct err.
  assert (∀ state, completed_in ms' state = completed_in ms state + (if decide (MT_State t' = state) then 1 else 0))
    as Hcount by (intros state; unfold completed_in at 1, task_field; rewrite Ht, Hc; by apply completed_in_snoc).
  split.
  - intros x tx. rewrite Ht. unfold in_place. rewrite Ha, Hp, Hgo, Hc. destruct (decide (x = l)) as [->|Hne].
    + rewrite lookup_insert_eq. intros [= <-]. rewrite Hid, !lookup_delete_eq. unfold t'.
      destruct err; simpl; set_solver.
    + rewrite lookup_insert_ne, (lookup_delete_ne (MS_goroutines ms)) by done. intros Hx.
      pose proof (life_place ms Hlife x tx Hx) as Hpl. unfold in_place in Hpl.
      destruct (decide (MT_PartitionID tx = MT_PartitionID t)) as [Heq|Hpne].
      * rewrite Heq, lookup_delete_eq in *. destruct (MT_State tx); set_solver.
      * rewrite lookup_delete_ne by done. destruct (MT_State tx); set_solver.
  - rewrite Hc. apply NoDup_app. split_and!; [apply Hlife|set_solver|apply NoDup_singleton].
  - intros x. rewrite Hc, Ht, lookup_insert_is_Some'. intros [Hx|Hx]%elem_of_app; [|set_solver].
    right. by apply (life_known ms Hlife).
  - rewrite Hcount. unfold t'. destruct err; simpl; rewrite (life_migrated ms Hlife), ?i64_add_l; f_equal; lia.
  - rewrite Hcount. unfold t'. destruct err; simpl; rewrite (life_failed ms Hlife), ?i64_add_l; f_equal; lia.
Qed.

(** C21: the state of a task tells where it is.  In a history without
    cancellations, a task whose [AddTask] was refused is nowhere, a task in state
    preparing waits in the queue, one in state copying is the active task of its
    partition and has a goroutine, and one in state complete or failed is in the
    list of completed tasks, once, with no goroutine left; no other state occurs;
    and the two counters are the numbers of completed tasks in each final state. *)
Theorem task_lifecycle (r : Router) (sy : Sys) :
  sys_reach not_cancel r sy → lifecycle (sy_ms sy).
Proof.
  induction 1 as [|sy ev Hr IH Hev Hok].
  { split; [|constructor| |done|done].
    - intros l t. cbn [MS_tasks NewMigrationScheduler sy_ms]. by rewrite lookup_empty.
    - intros l Hl. by apply elem_of_nil in Hl. }
  pose proof (sys_reach_inv _ _ _ Hr) as Hinv.
  destruct ev as [| | | | | | |l ctxErr| |]; cbn [sys_step on_ms sy_ms] in *; try done.
  - by apply add_new_life.
  - destruct IH. by split.
  - unfold MigrationScheduler_Start. case_match; [done|]. destruct IH. by split.
  - unfold MigrationScheduler_Stop. case_match; [done|]. destruct IH. by split.
  - by apply tick_life.
  - destruct (executeMigration_ms sy l ctxErr) as [[-> _]|[(t & ph & ph' & Ht & Hg & -> & _)|(t & err & Ht & Hg & ->)]];
      [done|apply goto_life; eauto|apply finish_life; eauto].
Qed.

(** *** Draining *)

Definition phase_rank (ph : phase) : nat :=
  match ph with AtStart => 4 | AtWait => 3 | AtSwitch => 2 | AtFinish _ => 1 end.

Definition phases_left (g : gmap task_ptr phase) : nat := map_fold (λ _ ph n, phase_rank ph + n)%nat 0%nat g.

(** What is left to do: a pending task stands for its start and four phases. *)
Definition work (ms : MigrationScheduler) : nat :=
  5 * length (MS_pendingTasks ms) + phases_left (MS_goroutines ms).

(** The steps the scheduler takes by itself: ticks that start something, and
    goroutines. *)
Inductive internal : Sys → Sys → Prop :=
  | int_tick sy : MS_pendingTasks (MigrationScheduler_tick (sy_ms sy)) ≠ MS_pendingTasks (sy_ms sy) →
      internal sy (sys_step sy EvTick)
  | int_exec sy l ctxErr : is_Some (MS_goroutines (sy_ms sy) !! l) → is_Some (MS_tasks (sy_ms sy) !! l) →
      internal sy (sys_step sy (EvExec l ctxErr)).

Lemma phases_left_delete g l ph :
  g !! l = Some ph → phases_left g = (phase_rank ph + phases_left (delete l g))%nat.
Proof.
  intros Hl. unfold phases_left. rewrite <- (insert_delete_id g l ph) at 1 by done.
  rewrite map_fold_insert_L; [done| |apply lookup_delete_eq]. intros. lia.
Qed.

Lemma phases_left_insert g l ph :
  phases_left (<[l := ph]> g) = (phase_rank ph + phases_left (delete l g))%nat.
Proof. by rewrite (phases_left_delete _ l ph), delete_insert_eq by apply lookup_insert_eq. Qed.

Lemma phases_left_delete_le g l : (phases_left (delete l g) ≤ phases_left g)%nat.
Proof.
  destruct (g !! l) as [ph|] eqn:Hl; [|by rewrite delete_id].
  rewrite (phases_left_delete g l ph Hl). lia.
Qed.

Lemma start_first_work ms :
  (work (start_first ms) ≤ work ms)%nat ∧
  (MS_pendingTasks (start_first ms) = MS_pendingTasks ms ∨ (work (start_first ms) < work ms)%nat).
Proof.
  unfold start_first, start_task, work. destruct (MS_pendingTasks ms) as [|l rest] eqn:Hp; [rewrite Hp; auto|].
  cbn [MS_set_pending MS_set_queue MS_tasks]. destruct (MS_tasks ms !! l) as [t|]; cbn; [|lia].
  rewrite phases_left_insert. pose proof (phases_left_delete_le (MS_goroutines ms) l). simpl. lia.
Qed.

Lemma start_firsts_work k ms :
  (work (Nat.iter k start_first ms) ≤ work ms)%nat ∧
  (MS_pendingTasks (Nat.iter k start_first ms) = MS_pendingTasks ms ∨
   (work (Nat.iter k start_first ms) < work ms)%nat).
Proof.
  induction k as [|k [IHl IH]]; [auto|]. rewrite Nat.iter_succ.
  destruct (start_first_work (Nat.iter k start_first ms)) as [Hl Hs]. split; [lia|].
  destruct Hs as [->|]; [|right; lia]. destruct IH as [->|]; [by left|right; lia].
Qed.

Lemma internal_work sy sy' : internal sy sy' → (work (sy_ms sy') < work (sy_ms sy))%nat.
Proof.
  intros [sy1 Hne|sy1 l ctxErr Hg Ht]; cbn [sys_step on_ms sy_ms].
  - unfold MigrationScheduler_tick in *. destruct (MS_loop (sy_ms sy1)); [|done]. rewrite processQueue_iter in *.
    destruct (start_firsts_work (Z.to_nat (availableSlots (sy_ms sy1))) (sy_ms sy1)) as [_ [?|?]]; done.
  - destruct (executeMigration_ms sy1 l ctxErr) as [[_ [Hn|Hn]]|[(t & ph & ph' & _ & Hl & -> & Hph)|(t & err & _ & Hl & ->)]];
      [by rewrite Hn in Hg; destruct Hg|by rewrite Hn in Ht; destruct Ht| |]; unfold work.
    + cbn. rewrite phases_left_insert, (phases_left_delete _ l ph Hl).
      destruct Hph as [(-> & ? & ?)|[(-> & ? & ?)|(-> & err & ->)]]; [| |simpl; lia]; destruct ph'; simpl; lia || done.
    + replace (MS_pendingTasks _) with (MS_pendingTasks (sy_ms sy1)) by by destruct err.
      cbn [MS_set_goroutines MS_goroutines]. rewrite (phases_left_delete _ l _ Hl). simpl. lia.
Qed.

(** The tasks that have a goroutine. *)
Definition running_tasks (ms : MigrationScheduler) : list task_ptr := (map_to_list (MS_goroutines ms)).*1.

(** The tasks that are done, waiting or running. *)
Definition handled (ms : MigrationScheduler) : list task_ptr :=
  MS_completedTasks ms ++ MS_pendingTasks ms ++ running_tasks ms.

Lemma goroutine_keys_insert (g : gmap task_ptr phase) l ph :
  (map_to_list (<[l := ph]> g)).*1 ≡ₚ l :: (map_to_list (delete l g)).*1.
Proof. rewrite <- insert_delete_eq, map_to_list_insert by apply lookup_delete_eq. done. Qed.

Lemma goroutine_keys_delete (g : gmap task_ptr phase) l ph :
  g !! l = Some ph → (map_to_list g).*1 ≡ₚ l :: (map_to_list (delete l g)).*1.
Proof. intros Hl. rewrite <- (insert_id g l ph) at 1 by done. apply goroutine_keys_insert. Qed.

Lemma start_first_handled ms : sched_inv ms →
  handled (start_first ms) ≡ₚ handled ms ∧ MS_completedTasks (start_first ms) = MS_completedTasks ms ∧
  MS_loop (start_first ms) = MS_loop ms.
Proof.
  intros Hinv. unfold start_first, start_task, handled, running_tasks.
  destruct (MS_pendingTasks ms) as [|l rest] eqn:Hp; [by rewrite Hp|].
  destruct (inv_pending ms Hinv l) as (t & Hl & _ & _ & Hg); [rewrite Hp; set_solver|].
  cbn [MS_set_pending MS_set_queue MS_tasks]. rewrite Hl. cbn.
  split; [|done]. rewrite goroutine_keys_insert, delete_id by done. solve_Permutation.
Qed.

Lemma internal_frame sy sy' : internal sy sy' → sched_inv (sy_ms sy) →
  sched_inv (sy_ms sy') ∧ handled (sy_ms sy') ≡ₚ handled (sy_ms sy) ∧
  MS_completedTasks (sy_ms sy) `prefix_of` MS_completedTasks (sy_ms sy') ∧ MS_loop (sy_ms sy') = MS_loop (sy_ms sy) ∧
  MS_maxConcurrent (sy_ms sy') = MS_maxConcurrent (sy_ms sy).
Proof.
  intros Hint Hinv. assert (∃ ev, sy' = sys_step sy ev ∧ event_ok sy ev ∧ match ev with EvTick | EvExec _ _ => True | _ => False end)
    as (ev & -> & Hok & Hev) by (destruct Hint; eexists; split_and!; try done; done).
  split; [by apply sys_step_inv|]. rewrite maxConcurrent_step. destruct ev as [| | | | | | |l ctxErr| |]; try done.
  - cbn. unfold MigrationScheduler_tick. case_match; [|done]. rewrite processQueue_iter.
    assert (∀ k, let ms' := Nat.iter k start_first (sy_ms sy) in
      sched_inv ms' ∧ handled ms' ≡ₚ handled (sy_ms sy) ∧ MS_completedTasks ms' = MS_completedTasks (sy_ms sy) ∧
      MS_loop ms' = MS_loop (sy_ms sy)) as Hk
      by (induction k as [|k (IHi & IHh & IHc & IHl)]; [done|]; cbv zeta in *; rewrite Nat.iter_succ;
          destruct (start_first_handled _ IHi) as (-> & -> & ->); split_and!; [by apply start_first_inv|done..]).
    destruct (Hk (Z.to_nat (availableSlots (sy_ms sy)))) as (_ & ? & -> & ->). by split_and!.
  - cbn [sys_step].
    destruct (executeMigration_ms sy l ctxErr) as [[-> _]|[(t & ph & ph' & _ & Hl & -> & _)|(t & err & _ & Hl & ->)]];
      [done| |]; unfold handled, running_tasks.
    + cbn. split_and!; [|done..]. by rewrite goroutine_keys_insert, (goroutine_keys_delete _ _ _ Hl).
    + replace (MS_pendingTasks _) with (MS_pendingTasks (sy_ms sy)) by by destruct err.
      replace (MS_completedTasks _) with (MS_completedTasks (sy_ms sy) ++ [l])%list by by destruct err.
      split_and!; [|by apply prefix_app_r|by destruct err|done].
      cbn [MS_set_goroutines MS_goroutines]. rewrite (goroutine_keys_delete _ _ _ Hl). solve_Permutation.
Qed.

(** Something can happen while a task is waiting or running. *)
Lemma internal_progress (sy : Sys) :
  sched_inv (sy_ms sy) → MS_loop (sy_ms sy) = true → 0 < MS_maxConcurrent (sy_ms sy) < 2 ^ 31 →
  (∀ sy', ¬ internal sy sy') → MS_pendingTasks (sy_ms sy) = [] ∧ MS_goroutines (sy_ms sy) = ∅.
Proof.
  intros Hinv Hloop Hmax Hstuck.
  assert (MS_goroutines (sy_ms sy) = ∅) as Hg.
  { apply map_empty. intros l. apply eq_None_not_Some. intros Hl.
    eapply Hstuck, (int_exec sy l None); [done|]. by apply (inv_goroutines _ Hinv). }
  split; [|done]. destruct (MS_pendingTasks (sy_ms sy)) as [|l rest] eqn:Hp; [done|]. exfalso.
  assert (MS_activeTasks (sy_ms sy) = ∅) as Ha.
  { apply map_empty. intros p. apply eq_None_not_Some. intros [x Hx].
    destruct (inv_active _ Hinv p x Hx) as (t & _ & _ & _ & [ph Hph]). by rewrite Hg, lookup_empty in Hph. }
  eapply Hstuck, (int_tick sy).
  unfold MigrationScheduler_tick. rewrite Hloop. unfold MigrationScheduler_processQueue.
  assert (availableSlots (sy_ms sy) = MS_maxConcurrent (sy_ms sy)) as Hs.
  { unfold availableSlots. rewrite Ha, map_size_empty. rewrite (i32_small (Z.of_nat 0)) by lia.
    rewrite i32_small; lia. }
  rewrite decide_False by (rewrite Hs, Hp; intros [?|?]; [lia|done]). rewrite Hp.
  set (started := take _ _). set (ms := MS_set_queue _ _ _ _).
  assert (∀ ls ms0, MS_pendingTasks (foldl start_task ms0 ls) = MS_pendingTasks ms0) as Hf.
  { induction ls as [|x ls IH]; intros ms0; [done|]. simpl. by rewrite IH, start_task_queue. }
  rewrite Hf. cbn [ms MS_set_queue MS_pendingTasks]. intros Heq%(f_equal length).
  rewrite length_drop in Heq. simpl in Heq. unfold started in Heq. rewrite length_take in Heq. simpl in Heq. lia.
Qed.

Lemma reach_maxConcurrent allowed (r : Router) (sy : Sys) :
  sys_reach allowed r sy → 0 < MS_maxConcurrent (sy_ms sy) < 2 ^ 31.
Proof.
  induction 1 as [|sy ev Hr IH Hev Hok]; [done|]. rewrite maxConcurrent_step. destruct ev; try done.
  simpl in Hok. destruct (Z.ltb_spec 0 maxConcurrent); lia.
Qed.

Lemma internal_acc (sy : Sys) : Acc (λ y x, internal x y) sy.
Proof.
  remember (work (sy_ms sy)) as n eqn:Hn. revert sy Hn. induction (lt_wf n) as [n _ IH]. intros sy ->.
  constructor. intros sy' Hs. eapply IH; [by apply internal_work|done].
Qed.

Lemma internals_frame sy sy' : rtc internal sy sy' → sched_inv (sy_ms sy) →
  sched_inv (sy_ms sy') ∧ handled (sy_ms sy') ≡ₚ handled (sy_ms sy) ∧
  MS_completedTasks (sy_ms sy) `prefix_of` MS_completedTasks (sy_ms sy') ∧ MS_loop (sy_ms sy') = MS_loop (sy_ms sy) ∧
  MS_maxConcurrent (sy_ms sy') = MS_maxConcurrent (sy_ms sy).
Proof.
  induction 1 as [|x y z Hxy Hyz IH]; intros Hinv; [done|].
  destruct (internal_frame _ _ Hxy Hinv) as (Hinv' & <- & Hp & <- & <-).
  destruct (IH Hinv') as (? & ? & Hp' & ?). split_and!; [done..|by etrans|naive_solver|naive_solver].
Qed.

(** C18: the queue drains.  While the loop is alive and no client interferes,
    every run of the scheduler and its goroutines, however they are interleaved
    and whatever the store, the router and the contexts answer, is finite; and
    when nothing can move, the queue and the map of active tasks are empty, so
    that [WaitForCompletion] returns, and what has been appended to the completed
    tasks is, up to the order, exactly the tasks that were waiting and those that
    were running. *)
Theorem queue_drains (r : Router) (sy : Sys) :
  sys_reach (λ _, True) r sy → MS_loop (sy_ms sy) = true →
  Acc (λ y x, internal x y) sy ∧
  ∀ sy', rtc internal sy sy' → (∀ sy'', ¬ internal sy' sy'') →
    MS_pendingTasks (sy_ms sy') = [] ∧ MS_activeTasks (sy_ms sy') = ∅ ∧
    MigrationScheduler_WaitForCompletion [Ok (sy_ms sy')] = Some None ∧
    ∃ finished, MS_completedTasks (sy_ms sy') = (MS_completedTasks (sy_ms sy) ++ finished)%list ∧
      finished ≡ₚ (MS_pendingTasks (sy_ms sy) ++ running_tasks (sy_ms sy))%list.
Proof.
  intros Hr Hloop. split; [apply internal_acc|]. intros sy' Hrun Hstuck.
  destruct (internals_frame _ _ Hrun (sys_reach_inv _ _ _ Hr)) as (Hinv' & Hh & [finished Hc] & Hl & Hm).
  destruct (internal_progress sy') as [Hp Hg]; [done|congruence| |done|].
  { rewrite Hm. by eapply reach_maxConcurrent. }
  assert (MS_activeTasks (sy_ms sy') = ∅) as Ha.
  { apply map_empty. intros p. apply eq_None_not_Some. intros [x Hx].
    destruct (inv_active _ Hinv' p x Hx) as (t & _ & _ & _ & [ph Hph]). by rewrite Hg, lookup_empty in Hph. }
  split_and!; [done..| |].
  - cbn [MigrationScheduler_WaitForCompletion]. by rewrite Hp, Ha, decide_True by done.
  - exists finished. split; [done|]. unfold handled in Hh. unfold running_tasks at 1 in Hh.
    rewrite Hc, Hp, Hg, map_to_list_empty, !app_nil_r in Hh. by apply Permutation_app_inv_l in Hh.
Qed.

(** *** Cancellation *)

Lemma exec_wait (sy : Sys) l t :
  MS_goroutines (sy_ms sy) !! l = Some AtWait → MS_tasks (sy_ms sy) !! l = Some t →
  MigrationScheduler_executeMigration sy l None = mkSys (goto (sy_ms sy) l AtSwitch) (sy_router sy).
Proof. intros Hg Ht. unfold MigrationScheduler_executeMigration. by rewrite Hg, Ht. Qed.

Lemma exec_switch (sy : Sys) l t ctxErr :
  MS_goroutines (sy_ms sy) !! l = Some AtSwitch → MS_tasks (sy_ms sy) !! l = Some t →
  let r' := Router_CompleteMigration (sy_router sy) (MT_PartitionID t) (MT_Target t) (MT_IsPrimary t) in
  MigrationScheduler_executeMigration sy l ctxErr = mkSys (goto (sy_ms sy) l (AtFinish r'.2)) r'.1.
Proof.
  intros Hg Ht. unfold MigrationScheduler_executeMigration. rewrite Hg, Ht.
  by destruct (Router_CompleteMigration _ _ _ _).
Qed.

Lemma exec_finish (sy : Sys) l t err ctxErr :
  MS_goroutines (sy_ms sy) !! l = Some (AtFinish err) → MS_tasks (sy_ms sy) !! l = Some t →
  MigrationScheduler_executeMigration sy l ctxErr =
  mkSys (MS_set_goroutines (finish_task (sy_ms sy) l t err) (delete l (MS_goroutines (sy_ms sy))))
    (R_set_store (sy_router sy) (DeleteMigrationState (R_store (sy_router sy)) (MT_PartitionID t)).1).
Proof.
  intros Hg Ht. unfold MigrationScheduler_executeMigration, MigrationScheduler_completeMigration. rewrite Hg, Ht.
  destruct (DeleteMigrationState _ _). by destruct err.
Qed.

(** Cancelling an active migration does not stop it.  [CancelTask] reports
    success and marks the task failed, but its goroutine waits on a context of
    its own: it goes on to switch the route, marks the task complete and counts
    it again, so the task is listed twice and counted both as failed and as
    migrated. *)
Lemma cancelled_migration_goes_on (sy : Sys) p l t :
  sched_inv (sy_ms sy) → MS_activeTasks (sy_ms sy) !! p = Some l → MS_tasks (sy_ms sy) !! l = Some t →
  MS_goroutines (sy_ms sy) !! l = Some AtWait →
  let r' := Router_CompleteMigration (sy_router sy) p (MT_Target t) (MT_IsPrimary t) in
  r'.2 = None →
  (MigrationScheduler_CancelTask (sy_ms sy) p).2 = None ∧
  let sy' := foldl sys_step sy [EvCancel p; EvExec l None; EvExec l None; EvExec l None] in
  R_routeTable (sy_router sy') = R_routeTable r'.1 ∧
  R_store (sy_router sy') = (DeleteMigrationState (R_store r'.1) p).1 ∧
  task_field MT_State (sy_ms sy') l = Some MIGRATION_COMPLETE ∧
  MS_completedTasks (sy_ms sy') = (MS_completedTasks (sy_ms sy) ++ [l; l])%list ∧
  MS_totalFailed (sy_ms sy') = i64 (MS_totalFailed (sy_ms sy) + 1) ∧
  MS_totalMigrated (sy_ms sy') = i64 (MS_totalMigrated (sy_ms sy) + 1).
Proof.
  intros Hinv Hact Ht Hgo r' Hdone. destruct (inv_active _ Hinv p l Hact) as (t0 & Ht0 & Hp & _).
  rewrite Ht in Ht0. injection Ht0 as <-.
  assert (MigrationScheduler_CancelTask (sy_ms sy) p = (cancel_active (Errorf "cancelled by user") (sy_ms sy) p l, None))
    as Hc by (unfold MigrationScheduler_CancelTask; by rewrite Hact).
  rewrite Hc. split; [done|]. cbv zeta. cbn [foldl]. cbn [sys_step]. unfold on_ms. rewrite Hc. cbn [fst].
  unfold cancel_active. rewrite (alter_present _ _ _ _ Ht). set (t' := MT_set_error _ _). set (ms1 := MS_set_totals _ _ _ _).
  assert (MS_tasks ms1 !! l = Some t') as Ht' by apply lookup_insert_eq.
  rewrite (exec_wait (mkSys ms1 (sy_router sy)) l t'); [|exact Hgo|exact Ht']. cbn [sy_ms sy_router].
  rewrite (exec_switch (mkSys (goto ms1 l AtSwitch) (sy_router sy)) l t'); [|apply lookup_insert_eq|exact Ht']. cbn [sy_ms sy_router].
  change (MT_PartitionID t') with (MT_PartitionID t). change (MT_Target t') with (MT_Target t).
  change (MT_IsPrimary t') with (MT_IsPrimary t). rewrite Hp. fold r'. rewrite Hdone.
  rewrite (exec_finish _ l t' None); [|apply lookup_insert_eq|exact Ht'].
  change (MT_PartitionID t') with (MT_PartitionID t). rewrite Hp. cbn.
  split_and!; try done; [|by rewrite <- app_assoc]. unfold task_field. cbn. by rewrite lookup_insert_eq.
Qed.

End Histories.

(** ** Migrations and the watch *)

Section Switches.
  Context {S : Type} `{StoreLaws S}.

Lemma sys_step_store_ok (sy : Sys) (ev : event) :
  store_ok (R_store (sy_router sy)) → store_ok (R_store (sy_router (sys_step sy ev))).
Proof.
  intros Hok. destruct ev as [| | | | | | |l ctxErr|op|]; try done; cbn [sys_step].
  - unfold MigrationScheduler_executeMigration, MigrationScheduler_completeMigration.
    destruct (MS_goroutines (sy_ms sy) !! l) as [ph|]; [|done].
    destruct (MS_tasks (sy_ms sy) !! l) as [t|]; [|by destruct ph]. destruct ph as [| | |err].
    + pose proof (law_SetMigrationState (R_store (sy_router sy)) (MT_PartitionID t)
        (mkMigrationInfo (MT_PartitionID t) (MT_Target t) MIGRATION_COPYING (MT_IsPrimary t)) Hok) as [Hok' _].
      by destruct (SetMigrationState _ _ _).
    + done.
    + pose proof (run_op_post (sy_router sy) (OpComplete (MT_PartitionID t) (MT_Target t) (MT_IsPrimary t)) Hok)
        as [Hok' _]. cbn [run_op] in Hok'. by destruct (Router_CompleteMigration _ _ _ _).
    + pose proof (law_DeleteMigrationState (R_store (sy_router sy)) (MT_PartitionID t) Hok) as [Hok' _].
      by destruct (DeleteMigrationState _ _).
  - by destruct (run_op_post (sy_router sy) op Hok).
Qed.

Lemma sys_steps_store_ok (evs : list event) (sy : Sys) :
  store_ok (R_store (sy_router sy)) → store_ok (R_store (sy_router (foldl sys_step sy evs))).
Proof. revert sy. induction evs as [|ev evs IH]; intros sy Hok; [done|]. by apply IH, sys_step_store_ok. Qed.

(** Concurrent migrations undo each other.  Each goroutine completes its
    migration on the router's cached table, which only the watch refreshes: when
    two goroutines switch their partitions before the first table is delivered,
    both succeed and are counted as migrated, yet the stored table has the first
    partition on its old nodes, at its old epoch. *)
Lemma concurrent_migration_is_lost (sy : Sys) l1 l2 t1 t2 p1 p2 :
  store_ok (R_store (sy_router sy)) →
  MS_tasks (sy_ms sy) !! l1 = Some t1 → MS_tasks (sy_ms sy) !! l2 = Some t2 →
  MT_PartitionID t1 ≠ MT_PartitionID t2 →
  MS_goroutines (sy_ms sy) !! l1 = Some AtSwitch → MS_goroutines (sy_ms sy) !! l2 = Some AtSwitch →
  RT_Partitions (R_routeTable (sy_router sy)) !! MT_PartitionID t1 = Some p1 →
  RT_Partitions (R_routeTable (sy_router sy)) !! MT_PartitionID t2 = Some p2 →
  let sy1 := sys_step sy (EvExec l1 None) in
  let sy2 := sys_step sy1 (EvExec l2 None) in
  MS_goroutines (sy_ms sy2) !! l1 = Some (AtFinish None) →
  MS_goroutines (sy_ms sy2) !! l2 = Some (AtFinish None) →
  RT_Partitions (sv_table (store_view (R_store (sy_router sy1)))) !! MT_PartitionID t1 =
    Some (migrated_partition p1 (MT_Target t1) (MT_IsPrimary t1)) ∧
  RT_Partitions (sv_table (store_view (R_store (sy_router sy2)))) !! MT_PartitionID t1 =
    Some (copy_partition p1).
Proof.
  intros Hok Ht1 Ht2 Hne Hg1 Hg2 Hp1 Hp2. cbv zeta. cbn [sys_step].
  assert (l1 ≠ l2) as Hl by congruence.
  rewrite (exec_switch sy l1 t1 None Hg1 Ht1).
  destruct (Router_CompleteMigration (sy_router sy) (MT_PartitionID t1) (MT_Target t1) (MT_IsPrimary t1))
    as [r1 err1] eqn:Hr1. cbn [fst snd sy_router].
  rewrite (exec_switch _ l2 t2 None) by (cbn; rewrite ?lookup_insert_ne; done). cbn [sy_router sy_ms].
  destruct (Router_CompleteMigration r1 (MT_PartitionID t2) (MT_Target t2) (MT_IsPrimary t2))
    as [r2 err2] eqn:Hr2. cbn. rewrite lookup_insert_ne, !lookup_insert_eq by done.
  intros [= ->] [= ->]. apply CompleteMigration_done with (p := p1) in Hr1 as (Hok1 & Hc1 & _ & -> & _); [|done..].
  apply CompleteMigration_done with (p := p2) in Hr2 as (_ & _ & _ & -> & _); [|done|congruence].
  cbn [RT_Partitions]. rewrite lookup_insert_eq, lookup_insert_ne, lookup_fmap, Hc1, Hp1 by done. done.
Qed.

End Switches.

(** ** A run *)

(** Histories of events that ask nothing of the state. *)
Definition plain (ev : event) : bool :=
  match ev with EvCancelAll _ | EvSetConfig _ _ => false | _ => true end.

Lemma reach_run {T : Type} `{Store T} (allowed : event → Prop) (r : @Router T) (sy : Sys) (evs : list event) :
  sys_reach allowed r sy → Forall allowed evs → forallb plain evs = true →
  sys_reach allowed r (foldl sys_step sy evs).
Proof.
  intros Hr Ha. revert sy Hr. induction Ha as [|ev evs Hev Ha IH]; intros sy Hr Hp; [done|].
  simpl in *. apply andb_true_iff in Hp as [Hev' Hp]. apply IH; [|done]. constructor; [done..|].
  by destruct ev.
Qed.

(** Three tasks, the last one of the highest priority, started by one tick. *)
Definition demo_events : list event :=
  [EvStart; EvAdd 1 "A" "C" PRIORITY_NORMAL true; EvAdd 2 "A" "C" PRIORITY_NORMAL false;
   EvAdd 3 "A" "C" PRIORITY_URGENT false; EvAdd 1 "A" "B" PRIORITY_URGENT true; EvTick;
   EvExec 0 None; EvExec 1 None; EvExec 2 None; EvExec 0 None; EvExec 1 None].

Definition demo_sys : Sys := foldl sys_step (mkSys NewMigrationScheduler demo_running) demo_events.

Lemma demo_sys_reach (allowed : event → Prop) : Forall allowed demo_events → sys_reach allowed demo_running demo_sys.
Proof. intros Ha. apply reach_run; [constructor|done|reflexivity]. Qed.

(** The queue before the tick: urgent first, then by age; the second task of
    partition 1 was refused. *)
Example demo_queue :
  MS_pendingTasks (sy_ms (foldl sys_step (mkSys NewMigrationScheduler demo_running) (take 5 demo_events))) =
  [2; 0; 1]%nat.
Proof. vm_compute. reflexivity. Qed.

Lemma queue_invariant_witness : sched_inv (sy_ms demo_sys).
Proof. apply (queue_invariant demo_running). apply demo_sys_reach. by repeat constructor. Defined.

Lemma active_bounded_witness :
  MigrationScheduler_GetActiveCount (sy_ms demo_sys) = 3 ∧ MigrationScheduler_GetActiveCount (sy_ms demo_sys) ≤ 4.
Proof.
  split; [vm_compute; reflexivity|]. apply (active_bounded 4 demo_running); [done|].
  apply demo_sys_reach. by repeat constructor.
Defined.

Lemma task_lifecycle_witness :
  lifecycle (sy_ms (foldl sys_step demo_sys [EvExec 0 None; EvExec 0 None])) ∧
  task_field MT_State (sy_ms (foldl sys_step demo_sys [EvExec 0 None; EvExec 0 None])) 0 = Some MIGRATION_COMPLETE.
Proof.
  split; [|vm_compute; reflexivity]. apply (task_lifecycle demo_running).
  apply reach_run; [apply demo_sys_reach| |reflexivity]; by repeat constructor.
Defined.

Lemma queue_drains_witness :
  Acc (λ y x, internal x y) demo_sys ∧
  ∀ sy', rtc internal demo_sys sy' → (∀ sy'', ¬ internal sy' sy'') →
    MS_pendingTasks (sy_ms sy') = [] ∧ MS_activeTasks (sy_ms sy') = ∅ ∧
    MigrationScheduler_WaitForCompletion [Ok (sy_ms sy')] = Some None ∧
    ∃ finished, MS_completedTasks (sy_ms sy') = (MS_completedTasks (sy_ms demo_sys) ++ finished)%list ∧
      finished ≡ₚ (MS_pendingTasks (sy_ms demo_sys) ++ running_tasks (sy_ms demo_sys))%list.
Proof. apply (queue_drains demo_running); [|reflexivity]. apply demo_sys_reach. by repeat constructor. Defined.

Lemma cancelled_migration_goes_on_witness :
  let sy := foldl sys_step (mkSys NewMigrationScheduler demo_running) (take 7 demo_events) in
  (MigrationScheduler_CancelTask (sy_ms sy) 1).2 = None ∧
  MS_completedTasks (sy_ms (foldl sys_step sy [EvCancel 1; EvExec 0 None; EvExec 0 None; EvExec 0 None])) =
    [0; 0]%nat.
Proof.
  cbv zeta. set (sy := foldl sys_step (mkSys NewMigrationScheduler demo_running) (take 7 demo_events)).
  destruct (cancelled_migration_goes_on sy 1 0%nat
    (mkMigrationTask 1 "A" "C" PRIORITY_NORMAL true MIGRATION_COPYING 0 0 None true)) as (Hc & _ & _ & _ & Hl & _).
  - apply (sys_reach_inv (λ _, True) demo_running). apply reach_run; [constructor|by repeat constructor|reflexivity].
  - vm_compute. reflexivity.
  - vm_compute. reflexivity.
  - vm_compute. reflexivity.
  - vm_compute. reflexivity.
  - split; [exact Hc|]. rewrite Hl. vm_compute. reflexivity.
Defined.

Lemma concurrent_migration_is_lost_witness :
  let sy1 := sys_step demo_sys (EvExec 0 None) in
  let sy2 := sys_step sy1 (EvExec 1 None) in
  RT_Partitions (sv_table (store_view (R_store (sy_router sy1)))) !! 1 =
    Some (mkRoutePartition 1 "C" "A" "normal" "" MIGRATION_NONE 2) ∧
  RT_Partitions (sv_table (store_view (R_store (sy_router sy2)))) !! 1 =
    Some (mkRoutePartition 1 "A" "B" "normal" "" MIGRATION_NONE 1).
Proof.
  apply (concurrent_migration_is_lost demo_sys 0%nat 1%nat
    (mkMigrationTask 1 "A" "C" PRIORITY_NORMAL true MIGRATION_COPYING 0 0 None true)
    (mkMigrationTask 2 "A" "C" PRIORITY_NORMAL false MIGRATION_COPYING 0 0 None true)
    (mkRoutePartition 1 "A" "B" "normal" "" MIGRATION_NONE 1)
    (mkRoutePartition 2 "A" "B" "normal" "" MIGRATION_NONE 1)); try (vm_compute; reflexivity).
  - apply sys_steps_store_ok. apply demo_running_synced.
  - done.
Defined.
