(* ===== verification/Failover.v ===== *)
(** * The failover manager

    [FailoverManager] of [src/pkg/metadata/failover.go]: it lists the storage
    nodes at every tick, compares their heartbeats with the clock, marks the
    silent ones offline, promotes the replicas of their partitions and asks for a
    rebalancing later.

    The manager shares the store and the router with the metadata server.  Time
    is a number of nanoseconds.  What the watch does to the router after each
    promotion is an argument, [watch]; the order in which a loop meets the rows of
    the route table is an argument, [order]. *)

From S2P Require Import Prelude Crc32 Proto HashRing MetaStore MetaRouter.

#[local] Open Scope string_scope.
#[local] Open Scope Z_scope.

Definition millisecond : Z := 1000000.
Definition DefaultHeartbeatInterval : Z := 100 * millisecond.
Definition DefaultHeartbeatTimeout : Z := 1000 * millisecond.
Definition DefaultFailoverDelay : Z := 5000 * millisecond.

Record FailoverConfig := mkFailoverConfig {
  FC_HeartbeatInterval : Z;
  FC_HeartbeatTimeout : Z;
  FC_FailoverDelay : Z
}.

Definition DefaultFailoverConfig : FailoverConfig :=
  mkFailoverConfig DefaultHeartbeatInterval DefaultHeartbeatTimeout DefaultFailoverDelay.

Record nodeHealthInfo := mkNodeHealthInfo {
  NH_nodeID : string;
  NH_lastHeartbeat : Z;
  NH_failCount : Z;
  NH_isHealthy : bool
}.

#[global] Instance nodeHealthInfo_eq_dec : EqDecision nodeHealthInfo.
Proof. solve_decision. Defined.

(** [time.Time{}] *)
Definition zero_time : Z := 0.

Section Failover.
  Context {S : Type} `{Store S}.

(** [FM_rebalances]: the goroutines that sleep before they rebalance. *)
Record FailoverManager := mkFailoverManager {
  FM_config : FailoverConfig;
  FM_router : @Router S;
  FM_nodeHealth : gmap string nodeHealthInfo;
  FM_rebalances : nat
}.

Definition NewFailoverManager (config : option FailoverConfig) (router : Router) : FailoverManager :=
  mkFailoverManager (default DefaultFailoverConfig config) router ∅ 0.

Definition FM_set_router (fm : FailoverManager) (r : Router) : FailoverManager :=
  mkFailoverManager (FM_config fm) r (FM_nodeHealth fm) (FM_rebalances fm).
Definition FM_set_health (fm : FailoverManager) (m : gmap string nodeHealthInfo) : FailoverManager :=
  mkFailoverManager (FM_config fm) (FM_router fm) m (FM_rebalances fm).

(** One turn of the loop of [checkNodes]: the health of a node at [now], and
    whether it has failed. *)
Definition check_node (timeout now : Z) (previous : option nodeHealthInfo) (node : NodeInfo) :
    nodeHealthInfo * bool :=
  let health := match previous with
    | Some health => health
    | None => mkNodeHealthInfo (NI_ID node) (NI_LastHeartbeat node) 0 true
    end in
  let health :=
    if NH_lastHeartbeat health <? NI_LastHeartbeat node then
      mkNodeHealthInfo (NH_nodeID health) (NI_LastHeartbeat node) 0 true
    else health in
  if timeout <? now - NH_lastHeartbeat health then
    (mkNodeHealthInfo (NH_nodeID health) (NH_lastHeartbeat health) (NH_failCount health + 1) false, true)
  else (health, false).

Fixpoint check_nodes (timeout now : Z) (m : gmap string nodeHealthInfo) (nodes : list NodeInfo) :
    gmap string nodeHealthInfo * list string :=
  match nodes with
  | [] => (m, [])
  | node :: rest =>
      let '(health, failed) := check_node timeout now (m !! NI_ID node) node in
      let '(m, failedNodes) := check_nodes timeout now (<[NI_ID node := health]> m) rest in
      (m, if failed then NI_ID node :: failedNodes else failedNodes)
  end.

(** The promotions of [handleNodeFailure]; an error is logged and the loop goes
    on.  The second component lists the partitions whose promotion failed. *)
Fixpoint promote_all (watch : Router → Router) (r : Router) (partitions : list Z) : Router * list Z :=
  match partitions with
  | [] => (r, [])
  | partitionID :: rest =>
      let '(r, err) := Router_PromoteReplica r partitionID in
      let '(r, failed) := promote_all watch (watch r) rest in
      (r, match err with Some _ => partitionID :: failed | None => failed end)
  end.

Definition rows_with (f : RoutePartition → string) (addr : string) (table : RouteTable) (order : list Z) : list Z :=
  filter (λ id, f <$> RT_Partitions table !! id = Some addr) order.

Definition FailoverManager_handleNodeFailure (watch : Router → Router) (order : RouteTable → list Z)
    (fm : FailoverManager) (nodeID : string) : FailoverManager * list Z :=
  let '(s, _) := UpdateNodeStatus (R_store (FM_router fm)) nodeID NodeStatusOffline in
  let '(s, res) := GetNode s nodeID in
  let fm := FM_set_router fm (R_set_store (FM_router fm) s) in
  match res with
  | Ok (Some node) =>
      let table := Router_GetRouteTable (FM_router fm) in
      let affectedPrimaryPartitions := rows_with RP_Primary (NI_Addr node) table (order table) in
      let '(r, failed) := promote_all watch (FM_router fm) affectedPrimaryPartitions in
      (mkFailoverManager (FM_config fm) r (FM_nodeHealth fm) (FM_rebalances fm + 1), failed)
  | _ => (fm, [])
  end.

Definition FailoverManager_checkNodes (watch : Router → Router) (order : RouteTable → list Z)
    (fm : FailoverManager) (now : Z) : FailoverManager :=
  let '(s, res) := ListNodes (R_store (FM_router fm)) NodeRoleStorage in
  let fm := FM_set_router fm (R_set_store (FM_router fm) s) in
  match res with
  | Error _ => fm
  | Ok nodes =>
      let '(m, failedNodes) := check_nodes (FC_HeartbeatTimeout (FM_config fm)) now (FM_nodeHealth fm) nodes in
      foldl (λ fm nodeID, (FailoverManager_handleNodeFailure watch order fm nodeID).1) (FM_set_health fm m) failedNodes
  end.

(** A sleeping goroutine wakes up and rebalances. *)
Definition FailoverManager_rebalance (fm : FailoverManager) : FailoverManager :=
  match FM_rebalances fm with
  | O => fm
  | Datatypes.S n =>
      mkFailoverManager (FM_config fm) (Router_RebalancePartitions (FM_router fm)).1 (FM_nodeHealth fm) n
  end.

Definition FailoverManager_RecordHeartbeat (fm : FailoverManager) (nodeID : string) (now : Z) : FailoverManager :=
  let health := default (mkNodeHealthInfo nodeID zero_time 0 true) (FM_nodeHealth fm !! nodeID) in
  FM_set_health fm (<[nodeID := mkNodeHealthInfo (NH_nodeID health) now 0 true]> (FM_nodeHealth fm)).

Definition FailoverManager_IsNodeHealthy (fm : FailoverManager) (nodeID : string) : bool :=
  match FM_nodeHealth fm !! nodeID with Some health => NH_isHealthy health | None => false end.

Definition FailoverManager_GetHealthyNodes (fm : FailoverManager) : list string :=
  (filter (λ e : string * nodeHealthInfo, NH_isHealthy e.2 = true) (map_to_list (FM_nodeHealth fm))).*1.

Definition FailoverManager_GetNodeHealth (fm : FailoverManager) (nodeID : string) : Z * bool * Z :=
  match FM_nodeHealth fm !! nodeID with
  | Some health => (NH_lastHeartbeat health, NH_isHealthy health, NH_failCount health)
  | None => (zero_time, false, 0)
  end.

End Failover.

(** ** Detection *)

(** Every node the manager holds for failed was silent for longer than the
    timeout at [now]. *)
Definition health_sound (timeout now : Z) (m : gmap string nodeHealthInfo) : Prop :=
  ∀ id h, m !! id = Some h → NH_isHealthy h = false → timeout < now - NH_lastHeartbeat h.

(** The newest heartbeat the manager has heard of. *)
Definition newest (previous : option nodeHealthInfo) (node : NodeInfo) : Z :=
  match previous with
  | Some h => NH_lastHeartbeat h `max` NI_LastHeartbeat node
  | None => NI_LastHeartbeat node
  end.

Lemma health_sound_mono timeout t now m : t ≤ now → health_sound timeout t m → health_sound timeout now m.
Proof. intros Ht Hm id h Hh Hbad. specialize (Hm id h Hh Hbad). lia. Qed.

Lemma check_node_spec timeout now previous node :
  (∀ h, previous = Some h → NH_isHealthy h = false → timeout < now - NH_lastHeartbeat h) →
  let '(h, failed) := check_node timeout now previous node in
  NH_lastHeartbeat h = newest previous node ∧
  NH_isHealthy h = negb failed ∧ failed = (timeout <? now - newest previous node).
Proof.
  intros Hprev. unfold check_node, newest. destruct previous as [h|]; cbn [NH_lastHeartbeat].
  - specialize (Hprev h eq_refl).
    destruct (Z.ltb_spec (NH_lastHeartbeat h) (NI_LastHeartbeat node)); cbn [NH_lastHeartbeat].
    + rewrite Z.max_r by lia. by destruct (Z.ltb_spec timeout (now - NI_LastHeartbeat node)).
    + rewrite Z.max_l by lia. destruct (Z.ltb_spec timeout (now - NH_lastHeartbeat h)); [done|].
      split_and!; try done. destruct (NH_isHealthy h); [done|]. specialize (Hprev eq_refl). lia.
  - rewrite Z.ltb_irrefl. cbn [NH_lastHeartbeat]. by destruct (Z.ltb_spec timeout (now - NI_LastHeartbeat node)).
Qed.

Lemma check_nodes_spec timeout now m nodes :
  health_sound timeout now m → NoDup (NI_ID <$> nodes) →
  let '(m', failedNodes) := check_nodes timeout now m nodes in
  (∀ node, node ∈ nodes → ∃ h, m' !! NI_ID node = Some h ∧
     NH_lastHeartbeat h = newest (m !! NI_ID node) node ∧
     NH_isHealthy h = (now - NH_lastHeartbeat h <=? timeout) ∧
     (NH_isHealthy h = false ↔ NI_ID node ∈ failedNodes)) ∧
  (∀ id, id ∉ NI_ID <$> nodes → m' !! id = m !! id ∧ id ∉ failedNodes).
Proof.
  revert m. induction nodes as [|node nodes IH]; intros m Hm Hnd; simpl.
  { split; [intros ? Hin; by apply elem_of_nil in Hin|]. intros id _. split; [done|apply not_elem_of_nil]. }
  rewrite fmap_cons in Hnd. apply NoDup_cons in Hnd as [Hnew Hnd].
  pose proof (check_node_spec timeout now (m !! NI_ID node) node (Hm (NI_ID node))) as Hn.
  destruct (check_node _ _ _ _) as [h failed]. destruct Hn as (Hlast & Hhealthy & Hfailed).
  specialize (IH (<[NI_ID node := h]> m)). destruct (check_nodes _ _ _ _) as [m' failedNodes].
  destruct IH as [Hin Hout]; [|done|].
  { intros id h'. destruct (decide (NI_ID node = id)) as [<-|Hne].
    - rewrite lookup_insert_eq. intros [= <-] Hbad. rewrite Hlast. rewrite Hbad in Hhealthy.
      destruct failed; [|done]. symmetry in Hfailed. by apply Z.ltb_lt in Hfailed.
    - rewrite lookup_insert_ne by done. apply Hm. }
  split.
  - intros n [->|Hn]%elem_of_cons.
    + destruct (Hout (NI_ID node) Hnew) as [-> Hnot]. exists h. rewrite lookup_insert_eq. split_and!; [done..| |].
      * rewrite Hhealthy, Hfailed, <- Hlast. destruct (Z.ltb_spec timeout (now - NH_lastHeartbeat h)),
          (Z.leb_spec (now - NH_lastHeartbeat h) timeout); simpl; lia || done.
      * rewrite Hhealthy. destruct failed; simpl; [|naive_solver]. rewrite elem_of_cons. naive_solver.
    + destruct (Hin n Hn) as (h' & Hh' & Hl & Hb & Hf).
      assert (NI_ID node ≠ NI_ID n) as Hne by (intros Heq; apply Hnew; rewrite Heq; by apply list_elem_of_fmap_2).
      rewrite lookup_insert_ne in Hl by done. exists h'. split_and!; [done..|].
      rewrite Hf. destruct failed; [|done]. rewrite elem_of_cons. naive_solver.
  - intros id Hid. apply not_elem_of_cons in Hid as [Hne Hid]. destruct (Hout id Hid) as [-> Hnot].
    rewrite lookup_insert_ne by done. split; [done|]. destruct failed; [|done]. by apply not_elem_of_cons.
Qed.

Section FailoverProofs.
  Context {S : Type} `{StoreLaws S}.

(** Nodes are stored under their own ids. *)
Definition nodes_keyed (v : StoreView) : Prop := ∀ k n, sv_nodes v !! k = Some n → NI_ID n = k.

Lemma listed_ids (v : StoreView) (nodes : list NodeInfo) :
  nodes_keyed v → nodes ≡ₚ storage_nodes v → NoDup (NI_ID <$> nodes).
Proof.
  intros Hk ->. unfold storage_nodes. eapply sublist_NoDup.
  2:{ apply fmap_sublist, sublist_filter. }
  assert (NI_ID <$> (map_to_list (sv_nodes v)).*2 = (map_to_list (sv_nodes v)).*1) as ->;
    [|apply NoDup_fst_map_to_list].
  rewrite <- list_fmap_compose. apply list_fmap_ext. intros i [k n] Hi. cbn.
  apply Hk. apply elem_of_map_to_list. by eapply list_elem_of_lookup_2.
Qed.

Lemma handleNodeFailure_health watch order (fm : FailoverManager) id :
  FM_nodeHealth (FailoverManager_handleNodeFailure watch order fm id).1 = FM_nodeHealth fm ∧
  FM_config (FailoverManager_handleNodeFailure watch order fm id).1 = FM_config fm.
Proof.
  unfold FailoverManager_handleNodeFailure. destruct (UpdateNodeStatus _ _ _) as [s err].
  destruct (GetNode s id) as [s' res]. destruct res as [[node|]|]; [|done..].
  by destruct (promote_all _ _ _).
Qed.

Lemma handleNodeFailures_health watch order (ids : list string) (fm : FailoverManager) :
  FM_nodeHealth (foldl (λ fm id, (FailoverManager_handleNodeFailure watch order fm id).1) fm ids) = FM_nodeHealth fm ∧
  FM_config (foldl (λ fm id, (FailoverManager_handleNodeFailure watch order fm id).1) fm ids) = FM_config fm.
Proof.
  revert fm. induction ids as [|id ids IH]; intros fm; [done|]. cbn [foldl].
  destruct (IH (FailoverManager_handleNodeFailure watch order fm id).1) as [-> ->].
  apply handleNodeFailure_health.
Qed.

Lemma checkNodes_health watch order (fm : FailoverManager) now nodes :
  store_ok (R_store (FM_router fm)) → (ListNodes (R_store (FM_router fm)) NodeRoleStorage).2 = Ok nodes →
  nodes ≡ₚ storage_nodes (store_view (R_store (FM_router fm))) ∧
  FM_nodeHealth (FailoverManager_checkNodes watch order fm now) =
    (check_nodes (FC_HeartbeatTimeout (FM_config fm)) now (FM_nodeHealth fm) nodes).1 ∧
  FM_config (FailoverManager_checkNodes watch order fm now) = FM_config fm.
Proof.
  intros Hok Hnodes. unfold FailoverManager_checkNodes.
  pose proof (ListNodes_storage (R_store (FM_router fm)) Hok) as Hl.
  destruct (ListNodes _ _) as [s res]. cbn in Hnodes. subst res. destruct Hl as (_ & _ & Hl).
  split; [by apply Hl|]. cbn [FM_config FM_nodeHealth FM_set_router].
  destruct (check_nodes _ _ _ _) as [m failedNodes].
  by destruct (handleNodeFailures_health watch order failedNodes
    (FM_set_health (FM_set_router fm (R_set_store (FM_router fm) s)) m)) as [-> ->].
Qed.

(** A tick detects exactly the silent nodes.  When the manager's earlier
    verdicts were sound and the list of storage nodes is read, then afterwards
    every storage node is healthy if and only if its newest heartbeat is no older
    than the timeout, the newest heartbeat is the larger of the one stored and
    the one recorded, and the verdicts are sound again. *)
Lemma checkNodes_detects watch order (fm : FailoverManager) t now nodes :
  store_ok (R_store (FM_router fm)) → nodes_keyed (store_view (R_store (FM_router fm))) →
  t ≤ now → health_sound (FC_HeartbeatTimeout (FM_config fm)) t (FM_nodeHealth fm) →
  (ListNodes (R_store (FM_router fm)) NodeRoleStorage).2 = Ok nodes →
  let fm' := FailoverManager_checkNodes watch order fm now in
  (∀ node, node ∈ storage_nodes (store_view (R_store (FM_router fm))) →
     let '(last, healthy, _) := FailoverManager_GetNodeHealth fm' (NI_ID node) in
     last = newest (FM_nodeHealth fm !! NI_ID node) node ∧
     healthy = (now - last <=? FC_HeartbeatTimeout (FM_config fm))) ∧
  health_sound (FC_HeartbeatTimeout (FM_config fm')) now (FM_nodeHealth fm').
Proof.
  intros Hok Hkeyed Ht Hm Hnodes. cbv zeta.
  destruct (checkNodes_health watch order fm now nodes Hok Hnodes) as (Hperm & Hh & ->).
  apply (health_sound_mono _ t now) in Hm; [|done].
  pose proof (check_nodes_spec _ now _ nodes Hm (listed_ids _ _ Hkeyed Hperm)) as Hs.
  unfold FailoverManager_GetNodeHealth. rewrite Hh. destruct (check_nodes _ _ _ _) as [m' failedNodes].
  cbn [fst]. destruct Hs as [Hin Hout]. split.
  - intros node Hnode. rewrite <- Hperm in Hnode. by destruct (Hin node Hnode) as (h & -> & ? & ? & _).
  - intros id h Hh' Hbad. destruct (decide (id ∈ NI_ID <$> nodes)) as [Hid|Hid].
    + apply list_elem_of_fmap in Hid as (node & -> & Hnode).
      destruct (Hin node Hnode) as (h2 & Hh2 & _ & Hb & _). simplify_eq. rewrite Hbad in Hb.
      symmetry in Hb. apply Z.leb_gt in Hb. lia.
    + destruct (Hout id Hid) as [Heq _]. rewrite Heq in Hh'. by eapply Hm.
Qed.

(** Heartbeats do not keep a node alive.  The heartbeat handler stores its
    beat under a key of its own and leaves the node's record, which is what the
    manager reads: whatever number of heartbeats a node sends after it
    registered, the first tick more than a timeout after the registration finds
    it failed. *)
Lemma heartbeats_are_not_seen watch order (s : S) (k : nat) (id : string) (node : NodeInfo)
    (r : Router) now nodes :
  store_ok s → nodes_keyed (store_view s) → sv_nodes (store_view s) !! id = Some node →
  NI_Role node = NodeRoleStorage →
  let s' := Nat.iter k (λ s, (UpdateNodeHeartbeat s id).1) s in
  let fm := NewFailoverManager None (R_set_store r s') in
  (ListNodes s' NodeRoleStorage).2 = Ok nodes → NI_LastHeartbeat node + DefaultHeartbeatTimeout < now →
  FailoverManager_IsNodeHealthy (FailoverManager_checkNodes watch order fm now) id = false.
Proof.
  intros Hok Hkeyed Hid Hrole s' fm Hnodes Hnow.
  assert (store_ok s' ∧ store_view s' = store_view s) as [Hok' Hv].
  { subst s'. clear -Hok. induction k as [|k [IHo IHv]]; [done|]. rewrite Nat.iter_succ.
    destruct (law_UpdateNodeHeartbeat _ id IHo) as [? ->]. done. }
  destruct (checkNodes_health watch order fm now nodes Hok' Hnodes) as (Hperm & Hh & _).
  cbn [fm NewFailoverManager FM_router R_store R_set_store] in Hperm. rewrite Hv in Hperm.
  pose proof (check_nodes_spec DefaultHeartbeatTimeout now ∅ nodes) as Hs.
  unfold FailoverManager_IsNodeHealthy. rewrite Hh. cbn [fm NewFailoverManager FM_nodeHealth FM_config default].
  change (FC_HeartbeatTimeout (Datatypes.id DefaultFailoverConfig)) with DefaultHeartbeatTimeout.
  destruct (check_nodes _ _ _ _) as [m' failedNodes]. cbn [fst].
  destruct Hs as [Hin _]; [by intros x h Hx; rewrite lookup_empty in Hx|by eapply listed_ids|].
  pose proof (Hkeyed id node Hid) as <-. destruct (Hin node) as (h & -> & Hl & -> & _).
  { rewrite Hperm. apply list_elem_of_filter. split; [by right|]. apply list_elem_of_fmap.
    exists (NI_ID node, node). split; [done|]. by apply elem_of_map_to_list. }
  rewrite Hl, lookup_empty. cbn. apply Z.leb_gt. lia.
Qed.

(** ** Promotion *)

(** Two rows that agree but for the migration fields. *)
Definition same_row (p p' : RoutePartition) : Prop := copy_partition p' = copy_partition p.

Lemma promoted_same p p' : same_row p p' → promoted p' = promoted p.
Proof. unfold same_row, copy_partition, promoted. by intros [= -> -> -> -> ->]. Qed.

Lemma copy_same p : same_row p (copy_partition p).
Proof. done. Qed.

(** One promotion, delivered. *)
Lemma promote_delivered (r : Router) id p :
  synced r → RT_Partitions (R_routeTable r) !! id = Some p →
  let '(r1, err) := Router_PromoteReplica r id in
  synced (deliver r1) ∧
  ∀ k, match RT_Partitions (R_routeTable r) !! k, RT_Partitions (R_routeTable (deliver r1)) !! k with
    | Some q, Some q' =>
        if decide (k = id) then same_row (promoted q) q' ∨ is_Some err ∧ same_row q q' else same_row q q'
    | None, None => True
    | _, _ => False
    end.
Proof.
  intros [Hok Hs] Hp. pose proof (PromoteReplica_effect r id p Hok Hp) as He.
  destruct (Router_PromoteReplica r id) as [r1 err]. destruct He as (Hok1 & Hc & _ & Hd & Hv).
  split; [by split|]. intros k. cbn [deliver Router_watch Router_notifySubscribers Router_updateRouteTable
    R_set_subscribers R_routeTable].
  assert (sv_table (store_view (R_store r1)) = R_routeTable r ∧ is_Some err ∨
    RT_Partitions (sv_table (store_view (R_store r1))) = <[id := promoted p]> (copy_partition <$> RT_Partitions (R_routeTable r)))
    as [[-> Herr]| ->].
  { destruct err as [e|]; [|right; by rewrite Hd]. destruct Hv as [->| ->]; [left|by right].
    split; [done|eauto]. }
  - destruct (RT_Partitions (R_routeTable r) !! k) as [q|]; [|done]. case_decide; [by right|done].
  - case_decide as Hk; [subst k; rewrite Hp, lookup_insert_eq; by left; apply copy_same|].
    rewrite lookup_insert_ne, lookup_fmap by done. by destruct (RT_Partitions (R_routeTable r) !! k).
Qed.

Lemma promote_all_delivered (ids : list Z) (r : Router) :
  synced r → NoDup ids → (∀ id, id ∈ ids → is_Some (RT_Partitions (R_routeTable r) !! id)) →
  let '(r', failed) := promote_all deliver r ids in
  synced r' ∧ ∀ k,
  match RT_Partitions (R_routeTable r) !! k, RT_Partitions (R_routeTable r') !! k with
  | Some q, Some q' =>
      if decide (k ∈ ids) then same_row (promoted q) q' ∨ k ∈ failed ∧ same_row q q' else same_row q q'
  | None, None => True
  | _, _ => False
  end.
Proof.
  revert r. induction ids as [|id ids IH]; intros r Hs Hnd Hin; simpl.
  { split; [done|]. intros k. by destruct (RT_Partitions (R_routeTable r) !! k). }
  apply NoDup_cons in Hnd as [Hnew Hnd]. destruct (Hin id) as [p Hp]; [set_solver|].
  pose proof (promote_delivered r id p Hs Hp) as H1. destruct (Router_PromoteReplica r id) as [r1 err].
  destruct H1 as [Hs1 H1]. specialize (IH (deliver r1) Hs1 Hnd).
  destruct (promote_all deliver (deliver r1) ids) as [r' failed]. destruct IH as [Hs' IH].
  { intros k Hk. destruct (Hin k) as [q Hq]; [set_solver|]. specialize (H1 k). rewrite Hq in H1.
    destruct (_ !! k); [eauto|done]. }
  split; [done|]. intros k. specialize (H1 k). specialize (IH k).
  destruct (RT_Partitions (R_routeTable r) !! k) as [q|], (RT_Partitions (R_routeTable (deliver r1)) !! k) as [q1|],
    (RT_Partitions (R_routeTable r') !! k) as [q'|]; try done.
  destruct (decide (k = id)) as [->|Hne].
  - rewrite (decide_False (P := id ∈ ids)) in IH by done. rewrite decide_True by set_solver.
    destruct H1 as [H1|[[e ->] H1]]; [left|right; split; [set_solver|]]; unfold same_row in *; congruence.
  - destruct (decide (k ∈ ids)) as [Hk|Hk].
    + rewrite decide_True by set_solver. rewrite <- (promoted_same q q1) by done.
      destruct IH as [IH|[Hf IH]]; [by left|]. right. split; [destruct err; set_solver|]. unfold same_row in *. congruence.
    + rewrite decide_False by set_solver. unfold same_row in *. congruence.
Qed.

(** A loop over the rows of a table meets each of them once. *)
Definition row_order (order : RouteTable → list Z) : Prop :=
  ∀ t, NoDup (order t) ∧ ∀ k, k ∈ order t ↔ is_Some (RT_Partitions t !! k).

Lemma elem_of_rows_with f addr t order k :
  row_order order →
  k ∈ rows_with f addr t (order t) ↔ ∃ p, RT_Partitions t !! k = Some p ∧ f p = addr.
Proof.
  intros Hord. unfold rows_with. rewrite list_elem_of_filter. destruct (Hord t) as [_ Hk]. rewrite Hk.
  split.
  - intros [Heq [p Hp]]. exists p. rewrite Hp in Heq. cbn in Heq. split; congruence.
  - intros (p & -> & <-). eauto.
Qed.

(** The first part of [handleNodeFailure], up to the promotions. *)
Lemma handleNodeFailure_reads watch order (fm fm' : FailoverManager) id node failed :
  store_ok (R_store (FM_router fm)) → sv_nodes (store_view (R_store (FM_router fm))) !! id = Some node →
  FailoverManager_handleNodeFailure watch order fm id = (fm', failed) →
  FM_rebalances fm' = (FM_rebalances fm + 1)%nat →
  ∃ s, store_ok s ∧ sv_table (store_view s) = sv_table (store_view (R_store (FM_router fm))) ∧
    let table := R_routeTable (FM_router fm) in
    promote_all watch (R_set_store (FM_router fm) s) (rows_with RP_Primary (NI_Addr node) table (order table)) =
    (FM_router fm', failed).
Proof.
  intros Hok Hnode. unfold FailoverManager_handleNodeFailure.
  pose proof (law_UpdateNodeStatus (R_store (FM_router fm)) id NodeStatusOffline Hok) as (Hok1 & [_ Hw] & _).
  destruct (UpdateNodeStatus _ _ _) as [s1 err]. cbn [fst snd] in *.
  destruct (law_GetNode s1 id Hok1) as [Hok2 [Hv2 Hr]]. destruct (GetNode s1 id) as [s2 res].
  cbn [fst snd] in *. destruct res as [[n|]|e]; cbn [FM_set_router FM_rebalances].
  2, 3: intros [= <- <-]; cbn; lia.
  specialize (Hr _ eq_refl).
  assert (NI_Addr n = NI_Addr node) as ->.
  { destruct Hw as [Hw|Hw]; rewrite Hw in Hr; cbn in Hr; [congruence|].
    rewrite lookup_alter_eq, Hnode in Hr. cbn in Hr. injection Hr as ->. done. }
  unfold Router_GetRouteTable. cbn [FM_router R_set_store R_routeTable FM_config FM_nodeHealth].
  destruct (promote_all _ _ _) as [r failed'] eqn:Hpr. intros [= <- <-] _. exists s2.
  split_and!; [done| |done]. rewrite Hv2. by destruct Hw as [->| ->].
Qed.

(** Whether the handler goes on is what [GetNode] answers. *)
Lemma handleNodeFailure_cases watch order (fm fm' : FailoverManager) id failed :
  store_ok (R_store (FM_router fm)) → FailoverManager_handleNodeFailure watch order fm id = (fm', failed) →
  match (GetNode (UpdateNodeStatus (R_store (FM_router fm)) id NodeStatusOffline).1 id).2 with
  | Ok (Some _) => FM_rebalances fm' = (FM_rebalances fm + 1)%nat
  | _ => failed = [] ∧ FM_rebalances fm' = FM_rebalances fm ∧ R_routeTable (FM_router fm') = R_routeTable (FM_router fm) ∧
      sv_table (store_view (R_store (FM_router fm'))) = sv_table (store_view (R_store (FM_router fm)))
  end.
Proof.
  intros Hok. unfold FailoverManager_handleNodeFailure.
  pose proof (law_UpdateNodeStatus (R_store (FM_router fm)) id NodeStatusOffline Hok) as (Hok1 & [_ Hw] & _).
  destruct (UpdateNodeStatus _ _ _) as [s1 err]. cbn [fst snd] in *.
  destruct (law_GetNode s1 id Hok1) as [_ [Hv2 _]]. destruct (GetNode s1 id) as [s2 res]. cbn [fst snd] in *.
  destruct res as [[n|]|e]; [destruct (promote_all _ _ _); by intros [= <- <-]|..]; intros [= <- <-]; cbn;
    (split_and!; [done..|]); rewrite Hv2; by destruct Hw as [->| ->].
Qed.

(** C28: failover promotes exactly the partitions of the failed node.  From a router
    whose cache is the stored table and for a node that is registered, when the
    watch delivers each table before the next promotion, then after the handler
    every partition whose primary was the failed node has its replica as primary
    at the next epoch (or is untouched and reported, when its promotion failed),
    every other partition has the nodes, the status and the epoch it had, and a
    rebalancing is under way.  All of this is so only when the node's record can
    be read back: when [GetNode] fails, the handler returns at once, nothing is
    promoted or reported and no rebalancing follows. *)
Theorem failover_promotes_replicas order (fm fm' : FailoverManager) id node failed :
  synced (FM_router fm) → row_order order →
  sv_nodes (store_view (R_store (FM_router fm))) !! id = Some node →
  FailoverManager_handleNodeFailure deliver order fm id = (fm', failed) →
  match (GetNode (UpdateNodeStatus (R_store (FM_router fm)) id NodeStatusOffline).1 id).2 with
  | Ok (Some _) =>
      FM_rebalances fm' = (FM_rebalances fm + 1)%nat ∧ synced (FM_router fm') ∧ ∀ k,
      match RT_Partitions (R_routeTable (FM_router fm)) !! k, RT_Partitions (R_routeTable (FM_router fm')) !! k with
      | Some q, Some q' =>
          if decide (RP_Primary q = NI_Addr node) then same_row (promoted q) q' ∨ k ∈ failed ∧ same_row q q'
          else same_row q q'
      | None, None => True
      | _, _ => False
      end
  | _ => failed = [] ∧ FM_rebalances fm' = FM_rebalances fm ∧ R_routeTable (FM_router fm') = R_routeTable (FM_router fm) ∧
      sv_table (store_view (R_store (FM_router fm'))) = sv_table (store_view (R_store (FM_router fm)))
  end.
Proof.
  intros [Hok Hs] Hord Hnode Hrun. pose proof (handleNodeFailure_cases _ _ _ _ _ _ Hok Hrun) as Hreb.
  destruct ((GetNode _ _).2) as [[n|]|]; [split; [done|]|done..].
  destruct (handleNodeFailure_reads _ _ _ _ _ _ _ Hok Hnode Hrun Hreb) as (s & Hoks & Ht & Hp).
  set (table := R_routeTable (FM_router fm)) in *. cbv zeta in Hp.
  set (ids := rows_with RP_Primary (NI_Addr node) table (order table)) in *.
  pose proof (promote_all_delivered ids (R_set_store (FM_router fm) s)) as Hall.
  rewrite Hp in Hall. destruct Hall as [Hs' Hall].
  - split; [done|]. cbn. by rewrite Ht.
  - apply NoDup_filter. apply Hord.
  - intros k Hk. apply elem_of_rows_with in Hk as (p & Hk & _); [|done]. cbn. eauto.
  - split; [done|]. intros k. specialize (Hall k). cbn [R_set_store R_routeTable] in Hall. fold table in Hall.
    destruct (RT_Partitions table !! k) as [q|] eqn:Hq; [|done].
    destruct (RT_Partitions (R_routeTable (FM_router fm')) !! k) as [q'|]; [|done].
    assert (k ∈ ids ↔ RP_Primary q = NI_Addr node) as Hiff.
    { unfold ids. rewrite elem_of_rows_with by done. naive_solver. }
    destruct (decide (RP_Primary q = NI_Addr node)); [by rewrite decide_True in Hall by tauto|].
    by rewrite decide_False in Hall by tauto.
Qed.

(** Promotions with no delivery in between: only the last one is in the store. *)
Lemma promote_all_undelivered (ids : list Z) (r r' : Router) x p :
  store_ok (R_store r) → (∀ id, id ∈ ids → is_Some (RT_Partitions (R_routeTable r) !! id)) →
  RT_Partitions (R_routeTable r) !! x = Some p →
  promote_all (λ r, r) r (ids ++ [x])%list = (r', []) →
  RT_Partitions (sv_table (store_view (R_store r'))) =
    <[x := promoted p]> (copy_partition <$> RT_Partitions (R_routeTable r)).
Proof.
  revert r. induction ids as [|id ids IH]; intros r Hok Hin Hx; cbn.
  - destruct (Router_PromoteReplica r x) as [r1 [err|]] eqn:Hr; [done|]. intros [= <-].
    apply PromoteReplica_done with (p := p) in Hr as (_ & _ & ->); done.
  - destruct (Hin id) as [q Hq]; [set_solver|].
    destruct (Router_PromoteReplica r id) as [r1 err] eqn:Hr.
    destruct (promote_all (λ r, r) r1 (ids ++ [x])) as [r2 failed] eqn:Hrest. destruct err as [err|]; [done|].
    intros [= -> ->]. apply PromoteReplica_done with (p := q) in Hr as (Hok1 & Hc & _); [|done..].
    rewrite <- Hc in Hin, Hx |- *. apply IH; [done|set_solver|done..].
Qed.

(** A failover that outruns the watch leaves the dead node in charge.  All
    promotions are built from the same cached table, so when no table is
    delivered between them, every promotion succeeds and yet each partition of
    the failed node but the last one is stored with the failed node as its
    primary, at its old epoch. *)
Lemma failover_without_delivery order (fm fm' : FailoverManager) id node ids x :
  store_ok (R_store (FM_router fm)) → row_order order →
  sv_nodes (store_view (R_store (FM_router fm))) !! id = Some node →
  FailoverManager_handleNodeFailure (λ r, r) order fm id = (fm', []) →
  FM_rebalances fm' = (FM_rebalances fm + 1)%nat →
  let table := R_routeTable (FM_router fm) in
  rows_with RP_Primary (NI_Addr node) table (order table) = (ids ++ [x])%list →
  ∀ k, k ∈ ids → ∃ q q', RT_Partitions table !! k = Some q ∧
    RT_Partitions (sv_table (store_view (R_store (FM_router fm')))) !! k = Some q' ∧
    RP_Primary q' = NI_Addr node ∧ RP_Epoch q' = RP_Epoch q.
Proof.
  intros Hok Hord Hnode Hrun Hreb table Hids k Hk.
  destruct (handleNodeFailure_reads _ _ _ _ _ _ _ Hok Hnode Hrun Hreb) as (s & Hoks & Ht & Hp).
  cbv zeta in Hp. fold table in Hp. rewrite Hids in Hp.
  assert (∀ y, y ∈ (ids ++ [x])%list → ∃ p, RT_Partitions table !! y = Some p ∧ RP_Primary p = NI_Addr node) as Hrow.
  { intros y. rewrite <- Hids. by apply elem_of_rows_with. }
  assert (NoDup (ids ++ [x])) as Hnd by (rewrite <- Hids; apply NoDup_filter, Hord).
  destruct (Hrow x) as (px & Hpx & _); [set_solver|]. destruct (Hrow k) as (q & Hq & Hprim); [set_solver|].
  pose proof (promote_all_undelivered ids (R_set_store (FM_router fm) s) (FM_router fm') x px Hoks) as Hst.
  cbn [R_set_store R_routeTable] in Hst. fold table in Hst. exists q, (copy_partition q). split; [done|].
  rewrite Hst; [| |done..].
  - apply NoDup_app in Hnd as (_ & Hnx & _). rewrite lookup_insert_ne by (intros ->; apply (Hnx k Hk); set_solver).
    rewrite lookup_fmap, Hq. done.
  - intros y Hy. destruct (Hrow y) as (p & ? & _); [set_solver|eauto].
Qed.

End FailoverProofs.

(** ** A failing node *)

Definition map_order (t : RouteTable) : list Z := (map_to_list (RT_Partitions t)).*1.

Lemma map_order_ok : row_order map_order.
Proof.
  intros t. unfold map_order. split; [apply NoDup_fst_map_to_list|]. intros k. rewrite list_elem_of_fmap. split.
  - intros ([k' p] & -> & Hp). apply elem_of_map_to_list in Hp. eauto.
  - intros [p Hp]. exists (k, p). split; [done|]. by apply elem_of_map_to_list.
Qed.

(** Two nodes that registered at time 0 and hold two partitions. *)
Definition demo_kv : gmap string etcd_value :=
  <[nodePrefix +:+ "n1" := VNode (registered 0 (demo_node "n1" "A"))]>
  (<[nodePrefix +:+ "n2" := VNode (registered 0 (demo_node "n2" "B"))]>
  (<[routeTableKey := VTable demo_table]> ∅)).

Definition demo_cluster : Router := mkRouter (mkMemEtcd demo_kv []) demo_table (NewConsistentHash DefaultVirtualNodes) ∅.

Lemma demo_cluster_synced : synced demo_cluster.
Proof.
  split; [|vm_compute; reflexivity]. change (kv_ok demo_kv). unfold demo_kv.
  repeat (apply kv_ok_insert; [constructor|]). apply kv_ok_empty.
Qed.

Lemma demo_cluster_keyed : nodes_keyed (store_view (R_store demo_cluster)).
Proof.
  intros k n Hn.
  assert (map_Forall (λ k n, NI_ID n = k) (sv_nodes (store_view (R_store demo_cluster)))) as Hall
    by (apply (bool_decide_unpack _); vm_compute; exact I).
  by apply Hall.
Qed.

Lemma checkNodes_detects_witness :
  let fm' := FailoverManager_checkNodes deliver map_order (NewFailoverManager None demo_cluster) 500 in
  (∀ node, node ∈ storage_nodes (store_view (R_store demo_cluster)) →
     let '(last, healthy, _) := FailoverManager_GetNodeHealth fm' (NI_ID node) in
     last = newest None node ∧ healthy = (500 - last <=? DefaultHeartbeatTimeout)) ∧
  FailoverManager_IsNodeHealthy fm' "n1" = true.
Proof.
  split; [|vm_compute; reflexivity].
  apply (checkNodes_detects deliver map_order (NewFailoverManager None demo_cluster) 0 500
    [registered 0 (demo_node "n1" "A"); registered 0 (demo_node "n2" "B")]).
  - apply demo_cluster_synced.
  - apply demo_cluster_keyed.
  - done.
  - intros id h Hh. change ((∅ : gmap string nodeHealthInfo) !! id = Some h) in Hh. by rewrite lookup_empty in Hh.
  - vm_compute. reflexivity.
Defined.

Lemma heartbeats_are_not_seen_witness :
  let s' := Nat.iter 3 (λ s, (UpdateNodeHeartbeat s "n1").1) (R_store demo_cluster) in
  FailoverManager_IsNodeHealthy (FailoverManager_checkNodes deliver map_order
    (NewFailoverManager None (R_set_store demo_cluster s')) 1000000001) "n1" = false.
Proof.
  apply (heartbeats_are_not_seen deliver map_order (R_store demo_cluster) 3 "n1" (registered 0 (demo_node "n1" "A"))
    demo_cluster 1000000001 [registered 0 (demo_node "n1" "A"); registered 0 (demo_node "n2" "B")]).
  - apply demo_cluster_synced.
  - apply demo_cluster_keyed.
  - vm_compute. reflexivity.
  - reflexivity.
  - vm_compute. reflexivity.
  - reflexivity.
Defined.

Lemma failover_promotes_replicas_witness :
  let '(fm', failed) := FailoverManager_handleNodeFailure deliver map_order (NewFailoverManager None demo_cluster) "n1" in
  failed = [] ∧ synced (FM_router fm') ∧
  (RP_Primary <$> RT_Partitions (R_routeTable (FM_router fm')) !! 1) = Some "B" ∧
  (RP_Primary <$> RT_Partitions (R_routeTable (FM_router fm')) !! 2) = Some "B".
Proof.
  destruct (FailoverManager_handleNodeFailure deliver map_order (NewFailoverManager None demo_cluster) "n1")
    as [fm' failed] eqn:Hrun.
  pose proof (f_equal fst Hrun) as Hf. pose proof (f_equal snd Hrun) as Hg. cbn [fst snd] in Hf, Hg.
  split; [rewrite <- Hg; vm_compute; reflexivity|]. split.
  - pose proof (failover_promotes_replicas map_order (NewFailoverManager None demo_cluster) fm' "n1" (registered 0 (demo_node "n1" "A"))
      failed demo_cluster_synced map_order_ok ltac:(vm_compute; reflexivity) Hrun) as Hp.
    assert (∃ n, (GetNode (UpdateNodeStatus (R_store demo_cluster) "n1" NodeStatusOffline).1 "n1").2 = Ok (Some n))
      as [n Hn] by (eexists; vm_compute; reflexivity).
    cbn [FM_router NewFailoverManager] in Hp. rewrite Hn in Hp. apply Hp.
  - rewrite <- Hf. split; vm_compute; reflexivity.
Defined.

Lemma failover_without_delivery_witness :
  let fm' := (FailoverManager_handleNodeFailure (λ r, r) map_order (NewFailoverManager None demo_cluster) "n1").1 in
  ∃ q q', RT_Partitions demo_table !! 2 = Some q ∧
    RT_Partitions (sv_table (store_view (R_store (FM_router fm')))) !! 2 = Some q' ∧
    RP_Primary q' = "A" ∧ RP_Epoch q' = RP_Epoch q.
Proof.
  apply (failover_without_delivery map_order (NewFailoverManager None demo_cluster)
    (FailoverManager_handleNodeFailure (λ r, r) map_order (NewFailoverManager None demo_cluster) "n1").1
    "n1" (registered 0 (demo_node "n1" "A")) [2] 1).
  - apply demo_cluster_synced.
  - apply map_order_ok.
  - vm_compute. reflexivity.
  - vm_compute. reflexivity.
  - vm_compute. reflexivity.
  - vm_compute. reflexivity.
  - set_solver.
Defined.
