(* ===== verification/Shutdown.v ===== *)
(** * Controlled shutdown of a storage node

    [Router.ShutdownNode] of [src/pkg/metadata/router.go] with the handler of
    [src/pkg/metadata/server.go]: the node is marked draining, its partitions are
    promoted to their replicas or handed to a migration scheduler, and the node is
    marked removed.

    The loop over the route table meets the rows in the order [order].  What else
    happens while the call runs (the ticks and the goroutines of the scheduler, the
    deliveries of the watch) is given by two functions from the state to lists of
    events: [gap k] before the turn of partition [k], and [wait] during
    [WaitForCompletion]. *)

From S2P Require Import Prelude Crc32 Proto HashRing MetaStore MetaRouter MigrationScheduler Failover.

#[local] Open Scope string_scope.
#[local] Open Scope Z_scope.

Section Shutdown.
  Context {S : Type} `{Store S}.

(** The counters [migratedCount] and [failedCount]. *)
Record Progress := mkProgress {
  PG_sys : @Sys S;
  PG_migrated : Z;
  PG_failed : Z
}.

Definition PG_set_sys (pg : Progress) (sy : Sys) : Progress := mkProgress sy (PG_migrated pg) (PG_failed pg).
Definition PG_set_router (pg : Progress) (r : Router) : Progress :=
  PG_set_sys pg (mkSys (sy_ms (PG_sys pg)) r).
Definition one_migrated (pg : Progress) : Progress :=
  mkProgress (PG_sys pg) (i32 (PG_migrated pg + 1)) (PG_failed pg).
Definition one_failed (pg : Progress) : Progress :=
  mkProgress (PG_sys pg) (PG_migrated pg) (i32 (PG_failed pg + 1)).

(** A task for the scheduler, or the switch at once when there is none. *)
Definition move_partition (scheduler : bool) (addr : string) (pg : Progress) (partitionID : Z) (target : string)
    (priority : MigrationPriority) (isPrimary : bool) : Progress * option goerr :=
  if scheduler then
    let '(ms, err) := add_new (sy_ms (PG_sys pg)) partitionID addr target priority isPrimary in
    (PG_set_sys pg (mkSys ms (sy_router (PG_sys pg))), err)
  else
    let '(r, err) := Router_CompleteMigration (sy_router (PG_sys pg)) partitionID target isPrimary in
    (PG_set_router pg r, err).

(** The counters after [move_partition]: a queued task is not counted yet. *)
Definition count_move (scheduler : bool) (res : Progress * option goerr) : Progress :=
  match res with
  | (pg, Some _) => one_failed pg
  | (pg, None) => if scheduler then pg else one_migrated pg
  end.

(** One turn of the loop over the node's primaries.  [partition] is the row of
    the table read before the loop. *)
Definition shutdown_primary (scheduler : bool) (addr : string) (table : RouteTable) (newHashRing : ConsistentHash)
    (gap : Z → @Sys S → list event) (pg : Progress) (partitionID : Z) : Progress :=
  let pg := PG_set_sys pg (foldl sys_step (PG_sys pg) (gap partitionID (PG_sys pg))) in
  let '(newPrimary, newReplica) := ConsistentHash_GetNodes newHashRing partitionID in
  match RT_Partitions table !! partitionID with
  | None => pg
  | Some partition =>
      let assign_replica pg :=
        if decide (RP_Replica partition = addr ∧ newReplica ≠ "") then
          (move_partition scheduler addr pg partitionID newReplica PRIORITY_NORMAL false).1
        else pg in
      if decide (RP_Replica partition ≠ "" ∧ RP_Replica partition ≠ addr) then
        match Router_PromoteReplica (sy_router (PG_sys pg)) partitionID with
        | (r, Some _) => one_failed (PG_set_router pg r)
        | (r, None) => assign_replica (one_migrated (PG_set_router pg r))
        end
      else
        assign_replica (count_move scheduler
          (move_partition scheduler addr pg partitionID newPrimary PRIORITY_HIGH true))
  end.

(** One turn of the loop over the node's replicas. *)
Definition shutdown_replica (scheduler : bool) (addr : string) (table : RouteTable) (newHashRing : ConsistentHash)
    (gap : Z → @Sys S → list event) (pg : Progress) (partitionID : Z) : Progress :=
  let pg := PG_set_sys pg (foldl sys_step (PG_sys pg) (gap partitionID (PG_sys pg))) in
  match RT_Partitions table !! partitionID with
  | None => pg
  | Some partition =>
      if decide (RP_Primary partition = addr) then pg else
      let '(_, newReplica) := ConsistentHash_GetNodes newHashRing partitionID in
      if decide (newReplica = "") then pg else
      count_move scheduler
        (move_partition scheduler addr pg partitionID newReplica PRIORITY_NORMAL false)
  end.

Definition R_remove_node (r : Router) (addr : string) : outcome (@Router S) :=
  R_set_ring r <$> ConsistentHash_RemoveNode (R_hashRing r) addr.

(** The nodes partitions can move to. *)
Definition shutdown_targets (nodeID : string) (nodes : list NodeInfo) : list NodeInfo :=
  filter (λ n, NI_ID n ≠ nodeID ∧ NI_Status n = NodeStatusOnline) nodes.

Definition on_store (sy : Sys) (s : S) : Sys := mkSys (sy_ms sy) (R_set_store (sy_router sy) s).

(** Step 6: the two loops. *)
Definition shutdown_loops (sy : Sys) (addr : string) (table : RouteTable) (newHashRing : ConsistentHash)
    (scheduler : bool) (order : list Z) (gap : Z → @Sys S → list event) : Progress :=
  let primaryPartitions := rows_with RP_Primary addr table order in
  let replicaPartitions := rows_with RP_Replica addr table order in
  let pg := foldl (shutdown_primary scheduler addr table newHashRing gap) (mkProgress sy 0 0)
    primaryPartitions in
  foldl (shutdown_replica scheduler addr table newHashRing gap) pg replicaPartitions.

(** Steps 5 to 8.  The result of the wait is only logged. *)
Definition shutdown_drain (sy : Sys) (nodeID : string) (node : NodeInfo) (table : RouteTable) (targetNodes : list NodeInfo)
    (scheduler : bool) (order : list Z) (gap : Z → @Sys S → list event) (wait : @Sys S → list event) :
    outcome (Sys * (Z * Z * option goerr)) :=
  let newHashRing := build_ring (NI_Addr <$> targetNodes) in
  let pg := shutdown_loops sy (NI_Addr node) table newHashRing scheduler order gap in
  let pg :=
    if scheduler then
      let sy := foldl sys_step (PG_sys pg) (wait (PG_sys pg)) in
      let status := MigrationScheduler_GetStatus (sy_ms sy) in
      mkProgress sy (i32 (ST_TotalMigrated status)) (i32 (ST_TotalFailed status))
    else pg in
  r ← R_remove_node (sy_router (PG_sys pg)) (NI_Addr node);
  let '(s, _) := UpdateNodeStatus (R_store r) nodeID NodeStatusRemoved in
  Ret (mkSys (sy_ms (PG_sys pg)) (R_set_store r s), (PG_migrated pg, PG_failed pg, None)).

(** The last component lists the operations a goroutine was started for. *)
Definition Router_ShutdownNode (sy : Sys) (nodeID : string) (force scheduler : bool) (order : RouteTable → list Z)
    (gap : Z → @Sys S → list event) (wait : @Sys S → list event) : outcome (Sys * (Z * Z * option goerr) * list table_op) :=
  let '(s, res) := GetNode (R_store (sy_router sy)) nodeID in
  let sy := on_store sy s in
  match res with
  | Error _ => Ret (sy, (0, 0, Some (Errorf "failed to get node")), [])
  | Ok None => Ret (sy, (0, 0, Some (Errorf "node not found")), [])
  | Ok (Some node) =>
      let '(s, err) := UpdateNodeStatus (R_store (sy_router sy)) nodeID NodeStatusDraining in
      let sy := on_store sy s in
      match err with
      | Some _ => Ret (sy, (0, 0, Some (Errorf "failed to set node status to DRAINING")), [])
      | None =>
          let table := R_routeTable (sy_router sy) in
          let totalPartitions := len (rows_with RP_Primary (NI_Addr node) table (order table)) +
            len (rows_with RP_Replica (NI_Addr node) table (order table)) in
          if force then
            let '(s, err) := UpdateNodeStatus (R_store (sy_router sy)) nodeID NodeStatusRemoved in
            let sy := on_store sy s in
            match err with
            | Some _ => Ret (sy, (0, i32 totalPartitions, Some (Errorf "failed to set node status to REMOVED")), [])
            | None => Ret (sy, (0, i32 totalPartitions, None), [OpRebalance])
            end
          else
          let '(s, res) := ListNodes (R_store (sy_router sy)) NodeRoleStorage in
          let sy := on_store sy s in
          match res with
          | Error _ => Ret (sy, (0, 0, Some (Errorf "failed to list storage nodes")), [])
          | Ok onlineNodes =>
              let targetNodes := shutdown_targets nodeID onlineNodes in
              if len targetNodes <? MinReplicaNodes - 1 then
                Ret (sy, (0, 0, Some (Errorf "not enough online nodes for migration")), [])
              else
                '(sy, out) ← shutdown_drain sy nodeID node table targetNodes scheduler (order table) gap wait;
                Ret (sy, out, [])
          end
      end
  end.

Record ShutdownNodeResponse := mkShutdownNodeResponse {
  SD_Success : bool;
  SD_Message : string;
  SD_PartitionsMigrated : Z;
  SD_PartitionsFailed : Z
}.

Definition error_text (err : goerr) : string :=
  match err with EOF => "EOF" | UnexpectedEOF => "unexpected EOF" | Errorf msg => msg end.

(** The handler makes a scheduler for the call and stops it at the end. *)
Definition MetaServer_ShutdownNode (r : Router) (nodeID : string) (force : bool) (order : RouteTable → list Z)
    (gap : Z → @Sys S → list event) (wait : @Sys S → list event) : outcome (Sys * ShutdownNodeResponse * list table_op) :=
  let ms := if force then NewMigrationScheduler else MigrationScheduler_Start NewMigrationScheduler in
  '(sy, (migrated, failed, err), ops) ←
    Router_ShutdownNode (mkSys ms r) nodeID force (negb force) order gap wait;
  let sy := if force then sy else on_ms MigrationScheduler_Stop sy in
  match err with
  | Some err => Ret (sy, mkShutdownNodeResponse false (error_text err) migrated failed, ops)
  | None => Ret (sy, mkShutdownNodeResponse true "node shutdown completed successfully" migrated failed, ops)
  end.

End Shutdown.

(** ** What the loops do *)

Section ShutdownProofs.
  Context {S : Type} `{StoreLaws S}.

(** The watch delivers what is stored before every turn. *)
Definition prompt (k : Z) (sy : @Sys S) : list event :=
  [EvWatch (sv_table (store_view (R_store (sy_router sy))))].







Definition promotable (addr : string) (q : RoutePartition) : Prop :=
  RP_Primary q = addr ∧ RP_Replica q ≠ "" ∧ RP_Replica q ≠ addr.

#[global] Instance promotable_dec addr q : Decision (promotable addr q).
Proof. unfold promotable. apply _. Defined.

Definition promotable_at (addr : string) (table : RouteTable) (k : Z) : Prop :=
  match RT_Partitions table !! k with Some q => promotable addr q | None => False end.

#[global] Instance promotable_at_dec addr table k : Decision (promotable_at addr table k).
Proof. unfold promotable_at. destruct (RT_Partitions table !! k); apply _. Defined.


(** Routers with the same store and the same cached table: the subscribers may have
    been told a different number of times. *)
Definition tables_eq (r r' : @Router S) : Prop := R_store r = R_store r' ∧ R_routeTable r = R_routeTable r'.

#[local] Instance tables_eq_equiv : Equivalence tables_eq.
Proof.
  split; [done|by intros r r' [? ?]|]. intros r1 r2 r3 [H1 H2] [H3 H4]. split; congruence.
Qed.

#[local] Instance deliver_proper : Proper (tables_eq ==> tables_eq) deliver.
Proof. intros r r' [Hs Ht]. split; cbn; [done|]. by rewrite Hs. Qed.



Definition stored (sy : @Sys S) : gmap Z RoutePartition :=
  RT_Partitions (sv_table (store_view (R_store (sy_router sy)))).

















(** A shutdown that is refused changes no placement: it queues nothing, the
    route table and the partitions are as before, and no goroutine is left.  But
    when it is refused because no other node is online, the node has already been
    marked draining and stays so. *)
Lemma shutdown_refused (sy sy' : Sys) nodeID scheduler order gap wait migrated failed err ops :
  store_ok (R_store (sy_router sy)) →
  Router_ShutdownNode sy nodeID false scheduler order gap wait = Ret (sy', (migrated, failed, Some err), ops) →
  ops = [] ∧ migrated = 0 ∧ failed = 0 ∧ sy_ms sy' = sy_ms sy ∧
  R_routeTable (sy_router sy') = R_routeTable (sy_router sy) ∧ stored sy' = stored sy ∧
  (err = Errorf "not enough online nodes for migration" →
   ∃ n, sv_nodes (store_view (R_store (sy_router sy'))) !! nodeID = Some n ∧ NI_Status n = NodeStatusDraining).
Proof.
  intros Hok. unfold Router_ShutdownNode, stored.
  destruct (law_GetNode (R_store (sy_router sy)) nodeID Hok) as [Hok1 [Hv1 Hr1]].
  destruct (GetNode _ _) as [s1 res]. cbn [fst snd on_store sy_router R_store R_set_store] in *.
  destruct res as [[node|]|]; [|by intros [= <- <- <- <- <-]; cbn; rewrite Hv1..].
  pose proof (law_UpdateNodeStatus s1 nodeID NodeStatusDraining Hok1) as (Hok2 & [Hd2 Hw2] & _).
  destruct (UpdateNodeStatus s1 _ _) as [s2 err2]. cbn [fst snd] in *.
  assert (sv_table (store_view s2) = sv_table (store_view (R_store (sy_router sy)))) as Ht2
    by (rewrite <- Hv1; by destruct Hw2 as [->| ->]).
  destruct err2 as [err2|]; [by intros [= <- <- <- <- <-]; cbn; rewrite Ht2|].
  pose proof (ListNodes_storage s2 Hok2) as Hl. destruct (ListNodes s2 _) as [s3 res3]. destruct Hl as (_ & Hv3 & _).
  destruct res3 as [nodes|]; [|by intros [= <- <- <- <- <-]; cbn; rewrite Hv3, Ht2].
  destruct (Z.ltb_spec (len (shutdown_targets nodeID nodes)) (MinReplicaNodes - 1)).
  - intros [= <- <- <- <- <-]. cbn. rewrite Hv3, Ht2. split_and!; [done..|]. intros _.
    rewrite Hd2 by done. cbn. rewrite lookup_alter_eq. rewrite Hv1. specialize (Hr1 _ eq_refl).
    rewrite <- Hr1. cbn. eauto.
  - unfold shutdown_drain. destruct (R_remove_node _ _); [|done..]. cbn. by destruct (UpdateNodeStatus _ _ _).
Qed.

End ShutdownProofs.

(** ** Two nodes *)



(** The only other node is offline. *)
Definition demo_lonely : Sys :=
  mkSys NewMigrationScheduler (R_set_store demo_cluster (UpdateNodeStatus (R_store demo_cluster) "n2" NodeStatusOffline).1).

Lemma shutdown_refused_witness :
  ∃ n, sv_nodes (store_view (R_store (sy_router
    (match Router_ShutdownNode demo_lonely "n1" false true map_order prompt (λ _, []) with
     | Ret (sy', _, _) => sy' | _ => demo_lonely end)))) !! "n1" = Some n ∧ NI_Status n = NodeStatusDraining.
Proof.
  destruct (Router_ShutdownNode demo_lonely "n1" false true map_order prompt (λ _, []))
    as [[[sy' [[m f] err]] ops]| |] eqn:Hrun.
  2, 3: apply (f_equal (λ o, match o with Ret _ => true | _ => false end)) in Hrun; vm_compute in Hrun; done.
  assert (err = Some (Errorf "not enough online nodes for migration")) as ->.
  { apply (f_equal (λ o, match o with Ret (_, (_, _, e), _) => e | _ => None end)) in Hrun.
    cbv beta iota in Hrun. rewrite <- Hrun. vm_compute. reflexivity. }
  apply (shutdown_refused demo_lonely sy' "n1" true map_order prompt (λ _, []) m f _ ops) in Hrun
    as (_ & _ & _ & _ & _ & _ & Hn).
  - by apply Hn.
  - destruct demo_cluster_synced as [Hok _].
    apply (law_UpdateNodeStatus (R_store demo_cluster) "n2" NodeStatusOffline Hok).
Defined.
