(* ===== verification/MigrationController.v ===== *)
(** * The migration controller

    [MigrationController] of [src/pkg/metadata/migration.go]: it compares the
    route table with the consistent-hash ring of the online nodes, turns the
    differences into a plan, and executes the plan in the background, copying each
    partition from node to node before it switches the route.

    A migration is a shared object: the controller points to the current one, and
    the goroutines of an older one may still work on theirs.  [MC_runs] has every
    migration that was started with the state of its executor; [MC_current] is the
    index of the current one.  A goroutine is the phase it has reached in
    [migratePartition].  The storage nodes are the class [StorageNet] of the calls
    the controller makes to them.  Times and the rates computed from them are left
    out. *)

From S2P Require Import Prelude Crc32 Engine Keys Proto Partitions StorageServer HashRing MetaStore MetaRouter Failover SstTransfer.

#[local] Open Scope string_scope.
#[local] Open Scope Z_scope.

Record MigrationConfig := mkMigrationConfig {
  MCF_MaxConcurrent : Z;
  MCF_BandwidthLimit : Z;
  MCF_ChunkSize : Z;
  MCF_CatchupThreshold : Z;
  MCF_RetryAttempts : Z;
  MCF_PauseOnError : bool;
  MCF_Priority : MigrationPriority
}.

Definition DefaultMigrationConfig : MigrationConfig :=
  mkMigrationConfig 10 (200 * 1024 * 1024) (4 * 1024 * 1024) (10 * 1024 * 1024) 3 false PRIORITY_NORMAL.

Record PartitionMigrationState := mkPartitionMigrationState {
  PMS_PartitionID : Z;
  PMS_SourceNode : string;
  PMS_TargetNode : string;
  PMS_State : MigrationState;
  PMS_BytesCopied : Z;
  PMS_BytesTotal : Z;
  PMS_Error : option goerr
}.

Definition PMS_set_state (st : PartitionMigrationState) (state : MigrationState) : PartitionMigrationState :=
  mkPartitionMigrationState (PMS_PartitionID st) (PMS_SourceNode st) (PMS_TargetNode st) state
    (PMS_BytesCopied st) (PMS_BytesTotal st) (PMS_Error st).
Definition PMS_set_bytes (st : PartitionMigrationState) (copied total : Z) : PartitionMigrationState :=
  mkPartitionMigrationState (PMS_PartitionID st) (PMS_SourceNode st) (PMS_TargetNode st) (PMS_State st)
    copied total (PMS_Error st).
Definition PMS_fail (st : PartitionMigrationState) (err : goerr) : PartitionMigrationState :=
  mkPartitionMigrationState (PMS_PartitionID st) (PMS_SourceNode st) (PMS_TargetNode st) MIGRATION_FAILED
    (PMS_BytesCopied st) (PMS_BytesTotal st) (Some err).

Record Migration := mkMigration {
  MG_ID : string;
  MG_TotalPartitions : Z;
  MG_CompletedPartitions : Z;
  MG_FailedPartitions : Z;
  MG_BytesCopied : Z;
  MG_BytesTotal : Z;
  MG_Status : string;
  MG_Partitions : gmap Z PartitionMigrationState
}.

Definition MG_set_status (m : Migration) (status : string) : Migration :=
  mkMigration (MG_ID m) (MG_TotalPartitions m) (MG_CompletedPartitions m) (MG_FailedPartitions m)
    (MG_BytesCopied m) (MG_BytesTotal m) status (MG_Partitions m).
Definition MG_set_bytes (m : Migration) (copied total : Z) : Migration :=
  mkMigration (MG_ID m) (MG_TotalPartitions m) (MG_CompletedPartitions m) (MG_FailedPartitions m)
    copied total (MG_Status m) (MG_Partitions m).
(** [state := migration.Partitions[id]] and an update through the pointer. *)
Definition MG_on_state (m : Migration) (id : Z) (f : PartitionMigrationState → PartitionMigrationState) : Migration :=
  mkMigration (MG_ID m) (MG_TotalPartitions m) (MG_CompletedPartitions m) (MG_FailedPartitions m)
    (MG_BytesCopied m) (MG_BytesTotal m) (MG_Status m) (alter f id (MG_Partitions m)).
Definition MG_count (m : Migration) (completed failed : Z) : Migration :=
  mkMigration (MG_ID m) (MG_TotalPartitions m) completed failed (MG_BytesCopied m) (MG_BytesTotal m)
    (MG_Status m) (MG_Partitions m).

(** ** The plan *)

Record MigrationPlanItem := mkMigrationPlanItem {
  PL_PartitionID : Z;
  PL_SourceNode : string;
  PL_TargetNode : string;
  PL_IsPrimary : bool;
  PL_Priority : MigrationPriority
}.

#[global] Instance MigrationPlanItem_eq_dec : EqDecision MigrationPlanItem.
Proof. solve_decision. Defined.

(** The items of one row of the table; [addrs] are the addresses of the online
    nodes. *)
Definition plan_row (hashRing : ConsistentHash) (addrs : list string) (partitionID : Z) (partition : RoutePartition) :
    list MigrationPlanItem :=
  let '(newPrimary, newReplica) := ConsistentHash_GetNodes hashRing partitionID in
  (if decide (RP_Primary partition ≠ newPrimary) then
     let priority := if decide (RP_Primary partition ∈ addrs) then PRIORITY_NORMAL else PRIORITY_HIGH in
     if decide (RP_Replica partition = newPrimary) then
       [mkMigrationPlanItem partitionID (RP_Primary partition) (RP_Replica partition) true priority]
     else [mkMigrationPlanItem partitionID (RP_Primary partition) newPrimary true priority]
   else []) ++
  (if decide (RP_Replica partition ≠ newReplica ∧ RP_Primary partition ≠ newReplica) then
     let priority := if decide (RP_Replica partition ∈ addrs) then PRIORITY_LOW else PRIORITY_NORMAL in
     [mkMigrationPlanItem partitionID (RP_Replica partition) newReplica false priority]
   else []).

(** The rows are met in the order [order]; [sort] is the unstable sort of the
    library. *)
Definition MigrationController_calculateMigrationPlan (order : RouteTable → list Z)
    (sort : list MigrationPlanItem → list MigrationPlanItem) (currentTable : RouteTable) (nodes : list NodeInfo) :
    list MigrationPlanItem :=
  let onlineNodes := filter (λ node, NI_Status node = NodeStatusOnline) nodes in
  if len onlineNodes <? MinReplicaNodes then [] else
  let addrs := NI_Addr <$> onlineNodes in
  let hashRing := build_ring addrs in
  sort (concat ((λ partitionID,
    match RT_Partitions currentTable !! partitionID with
    | Some partition => plan_row hashRing addrs partitionID partition
    | None => []
    end) <$> order currentTable)).

(** What [sort.Slice] by falling priority promises. *)
Definition sorts_plan (sort : list MigrationPlanItem → list MigrationPlanItem) : Prop :=
  ∀ l, sort l ≡ₚ l ∧
    StronglySorted (λ a b, MigrationPriority_num (PL_Priority b) ≤ MigrationPriority_num (PL_Priority a)) (sort l).

(** ** The controller *)

(** Where a goroutine is in [migratePartition]; at [MEnd] it is about to record
    the result. *)
Inductive mphase := MPrepare | MCopy | MSwitch | MEnd (err : option goerr).

(** The executor of a migration: the items not launched yet, whether its context
    is cancelled, whether a failure has paused it, whether the loop is still
    launching, whether its next item has passed the checks and waits for a slot of
    the semaphore, and the running goroutines. *)
Record Run := mkRun {
  RN_migration : Migration;
  RN_plan : list MigrationPlanItem;
  RN_config : MigrationConfig;
  RN_cancelled : bool;
  RN_paused : bool;
  RN_looping : bool;
  RN_sending : bool;
  RN_active : list (MigrationPlanItem * mphase)
}.

Definition RN_set_migration (rn : Run) (m : Migration) : Run :=
  mkRun m (RN_plan rn) (RN_config rn) (RN_cancelled rn) (RN_paused rn) (RN_looping rn) (RN_sending rn)
    (RN_active rn).
Definition RN_stop (rn : Run) (m : Migration) : Run :=
  mkRun m (RN_plan rn) (RN_config rn) (RN_cancelled rn) (RN_paused rn) false false (RN_active rn).

(** The calls to storage nodes: dialling; the chunks an export delivers before
    [Recv] returns an error or the end of the stream, which the caller does not
    tell apart; the start of an ingestion, the failure of the [i]-th [Send], and
    the reply to a stream. *)
Class StorageNet (N : Type) := {
  net_dial : N → string → option goerr;
  net_export : N → string → Z → N * result (list SSTChunk);
  net_ingest_start : N → string → option goerr;
  net_send : N → string → nat → option goerr;
  net_ingest : N → string → list SSTChunk → N * result bool
}.

Section Controller.
  Context {S : Type} `{Store S} {N : Type} `{StorageNet N}.

Record MigrationController := mkMigrationController {
  MC_config : MigrationConfig;
  MC_router : @Router S;
  MC_net : N;
  MC_runs : list Run;
  MC_current : option nat;
  MC_conns : gset string
}.

Definition NewMigrationController (config : option MigrationConfig) (router : Router) (net : N) : MigrationController :=
  mkMigrationController (default DefaultMigrationConfig config) router net [] None ∅.

Definition MC_set_router (mc : MigrationController) (r : Router) : MigrationController :=
  mkMigrationController (MC_config mc) r (MC_net mc) (MC_runs mc) (MC_current mc) (MC_conns mc).
Definition MC_set_net (mc : MigrationController) (net : N) : MigrationController :=
  mkMigrationController (MC_config mc) (MC_router mc) net (MC_runs mc) (MC_current mc) (MC_conns mc).
Definition MC_set_runs (mc : MigrationController) (runs : list Run) : MigrationController :=
  mkMigrationController (MC_config mc) (MC_router mc) (MC_net mc) runs (MC_current mc) (MC_conns mc).
Definition MC_set_conns (mc : MigrationController) (conns : gset string) : MigrationController :=
  mkMigrationController (MC_config mc) (MC_router mc) (MC_net mc) (MC_runs mc) (MC_current mc) conns.

(** The current migration, if any. *)
Definition MC_migration (mc : MigrationController) : option Run :=
  i ← MC_current mc; MC_runs mc !! i.

Definition running (m : Migration) : bool := bool_decide (MG_Status m = "running").

Definition MC_busy (mc : MigrationController) : bool :=
  match MC_migration mc with Some rn => running (RN_migration rn) | None => false end.

Record TriggerRebalanceResponse := mkTriggerRebalanceResponse {
  TR_Success : bool;
  TR_Message : string;
  TR_MigrationId : string;
  TR_PartitionsToMigrate : Z
}.

(** The entries of [Partitions]: a later item of a partition replaces an earlier
    one. *)
Definition plan_states (plan : list MigrationPlanItem) : gmap Z PartitionMigrationState :=
  foldl (λ m p, <[PL_PartitionID p := mkPartitionMigrationState (PL_PartitionID p) (PL_SourceNode p)
    (PL_TargetNode p) MIGRATION_PREPARING 0 0 None]> m) ∅ plan.

(** A new migration with its executor. *)
Definition started_run (migrationID : string) (plan : list MigrationPlanItem) (config : MigrationConfig) : Run :=
  mkRun (mkMigration migrationID (i32 (len plan)) 0 0 0 0 "running" (plan_states plan)) plan config false false true false [].

(** The order of the nodes, by id. *)
Definition node_le (a b : NodeInfo) : Prop := str_le (NI_ID a) (NI_ID b).
#[global] Instance node_le_dec : RelDecision node_le.
Proof. intros a b. unfold node_le. apply _. Defined.

Definition MigrationController_TriggerRebalance (order : RouteTable → list Z)
    (sort : list MigrationPlanItem → list MigrationPlanItem) (mc : MigrationController) (migrationID : string)
    (force : bool) (bandwidthLimit maxConcurrent : Z) : MigrationController * TriggerRebalanceResponse :=
  if MC_busy mc then
    (mc, mkTriggerRebalanceResponse false "migration already in progress" "" 0)
  else
  let '(s, res) := ListNodes (R_store (MC_router mc)) NodeRoleStorage in
  let mc := MC_set_router mc (R_set_store (MC_router mc) s) in
  match res with
  | Error _ => (mc, mkTriggerRebalanceResponse false "failed to list nodes" "" 0)
  | Ok nodes =>
      if len nodes <? MinReplicaNodes then
        (mc, mkTriggerRebalanceResponse false "need at least 2 storage nodes" "" 0)
      else
      let plan := MigrationController_calculateMigrationPlan order sort (Router_GetRouteTable (MC_router mc))
        (merge_sort node_le nodes) in
      if (len plan =? 0) && negb force then
        (mc, mkTriggerRebalanceResponse true "cluster is already balanced" "" 0)
      else
      let config := mkMigrationConfig
        (if 0 <? maxConcurrent then maxConcurrent else MCF_MaxConcurrent (MC_config mc))
        (if 0 <? bandwidthLimit then bandwidthLimit else MCF_BandwidthLimit (MC_config mc))
        (MCF_ChunkSize (MC_config mc)) (MCF_CatchupThreshold (MC_config mc)) (MCF_RetryAttempts (MC_config mc))
        (MCF_PauseOnError (MC_config mc)) (MCF_Priority (MC_config mc)) in
      (mkMigrationController (MC_config mc) (MC_router mc) (MC_net mc)
         (MC_runs mc ++ [started_run migrationID plan config]) (Some (length (MC_runs mc))) (MC_conns mc),
       mkTriggerRebalanceResponse true "migration started" migrationID (i32 (len plan)))
  end.

(** ** Copying a partition *)

(** The connection to a node is made once. *)
Definition MigrationController_getStorageClient (mc : MigrationController) (addr : string) :
    MigrationController * option goerr :=
  if decide (addr ∈ MC_conns mc) then (mc, None) else
  match net_dial (MC_net mc) addr with
  | Some err => (mc, Some err)
  | None => (MC_set_conns mc (MC_conns mc ∪ {[addr]}), None)
  end.

(** The loop over the export stream: the migration with its byte counters, the
    chunks sent, and the error of a [Send].  The end of [chunks] is an error of
    [Recv] or the end of the stream: the loop is left either way. *)
Fixpoint copy_loop (send : nat → option goerr) (id : Z) (m : Migration) (totalBytes : Z) (i : nat)
    (chunks : list SSTChunk) : Migration * list SSTChunk * option goerr :=
  match chunks with
  | [] => (m, [], None)
  | chunk :: rest =>
      let m :=
        match MG_Partitions m !! id with
        | Some st =>
            if (0 <? CK_TotalSize chunk) && (PMS_BytesTotal st =? 0) then
              MG_set_bytes (MG_on_state m id (λ st, PMS_set_bytes st (PMS_BytesCopied st) (CK_TotalSize chunk)))
                (MG_BytesCopied m) (i64 (MG_BytesTotal m + CK_TotalSize chunk))
            else m
        | None => m
        end in
      match send i with
      | Some _ => (m, [], Some (Errorf "failed to send chunk"))
      | None =>
          let totalBytes := i64 (totalBytes + len (CK_Data chunk)) in
          let m := MG_set_bytes (MG_on_state m id (λ st, PMS_set_bytes st totalBytes (PMS_BytesTotal st)))
            (i64 (MG_BytesCopied m + len (CK_Data chunk))) (MG_BytesTotal m) in
          if CK_IsLast chunk then (m, [chunk], None)
          else
            let '(m, sent, err) := copy_loop send id m totalBytes (i + 1) rest in
            (m, chunk :: sent, err)
      end
  end.

(** The first part of [migratePartition], up to the connections. *)
Definition migrate_prepare (mc : MigrationController) (m : Migration) (item : MigrationPlanItem) :
    MigrationController * Migration * mphase :=
  let m := MG_on_state m (PL_PartitionID item) (λ st, PMS_set_state st MIGRATION_PREPARING) in
  match Router_SetPartitionMigration (MC_router mc) (PL_PartitionID item) (PL_TargetNode item) MIGRATION_COPYING with
  | (r, Some _) => (MC_set_router mc r, m, MEnd (Some (Errorf "failed to set migration state")))
  | (r, None) =>
      match MigrationController_getStorageClient (MC_set_router mc r) (PL_SourceNode item) with
      | (mc, Some _) => (mc, m, MEnd (Some (Errorf "failed to connect to source")))
      | (mc, None) =>
          match MigrationController_getStorageClient mc (PL_TargetNode item) with
          | (mc, Some _) => (mc, m, MEnd (Some (Errorf "failed to connect to target")))
          | (mc, None) => (mc, m, MCopy)
          end
      end
  end.

(** The copy: phases 1 and 2. *)
Definition migrate_copy (mc : MigrationController) (m : Migration) (item : MigrationPlanItem) :
    MigrationController * Migration * mphase :=
  let m := MG_on_state m (PL_PartitionID item) (λ st, PMS_set_state st MIGRATION_COPYING) in
  let '(net, exported) := net_export (MC_net mc) (PL_SourceNode item) (PL_PartitionID item) in
  match exported with
  | Error _ => (MC_set_net mc net, m, MEnd (Some (Errorf "failed to start export")))
  | Ok chunks =>
      match net_ingest_start net (PL_TargetNode item) with
      | Some _ => (MC_set_net mc net, m, MEnd (Some (Errorf "failed to start ingest")))
      | None =>
          let '(m, sent, sendErr) := copy_loop (net_send net (PL_TargetNode item)) (PL_PartitionID item) m 0 0 chunks in
          match sendErr with
          | Some err => (MC_set_net mc net, m, MEnd (Some err))
          | None =>
              let '(net, reply) := net_ingest net (PL_TargetNode item) sent in
              match reply with
              | Error _ => (MC_set_net mc net, m, MEnd (Some (Errorf "failed to close ingest stream")))
              | Ok false => (MC_set_net mc net, m, MEnd (Some (Errorf "ingest failed")))
              | Ok true => (MC_set_net mc net, m, MSwitch)
              end
          end
      end
  end.

(** Phase 3. *)
Definition migrate_switch (mc : MigrationController) (m : Migration) (item : MigrationPlanItem) :
    MigrationController * Migration * mphase :=
  let m := MG_on_state m (PL_PartitionID item) (λ st, PMS_set_state st MIGRATION_SWITCHING) in
  match Router_CompleteMigration (MC_router mc) (PL_PartitionID item) (PL_TargetNode item) (PL_IsPrimary item) with
  | (r, Some _) => (MC_set_router mc r, m, MEnd (Some (Errorf "failed to complete migration")))
  | (r, None) => (MC_set_router mc r, m, MEnd None)
  end.

(** The result is recorded in the migration. *)
Definition record_result (m : Migration) (item : MigrationPlanItem) (err : option goerr) : Migration :=
  match err with
  | Some err =>
      MG_count (MG_on_state m (PL_PartitionID item) (λ st, PMS_fail st err))
        (MG_CompletedPartitions m) (i32 (MG_FailedPartitions m + 1))
  | None =>
      MG_count (MG_on_state m (PL_PartitionID item) (λ st, PMS_set_state st MIGRATION_COMPLETE))
        (i32 (MG_CompletedPartitions m + 1)) (MG_FailedPartitions m)
  end.

(** ** The executor *)

(** The deferred function of [executeMigration]. *)
Definition finish_status (m : Migration) : Migration :=
  if running m then
    MG_set_status m (if 0 <? MG_FailedPartitions m then "completed_with_errors" else "completed")
  else m.

(** One step of the loop over the plan: the checks of an item, or its send on the
    semaphore, which blocks while all slots are taken and after which the item is
    launched, whatever has been cancelled or has failed since the checks.  A
    cancelled context ends the function at once, the end of the plan and a pause
    only the loop. *)
Definition executor_turn (rn : Run) : Run :=
  if negb (RN_looping rn) then rn else
  match RN_plan rn with
  | [] => RN_stop rn (RN_migration rn)
  | item :: rest =>
      if RN_sending rn then
        if len (RN_active rn) <? MCF_MaxConcurrent (RN_config rn) then
          mkRun (RN_migration rn) rest (RN_config rn) (RN_cancelled rn) (RN_paused rn) true false
            (RN_active rn ++ [(item, MPrepare)])
        else rn
      else if RN_cancelled rn then RN_stop rn (finish_status (MG_set_status (RN_migration rn) "cancelled"))
      else if MCF_PauseOnError (RN_config rn) && RN_paused rn then
        RN_stop rn (MG_set_status (RN_migration rn) "paused_on_error")
      else
        mkRun (RN_migration rn) (item :: rest) (RN_config rn) (RN_cancelled rn) (RN_paused rn) true true (RN_active rn)
  end.

(** [wg.Wait] returns and the deferred function runs. *)
Definition executor_finish (rn : Run) : Run :=
  if RN_looping rn then rn else
  match RN_active rn with [] => RN_set_migration rn (finish_status (RN_migration rn)) | _ => rn end.

(** The [j]-th goroutine of the run runs to its next phase. *)
Definition goroutine_step (mc : MigrationController) (rn : Run) (j : nat) : MigrationController * Run :=
  match RN_active rn !! j with
  | None => (mc, rn)
  | Some (item, MEnd err) =>
      let paused := match err with Some _ => RN_paused rn || MCF_PauseOnError (RN_config rn) | None => RN_paused rn end in
      (mc, mkRun (record_result (RN_migration rn) item err) (RN_plan rn) (RN_config rn) (RN_cancelled rn) paused
             (RN_looping rn) (RN_sending rn) (delete j (RN_active rn)))
  | Some (item, ph) =>
      let '(mc, m, ph') :=
        match ph with
        | MPrepare => migrate_prepare mc (RN_migration rn) item
        | MCopy => migrate_copy mc (RN_migration rn) item
        | _ => migrate_switch mc (RN_migration rn) item
        end in
      (mc, mkRun m (RN_plan rn) (RN_config rn) (RN_cancelled rn) (RN_paused rn) (RN_looping rn)
             (RN_sending rn) (<[j := (item, ph')]> (RN_active rn)))
  end.

Definition MigrationController_CancelMigration (mc : MigrationController) : MigrationController * (bool * string) :=
  match MC_current mc, MC_migration mc with
  | Some i, Some rn =>
      if running (RN_migration rn) then
        (MC_set_runs mc (<[i := mkRun (MG_set_status (RN_migration rn) "cancelled") (RN_plan rn) (RN_config rn) true
           (RN_paused rn) (RN_looping rn) (RN_sending rn) (RN_active rn)]> (MC_runs mc)), (true, "migration cancelled"))
      else (mc, (false, "no migration in progress"))
  | _, _ => (mc, (false, "no migration in progress"))
  end.

Record GetMigrationStatusResponse := mkGetMigrationStatusResponse {
  GM_InProgress : bool;
  GM_MigrationId : string;
  GM_TotalPartitions : Z;
  GM_CompletedPartitions : Z;
  GM_FailedPartitions : Z;
  GM_BytesCopied : Z;
  GM_BytesTotal : Z;
  GM_PartitionStatus : list PartitionMigrationState
}.

Definition MigrationController_GetMigrationStatus (mc : MigrationController) : GetMigrationStatusResponse :=
  match MC_migration mc with
  | None => mkGetMigrationStatusResponse false "" 0 0 0 0 0 []
  | Some rn =>
      let m := RN_migration rn in
      mkGetMigrationStatusResponse (running m) (MG_ID m) (MG_TotalPartitions m) (MG_CompletedPartitions m)
        (MG_FailedPartitions m) (MG_BytesCopied m) (MG_BytesTotal m) (map_to_list (MG_Partitions m)).*2
  end.

Definition MigrationController_Close (mc : MigrationController) : MigrationController := MC_set_conns mc ∅.

End Controller.

(** ** The plan is right *)

(** The role an item moves, and where. *)
Definition misplaced (hashRing : ConsistentHash) (addrs : list string) (table : RouteTable) (item : MigrationPlanItem) :
    Prop :=
  ∃ p, RT_Partitions table !! PL_PartitionID item = Some p ∧
  let '(newPrimary, newReplica) := ConsistentHash_GetNodes hashRing (PL_PartitionID item) in
  if PL_IsPrimary item then
    RP_Primary p ≠ newPrimary ∧ PL_SourceNode item = RP_Primary p ∧ PL_TargetNode item = newPrimary ∧
    PL_Priority item = (if decide (RP_Primary p ∈ addrs) then PRIORITY_NORMAL else PRIORITY_HIGH)
  else
    RP_Replica p ≠ newReplica ∧ RP_Primary p ≠ newReplica ∧ PL_SourceNode item = RP_Replica p ∧
    PL_TargetNode item = newReplica ∧
    PL_Priority item = (if decide (RP_Replica p ∈ addrs) then PRIORITY_LOW else PRIORITY_NORMAL).

Lemma elem_of_plan_row hashRing addrs k p item :
  item ∈ plan_row hashRing addrs k p ↔
  PL_PartitionID item = k ∧
  let '(newPrimary, newReplica) := ConsistentHash_GetNodes hashRing k in
  if PL_IsPrimary item then
    RP_Primary p ≠ newPrimary ∧ PL_SourceNode item = RP_Primary p ∧ PL_TargetNode item = newPrimary ∧
    PL_Priority item = (if decide (RP_Primary p ∈ addrs) then PRIORITY_NORMAL else PRIORITY_HIGH)
  else
    RP_Replica p ≠ newReplica ∧ RP_Primary p ≠ newReplica ∧ PL_SourceNode item = RP_Replica p ∧
    PL_TargetNode item = newReplica ∧
    PL_Priority item = (if decide (RP_Replica p ∈ addrs) then PRIORITY_LOW else PRIORITY_NORMAL).
Proof.
  unfold plan_row. destruct (ConsistentHash_GetNodes hashRing k) as [np nr]. rewrite elem_of_app.
  destruct item as [id src tgt prim prio]. cbn [PL_PartitionID PL_IsPrimary PL_SourceNode PL_TargetNode PL_Priority].
  assert (∀ i j : MigrationPlanItem, i ∈ [j] ↔ i = j) as Hone by set_solver.
  assert (∀ i : MigrationPlanItem, i ∈ [] ↔ False) as Hnil by set_solver.
  destruct prim; repeat (case_decide; rewrite ?Hone, ?Hnil); naive_solver.
Qed.

Lemma elem_of_concat {A} (x : A) (ls : list (list A)) : x ∈ concat ls ↔ ∃ l, x ∈ l ∧ l ∈ ls.
Proof.
  induction ls as [|l ls IH]; cbn [concat]; [set_solver|]. rewrite elem_of_app, IH. set_solver.
Qed.

(** A concatenation of lists whose elements carry their index. *)
Lemma NoDup_concat_tagged {A} (tag : A → Z) (f : Z → list A) (ks : list Z) :
  NoDup ks → (∀ k, NoDup (f k)) → (∀ k x, x ∈ f k → tag x = k) → NoDup (concat (f <$> ks)).
Proof.
  intros Hks Hf Htag. induction Hks as [|k ks Hk Hks IH]; [constructor|]. rewrite fmap_cons. cbn [concat].
  apply NoDup_app. split_and!; [done| |done]. intros x Hx (l & Hxl & Hl)%elem_of_concat.
  apply list_elem_of_fmap in Hl as (k' & -> & Hk'). apply Htag in Hx, Hxl. congruence.
Qed.

Lemma plan_row_NoDup hashRing addrs k p : NoDup (plan_row hashRing addrs k p).
Proof.
  unfold plan_row. destruct (ConsistentHash_GetNodes hashRing k) as [np nr].
  repeat case_decide; cbn; repeat constructor; set_solver.
Qed.

Section Plan.
  Context (order : RouteTable → list Z) (Horder : row_order order).
  Context (sort : list MigrationPlanItem → list MigrationPlanItem) (Hsort : sorts_plan sort).

(** C26: the plan moves exactly the misplaced roles.  With at least two nodes online, the
    items are, once each, the partitions whose primary is not the ring's, from the
    current primary to the ring's, and those whose replica is not the ring's, from
    the current replica to the ring's, unless the ring's replica is the current
    primary.  Higher priorities come first:
    primaries on nodes that are not online; then the other primaries, with the
    replicas on nodes that are not online; then the other replicas. *)
Theorem plan_moves_misplaced_roles (table : RouteTable) (nodes : list NodeInfo) :
  let online := filter (λ node, NI_Status node = NodeStatusOnline) nodes in
  MinReplicaNodes ≤ len online →
  let addrs := NI_Addr <$> online in
  let plan := MigrationController_calculateMigrationPlan order sort table nodes in
  (∀ item, item ∈ plan ↔ misplaced (build_ring addrs) addrs table item) ∧ NoDup plan ∧
  StronglySorted (λ a b, MigrationPriority_num (PL_Priority b) ≤ MigrationPriority_num (PL_Priority a)) plan.
Proof.
  intros online Hlen addrs. cbv zeta. unfold MigrationController_calculateMigrationPlan. fold online.
  destruct (Z.ltb_spec (len online) MinReplicaNodes); [lia|]. fold addrs. split_and!; [| |apply Hsort].
  2:{ rewrite (proj1 (Hsort _)). apply (NoDup_concat_tagged PL_PartitionID).
      - apply Horder.
      - intros k. destruct (RT_Partitions table !! k); [apply plan_row_NoDup|constructor].
      - intros k x. destruct (RT_Partitions table !! k); [|by intros Hx%elem_of_nil].
        intros Hx. by apply elem_of_plan_row in Hx as [? _]. }
  intros item. rewrite (proj1 (Hsort _)). rewrite elem_of_concat. unfold misplaced. split.
  - intros (items & Hitem & Hin). apply list_elem_of_fmap in Hin as (k & -> & Hk).
    destruct (RT_Partitions table !! k) as [p|] eqn:Hp; [|by apply elem_of_nil in Hitem].
    apply elem_of_plan_row in Hitem as [<- Hitem]. exists p. by split.
  - intros (p & Hp & Hrow). eexists. split; [|apply list_elem_of_fmap; exists (PL_PartitionID item); split; [done|]].
    + rewrite Hp. apply elem_of_plan_row. by split.
    + apply Horder. eauto.
Qed.

(** An empty plan, by rows. *)
Lemma plan_row_nil hashRing addrs k p :
  let '(np, nr) := ConsistentHash_GetNodes hashRing k in
  np ≠ nr → plan_row hashRing addrs k p = [] ↔ RP_Primary p = np ∧ RP_Replica p = nr.
Proof.
  unfold plan_row. destruct (ConsistentHash_GetNodes hashRing k) as [np nr]. intros Hne.
  destruct (decide (RP_Primary p = np)) as [Hp|Hp].
  - rewrite (decide_False (P := RP_Primary p ≠ np)) by tauto. destruct (decide (RP_Replica p = nr)) as [Hr|Hr].
    + rewrite (decide_False (P := RP_Replica p ≠ nr ∧ RP_Primary p ≠ nr)) by tauto. done.
    + rewrite (decide_True (P := RP_Replica p ≠ nr ∧ RP_Primary p ≠ nr)) by (split; congruence).
      split; [done|by intros [_ ?]].
  - rewrite (decide_True (P := RP_Primary p ≠ np)) by done.
    case_decide; cbn; (split; [done|by intros [? _]]).
Qed.

Lemma plan_nil_iff (table : RouteTable) (nodes : list NodeInfo) :
  let online := filter (λ node, NI_Status node = NodeStatusOnline) nodes in
  let ring := build_ring (NI_Addr <$> online) in
  MinReplicaNodes ≤ len online →
  (∀ k, (ConsistentHash_GetNodes ring k).1 ≠ (ConsistentHash_GetNodes ring k).2) →
  MigrationController_calculateMigrationPlan order sort table nodes = [] ↔
  ∀ k p, RT_Partitions table !! k = Some p → (RP_Primary p, RP_Replica p) = ConsistentHash_GetNodes ring k.
Proof.
  intros online ring Hlen Hsep. unfold MigrationController_calculateMigrationPlan. fold online.
  destruct (Z.ltb_spec (len online) MinReplicaNodes); [lia|]. fold ring.
  assert (∀ l, sort l = [] ↔ l = []) as Hnil.
  { intros l. destruct (Hsort l) as [Hp _]. split; intros Heq.
    - rewrite Heq in Hp. by apply Permutation_nil in Hp.
    - subst l. symmetry in Hp. by apply Permutation_nil in Hp. }
  rewrite Hnil, concat_nil_Forall, Forall_fmap, Forall_forall. split.
  - intros Hall k p Hp. specialize (Hall k ltac:(apply Horder; eauto)). cbv beta in Hall. cbn in Hall. rewrite Hp in Hall.
    specialize (Hsep k). pose proof (plan_row_nil ring (NI_Addr <$> online) k p) as Hrow.
    destruct (ConsistentHash_GetNodes ring k) as [np nr]. cbn in Hsep. apply Hrow in Hall as [-> ->]; done.
  - intros Hall k Hk. cbn. destruct (RT_Partitions table !! k) as [p|] eqn:Hp; [|done].
    specialize (Hall k p Hp). specialize (Hsep k). pose proof (plan_row_nil ring (NI_Addr <$> online) k p) as Hrow.
    destruct (ConsistentHash_GetNodes ring k) as [np nr]. cbn in Hsep. apply Hrow; [done|]. by simplify_eq.
Qed.

End Plan.

(** ** Convergence *)

(** The row after the items of a plan, each completed in turn. *)
Definition apply_items (p : RoutePartition) (items : list MigrationPlanItem) : RoutePartition :=
  foldl (λ p item, migrated_partition p (PL_TargetNode item) (PL_IsPrimary item)) p items.

Lemma one_pass hashRing addrs k p :
  let '(np, nr) := ConsistentHash_GetNodes hashRing k in
  np ≠ nr →
  let p1 := apply_items p (plan_row hashRing addrs k p) in
  RP_Primary p1 = np ∧
  RP_Replica p1 = if decide (RP_Primary p ≠ np ∧ RP_Replica p = nr) then RP_Primary p else nr.
Proof.
  unfold plan_row, apply_items. destruct (ConsistentHash_GetNodes hashRing k) as [np nr]. intros Hne. cbv zeta.
  rewrite foldl_app. destruct (decide (RP_Primary p = np)) as [Hp|Hp].
  - rewrite (decide_False (P := RP_Primary p ≠ np)) by tauto.
    rewrite (decide_False (P := RP_Primary p ≠ np ∧ RP_Replica p = nr)) by tauto. cbn [foldl].
    case_decide as Hr; cbn; [done|]. split; [done|]. destruct (decide (RP_Replica p = nr)); [done|].
    exfalso. apply Hr. split; congruence.
  - rewrite (decide_True (P := RP_Primary p ≠ np)) by done.
    set (p1 := foldl _ p _). assert (RP_Primary p1 = np ∧ RP_Replica p1 = RP_Primary p) as [Hp1 Hr1].
    { unfold p1. case_decide as Hrn; cbn [foldl migrated_partition PL_TargetNode PL_IsPrimary RP_Primary RP_Replica].
      - rewrite Hrn. by rewrite decide_True.
      - by rewrite decide_True. }
    case_decide as Hr; cbn [foldl migrated_partition PL_TargetNode PL_IsPrimary RP_Primary RP_Replica].
    + rewrite decide_False by tauto. done.
    + split; [done|]. rewrite Hr1. case_decide as Hd; [done|]. destruct (decide (RP_Primary p = nr)); [done|].
      exfalso. tauto.
Qed.

(** A rebalancing converges in two passes.  Completing the items of a row
    puts its primary on the ring's primary, and its replica on the ring's replica,
    except when the replica was right and the primary was not: the switch of the
    primary then makes the old primary the replica.  The items of the plan
    calculated for that row put both where the ring wants them. *)
Lemma plan_converges hashRing addrs k p :
  let '(np, nr) := ConsistentHash_GetNodes hashRing k in
  np ≠ nr →
  let p1 := apply_items p (plan_row hashRing addrs k p) in
  let p2 := apply_items p1 (plan_row hashRing addrs k p1) in
  RP_Primary p1 = np ∧
  RP_Replica p1 = (if decide (RP_Primary p ≠ np ∧ RP_Replica p = nr) then RP_Primary p else nr) ∧
  RP_Primary p2 = np ∧ RP_Replica p2 = nr.
Proof.
  pose proof (one_pass hashRing addrs k p) as H1.
  pose proof (one_pass hashRing addrs k (apply_items p (plan_row hashRing addrs k p))) as H2.
  destruct (ConsistentHash_GetNodes hashRing k) as [np nr]. intros Hne. cbv zeta in *.
  destruct (H1 Hne) as [Hp Hr]. destruct (H2 Hne) as [-> ->]. rewrite Hp.
  rewrite (decide_False (P := np ≠ np ∧ _)) by tauto. done.
Qed.

(** ** Runs *)

(** What can happen to a run: its executor and its goroutines move, whatever the
    controller's other state is, and it is cancelled. *)
Inductive run_step {S : Type} `{Store S} {N : Type} `{StorageNet N} : Run → Run → Prop :=
  | rs_turn rn : run_step rn (executor_turn rn)
  | rs_finish rn : run_step rn (executor_finish rn)
  | rs_goroutine (mc : @MigrationController S N) rn j : run_step rn (goroutine_step mc rn j).2
  | rs_cancel rn : running (RN_migration rn) = true →
      run_step rn (mkRun (MG_set_status (RN_migration rn) "cancelled") (RN_plan rn) (RN_config rn) true
        (RN_paused rn) (RN_looping rn) (RN_sending rn) (RN_active rn)).

(** The bookkeeping of a run of [total] items: every item is waiting, running or
    counted; a final status says what was counted. *)
Record run_inv (total : Z) (rn : Run) : Prop := {
  ri_counts : 0 ≤ MG_CompletedPartitions (RN_migration rn) ∧ 0 ≤ MG_FailedPartitions (RN_migration rn) ∧
    MG_CompletedPartitions (RN_migration rn) + MG_FailedPartitions (RN_migration rn) + len (RN_active rn) +
      len (RN_plan rn) = total;
  ri_total : MG_TotalPartitions (RN_migration rn) = total;
  ri_slots : len (RN_active rn) ≤ MCF_MaxConcurrent (RN_config rn);
  ri_loop : RN_looping rn = false → MG_Status (RN_migration rn) = "running" → RN_plan rn = [];
  ri_completed : MG_Status (RN_migration rn) = "completed" →
    RN_active rn = [] ∧ RN_plan rn = [] ∧ MG_FailedPartitions (RN_migration rn) = 0;
  ri_errors : MG_Status (RN_migration rn) = "completed_with_errors" →
    RN_active rn = [] ∧ RN_plan rn = [] ∧ 0 < MG_FailedPartitions (RN_migration rn);
  ri_done : RN_looping rn = true → MG_Status (RN_migration rn) ≠ "completed" ∧
    MG_Status (RN_migration rn) ≠ "completed_with_errors"
}.

Section Runs.
  Context {S : Type} `{Store S} {N : Type} `{StorageNet N}.

(** The phases leave everything of the migration but its byte counters and the
    state of the partition. *)
Definition same_counts (m m' : Migration) : Prop :=
  MG_CompletedPartitions m' = MG_CompletedPartitions m ∧ MG_FailedPartitions m' = MG_FailedPartitions m ∧
  MG_TotalPartitions m' = MG_TotalPartitions m ∧ MG_Status m' = MG_Status m.

Lemma copy_loop_counts send id m total i chunks :
  same_counts m (copy_loop send id m total i chunks).1.1.
Proof.
  revert m total i. induction chunks as [|chunk chunks IH]; intros m total i; cbn [copy_loop]; [done|].
  set (m1 := match MG_Partitions m !! id with Some _ => _ | None => m end).
  assert (same_counts m m1) as H1.
  { unfold m1. destruct (MG_Partitions m !! id); [|done]. by destruct (_ && _). }
  destruct (send i); [done|]. destruct (CK_IsLast chunk); [done|].
  set (m2 := MG_set_bytes _ _ _). set (t2 := i64 _). specialize (IH m2 t2 (i + 1)%nat).
  destruct (copy_loop send id m2 t2 (i + 1) chunks) as [[m3 sent] err].
  destruct H1 as (? & ? & ? & ?), IH as (? & ? & ? & ?). cbn [m2 MG_set_bytes MG_on_state MG_CompletedPartitions
    MG_FailedPartitions MG_TotalPartitions MG_Status fst] in *. split_and!; cbn [fst]; congruence.
Qed.

Lemma phase_counts (mc : MigrationController) m item ph :
  let '(_, m', _) := match ph with
    | MPrepare => migrate_prepare mc m item
    | MCopy => migrate_copy mc m item
    | _ => migrate_switch mc m item
    end in same_counts m m'.
Proof.
  assert (let '(_, m', _) := migrate_switch mc m item in same_counts m m') as Hswitch.
  { unfold migrate_switch. by destruct (Router_CompleteMigration _ _ _ _) as [r [e|]]. }
  destruct ph; [| |done..].
  - unfold migrate_prepare. destruct (Router_SetPartitionMigration _ _ _ _) as [r [e|]]; [done|].
    destruct (MigrationController_getStorageClient (MC_set_router mc r) _) as [mc1 [e|]]; [done|].
    by destruct (MigrationController_getStorageClient mc1 _) as [mc2 [e|]].
  - unfold migrate_copy. set (m1 := MG_on_state m _ _). destruct (net_export _ _ _) as [net [chunks|e]]; [|done].
    destruct (net_ingest_start net _); [done|].
    pose proof (copy_loop_counts (net_send net (PL_TargetNode item)) (PL_PartitionID item) m1 0 0 chunks) as Hc.
    destruct (copy_loop _ _ m1 0 0 chunks) as [[m2 sent] err]. destruct err; [done|].
    destruct (net_ingest net _ sent) as [net2 [[]|e]]; done.
Qed.

Lemma finish_status_counts m :
  MG_CompletedPartitions (finish_status m) = MG_CompletedPartitions m ∧
  MG_FailedPartitions (finish_status m) = MG_FailedPartitions m ∧
  MG_TotalPartitions (finish_status m) = MG_TotalPartitions m.
Proof. unfold finish_status. by destruct (running m). Qed.

Lemma running_true m : running m = true ↔ MG_Status m = "running".
Proof. unfold running. apply bool_decide_eq_true. Qed.

Lemma executor_turn_inv total rn : run_inv total rn → run_inv total (executor_turn rn).
Proof.
  intros [Hc Ht Hs Hl Hco Her Hd]. unfold executor_turn.
  destruct (RN_looping rn) eqn:Hloop; cbn [negb]; [|split; auto; congruence].
  destruct (RN_plan rn) as [|item rest] eqn:Hplan.
  { split; cbn; rewrite ?Hplan; auto; congruence. }
  destruct (Hd eq_refl) as [Hd1 Hd2]. destruct (RN_sending rn).
  { destruct (Z.ltb_spec (len (RN_active rn)) (MCF_MaxConcurrent (RN_config rn)));
      [|split; rewrite ?Hplan, ?Hloop; auto; done].
    split; cbn; auto; try done; rewrite len_app; change (len [(item, MPrepare)]) with 1; [|lia].
    rewrite len_cons in Hc. lia. }
  destruct (RN_cancelled rn) eqn:Hcan.
  { unfold finish_status, running. cbn. rewrite bool_decide_eq_false_2 by done.
    split; cbn; rewrite ?Hplan; auto; done. }
  destruct (_ && _).
  all: split; cbn; rewrite ?Hplan; auto; done.
Qed.

Lemma executor_finish_inv total rn : run_inv total rn → run_inv total (executor_finish rn).
Proof.
  intros Hinv. pose proof Hinv as [Hc Ht Hs Hl Hco Her Hd]. unfold executor_finish.
  destruct (RN_looping rn) eqn:Hloop; [done|]. destruct (RN_active rn) eqn:Hact; [|done].
  unfold finish_status, running. case_bool_decide as Hrun; [|split; cbn; rewrite ?Hact, ?Hloop; auto; done].
  specialize (Hl eq_refl Hrun). destruct (Z.ltb_spec 0 (MG_FailedPartitions (RN_migration rn)));
    split; cbn; rewrite ?Hact, ?Hloop; auto; try done; intros _; split_and!; done || lia.
Qed.

Lemma goroutine_step_inv total (mc : MigrationController) rn j :
  total < 2 ^ 31 → run_inv total rn → run_inv total (goroutine_step mc rn j).2.
Proof.
  intros Htot Hinv. pose proof Hinv as [Hc Ht Hs Hl Hco Her Hd]. unfold goroutine_step.
  destruct (RN_active rn !! j) as [[item ph]|] eqn:Hj; [|done].
  assert (RN_active rn ≠ []) as Hne by (intros Hnil; rewrite Hnil in Hj; done).
  assert (MG_Status (RN_migration rn) ≠ "completed" ∧ MG_Status (RN_migration rn) ≠ "completed_with_errors")
    as [Hn1 Hn2] by (split; intros Hst; [apply Hco in Hst|apply Her in Hst]; tauto).
  assert (len (delete j (RN_active rn)) = len (RN_active rn) - 1) as Hdel.
  { apply delete_Permutation in Hj as Hperm. unfold len. rewrite Hperm at 2. cbn [length]. lia. }
  pose proof (len_nonneg (RN_plan rn)). pose proof (len_nonneg (delete j (RN_active rn))).
  assert (match ph with MEnd _ => False | _ => True end → run_inv total (
    let '(mc', m, ph') := match ph with
        | MPrepare => migrate_prepare mc (RN_migration rn) item
        | MCopy => migrate_copy mc (RN_migration rn) item
        | _ => migrate_switch mc (RN_migration rn) item
        end in
      (mc', mkRun m (RN_plan rn) (RN_config rn) (RN_cancelled rn) (RN_paused rn) (RN_looping rn)
             (RN_sending rn) (<[j := (item, ph')]> (RN_active rn)))).2) as Hmove.
  { intros _. pose proof (phase_counts mc (RN_migration rn) item ph) as Hp.
    destruct (match ph with MPrepare => _ | _ => _ end) as [[mc' m'] ph'].
    destruct Hp as (Hp1 & Hp2 & Hp3 & Hp4). cbn [snd]. split; cbn; rewrite ?Hp1, ?Hp2, ?Hp3, ?Hp4; auto; try done.
    - unfold len in *. by rewrite length_insert.
    - unfold len in *. by rewrite length_insert. }
  destruct ph as [| | |err]; [by apply Hmove..|]. clear Hmove. cbn [snd].
  destruct err as [err|]; split; cbn; auto; try done; rewrite ?Hdel; try lia.
  - rewrite i32_small; lia.
  - rewrite i32_small; lia.
Qed.

Lemma run_steps_inv total rn rn' :
  total < 2 ^ 31 → rtc run_step rn rn' → run_inv total rn → run_inv total rn'.
Proof.
  intros Htot. induction 1 as [|x y z Hxy _ IH]; [done|]. intros Hinv. apply IH. destruct Hxy as [rn|rn|mc rn j|rn Hrun].
  - by apply executor_turn_inv.
  - by apply executor_finish_inv.
  - by apply goroutine_step_inv.
  - destruct Hinv as [Hc Ht Hs Hl Hco Her Hd]. split; cbn; auto; done.
Qed.

(** C27: the books of a migration balance.  From its start, whatever storage
    nodes, store and router answer and however its goroutines interleave: every
    item of the plan is waiting, running, completed or failed; no more than the
    configured number run at once; and the status "completed" is reached only when
    every item was completed, "completed_with_errors" only when every item has
    ended and one has failed. *)
Theorem migration_books_balance (id : string) (plan : list MigrationPlanItem) (config : MigrationConfig) (rn : Run) :
  len plan < 2 ^ 31 → 0 ≤ MCF_MaxConcurrent config →
  rtc run_step (started_run id plan config) rn →
  run_inv (len plan) rn ∧
  (MG_Status (RN_migration rn) = "completed" → MG_CompletedPartitions (RN_migration rn) = len plan) ∧
  (MG_Status (RN_migration rn) = "completed_with_errors" →
     MG_CompletedPartitions (RN_migration rn) + MG_FailedPartitions (RN_migration rn) = len plan).
Proof.
  intros Hlt Hmax Hrun.
  assert (run_inv (len plan) (started_run id plan config)) as Hinv0.
  { pose proof (len_nonneg plan). split; cbn; auto; try done; rewrite ?i32_small; lia || done. }
  pose proof (run_steps_inv _ _ rn Hlt Hrun Hinv0) as Hinv. split; [done|].
  destruct Hinv as [(Hc1 & Hc2 & Hc) Ht Hs Hl Hco Her Hd].
  split; intros Hst; [destruct (Hco Hst) as (Ha & Hp & Hf)|destruct (Her Hst) as (Ha & Hp & Hf)];
    rewrite Ha, Hp in Hc; change (len []) with 0 in Hc; lia.
Qed.

End Runs.

(** ** When the cluster counts as balanced *)

Lemma size_list_to_set_le (l : list string) : (size (list_to_set l : gset string) ≤ length l)%nat.
Proof.
  induction l as [|a l IH]; [done|]. cbn [list_to_set length]. rewrite size_union_alt, size_singleton.
  assert (size (list_to_set l ∖ {[a]} : gset string) ≤ size (list_to_set l : gset string))%nat
    by (apply subseteq_size; set_solver). lia.
Qed.

Section Balanced.
  Context {S : Type} `{Store S} {N : Type} `{StorageNet N}.
  Context (order : RouteTable → list Z) (Horder : row_order order).
  Context (sort : list MigrationPlanItem → list MigrationPlanItem) (Hsort : sorts_plan sort).

(** A request to rebalance is answered with "already balanced", and nothing
    is started, exactly when every partition is on the two nodes the ring of the
    online nodes gives it (for online nodes with at least two addresses whose
    virtual nodes do not collide). *)
Lemma already_balanced_iff (mc : @MigrationController S N) id bandwidth concurrent nodes :
  MC_busy mc = false → (ListNodes (R_store (MC_router mc)) NodeRoleStorage).2 = Ok nodes →
  let online := filter (λ node, NI_Status node = NodeStatusOnline) (merge_sort node_le nodes) in
  let addrs := NI_Addr <$> online in
  collision_free DefaultVirtualNodes addrs → "" ∉ addrs → (2 ≤ size (list_to_set addrs : gset string))%nat →
  let '(mc', resp) := MigrationController_TriggerRebalance order sort mc id false bandwidth concurrent in
  TR_Success resp = true ∧
  (MC_runs mc' = MC_runs mc ↔ TR_Message resp = "cluster is already balanced") ∧
  (TR_Message resp = "cluster is already balanced" ↔
   ∀ k p, RT_Partitions (R_routeTable (MC_router mc)) !! k = Some p →
     (RP_Primary p, RP_Replica p) = ConsistentHash_GetNodes (build_ring addrs) k).
Proof.
  intros Hbusy Hnodes online addrs Hcf Hempty Hsize.
  assert (MinReplicaNodes ≤ len online) as Honline.
  { assert (size (list_to_set addrs : gset string) ≤ length addrs)%nat as Hle by apply size_list_to_set_le.
    unfold addrs in Hle at 2. rewrite length_fmap in Hle. unfold MinReplicaNodes, len. lia. }
  assert (MinReplicaNodes ≤ len nodes) as Hlen.
  { assert (len online ≤ len nodes); [|lia]. unfold len, online. apply inj_le.
    rewrite <- (Permutation_length (merge_sort_Permutation node_le nodes)). apply length_filter. }
  unfold MigrationController_TriggerRebalance. rewrite Hbusy.
  destruct (ListNodes _ _) as [s res]. cbn in Hnodes. subst res.
  destruct (Z.ltb_spec (len nodes) MinReplicaNodes); [lia|].
  cbn [MC_set_router MC_router R_set_store Router_GetRouteTable R_routeTable]. unfold Router_GetRouteTable. cbn [R_set_store R_routeTable].
  pose proof (plan_nil_iff order Horder sort Hsort (R_routeTable (MC_router mc)) (merge_sort node_le nodes)) as Hnil.
  cbv zeta in Hnil. fold online addrs in Hnil. specialize (Hnil Honline).
  destruct (build_ring_exact addrs Hcf) as [Hx Hmem].
  destruct Hnil as [Hnil1 Hnil2].
  { intros k. pose proof (GetNodes_members (build_ring addrs) k Hx) as Hm. rewrite Hmem in Hm.
      specialize (Hm Hsize ltac:(by rewrite elem_of_list_to_set)).
      destruct (ConsistentHash_GetNodes (build_ring addrs) k). tauto. }
  set (plan := MigrationController_calculateMigrationPlan _ _ _ _).
  destruct (Z.eqb_spec (len plan) 0) as [Hz|Hz]; cbn [andb negb].
  - assert (plan = []) as Hplan by (destruct plan; [done|rewrite len_cons in Hz; pose proof (len_nonneg plan); lia]).
    split_and!; [done..|]. split; [intros _; by apply Hnil1|done].
  - assert (plan ≠ []) as Hplan by (intros Heq; rewrite Heq in Hz; done). split; [done|]. cbn [TR_Message MC_runs].
    split; [|split; [done|intros Hall; by destruct Hplan; apply Hnil2]]. split; [|done]. intros Heq%(f_equal length). rewrite length_app in Heq. cbn in Heq. lia.
Qed.

End Balanced.

(** ** Broken exports *)

(** The storage nodes behind their addresses.  An error of an export reaches the
    caller as the end of the stream; a node that is not there is an export without
    chunks and an ingestion that fails. *)
Record StorageCluster (D : Type) := mkStorageCluster {
  SC_servers : gmap string (StorageServer.Server D);
  SC_export : ExportEnv;
  SC_ingest : IngestEnv
}.
Arguments mkStorageCluster {D} _ _ _.
Arguments SC_servers {D} _.
Arguments SC_export {D} _.
Arguments SC_ingest {D} _.

#[global] Instance StorageCluster_net {D} `{Engine D, !SstEngine D} : StorageNet (StorageCluster D) := {|
  net_dial _ _ := None;
  net_export c addr id :=
    match SC_servers c !! addr with
    | None => (c, Ok [])
    | Some s =>
        let '(s, sent, _) := Server_ExportSST s (SC_export c) id in
        (mkStorageCluster (<[addr := s]> (SC_servers c)) (SC_export c) (SC_ingest c), Ok sent)
    end;
  net_ingest_start _ _ := None;
  net_send _ _ _ := None;
  net_ingest c addr sent :=
    match SC_servers c !! addr with
    | None => (c, Error (Errorf "unavailable"))
    | Some s =>
        let '(s, err) := Server_IngestSST s (SC_ingest c) sent StreamEOF in
        (mkStorageCluster (<[addr := s]> (SC_servers c)) (SC_export c) (SC_ingest c),
         match err with Some e => Error e | None => Ok true end)
    end
|}.

(** A failed export loses the partition.  The error with which an export
    stream breaks is taken for its end, and the target acknowledges an empty
    stream: when the source fails before its first chunk, the migration goes on,
    the route is switched to the target, which has received nothing, and the item
    counts as completed. *)
Lemma failed_export_switches_route {S} `{StoreLaws S} {D} `{Engine D, !SstEngine D}
    (mc : @MigrationController S (StorageCluster D)) m item src src' dst err p :
  SC_servers (MC_net mc) !! PL_SourceNode item = Some src →
  SC_servers (MC_net mc) !! PL_TargetNode item = Some dst → PL_SourceNode item ≠ PL_TargetNode item →
  Server_ExportSST src (SC_export (MC_net mc)) (PL_PartitionID item) = (src', [], Some err) →
  store_ok (R_store (MC_router mc)) →
  RT_Partitions (R_routeTable (MC_router mc)) !! PL_PartitionID item = Some p →
  let '(mc1, m1, ph1) := migrate_copy mc m item in
  let '(mc2, m2, ph2) := migrate_switch mc1 m1 item in
  ph1 = MSwitch ∧ SC_servers (MC_net mc2) !! PL_TargetNode item = Some dst ∧
  (ph2 = MEnd None →
   RT_Partitions (sv_table (store_view (R_store (MC_router mc2)))) !! PL_PartitionID item =
     Some (migrated_partition p (PL_TargetNode item) (PL_IsPrimary item))).
Proof.
  intros Hsrc Hdst Hne Hexp Hok Hp. unfold migrate_copy. cbn [net_export StorageCluster_net].
  rewrite Hsrc, Hexp. cbn [net_ingest_start StorageCluster_net copy_loop]. cbn [net_ingest StorageCluster_net SC_servers].
  rewrite lookup_insert_ne, Hdst by done. rewrite IngestSST_nothing. unfold migrate_switch. cbn [MC_set_net MC_router].
  destruct (Router_CompleteMigration _ _ _ _) as [r e] eqn:Hr. destruct e as [e|].
  - split_and!; [done| |done]. cbn. apply lookup_insert_eq.
  - split_and!; [done|cbn; apply lookup_insert_eq|]. intros _.
    apply CompleteMigration_done with (p := p) in Hr as (_ & _ & _ & Ht & _); [|done..].
    cbn [MC_set_router MC_router]. rewrite Ht. cbn [RT_Partitions]. apply lookup_insert_eq.
Qed.

(** ** Examples *)

Definition priority_ge (a b : MigrationPlanItem) : Prop :=
  MigrationPriority_num (PL_Priority b) ≤ MigrationPriority_num (PL_Priority a).
#[global] Instance priority_ge_dec : RelDecision priority_ge.
Proof. intros a b. unfold priority_ge. apply _. Defined.
#[global] Instance priority_ge_trans : Transitive priority_ge.
Proof. intros a b c. unfold priority_ge. lia. Qed.
#[global] Instance priority_ge_total : Total priority_ge.
Proof. intros a b. unfold priority_ge. lia. Qed.

Definition merge_plan (l : list MigrationPlanItem) : list MigrationPlanItem := merge_sort priority_ge l.

Lemma merge_plan_ok : sorts_plan merge_plan.
Proof. intros l. split; [apply merge_sort_Permutation|]. apply (StronglySorted_merge_sort priority_ge). Qed.

(** Three online nodes and a table that is not on them. *)
Definition demo_nodes : list NodeInfo := default [] (match (ListNodes demo_store NodeRoleStorage).2 with Ok l => Some l | _ => None end).

Lemma plan_moves_misplaced_roles_witness :
  length (MigrationController_calculateMigrationPlan map_order merge_plan demo_table demo_nodes) ≠ 0%nat ∧
  ∀ item, item ∈ MigrationController_calculateMigrationPlan map_order merge_plan demo_table demo_nodes ↔
    misplaced (build_ring demo_addrs) demo_addrs demo_table item.
Proof.
  split; [vm_compute; discriminate|].
  apply (plan_moves_misplaced_roles map_order map_order_ok merge_plan merge_plan_ok demo_table demo_nodes).
  vm_compute. discriminate.
Defined.

Definition demo_misplaced : RoutePartition :=
  let '(np, nr) := ConsistentHash_GetNodes (build_ring demo_addrs) 17 in
  mkRoutePartition 17 "old" nr "normal" "" MIGRATION_NONE 1.

Lemma plan_converges_witness :
  let p1 := apply_items demo_misplaced (plan_row (build_ring demo_addrs) demo_addrs 17 demo_misplaced) in
  RP_Replica p1 = "old" ∧
  let p2 := apply_items p1 (plan_row (build_ring demo_addrs) demo_addrs 17 p1) in
  (RP_Primary p2, RP_Replica p2) = ConsistentHash_GetNodes (build_ring demo_addrs) 17.
Proof.
  pose proof (plan_converges (build_ring demo_addrs) demo_addrs 17 demo_misplaced) as Hc.
  assert (∃ np nr, ConsistentHash_GetNodes (build_ring demo_addrs) 17 = (np, nr) ∧ np ≠ nr) as (np & nr & Hg & Hne)
    by (eexists _, _; split; [vm_compute; reflexivity|discriminate]).
  rewrite Hg in Hc |- *. cbv zeta in *. destruct (Hc Hne) as (_ & _ & -> & ->). split; [vm_compute; reflexivity|done].
Defined.

Definition demo_mc : @MigrationController MemEtcd (StorageCluster MemDB) :=
  NewMigrationController None (mkRouter demo_store demo_table (build_ring demo_addrs) ∅)
    (mkStorageCluster ∅ demo_export_env demo_ingest_env).

Lemma already_balanced_iff_witness :
  let '(mc', resp) := MigrationController_TriggerRebalance map_order merge_plan demo_mc "m1" false 0 0 in
  TR_Message resp = "migration started" ∧
  (TR_Message resp = "cluster is already balanced" ↔
   ∀ k p, RT_Partitions demo_table !! k = Some p →
     (RP_Primary p, RP_Replica p) = ConsistentHash_GetNodes (build_ring demo_addrs) k).
Proof.
  pose proof (already_balanced_iff map_order map_order_ok merge_plan merge_plan_ok demo_mc "m1" 0 0 demo_nodes) as Hb.
  destruct (MigrationController_TriggerRebalance map_order merge_plan demo_mc "m1" false 0 0) as [mc' resp] eqn:Hrun.
  assert (NI_Addr <$> filter (λ node, NI_Status node = NodeStatusOnline) (merge_sort node_le demo_nodes) = demo_addrs)
    as Ha by (vm_compute; reflexivity).
  cbv zeta in Hb. rewrite Ha in Hb. split.
  - apply (f_equal (λ x, TR_Message x.2)) in Hrun. cbn [snd] in Hrun. rewrite <- Hrun. vm_compute. reflexivity.
  - apply Hb.
    + reflexivity.
    + vm_compute. reflexivity.
    + apply demo_collision_free.
    + apply (bool_decide_unpack _). vm_compute. exact I.
    + apply (bool_decide_unpack _). vm_compute. exact I.
Defined.

(** A plan of one item whose partition is copied and switched. *)
Definition demo_item : MigrationPlanItem := mkMigrationPlanItem 1 "A" "C" true PRIORITY_NORMAL.

Definition demo_moving (parts : gmap Z Partition) : @MigrationController MemEtcd (StorageCluster MemDB) :=
  NewMigrationController None demo_running
    (mkStorageCluster {[ "A" := demo_server {[ MakePartitionKey 1 (str_bytes "a") := str_bytes "1" ]} parts;
                         "C" := demo_server ∅ ∅ ]} demo_export_env demo_ingest_env).

Lemma migration_books_balance_witness :
  let rn0 := started_run "m1" [demo_item] DefaultMigrationConfig in
  let rn := executor_finish (executor_turn (goroutine_step (demo_moving ∅) (goroutine_step (demo_moving ∅)
    (goroutine_step (demo_moving ∅) (goroutine_step (demo_moving ∅) (executor_turn (executor_turn rn0)) 0).2 0).2 0).2 0).2) in
  MG_Status (RN_migration rn) = "completed" ∧ run_inv 1 rn.
Proof.
  split; [vm_compute; reflexivity|].
  apply (migration_books_balance (N := StorageCluster MemDB) (S := MemEtcd) "m1" [demo_item] DefaultMigrationConfig);
    [done|done|].
  do 2 (eapply rtc_l; [apply rs_turn|]). do 4 (eapply rtc_l; [apply (rs_goroutine (demo_moving ∅) _ 0)|]).
  eapply rtc_l; [apply rs_turn|]. eapply rtc_l; [apply rs_finish|]. apply rtc_refl.
Defined.

(** The source does not know the partition any more. *)
Lemma failed_export_switches_route_witness :
  let mc := demo_moving ∅ in
  let m := RN_migration (started_run "m1" [demo_item] DefaultMigrationConfig) in
  let '(mc1, m1, ph1) := migrate_copy mc m demo_item in
  let '(mc2, m2, ph2) := migrate_switch mc1 m1 demo_item in
  ph1 = MSwitch ∧ SC_servers (MC_net mc2) !! "C" = Some (demo_server ∅ ∅) ∧
  (ph2 = MEnd None →
   RT_Partitions (sv_table (store_view (R_store (MC_router mc2)))) !! 1 =
     Some (mkRoutePartition 1 "C" "A" "normal" "" MIGRATION_NONE 2)).
Proof.
  apply (failed_export_switches_route (demo_moving ∅) _ demo_item
    (demo_server {[ MakePartitionKey 1 (str_bytes "a") := str_bytes "1" ]} ∅)
    (demo_server {[ MakePartitionKey 1 (str_bytes "a") := str_bytes "1" ]} ∅) (demo_server ∅ ∅)
    (Errorf "partition not found") (mkRoutePartition 1 "A" "B" "normal" "" MIGRATION_NONE 1)).
  - reflexivity.
  - reflexivity.
  - done.
  - reflexivity.
  - apply demo_running_synced.
  - reflexivity.
Defined.
