(* ===== verification/ComputeRouter.v ===== *)
(** * The route cache of a compute node

    [src/pkg/compute/router.go]: the route table a compute node keeps, how it is
    filled by the subscription stream and by the periodic refresh, and the lookups
    of the request handlers.  The stream and the refresh run in goroutines of
    their own, so the messages between the metadata service and the cache are part
    of the state of the system below and every delivery is a step. *)

From S2P Require Import Prelude Keys Proto HashRing MetaStore MetaRouter MetaServer.

(** ** The cache *)

(** [RouteTable]; its rows have the fields of the message. *)
Record CRouteTable := mkCRouteTable {
  CT_Version : Z;
  CT_Partitions : gmap Z PartitionInfo
}.

Record ComputeRouter := mkComputeRouter {
  CR_metadataAddr : string;
  CR_nodeID : string;
  CR_connected : bool;                       (** [metadataConn] and [client] are set *)
  CR_cancelled : bool;                       (** [ctx] is done *)
  CR_routeTable : CRouteTable
}.

Definition CR_set_table (r : ComputeRouter) (t : CRouteTable) : ComputeRouter :=
  mkComputeRouter (CR_metadataAddr r) (CR_nodeID r) (CR_connected r) (CR_cancelled r) t.

Definition NewComputeRouter (nodeID metadataAddr : string) : ComputeRouter :=
  mkComputeRouter metadataAddr nodeID false false (mkCRouteTable 0 ∅).

(** The literal both updates build from a row of the message. *)
Definition compute_partition (p : PartitionInfo) : PartitionInfo :=
  mkPartitionInfo (PI_PartitionId p) (PI_Primary p) (PI_Replica p) (PI_Status p)
    (PI_MigrationTarget p) (PI_MigrationState p) (PI_Epoch p).

(** The range loop over the rows of a message. *)
Definition apply_rows (rows : list PartitionInfo) (m : gmap Z PartitionInfo) : gmap Z PartitionInfo :=
  foldl (λ m p, <[PI_PartitionId p := compute_partition p]> m) m rows.

(** A whole table replaces the cached one, whatever its version. *)
Definition ComputeRouter_updateRouteTable (r : ComputeRouter) (version : Z) (rows : list PartitionInfo) :
    ComputeRouter :=
  CR_set_table r (mkCRouteTable version (apply_rows rows ∅)).

(** An update of the stream is merged, unless its version is known. *)
Definition ComputeRouter_updateRouteTableFromUpdate (r : ComputeRouter) (version : Z)
    (rows : list PartitionInfo) : ComputeRouter :=
  let currentTable := CR_routeTable r in
  if version <=? CT_Version currentTable then r
  else CR_set_table r (mkCRouteTable version (apply_rows rows (CT_Partitions currentTable))).

(** [refreshRouteTable]: the metadata service is asked with the cached version;
    [None] is a failed call, [Some None] a response without a table. *)
Definition ComputeRouter_refreshRouteTable (r : ComputeRouter)
    (call : Z → option (option (Z * list PartitionInfo))) : ComputeRouter * option goerr :=
  match call (CT_Version (CR_routeTable r)) with
  | None => (r, Some (Errorf "failed to get route table"))
  | Some None => (r, None)
  | Some (Some (version, rows)) =>
      if decide (length rows = 0%nat) then (r, None)
      else (ComputeRouter_updateRouteTable r version rows, None)
  end.

(** [Start]: a failed first fetch is only logged. *)
Definition ComputeRouter_Start (r : ComputeRouter) (dial : option goerr)
    (call : Z → option (option (Z * list PartitionInfo))) : ComputeRouter * option goerr :=
  match dial with
  | Some _ => (r, Some (Errorf "failed to connect to metadata service"))
  | None =>
      let r := mkComputeRouter (CR_metadataAddr r) (CR_nodeID r) true (CR_cancelled r) (CR_routeTable r) in
      ((ComputeRouter_refreshRouteTable r call).1, None)
  end.

Definition ComputeRouter_Stop (r : ComputeRouter) : ComputeRouter :=
  mkComputeRouter (CR_metadataAddr r) (CR_nodeID r) (CR_connected r) true (CR_routeTable r).

(** The receive loop of [doSubscribe]: the updates that arrive before the stream
    breaks. *)
Definition ComputeRouter_doSubscribe (r : ComputeRouter) (stream : option (list (Z * list PartitionInfo))) :
    ComputeRouter * goerr :=
  match stream with
  | None => (r, Errorf "failed to subscribe")
  | Some updates =>
      (foldl (λ r '(version, rows), ComputeRouter_updateRouteTableFromUpdate r version rows) r updates,
       Errorf "stream error")
  end.

(** ** Lookups *)

(** Primary, replica, partition and epoch. *)
Definition ComputeRouter_GetPartitionNodesByID (r : ComputeRouter) (partitionID : Z) :
    result (string * string * Z * Z) :=
  match CT_Partitions (CR_routeTable r) !! partitionID with
  | None => Error (Errorf "partition not found in route table")
  | Some p => Ok (PI_Primary p, PI_Replica p, partitionID, PI_Epoch p)
  end.

Definition ComputeRouter_GetPartitionNodes (Sum64 : bytes → Z) (r : ComputeRouter) (key : bytes) :
    result (string * string * Z * Z) :=
  ComputeRouter_GetPartitionNodesByID r (CalculatePartition Sum64 key).

Definition ComputeRouter_GetWriteTargetsByID (r : ComputeRouter) (partitionID : Z) :
    result (list string * Z * Z) :=
  match CT_Partitions (CR_routeTable r) !! partitionID with
  | None => Error (Errorf "partition not found in route table")
  | Some p =>
      let targets := [PI_Primary p; PI_Replica p] in
      let copying := bool_decide (PI_MigrationState p = MIGRATION_COPYING)
                     || bool_decide (PI_MigrationState p = MIGRATION_CATCHUP) in
      let shadow := bool_decide (PI_MigrationTarget p ≠ "") &&
                    bool_decide (PI_MigrationTarget p ≠ PI_Primary p) &&
                    bool_decide (PI_MigrationTarget p ≠ PI_Replica p) in
      Ok ((if copying && shadow then (targets ++ [PI_MigrationTarget p])%list else targets),
          partitionID, PI_Epoch p)
  end.

Definition ComputeRouter_GetWriteTargets (Sum64 : bytes → Z) (r : ComputeRouter) (key : bytes) :
    result (list string * Z * Z) :=
  ComputeRouter_GetWriteTargetsByID r (CalculatePartition Sum64 key).

Definition ComputeRouter_IsMigrating (r : ComputeRouter) (partitionID : Z) : bool :=
  match CT_Partitions (CR_routeTable r) !! partitionID with
  | None => false
  | Some p => bool_decide (PI_MigrationState p ≠ MIGRATION_NONE) &&
              bool_decide (PI_MigrationState p ≠ MIGRATION_COMPLETE)
  end.

Definition ComputeRouter_GetRouteTable (r : ComputeRouter) : CRouteTable := CR_routeTable r.

(** ** The cache and the metadata service *)

Section System.
  Context {S : Type} `{Store S}.

(** The metadata router, the messages of the subscription stream that are under
    way, the answer to a refresh that is under way, the compute node, and (for the
    statements only) the tables the metadata router has held, the latest last. *)
Record RouteSystem := mkRouteSystem {
  RS_meta : @Router S;
  RS_stream : list (Z * list PartitionInfo);
  RS_refresh : option (Z * list PartitionInfo);
  RS_compute : ComputeRouter;
  RS_held : list RouteTable
}.

(** A later table has a greater version and every partition of the earlier one. *)
Definition follows (t t' : RouteTable) : Prop :=
  RT_Version t < RT_Version t' ∧ ids_ok t' ∧ dom (RT_Partitions t) ⊆ dom (RT_Partitions t').

(** The steps: the metadata router receives a new table from the watch, installs
    the one it has just written ([run_op_follows] below shows that the tables its
    operations write do follow the cached one), or hears of it again; the handler of a
    subscription sends the current table, registers a channel and forwards the
    tables of the channel; the stream breaks; the compute node receives an update;
    a refresh is asked for, answered or lost. *)
Inductive route_step : RouteSystem → RouteSystem → Prop :=
  | rs_watch r st rf c h t : follows (R_routeTable r) t →
      route_step (mkRouteSystem r st rf c h) (mkRouteSystem (Router_watch r t) st rf c (h ++ [t])%list)
  | rs_install r st rf c h t : follows (R_routeTable r) t →
      route_step (mkRouteSystem r st rf c h) (mkRouteSystem (Router_updateRouteTable r t) st rf c (h ++ [t])%list)
  | rs_again r st rf c h :
      route_step (mkRouteSystem r st rf c h) (mkRouteSystem (Router_watch r (R_routeTable r)) st rf c h)
  | rs_connect r st rf c h :
      route_step (mkRouteSystem r st rf c h) (mkRouteSystem r [sendRouteUpdate (R_routeTable r)] rf c h)
  | rs_subscribe r st rf c h :
      route_step (mkRouteSystem r st rf c h) (mkRouteSystem (Router_Subscribe r (CR_nodeID c)) st rf c h)
  | rs_forward r st rf c h r' t : Router_receive r (CR_nodeID c) = (r', Some t) →
      route_step (mkRouteSystem r st rf c h) (mkRouteSystem r' (st ++ [sendRouteUpdate t])%list rf c h)
  | rs_break r st rf c h :
      route_step (mkRouteSystem r st rf c h) (mkRouteSystem (Router_Unsubscribe r (CR_nodeID c)) [] rf c h)
  | rs_update r v rows st rf c h :
      route_step (mkRouteSystem r ((v, rows) :: st) rf c h)
        (mkRouteSystem r st rf (ComputeRouter_updateRouteTableFromUpdate c v rows) h)
  | rs_ask r st c h :
      route_step (mkRouteSystem r st None c h)
        (mkRouteSystem r st (Some (MetaServer_GetRouteTable r (CT_Version (CR_routeTable c)))) c h)
  | rs_answer r st resp c h :
      route_step (mkRouteSystem r st (Some resp) c h)
        (mkRouteSystem r st None (ComputeRouter_refreshRouteTable c (λ _, Some (Some resp))).1 h)
  | rs_lost r st resp c h :
      route_step (mkRouteSystem r st (Some resp) c h) (mkRouteSystem r st None c h).

(** A metadata router that has a table and no subscriber, and a compute node that
    has just been made. *)
Definition route_start (r : @Router S) (nodeID metadataAddr : string) : RouteSystem :=
  mkRouteSystem r [] None (NewComputeRouter nodeID metadataAddr) [R_routeTable r].

End System.
Arguments RouteSystem S : clear implicits.

(** ** What the cache holds *)

(** A table as a compute node stores it. *)
Definition wire_table (t : RouteTable) : CRouteTable :=
  mkCRouteTable (RT_Version t) (pb_partition <$> RT_Partitions t).

(** Rows under their own ids overwrite what they name and keep the rest. *)
Lemma apply_rows_list (l : list (Z * RoutePartition)) m :
  NoDup l.*1 → Forall (λ row, RP_ID row.2 = row.1) l →
  apply_rows ((λ row : Z * RoutePartition, pb_partition row.2) <$> l) m =
  (pb_partition <$> list_to_map l) ∪ m.
Proof.
  unfold apply_rows. revert m. induction l as [|[id p] l IH]; intros m Hnd Hid.
  { cbn. by rewrite fmap_empty, (left_id_L ∅ (∪)). }
  apply NoDup_cons in Hnd as [Hn Hnd]. apply Forall_cons in Hid as [He Hid]. cbn in He.
  rewrite fmap_cons, list_to_map_cons. cbn [foldl snd]. rewrite IH by done.
  rewrite fmap_insert, <- insert_union_l, insert_union_r.
  - rewrite pb_partition_id, He. by destruct p.
  - rewrite lookup_fmap, fmap_None. by apply not_elem_of_list_to_map_1.
Qed.

Lemma apply_rows_table t m :
  ids_ok t → apply_rows (sendRouteUpdate t).2 m = (pb_partition <$> RT_Partitions t) ∪ m.
Proof.
  intros Hid. unfold sendRouteUpdate. cbn [snd]. rewrite apply_rows_list.
  - by rewrite list_to_map_to_list.
  - apply NoDup_fst_map_to_list.
  - apply Forall_forall. intros [i p] Hin%elem_of_map_to_list. by apply (Hid i p).
Qed.

(** Merging a table over one whose partitions it covers is replacing it. *)
Lemma apply_rows_covers t t' :
  ids_ok t' → dom (RT_Partitions t) ⊆ dom (RT_Partitions t') →
  apply_rows (sendRouteUpdate t').2 (pb_partition <$> RT_Partitions t) = pb_partition <$> RT_Partitions t'.
Proof.
  intros Hid Hd. rewrite apply_rows_table by done. apply map_eq. intros i. rewrite lookup_union, !lookup_fmap.
  destruct (RT_Partitions t' !! i) eqn:E'; destruct (RT_Partitions t !! i) eqn:E; cbn; try done.
  apply elem_of_dom_2, Hd, elem_of_dom in E as [? ?]. congruence.
Qed.

(** The tables the router's operations leave in the store follow the cached one,
    when the store has the table that is cached. *)
Lemma run_op_follows {S} `{StoreLaws S} (r : @Router S) op :
  synced r → ids_ok (R_routeTable r) → 0 ≤ RT_Version (R_routeTable r) → RT_Version (R_routeTable r) + 1 < 2 ^ 64 →
  let t := sv_table (store_view (R_store (run_op r op).1)) in
  t = R_routeTable r ∨ follows (R_routeTable r) t.
Proof.
  intros [Hok Hs] Hid Hge Hlt t. destruct (run_op_post r op Hok) as (_ & _ & [Ht|(m & Hm & Ht)]).
  { left. unfold t. by rewrite Ht. }
  right. unfold t, follows. rewrite Ht, <- Hs. cbn [RT_Version RT_Partitions].
  rewrite u64_small by (unfold is_u64; lia). split_and!; [lia| |].
  - intros id p' Hp'. specialize (Hm id). cbn in Hp'. rewrite Hp' in Hm.
    destruct (RT_Partitions (R_routeTable r) !! id) as [p|] eqn:Hp; [|done].
    destruct Hm as [-> _]. by apply (Hid id p).
  - intros id [p Hp]%elem_of_dom. specialize (Hm id). rewrite Hp in Hm. apply elem_of_dom. by destruct (m !! id).
Qed.

#[global] Instance follows_trans : Transitive follows.
Proof. intros a b c (? & ? & ?) (? & ? & ?). split_and!; [lia|done|set_solver]. Qed.

(** Among tables that follow each other, the version decides which covers which. *)
Lemma follows_by_version (h : list RouteTable) t t' :
  StronglySorted follows h → t ∈ h → t' ∈ h → RT_Version t < RT_Version t' → follows t t'.
Proof.
  induction 1 as [|x h Hs IH Hx]; intros Ht Ht' Hv; [by apply not_elem_of_nil in Ht|].
  rewrite Forall_forall in Hx.
  apply elem_of_cons in Ht as [->|Ht]; apply elem_of_cons in Ht' as [->|Ht'].
  - lia.
  - by apply Hx.
  - destruct (Hx t Ht). lia.
  - by apply IH.
Qed.

Lemma follows_same_version (h : list RouteTable) t t' :
  StronglySorted follows h → t ∈ h → t' ∈ h → RT_Version t = RT_Version t' → t = t'.
Proof.
  induction 1 as [|x h Hs IH Hx]; intros Ht Ht' Hv; [by apply not_elem_of_nil in Ht|].
  rewrite Forall_forall in Hx.
  apply elem_of_cons in Ht as [->|Ht]; apply elem_of_cons in Ht' as [->|Ht']; [done| | |by apply IH].
  - destruct (Hx t' Ht'). lia.
  - destruct (Hx t Ht). lia.
Qed.

Lemma last_is_latest (h : list RouteTable) t t' :
  StronglySorted follows h → last h = Some t' → t ∈ h → t = t' ∨ follows t t'.
Proof.
  induction 1 as [|x h Hs IH Hx]; intros Hl Ht; [by apply not_elem_of_nil in Ht|].
  destruct h as [|y h].
  { cbn in Hl. simplify_eq. apply elem_of_cons in Ht as [->|Ht%not_elem_of_nil]; auto; done. }
  rewrite last_cons_cons in Hl. apply elem_of_cons in Ht as [->|Ht]; [|by apply IH].
  right. rewrite Forall_forall in Hx. by apply Hx, last_Some_elem_of.
Qed.

Lemma follows_snoc (h : list RouteTable) t t' :
  StronglySorted follows h → last h = Some t → follows t t' → StronglySorted follows (h ++ [t'])%list.
Proof.
  intros Hs Hl Hf. induction Hs as [|x h Hs IH Hx]; [done|]. cbn [app]. constructor.
  - destruct h as [|y h]; [by repeat constructor|]. by apply IH.
  - apply Forall_app. split; [done|]. apply Forall_singleton.
    destruct (last_is_latest (x :: h) x t) as [->|Hxt]; [by constructor|done|by left|done|by etrans].
Qed.

Section invariant.
  Context {S : Type} `{Store S}.
Implicit Types (sys : RouteSystem S).

(** A message of the stream is a table the metadata router has held. *)
Definition held_message (h : list RouteTable) (msg : Z * list PartitionInfo) : Prop :=
  ∃ t, t ∈ h ∧ msg = sendRouteUpdate t.

Record route_inv sys : Prop := {
  ri_last : last (RS_held sys) = Some (R_routeTable (RS_meta sys));
  ri_chain : StronglySorted follows (RS_held sys);
  ri_ids : Forall ids_ok (RS_held sys);
  ri_channels : map_Forall (λ _ ch, Forall (.∈ RS_held sys) ch) (R_subscribers (RS_meta sys));
  ri_stream : Forall (held_message (RS_held sys)) (RS_stream sys);
  ri_refresh : ∀ resp, RS_refresh sys = Some resp → resp.2 = [] ∨ held_message (RS_held sys) resp;
  ri_cache : CR_routeTable (RS_compute sys) = mkCRouteTable 0 ∅ ∨
    ∃ t, t ∈ RS_held sys ∧ CR_routeTable (RS_compute sys) = wire_table t
}.

Lemma route_start_inv r nodeID addr :
  ids_ok (R_routeTable r) → R_subscribers r = ∅ → route_inv (route_start r nodeID addr).
Proof.
  intros Hid Hs. split; cbn.
  - done.
  - by repeat constructor.
  - by repeat constructor.
  - rewrite Hs. apply map_Forall_empty.
  - constructor.
  - done.
  - by left.
Qed.

Lemma try_send_held (h : list RouteTable) ch t : Forall (.∈ h) ch → t ∈ h → Forall (.∈ h) (try_send ch t).
Proof. intros Hc Ht. unfold try_send. case_decide; [|done]. apply Forall_app. by rewrite Forall_singleton. Qed.

Lemma notify_held (h : list RouteTable) (m : gmap string (list RouteTable)) t :
  map_Forall (λ _ ch, Forall (.∈ h) ch) m → t ∈ h →
  map_Forall (λ _ ch, Forall (.∈ h) ch) ((λ ch, try_send ch t) <$> m).
Proof.
  intros Hm Ht. apply map_Forall_fmap. intros n ch Hn. cbn. apply try_send_held; [|done]. by apply (Hm n).
Qed.

(** A new table changes nothing that is under way. *)
Lemma route_inv_publish sys t (m : gmap string (list RouteTable)) :
  route_inv sys → follows (R_routeTable (RS_meta sys)) t →
  map_Forall (λ _ ch, Forall (.∈ (RS_held sys ++ [t])%list) ch) m →
  route_inv (mkRouteSystem (mkRouter (R_store (RS_meta sys)) t (R_hashRing (RS_meta sys)) m)
    (RS_stream sys) (RS_refresh sys) (RS_compute sys) (RS_held sys ++ [t])%list).
Proof.
  intros [Hl Hc Hi Hch Hst Hrf Hca] Hf Hm. split; cbn.
  - apply last_snoc.
  - by eapply follows_snoc.
  - apply Forall_app. rewrite Forall_singleton. split; [done|]. apply Hf.
  - done.
  - eapply Forall_impl; [done|]. intros msg (t0 & Ht0 & ->). exists t0. set_solver.
  - intros resp Hr. destruct (Hrf resp Hr) as [?|(t0 & Ht0 & ->)]; [by left|right; exists t0; set_solver].
  - destruct Hca as [?|(t0 & Ht0 & ?)]; [by left|right; exists t0; set_solver].
Qed.

(** A received update leaves the cache at the later of the two tables. *)
Lemma route_inv_update (h : list RouteTable) c t :
  StronglySorted follows h → Forall ids_ok h → t ∈ h →
  CR_routeTable c = mkCRouteTable 0 ∅ ∨ (∃ t0, t0 ∈ h ∧ CR_routeTable c = wire_table t0) →
  let c' := ComputeRouter_updateRouteTableFromUpdate c (sendRouteUpdate t).1 (sendRouteUpdate t).2 in
  CR_routeTable c' = CR_routeTable c ∨ CR_routeTable c' = wire_table t.
Proof.
  intros Hc Hi Ht Hca. unfold ComputeRouter_updateRouteTableFromUpdate.
  change ((sendRouteUpdate t).1) with (RT_Version t). rewrite Forall_forall in Hi. pose proof (Hi t Ht) as Hid.
  destruct (Z.leb_spec (RT_Version t) (CT_Version (CR_routeTable c))) as [|Hv]; [by left|right].
  cbn [CR_routeTable CR_set_table]. unfold wire_table. f_equal. destruct Hca as [E|(t0 & Ht0 & E)].
  - rewrite E. cbn [CT_Partitions]. rewrite apply_rows_table by done. apply (right_id_L ∅ (∪)).
  - rewrite E in Hv |- *. cbn [CT_Partitions wire_table CT_Version] in *. apply apply_rows_covers; [done|].
    by apply (follows_by_version h t0 t).
Qed.

Lemma refresh_cache c resp :
  CR_routeTable (ComputeRouter_refreshRouteTable c (λ _, Some (Some resp))).1 =
  if decide (length resp.2 = 0%nat) then CR_routeTable c else mkCRouteTable resp.1 (apply_rows resp.2 ∅).
Proof. unfold ComputeRouter_refreshRouteTable. destruct resp. cbn. by case_decide. Qed.

Lemma refresh_held c t :
  ids_ok t → RT_Partitions t ≠ ∅ →
  CR_routeTable (ComputeRouter_refreshRouteTable c (λ _, Some (Some (sendRouteUpdate t)))).1 = wire_table t.
Proof.
  intros Hid Hne. rewrite refresh_cache, apply_rows_table, (right_id_L ∅ (∪)) by done.
  rewrite decide_False; [done|]. unfold sendRouteUpdate. cbn [snd]. rewrite length_fmap, length_map_to_list.
  by intros ?%map_size_empty_inv.
Qed.

Lemma GetRouteTable_answer (r : @Router S) v :
  MetaServer_GetRouteTable r v =
    if RT_Version (R_routeTable r) <=? v then (RT_Version (R_routeTable r), []) else sendRouteUpdate (R_routeTable r).
Proof. reflexivity. Qed.

Lemma ri_current sys : route_inv sys → R_routeTable (RS_meta sys) ∈ RS_held sys.
Proof. intros Hi. apply last_Some_elem_of, Hi. Qed.

Lemma route_step_inv sys sys' : route_step sys sys' → route_inv sys → route_inv sys'.
Proof.
  intros Hstep Hi. pose proof (ri_current _ Hi) as Hcur. assert (Hi' := Hi).
  destruct Hi' as [Hl Hc Hid Hch Hst Hrf Hca].
  destruct Hstep as [r st rf c h t Hf|r st rf c h t Hf|r st rf c h|r st rf c h|r st rf c h|r st rf c h r' t Hr
    |r st rf c h|r v rows st rf c h|r st c h|r st resp c h|r st resp c h];
    cbn in Hl, Hc, Hid, Hch, Hst, Hrf, Hca, Hcur.
  - apply (route_inv_publish _ t _ Hi Hf), notify_held; [|set_solver].
    intros n ch Hn. eapply Forall_impl; [exact (Hch n ch Hn)|]. set_solver.
  - apply (route_inv_publish _ t _ Hi Hf). intros n ch Hn. eapply Forall_impl; [exact (Hch n ch Hn)|]. set_solver.
  - split; cbn; try done. by apply notify_held.
  - split; cbn; try done. repeat constructor. by exists (R_routeTable r).
  - split; cbn; try done. apply map_Forall_insert_2; [|done]. by apply try_send_held.
  - unfold Router_receive in Hr. destruct (R_subscribers r !! CR_nodeID c) as [[|t0 rest]|] eqn:E; simplify_eq.
    pose proof (Hch _ _ E) as Hq. apply Forall_cons in Hq as [Ht Hrest]. split; cbn; try done.
    + by apply map_Forall_insert_2.
    + apply Forall_app. split; [done|]. apply Forall_singleton. by exists t.
  - split; cbn; try done. by apply map_Forall_delete.
  - apply Forall_cons in Hst as [(t & Ht & E) Hst]. split; cbn; try done.
    assert (v = (sendRouteUpdate t).1 ∧ rows = (sendRouteUpdate t).2) as [-> ->] by (by rewrite <- E).
    destruct (route_inv_update h c t Hc Hid Ht Hca) as [-> | ->]; [done|right; by exists t].
  - split; cbn; try done. intros resp [= <-]. rewrite GetRouteTable_answer.
    case_match; [by left|right]. by exists (R_routeTable r).
  - split; cbn [RS_meta RS_stream RS_refresh RS_compute RS_held]; try done. rewrite refresh_cache. case_decide as Hz; [done|right].
    destruct (Hrf resp eq_refl) as [Hn|(t & Ht & ->)]; [by rewrite Hn in Hz|].
    exists t. split; [done|]. rewrite Forall_forall in Hid.
    rewrite apply_rows_table, (right_id_L ∅ (∪)) by auto. done.
  - by split.
Qed.

Lemma route_reach_inv sys sys' : rtc route_step sys sys' → route_inv sys → route_inv sys'.
Proof. induction 1; [done|]. eauto using route_step_inv. Qed.
End invariant.

(** C14: a compute node routes by tables that existed.  Whatever order the
    tables of the metadata router, the messages of the stream, its interruptions
    and the answers to refreshes come in, and whatever is dropped because a
    channel is full, the cached table is empty or is, row for row, one table the
    metadata router has held: merging an update into the cache never mixes two
    tables. *)
Theorem cache_is_a_held_table {S} `{Store S} (r : @Router S) nodeID addr sys :
  ids_ok (R_routeTable r) → R_subscribers r = ∅ → rtc route_step (route_start r nodeID addr) sys →
  CR_routeTable (RS_compute sys) = mkCRouteTable 0 ∅ ∨
  ∃ t, t ∈ RS_held sys ∧ CR_routeTable (RS_compute sys) = wire_table t.
Proof. intros Hid Hs Hr. by eapply ri_cache, route_reach_inv, route_start_inv. Qed.

(** A refresh of a cache that is behind installs the current table. *)
Lemma refresh_newer {S} `{Store S} (r : @Router S) c :
  ids_ok (R_routeTable r) → RT_Partitions (R_routeTable r) ≠ ∅ →
  CT_Version (CR_routeTable c) < RT_Version (R_routeTable r) →
  CR_routeTable (ComputeRouter_refreshRouteTable c (λ v, Some (Some (MetaServer_GetRouteTable r v)))).1 =
    wire_table (R_routeTable r).
Proof.
  intros Hid Hne Hv. set (cur := R_routeTable r) in *.
  transitivity (CR_routeTable (ComputeRouter_refreshRouteTable c (λ _, Some (Some (sendRouteUpdate cur)))).1);
    [|by apply refresh_held].
  unfold ComputeRouter_refreshRouteTable at 1. rewrite GetRouteTable_answer. fold cur.
  by rewrite (proj2 (Z.leb_gt _ _) Hv).
Qed.

(** A refresh catches up.  From every state the system reaches, a refresh
    that is asked for and answered while no new table appears leaves the compute
    node with the current table of the metadata router, unless that table has no
    partition. *)
Lemma refresh_catches_up {S} `{Store S} (r : @Router S) nodeID addr sys :
  ids_ok (R_routeTable r) → R_subscribers r = ∅ → rtc route_step (route_start r nodeID addr) sys →
  RT_Partitions (R_routeTable (RS_meta sys)) ≠ ∅ → 0 < RT_Version (R_routeTable (RS_meta sys)) →
  let c := (ComputeRouter_refreshRouteTable (RS_compute sys)
             (λ v, Some (Some (MetaServer_GetRouteTable (RS_meta sys) v)))).1 in
  CR_routeTable c = wire_table (R_routeTable (RS_meta sys)).
Proof.
  intros Hid Hs Hr Hne H0. pose proof (route_reach_inv _ _ Hr (route_start_inv r nodeID addr Hid Hs)) as Hi.
  pose proof (ri_current _ Hi) as Hcur. destruct Hi as [Hl Hc Hids _ _ _ Hca]. cbv zeta.
  set (cur := R_routeTable (RS_meta sys)) in *. rewrite Forall_forall in Hids.
  destruct (Z.leb_spec (RT_Version cur) (CT_Version (CR_routeTable (RS_compute sys)))) as [Hv|Hv].
  - unfold ComputeRouter_refreshRouteTable. rewrite GetRouteTable_answer. fold cur. rewrite (proj2 (Z.leb_le _ _) Hv).
    change (CR_routeTable (RS_compute sys) = wire_table cur).
    destruct Hca as [E|(t & Ht & E)]; rewrite E in Hv |- *; cbn in Hv; [lia|].
    destruct (last_is_latest _ t cur Hc Hl Ht) as [->|(? & _)]; [done|lia].
  - apply refresh_newer; auto.
Qed.

(** A late answer takes the cache back.  A refresh replaces the table
    without comparing versions: when the answer was given before a table appeared
    and arrives after the stream has delivered that table, the compute node
    returns to the older one and routes by it, although it knew the newer. *)
Lemma late_refresh_goes_back {S} `{Store S} (r : @Router S) c h t :
  ids_ok (R_routeTable r) → RT_Partitions (R_routeTable r) ≠ ∅ → follows (R_routeTable r) t →
  CT_Version (CR_routeTable c) < RT_Version (R_routeTable r) → CT_Partitions (CR_routeTable c) = ∅ →
  ∃ sys sys', rtc route_step (mkRouteSystem r [] None c h) sys ∧ route_step sys sys' ∧
    R_routeTable (RS_meta sys') = t ∧
    CR_routeTable (RS_compute sys) = wire_table t ∧
    CR_routeTable (RS_compute sys') = wire_table (R_routeTable r).
Proof.
  intros Hid Hne Hf Hv Hc.
  set (resp := sendRouteUpdate (R_routeTable r)).
  set (c1 := ComputeRouter_updateRouteTableFromUpdate c (RT_Version t) (sendRouteUpdate t).2).
  exists (mkRouteSystem (Router_watch r t) [] (Some resp) c1 (h ++ [t])%list),
    (mkRouteSystem (Router_watch r t) [] None (ComputeRouter_refreshRouteTable c1 (λ _, Some (Some resp))).1 (h ++ [t])%list).
  split_and!.
  - eapply rtc_l; [apply rs_ask|]. rewrite GetRouteTable_answer, (proj2 (Z.leb_gt _ _) Hv).
    eapply rtc_l; [by apply rs_watch|]. eapply rtc_l; [apply rs_connect|].
    eapply rtc_l; [apply (rs_update _ (RT_Version t) (sendRouteUpdate t).2)|]. apply rtc_refl.
  - apply rs_answer.
  - done.
  - cbn [RS_compute]. unfold c1, ComputeRouter_updateRouteTableFromUpdate. destruct Hf as (Hvt & Hidt & _).
    rewrite (proj2 (Z.leb_gt _ _)) by lia. cbn [CR_routeTable CR_set_table]. rewrite Hc, apply_rows_table by done.
    by rewrite (right_id_L ∅ (∪)).
  - by apply refresh_held.
Qed.

(** ** Examples *)

(** The table that follows [demo_table] when partition 1 is promoted. *)
Definition demo_next : RouteTable :=
  mkRouteTable 6 (match RT_Partitions demo_table !! 1 with
    | Some p => <[1 := promoted p]> (RT_Partitions demo_table) | None => ∅ end).

Lemma demo_next_follows : ids_ok demo_table ∧ follows demo_table demo_next.
Proof.
  assert (ids_ok demo_table ∧ ids_ok demo_next) as [? ?]
    by (unfold ids_ok; split; apply (bool_decide_unpack _); vm_compute; exact I).
  split; [done|]. split_and!; [done|done|]. apply (bool_decide_unpack _). vm_compute. exact I.
Qed.

Lemma cache_is_a_held_table_witness :
  ∃ sys, rtc route_step (route_start demo_running "c1" "m") sys ∧
    CT_Version (CR_routeTable (RS_compute sys)) = 6 ∧
    (CR_routeTable (RS_compute sys) = mkCRouteTable 0 ∅ ∨
     ∃ t, t ∈ RS_held sys ∧ CR_routeTable (RS_compute sys) = wire_table t).
Proof.
  assert (∃ sys, rtc route_step (route_start demo_running "c1" "m") sys ∧
    CT_Version (CR_routeTable (RS_compute sys)) = 6) as (sys & Hr & Hv).
  { eexists. split.
    - eapply rtc_l; [apply rs_connect|]. eapply rtc_l; [apply rs_subscribe|].
      eapply rtc_l; [apply (rs_watch _ _ _ _ _ demo_next), demo_next_follows|].
      eapply rtc_l; [apply rs_forward; reflexivity|]. eapply rtc_l; [apply rs_forward; reflexivity|].
      do 3 (eapply rtc_l; [apply rs_update|]). apply rtc_refl.
    - vm_compute. reflexivity. }
  exists sys. split; [exact Hr|]. split; [exact Hv|].
  apply (cache_is_a_held_table demo_running "c1" "m"); [apply demo_next_follows|reflexivity|exact Hr].
Defined.

Lemma refresh_catches_up_witness :
  CR_routeTable (ComputeRouter_refreshRouteTable (NewComputeRouter "c1" "m")
    (λ v, Some (Some (MetaServer_GetRouteTable demo_running v)))).1 = wire_table demo_table.
Proof.
  apply (refresh_catches_up demo_running "c1" "m" (route_start demo_running "c1" "m")).
  - apply demo_next_follows.
  - reflexivity.
  - apply rtc_refl.
  - apply (bool_decide_unpack _). vm_compute. exact I.
  - reflexivity.
Defined.

Lemma late_refresh_goes_back_witness :
  ∃ sys sys', rtc route_step (route_start demo_running "c1" "m") sys ∧ route_step sys sys' ∧
    R_routeTable (RS_meta sys') = demo_next ∧
    CR_routeTable (RS_compute sys) = wire_table demo_next ∧
    CR_routeTable (RS_compute sys') = wire_table demo_table.
Proof.
  apply (late_refresh_goes_back demo_running (NewComputeRouter "c1" "m") [demo_table] demo_next).
  - apply demo_next_follows.
  - apply (bool_decide_unpack _). vm_compute. exact I.
  - apply demo_next_follows.
  - reflexivity.
  - reflexivity.
Defined.
