(* ===== verification/Loops.v ===== *)
(** * Background loops

    The goroutines that repeat an operation until their context is done:
    [monitorNodes] of [src/pkg/metadata/failover.go], [subscribeRouteUpdates] and
    [periodicRefresh] of [src/pkg/compute/router.go].  What wakes a loop is a
    sequence of events, in whatever order [select] takes them. *)

From S2P Require Import Prelude Keys Proto HashRing MetaStore MetaRouter MetaServer Failover ComputeRouter.

(** ** [for { select { case <-ctx.Done(): return; case x := <-c: turn(x) } }] *)

Section SelectLoop.
  Context {A T : Type} (turn : A → T → A).

(** [None] is the end of the context; the flag says whether the loop returned. *)
Fixpoint select_loop (a : A) (events : list (option T)) : A * bool :=
  match events with
  | [] => (a, false)
  | None :: _ => (a, true)
  | Some x :: events => select_loop (turn a x) events
  end.

(** An invariant of the turns is an invariant of the loop. *)
Lemma select_loop_inv (P : A → Prop) (Q : T → Prop) :
  (∀ a x, P a → Q x → P (turn a x)) →
  ∀ events a, P a → Forall (λ e, match e with Some x => Q x | None => True end) events →
    P (select_loop a events).1.
Proof.
  intros Hturn. induction events as [|[x|] events IH]; intros a Ha Hq; cbn [select_loop]; [done| |done].
  apply Forall_cons in Hq as [Hx Hq]. by apply IH; [apply Hturn|].
Qed.

(** The events before the context ends are the turns the loop makes. *)
Lemma select_loop_turns a xs rest :
  select_loop a (map Some xs ++ None :: rest) = (foldl turn a xs, true).
Proof. revert a. induction xs as [|x xs IH]; intros a; [done|]. apply IH. Qed.

Lemma select_loop_running a xs : select_loop a (map Some xs) = (foldl turn a xs, false).
Proof. revert a. induction xs as [|x xs IH]; intros a; [done|]. apply IH. Qed.

End SelectLoop.

(** ** The failover manager *)

Section Monitor.
  Context {S : Type} `{Store S} (watch : @Router S → @Router S) (order : RouteTable → list Z).

(** [monitorNodes]: a tick carries the time [checkNodes] reads; [Start] runs it and
    [Stop] ends its context. *)
Definition FailoverManager_monitorNodes (fm : FailoverManager) (events : list (option Z)) : FailoverManager * bool :=
  select_loop (FailoverManager_checkNodes watch order) fm events.

Lemma check_nodes_sound timeout t now m nodes :
  t ≤ now → health_sound timeout t m → health_sound timeout now (check_nodes timeout now m nodes).1.
Proof.
  intros Ht Hm%(health_sound_mono _ t now); [|done]. revert m Hm.
  induction nodes as [|node nodes IH]; intros m Hm; cbn [check_nodes]; [done|].
  destruct (check_node timeout now (m !! NI_ID node) node) as [health failed] eqn:E.
  pose proof (IH (<[NI_ID node := health]> m)) as IH'. destruct (check_nodes _ _ _ _) as [m' f]. apply IH'.
  intros id h Hh Hbad. destruct (decide (id = NI_ID node)) as [->|Hne];
    [rewrite lookup_insert_eq in Hh|rewrite lookup_insert_ne in Hh by done; by eapply Hm].
  simplify_eq. unfold check_node in E. cbv zeta in E.
  match type of E with (if ?b then _ else _) = _ => destruct b eqn:Eb end; simplify_eq; cbn in *; [lia|].
  destruct (m !! NI_ID node) as [p|] eqn:Hp; cbn in *; case_match; cbn in *; try done. by eapply Hm.
Qed.

Lemma checkNodes_sound (fm : FailoverManager) t now :
  t ≤ now → health_sound (FC_HeartbeatTimeout (FM_config fm)) t (FM_nodeHealth fm) →
  health_sound (FC_HeartbeatTimeout (FM_config fm)) now
    (FM_nodeHealth (FailoverManager_checkNodes watch order fm now)) ∧
  FM_config (FailoverManager_checkNodes watch order fm now) = FM_config fm.
Proof.
  intros Ht Hm. unfold FailoverManager_checkNodes.
  destruct (ListNodes _ _) as [s [nodes|e]]; [|split; [by eapply health_sound_mono|done]].
  cbn [FM_config FM_nodeHealth FM_set_router].
  pose proof (check_nodes_sound _ t now _ nodes Ht Hm) as Hs. destruct (check_nodes _ _ _ _) as [m failed].
  by destruct (handleNodeFailures_health watch order failed
    (FM_set_health (FM_set_router fm (R_set_store (FM_router fm) s)) m)) as [-> ->].
Qed.

Lemma last_from (l : list Z) a b : List.last (a :: l) b = List.last l a.
Proof.
  revert a b. induction l as [|x l IH]; intros a b; [done|].
  change (List.last (x :: l) b = List.last (x :: l) a). by rewrite !IH.
Qed.

(** No verdict without silence.  However long the loop runs, on a clock that does
    not go back and whatever the store answers or fails to answer, every node the
    manager holds for failed had been silent for longer than the timeout at the
    last tick. *)
Lemma monitor_is_sound (ticks : list Z) t :
  StronglySorted Z.le (t :: ticks) →
  ∀ fm, health_sound (FC_HeartbeatTimeout (FM_config fm)) t (FM_nodeHealth fm) →
  let fm' := (FailoverManager_monitorNodes fm (map Some ticks)).1 in
  FM_config fm' = FM_config fm ∧
  health_sound (FC_HeartbeatTimeout (FM_config fm)) (List.last ticks t) (FM_nodeHealth fm').
Proof.
  intros Hs fm Hm. cbv zeta. unfold FailoverManager_monitorNodes. rewrite select_loop_running. cbn [fst].
  revert t fm Hs Hm. induction ticks as [|now ticks IH]; intros t fm Hs Hm; [done|].
  apply StronglySorted_inv in Hs as [Hs Hle]. apply Forall_cons in Hle as [Hle _].
  destruct (checkNodes_sound fm t now Hle Hm) as [Hm' Hc]. cbn [foldl].
  rewrite <- Hc in Hm' |- *. destruct (IH now _ Hs Hm') as [-> Hl]. split; [done|].
  by rewrite last_from.
Qed.
End Monitor.

(** ** The compute node *)

(** [subscribeRouteUpdates]: every turn is a subscription that lasts until its
    stream breaks, [None] one that could not be opened.  The pause after a broken
    stream is left out. *)
Definition ComputeRouter_subscribeRouteUpdates (r : ComputeRouter)
    (events : list (option (option (list (Z * list PartitionInfo))))) : ComputeRouter * bool :=
  select_loop (λ r stream, (ComputeRouter_doSubscribe r stream).1) r events.

(** [periodicRefresh]: an error is only logged. *)
Definition ComputeRouter_periodicRefresh (r : ComputeRouter)
    (events : list (option (Z → option (option (Z * list PartitionInfo))))) : ComputeRouter * bool :=
  select_loop (λ r call, (ComputeRouter_refreshRouteTable r call).1) r events.

Lemma update_forward r version rows :
  CT_Version (CR_routeTable r) ≤
    CT_Version (CR_routeTable (ComputeRouter_updateRouteTableFromUpdate r version rows)).
Proof. unfold ComputeRouter_updateRouteTableFromUpdate. destruct (Z.leb_spec version (CT_Version (CR_routeTable r))); cbn; lia. Qed.

(** Subscriptions never take the cache back, however often their streams break and
    whatever the updates are. *)
Lemma subscriptions_go_forward r events :
  CT_Version (CR_routeTable r) ≤ CT_Version (CR_routeTable (ComputeRouter_subscribeRouteUpdates r events).1).
Proof.
  unfold ComputeRouter_subscribeRouteUpdates.
  apply (select_loop_inv _ (λ r', CT_Version (CR_routeTable r) ≤ CT_Version (CR_routeTable r')) (λ _, True));
    [|done|by apply Forall_forall; intros [?|] _].
  intros r' [updates|] Hr _; cbn; [|done]. revert r' Hr.
  induction updates as [|[version rows] updates IH]; intros r' Hr; cbn [foldl]; [done|].
  apply IH. etrans; [exact Hr|]. apply update_forward.
Qed.

(** A compute node without a stream follows the metadata service.  Once a tick
    of the refresh is answered with a table newer than the cache, the cache is
    that table, and further ticks keep it, failed ones included, while the
    metadata router keeps its table. *)
Lemma refresh_ticks_converge {S} `{Store S} (m : @Router S) c (later : list bool) :
  ids_ok (R_routeTable m) → RT_Partitions (R_routeTable m) ≠ ∅ →
  CT_Version (CR_routeTable c) < RT_Version (R_routeTable m) →
  let answer (ok : bool) v := if ok then Some (Some (MetaServer_GetRouteTable m v)) else None in
  CR_routeTable (ComputeRouter_periodicRefresh c (map (Some ∘ answer) (true :: later))).1 =
    wire_table (R_routeTable m).
Proof.
  intros Hid Hne Hv answer. unfold ComputeRouter_periodicRefresh. cbn [map select_loop].
  pose proof (refresh_newer m c Hid Hne Hv) as H1. fold (answer true) in H1.
  change (λ v, Some (Some (MetaServer_GetRouteTable m v))) with (answer true) in H1. unfold compose at 1.
  set (c1 := (ComputeRouter_refreshRouteTable c (answer true)).1) in *. clearbody c1. revert c1 H1. clear Hv c.
  induction later as [|ok later IH]; intros c1 H1; cbn [map select_loop]; [done|].
  apply IH. unfold compose, answer. destruct ok; [|done].
  unfold ComputeRouter_refreshRouteTable. rewrite GetRouteTable_answer, H1. cbn [wire_table CT_Version].
  by rewrite (proj2 (Z.leb_le _ _)).
Qed.
