(* ===== verification/ComputeServer.v ===== *)
(** * The compute server

    [src/pkg/compute/pool.go] and [src/pkg/compute/server.go]: the pool of
    connections to storage nodes, the resolver of node ids, and the handlers of the
    client's requests, which find a partition's nodes in the route cache and
    forward the request.

    gRPC is the class [StorageRPC]: connections with their state, and the storage
    service's methods called through a connection.  A call returns [None] when it
    fails (a deadline, a broken connection), in which case the node may or may not
    have executed it. *)

From S2P Require Import Prelude Engine Keys FieldCodec FieldStorage CommandLog Proto Partitions StorageServer Replication MetaStore ComputeRouter.

(** ** The connections *)

Class StorageRPC (N : Type) := {
  conn_GetState : N → Z → Z;
  grpc_Dial : N → string → N * result Z;
  conn_Close : N → Z → N;
  rpc_write : N → Z → write_req → Z → Z → N * option write_response;
  rpc_Get : N → Z → bytes → Z → N * option read_response;
  rpc_GetField : N → Z → bytes → bytes → Z → N * option read_response;
  rpc_GetAllFields : N → Z → bytes → Z → N * option (gmap bytes bytes * bool * ErrorCode)
}.

(** [codes] of package connectivity: [Shutdown]. *)
Definition conn_Shutdown : Z := 4.

Record PoolConfig := mkPoolConfig {
  PC_MaxConnsPerHost : Z;
  PC_IdleTimeout : Z;
  PC_DialTimeout : Z;
  PC_KeepAliveTime : Z;
  PC_KeepAliveTimeout : Z
}.

(** Durations in seconds. *)
Definition DefaultPoolConfig : PoolConfig := mkPoolConfig 10 300 5 10 5.

Record ConnectionPool := mkConnectionPool { CP_config : PoolConfig; CP_conns : gmap string Z }.

Definition CP_set_conns (p : ConnectionPool) (conns : gmap string Z) : ConnectionPool :=
  mkConnectionPool (CP_config p) conns.

Definition NewConnectionPool (config : option PoolConfig) : ConnectionPool :=
  mkConnectionPool (default DefaultPoolConfig config) ∅.

Definition ConnectionPool_Size (p : ConnectionPool) : Z := Z.of_nat (size (CP_conns p)).

(** ** Node addresses *)

Record NodeResolver := mkNodeResolver { NR_cache : gmap string string }.

Definition NewNodeResolver : NodeResolver := mkNodeResolver ∅.

(** The address of a node is its id. *)
Definition NodeResolver_ResolveAddr (r : NodeResolver) (nodeID : string) : NodeResolver * string :=
  match NR_cache r !! nodeID with
  | Some addr => (r, addr)
  | None => (mkNodeResolver (<[nodeID := nodeID]> (NR_cache r)), nodeID)
  end.

Definition NodeResolver_InvalidateCache (r : NodeResolver) (nodeID : string) : NodeResolver :=
  mkNodeResolver (delete nodeID (NR_cache r)).

(** ** The server *)

Record ServerConfig := mkServerConfig {
  SC_NodeID : string;
  SC_ListenAddr : string;
  SC_MetadataAddr : string;
  SC_Pool : option PoolConfig
}.

Definition DefaultServerConfig : ServerConfig :=
  mkServerConfig "compute-1" ":8000" "localhost:9000" (Some DefaultPoolConfig).

Record ComputeServer := mkComputeServer {
  CS_config : ServerConfig;
  CS_router : ComputeRouter;
  CS_pool : ConnectionPool;
  CS_nodeResolver : NodeResolver
}.

Definition CS_set_router (s : ComputeServer) (r : ComputeRouter) : ComputeServer :=
  mkComputeServer (CS_config s) r (CS_pool s) (CS_nodeResolver s).
Definition CS_set_pool (s : ComputeServer) (p : ConnectionPool) : ComputeServer :=
  mkComputeServer (CS_config s) (CS_router s) p (CS_nodeResolver s).
Definition CS_set_resolver (s : ComputeServer) (r : NodeResolver) : ComputeServer :=
  mkComputeServer (CS_config s) (CS_router s) (CS_pool s) r.

Definition NewComputeServer (config : option ServerConfig) : ComputeServer :=
  let config := default DefaultServerConfig config in
  mkComputeServer config (NewComputeRouter (SC_NodeID config) (SC_MetadataAddr config))
    (NewConnectionPool (SC_Pool config)) NewNodeResolver.

(** [Start] up to [Serve]. *)
Definition ComputeServer_Start (s : ComputeServer) (dial : option goerr)
    (call : Z → option (option (Z * list PartitionInfo))) (listen : option goerr) :
    ComputeServer * option goerr :=
  let '(r, err) := ComputeRouter_Start (CS_router s) dial call in
  let s := CS_set_router s r in
  match err with
  | Some _ => (s, Some (Errorf "failed to start router"))
  | None => (s, match listen with Some _ => Some (Errorf "failed to listen") | None => None end)
  end.

Section Handlers.
  Context {N : Type} `{StorageRPC N}.
  Variable Sum64 : bytes → Z.

(** ** The pool *)

Definition ConnectionPool_dial (net : N) (addr : string) : N * result Z :=
  match grpc_Dial net addr with
  | (net, Ok conn) => (net, Ok conn)
  | (net, Error _) => (net, Error (Errorf "failed to dial"))
  end.

(** The part of [getConn] under the write lock. *)
Definition getConn_create (p : ConnectionPool) (net : N) (addr : string) : ConnectionPool * N * result Z :=
  match CP_conns p !! addr with
  | Some conn => (p, net, Ok conn)
  | None =>
      match ConnectionPool_dial net addr with
      | (net, Error e) => (p, net, Error e)
      | (net, Ok conn) => (CP_set_conns p (<[addr := conn]> (CP_conns p)), net, Ok conn)
      end
  end.

Definition ConnectionPool_getConn (p : ConnectionPool) (net : N) (addr : string) :
    ConnectionPool * N * result Z :=
  match CP_conns p !! addr with
  | Some conn =>
      if negb (conn_GetState net conn =? conn_Shutdown) then (p, net, Ok conn)
      else getConn_create (CP_set_conns p (delete addr (CP_conns p))) net addr
  | None => getConn_create p net addr
  end.

(** A storage client is its connection. *)
Definition ConnectionPool_GetStorageClient (p : ConnectionPool) (net : N) (addr : string) :
    ConnectionPool * N * result Z :=
  ConnectionPool_getConn p net addr.

Definition ConnectionPool_RemoveConn (p : ConnectionPool) (net : N) (addr : string) : ConnectionPool * N :=
  match CP_conns p !! addr with
  | Some conn => (CP_set_conns p (delete addr (CP_conns p)), conn_Close net conn)
  | None => (p, net)
  end.

Definition ConnectionPool_Close (p : ConnectionPool) (net : N) : ConnectionPool * N :=
  (CP_set_conns p ∅, foldl (λ net row, conn_Close net row.2) net (map_to_list (CP_conns p))).

Definition ComputeServer_Stop (s : ComputeServer) (net : N) : ComputeServer * N :=
  let s := CS_set_router s (ComputeRouter_Stop (CS_router s)) in
  let '(p, net) := ConnectionPool_Close (CS_pool s) net in
  (CS_set_pool s p, net).

(** ** One request to one node *)

(** How every [do...] function starts: resolve the node, get its client. *)
Definition storage_client (s : ComputeServer) (net : N) (nodeID : string) : ComputeServer * N * result Z :=
  let '(nr, addr) := NodeResolver_ResolveAddr (CS_nodeResolver s) nodeID in
  let s := CS_set_resolver s nr in
  let '(p, net, res) := ConnectionPool_GetStorageClient (CS_pool s) net addr in
  (CS_set_pool s p, net,
   match res with Ok conn => Ok conn | Error _ => Error (Errorf "failed to get storage client") end).

(** The call of a write method and the checks of its response. *)
Definition do_write (s : ComputeServer) (net : N) (nodeID : string) (req : write_req)
    (partitionID epoch : Z) : ComputeServer * N * option goerr :=
  match storage_client s net nodeID with
  | (s, net, Error e) => (s, net, Some e)
  | (s, net, Ok client) =>
      match rpc_write net client req partitionID epoch with
      | (net, None) => (s, net, Some (Errorf "storage call failed"))
      | (net, Some (success, code)) =>
          if negb success || negb (bool_decide (code = OK)) then (s, net, Some (Errorf "storage error"))
          else (s, net, None)
      end
  end.

Definition doPut s net nodeID (key value : bytes) partitionID epoch :=
  do_write s net nodeID (RPut key value) partitionID epoch.
Definition doDelete s net nodeID (key : bytes) partitionID epoch :=
  do_write s net nodeID (RDelete key) partitionID epoch.
Definition doSetFields s net nodeID (pk : bytes) (fields : list FieldUpdate) partitionID epoch :=
  do_write s net nodeID (RSetFields pk fields) partitionID epoch.
Definition doDeleteField s net nodeID (pk fieldName : bytes) partitionID epoch :=
  do_write s net nodeID (RDeleteField pk fieldName) partitionID epoch.
Definition doBatchPut s net nodeID (items : list KeyValueItem) partitionID epoch :=
  do_write s net nodeID (RBatchPut items) partitionID epoch.

(** The call of a read method [rpc] and the check of its response. *)
Definition do_read {A} (rpc : N → Z → N * option (A * bool * ErrorCode)) (s : ComputeServer) (net : N)
    (nodeID : string) : ComputeServer * N * result (A * bool) :=
  match storage_client s net nodeID with
  | (s, net, Error e) => (s, net, Error e)
  | (s, net, Ok client) =>
      match rpc net client with
      | (net, None) => (s, net, Error (Errorf "storage call failed"))
      | (net, Some (value, found, code)) =>
          if bool_decide (code = OK) then (s, net, Ok (value, found))
          else (s, net, Error (Errorf "storage error"))
      end
  end.

Definition doGet s net nodeID (key : bytes) partitionID :=
  do_read (λ net client, rpc_Get net client key partitionID) s net nodeID.
Definition doGetField s net nodeID (pk fieldName : bytes) partitionID :=
  do_read (λ net client, rpc_GetField net client pk fieldName partitionID) s net nodeID.
Definition doGetAllFields s net nodeID (pk : bytes) partitionID :=
  do_read (λ net client, rpc_GetAllFields net client pk partitionID) s net nodeID.

(** ** Handlers of single-key requests *)

(** A write goes to the primary only; [act] is the handler's [do...] call. *)
Definition forward_write (s : ComputeServer) (net : N) (key : bytes)
    (act : string → Z → Z → ComputeServer * N * option goerr) : ComputeServer * N * result bool :=
  match ComputeRouter_GetPartitionNodes Sum64 (CS_router s) key with
  | Error _ => (s, net, Error (Errorf "routing failed"))
  | Ok (primary, _, partitionID, epoch) =>
      match act primary partitionID epoch with
      | (s, net, Some _) => (s, net, Error (Errorf "write failed"))
      | (s, net, None) => (s, net, Ok true)
      end
  end.

Definition ComputeServer_Put (s : ComputeServer) (net : N) (key value : bytes) :=
  forward_write s net key (λ primary pid epoch, doPut s net primary key value pid epoch).
Definition ComputeServer_Delete (s : ComputeServer) (net : N) (key : bytes) :=
  forward_write s net key (λ primary pid epoch, doDelete s net primary key pid epoch).
Definition ComputeServer_SetField (s : ComputeServer) (net : N) (pk fieldName value : bytes) :=
  forward_write s net pk (λ primary pid epoch,
    doSetFields s net primary pk [mkFieldUpdate fieldName value false] pid epoch).
Definition ComputeServer_SetFields (s : ComputeServer) (net : N) (pk : bytes) (fields : list FieldUpdate) :=
  forward_write s net pk (λ primary pid epoch, doSetFields s net primary pk fields pid epoch).
Definition ComputeServer_DeleteField (s : ComputeServer) (net : N) (pk fieldName : bytes) :=
  forward_write s net pk (λ primary pid epoch, doDeleteField s net primary pk fieldName pid epoch).

(** A read tries the primary and falls back to the replica. *)
Definition forward_read {A} (s : ComputeServer) (net : N) (key : bytes)
    (act : ComputeServer → N → string → Z → ComputeServer * N * result (A * bool)) :
    ComputeServer * N * result (A * bool) :=
  match ComputeRouter_GetPartitionNodes Sum64 (CS_router s) key with
  | Error _ => (s, net, Error (Errorf "routing failed"))
  | Ok (primary, replica, partitionID, _) =>
      match act s net primary partitionID with
      | (s, net, Ok resp) => (s, net, Ok resp)
      | (s, net, Error _) =>
          match act s net replica partitionID with
          | (s, net, Ok resp) => (s, net, Ok resp)
          | (s, net, Error _) => (s, net, Error (Errorf "read failed on both replicas"))
          end
      end
  end.

Definition ComputeServer_Get (s : ComputeServer) (net : N) (key : bytes) :=
  forward_read s net key (λ s net node pid, doGet s net node key pid).
Definition ComputeServer_GetField (s : ComputeServer) (net : N) (pk fieldName : bytes) :=
  forward_read s net pk (λ s net node pid, doGetField s net node pk fieldName pid).
Definition ComputeServer_GetAllFields (s : ComputeServer) (net : N) (pk : bytes) :=
  forward_read s net pk (λ s net node pid, doGetAllFields s net node pk pid).

(** ** Batches *)

(** Key, value and whether it was found. *)
Fixpoint ComputeServer_BatchGet (s : ComputeServer) (net : N) (keys : list bytes) :
    ComputeServer * N * list (bytes * bytes * bool) :=
  match keys with
  | [] => (s, net, [])
  | key :: rest =>
      let '(s, net, res) := ComputeServer_Get s net key in
      let item := match res with Error _ => (key, [], false) | Ok (value, found) => (key, value, found) end in
      let '(s, net, items) := ComputeServer_BatchGet s net rest in
      (s, net, item :: items)
  end.

(** The items of each partition, in the order of the request. *)
Definition group_items (items : list KeyValueItem) : gmap Z (list KeyValueItem) :=
  foldl (λ m item,
    let partitionID := CalculatePartition Sum64 (Item_Key item) in
    <[partitionID := (default [] (m !! partitionID) ++ [item])%list]> m) ∅ items.

(** One goroutine of [BatchPut]: node, partition, epoch, items. *)
Definition batch_job : Type := string * Z * Z * list KeyValueItem.

(** The range loop over the groups: the goroutines it starts, and whether it was
    left because a partition has no route. *)
Fixpoint start_jobs (r : ComputeRouter) (groups : gmap Z (list KeyValueItem)) (order : list Z) :
    list batch_job * bool :=
  match order with
  | [] => ([], false)
  | partitionID :: rest =>
      match ComputeRouter_GetPartitionNodesByID r partitionID with
      | Error _ => ([], true)
      | Ok (primary, _, _, epoch) =>
          let '(jobs, failed) := start_jobs r groups rest in
          ((primary, partitionID, epoch, default [] (groups !! partitionID)) :: jobs, failed)
      end
  end.

(** The goroutines, in the order in which they get to run: the errors in the
    channel and the count. *)
Fixpoint run_jobs (s : ComputeServer) (net : N) (jobs : list batch_job) (errs : list goerr) (count : Z) :
    ComputeServer * N * list goerr * Z :=
  match jobs with
  | [] => (s, net, errs, count)
  | (nodeID, pid, ep, items) :: rest =>
      match doBatchPut s net nodeID items pid ep with
      | (s, net, Some err) => run_jobs s net rest (errs ++ [err])%list count
      | (s, net, None) => run_jobs s net rest errs (i32 (count + i32 (len items)))
      end
  end.

(** [BatchPut]; [order] is the order of the range loop and [sched] the order in
    which the goroutines run.  When the loop is left early the response does not
    wait for the goroutines, which run all the same; the state is the one after
    the last of them. *)
Definition ComputeServer_BatchPut (order : gmap Z (list KeyValueItem) → list Z)
    (sched : list batch_job → list batch_job) (s : ComputeServer) (net : N) (items : list KeyValueItem) :
    ComputeServer * N * result (bool * Z) :=
  let partitionItems := group_items items in
  let '(jobs, failed) := start_jobs (CS_router s) partitionItems (order partitionItems) in
  let '(s, net, errs, count) := run_jobs s net (sched jobs) [] 0 in
  (s, net,
   if failed then Error (Errorf "routing failed")
   else match errs with
        | _ :: _ => Error (Errorf "batch put failed")
        | [] => Ok (true, count)
        end).

End Handlers.

(** ** What a storage network promises *)

(** A read answer of [value] and [found] for the stored [o]. *)
Definition answers (o : option bytes) (value : bytes) (found : bool) : Prop :=
  match o with Some v => value = v ∧ found = true | None => value = [] ∧ found = false end.

(** [net'] has the data and at least the connections of [net]. *)
Definition same_net {N A C} (data : N → string → A) (addr : N → C → option string) (net net' : N) : Prop :=
  (∀ a, data net' a = data net a) ∧ (∀ c a, addr net c = Some a → addr net' c = Some a).

Class StorageRPCLaws (N : Type) `{StorageRPC N} := {
  node_data : N → string → gmap bytes bytes;
  conn_addr : N → Z → option string;
  law_Dial net addr :
    same_net node_data conn_addr net (grpc_Dial net addr).1 ∧
    ∀ c, (grpc_Dial net addr).2 = Ok c → conn_addr (grpc_Dial net addr).1 c = Some addr;
  law_Close net c : same_net node_data conn_addr net (conn_Close net c);
  law_write net c a req p epoch : conn_addr net c = Some a →
    let '(net', resp) := rpc_write net c req p epoch in
    (∀ a', a' ≠ a → node_data net' a' = node_data net a') ∧
    (∀ c a, conn_addr net c = Some a → conn_addr net' c = Some a) ∧
    match resp with
    | Some (true, OK) => node_data net' a = batch_apply (node_data net a) (req_ops p req)
    | Some _ => node_data net' a = node_data net a
    | None => node_data net' a = node_data net a ∨
              node_data net' a = batch_apply (node_data net a) (req_ops p req)
    end;
  law_Get net c a key p : conn_addr net c = Some a →
    same_net node_data conn_addr net (rpc_Get net c key p).1 ∧
    ∀ v f, (rpc_Get net c key p).2 = Some (v, f, OK) → answers (node_data net a !! MakePartitionKey p key) v f;
  law_GetField net c a pk fn p : conn_addr net c = Some a →
    same_net node_data conn_addr net (rpc_GetField net c pk fn p).1 ∧
    ∀ v f, (rpc_GetField net c pk fn p).2 = Some (v, f, OK) → answers (node_data net a !! MakeFieldKey p pk fn) v f;
  law_GetAllFields net c a pk p : conn_addr net c = Some a →
    same_net node_data conn_addr net (rpc_GetAllFields net c pk p).1
}.

(** ** Forwarding *)

Section forwarding.
  Context {N : Type} `{StorageRPCLaws N}.
  Variable Sum64 : bytes → Z.
Implicit Types (s : ComputeServer) (net : N).

Abbreviation same := (same_net node_data conn_addr).

Lemma same_refl net : same net net.
Proof. done. Qed.
Lemma same_trans net1 net2 net3 : same net1 net2 → same net2 net3 → same net1 net3.
Proof. intros [H1 H1'] [H2 H2']. split; [intros a; by rewrite H2|auto]. Qed.

(** The connections of the pool lead to the addresses they are filed under, and
    the resolver's cache agrees with the resolver. *)
Definition compute_ok s net : Prop :=
  (∀ addr c, CP_conns (CS_pool s) !! addr = Some c → conn_addr net c = Some addr) ∧
  (∀ nodeID addr, NR_cache (CS_nodeResolver s) !! nodeID = Some addr → addr = nodeID).

(** Connections stay what they are. *)
Definition keeps_conns net net' : Prop := ∀ c a, conn_addr net c = Some a → conn_addr net' c = Some a.

Lemma compute_ok_same s net net' : compute_ok s net → keeps_conns net net' → compute_ok s net'.
Proof. intros [Hp Hr] Hs. split; [|done]. eauto. Qed.

Lemma getConn_create_ok p net addr p' net' res :
  getConn_create p net addr = (p', net', res) →
  (∀ a c, CP_conns p !! a = Some c → conn_addr net c = Some a) →
  same net net' ∧ (∀ a c, CP_conns p' !! a = Some c → conn_addr net' c = Some a) ∧
  (∀ c, res = Ok c → conn_addr net' c = Some addr).
Proof.
  unfold getConn_create, ConnectionPool_dial. intros Hg Hp.
  destruct (CP_conns p !! addr) as [c0|] eqn:E; [simplify_eq; split_and!; [done..|naive_solver]|].
  pose proof (law_Dial net addr) as [Hs Hd]. destruct (grpc_Dial net addr) as [net1 [c|e]]; simplify_eq; cbn in *.
  - destruct Hs as [Hs Hs']. split_and!; [done| |naive_solver]. intros a c0 Ha.
    apply lookup_insert_Some in Ha as [[-> ->]|[_ Ha]]; auto.
  - destruct Hs as [Hs Hs']. split_and!; [done|eauto|done].
Qed.

Lemma getConn_ok p net addr p' net' res :
  ConnectionPool_getConn p net addr = (p', net', res) →
  (∀ a c, CP_conns p !! a = Some c → conn_addr net c = Some a) →
  same net net' ∧ (∀ a c, CP_conns p' !! a = Some c → conn_addr net' c = Some a) ∧
  (∀ c, res = Ok c → conn_addr net' c = Some addr).
Proof.
  unfold ConnectionPool_getConn. intros Hg Hp.
  destruct (CP_conns p !! addr) as [c0|] eqn:E; [|by apply getConn_create_ok in Hg].
  destruct (negb _); [simplify_eq; split_and!; [done..|naive_solver]|].
  apply getConn_create_ok in Hg; [done|]. intros a c Ha. cbn in Ha.
  apply lookup_delete_Some in Ha as [_ Ha]. by apply Hp.
Qed.

Lemma storage_client_ok s net nodeID s' net' res :
  storage_client s net nodeID = (s', net', res) → compute_ok s net →
  compute_ok s' net' ∧ same net net' ∧ CS_router s' = CS_router s ∧
  (∀ c, res = Ok c → conn_addr net' c = Some nodeID).
Proof.
  unfold storage_client, NodeResolver_ResolveAddr, ConnectionPool_GetStorageClient. intros Hc [Hp Hr].
  assert (∃ nr, match NR_cache (CS_nodeResolver s) !! nodeID with
    | Some addr => (CS_nodeResolver s, addr)
    | None => (mkNodeResolver (<[nodeID := nodeID]> (NR_cache (CS_nodeResolver s))), nodeID)
    end = (nr, nodeID) ∧ ∀ n a, NR_cache nr !! n = Some a → a = n) as (nr & E & Hnr).
  { destruct (NR_cache (CS_nodeResolver s) !! nodeID) as [addr|] eqn:E.
    - rewrite (Hr _ _ E). eauto.
    - eexists. split; [done|]. intros n a Ha. cbn in Ha.
      apply lookup_insert_Some in Ha as [[-> ->]|[_ Ha]]; eauto. }
  rewrite E in Hc. cbn [CS_set_resolver CS_pool] in Hc.
  destruct (ConnectionPool_getConn (CS_pool s) net nodeID) as [[p1 net1] r1] eqn:Eg.
  apply getConn_ok in Eg as (Hs & Hp1 & Hok); [|done]. simplify_eq. cbn. split_and!; [done|done|done|].
  destruct r1; naive_solver.
Qed.

(** What an attempt to write leaves: [Some true] it happened, [Some false] it did
    not, [None] it may have. *)
Lemma do_write_ok s net nodeID req p epoch s' net' err :
  do_write s net nodeID req p epoch = (s', net', err) → compute_ok s net →
  compute_ok s' net' ∧ keeps_conns net net' ∧ CS_router s' = CS_router s ∧
  (∀ a, a ≠ nodeID → node_data net' a = node_data net a) ∧
  (node_data net' nodeID = batch_apply (node_data net nodeID) (req_ops p req) ∨
   err ≠ None ∧ node_data net' nodeID = node_data net nodeID).
Proof.
  unfold do_write. intros Hw Hok.
  destruct (storage_client s net nodeID) as [[s1 net1] [c|e]] eqn:Ec;
    apply storage_client_ok in Ec as (Hok1 & [Hd Hk] & Hrt & Hc); [|done|simplify_eq|done].
  2: { split_and!; [done..|]. right. by rewrite Hd. }
  pose proof (law_write net1 c nodeID req p epoch (Hc c eq_refl)) as Hl.
  destruct (rpc_write net1 c req p epoch) as [net2 resp]. destruct Hl as (Ho & Hk2 & Hn).
  assert (compute_ok s1 net2) as Hok2 by (by eapply compute_ok_same).
  assert (keeps_conns net net2) as Hk3 by (intros c0 a Ha; by apply Hk2, Hk).
  assert (∀ a, a ≠ nodeID → node_data net2 a = node_data net a) as Ho2 by (intros; rewrite Ho, Hd; done).
  rewrite <- (Hd nodeID).
  destruct resp as [[[] code]|]; cbn in Hw; [case_bool_decide| |]; cbn in Hw; simplify_eq; split_and!; try done.
  - by left.
  - right. by destruct code.
  - right. done.
  - destruct Hn; auto.
Qed.

Lemma do_read_ok {A} (rpc : N → Z → N * option (A * bool * ErrorCode)) (P : gmap bytes bytes → A → bool → Prop)
    s net nodeID s' net' res :
  (∀ net c, conn_addr net c = Some nodeID → same net (rpc net c).1 ∧
     ∀ v f, (rpc net c).2 = Some (v, f, OK) → P (node_data net nodeID) v f) →
  do_read rpc s net nodeID = (s', net', res) → compute_ok s net →
  compute_ok s' net' ∧ CS_router s' = CS_router s ∧ same net net' ∧
  (∀ v f, res = Ok (v, f) → P (node_data net nodeID) v f).
Proof.
  unfold do_read. intros Hrpc Hw Hok.
  destruct (storage_client s net nodeID) as [[s1 net1] [c|e]] eqn:Ec;
    apply storage_client_ok in Ec as (Hok1 & Hs1 & Hrt & Hc); [|done|simplify_eq; by split_and!|done].
  destruct (Hrpc net1 c (Hc c eq_refl)) as [Hs2 Hp]. rewrite (proj1 Hs1) in Hp.
  destruct (rpc net1 c) as [net2 resp]. cbn in *.
  assert (compute_ok s1 net2) as Hok2 by (exact (compute_ok_same s1 net1 net2 Hok1 (proj2 Hs2))).
  assert (same net net2) as Hs by (by eapply same_trans).
  destruct resp as [[[v f] code]|]; [case_bool_decide|]; simplify_eq; split_and!; try done. naive_solver.
Qed.

(** A client's writes, the key they are routed by and the request they become. *)
Inductive client_write :=
  | CPut (key value : bytes)
  | CDelete (key : bytes)
  | CSetField (pk fieldName value : bytes)
  | CSetFields (pk : bytes) (fields : list FieldUpdate)
  | CDeleteField (pk fieldName : bytes).

Definition client_key (w : client_write) : bytes :=
  match w with CPut k _ | CDelete k | CSetField k _ _ | CSetFields k _ | CDeleteField k _ => k end.

Definition client_req (w : client_write) : write_req :=
  match w with
  | CPut key value => RPut key value
  | CDelete key => RDelete key
  | CSetField pk f v => RSetFields pk [mkFieldUpdate f v false]
  | CSetFields pk fields => RSetFields pk fields
  | CDeleteField pk f => RDeleteField pk f
  end.

Definition ComputeServer_write s net (w : client_write) : ComputeServer * N * result bool :=
  match w with
  | CPut key value => ComputeServer_Put Sum64 s net key value
  | CDelete key => ComputeServer_Delete Sum64 s net key
  | CSetField pk f v => ComputeServer_SetField Sum64 s net pk f v
  | CSetFields pk fields => ComputeServer_SetFields Sum64 s net pk fields
  | CDeleteField pk f => ComputeServer_DeleteField Sum64 s net pk f
  end.

Lemma ComputeServer_write_forward s net w :
  ComputeServer_write s net w =
  forward_write Sum64 s net (client_key w) (λ node pid epoch, do_write s net node (client_req w) pid epoch).
Proof. by destruct w. Qed.

(** What a write handler answers and leaves. *)
Definition write_effect s net (w : client_write) (s' : ComputeServer) (net' : N) (res : result bool) : Prop :=
  match ComputeRouter_GetPartitionNodes Sum64 (CS_router s) (client_key w) with
  | Error _ => res = Error (Errorf "routing failed") ∧ net' = net
  | Ok (primary, _, p, _) =>
      (∀ a, a ≠ primary → node_data net' a = node_data net a) ∧
      (res = Ok true ∨ res = Error (Errorf "write failed")) ∧
      (node_data net' primary = batch_apply (node_data net primary) (req_ops p (client_req w)) ∨
       res ≠ Ok true ∧ node_data net' primary = node_data net primary)
  end.

Lemma forward_write_ok s net w s' net' res :
  ComputeServer_write s net w = (s', net', res) → compute_ok s net →
  compute_ok s' net' ∧ keeps_conns net net' ∧ CS_router s' = CS_router s ∧ write_effect s net w s' net' res.
Proof.
  rewrite ComputeServer_write_forward. unfold forward_write, write_effect. intros Hw Hok.
  destruct (ComputeRouter_GetPartitionNodes _ _ _) as [[[[primary replica] p] epoch]|e]; [|simplify_eq; split_and!; [done|by intros c a|done..]].
  destruct (do_write s net primary (client_req w) p epoch) as [[s1 net1] err] eqn:E.
  apply do_write_ok in E as (Hok1 & Hk & Hr & Ho & Hn); [|done].
  destruct err; simplify_eq; split_and!; try done; auto.
  - destruct Hn as [?|[_ ?]]; auto.
  - destruct Hn as [?|[? _]]; [by left|done].
Qed.

(** A read that returns got its answer from the primary or from the replica. *)
Lemma forward_read_ok {A} (rpc : Z → N → Z → N * option (A * bool * ErrorCode))
    (P : Z → gmap bytes bytes → A → bool → Prop) s net key s' net' res :
  (∀ p net c a, conn_addr net c = Some a → same net (rpc p net c).1 ∧
     ∀ v f, (rpc p net c).2 = Some (v, f, OK) → P p (node_data net a) v f) →
  forward_read Sum64 s net key (λ s net node pid, do_read (rpc pid) s net node) = (s', net', res) →
  compute_ok s net →
  compute_ok s' net' ∧ CS_router s' = CS_router s ∧ same net net' ∧
  ∀ v f, res = Ok (v, f) → ∃ primary replica p epoch,
    ComputeRouter_GetPartitionNodes Sum64 (CS_router s) key = Ok (primary, replica, p, epoch) ∧
    (P p (node_data net primary) v f ∨ P p (node_data net replica) v f).
Proof.
  unfold forward_read. intros Hrpc Hf Hok.
  destruct (ComputeRouter_GetPartitionNodes _ _ _) as [[[[primary replica] p] epoch]|e]; [|by simplify_eq].
  destruct (do_read (rpc p) s net primary) as [[s1 net1] r1] eqn:E1.
  apply (do_read_ok _ (P p)) in E1 as (Hok1 & Hr1 & Hs1 & Hp1); [|by intros; apply Hrpc|done].
  destruct r1 as [[v1 f1]|e1]; [simplify_eq; split_and!; try done; intros; simplify_eq; eauto 10|].
  destruct (do_read (rpc p) s1 net1 replica) as [[s2 net2] r2] eqn:E2.
  apply (do_read_ok _ (P p)) in E2 as (Hok2 & Hr2 & Hs2 & Hp2); [|by intros; apply Hrpc|done].
  rewrite (proj1 Hs1) in Hp2.
  assert (same net net2) as Hs by (by eapply same_trans).
  destruct r2 as [[v2 f2]|e2]; simplify_eq; split_and!; try done; try congruence; intros; simplify_eq; eauto 10.
Qed.

Lemma ComputeServer_Get_source s net key s' net' res :
  ComputeServer_Get Sum64 s net key = (s', net', res) → compute_ok s net →
  compute_ok s' net' ∧ CS_router s' = CS_router s ∧ same net net' ∧
  ∀ v f, res = Ok (v, f) → ∃ primary replica p epoch,
    ComputeRouter_GetPartitionNodes Sum64 (CS_router s) key = Ok (primary, replica, p, epoch) ∧
    (answers (node_data net primary !! MakePartitionKey p key) v f ∨
     answers (node_data net replica !! MakePartitionKey p key) v f).
Proof.
  apply (forward_read_ok (λ p net c, rpc_Get net c key p)
    (λ p m v f, answers (m !! MakePartitionKey p key) v f)). intros p net0 c a. apply law_Get.
Qed.

(** [BatchGet] changes no data and answers one item per key, in order; a key whose
    read failed is answered as not found. *)
Lemma ComputeServer_BatchGet_ok s net keys s' net' items :
  ComputeServer_BatchGet Sum64 s net keys = (s', net', items) → compute_ok s net →
  compute_ok s' net' ∧ CS_router s' = CS_router s ∧ same net net' ∧
  Forall2 (λ key item, item.1.1 = key ∧ (item.2 = true → ∃ primary replica p epoch,
    ComputeRouter_GetPartitionNodes Sum64 (CS_router s) key = Ok (primary, replica, p, epoch) ∧
    (node_data net primary !! MakePartitionKey p key = Some item.1.2 ∨
     node_data net replica !! MakePartitionKey p key = Some item.1.2))) keys items.
Proof.
  revert s net s' net' items. induction keys as [|key keys IH]; intros s net s' net' items Hb Hok;
    cbn [ComputeServer_BatchGet] in Hb; [simplify_eq; split_and!; [done..|constructor]|].
  destruct (ComputeServer_Get Sum64 s net key) as [[s1 net1] res] eqn:Eg.
  apply ComputeServer_Get_source in Eg as (Hok1 & Hr1 & Hs1 & Hv); [|done].
  destruct (ComputeServer_BatchGet Sum64 s1 net1 keys) as [[s2 net2] items2] eqn:Eb.
  apply IH in Eb as (Hok2 & Hr2 & Hs2 & Hall); [|done]. simplify_eq.
  split_and!; [done|congruence|by eapply same_trans|]. constructor.
  - destruct res as [[v f]|e]; cbn; (split; [done|]); [|done]. intros ->.
    destruct (Hv v true eq_refl) as (pr & re & p & ep & Hroute & Ha). exists pr, re, p, ep. split; [done|].
    unfold answers in Ha. destruct Ha as [Ha|Ha]; case_match; destruct Ha; subst; auto; done.
  - rewrite Hr1 in Hall. destruct Hs1 as [Hd1 _]. eapply Forall2_impl; [exact Hall|].
    intros k item [Hk Hi]. split; [done|]. intros Hf. destruct (Hi Hf) as (pr & re & p & ep & Hroute & Ha).
    rewrite !Hd1 in Ha. eauto 10.
Qed.
End forwarding.

(** ** Batches *)

(** Filters whose conditions agree on the elements that count. *)
Lemma filter_within {A} (P Q : A → Prop) `{!∀ x, Decision (P x), !∀ x, Decision (Q x)} (b : bool) (l : list A) :
  (∀ x, x ∈ l → Q x → (P x ↔ b = true)) → filter Q (filter P l) = if b then filter Q l else [].
Proof.
  induction l as [|x l IH]; intros Hb; [by destruct b|]. rewrite !filter_cons.
  specialize (IH (λ y Hy, Hb y (list_elem_of_further _ _ _ Hy))). specialize (Hb x (list_elem_of_here _ _)).
  destruct (decide (P x)), (decide (Q x)); rewrite ?filter_cons; try (rewrite decide_True by done);
    try (rewrite decide_False by done); rewrite ?IH; destruct b; try done; naive_solver.
Qed.

(** Grouping a list by a function and concatenating some of the groups. *)
Definition groups_of {A} (f : A → Z) (l : list A) (ps : list Z) : list A :=
  concat (map (λ p, filter (λ x, f x = p) l) ps).

Lemma groups_of_Permutation {A} (f : A → Z) l ps :
  NoDup ps → groups_of f l ps ≡ₚ filter (λ x, f x ∈ ps) l.
Proof.
  unfold groups_of. induction ps as [|p ps IH]; intros Hnd.
  { cbn. induction l as [|x l IH]; [done|]. rewrite filter_cons, decide_False by apply not_elem_of_nil. done. }
  apply NoDup_cons in Hnd as [Hp Hnd]. cbn. rewrite (IH Hnd). clear IH.
  induction l as [|x l IH]; [done|]. rewrite !filter_cons.
  destruct (decide (f x = p)) as [<-|Hne].
  - rewrite (decide_False (P := f x ∈ ps)) by done. rewrite decide_True by left. cbn. by rewrite IH.
  - destruct (decide (f x ∈ ps)) as [Hin|Hin].
    + rewrite decide_True by (by right). rewrite <- IH. symmetry. apply Permutation_middle.
    + rewrite decide_False; [done|]. by intros [?|?]%elem_of_cons.
Qed.

(** The elements with a given tag keep their order when tags do not cross groups. *)
Lemma groups_of_tagged {A} (f : A → Z) (Q : A → Prop) `{!∀ x, Decision (Q x)} l ps :
  (∀ x y, Q x → Q y → f x = f y) → NoDup ps →
  filter Q (groups_of f l ps) = filter Q (filter (λ x, f x ∈ ps) l).
Proof.
  intros HQ. unfold groups_of. induction ps as [|p ps IH]; intros Hnd; cbn.
  { rewrite (filter_within (λ x, f x ∈ []) Q false); [done|]. intros x _ _. by rewrite elem_of_nil. }
  apply NoDup_cons in Hnd as [Hp Hnd]. rewrite filter_app, IH by done.
  destruct (filter Q l) as [|y t] eqn:E.
  { assert (∀ P `{!∀ x, Decision (P x)}, filter Q (filter P l) = []) as Hnil; [|by rewrite !Hnil].
    intros P HP. apply elem_of_nil_inv. intros x [HQx [_ Hx]%list_elem_of_filter]%list_elem_of_filter.
    assert (x ∈ filter Q l) as Hin by (by apply list_elem_of_filter). rewrite E in Hin. by apply not_elem_of_nil in Hin. }
  assert (Q y) as HQy by (eapply (list_elem_of_filter Q l); rewrite E; left).
  rewrite (filter_within (λ x, f x = p) Q (bool_decide (f y = p))) by
    (intros x _ Hx; rewrite bool_decide_eq_true; by rewrite (HQ x y Hx HQy)).
  rewrite (filter_within (λ x, f x ∈ ps) Q (bool_decide (f y ∈ ps))) by
    (intros x _ Hx; rewrite bool_decide_eq_true; by rewrite (HQ x y Hx HQy)).
  rewrite (filter_within (λ x, f x ∈ p :: ps) Q (bool_decide (f y ∈ p :: ps))) by
    (intros x _ Hx; rewrite bool_decide_eq_true; by rewrite (HQ x y Hx HQy)).
  rewrite E. repeat case_bool_decide; rewrite ?app_nil_r; try done; set_solver.
Qed.

Lemma i32_add_l a b : i32 (i32 a + b) = i32 (a + b).
Proof.
  unfold i32. replace ((a + 2 ^ 31) mod 2 ^ 32 - 2 ^ 31 + b + 2 ^ 31) with ((a + 2 ^ 31) mod 2 ^ 32 + b) by lia.
  rewrite Z.add_mod_idemp_l by done. do 2 f_equal. lia.
Qed.

Lemma i32_add_r a b : i32 (a + i32 b) = i32 (a + b).
Proof. by rewrite Z.add_comm, i32_add_l, Z.add_comm. Qed.

Lemma i32_idem a : i32 (i32 a) = i32 a.
Proof. pose proof (i32_add_l a 0) as E. by rewrite !Z.add_0_r in E. Qed.

Section batches.
  Context {N : Type} `{StorageRPCLaws N}.
  Variable Sum64 : bytes → Z.
Implicit Types (s : ComputeServer) (net : N).

(** The partition of an item and the operation it stands for. *)
Definition item_partition (i : KeyValueItem) : Z := CalculatePartition Sum64 (Item_Key i).
Definition put_op (i : KeyValueItem) : wop := WPut (MakePartitionKey (item_partition i) (Item_Key i)) (Item_Value i).

Lemma CalculatePartition_u32 key : is_u32 (CalculatePartition Sum64 key).
Proof. unfold CalculatePartition, is_u32, u32, wrap. apply Z.mod_pos_bound. lia. Qed.

Lemma put_op_key_partition i j k :
  wop_key (put_op i) = k → wop_key (put_op j) = k → item_partition i = item_partition j.
Proof. cbn. intros <- [Hp _]%MakePartitionKey_inj; [done|apply CalculatePartition_u32..]. Qed.

Lemma group_items_lookup items p :
  default [] (group_items Sum64 items !! p) = filter (λ i, item_partition i = p) items.
Proof.
  unfold group_items. induction items as [|i items IH] using rev_ind; [done|].
  rewrite foldl_app, filter_app, filter_cons, filter_nil. cbn [foldl]. fold (item_partition i).
  destruct (decide (item_partition i = p)) as [<-|Hne].
  - rewrite lookup_insert_eq. cbn [default]. by rewrite IH.
  - by rewrite lookup_insert_ne, IH, app_nil_r.
Qed.

Lemma group_items_dom items p :
  is_Some (group_items Sum64 items !! p) ↔ ∃ i, i ∈ items ∧ item_partition i = p.
Proof.
  unfold group_items. induction items as [|i items IH] using rev_ind.
  { cbn [foldl]. rewrite lookup_empty. split; [by intros [? ?]|]. by intros (? & ?%not_elem_of_nil & _). }
  rewrite foldl_app. cbn [foldl]. fold (item_partition i). rewrite lookup_insert_is_Some', IH.
  split.
  - intros [<-|(j & Hj & <-)]; eexists; (split; [|done]); set_solver.
  - intros (j & [Hj|Hj%list_elem_of_singleton]%elem_of_app & <-); [right; eauto|left; by subst].
Qed.

(** ** The goroutines *)

Definition job_partition (j : batch_job) : Z := match j with (_, p, _, _) => p end.

(** A goroutine that the loop starts for the items of a partition. *)
Definition is_job (r : ComputeRouter) (items : list KeyValueItem) (j : batch_job) : Prop :=
  ∃ row, CT_Partitions (CR_routeTable r) !! job_partition j = Some row ∧
    j = (PI_Primary row, job_partition j, PI_Epoch row,
         filter (λ i, item_partition i = job_partition j) items).

Lemma start_jobs_ok r items order jobs failed :
  start_jobs r (group_items Sum64 items) order = (jobs, failed) →
  Forall (is_job r items) jobs ∧ map job_partition jobs `prefix_of` order ∧
  (failed = false → map job_partition jobs = order).
Proof.
  revert jobs failed. induction order as [|p order IH]; intros jobs failed Hs; cbn [start_jobs] in Hs.
  { simplify_eq. split_and!; [constructor|done|done]. }
  unfold ComputeRouter_GetPartitionNodesByID in Hs.
  destruct (CT_Partitions (CR_routeTable r) !! p) as [row|] eqn:Hrow.
  - destruct (start_jobs r (group_items Sum64 items) order) as [jobs1 f1]. simplify_eq.
    destruct (IH jobs1 failed eq_refl) as (Hj & Hpre & Hall). split_and!.
    + constructor; [|done]. exists row. cbn [job_partition]. by rewrite group_items_lookup.
    + by apply prefix_cons.
    + intros ->. cbn. by rewrite Hall.
  - simplify_eq. split_and!; [constructor|apply prefix_nil|done].
Qed.

(** The operations a goroutine executes on node [a]. *)
Definition job_ops (a : string) (j : batch_job) : list wop :=
  match j with (node, p, _, items) => if decide (node = a) then req_ops p (RBatchPut items) else [] end.

Definition job_len (j : batch_job) : Z := match j with (_, _, _, items) => len items end.

(** Some of the goroutines had their effect; when no error was reported, all. *)
Lemma run_jobs_ok jobs s net errs count s' net' errs' count' :
  run_jobs s net jobs errs count = (s', net', errs', count') → compute_ok s net →
  ∃ ex, ex `sublist_of` jobs ∧ compute_ok s' net' ∧ CS_router s' = CS_router s ∧
    (∀ a, node_data net' a = batch_apply (node_data net a) (concat (map (job_ops a) ex))) ∧
    (errs' = [] → errs = [] ∧ ex = jobs ∧ i32 count' = i32 (count + foldr Z.add 0 (map job_len jobs))).
Proof.
  revert s net errs count. induction jobs as [|[[[node p] ep] items] jobs IH]; intros s net errs count Hr Hok;
    cbn [run_jobs] in Hr.
  { simplify_eq. exists []. split_and!; [done..|]. intros ->. split_and!; [done..|]. cbn. f_equal. lia. }
  destruct (doBatchPut s net node items p ep) as [[s1 net1] err] eqn:Ed.
  unfold doBatchPut in Ed. apply do_write_ok in Ed as (Hok1 & _ & Hrt & Ho & Hn); [|done].
  assert (∀ a d, (a = node → d = batch_apply (node_data net a) (req_ops p (RBatchPut items))) →
    (a ≠ node → d = node_data net a) → d = batch_apply (node_data net a) (job_ops a (node, p, ep, items))) as Hops.
  { intros a d H1 H2. cbn [job_ops]. destruct (decide (node = a)) as [->|Hne]; [by apply H1|]. by apply H2. }
  destruct err as [e|]; apply IH in Hr as (ex & Hsub & Hok' & Hrt' & Hd & Hall); [|done| |done].
  - assert (errs' ≠ []) as Herr by (intros E; by destruct (Hall E) as [[_ ?]%app_eq_nil _]).
    destruct Hn as [Hn|[_ Hn]].
    + exists ((node, p, ep, items) :: ex). split_and!; [by apply sublist_skip|done|congruence| |done].
      intros a. cbn [map concat]. rewrite batch_apply_app, Hd. f_equal. apply Hops; [by intros ->|auto].
    + exists ex. split_and!; [by apply sublist_cons|done|congruence| |done].
      intros a. rewrite Hd. f_equal. destruct (decide (a = node)) as [->|]; auto.
  - destruct Hn as [Hn|[? _]]; [|done]. exists ((node, p, ep, items) :: ex).
    split_and!; [by apply sublist_skip|done|congruence| |].
    + intros a. cbn [map concat]. rewrite batch_apply_app, Hd. f_equal. apply Hops; [by intros ->|auto].
    + intros E. destruct (Hall E) as (-> & -> & Hc). split_and!; [done..|]. cbn [map foldr job_len]. rewrite Hc.
      set (rest := foldr Z.add 0 _). rewrite i32_add_l.
      replace (count + i32 (len items) + rest) with (count + rest + i32 (len items)) by lia.
      rewrite i32_add_r. f_equal. lia.
Qed.

(** The operations of some goroutines on a node are the puts of their items that
    are routed to the node. *)
Lemma job_ops_items r items a jobs :
  Forall (is_job r items) jobs →
  concat (map (job_ops a) jobs) =
  map put_op (groups_of item_partition items
    (filter (λ p, PI_Primary <$> CT_Partitions (CR_routeTable r) !! p = Some a) (map job_partition jobs))).
Proof.
  unfold groups_of. induction 1 as [|j jobs (row & Hrow & Hj) _ IH]; [done|]. cbn [map concat]. rewrite IH.
  rewrite filter_cons, Hrow. cbn [fmap option_fmap option_map].
  destruct (decide (Some (PI_Primary row) = Some a)) as [E|E]; rewrite Hj at 1; cbn [job_ops].
  - rewrite decide_True by congruence. cbn [map concat]. rewrite map_app. f_equal. cbn [req_ops].
    apply map_ext_in. intros i Hi%list_elem_of_In%list_elem_of_filter. unfold put_op. by rewrite (proj1 Hi).
  - by rewrite decide_False by congruence.
Qed.

Lemma run_jobs_count jobs s net errs count s' net' errs' count' :
  run_jobs s net jobs errs count = (s', net', errs', count') → i32 count = count → i32 count' = count'.
Proof.
  revert s net errs count. induction jobs as [|[[[node p] ep] items] jobs IH]; intros s net errs count Hr Hc;
    cbn [run_jobs] in Hr; [by simplify_eq|].
  destruct (doBatchPut s net node items p ep) as [[s1 net1] []]; apply IH in Hr; try done.
  apply i32_idem.
Qed.

Lemma job_lens r items jobs :
  Forall (is_job r items) jobs →
  foldr Z.add 0 (map job_len jobs) = len (groups_of item_partition items (map job_partition jobs)).
Proof.
  unfold groups_of, len. induction 1 as [|j jobs (row & Hrow & Hj) _ IH]; [done|].
  cbn [map foldr concat]. rewrite IH, length_app, Nat2Z.inj_add. f_equal. by rewrite Hj at 1.
Qed.

(** The items that are routed to a node and whose partition is in [ps]. *)
Definition items_for (r : ComputeRouter) (ps : gset Z) (a : string) (items : list KeyValueItem) : list KeyValueItem :=
  filter (λ i, item_partition i ∈ ps ∧
    PI_Primary <$> CT_Partitions (CR_routeTable r) !! item_partition i = Some a) items.

Lemma groups_items_for r (ps : list Z) a m items :
  NoDup ps →
  batch_apply m (map put_op (groups_of item_partition items
    (filter (λ p, PI_Primary <$> CT_Partitions (CR_routeTable r) !! p = Some a) ps))) =
  batch_apply m (map put_op (items_for r (list_to_set ps) a items)).
Proof.
  intros Hnd. apply batch_apply_ext. intros k. rewrite !(filter_fmap (λ i, wop_key (put_op i) = k)) by done. f_equal.
  rewrite groups_of_tagged; [| |by apply NoDup_filter].
  - f_equal. apply list_filter_iff. intros i. rewrite list_elem_of_filter, elem_of_list_to_set. tauto.
  - intros x y Hx Hy. by apply (put_op_key_partition x y k).
Qed.
End batches.

(** A write of a client reaches the primary of its key and no other node.
    When the handler acknowledges it, the primary's data has changed exactly as
    requested; when it reports an error, the data has changed as requested or not
    at all (the answer of the node was lost, or it refused), and a key that has no
    route changes nothing. *)
Lemma write_reaches_primary_only {N} `{StorageRPCLaws N} Sum64 s (net : N) w s' net' res :
  compute_ok s net → ComputeServer_write Sum64 s net w = (s', net', res) →
  compute_ok s' net' ∧ CS_router s' = CS_router s ∧ write_effect Sum64 s net w s' net' res.
Proof. intros Hok Hw. apply forward_write_ok in Hw as (? & _ & ?); done. Qed.

(** C13: a batch is atomic per partition.  Whatever order the groups are started
    in, however the goroutines are scheduled and whichever calls fail, there is a
    set of partitions such that every node holds exactly the puts of the items
    of those partitions it is the primary of, in the order of the request.  A
    batch that is acknowledged is complete and counts all its items; one that is
    refused may be written in part, also when the reason was that one partition
    has no route. *)
Theorem batch_is_atomic_per_partition {N} `{StorageRPCLaws N} Sum64 order sched s (net : N) items s' net' res :
  compute_ok s net → (∀ m, order m ≡ₚ (map_to_list m).*1) → (∀ jobs, sched jobs ≡ₚ jobs) →
  ComputeServer_BatchPut Sum64 order sched s net items = (s', net', res) →
  ∃ ps : gset Z,
    (∀ a, node_data net' a = batch_apply (node_data net a)
       (map (put_op Sum64) (items_for Sum64 (CS_router s) ps a items))) ∧
    (∀ ok n, res = Ok (ok, n) →
       ok = true ∧ n = i32 (len items) ∧
       ∀ i, i ∈ items → item_partition Sum64 i ∈ ps ∧
         is_Some (CT_Partitions (CR_routeTable (CS_router s)) !! item_partition Sum64 i)).
Proof.
  intros Hok Hord Hsch Hb. unfold ComputeServer_BatchPut in Hb.
  destruct (start_jobs _ _ _) as [jobs failed] eqn:Es. apply start_jobs_ok in Es as (Hjobs & [rest Hpre] & Hall).
  destruct (run_jobs s net (sched jobs) [] 0) as [[[s1 net1] errs] count] eqn:Er. simplify_eq.
  pose proof (run_jobs_count _ _ _ _ _ _ _ _ _ Er eq_refl) as Hi32.
  apply run_jobs_ok in Er as (ex & Hsub & _ & _ & Hd & Hc); [|done].
  assert (NoDup (map job_partition jobs)) as Hnd.
  { assert (NoDup (order (group_items Sum64 items))) as Hnd by (rewrite Hord; apply NoDup_fst_map_to_list).
    rewrite Hpre in Hnd. by apply NoDup_app in Hnd as [? _]. }
  assert (Forall (is_job Sum64 (CS_router s) items) ex ∧ NoDup (map job_partition ex)) as [Hex Hnd2].
  { assert (Forall (is_job Sum64 (CS_router s) items) (sched jobs)) as Hf by (by rewrite Hsch).
    assert (NoDup (map job_partition (sched jobs))) as Hn by (by rewrite (Permutation_map _ (Hsch jobs))).
    rewrite Forall_forall in Hf. split; [apply Forall_forall; intros j Hj; by eapply Hf, elem_of_sublist|].
    eapply sublist_NoDup; [exact Hn|]. by apply fmap_sublist. }
  exists (list_to_set (map job_partition ex)). split.
  - intros a. rewrite Hd, (job_ops_items Sum64 (CS_router s) items a ex) by done.
    by apply groups_items_for.
  - intros ok n Hres. destruct failed; [done|]. destruct errs; [|done]. simplify_eq.
    destruct (Hc eq_refl) as (_ & -> & Hn). specialize (Hall eq_refl).
    assert (∀ i, i ∈ items → item_partition Sum64 i ∈ map job_partition jobs) as Hin.
    { intros i Hi. rewrite Hall, Hord. apply list_elem_of_fmap.
      destruct (proj2 (group_items_dom Sum64 items (item_partition Sum64 i))) as [g Hg]; [eauto|].
      exists (item_partition Sum64 i, g). split; [done|]. by apply elem_of_map_to_list. }
    split_and!; [done| |].
    + rewrite <- Hi32, Hn, (job_lens _ _ _ _ Hex). cbn. f_equal. unfold len. f_equal.
      rewrite groups_of_Permutation by done. rewrite list_filter_all; [done|].
      apply Forall_forall. intros i Hi. rewrite (Permutation_map _ (Hsch jobs)). auto.
    + intros i Hi. rewrite elem_of_list_to_set, (Permutation_map _ (Hsch jobs)). split; [auto|].
      apply Hin, list_elem_of_fmap in Hi as (j & -> & Hj). rewrite Forall_forall in Hjobs.
      destruct (Hjobs j Hj) as (row & -> & _). eauto.
Qed.

(** ** A cluster of storage servers *)

(** The servers by address, the connections with the address they were dialled to
    and their state, what happens to the next calls, and what the servers' logs
    find. *)
Record Cluster (D : Type) := mkCluster {
  cl_servers : gmap string (StorageServer.Server D);
  cl_conns : gmap Z (string * Z);
  cl_faults : list netfault;
  cl_envs : nat → Env
}.
Arguments mkCluster {D} _ _ _ _.
Arguments cl_servers {D} _.
Arguments cl_conns {D} _.
Arguments cl_faults {D} _.
Arguments cl_envs {D} _.

Section cluster.
  Context {D : Type} `{Engine D}.

Definition cl_data (c : Cluster D) (a : string) : gmap bytes bytes :=
  match cl_servers c !! a with Some srv => db_view (S_db srv) | None => ∅ end.
Definition cl_addr (c : Cluster D) (conn : Z) : option string := fst <$> cl_conns c !! conn.
Definition cl_set (c : Cluster D) (servers : gmap string (StorageServer.Server D)) : Cluster D :=
  mkCluster servers (cl_conns c) (tail (cl_faults c)) (cl_envs c).

(** A call of the method [f] through a connection.  A handler that panics takes
    the node down before anything is answered; its data stays. *)
Definition cl_call {A} (c : Cluster D) (conn : Z)
    (f : StorageServer.Server D → outcome (StorageServer.Server D * A)) : Cluster D * option A :=
  let fault := default Delivered (head (cl_faults c)) in
  let lost := (cl_set c (cl_servers c), None) in
  match cl_conns c !! conn with
  | None => lost
  | Some (addr, state) =>
      if state =? conn_Shutdown then lost
      else match cl_servers c !! addr with
           | None => lost
           | Some srv =>
               match fault with
               | LostRequest => lost
               | _ =>
                   match f srv with
                   | Ret (srv, resp) =>
                       (cl_set c (<[addr := srv]> (cl_servers c)),
                        match fault with LostReply => None | _ => Some resp end)
                   | _ => lost
                   end
               end
           end
  end.

(** A read method leaves the server as it is. *)
Definition cl_read {A} (f : StorageServer.Server D → outcome A) (srv : StorageServer.Server D) :
    outcome (StorageServer.Server D * A) := (λ a, (srv, a)) <$> f srv.

#[global] Instance Cluster_RPC : StorageRPC (Cluster D) := {|
  conn_GetState c conn := match cl_conns c !! conn with Some (_, state) => state | None => conn_Shutdown end;
  grpc_Dial c addr :=
    let conn := fresh (dom (cl_conns c)) in
    (mkCluster (cl_servers c) (<[conn := (addr, 0)]> (cl_conns c)) (cl_faults c) (cl_envs c), Ok conn);
  conn_Close c conn :=
    mkCluster (cl_servers c) (alter (λ x, (x.1, conn_Shutdown)) conn (cl_conns c)) (cl_faults c) (cl_envs c);
  rpc_write c conn req p epoch := cl_call c conn (λ srv, Server_write srv (cl_envs c) req p epoch);
  rpc_Get c conn key p := cl_call c conn (cl_read (λ srv, Server_Get srv key p));
  rpc_GetField c conn pk fn p := cl_call c conn (cl_read (λ srv, Server_GetField srv pk fn p));
  rpc_GetAllFields c conn pk p := cl_call c conn (cl_read (λ srv, Server_GetAllFields srv pk p))
|}.

(** Either the node executed the call or nothing happened. *)
Lemma cl_call_ok {A} (c : Cluster D) conn a f (c' : Cluster D) (resp : option A) :
  cl_addr c conn = Some a → cl_call c conn f = (c', resp) →
  cl_conns c' = cl_conns c ∧ (∀ a', a' ≠ a → cl_data c' a' = cl_data c a') ∧
  (cl_servers c' = cl_servers c ∧ resp = None ∨
   ∃ srv srv' r, cl_servers c !! a = Some srv ∧ f srv = Ret (srv', r) ∧
     cl_servers c' = <[a := srv']> (cl_servers c) ∧ (resp = None ∨ resp = Some r)).
Proof.
  unfold cl_addr, cl_call. intros Ha Hc. destruct (cl_conns c !! conn) as [[addr st]|]; cbn in Ha; simplify_eq.
  assert (∀ servers, (servers = cl_servers c ∨ ∃ srv', servers = <[a := srv']> (cl_servers c)) →
    ∀ a', a' ≠ a → cl_data (cl_set c servers) a' = cl_data c a') as Hother.
  { intros servers Hs a' Hne. unfold cl_data. cbn. destruct Hs as [->|[srv' ->]]; [done|]. by rewrite lookup_insert_ne. }
  destruct (st =? conn_Shutdown); [simplify_eq; split_and!; auto|].
  destruct (cl_servers c !! a) as [srv|] eqn:Es; [|simplify_eq; split_and!; auto].
  destruct (default Delivered (head (cl_faults c))); try (simplify_eq; split_and!; auto; fail);
    (destruct (f srv) as [[srv' r]| |] eqn:Ef; simplify_eq; [|split_and!; auto..]);
    (split_and!; [done|eauto|right; exists srv, srv', r; auto]).
Qed.

(** What a delivered call to an open connection does. *)
Lemma cl_call_delivered {A} (c : Cluster D) conn a st srv f srv' (r : A) :
  cl_conns c !! conn = Some (a, st) → st ≠ conn_Shutdown → cl_servers c !! a = Some srv →
  cl_faults c = [] → f srv = Ret (srv', r) →
  cl_call c conn f = (cl_set c (<[a := srv']> (cl_servers c)), Some r).
Proof.
  intros Hc Hst Hs Hf Hr. unfold cl_call. rewrite Hc, Hs, Hf, Hr, (proj2 (Z.eqb_neq _ _) Hst). done.
Qed.
End cluster.

Section cluster_laws.
  Context {D : Type} `{EngineLaws D}.
Implicit Types (c : Cluster D) (srv : StorageServer.Server D).

Lemma read_result_answers (o : outcome (option bytes)) (k : bytes) (m : gmap bytes bytes) v f :
  (∀ r, o = Ret r → r = m !! k) → read_result o = Ret (v, f, OK) → answers (m !! k) v f.
Proof. intros Ho Hr. destruct o as [[w|]| |]; cbn in Hr; simplify_eq; rewrite <- (Ho _ eq_refl); done. Qed.

Lemma Server_Get_answers srv key p v f :
  Server_Get srv key p = Ret (v, f, OK) → answers (db_view (S_db srv) !! MakePartitionKey p key) v f.
Proof.
  unfold Server_Get, PartitionManager_Get. destruct (negb _); [done|]. apply read_result_answers.
  intros r. apply RocksDB_Get_spec.
Qed.

Lemma Server_GetField_answers srv pk fn p v f :
  Server_GetField srv pk fn p = Ret (v, f, OK) → answers (db_view (S_db srv) !! MakeFieldKey p pk fn) v f.
Proof.
  unfold Server_GetField, FieldStorage_GetField. destruct (negb _); [done|]. apply read_result_answers.
  intros r. apply RocksDB_Get_spec.
Qed.

(** A read changes nothing, and an answer is the server's. *)
Lemma cl_call_read {A} c conn a (f : StorageServer.Server D → outcome A) :
  cl_addr c conn = Some a →
  same_net cl_data cl_addr c (cl_call c conn (cl_read f)).1 ∧
  ∀ r, (cl_call c conn (cl_read f)).2 = Some r → ∃ srv, cl_servers c !! a = Some srv ∧ f srv = Ret r.
Proof.
  intros Ha. destruct (cl_call c conn (cl_read f)) as [c' resp] eqn:E. cbn [fst snd].
  apply (cl_call_ok _ _ a) in E as (Hk & Ho & Hr); [|done]. unfold same_net, cl_addr. rewrite Hk.
  destruct Hr as [[Hs ->]|(srv & srv' & r & Hs & Hf & Hs' & Hr)].
  { split; [|done]. split; [|done]. intros a'. unfold cl_data. by rewrite Hs. }
  unfold cl_read in Hf. destruct (f srv) as [x| |] eqn:Ef; cbn in Hf; simplify_eq. split.
  - split; [|done]. intros a'. unfold cl_data. rewrite Hs', insert_id by done. done.
  - intros y Hy. destruct Hr; simplify_eq. eauto.
Qed.

#[global] Instance Cluster_RPCLaws : StorageRPCLaws (Cluster D).
Proof.
  refine {| node_data := cl_data; conn_addr := cl_addr |}.
  - intros c addr. cbn [grpc_Dial Cluster_RPC fst snd]. unfold cl_addr. cbn [cl_conns]. split; [split; [done|]|].
    + intros conn a Ha. cbn [cl_conns]. rewrite lookup_insert_ne; [done|]. intros <-.
      destruct (cl_conns c !! fresh (dom (cl_conns c))) eqn:E; [|done].
      by apply elem_of_dom_2, is_fresh in E.
    + intros conn [= <-]. by rewrite lookup_insert_eq.
  - intros c conn. split; [done|]. intros conn' a. unfold cl_addr. cbn.
    destruct (decide (conn = conn')) as [->|Hne]; [|by rewrite lookup_alter_ne].
    rewrite lookup_alter_eq. by destruct (cl_conns c !! conn').
  - intros c conn a req p epoch Ha. cbn [rpc_write Cluster_RPC].
    destruct (cl_call c conn _) as [c' resp] eqn:E. apply (cl_call_ok _ _ a) in E as (Hk & Ho & Hr); [|done].
    split_and!; [done|by unfold cl_addr; rewrite Hk|]. unfold cl_data.
    destruct Hr as [[-> ->]|(srv & srv' & r & Hs & Hf & Hs' & Hr)]; [by left|].
    rewrite Hs, Hs', lookup_insert_eq. destruct (write_handlers srv (cl_envs c) req p epoch) as (r' & Hr' & Hok).
    rewrite Hf in Hr'. simplify_eq. destruct r as [ok code]. destruct Hok as [_ Hok].
    destruct Hr as [->| ->], ok; [right; apply Hok|left; apply Hok| |apply Hok].
    destruct Hok as (-> & _ & Hv). exact Hv.
  - intros c conn a key p Ha. cbn [rpc_Get Cluster_RPC]. destruct (cl_call_read c conn a (λ srv, Server_Get srv key p) Ha) as [Hs Hr].
    split; [done|]. intros v f (srv & Hsrv & Hg)%Hr. unfold cl_data. rewrite Hsrv. by apply Server_Get_answers.
  - intros c conn a pk fn p Ha. cbn [rpc_GetField Cluster_RPC].
    destruct (cl_call_read c conn a (λ srv, Server_GetField srv pk fn p) Ha) as [Hs Hr].
    split; [done|]. intros v f (srv & Hsrv & Hg)%Hr. unfold cl_data. rewrite Hsrv. by apply Server_GetField_answers.
  - intros c conn a pk p Ha. apply (cl_call_read c conn a (λ srv, Server_GetAllFields srv pk p) Ha).
Defined.

(** In a cluster a client is always found, with an open connection to the node. *)
Lemma cl_storage_client s c node s1 c1 res :
  storage_client s c node = (s1, c1, res) → compute_ok s c →
  cl_servers c1 = cl_servers c ∧ cl_faults c1 = cl_faults c ∧ cl_envs c1 = cl_envs c ∧
  ∃ conn st, res = Ok conn ∧ cl_conns c1 !! conn = Some (node, st) ∧ st ≠ conn_Shutdown.
Proof.
  intros Hc Hok. pose proof (storage_client_ok _ _ _ _ _ _ Hc Hok) as (_ & _ & _ & Haddr).
  destruct Hok as [Hp Hr]. unfold storage_client, NodeResolver_ResolveAddr in Hc.
  destruct (NR_cache (CS_nodeResolver s) !! node) as [addr|] eqn:E; [rewrite (Hr _ _ E) in Hc|];
    cbn [CS_set_resolver CS_pool] in Hc; unfold ConnectionPool_GetStorageClient, ConnectionPool_getConn, getConn_create,
    ConnectionPool_dial in Hc; cbn [conn_GetState grpc_Dial Cluster_RPC CP_conns CP_set_conns] in Hc;
    (destruct (CP_conns (CS_pool s) !! node) as [conn|] eqn:Econn;
     [specialize (Hp _ _ Econn); cbn in Hp; unfold cl_addr in Hp;
      destruct (cl_conns c !! conn) as [[a st]|] eqn:Est; cbn in Hp; simplify_eq;
      destruct (Z.eqb_spec st conn_Shutdown); cbn [negb] in Hc; [rewrite lookup_delete_eq in Hc|]|]);
    simplify_eq; split_and!; try done; eexists _, _; (split; [done|]);
    solve [cbn; rewrite lookup_insert_eq; split; [done|by vm_compute] | done].
Qed.
End cluster_laws.

Section end_to_end.
  Context {D : Type} `{EngineLaws D}.
Implicit Types (c : Cluster D) (srv : StorageServer.Server D).

(** An acknowledged write was executed by the node's handler. *)
Lemma do_write_acked s c node req p epoch s' c' :
  do_write s c node req p epoch = (s', c', None) → compute_ok s c →
  compute_ok s' c' ∧ ∃ srv srv', cl_servers c !! node = Some srv ∧
    Server_write srv (cl_envs c) req p epoch = Ret (srv', (true, OK)) ∧
    cl_servers c' = <[node := srv']> (cl_servers c).
Proof.
  intros Hw Hok. pose proof (do_write_ok _ _ _ _ _ _ _ _ _ Hw Hok) as (Hok' & _). split; [done|].
  unfold do_write in Hw. destruct (storage_client s c node) as [[s1 c1] res] eqn:Ec.
  apply cl_storage_client in Ec as (Hs & _ & He & conn & st & -> & Hconn & _); [|done].
  cbn [rpc_write Cluster_RPC] in Hw.
  destruct (cl_call c1 conn _) as [c2 resp] eqn:Ecall.
  apply (cl_call_ok _ _ node) in Ecall as (_ & _ & Hr); [|unfold cl_addr; by rewrite Hconn].
  rewrite Hs, He in Hr.
  destruct resp as [[ok code]|]; [|done].
  destruct ok; cbn in Hw; [|done]. case_bool_decide; cbn in Hw; simplify_eq.
  destruct Hr as [[_ ?]|(srv & srv' & r & Hsrv & Hf & Hs' & [?|?])]; simplify_eq. eauto.
Qed.

(** The compute node and the cluster after a call that changed at most servers. *)
Definition call_keeps s c s' c' : Prop :=
  CS_router s' = CS_router s ∧ compute_ok s' c' ∧ cl_faults c' = [] ∧ cl_envs c' = cl_envs c.

(** A call through the pool to a node that answers. *)
Lemma client_call_delivered {A} (f : StorageServer.Server D → outcome (StorageServer.Server D * A))
    s c node srv srv' r :
  compute_ok s c → cl_servers c !! node = Some srv → cl_faults c = [] → f srv = Ret (srv', r) →
  ∃ s1 c1 conn c2, storage_client s c node = (s1, c1, Ok conn) ∧ cl_call c1 conn f = (c2, Some r) ∧
    cl_envs c1 = cl_envs c ∧ cl_servers c2 = <[node := srv']> (cl_servers c) ∧ call_keeps s c s1 c2.
Proof.
  intros Hok Hsrv Hf Hr. destruct (storage_client s c node) as [[s1 c1] res] eqn:Ec.
  pose proof (storage_client_ok _ _ _ _ _ _ Ec Hok) as (Hok1 & _ & Hrt & _).
  apply cl_storage_client in Ec as (Hs & Hf' & He & conn & st & -> & Hconn & Hst); [|done].
  eexists s1, c1, conn, _. split; [done|]. rewrite (cl_call_delivered c1 conn node st srv f srv' r); try done.
  - rewrite Hs. split_and!; [done..|]. unfold call_keeps. cbn. rewrite Hf', Hf, He. split_and!; [done| |done..].
    apply (compute_ok_same s1 c1); [done|]. by intros ??.
  - by rewrite Hs.
  - by rewrite Hf'.
Qed.

(** A write to a node that executes it. *)
Lemma do_write_delivered s c node req p epoch srv srv' :
  compute_ok s c → cl_servers c !! node = Some srv → cl_faults c = [] →
  Server_write srv (cl_envs c) req p epoch = Ret (srv', (true, OK)) →
  ∃ s' c', do_write s c node req p epoch = (s', c', None) ∧
    cl_servers c' = <[node := srv']> (cl_servers c) ∧ call_keeps s c s' c'.
Proof.
  intros Hok Hsrv Hf Hr.
  destruct (client_call_delivered (λ srv, Server_write srv (cl_envs c) req p epoch) s c node srv srv' (true, OK))
    as (s1 & c1 & conn & c2 & Ec & Er & He & Hs & Hk); [done..|].
  exists s1, c2. split_and!; [|done..]. unfold do_write. rewrite Ec. cbn [rpc_write Cluster_RPC].
  by rewrite He, Er.
Qed.

(** A read of a node that answers. *)
Lemma do_read_delivered {A} (f : StorageServer.Server D → outcome (A * bool * ErrorCode)) s c node srv v b :
  compute_ok s c → cl_servers c !! node = Some srv → cl_faults c = [] → f srv = Ret (v, b, OK) →
  ∃ s' c', do_read (λ net client, cl_call net client (cl_read f)) s c node = (s', c', Ok (v, b)) ∧
    cl_servers c' = cl_servers c ∧ call_keeps s c s' c'.
Proof.
  intros Hok Hsrv Hf Hr.
  destruct (client_call_delivered (cl_read f) s c node srv srv (v, b, OK))
    as (s1 & c1 & conn & c2 & Ec & Er & _ & Hs & Hk); [done..|by unfold cl_read; rewrite Hr|].
  exists s1, c2. split_and!; [|by rewrite Hs, insert_id|done]. unfold do_read. rewrite Ec, Er.
  by rewrite bool_decide_eq_true_2.
Qed.

(** A read that the primary answers does not look at the replica. *)
Lemma forward_read_primary {A} (f : Z → StorageServer.Server D → outcome (A * bool * ErrorCode))
    Sum64 s c key primary replica p epoch srv v b :
  compute_ok s c → cl_servers c !! primary = Some srv → cl_faults c = [] →
  ComputeRouter_GetPartitionNodes Sum64 (CS_router s) key = Ok (primary, replica, p, epoch) →
  f p srv = Ret (v, b, OK) →
  ∃ s' c', forward_read Sum64 s c key
    (λ s c node pid, do_read (λ net client, cl_call net client (cl_read (f pid))) s c node) = (s', c', Ok (v, b)) ∧
    cl_servers c' = cl_servers c ∧ call_keeps s c s' c'.
Proof.
  intros Hok Hsrv Hf Hr Hv. unfold forward_read. rewrite Hr.
  destruct (do_read_delivered (f p) s c primary srv v b Hok Hsrv Hf Hv) as (s' & c' & -> & Hk). by exists s', c'.
Qed.
End end_to_end.

(** C11: a client reads its own writes through the compute layer.  Once a write
    has been acknowledged, [Get] of every key and [GetField] of every field in the
    partition of the written key return what the primary's data holds after
    exactly that write, provided the primary can still be reached and its engine
    answers. *)
Theorem acknowledged_write_is_read {D} `{EngineLaws D} Sum64 s (c : Cluster D) w s' (c' : Cluster D)
    primary replica p epoch :
  compute_ok s c → ComputeServer_write Sum64 s c w = (s', c', Ok true) →
  ComputeRouter_GetPartitionNodes Sum64 (CS_router s) (client_key w) = Ok (primary, replica, p, epoch) →
  cl_faults c' = [] → (∀ srv, cl_servers c' !! primary = Some srv → db_healthy (S_db srv)) →
  let m := batch_apply (node_data c primary) (req_ops p (client_req w)) in
  let answer o := match o with Some v => Ok (v, true) | None => Ok ([], false) end in
  (∀ key, CalculatePartition Sum64 key = p →
     (ComputeServer_Get Sum64 s' c' key).2 = answer (m !! MakePartitionKey p key)) ∧
  (∀ pk fn, CalculatePartition Sum64 pk = p →
     (ComputeServer_GetField Sum64 s' c' pk fn).2 = answer (m !! MakeFieldKey p pk fn)).
Proof.
  intros Hok Hw Hr Hf Hh m answer.
  pose proof (forward_write_ok _ _ _ _ _ _ _ Hw Hok) as (Hok' & _ & Hrt & _).
  rewrite ComputeServer_write_forward in Hw. unfold forward_write in Hw. rewrite Hr in Hw.
  destruct (do_write s c primary (client_req w) p epoch) as [[s1 c1] [e|]] eqn:Ew; [done|]. simplify_eq.
  apply do_write_acked in Ew as (_ & srv & srv' & Hsrv & Hack & Hs'); [|done].
  assert (cl_servers c' !! primary = Some srv') as Hsrv' by (rewrite Hs'; apply lookup_insert_eq).
  destruct (acknowledged_reads srv srv' _ _ _ _ Hack (Hh _ Hsrv')) as [Hget Hfield].
  assert (m = batch_apply (db_view (S_db srv)) (req_ops p (client_req w))) as Hm
    by (unfold m; cbn; unfold cl_data; by rewrite Hsrv).
  rewrite <- Hm in Hget, Hfield.
  assert (∀ key, CalculatePartition Sum64 key = p →
    ComputeRouter_GetPartitionNodes Sum64 (CS_router s') key = Ok (primary, replica, p, epoch)) as Hroute.
  { intros key Hkey. revert Hr. unfold ComputeRouter_GetPartitionNodes. rewrite Hrt, Hkey.
    unfold ComputeRouter_GetPartitionNodesByID.
    destruct (CT_Partitions _ !! CalculatePartition Sum64 (client_key w)) eqn:E; [|done].
    intros [= <- <- <- <-]. by rewrite E. }
  unfold answer. split; intros.
  - specialize (Hget key). destruct (m !! _);
      (edestruct (forward_read_primary (λ p srv, Server_Get srv key p)) as (? & ? & E & _);
       [exact Hok'|exact Hsrv'|exact Hf|by apply Hroute|exact Hget|];
       exact (f_equal snd E)).
  - specialize (Hfield pk fn). destruct (m !! _);
      (edestruct (forward_read_primary (λ p srv, Server_GetField srv pk fn p)) as (? & ? & E & _);
       [exact Hok'|exact Hsrv'|exact Hf|by apply Hroute|exact Hfield|];
       exact (f_equal snd E)).
Qed.

(** ** Examples *)

Definition demo_sum64 (key : bytes) : Z := be_val key.

(** Partitions 97 and 98 (the keys "a" and "b") on the node n1, 99 nowhere. *)
Definition demo_compute : ComputeServer :=
  CS_set_router (NewComputeServer None)
    (ComputeRouter_updateRouteTable (NewComputeRouter "c1" "m") 1
      [demo_row 97 "n1" "n2" 0; demo_row 98 "n1" "n2" 0]).

Definition demo_nodes_of (faults : list netfault) : Cluster MemDB :=
  mkCluster {[ "n1" := demo_server ∅ {[ 97 := mkPartition 97 NORMAL true 0; 98 := mkPartition 98 NORMAL true 0 ]} ]}
    ∅ faults (λ _, demo_env 1).

Lemma demo_compute_ok faults : compute_ok demo_compute (demo_nodes_of faults).
Proof.
  split; intros a c Hl.
  - change ((∅ : gmap string Z) !! a = Some c) in Hl. by rewrite lookup_empty in Hl.
  - change ((∅ : gmap string string) !! a = Some c) in Hl. by rewrite lookup_empty in Hl.
Qed.

Lemma write_reaches_primary_only_witness :
  let '(s', c', res) := ComputeServer_write demo_sum64 demo_compute (demo_nodes_of [LostReply])
    (CPut (str_bytes "a") (str_bytes "1")) in
  res = Error (Errorf "write failed") ∧
  write_effect demo_sum64 demo_compute (demo_nodes_of [LostReply]) (CPut (str_bytes "a") (str_bytes "1")) s' c' res.
Proof.
  destruct (ComputeServer_write demo_sum64 demo_compute (demo_nodes_of [LostReply])
    (CPut (str_bytes "a") (str_bytes "1"))) as [[s' c'] res] eqn:E. split.
  - apply (f_equal snd) in E. cbn [snd] in E. rewrite <- E. vm_compute. reflexivity.
  - apply (write_reaches_primary_only demo_sum64 _ _ _ s' c' res (demo_compute_ok [LostReply]) E).
Defined.

Definition demo_items : list KeyValueItem :=
  [Build_KeyValueItem (str_bytes "a") (str_bytes "1"); Build_KeyValueItem (str_bytes "b") (str_bytes "2");
   Build_KeyValueItem (str_bytes "a") (str_bytes "3")].

Lemma batch_is_atomic_per_partition_witness :
  let '(s', c', res) := ComputeServer_BatchPut demo_sum64 (λ m, (map_to_list m).*1) (λ jobs, jobs)
    demo_compute (demo_nodes_of []) demo_items in
  res = Ok (true, 3) ∧
  ∃ ps : gset Z, (∀ a, node_data c' a = batch_apply (node_data (demo_nodes_of []) a)
       (map (put_op demo_sum64) (items_for demo_sum64 (CS_router demo_compute) ps a demo_items))) ∧ 97 ∈ ps.
Proof.
  destruct (ComputeServer_BatchPut demo_sum64 (λ m, (map_to_list m).*1) (λ jobs, jobs)
    demo_compute (demo_nodes_of []) demo_items) as [[s' c'] res] eqn:E.
  assert (res = Ok (true, 3)) as Hres
    by (apply (f_equal snd) in E; cbn [snd] in E; rewrite <- E; vm_compute; reflexivity).
  split; [exact Hres|].
  destruct (batch_is_atomic_per_partition demo_sum64 (λ m, (map_to_list m).*1) (λ jobs, jobs) demo_compute
    (demo_nodes_of []) demo_items s' c' res (demo_compute_ok []) (λ _, reflexivity _) (λ _, reflexivity _) E)
    as (ps & Hd & Hall).
  exists ps. split; [exact Hd|]. destruct (Hall _ _ Hres) as (_ & _ & Hin).
  exact (proj1 (Hin (Build_KeyValueItem (str_bytes "a") (str_bytes "1")) (list_elem_of_here _ _))).
Defined.

Lemma acknowledged_write_is_read_witness :
  let '(s', c', res) := ComputeServer_write demo_sum64 demo_compute (demo_nodes_of [])
    (CPut (str_bytes "a") (str_bytes "1")) in
  res = Ok true ∧ (ComputeServer_Get demo_sum64 s' c' (str_bytes "a")).2 = Ok (str_bytes "1", true).
Proof.
  destruct (ComputeServer_write demo_sum64 demo_compute (demo_nodes_of [])
    (CPut (str_bytes "a") (str_bytes "1"))) as [[s' c'] res] eqn:E.
  assert (res = Ok true ∧ cl_faults c' = [] ∧
    (λ srv, (mem_faults (S_db srv), mem_rfault (S_db srv))) <$> cl_servers c' !! "n1" = Some ([], false))
    as (Hres & Hf & Hh).
  { assert (∀ x y, x = y → x = (s', c', res) → res = y.2 ∧ cl_faults c' = cl_faults y.1.2 ∧
      (λ srv, (mem_faults (S_db srv), mem_rfault (S_db srv))) <$> cl_servers c' !! "n1" =
      (λ srv, (mem_faults (S_db srv), mem_rfault (S_db srv))) <$> cl_servers y.1.2 !! "n1") as Heq
      by (intros x y <- ->; done).
    destruct (Heq _ _ eq_refl E) as (-> & -> & ->). split_and!; vm_compute; reflexivity. }
  split; [exact Hres|]. rewrite Hres in E.
  destruct (acknowledged_write_is_read demo_sum64 demo_compute (demo_nodes_of []) _ s' c' "n1" "n2" 97 0
    (demo_compute_ok []) E eq_refl Hf) as [Hget _].
  - intros srv Hs. rewrite Hs in Hh. cbn in Hh. injection Hh as H1 H2. split; [by rewrite H1|done].
  - rewrite (Hget (str_bytes "a")) by (vm_compute; reflexivity). vm_compute. reflexivity.
Defined.
