(* ===== verification/EndToEnd.v ===== *)
(** * The cluster as one map

    The whole path of a client's request: the metadata service places the
    partitions, the storage nodes and the compute node follow its table, and the
    compute node forwards every request to the primary of its partition.  The
    theorems here compose the components: a cluster that came up serves every
    key, and as long as nothing fails its nodes behave like a single map from
    storage keys to values. *)

From S2P Require Import Prelude Engine Keys FieldCodec FieldStorage CommandLog Proto Partitions Replicator StorageServer Replication HashRing MetaStore MetaRouter MetaServer NodeLifecycle ComputeRouter ComputeServer.

Lemma CalculatePartition_bound Sum64 key : 0 ≤ CalculatePartition Sum64 key < TotalPartitions.
Proof.
  unfold CalculatePartition, TotalPartitions, u32, wrap. pose proof (Z.mod_pos_bound (Sum64 key) 4096 ltac:(lia)).
  rewrite (Z.mod_small (Sum64 key mod 4096)); lia.
Qed.

(** ** A server that executes writes *)

Definition write_ready {D} `{Engine D} (srv : StorageServer.Server D) (p epoch : Z) : Prop :=
  (∃ part, may_write srv p epoch part ∧ P_Status part = NORMAL) ∧ db_healthy (S_db srv).

(** The same lease and the same partitions: the same writes are admitted. *)
Definition same_admission {D} (s s' : StorageServer.Server D) : Prop :=
  PM_partitions (S_pm s') = PM_partitions (S_pm s) ∧ S_etcd s' = S_etcd s ∧
  S_nodeLease s' = S_nodeLease s ∧ S_nodeLeaseLost s' = S_nodeLeaseLost s.

Section ready.
  Context {D : Type} `{EngineLaws D}.
Implicit Types (s srv : StorageServer.Server D).

Lemma ready_same s s' p epoch :
  write_ready s p epoch → same_admission s s' → db_healthy (S_db s') → write_ready s' p epoch.
Proof.
  intros [(part & Hm & Hst) _] (Hp & He & Hl & Hx) Hh. split; [|done]. exists part. split; [|done].
  unfold may_write. by rewrite Hp, He, Hl, Hx.
Qed.

Lemma enqueue_keeps s env p key value del :
  keeps_lease s (Server_enqueueReplication s env p key value del).
Proof.
  unfold Server_enqueueReplication. destruct (S_replicators s !! p); [|done].
  by destruct (if del then _ else _).
Qed.

Lemma enqueue_batch_keeps s env p data : keeps_lease s (Server_enqueueFieldBatchReplication s env p data).
Proof.
  unfold Server_enqueueFieldBatchReplication. destruct (S_replicators s !! p); [|done].
  by destruct (CommandLogReplicator_AppendFieldBatch _ _ _).
Qed.

Lemma enqueue_items_keeps s envs p (l : list (nat * KeyValueItem)) :
  keeps_lease s (foldl (λ s '(i, item),
    Server_enqueueReplication s (envs i) p (Item_Key item) (Item_Value item) false) s l).
Proof.
  revert s. induction l as [|[i item] l IH]; intros s; [done|]. cbn [foldl].
  etrans; [apply enqueue_keeps|apply IH].
Qed.

(** An answered write, its server and the engine after it. *)
Lemma ready_answer s pm d s' (r : bool * ErrorCode) :
  pm = PM_set_db (S_pm s) d → db_healthy d → keeps_lease (S_set_pm s pm) s' → S_pm s' = pm →
  r = (true, OK) →
  ∃ srv', Ret (s', r) = Ret (srv', (true, OK)) ∧ same_admission s srv' ∧ db_healthy (S_db srv').
Proof.
  intros -> Hd (He & Hl & Hx & _) Hpm ->. exists s'. split_and!; [done| |by unfold S_db; rewrite Hpm].
  unfold same_admission. by rewrite Hpm.
Qed.

(** A ready server executes every write, and stays ready. *)
Lemma ready_writes s envs req p epoch :
  write_ready s p epoch →
  ∃ s', Server_write s envs req p epoch = Ret (s', (true, OK)) ∧ same_admission s s' ∧ db_healthy (S_db s').
Proof.
  intros [(part & Hm & Hst) Hh]. assert (write_guard s p epoch = None) as Hg by (apply write_guard_None; eauto).
  destruct Hm as (_ & _ & _ & Hp & _).
  destruct req as [key value|key|pk us|pk f|items]; cbn [Server_write]; unfold Server_Put, Server_Delete,
    Server_SetFields, Server_DeleteField, Server_BatchPut, PartitionManager_Put, PartitionManager_Delete,
    PartitionManager_BatchPut, FieldStorage_ApplyFieldBatch, FieldStorage_DeleteField, status_of,
    PartitionManager_GetPartition, RocksDB_Put, RocksDB_Delete, RocksDB_BatchPut; rewrite Hg;
    rewrite ?(has_partition_true _ _ _ Hp), ?Hp; cbn [negb mbind outcome_bind]; rewrite ?Hst, ?bd_not;
    cbn [andb FS_db FS_partitionID]; change (PM_db (S_pm s)) with (S_db s);
    match goal with |- context [db_write (S_db s) ?ops] =>
      destruct (db_healthy_write (S_db s) ops Hh) as (d & -> & Hd) end; cbn [mbind outcome_bind].
  - eapply ready_answer; [done|done|apply enqueue_keeps|apply enqueue_pm|done].
  - eapply ready_answer; [done|done|apply enqueue_keeps|apply enqueue_pm|done].
  - eapply ready_answer; [done|done|apply enqueue_batch_keeps|apply enqueue_batch_pm|done].
  - eapply ready_answer; [done|done|apply enqueue_batch_keeps|apply enqueue_batch_pm|done].
  - eapply ready_answer; [done|done|apply enqueue_items_keeps|apply enqueue_items_pm|done].
Qed.
End ready.

(** ** Requests *)

Inductive client_op :=
  | OWrite (w : client_write)
  | OGet (key : bytes)
  | OGetField (pk fieldName : bytes).

Inductive client_answer :=
  | AWrite (r : result bool)
  | ARead (r : result (bytes * bool)).

Section one_map.
  Context {D : Type} `{EngineLaws D}.
  Variable Sum64 : bytes → Z.
Implicit Types (s : ComputeServer) (c : Cluster D) (m : gmap bytes bytes).

(** A request handled by the compute node on the cluster. *)
Definition cluster_op s c (op : client_op) : ComputeServer * Cluster D * client_answer :=
  match op with
  | OWrite w => let '(s, c, r) := ComputeServer_write Sum64 s c w in (s, c, AWrite r)
  | OGet key => let '(s, c, r) := ComputeServer_Get Sum64 s c key in (s, c, ARead r)
  | OGetField pk fn => let '(s, c, r) := ComputeServer_GetField Sum64 s c pk fn in (s, c, ARead r)
  end.

Fixpoint cluster_run s c (ops : list client_op) : ComputeServer * Cluster D * list client_answer :=
  match ops with
  | [] => (s, c, [])
  | op :: ops =>
      let '(s, c, a) := cluster_op s c op in
      let '(s, c, rest) := cluster_run s c ops in (s, c, a :: rest)
  end.

(** The same requests against one map from storage keys to values. *)
Definition map_read (o : option bytes) : client_answer :=
  ARead (Ok (match o with Some v => (v, true) | None => ([], false) end)).

Definition map_op m (op : client_op) : gmap bytes bytes * client_answer :=
  match op with
  | OWrite w => (batch_apply m (req_ops (CalculatePartition Sum64 (client_key w)) (client_req w)), AWrite (Ok true))
  | OGet key => (m, map_read (m !! MakePartitionKey (CalculatePartition Sum64 key) key))
  | OGetField pk fn => (m, map_read (m !! MakeFieldKey (CalculatePartition Sum64 pk) pk fn))
  end.

Fixpoint map_run m (ops : list client_op) : gmap bytes bytes * list client_answer :=
  match ops with
  | [] => (m, [])
  | op :: ops => let '(m, a) := map_op m op in let '(m, rest) := map_run m ops in (m, a :: rest)
  end.

(** Every key is routed to a reachable primary that executes its writes. *)
Record serving s c : Prop := mkServing {
  sg_compute : compute_ok s c;
  sg_faults : cl_faults c = [];
  sg_routed : ∀ key, ∃ primary replica epoch srv,
    ComputeRouter_GetPartitionNodes Sum64 (CS_router s) key =
      Ok (primary, replica, CalculatePartition Sum64 key, epoch) ∧
    cl_servers c !! primary = Some srv ∧ write_ready srv (CalculatePartition Sum64 key) epoch
}.

(** The primaries hold the map: each the keys of its partitions. *)
Definition one_copy m s c : Prop :=
  ∀ key primary replica p epoch,
    ComputeRouter_GetPartitionNodes Sum64 (CS_router s) key = Ok (primary, replica, p, epoch) →
    ∀ x, m !! MakePartitionKey p x = cl_data c primary !! MakePartitionKey p x.

Lemma req_ops_partition p req o : o ∈ req_ops p req → ∃ x, wop_key o = MakePartitionKey p x.
Proof.
  destruct req as [k v|k|pk us|pk f|items]; cbn [req_ops].
  - intros ->%list_elem_of_singleton. by exists k.
  - intros ->%list_elem_of_singleton. by exists k.
  - intros [f ->]%update_wop_key. rewrite MakeFieldKey_as_partition. by eexists.
  - intros ->%list_elem_of_singleton. eexists. apply MakeFieldKey_as_partition.
  - intros [i [-> _]]%list_elem_of_fmap. by eexists.
Qed.

(** Writes of one partition do not touch another. *)
Lemma req_ops_other m p q req x :
  is_u32 p → is_u32 q → p ≠ q → batch_apply m (req_ops p req) !! MakePartitionKey q x = m !! MakePartitionKey q x.
Proof.
  intros Hp Hq Hne. apply batch_apply_other. intros o [y ->]%req_ops_partition E.
  by apply MakePartitionKey_inj in E as [? _].
Qed.

(** The route of a key is the row of its partition. *)
Lemma route_row key r primary replica p epoch :
  ComputeRouter_GetPartitionNodes Sum64 r key = Ok (primary, replica, p, epoch) →
  p = CalculatePartition Sum64 key ∧ ComputeRouter_GetPartitionNodesByID r p = Ok (primary, replica, p, epoch).
Proof.
  unfold ComputeRouter_GetPartitionNodes, ComputeRouter_GetPartitionNodesByID.
  destruct (CT_Partitions _ !! CalculatePartition Sum64 key) eqn:E; [|done]. intros [= <- <- <- <-].
  split; [done|]. by rewrite E.
Qed.

(** After a call that replaced one server by one that admits the same. *)
Lemma serving_call s c s' c' node srv srv' :
  serving s c → call_keeps s c s' c' → cl_servers c !! node = Some srv →
  cl_servers c' = <[node := srv']> (cl_servers c) → same_admission srv srv' → db_healthy (S_db srv') →
  serving s' c'.
Proof.
  intros Hs (Hr & Hok & Hf & _) Hn Hc Ha Hh. split; [done..|]. intros key.
  destruct (sg_routed _ _ Hs key) as (primary & replica & epoch & srv0 & Hroute & Hsrv & Hw).
  rewrite Hr. destruct (decide (primary = node)) as [->|Hne].
  - exists node, replica, epoch, srv'. rewrite Hc, lookup_insert_eq. split_and!; [done..|]. simplify_eq.
    by eapply ready_same.
  - exists primary, replica, epoch, srv0. rewrite Hc, lookup_insert_ne by done. done.
Qed.

Lemma Get_ready (srv : StorageServer.Server D) key p epoch :
  write_ready srv p epoch → Server_Get srv key p = match db_view (S_db srv) !! MakePartitionKey p key with
    | Some v => Ret (v, true, OK) | None => Ret ([], false, OK) end.
Proof.
  intros [(part & (_ & _ & _ & Hp & _) & _) Hh]. unfold Server_Get, PartitionManager_Get.
  rewrite (has_partition_true _ _ _ Hp). cbn [negb]. rewrite RocksDB_Get_healthy by done.
  by destruct (db_view _ !! _).
Qed.

Lemma GetField_ready (srv : StorageServer.Server D) pk fn p epoch :
  write_ready srv p epoch → Server_GetField srv pk fn p = match db_view (S_db srv) !! MakeFieldKey p pk fn with
    | Some v => Ret (v, true, OK) | None => Ret ([], false, OK) end.
Proof.
  intros [(part & (_ & _ & _ & Hp & _) & _) Hh]. unfold Server_GetField, FieldStorage_GetField.
  rewrite (has_partition_true _ _ _ Hp). cbn [negb FS_db FS_partitionID]. rewrite RocksDB_Get_healthy by done.
  by destruct (db_view _ !! _).
Qed.

(** A write is executed by the primary and by the map alike. *)
Lemma write_step s c m w :
  serving s c → one_copy m s c →
  ∃ s' c', ComputeServer_write Sum64 s c w = (s', c', Ok true) ∧ serving s' c' ∧
    one_copy (map_op m (OWrite w)).1 s' c'.
Proof.
  intros Hs Hm. destruct (sg_routed _ _ Hs (client_key w)) as (primary & replica & epoch & srv & Hr & Hsrv & Hw).
  set (p := CalculatePartition Sum64 (client_key w)) in *.
  destruct (ready_writes srv (cl_envs c) (client_req w) p epoch Hw) as (srv' & Hx & Ha & Hh).
  destruct (do_write_delivered s c primary (client_req w) p epoch srv srv'
    (sg_compute _ _ Hs) Hsrv (sg_faults _ _ Hs) Hx) as (s' & c' & Hd & Hc & Hk).
  exists s', c'. rewrite ComputeServer_write_forward. unfold forward_write. rewrite Hr, Hd.
  split_and!; [done|by eapply serving_call|].
  destruct (write_handlers srv (cl_envs c) (client_req w) p epoch) as (r & Hr' & Hok).
  rewrite Hx in Hr'. simplify_eq. destruct Hok as (_ & _ & _ & Hv).
  intros key node rep q e Hq x. cbn [map_op fst]. fold p. destruct Hk as (Hrt & _). rewrite Hrt in Hq.
  pose proof (route_row _ _ _ _ _ _ Hq) as [Eq Hrow]. pose proof (route_row _ _ _ _ _ _ Hr) as [_ Hrow0].
  specialize (Hm key node rep q e Hq x). unfold cl_data in *. rewrite Hc.
  destruct (decide (p = q)) as [->|Hne].
  - rewrite Hrow in Hrow0. simplify_eq. rewrite lookup_insert_eq, Hv. rewrite Hsrv in Hm.
    rewrite !batch_apply_last. by rewrite Hm.
  - rewrite req_ops_other by (subst p q; auto using CalculatePartition_u32). rewrite Hm.
    destruct (decide (primary = node)) as [->|Hn]; [|by rewrite lookup_insert_ne].
    rewrite lookup_insert_eq, Hsrv, Hv. by rewrite req_ops_other by (subst p q; auto using CalculatePartition_u32).
Qed.

(** A read of any kind: [f] answers from the stored value of [skey]. *)
Lemma read_step s c m key (skey : Z → bytes) (f : Z → StorageServer.Server D → outcome read_response) :
  serving s c → one_copy m s c →
  (∀ p, ∃ x, skey p = MakePartitionKey p x) →
  (∀ p epoch srv, write_ready srv p epoch → f p srv = match db_view (S_db srv) !! skey p with
     | Some v => Ret (v, true, OK) | None => Ret ([], false, OK) end) →
  ∃ s' c' r, forward_read Sum64 s c key
      (λ s c node pid, do_read (λ net client, cl_call net client (cl_read (f pid))) s c node) = (s', c', r) ∧
    ARead r = map_read (m !! skey (CalculatePartition Sum64 key)) ∧ serving s' c' ∧ one_copy m s' c'.
Proof.
  intros Hs Hm Hsk Hf. destruct (sg_routed _ _ Hs key) as (primary & replica & epoch & srv & Hr & Hsrv & Hw).
  set (p := CalculatePartition Sum64 key) in *. specialize (Hf p epoch srv Hw).
  assert (m !! skey p = db_view (S_db srv) !! skey p) as Hv.
  { destruct (Hsk p) as [x ->]. rewrite (Hm _ _ _ _ _ Hr). unfold cl_data. by rewrite Hsrv. }
  assert (∃ v b, f p srv = Ret (v, b, OK) ∧ ARead (Ok (v, b)) = map_read (m !! skey p)) as (v & b & Hfv & Ha).
  { rewrite Hf, Hv. destruct (db_view (S_db srv) !! skey p); by eexists _, _. }
  destruct (forward_read_primary f Sum64 s c key primary replica p epoch srv v b
    (sg_compute _ _ Hs) Hsrv (sg_faults _ _ Hs) Hr Hfv) as (s' & c' & Hrun & Hc & Hk).
  exists s', c', (Ok (v, b)). split_and!; [done..| |].
  - eapply serving_call; [done..| |done|by destruct Hw]. by rewrite Hc, insert_id.
  - destruct Hk as (Hrt & _). intros k n r0 q e. rewrite Hrt. unfold cl_data. rewrite Hc. apply Hm.
Qed.

Lemma cluster_step s c m op :
  serving s c → one_copy m s c →
  let '(s', c', a) := cluster_op s c op in
  let '(m', a') := map_op m op in
  a = a' ∧ serving s' c' ∧ one_copy m' s' c'.
Proof.
  intros Hs Hm. destruct op as [w|key|pk fn].
  - destruct (write_step s c m w Hs Hm) as (s' & c' & E & H1 & H2). cbn. by rewrite E.
  - destruct (read_step s c m key (λ p, MakePartitionKey p key) (λ p srv, Server_Get srv key p))
      as (s' & c' & r & E & Ha & H1 & H2); [done..|by eexists|by intros; eapply Get_ready|].
    cbn [cluster_op map_op]. change (ComputeServer_Get Sum64 s c key = (s', c', r)) in E. by rewrite E.
  - destruct (read_step s c m pk (λ p, MakeFieldKey p pk fn) (λ p srv, Server_GetField srv pk fn p))
      as (s' & c' & r & E & Ha & H1 & H2); [done..| |by intros; eapply GetField_ready|].
    { intros p. eexists. apply MakeFieldKey_as_partition. }
    cbn [cluster_op map_op]. change (ComputeServer_GetField Sum64 s c pk fn = (s', c', r)) in E. by rewrite E.
Qed.

Lemma cluster_runs s c m ops :
  serving s c → one_copy m s c →
  let '(s', c', a) := cluster_run s c ops in
  let '(m', a') := map_run m ops in
  a = a' ∧ serving s' c' ∧ one_copy m' s' c'.
Proof.
  revert s c m. induction ops as [|op ops IH]; intros s c m Hs Hm; cbn [cluster_run map_run]; [done|].
  pose proof (cluster_step s c m op Hs Hm) as Hstep.
  destruct (cluster_op s c op) as [[s1 c1] a1], (map_op m op) as [m1 b1]. destruct Hstep as (-> & Hs1 & Hm1).
  specialize (IH s1 c1 m1 Hs1 Hm1).
  destruct (cluster_run s1 c1 ops) as [[s2 c2] a2], (map_run m1 ops) as [m2 b2]. destruct IH as (-> & ? & ?).
  done.
Qed.
End one_map.

(** ** From start-up to service *)

(** A storage node that was made with a lease and an empty, healthy database, has
    connected, and has received the table as its first message. *)
Inductive came_up {D N} `{Engine D, Network N} (table : RouteTable) (a : string) : StorageServer.Server D → Prop :=
  | came_up_intro config env (n : Node D) (net net' : N) renv srv :
      NewServer config env = Booted n → be_Grant env ≠ Some 0 →
      db_healthy (S_db (ND_server n)) → db_view (S_db (ND_server n)) = ∅ →
      advertised (STC_ListenAddr (ND_config n)) = Ret a →
      Server_follow n net renv (sendRouteUpdate table).2 = Ret (ND_set_server n srv, net') →
      came_up table a srv.

Section boot.
  Context {D N : Type} `{EngineLaws D, Network N}.

(** A node with a lease that follows a table naming it the primary of [q], and does
    not host [q] yet or hosts it as its primary, executes the writes of [q]. *)
Lemma follow_ready (srv srv' : StorageServer.Server D) (net net' : N) renv table a q row :
  ids_ok table → RT_Partitions table !! q = Some row → RP_Primary row = a →
  Server_updatePartitionsFromRoute srv net renv (sendRouteUpdate table).2 a = Ret (srv', net') →
  S_etcd srv = true → S_nodeLeaseLost srv = false → S_nodeLease srv ≠ 0 → db_healthy (S_db srv) →
  (∀ part, PM_partitions (S_pm srv) !! q = Some part → P_IsPrime part = true ∧ P_Epoch part = 0 ∧ P_Status part = NORMAL) →
  write_ready srv' q 0 ∧ S_db srv' = S_db srv.
Proof.
  intros Hids Hrow Hprim Hf He Hl Hx Hh Hold. pose proof (sendRouteUpdate_ids table Hids) as Hnd.
  destruct (updatePartitions_followed srv net renv _ a Hnd) as (s2 & net2 & Hf' & Hp). rewrite Hf in Hf'. simplify_eq.
  destruct (updatePartitions_keeps _ _ _ _ _ _ _ Hf) as (Het & Hle & Hlx & Hdb). split; [|done].
  split; [|by rewrite Hdb].
  assert (hosted_row (RP_Primary row) (sendRouteUpdate table).2 q = Some (pb_partition row)) as Hhost.
  { assert (q = PI_PartitionId (pb_partition row)) as -> by (rewrite pb_partition_id; symmetry; by apply (Hids q row)).
    apply hosted_row_Some; [done| |by left]. apply elem_of_sendRouteUpdate. eauto. }
  specialize (Hp q). rewrite Hhost in Hp. cbn in Hp.
  unfold may_write. rewrite Het, Hle, Hlx, Hp. eexists. split_and!; try done;
    destruct (PM_partitions (S_pm srv) !! q) as [part|] eqn:E; cbn [followed P_IsPrime P_Epoch P_Status].
  - by destruct (Hold part eq_refl).
  - by apply bool_decide_eq_true.
  - by destruct (Hold part eq_refl) as (_ & -> & _).
  - done.
  - by destruct (Hold part eq_refl) as (_ & _ & ->).
  - done.
Qed.

(** A node that came up executes the writes of the partitions whose primary it is. *)
Lemma came_up_ready table a (srv : StorageServer.Server D) p row :
  came_up (N := N) table a srv → ids_ok table → RT_Partitions table !! p = Some row → RP_Primary row = a →
  write_ready srv p 0 ∧ db_view (S_db srv) = ∅.
Proof.
  intros [config env n net net' renv s Hb Hg Hh He Ha Hf] Hids Hrow Hprim.
  unfold Server_follow in Hf. rewrite Ha in Hf. cbn [mbind outcome_bind] in Hf.
  destruct (Server_updatePartitionsFromRoute _ _ _ _ _) as [[s1 net1]| |] eqn:Hu; cbn [mbind outcome_bind] in Hf; [|done..].
  injection Hf as Hs _. apply NewServer_booted in Hb as (db & lease & _ & _ & _ & _ & Hlease & _ & ->).
  cbn [ND_server] in *. simplify_eq/=.
  eapply follow_ready in Hu as [Hw Hdb]; [|done..| | | | |].
  - split; [done|]. by rewrite Hdb.
  - done.
  - done.
  - cbn [S_nodeLease]. congruence.
  - done.
  - intros part. cbn. by rewrite lookup_empty.
Qed.

(** A new compute node that fetched the table at its start. *)
Lemma started_compute {S} `{Store S} (r : @Router S) config s (c : Cluster D) :
  ids_ok (R_routeTable r) → RT_Partitions (R_routeTable r) ≠ ∅ → 0 < RT_Version (R_routeTable r) →
  ComputeServer_Start (NewComputeServer config) None (λ v, Some (Some (MetaServer_GetRouteTable r v))) None =
    (s, None) →
  CR_routeTable (CS_router s) = wire_table (R_routeTable r) ∧ compute_ok s c.
Proof.
  intros Hids Hne Hv Hs. unfold ComputeServer_Start, ComputeRouter_Start in Hs.
  apply (f_equal fst) in Hs. cbn [fst] in Hs. subst s. split.
  - cbn [CS_router CS_set_router]. by apply refresh_newer.
  - split; intros x y Hl.
    + change ((∅ : gmap string Z) !! x = Some y) in Hl. by rewrite lookup_empty in Hl.
    + change ((∅ : gmap string string) !! x = Some y) in Hl. by rewrite lookup_empty in Hl.
Qed.
End boot.

(** The table of a successful initialisation is well formed. *)
Lemma placed_table {S} `{StoreLaws S} (r r' : @Router S) :
  store_ok (R_store r) → Router_InitCluster r = (r', None) →
  let addrs := NI_Addr <$> storage_nodes (store_view (R_store r)) in
  collision_free DefaultVirtualNodes addrs → ""%string ∉ addrs →
  (2 ≤ size (list_to_set addrs : gset string))%nat →
  ids_ok (R_routeTable r') ∧ RT_Partitions (R_routeTable r') ≠ ∅.
Proof.
  intros Hok Hinit addrs Hcf Hne Hsz. pose proof (InitCluster_table r r' Hok Hinit Hcf Hne Hsz) as Ht. split.
  - intros id p Hp. specialize (Ht id). case_decide; [|congruence]. destruct Ht as (p' & ? & ? & _). congruence.
  - specialize (Ht 0). rewrite decide_True in Ht by (unfold RouterTotalPartitions; lia).
    destruct Ht as (p & Hp & _). intros E. by rewrite E, lookup_empty in Hp.
Qed.

(** C1: a fresh cluster comes up as one map.  The metadata server initialises the
    cluster over at least two storage nodes whose virtual nodes do not collide;
    every storage node was made, holds its lease and has followed the table; a new
    compute node has fetched it at its start.  Then, as long as no call is lost,
    every sequence of writes and reads of keys and fields, over any keys and
    partitions, is answered exactly as one empty map would answer it: every write
    is acknowledged and every read returns the latest write. *)
Theorem fresh_cluster_is_one_map {D N S} `{EngineLaws D, Network N, StoreLaws S} Sum64 (r r' : @Router S)
    (c : Cluster D) config s ops :
  store_ok (R_store r) → Router_InitCluster r = (r', None) →
  let addrs := NI_Addr <$> storage_nodes (store_view (R_store r)) in
  collision_free DefaultVirtualNodes addrs → ""%string ∉ addrs →
  (2 ≤ size (list_to_set addrs : gset string))%nat → 0 < RT_Version (R_routeTable r') →
  (∀ a, a ∈ addrs → ∃ srv, cl_servers c !! a = Some srv ∧ came_up (N := N) (R_routeTable r') a srv) →
  cl_faults c = [] →
  ComputeServer_Start (NewComputeServer config) None (λ v, Some (Some (MetaServer_GetRouteTable r' v))) None =
    (s, None) →
  (cluster_run Sum64 s c ops).2 = (map_run Sum64 ∅ ops).2.
Proof.
  intros Hok Hinit addrs Hcf Hne Hsz Hver Hup Hf Hstart. set (table := R_routeTable r') in *.
  pose proof (InitCluster_table r r' Hok Hinit Hcf Hne Hsz) as Ht. fold addrs table in Ht.
  destruct (placed_table r r' Hok Hinit Hcf Hne Hsz) as [Hids Hnonempty]. fold table in Hids, Hnonempty.
  destruct (started_compute r' config s c Hids Hnonempty Hver Hstart) as [Hcache Hcompute]. fold table in Hcache.
  assert (∀ key, ∃ row srv, RT_Partitions table !! CalculatePartition Sum64 key = Some row ∧
    ComputeRouter_GetPartitionNodes Sum64 (CS_router s) key =
      Ok (RP_Primary row, RP_Replica row, CalculatePartition Sum64 key, 0) ∧
    cl_servers c !! RP_Primary row = Some srv ∧ write_ready srv (CalculatePartition Sum64 key) 0 ∧
    db_view (S_db srv) = ∅) as Hroute.
  { intros key. specialize (Ht (CalculatePartition Sum64 key)). rewrite decide_True in Ht.
    2: { pose proof (CalculatePartition_bound Sum64 key). unfold RouterTotalPartitions, TotalPartitions in *. lia. }
    destruct Ht as (row & Hrow & _ & Hp & _). destruct (Hup _ Hp) as (srv & Hsrv & Hcame).
    destruct (came_up_ready table _ srv _ row Hcame Hids Hrow eq_refl) as [Hw He].
    exists row, srv. split_and!; try done.
    unfold ComputeRouter_GetPartitionNodes, ComputeRouter_GetPartitionNodesByID. rewrite Hcache. cbn.
    by rewrite lookup_fmap, Hrow. }
  assert (serving Sum64 s c) as Hs.
  { split; [done..|]. intros key. destruct (Hroute key) as (row & srv & _ & ? & ? & ? & _). eauto 10. }
  assert (one_copy Sum64 ∅ s c) as Hm.
  { intros key primary replica p epoch Hr x. destruct (Hroute key) as (row & srv & _ & Hr' & Hsrv & _ & He).
    rewrite Hr' in Hr. simplify_eq. unfold cl_data. by rewrite Hsrv, He, !lookup_empty. }
  pose proof (cluster_runs Sum64 s c ∅ ops Hs Hm) as Hrun.
  destruct (cluster_run Sum64 s c ops) as [[s1 c1] a], (map_run Sum64 ∅ ops) as [m' a']. apply Hrun.
Qed.

(** ** A concrete cluster *)

(** The three storage nodes of [demo_store] as [MetaRouter] placed them. *)
Definition demo_placed : @Router MemEtcd := (Router_InitCluster demo_router).1.

Lemma demo_store_addrs :
  let addrs := NI_Addr <$> storage_nodes (store_view (R_store demo_router)) in
  collision_free DefaultVirtualNodes addrs ∧ ""%string ∉ addrs ∧
  (2 ≤ size (list_to_set addrs : gset string))%nat ∧
  ∀ a, a ∈ addrs → a = "storage-1:9001"%string ∨ a = "storage-2:9001"%string ∨ a = "storage-3:9001"%string.
Proof.
  change (R_store demo_router) with demo_store. rewrite demo_addrs_of_store. split_and!.
  - intros a Ha. destruct (demo_collision_free a) as [H1 H2]; [unfold demo_addrs; set_solver|].
    split; [done|]. intros b x Hb. apply H2. unfold demo_addrs. set_solver.
  - set_solver.
  - vm_compute. lia.
  - set_solver.
Qed.

Lemma demo_came_up a :
  advertised a = Ret a → ∃ srv : StorageServer.Server MemDB, came_up (N := unit) (R_routeTable demo_placed) a srv.
Proof.
  intros Ha. destruct demo_store_addrs as (Hcf & Hne & Hsz & _).
  destruct (placed_table demo_router demo_placed demo_store_ok demo_init_succeeds Hcf Hne Hsz) as [Hids _].
  set (cfg := mkStorageConfig "n" a "m" ["e"%string] None "/s" "/l").
  destruct (NewServer (Some cfg) demo_boot) as [n|err h] eqn:E; [|by vm_compute in E].
  pose proof E as (db & lease & Hdb & _ & _ & _ & _ & _ & Hn)%NewServer_booted. cbn in Hdb. simplify_eq.
  destruct (follow_message (mkNode cfg (mkServer (NewPartitionManager "n" (mem_of ∅)) true lease false ∅ ∅)
    (mkHandles true true true false) false false) tt (demo_route_env 1) a _ Ha (sendRouteUpdate_ids _ Hids))
    as (srv & net' & Hf & _).
  exists srv. by econstructor; [exact E|..|exact Hf].
Qed.

Lemma fresh_cluster_is_one_map_witness :
  ∃ s (c : Cluster MemDB), (cluster_run demo_sum64 s c
    [OWrite (CPut (str_bytes "a") (str_bytes "1")); OWrite (CSetField (str_bytes "b") (str_bytes "f") (str_bytes "2"));
     OGet (str_bytes "a"); OGetField (str_bytes "b") (str_bytes "f"); OWrite (CDelete (str_bytes "a"));
     OGet (str_bytes "a")]).2 =
    [AWrite (Ok true); AWrite (Ok true); ARead (Ok (str_bytes "1", true)); ARead (Ok (str_bytes "2", true));
     AWrite (Ok true); ARead (Ok ([], false))].
Proof.
  destruct (demo_came_up "storage-1:9001" eq_refl) as [s1 H1].
  destruct (demo_came_up "storage-2:9001" eq_refl) as [s2 H2].
  destruct (demo_came_up "storage-3:9001" eq_refl) as [s3 H3].
  destruct (ComputeServer_Start (NewComputeServer None) None
    (λ v, Some (Some (MetaServer_GetRouteTable demo_placed v))) None) as [s err] eqn:E.
  assert (err = None) as -> by (apply (f_equal snd) in E; exact (eq_sym E)).
  set (c := mkCluster (<["storage-1:9001" := s1]> (<["storage-2:9001" := s2]> {["storage-3:9001" := s3]})) ∅ []
    (λ _, demo_env 1)).
  exists s, c. destruct demo_store_addrs as (Hcf & Hne & Hsz & Hin).
  rewrite (fresh_cluster_is_one_map (N := unit) demo_sum64 demo_router demo_placed c None s _
    demo_store_ok demo_init_succeeds Hcf Hne Hsz).
  - vm_compute. reflexivity.
  - reflexivity.
  - intros a [->|[->| ->]]%Hin; eexists; (split; [|eassumption]); vm_compute; reflexivity.
  - reflexivity.
  - exact E.
Defined.
