(* ===== verification/ReplicaReads.v ===== *)
(** * ReplicaReads: what clients read when a primary is gone

    Replication ([storage/command_log_replicator.go], [Replicate] of
    [storage/server.go]) composed with the fallback of the compute node's reads
    ([compute/server.go]): the primary does not answer, the replica does, and the
    answer is the state after a prefix of the primary's command log. *)

From S2P Require Import Prelude Engine Keys FieldCodec FieldStorage CommandEntry CommandLog Replay Proto Partitions Replicator StorageServer Replication MetaStore ComputeRouter ComputeServer EndToEnd.

#[local] Open Scope string_scope.
#[local] Open Scope Z_scope.

Section down.
  Context {D : Type} `{EngineLaws D}.
Implicit Types (s : ComputeServer) (c : Cluster D).

(** A call to a node that is not there fails and changes nothing. *)
Lemma do_read_down {A} (f : StorageServer.Server D → outcome (A * bool * ErrorCode)) s c node :
  compute_ok s c → cl_servers c !! node = None → cl_faults c = [] →
  ∃ s' c' err, do_read (λ net client, cl_call net client (cl_read f)) s c node = (s', c', Error err) ∧
    cl_servers c' = cl_servers c ∧ call_keeps s c s' c'.
Proof.
  intros Hok Hnone Hf. unfold do_read. destruct (storage_client s c node) as [[s1 c1] res] eqn:Ec.
  pose proof (storage_client_ok _ _ _ _ _ _ Ec Hok) as (Hok1 & _ & Hrt & _).
  apply cl_storage_client in Ec as (Hs & Hf' & He & conn & st & -> & Hconn & Hst); [|done].
  unfold cl_call. rewrite Hconn, (proj2 (Z.eqb_neq st conn_Shutdown)), Hs, Hnone by done.
  eexists s1, _, _. split_and!; [done|done|]. unfold call_keeps. cbn. rewrite Hf', Hf, He. split_and!; [done| |done..].
  apply (compute_ok_same s1 c1); [done|]. by intros ??.
Qed.

(** A read falls back to the replica when the primary is down. *)
Lemma forward_read_replica {A} (f : Z → StorageServer.Server D → outcome (A * bool * ErrorCode))
    Sum64 s c key primary replica p epoch srv v b :
  compute_ok s c → cl_servers c !! primary = None → cl_servers c !! replica = Some srv → cl_faults c = [] →
  ComputeRouter_GetPartitionNodes Sum64 (CS_router s) key = Ok (primary, replica, p, epoch) →
  f p srv = Ret (v, b, OK) →
  ∃ s' c', forward_read Sum64 s c key
    (λ s c node pid, do_read (λ net client, cl_call net client (cl_read (f pid))) s c node) = (s', c', Ok (v, b)) ∧
    cl_servers c' = cl_servers c.
Proof.
  intros Hok Hnone Hsrv Hf Hr Hv. unfold forward_read. rewrite Hr.
  destruct (do_read_down (f p) s c primary Hok Hnone Hf) as (s1 & c1 & err & -> & Hs1 & _ & Hok1 & Hf1 & _).
  destruct (do_read_delivered (f p) s1 c1 replica srv v b Hok1) as (s2 & c2 & -> & Hs2 & _); [by rewrite Hs1|done|done|].
  exists s2, c2. split; [done|]. by rewrite Hs2.
Qed.

(** The reads of a replica, which hosts the partition in whatever role. *)
Lemma replica_reads (srv : StorageServer.Server D) p key pk fn :
  replica_ready srv p →
  let answer o := match o with Some v => Ret (v, true, OK) | None => Ret ([], false, OK) end in
  Server_Get srv key p = answer (db_view (S_db srv) !! MakePartitionKey p key) ∧
  Server_GetField srv pk fn p = answer (db_view (S_db srv) !! MakeFieldKey p pk fn).
Proof.
  intros [(part & Hp & _) Hh]. unfold Server_Get, Server_GetField, PartitionManager_Get, FieldStorage_GetField.
  rewrite (has_partition_true _ _ _ Hp). cbn [negb FS_db FS_partitionID]. rewrite !RocksDB_Get_healthy by done.
  split; by destruct (db_view _ !! _).
Qed.
End down.

(** C4: when a primary is gone, reads are answered from a prefix of its log.
    A replica that was in step with a primary's command log goes through any number
    of rounds over a network that loses requests and replies; then the primary
    disappears.  Every read of a key or a field of the partition through the compute
    layer is still answered, by the replica, with what applying a prefix of the
    primary's log gives, and that prefix has every entry that was recorded as
    replicated. *)
Theorem replica_answers_log_prefix {D} `{EngineLaws D} Sum64 ticks clr (net : Net D) env m0 j k :
  synced clr net m0 j k → (∀ i n, se_opens (env i) n = true) →
  ∃ clr' net' k', replicationLoop ticks clr net env = Ret (clr', net') ∧
    Forall (λ e, CLR_replicatedSeq clr' < CE_Sequence e) (drop k' (log_of (CLR_commandLog clr))) ∧
    let p := CLR_partitionID clr in
    let state := batch_apply m0 (cmds_ops p (take k' (log_of (CLR_commandLog clr)))) in
    ∀ s (c : Cluster D) key primary replica epoch fn,
      compute_ok s c → cl_faults c = [] → cl_servers c !! primary = None → cl_servers c !! replica = Some (net_server net') →
      ComputeRouter_GetPartitionNodes Sum64 (CS_router s) key = Ok (primary, replica, p, epoch) →
      ARead (ComputeServer_Get Sum64 s c key).2 = map_read (state !! MakePartitionKey p key) ∧
      ARead (ComputeServer_GetField Sum64 s c key fn).2 = map_read (state !! MakeFieldKey p key fn).
Proof.
  intros Y Ho. destruct (replicationLoop_synced ticks clr net env m0 j k Y Ho)
    as (clr' & net' & j' & k' & Hr & Y' & Hj & Hlog & Hp & _).
  exists clr', net', k'. split; [done|]. destruct Y' as [_ _ _ _ _ Hready _ _ Hu [[? _] _] Hv]. rewrite Hlog, ?Hp in *.
  split.
  { replace k' with (j' + (k' - j'))%nat by lia. rewrite <- drop_drop.
    apply Forall_drop. done. }
  intros p state s c key primary replica epoch fn Hok Hf Hnone Hsrv Hroute.
  destruct (replica_reads (net_server net') p key key fn Hready) as [HG HGF]. rewrite Hv in HG, HGF. fold p state in HG, HGF.
  split.
  - assert (∃ v b, Server_Get (net_server net') key p = Ret (v, b, OK) ∧ ARead (Ok (v, b)) = map_read (state !! MakePartitionKey p key))
      as (v & b & Hg & Ha) by (rewrite HG; destruct (state !! MakePartitionKey p key); by eexists _, _).
    destruct (forward_read_replica (λ q srv, Server_Get srv key q) Sum64 s c key primary replica p epoch _ v b
      Hok Hnone Hsrv Hf Hroute Hg) as (s' & c' & E & _).
    change (ComputeServer_Get Sum64 s c key = (s', c', Ok (v, b))) in E. by rewrite E.
  - assert (∃ v b, Server_GetField (net_server net') key fn p = Ret (v, b, OK) ∧ ARead (Ok (v, b)) = map_read (state !! MakeFieldKey p key fn))
      as (v & b & Hg & Ha) by (rewrite HGF; destruct (state !! MakeFieldKey p key fn); by eexists _, _).
    destruct (forward_read_replica (λ q srv, Server_GetField srv key fn q) Sum64 s c key primary replica p epoch _ v b
      Hok Hnone Hsrv Hf Hroute Hg) as (s' & c' & E & _).
    change (ComputeServer_GetField Sum64 s c key fn = (s', c', Ok (v, b))) in E. by rewrite E.
Qed.

Definition demo_reader : ComputeServer :=
  CS_set_router (NewComputeServer None)
    (ComputeRouter_updateRouteTable (NewComputeRouter "c1" "m") 1 [demo_row 7 "n1" "n2" 0]).

Lemma replica_answers_log_prefix_witness :
  ∃ clr' net' k', replicationLoop 3 demo_clr (demo_net [LostReply; LostRequest]) demo_sync_env = Ret (clr', net') ∧
    ARead (ComputeServer_Get (λ _, 7) demo_reader (mkCluster {[ "n2" := net_server net' ]} ∅ [] (λ _, demo_env 1))
      (str_bytes "a")).2 = map_read (batch_apply ∅ (cmds_ops 7 (take k' demo_entries)) !! MakePartitionKey 7 (str_bytes "a")).
Proof.
  destruct (replica_answers_log_prefix (λ _, 7) 3 demo_clr (demo_net [LostReply; LostRequest]) demo_sync_env ∅ 0 0
    (demo_synced _) (λ _ _, eq_refl)) as (clr' & net' & k' & Hr & _ & Hreads).
  exists clr', net', k'. split; [exact Hr|].
  destruct (Hreads demo_reader (mkCluster {[ "n2" := net_server net' ]} ∅ [] (λ _, demo_env 1)) (str_bytes "a")
    "n1" "n2" 0 (str_bytes "f")) as [HG _].
  - split; intros x y Hl.
    + change ((∅ : gmap string Z) !! x = Some y) in Hl. by rewrite lookup_empty in Hl.
    + change ((∅ : gmap string string) !! x = Some y) in Hl. by rewrite lookup_empty in Hl.
  - reflexivity.
  - reflexivity.
  - apply lookup_singleton_eq.
  - vm_compute. reflexivity.
  - rewrite HG, (proj2 demo_log_reached). reflexivity.
Defined.
