(* ===== verification/LiveMigration.v ===== *)
(** * LiveMigration: a partition moves and clients do not notice

    The migration controller, the two storage servers it copies between, the
    metadata router, the nodes that follow the new table and the compute node,
    composed: [migrate_copy] and [migrate_switch] of [metadata/migration.go],
    [ExportSST], [IngestSST] and [updatePartitionsFromRoute] of
    [storage/server.go]. *)

From S2P Require Import Prelude Engine Keys FieldCodec FieldStorage CommandLog Proto Partitions Replicator StorageServer SstTransfer HashRing MetaStore MetaRouter MetaServer NodeLifecycle MigrationController ComputeRouter ComputeServer EndToEnd.

#[local] Open Scope string_scope.
#[local] Open Scope Z_scope.

(** ** The copy *)

Lemma copy_loop_whole send id m total i init (fin : SSTChunk) :
  (∀ j, send j = None) → Forall (λ c, CK_IsLast c = false) init → CK_IsLast fin = true →
  ∃ m', copy_loop send id m total i (init ++ [fin])%list = (m', (init ++ [fin])%list, None).
Proof.
  intros Hsend Hinit Hfin. revert m total i. induction Hinit as [|c init Hc Hinit IH]; intros m total i; cbn [app copy_loop];
    rewrite Hsend, ?Hfin, ?Hc; [by eexists|].
  edestruct IH as [m' ->]. by eexists.
Qed.

Section copy.
  Context {D : Type} `{EngineLaws D, !SstEngine D, !SstLaws D}.
Implicit Types (s src dst : StorageServer.Server D).

(** The same lease. *)
Definition same_lease s s' : Prop :=
  S_etcd s' = S_etcd s ∧ S_nodeLease s' = S_nodeLease s ∧ S_nodeLeaseLost s' = S_nodeLeaseLost s.

(** An export changes the status of its partition and nothing else. *)
Lemma ExportSST_server s s' env p sent err : Server_ExportSST s env p = (s', sent, err) →
  same_lease s s' ∧ S_db s' = S_db s ∧
  ∀ q, q ≠ p → PM_partitions (S_pm s') !! q = PM_partitions (S_pm s) !! q.
Proof.
  assert (∀ sent0 err0, (s, sent0, err0) = (s', sent, err) → same_lease s s' ∧ S_db s' = S_db s ∧
    ∀ q, q ≠ p → PM_partitions (S_pm s') !! q = PM_partitions (S_pm s) !! q) as Hsame by by intros ?? [= <- _ _].
  unfold Server_ExportSST. destruct (PartitionManager_HasPartition (S_pm s) p); cbn [negb]; [|by apply Hsame].
  unfold PartitionManager_SetPartitionStatus. destruct (PM_partitions (S_pm s) !! p) as [part|].
  2: { intros [= <- _ _]. by destruct s as [[]]. }
  assert (∀ sent0 err0, (S_set_pm s (PM_set_partitions (S_pm s)
      (<[p := mkPartition (P_ID part) MIGRATING_OUT (P_IsPrime part) (P_Epoch part)]> (PM_partitions (S_pm s)))),
      sent0, err0) = (s', sent, err) → same_lease s s' ∧ S_db s' = S_db s ∧
    ∀ q, q ≠ p → PM_partitions (S_pm s') !! q = PM_partitions (S_pm s) !! q) as Hset.
  { intros ?? [= <- _ _]. split_and!; [done..|]. intros q Hq. cbn. by rewrite lookup_insert_ne. }
  repeat case_match; by eauto.
Qed.

(** An ingestion keeps the lease, and what is hosted stays hosted as it is. *)
Lemma IngestSST_server s s' env chunks fin err : Server_IngestSST s env chunks fin = (s', err) →
  same_lease s s' ∧ ∀ q part, PM_partitions (S_pm s) !! q = Some part → PM_partitions (S_pm s') !! q = Some part.
Proof.
  unfold Server_IngestSST. destruct (ingest_loop env 0 _ chunks fin) as [q|e|st]; [|by intros [= <- _]|].
  - destruct (negb (q =? 0) && _); intros [= <- _]; [|done]. split; [done|]. intros q' part Hq'.
    unfold PartitionManager_AddPartition. destruct (PM_partitions (S_pm s) !! q) eqn:E; [done|].
    cbn. rewrite lookup_insert_ne; [done|congruence].
  - destruct (IS_file st) as [data|]; [|by intros [= <- _]]. destruct (IS_hasData st); [|by intros [= <- _]].
    destruct (db_ingest (S_db s) data) as [d [e|]]; by intros [= <- _].
Qed.

(** The stream of a partition that has data registers nothing. *)
Lemma IngestSST_registers s s' env entries name ename p fin : entries ≠ [] →
  Server_IngestSST s env (if decide (entries = []) then [mkSSTChunk [] ename true p 0]
     else ((λ d, mkSSTChunk d name false 0 0) <$> file_pieces (length (sst_file entries)) (sst_file entries)) ++
       [mkSSTChunk [] name true 0 0])%list fin = (s', None) →
  PM_partitions (S_pm s') = PM_partitions (S_pm s).
Proof.
  intros Hne. rewrite decide_False by done.
  destruct (file_pieces_concat (length (sst_file entries)) (sst_file entries)) as [Hc Hf]; [done|].
  assert (file_pieces (length (sst_file entries)) (sst_file entries) ≠ []) as Hp
    by (intros E; rewrite E in Hc; by destruct (sst_file_nonempty entries)).
  unfold Server_IngestSST.
  destruct (ingest_loop_file env 0 (mkIngestState None 0 false) _ name fin Hf) as [[err ->]| ->]; [by left|done|done|].
  cbn [IS_file IS_hasData]. by destruct (db_ingest _ _) as [d [e|]]; intros [= <-].
Qed.

(** [migrate_copy] that reaches the switch after a complete export. *)
Lemma migrate_copy_done {S} `{Store S} (mc mc1 : @MigrationController S (StorageCluster D)) m m1 item src src' dst sent :
  SC_servers (MC_net mc) !! PL_SourceNode item = Some src → SC_servers (MC_net mc) !! PL_TargetNode item = Some dst →
  PL_SourceNode item ≠ PL_TargetNode item →
  Server_ExportSST src (SC_export (MC_net mc)) (PL_PartitionID item) = (src', sent, None) →
  migrate_copy mc m item = (mc1, m1, MSwitch) →
  ∃ dst1, Server_IngestSST dst (SC_ingest (MC_net mc)) sent StreamEOF = (dst1, None) ∧
    SC_servers (MC_net mc1) = <[PL_TargetNode item := dst1]> (<[PL_SourceNode item := src']> (SC_servers (MC_net mc))) ∧
    MC_router mc1 = MC_router mc.
Proof.
  intros Hsrc Hdst Hne Hexp. unfold migrate_copy. cbn [net_export StorageCluster_net].
  rewrite Hsrc, Hexp. cbn [net_ingest_start StorageCluster_net].
  apply ExportSST_ok in Hexp as (_ & _ & Hsent). cbv zeta in Hsent.
  assert (∃ init fin, sent = (init ++ [fin])%list ∧ Forall (λ c, CK_IsLast c = false) init ∧ CK_IsLast fin = true)
    as (init & fin & -> & Hi & Hf).
  { subst sent. case_decide; [by exists [], (mkSSTChunk [] (empty_name (PL_PartitionID item)) true (PL_PartitionID item) 0)|].
    eexists _, _. split_and!; [done| |done]. apply Forall_fmap, Forall_true. done. }
  edestruct (copy_loop_whole (net_send (mkStorageCluster (<[PL_SourceNode item:=src']> (SC_servers (MC_net mc)))
    (SC_export (MC_net mc)) (SC_ingest (MC_net mc))) (PL_TargetNode item))) as [m' ->]; [done..|].
  cbn [net_ingest StorageCluster_net SC_servers SC_ingest SC_export]. rewrite lookup_insert_ne, Hdst by done.
  destruct (Server_IngestSST dst _ _ StreamEOF) as [dst1 [e|]] eqn:Hing; intros E; [done|].
  injection E as <- <-. by exists dst1.
Qed.
End copy.

(** ** The switch *)

(** The table that a completed move of the primary leaves in the store. *)
Definition moved_table (v : Z) (table : RouteTable) (p : Z) (row : RoutePartition) (target : string) : RouteTable :=
  mkRouteTable v (<[p := migrated_partition row target true]> (copy_partition <$> RT_Partitions table)).

Lemma moved_table_ids v table p row target :
  ids_ok table → RT_Partitions table !! p = Some row → ids_ok (moved_table v table p row target).
Proof.
  intros Hids Hp q r. cbn. rewrite lookup_insert_Some. intros [[<- <-]|[_ Hr]]; [by apply (Hids p row)|].
  rewrite lookup_fmap in Hr. apply fmap_Some in Hr as (r0 & Hr0 & ->). by apply (Hids q r0).
Qed.

Lemma moved_table_lookup v table p row target q : q ≠ p →
  RT_Partitions (moved_table v table p row target) !! q = copy_partition <$> RT_Partitions table !! q.
Proof. intros Hq. cbn. by rewrite lookup_insert_ne, lookup_fmap. Qed.

Section moved.
  Context {D N S : Type} `{EngineLaws D, !SstEngine D, !SstLaws D, Network N, StoreLaws S}.
  Variable Sum64 : bytes → Z.
Implicit Types (mc : @MigrationController S (StorageCluster D)) (srv src dst : StorageServer.Server D).

(** [srv] became [srv1]: outside the partition [p], which has moved, it hosts and
    holds what it did. *)
Definition moved_server (p : Z) srv srv1 : Prop :=
  same_lease srv srv1 ∧
  (∀ q part, q ≠ p → PM_partitions (S_pm srv) !! q = Some part → PM_partitions (S_pm srv1) !! q = Some part) ∧
  ∀ q x, is_u32 q → q ≠ p → db_view (S_db srv1) !! MakePartitionKey q x = db_view (S_db srv) !! MakePartitionKey q x.

Lemma moved_source p src src' env sent err :
  Server_ExportSST src env p = (src', sent, err) → moved_server p src src'.
Proof.
  intros (Hl & Hdb & Hp)%ExportSST_server. split_and!; [done| |by intros; rewrite Hdb].
  intros q part Hq. by rewrite Hp.
Qed.

Lemma moved_target p dst dst1 env ienv src src' sent fin : is_u32 p → p ≠ 2 ^ 32 - 1 →
  Server_ExportSST src env p = (src', sent, None) → Server_IngestSST dst ienv sent fin = (dst1, None) →
  moved_server p dst dst1 ∧ ∀ x, db_view (S_db dst1) !! MakePartitionKey p x =
    match db_view (S_db src) !! MakePartitionKey p x with
    | Some v => Some v | None => db_view (S_db dst) !! MakePartitionKey p x end.
Proof.
  intros Hp Hmax Hexp Hing. pose proof (IngestSST_server _ _ _ _ _ _ Hing) as [Hl Hparts].
  apply ExportSST_ok in Hexp as (_ & _ & ->). apply IngestSST_ok in Hing; [|apply partition_entries_NoDup].
  destruct (ingested_partition (db_view (S_db dst)) (db_view (S_db src)) p Hp Hmax) as [H1' H2'].
  rewrite <- Hing in H1', H2'. split; [|done]. split_and!; [done|by eauto|by eauto].
Qed.

(** What the move of [p] from [src] to [dst] leaves of the servers and the table. *)
Record move_done (p : Z) (target : string) (src dst : StorageServer.Server D) (row : RoutePartition)
    (before after : gmap string (StorageServer.Server D)) (table0 table : RouteTable) : Prop := mkMoveDone {
  md_table : ∃ v, table = moved_table v table0 p row target;
  md_servers : ∀ a srv, before !! a = Some srv → ∃ srv1, after !! a = Some srv1 ∧ moved_server p srv srv1;
  md_target : ∃ dst1, after !! target = Some dst1 ∧
    PM_partitions (S_pm dst1) = PM_partitions (S_pm dst) ∧ same_lease dst dst1 ∧
    ∀ x, db_view (S_db dst1) !! MakePartitionKey p x =
      match db_view (S_db src) !! MakePartitionKey p x with
      | Some v => Some v | None => db_view (S_db dst) !! MakePartitionKey p x end
}.

Lemma move_cluster mc mc1 mc2 m m1 m2 item src dst row :
  let p := PL_PartitionID item in let table := R_routeTable (MC_router mc) in
  is_u32 p → p ≠ 2 ^ 32 - 1 → PL_IsPrimary item = true → PL_SourceNode item ≠ PL_TargetNode item →
  SC_servers (MC_net mc) !! PL_SourceNode item = Some src → SC_servers (MC_net mc) !! PL_TargetNode item = Some dst →
  store_ok (R_store (MC_router mc)) → RT_Partitions table !! p = Some row →
  (Server_ExportSST src (SC_export (MC_net mc)) p).2 = None → partition_entries (db_view (S_db src)) p ≠ [] →
  migrate_copy mc m item = (mc1, m1, MSwitch) → migrate_switch mc1 m1 item = (mc2, m2, MEnd None) →
  move_done p (PL_TargetNode item) src dst row (SC_servers (MC_net mc)) (SC_servers (MC_net mc2)) table
    (sv_table (store_view (R_store (MC_router mc2)))).
Proof.
  intros p table Hp Hmax Hpr Hne Hsrc Hdst Hok Hrow Hexp Hent Hcopy Hswitch.
  destruct (Server_ExportSST src _ p) as [[src' sent] err] eqn:Ee. cbn in Hexp. subst err.
  destruct (migrate_copy_done mc mc1 m m1 item src src' dst sent Hsrc Hdst Hne Ee Hcopy) as (dst1 & Hing & Hsrv & Hr1).
  unfold migrate_switch in Hswitch. destruct (Router_CompleteMigration _ _ _ _) as [r [e|]] eqn:Ec; [done|].
  injection Hswitch as <- <-. rewrite Hr1, Hpr in Ec. cbn [MC_set_router MC_router MC_net].
  apply CompleteMigration_done with (p := row) in Ec as (_ & _ & _ & Ht & _); [|done..].
  destruct (moved_target p dst dst1 _ _ src src' sent StreamEOF Hp Hmax Ee Hing) as [Hm Hdata].
  rewrite Hsrv. split.
  - by eexists.
  - intros a srv Ha. destruct (decide (a = PL_TargetNode item)) as [->|Ht'].
    { exists dst1. rewrite lookup_insert_eq. by simplify_eq. }
    rewrite lookup_insert_ne by done. destruct (decide (a = PL_SourceNode item)) as [->|Hs'].
    { exists src'. rewrite lookup_insert_eq. simplify_eq. split; [done|]. by eapply moved_source. }
    exists srv. rewrite lookup_insert_ne by done. done.
  - exists dst1. rewrite lookup_insert_eq. destruct Hm as (Hl & _). split_and!; [done| |done|done].
    apply ExportSST_ok in Ee as (_ & _ & ->). by eapply IngestSST_registers.
Qed.
End moved.

(** ** The clients *)

(** The nodes after a move: each has followed the table it was sent. *)
Definition all_follow {D N} `{Engine D, Network N} (before after : gmap string (StorageServer.Server D)) (table : RouteTable) : Prop :=
  ∀ a srv1, before !! a = Some srv1 → ∃ srv2 (net net' : N) renv,
    Server_updatePartitionsFromRoute srv1 net renv (sendRouteUpdate table).2 a = Ret (srv2, net') ∧
    after !! a = Some srv2 ∧ db_healthy (S_db srv2).

Section invisible.
  Context {D N : Type} `{EngineLaws D, Network N}.
  Variable Sum64 : bytes → Z.
Implicit Types (s : ComputeServer) (c : Cluster D) (srv : StorageServer.Server D).

(** The primary of a partition that did not move still executes its writes. *)
Lemma unmoved_ready p q a row srv srv1 srv2 (net net' : N) renv table :
  q ≠ p → write_ready srv q 0 → moved_server p srv srv1 → ids_ok table →
  RT_Partitions table !! q = Some row → RP_Primary row = a →
  Server_updatePartitionsFromRoute srv1 net renv (sendRouteUpdate table).2 a = Ret (srv2, net') → db_healthy (S_db srv2) →
  write_ready srv2 q 0 ∧ S_db srv2 = S_db srv1.
Proof.
  intros Hq [(part & (He & Hlx & Hl & Hpart & Hprime & Hep) & Hst) _] ((Het & Hle & Hx) & Hparts & _) Hids Hrow Hprim Hf Hh.
  pose proof (updatePartitions_keeps _ _ _ _ _ _ _ Hf) as (_ & _ & _ & Hdb).
  eapply follow_ready; [done..| | | | |]; [congruence..|by rewrite <- Hdb|].
  intros part'. rewrite (Hparts q part Hq Hpart). by intros [= <-].
Qed.

Lemma route_wire s table key :
  CR_routeTable (CS_router s) = wire_table table →
  ComputeRouter_GetPartitionNodes Sum64 (CS_router s) key =
    match RT_Partitions table !! CalculatePartition Sum64 key with
    | Some row => Ok (RP_Primary row, RP_Replica row, CalculatePartition Sum64 key, 0)
    | None => Error (Errorf "partition not found in route table")
    end.
Proof.
  intros Hc. unfold ComputeRouter_GetPartitionNodes, ComputeRouter_GetPartitionNodesByID. rewrite Hc. cbn.
  rewrite lookup_fmap. by destruct (RT_Partitions table !! _).
Qed.

(** The rows before a move, from the point of view of a compute node that has them. *)
Lemma serving_row s c table key m :
  serving Sum64 s c → one_copy Sum64 m s c → CR_routeTable (CS_router s) = wire_table table →
  let q := CalculatePartition Sum64 key in
  ∃ row srv, RT_Partitions table !! q = Some row ∧ cl_servers c !! RP_Primary row = Some srv ∧ write_ready srv q 0 ∧
    ∀ x, m !! MakePartitionKey q x = db_view (S_db srv) !! MakePartitionKey q x.
Proof.
  intros Hs Hm Hc q. destruct (sg_routed _ _ _ Hs key) as (primary & replica & epoch & srv & Hr & Hsrv & Hw).
  pose proof (Hm _ _ _ _ _ Hr) as Hx. rewrite (route_wire s table key Hc) in Hr. fold q in Hr.
  destruct (RT_Partitions table !! q) as [row|]; [|done]. injection Hr as <- <- <-. exists row, srv.
  split_and!; [done..|]. intros x. rewrite Hx. unfold cl_data. by rewrite Hsrv.
Qed.

(** The target of a move, after it has followed the table. *)
Lemma target_ready p target src dst row before after table0 table dst1 srv2 (net net' : N) renv :
  move_done p target src dst row before after table0 table → ids_ok table → after !! target = Some dst1 →
  Server_canWrite dst = true → PM_partitions (S_pm dst) !! p = None →
  Server_updatePartitionsFromRoute dst1 net renv (sendRouteUpdate table).2 target = Ret (srv2, net') → db_healthy (S_db srv2) →
  write_ready srv2 p 0 ∧ S_db srv2 = S_db dst1.
Proof.
  intros [[v Ht] _ (d & Hd & Hparts & (Hle & Hll & Hlx) & _)] Hids Hdst1 Hcw Hnew Hf Hh.
  rewrite Hdst1 in Hd. injection Hd as <-. subst table.
  pose proof (updatePartitions_keeps _ _ _ _ _ _ _ Hf) as (_ & _ & _ & Hdb).
  unfold Server_canWrite in Hcw. destruct (S_etcd dst) eqn:Het; [|done]. cbn [negb] in Hcw. unbool.
  eapply (follow_ready dst1 srv2 net net' renv _ target p (migrated_partition row target true));
    [done|apply lookup_insert_eq|done|done|congruence|congruence|by rewrite Hll|by rewrite <- Hdb|by rewrite Hparts, Hnew].
Qed.

(** After the move, every key is routed to a node that executes its writes and has
    its data. *)
Lemma moved_routes p target src dst row s c c' after table0 table data key :
  serving Sum64 s c → one_copy Sum64 data s c → CR_routeTable (CS_router s) = wire_table table0 →
  ids_ok table0 → RT_Partitions table0 !! p = Some row → cl_servers c !! RP_Primary row = Some src →
  Server_canWrite dst = true → PM_partitions (S_pm dst) !! p = None → (∀ x, db_view (S_db dst) !! MakePartitionKey p x = None) →
  move_done p target src dst row (cl_servers c) after table0 table → all_follow (N := N) after (cl_servers c') table →
  let q := CalculatePartition Sum64 key in
  ∃ row' srv2, RT_Partitions table !! q = Some row' ∧ cl_servers c' !! RP_Primary row' = Some srv2 ∧ write_ready srv2 q 0 ∧
    ∀ x, data !! MakePartitionKey q x = db_view (S_db srv2) !! MakePartitionKey q x.
Proof.
  intros Hs Hm Hcache Hids Hrow Hsrc Hcw Hnew Hempty Hmd Hfollow q.
  pose proof Hmd as [[v Ht] Hmoved (dst1 & Hdst1 & _ & _ & Hdata)].
  assert (ids_ok table) as Hids' by (rewrite Ht; by apply moved_table_ids).
  destruct (serving_row s c _ key data Hs Hm Hcache) as (rowq & srv & Hq & Hsrvq & Hw & Hdq).
  fold q in Hq, Hw, Hdq. destruct (decide (q = p)) as [Eq|Hqp].
  - rewrite Eq in *. rewrite Hrow in Hq. injection Hq as <-. rewrite Hsrc in Hsrvq. injection Hsrvq as <-.
    destruct (Hfollow _ _ Hdst1) as (dst2 & net & net' & renv & Hf & Hc2 & Hh2).
    destruct (target_ready _ _ _ _ _ _ _ _ _ dst1 dst2 net net' renv Hmd Hids' Hdst1 Hcw Hnew Hf Hh2) as [Hw2 Hdb2].
    exists (migrated_partition row target true), dst2. split_and!; [by rewrite Ht; apply lookup_insert_eq|done..|].
    intros x. rewrite Hdb2, Hdata, Hempty, Hdq. by destruct (db_view (S_db src) !! _).
  - destruct (Hmoved _ _ Hsrvq) as (srv1 & Hsrv1 & Hms).
    destruct (Hfollow _ _ Hsrv1) as (srv2 & net & net' & renv & Hf & Hc2 & Hh2).
    assert (RT_Partitions table !! q = Some (copy_partition rowq)) as Hrow'
      by (rewrite Ht, moved_table_lookup, Hq by done; done).
    destruct (unmoved_ready p q _ _ srv srv1 srv2 net net' renv table Hqp Hw Hms Hids' Hrow' eq_refl Hf Hh2) as [Hw2 Hdb2].
    exists (copy_partition rowq), srv2. split_and!; [done..|]. intros x. destruct Hms as (_ & _ & Hd).
    rewrite Hdb2, Hd by (done || apply CalculatePartition_u32). apply Hdq.
Qed.
End invisible.

(** C2: moving a partition is invisible to clients.  A cluster serves a map;
    the controller copies a partition that has data to a node that neither hosts nor
    holds it, the export ends without an error, and the route is switched; then
    every node follows the new table, a compute node caches it and no call is lost.
    From then on every sequence of writes and reads, of the moved partition and of
    all others, is answered as by the map of before the move. *)
Theorem migration_is_invisible {D N S} `{EngineLaws D, !SstEngine D, !SstLaws D, Network N, StoreLaws S} Sum64
    (mc mc1 mc2 : @MigrationController S (StorageCluster D)) m m1 m2 item src dst row s s' (c c' : Cluster D) data ops :
  let p := PL_PartitionID item in
  serving Sum64 s c → one_copy Sum64 data s c →
  SC_servers (MC_net mc) = cl_servers c → store_ok (R_store (MC_router mc)) → ids_ok (R_routeTable (MC_router mc)) →
  CR_routeTable (CS_router s) = wire_table (R_routeTable (MC_router mc)) →
  (∃ key, CalculatePartition Sum64 key = p) → RT_Partitions (R_routeTable (MC_router mc)) !! p = Some row →
  RP_Primary row = PL_SourceNode item → PL_IsPrimary item = true → PL_SourceNode item ≠ PL_TargetNode item →
  cl_servers c !! PL_SourceNode item = Some src → cl_servers c !! PL_TargetNode item = Some dst →
  Server_canWrite dst = true → PM_partitions (S_pm dst) !! p = None →
  (∀ x, db_view (S_db dst) !! MakePartitionKey p x = None) →
  (Server_ExportSST src (SC_export (MC_net mc)) p).2 = None → partition_entries (db_view (S_db src)) p ≠ [] →
  migrate_copy mc m item = (mc1, m1, MSwitch) → migrate_switch mc1 m1 item = (mc2, m2, MEnd None) →
  let table := sv_table (store_view (R_store (MC_router mc2))) in
  all_follow (N := N) (SC_servers (MC_net mc2)) (cl_servers c') table →
  CR_routeTable (CS_router s') = wire_table table → compute_ok s' c' → cl_faults c' = [] →
  (cluster_run Sum64 s' c' ops).2 = (map_run Sum64 data ops).2.
Proof.
  intros p Hs Hm Hsc Hok Hids Hcache [key0 Hkey0] Hrow Hprim Hpr Hne Hsrc Hdst Hcw Hnew Hempty Hexp Hent Hcopy Hswitch
    table Hfollow Hcache' Hcomp Hfaults.
  assert (is_u32 p ∧ p ≠ 2 ^ 32 - 1) as [Hp Hmax].
  { pose proof (CalculatePartition_bound Sum64 key0) as Hb. rewrite Hkey0 in Hb.
    unfold TotalPartitions, is_u32 in *. lia. }
  assert (move_done p (PL_TargetNode item) src dst row (cl_servers c) (SC_servers (MC_net mc2))
    (R_routeTable (MC_router mc)) table) as Hmd by (rewrite <- Hsc in *; by eapply move_cluster).
  rewrite <- Hprim in Hsrc.
  assert (Hall := λ key, moved_routes Sum64 p _ src dst row s c c' _ _ table data key
    Hs Hm Hcache Hids Hrow Hsrc Hcw Hnew Hempty Hmd Hfollow).
  pose proof (cluster_runs Sum64 s' c' data ops) as Hrun.
  destruct (cluster_run Sum64 s' c' ops) as [[s2 c2] a], (map_run Sum64 data ops) as [m' a']. apply Hrun.
  - split; [done..|]. intros key. destruct (Hall key) as (row' & srv2 & Hr & Hc2 & Hw & _).
    exists (RP_Primary row'), (RP_Replica row'), 0, srv2. by rewrite (route_wire Sum64 s' table key Hcache'), Hr.
  - intros key primary replica q epoch Hr x. destruct (Hall key) as (row' & srv2 & Hr' & Hc2 & _ & Hd).
    rewrite (route_wire Sum64 s' table key Hcache'), Hr' in Hr. simplify_eq. unfold cl_data. by rewrite Hc2.
Qed.

(** ** Empty partitions *)

(** Moving an empty partition leaves it read-only.  The stream of an empty
    partition makes the target host it as a replica, and the table that names the
    target the primary does not change the role: every write of the partition is
    answered with NOT_PRIMARY. *)
Lemma empty_partition_stays_read_only {D N} `{EngineLaws D, !SstEngine D, !SstLaws D, Network N}
    (src src' dst dst1 : StorageServer.Server D) xenv ienv sent fin p row table (net : N) renv target :
  Server_ExportSST src xenv p = (src', sent, None) → partition_entries (db_view (S_db src)) p = [] → p ≠ 0 →
  PM_partitions (S_pm dst) !! p = None → Server_IngestSST dst ienv sent fin = (dst1, None) →
  ids_ok table → RT_Partitions table !! p = Some row → RP_Primary row = target →
  ∃ dst2 net', Server_updatePartitionsFromRoute dst1 net renv (sendRouteUpdate table).2 target = Ret (dst2, net') ∧
    (Server_canWrite dst2 = true → ∀ envs req epoch, Server_write dst2 envs req p epoch = Ret (dst2, (false, NOT_PRIMARY))).
Proof.
  intros (_ & _ & ->)%ExportSST_ok Hent Hp0 Hnew Hing Hids Hrow <-. rewrite Hent in Hing. rewrite decide_True in Hing by done.
  assert (PM_partitions (S_pm dst1) !! p = Some (mkPartition p NORMAL false 0)) as Hp1.
  { revert Hing. unfold Server_IngestSST. cbn [ingest_loop CK_IsLast CK_Data CK_PartitionId IS_partitionID IS_hasData].
    rewrite (proj2 (Z.eqb_neq p 0)) by done. change (len [] =? 0) with true. change (0 =? 0) with true. cbn [andb negb].
    rewrite (proj2 (Z.eqb_neq p 0)) by done. unfold PartitionManager_HasPartition, PartitionManager_AddPartition.
    rewrite Hnew. cbn. intros [= <-]. cbn. apply lookup_insert_eq. }
  destruct (updatePartitions_followed dst1 net renv _ (RP_Primary row) (sendRouteUpdate_ids table Hids))
    as (dst2 & net' & -> & Hlk). exists dst2, net'. split; [done|]. intros Hcw envs req epoch.
  assert (hosted_row (RP_Primary row) (sendRouteUpdate table).2 p = Some (pb_partition row)) as Hhost.
  { assert (p = PI_PartitionId (pb_partition row)) as -> by (rewrite pb_partition_id; symmetry; by apply (Hids p row)).
    apply hosted_row_Some; [by apply sendRouteUpdate_ids| |by left]. apply elem_of_sendRouteUpdate. eauto. }
  specialize (Hlk p). rewrite Hhost, Hp1 in Hlk. by eapply replica_role_rejects.
Qed.

(** ** A concrete move *)

Definition live_parts : gmap Z Partition := {[ 1 := mkPartition 1 NORMAL true 0 ]}.
Definition live_mc : @MigrationController MemEtcd (StorageCluster MemDB) := demo_moving live_parts.
Definition live_copy := migrate_copy live_mc (RN_migration (started_run "m1" [demo_item] DefaultMigrationConfig)) demo_item.
Definition live_switch := migrate_switch live_copy.1.1 live_copy.1.2 demo_item.
Definition live_table : RouteTable := sv_table (store_view (R_store (MC_router live_switch.1.1))).

Definition live_compute (t : RouteTable) : ComputeServer :=
  CS_set_router (NewComputeServer None) (CR_set_table (NewComputeRouter "c1" "m") (wire_table t)).

Definition live_cluster (servers : gmap string (StorageServer.Server MemDB)) : Cluster MemDB :=
  mkCluster servers ∅ [] (λ _, demo_env 1).

(** Every node of the cluster follows the new table. *)
Definition live_followed : gmap string (StorageServer.Server MemDB) :=
  map_imap (λ a srv, match Server_updatePartitionsFromRoute srv tt (demo_route_env 1) (sendRouteUpdate live_table).2 a with
    | Ret (srv2, _) => Some srv2 | _ => None end) (SC_servers (MC_net live_switch.1.1)).

Lemma live_compute_ok t servers : compute_ok (live_compute t) (live_cluster servers).
Proof.
  split; intros x y Hl.
  - change ((∅ : gmap string Z) !! x = Some y) in Hl. by rewrite lookup_empty in Hl.
  - change ((∅ : gmap string string) !! x = Some y) in Hl. by rewrite lookup_empty in Hl.
Qed.

Lemma live_follow : all_follow (N := unit) (SC_servers (MC_net live_switch.1.1)) live_followed live_table.
Proof.
  intros a srv1 Ha. assert (ids_ok live_table) as Hids by (apply (bool_decide_unpack _); vm_compute; exact I).
  destruct (updatePartitions_followed srv1 tt (demo_route_env 1) _ a (sendRouteUpdate_ids _ Hids)) as (srv2 & net' & E & _).
  exists srv2, tt, net', (demo_route_env 1). split_and!; [done| |].
  - unfold live_followed. rewrite map_lookup_imap, Ha. cbn [mbind option_bind]. by rewrite E.
  - apply updatePartitions_keeps in E as (_ & _ & _ & ->).
    assert (map_Forall (λ _ s, Forall (λ b, b = false) (mem_faults (S_db s)) ∧ mem_rfault (S_db s) = false) (SC_servers (MC_net live_switch.1.1))) as HF
      by (apply (bool_decide_unpack _); vm_compute; exact I).
    by apply (HF a srv1).
Qed.

Definition live_sum : bytes → Z := λ _, 1.
Definition live_data : gmap bytes bytes := {[ MakePartitionKey 1 (str_bytes "a") := str_bytes "1" ]}.

Lemma live_serving :
  let s := live_compute demo_table in let c := live_cluster (SC_servers (MC_net live_mc)) in
  serving live_sum s c ∧ one_copy live_sum live_data s c.
Proof.
  assert (∀ key, ComputeRouter_GetPartitionNodes live_sum (CS_router (live_compute demo_table)) key = Ok ("A", "B", 1, 0)) as HR
    by (intros key; vm_compute; reflexivity).
  split.
  - split; [apply live_compute_ok|done|]. intros key. rewrite HR.
    exists "A", "B", 0, (demo_server live_data live_parts). split_and!; [done|done|].
    split; [|by split]. exists (mkPartition 1 NORMAL true 0). by split_and!.
  - intros key primary replica p epoch E x. rewrite HR in E. simplify_eq. done.
Qed.

Lemma triple_eta {A B C} (x : A * B * C) z : x.2 = z → x = (x.1.1, x.1.2, z).
Proof. destruct x as [[] ?]. by intros <-. Qed.

Lemma migration_is_invisible_witness :
  let ops := [OGet (str_bytes "a"); OWrite (CPut (str_bytes "b") (str_bytes "2")); OGet (str_bytes "b")] in
  live_copy.2 = MSwitch ∧ live_switch.2 = MEnd None ∧
  RP_Primary <$> RT_Partitions live_table !! 1 = Some "C" ∧
  (cluster_run live_sum (live_compute live_table) (live_cluster live_followed) ops).2 =
    [ARead (Ok (str_bytes "1", true)); AWrite (Ok true); ARead (Ok (str_bytes "2", true))].
Proof.
  intros ops. split; [vm_compute; reflexivity|]. split; [vm_compute; reflexivity|]. split; [vm_compute; reflexivity|].
  destruct live_serving as [Hs Hm].
  assert (Hc := triple_eta live_copy MSwitch ltac:(vm_compute; reflexivity)).
  assert (Hw := triple_eta live_switch (MEnd None) ltac:(vm_compute; reflexivity)).
  rewrite (migration_is_invisible (N := unit) live_sum live_mc live_copy.1.1 live_switch.1.1 (RN_migration (started_run "m1" [demo_item] DefaultMigrationConfig))
    live_copy.1.2 live_switch.1.2
    demo_item (demo_server live_data live_parts) (demo_server ∅ ∅) (mkRoutePartition 1 "A" "B" "normal" "" MIGRATION_NONE 1)
    (live_compute demo_table) (live_compute live_table) (live_cluster (SC_servers (MC_net live_mc)))
    (live_cluster live_followed) live_data ops Hs Hm).
  - vm_compute. reflexivity.
  - reflexivity.
  - apply demo_running_synced.
  - apply (bool_decide_unpack _). vm_compute. exact I.
  - reflexivity.
  - exists []. reflexivity.
  - reflexivity.
  - reflexivity.
  - reflexivity.
  - discriminate.
  - reflexivity.
  - reflexivity.
  - reflexivity.
  - reflexivity.
  - intros x. reflexivity.
  - vm_compute. reflexivity.
  - vm_compute. discriminate.
  - exact Hc.
  - exact Hw.
  - exact live_follow.
  - reflexivity.
  - apply live_compute_ok.
  - reflexivity.
Defined.
