(* ===== verification/Metrics.v ===== *)
(** * Metrics: what the servers count

    The Prometheus collectors of [common/metrics.go] as maps from label values to
    numbers: the gauge of the partitions that [storage/partition.go] keeps, the
    counters of the gRPC interceptors of [storage/server.go], [metadata/server.go]
    and [compute/server.go], the gauge of the connection pool of [compute/pool.go]
    and the gauge of the nodes of [metadata/server.go]. *)

From S2P Require Import Prelude Engine Keys FieldCodec FieldStorage CommandLog Proto Partitions Replicator StorageServer HashRing MetaStore MetaRouter MetaServer Failover ComputeServer.

#[local] Open Scope string_scope.
#[local] Open Scope Z_scope.

(** ** Collectors *)

Abbreviation collector K := (gmap K Z).

(** [WithLabelValues(k).Add(d)]. *)
Definition add {K} `{Countable K} (c : collector K) (k : K) (d : Z) : collector K := <[k := default 0 (c !! k) + d]> c.

Definition value {K} `{Countable K} (c : collector K) (k : K) : Z := default 0 (c !! k).

Lemma value_add {K} `{Countable K} (c : collector K) k d k' : value (add c k d) k' = value c k' + if decide (k = k') then d else 0.
Proof.
  unfold value, add. case_decide as E; [subst|].
  - by rewrite lookup_insert_eq.
  - rewrite lookup_insert_ne by done. lia.
Qed.

(** ** PartitionGauge *)

(** [PartitionStatus.String()]. *)
Definition PartitionStatus_String (status : PartitionStatus) : string :=
  match status with
  | NORMAL => "NORMAL" | MIGRATING_OUT => "MIGRATING_OUT" | MIGRATING_IN => "MIGRATING_IN" | OFFLINE => "OFFLINE"
  end.

Abbreviation gauge := (collector string).

Section Gauge.
  Context {D : Type} `{Engine D}.
Implicit Types (pm : PartitionManager D) (g : gauge).

(** What each operation of the partition manager does to the gauge: [AddPartition]
    and [AddPartitionWithEpoch], [RemovePartition], [SetPartitionStatus],
    [UpdateFromRouteTable] and [ImportPartitionData]. *)
Definition gauge_AddPartition pm g (partitionID : Z) : gauge :=
  match PM_partitions pm !! partitionID with
  | Some _ => g
  | None => add g "normal" 1
  end.

Definition gauge_RemovePartition pm g (partitionID : Z) : gauge :=
  match PM_partitions pm !! partitionID with
  | None => g
  | Some partition => add g (PartitionStatus_String (P_Status partition)) (-1)
  end.

Definition gauge_SetPartitionStatus pm g (partitionID : Z) (status : PartitionStatus) : gauge :=
  match PM_partitions pm !! partitionID with
  | None => g
  | Some partition =>
      add (add g (PartitionStatus_String (P_Status partition)) (-1)) (PartitionStatus_String status) 1
  end.

(** The row that [route_row] applies. *)
Definition gauge_route_row (nodeID : string) (parts : gmap Z Partition) g (p : PartitionInfo) : gauge :=
  if bool_decide (PI_Primary p = nodeID) || bool_decide (PI_Replica p = nodeID) then
    match parts !! PI_PartitionId p with
    | None => add g (PartitionStatus_String (PI_Status p)) 1
    | Some existing =>
        if decide (P_Status existing ≠ PI_Status p) then
          add (add g (PartitionStatus_String (P_Status existing)) (-1)) (PartitionStatus_String (PI_Status p)) 1
        else g
    end
  else g.

(** The loop that removes what should not exist. *)
Definition gauge_removed (shouldExist : gset Z) g (entries : list (Z * Partition)) : gauge :=
  foldl (λ g '(id, partition),
    if decide (id ∈ shouldExist) then g else add g (PartitionStatus_String (P_Status partition)) (-1)) g entries.

Definition gauge_UpdateFromRouteTable pm g (partitions : list PartitionInfo) : gauge :=
  let '(parts, shouldExist, g) := foldl (λ '(parts, ex, g) p,
    (route_row (PM_nodeID pm) (parts, ex) p, gauge_route_row (PM_nodeID pm) parts g p))
    (PM_partitions pm, ∅, g) partitions in
  gauge_removed shouldExist g (map_to_list parts).

Definition gauge_ImportPartitionData pm g (partitionID : Z) : gauge :=
  match PM_partitions pm !! partitionID with
  | Some _ => g
  | None => add g (PartitionStatus_String MIGRATING_IN) 1
  end.
End Gauge.

(** The operations, with the gauge. *)
Inductive pm_op :=
  | PAdd (id : Z) (isPrimary : bool)
  | PAddEpoch (id : Z) (isPrimary : bool) (epoch : Z)
  | PRemove (id : Z)
  | PStatus (id : Z) (status : PartitionStatus)
  | PRoute (partitions : list PartitionInfo)
  | PImport (id : Z) (data : option PartitionData).

Definition metered_op {D} `{Engine D} (st : PartitionManager D * gauge) (op : pm_op) : PartitionManager D * gauge :=
  let '(pm, g) := st in
  match op with
  | PAdd id isPrimary => ((PartitionManager_AddPartition pm id isPrimary).1, gauge_AddPartition pm g id)
  | PAddEpoch id isPrimary epoch => ((PartitionManager_AddPartitionWithEpoch pm id isPrimary epoch).1, gauge_AddPartition pm g id)
  | PRemove id => ((PartitionManager_RemovePartition pm id).1, gauge_RemovePartition pm g id)
  | PStatus id status => ((PartitionManager_SetPartitionStatus pm id status).1, gauge_SetPartitionStatus pm g id status)
  | PRoute partitions => (PartitionManager_UpdateFromRouteTable pm partitions, gauge_UpdateFromRouteTable pm g partitions)
  | PImport id data => ((PartitionManager_ImportPartitionData pm id data).1, gauge_ImportPartitionData pm g id)
  end.

(** The additions of a run that the manager accepted, one by one. *)
Definition accepted {D} `{Engine D} (pm : PartitionManager D) (op : pm_op) : Z :=
  match op with
  | PAdd id isPrimary => match (PartitionManager_AddPartition pm id isPrimary).2 with None => 1 | Some _ => 0 end
  | PAddEpoch id isPrimary epoch =>
      match (PartitionManager_AddPartitionWithEpoch pm id isPrimary epoch).2 with None => 1 | Some _ => 0 end
  | _ => 0
  end.

Fixpoint additions {D} `{Engine D} (pm : PartitionManager D) (ops : list pm_op) : Z :=
  match ops with
  | [] => 0
  | op :: ops => accepted pm op + additions (metered_op (pm, ∅) op).1 ops
  end.

(** *** Counting partitions *)

Definition has_status (st : PartitionStatus) (e : Z * Partition) : Prop := P_Status e.2 = st.

#[global] Instance has_status_dec st e : Decision (has_status st e).
Proof. unfold has_status. apply _. Defined.

Definition count (st : PartitionStatus) (parts : gmap Z Partition) : Z :=
  Z.of_nat (length (filter (has_status st) (map_to_list parts))).

Lemma count_insert st parts id p : parts !! id = None →
  count st (<[id := p]> parts) = count st parts + if decide (P_Status p = st) then 1 else 0.
Proof.
  intros Hn. unfold count. rewrite (map_to_list_insert _ _ _ Hn), filter_cons.
  destruct (decide (has_status st (id, p))) as [E|E], (decide (P_Status p = st)) as [E'|E']; try done; cbn [length]; lia.
Qed.

Lemma count_delete st parts id p : parts !! id = Some p →
  count st (delete id parts) = count st parts - if decide (P_Status p = st) then 1 else 0.
Proof.
  intros Hp. pose proof (count_insert st (delete id parts) id p (lookup_delete_eq parts id)) as E.
  rewrite insert_delete_id in E by done. lia.
Qed.

Lemma count_replace st parts id p p' : parts !! id = Some p →
  count st (<[id := p']> parts) =
    count st parts - (if decide (P_Status p = st) then 1 else 0) + if decide (P_Status p' = st) then 1 else 0.
Proof.
  intros Hp. rewrite <- insert_delete_eq, count_insert by apply lookup_delete_eq. by rewrite (count_delete _ _ _ _ Hp).
Qed.

(** What the gauge says of a status, both spellings of the normal one together. *)
Definition gauge_shown (g : gauge) (st : PartitionStatus) : Z :=
  value g (PartitionStatus_String st) + if decide (st = NORMAL) then value g "normal" else 0.

Lemma shown_add g st d st' :
  gauge_shown (add g (PartitionStatus_String st) d) st' = gauge_shown g st' + if decide (st = st') then d else 0.
Proof. unfold gauge_shown. rewrite !value_add. destruct st, st'; cbn [PartitionStatus_String]; repeat case_decide; simplify_eq; lia. Qed.

Lemma shown_add_normal g d st' : gauge_shown (add g "normal" d) st' = gauge_shown g st' + if decide (NORMAL = st') then d else 0.
Proof. unfold gauge_shown. rewrite !value_add. destruct st'; cbn [PartitionStatus_String]; repeat case_decide; simplify_eq; lia. Qed.

Definition gauge_ok (g : gauge) (parts : gmap Z Partition) : Prop := ∀ st, gauge_shown g st = count st parts.

(** *** The operations keep the gauge *)

Section gauge_facts.
  Context {D : Type} `{Engine D}.
Implicit Types (pm : PartitionManager D) (g : gauge) (parts : gmap Z Partition).

Lemma gauge_ok_new g parts id p : gauge_ok g parts → parts !! id = None →
  gauge_ok (add g (PartitionStatus_String (P_Status p)) 1) (<[id := p]> parts).
Proof. intros Hg Hn st. by rewrite shown_add, count_insert, Hg. Qed.

Lemma gauge_ok_add g parts id p : gauge_ok g parts → parts !! id = None → P_Status p = NORMAL →
  gauge_ok (add g "normal" 1) (<[id := p]> parts).
Proof. intros Hg Hn Hp st. by rewrite shown_add_normal, count_insert, Hg, Hp. Qed.

Lemma gauge_ok_delete g parts id p : gauge_ok g parts → parts !! id = Some p →
  gauge_ok (add g (PartitionStatus_String (P_Status p)) (-1)) (delete id parts).
Proof. intros Hg Hp st. rewrite shown_add, (count_delete _ _ _ _ Hp), Hg. case_decide; lia. Qed.

Lemma gauge_ok_replace g parts id p p' : gauge_ok g parts → parts !! id = Some p →
  gauge_ok (add (add g (PartitionStatus_String (P_Status p)) (-1)) (PartitionStatus_String (P_Status p')) 1)
    (<[id := p']> parts).
Proof. intros Hg Hp st. rewrite !shown_add, (count_replace _ _ _ _ _ Hp), Hg. repeat case_decide; lia. Qed.

Lemma gauge_ok_same g parts id p p' : gauge_ok g parts → parts !! id = Some p → P_Status p' = P_Status p →
  gauge_ok g (<[id := p']> parts).
Proof. intros Hg Hp Hs st. rewrite (count_replace _ _ _ _ _ Hp), Hg, Hs. lia. Qed.

Lemma gauge_route_row_ok nodeID parts ex g p : gauge_ok g parts →
  gauge_ok (gauge_route_row nodeID parts g p) (route_row nodeID (parts, ex) p).1.
Proof.
  intros Hg. unfold gauge_route_row, route_row. destruct (_ || _); [|done].
  destruct (parts !! PI_PartitionId p) as [existing|] eqn:E; cbn [fst].
  - case_decide as Hs; [|apply (gauge_ok_same _ _ _ existing); [done..|done]].
    apply (gauge_ok_replace g parts _ existing (mkPartition _ (PI_Status p) _ _)); done.
  - by apply (gauge_ok_new g parts _ (mkPartition _ (PI_Status p) _ _)).
Qed.

Lemma gauge_removed_cons ex g id p l : gauge_removed ex g ((id, p) :: l) =
  gauge_removed ex (if decide (id ∈ ex) then g else add g (PartitionStatus_String (P_Status p)) (-1)) l.
Proof. done. Qed.

(** The removal: the gauge goes down by what is removed. *)
Lemma shown_removed ex g l st :
  gauge_shown (gauge_removed ex g l) st =
    gauge_shown g st - Z.of_nat (length (filter (λ e, has_status st e ∧ e.1 ∉ ex) l)).
Proof.
  revert g. induction l as [|[id p] l IH]; intros g; [cbn; lia|]. rewrite gauge_removed_cons, filter_cons. case_decide as Hin.
  - rewrite decide_False by naive_solver. apply IH.
  - rewrite IH, shown_add. destruct (decide (P_Status p = st)) as [Es|Es].
    + rewrite decide_True by done. cbn [length]. lia.
    + rewrite decide_False by (intros [Hs _]; by apply Es). lia.
Qed.

Lemma count_filter (ex : gset Z) parts st :
  count st (filter (λ e, e.1 ∈ ex) parts) =
    count st parts - Z.of_nat (length (filter (λ e, has_status st e ∧ e.1 ∉ ex) (map_to_list parts))).
Proof.
  induction parts as [|id p parts Hn IH] using map_ind; [by rewrite map_filter_empty|].
  rewrite (map_to_list_insert _ _ _ Hn), filter_cons, count_insert by done. destruct (decide (id ∈ ex)) as [Hin|Hin].
  - rewrite map_filter_insert_True, count_insert by (done || by apply map_lookup_filter_None; left).
    rewrite (decide_False (P := has_status st (id, p) ∧ id ∉ ex)) by naive_solver. lia.
  - rewrite map_filter_insert_False, delete_id by done. destruct (decide (P_Status p = st)) as [Hs|Hs].
    + rewrite decide_True by done. cbn [length]. lia.
    + rewrite decide_False by (by intros [? _]). lia.
Qed.

Lemma gauge_rows_ok nodeID rows parts ex g : gauge_ok g parts →
  let '(parts', ex', g') := foldl (λ '(parts, ex, g) p,
    (route_row nodeID (parts, ex) p, gauge_route_row nodeID parts g p)) (parts, ex, g) rows in
  (parts', ex') = foldl (route_row nodeID) (parts, ex) rows ∧ gauge_ok g' parts'.
Proof.
  revert parts ex g. induction rows as [|p rows IH]; intros parts ex g Hg; [done|]. cbn [foldl].
  pose proof (gauge_route_row_ok nodeID parts ex g p Hg) as Hg'. destruct (route_row nodeID (parts, ex) p) as [parts1 ex1].
  by apply IH.
Qed.

Lemma Import_partitions pm id data :
  PM_partitions (PartitionManager_ImportPartitionData pm id data).1 =
    match PM_partitions pm !! id with
    | Some _ => PM_partitions pm
    | None => <[id := mkPartition id MIGRATING_IN false 0]> (PM_partitions pm)
    end.
Proof.
  unfold PartitionManager_ImportPartitionData. destruct (PM_partitions pm !! id); destruct data as [data|]; try done;
    (destruct (negb _); [done|]); (destruct (0 <? _); [|done]); by destruct (RocksDB_BatchPut _ _) as [d [e|]].
Qed.

(** Nothing lowers the series "normal". *)
Lemma add_status_normal g st d : value (add g (PartitionStatus_String st) d) "normal" = value g "normal".
Proof. rewrite value_add. destruct st; cbn [PartitionStatus_String]; rewrite decide_False by done; lia. Qed.

Lemma route_row_normal nodeID parts g p : value (gauge_route_row nodeID parts g p) "normal" = value g "normal".
Proof.
  unfold gauge_route_row. destruct (_ || _); [|done]. destruct (parts !! _); [case_decide|]; by rewrite ?add_status_normal.
Qed.

Lemma removed_normal ex l g : value (gauge_removed ex g l) "normal" = value g "normal".
Proof.
  revert g. induction l as [|[id p] l IH]; intros g; [done|]. rewrite gauge_removed_cons, IH. case_decide; [done|]. apply add_status_normal.
Qed.

Lemma route_normal pm g rows : value (gauge_UpdateFromRouteTable pm g rows) "normal" = value g "normal".
Proof.
  unfold gauge_UpdateFromRouteTable. generalize (PM_partitions pm) as parts, (∅ : gset Z) as ex.
  revert g. induction rows as [|p rows IH]; intros g parts ex; cbn [foldl]; [by rewrite removed_normal|].
  destruct (route_row (PM_nodeID pm) (parts, ex) p) as [parts1 ex1]. by rewrite IH, route_row_normal.
Qed.

Lemma metered_normal pm g op : value (metered_op (pm, g) op).2 "normal" = value g "normal" + accepted pm op.
Proof.
  destruct op as [id b|id b e|id|id status|rows|id data]; cbn [metered_op snd accepted];
    unfold gauge_AddPartition, gauge_RemovePartition, gauge_SetPartitionStatus, gauge_ImportPartitionData,
      PartitionManager_AddPartition, PartitionManager_AddPartitionWithEpoch;
    rewrite ?route_normal; try destruct (PM_partitions pm !! id); cbn [snd];
    rewrite ?add_status_normal, ?value_add, ?decide_True by done; lia.
Qed.

Lemma accepted_nonneg pm op : 0 ≤ accepted pm op.
Proof. destruct op; cbn [accepted]; try lia; by case_match. Qed.

Lemma metered_pm pm g op : (metered_op (pm, g) op).1 = (metered_op (pm, ∅) op).1.
Proof. by destruct op. Qed.

Lemma run_normal ops pm g : value (foldl metered_op (pm, g) ops).2 "normal" = value g "normal" + additions pm ops.
Proof.
  revert pm g. induction ops as [|op ops IH]; intros pm g; cbn [foldl additions snd]; [lia|].
  rewrite (surjective_pairing (metered_op (pm, g) op)), IH, metered_normal, metered_pm. lia.
Qed.

Lemma metered_op_ok (st : PartitionManager D * gauge) op :
  gauge_ok st.2 (PM_partitions st.1) → gauge_ok (metered_op st op).2 (PM_partitions (metered_op st op).1).
Proof.
  destruct st as [pm g]. intros Hg. cbn [fst snd] in Hg. destruct op as [id b|id b e|id|id status|rows|id data]; cbn [metered_op fst snd].
  - unfold PartitionManager_AddPartition, gauge_AddPartition. destruct (PM_partitions pm !! id) eqn:E; [done|].
    by apply gauge_ok_add.
  - unfold PartitionManager_AddPartitionWithEpoch, gauge_AddPartition. destruct (PM_partitions pm !! id) eqn:E; [done|].
    by apply gauge_ok_add.
  - unfold PartitionManager_RemovePartition, gauge_RemovePartition. destruct (PM_partitions pm !! id) eqn:E; [|done].
    by apply gauge_ok_delete.
  - unfold PartitionManager_SetPartitionStatus, gauge_SetPartitionStatus. destruct (PM_partitions pm !! id) as [p|] eqn:E; [|done].
    by apply (gauge_ok_replace g _ id p (mkPartition (P_ID p) status (P_IsPrime p) (P_Epoch p))).
  - unfold PartitionManager_UpdateFromRouteTable, gauge_UpdateFromRouteTable.
    pose proof (gauge_rows_ok (PM_nodeID pm) rows (PM_partitions pm) ∅ g Hg) as Hr.
    destruct (foldl _ (PM_partitions pm, ∅, g) rows) as [[parts ex] g']. destruct Hr as [<- Hg']. intros st.
    rewrite shown_removed, Hg'. cbn [PM_partitions PM_set_partitions]. by rewrite count_filter.
  - rewrite Import_partitions. unfold gauge_ImportPartitionData. destruct (PM_partitions pm !! id) eqn:E; [done|].
    by apply (gauge_ok_new g _ id (mkPartition id MIGRATING_IN false 0)).
Qed.
End gauge_facts.

(** C40: the partition gauge counts the partitions, in two series.  Through every
    sequence of additions, removals, status changes, route tables and imports, the
    gauge of a status is the number of partitions in it, except that the normal
    ones are the sum of the series "normal", which is exactly the number of
    partitions that were ever added one by one, and so never goes down, and the
    series "NORMAL", from which every normal partition is taken when it leaves. *)
Theorem gauge_counts_partitions {D} `{Engine D} nodeID (db : D) ops :
  let '(pm, g) := foldl metered_op (NewPartitionManager nodeID db, ∅) ops in
  (∀ st, st ≠ NORMAL → value g (PartitionStatus_String st) = count st (PM_partitions pm)) ∧
  value g "normal" + value g "NORMAL" = count NORMAL (PM_partitions pm) ∧
  value g "normal" = additions (NewPartitionManager nodeID db) ops ∧
  ∀ op, value g "normal" ≤ value (metered_op (pm, g) op).2 "normal".
Proof.
  pose proof (run_normal ops (NewPartitionManager nodeID db) ∅) as Hn.
  assert (gauge_ok (foldl metered_op (NewPartitionManager nodeID db, ∅) ops).2
    (PM_partitions (foldl metered_op (NewPartitionManager nodeID db, ∅) ops).1)) as Hg.
  { assert (∀ st : PartitionManager D * gauge, gauge_ok st.2 (PM_partitions st.1) →
      gauge_ok (foldl metered_op st ops).2 (PM_partitions (foldl metered_op st ops).1)) as Hops.
    { clear Hn. induction ops as [|op ops IH]; intros st Hst; [done|]. cbn [foldl]. by apply IH, metered_op_ok. }
    apply Hops. intros st. by destruct st. }
  destruct (foldl metered_op _ ops) as [pm g]. cbn [fst snd] in Hg, Hn. split_and!; [| |done|].
  - intros st Hst. pose proof (Hg st) as E. unfold gauge_shown in E. rewrite decide_False in E by done. lia.
  - pose proof (Hg NORMAL) as E. unfold gauge_shown in E. rewrite decide_True in E by done. cbn [PartitionStatus_String] in E. lia.
  - intros op. rewrite metered_normal. pose proof (accepted_nonneg pm op). lia.
Qed.

(** A partition that came and went. *)
Example gauge_drifts :
  let '(pm, g) := foldl metered_op (NewPartitionManager "n" (mem_of ∅), ∅) [PAdd 1 true; PRemove 1; PAdd 2 true; PRemove 2] in
  PM_partitions pm = ∅ ∧ value g "normal" = 2 ∧ value g "NORMAL" = -2.
Proof. by vm_compute. Qed.

(** ** The interceptors *)

(** [RequestCounter] by service, method and status; of [RequestLatency] the number
    of observations by service and method. *)
Record Requests := mkRequests {
  RM_counter : collector (string * string * string);
  RM_latency : collector (string * string)
}.

Definition observe (m : Requests) (service method statusCode : string) : Requests :=
  mkRequests (add (RM_counter m) (service, method, statusCode) 1) (add (RM_latency m) (service, method) 1).

(** The body that the unary interceptors of the three servers and the stream
    interceptors share; a handler takes the state of the server and returns it with
    an error or a response, which is nothing for a stream. *)
Definition interceptor {St A} (service : string) (m : Requests) (fullMethod : string) (handler : St → St * (goerr + A)) (s : St) :
    Requests * St * (goerr + A) :=
  let '(s, r) := handler s in
  let statusCode := match r with inl _ => "error" | inr _ => "success" end in
  (observe m service fullMethod statusCode, s, r).

Definition storage_unaryInterceptor {St A} := @interceptor St A "storage".
Definition storage_streamInterceptor {St} := @interceptor St unit "storage".
Definition metadata_unaryInterceptor {St A} := @interceptor St A "metadata".
Definition metadata_streamInterceptor {St} := @interceptor St unit "metadata".
Definition compute_unaryInterceptor {St A} := @interceptor St A "compute".

(** A sequence of calls of one method. *)
Fixpoint intercepted {St A} (service : string) (m : Requests) (method : string) (handlers : list (St → St * (goerr + A))) (s : St) :
    Requests * St * list (goerr + A) :=
  match handlers with
  | [] => (m, s, [])
  | handler :: rest =>
      let '(m, s, r) := interceptor service m method handler s in
      let '(m, s, rs) := intercepted service m method rest s in (m, s, r :: rs)
  end.

Fixpoint unintercepted {St A} (handlers : list (St → St * (goerr + A))) (s : St) : St * list (goerr + A) :=
  match handlers with
  | [] => (s, [])
  | handler :: rest => let '(s, r) := handler s in let '(s, rs) := unintercepted rest s in (s, r :: rs)
  end.

(** The interceptors change nothing that the handlers do, and the counters of a
    method and the observations of its latency grow by the number of its calls. *)
Lemma interceptors_transparent {St A} service m method (handlers : list (St → St * (goerr + A))) s :
  let '(m', s', rs) := intercepted service m method handlers s in
  unintercepted handlers s = (s', rs) ∧
  value (RM_latency m') (service, method) = value (RM_latency m) (service, method) + len handlers ∧
  value (RM_counter m') (service, method, "success") + value (RM_counter m') (service, method, "error") =
    value (RM_counter m) (service, method, "success") + value (RM_counter m) (service, method, "error") + len handlers.
Proof.
  revert m s. induction handlers as [|handler rest IH]; intros m s; [cbn; unfold len; cbn; split_and!; [done|lia..]|].
  cbn [intercepted unintercepted]. unfold interceptor. destruct (handler s) as [s1 r].
  specialize (IH (observe m service method (match r with inl _ => "error" | inr _ => "success" end)) s1).
  destruct (intercepted service _ method rest s1) as [[m2 s2] rs]. destruct IH as (-> & HL & HC). split; [done|].
  rewrite HL, HC. unfold observe, len. cbn [RM_latency RM_counter length]. rewrite !value_add.
  split; [rewrite decide_True by done; lia|]. destruct r; repeat case_decide; simplify_eq; lia.
Qed.

(** A storage write as gRPC sees it: a rejected write is a response. *)
Definition write_handler {D} `{Engine D} (envs : nat → Env) (req : write_req) (p epoch : Z) (s : Server D) :
    Server D * (goerr + write_response) :=
  match Server_write s envs req p epoch with
  | Ret (s, r) => (s, inr r)
  | Err e => (s, inl e)
  | Panic => (s, inl (Errorf "panic"))
  end.

(** Every write that the handlers answer counts as a success, a rejected one too. *)
Lemma rejected_write_counts_as_success {D} `{EngineLaws D} (s : Server D) m envs req p epoch method :
  let '(m', _, r) := storage_unaryInterceptor m method (write_handler envs req p epoch) s in
  (∃ resp, r = inr resp) ∧
  value (RM_counter m') ("storage", method, "success") = value (RM_counter m) ("storage", method, "success") + 1.
Proof.
  unfold storage_unaryInterceptor, interceptor, write_handler.
  destruct (write_handlers s envs req p epoch) as ([s' resp] & -> & _). split; [by eexists|].
  cbn [observe RM_counter]. by rewrite value_add, decide_True.
Qed.

(** ** ConnectionPoolSize *)

Section PoolGauge.
  Context {N : Type} `{StorageRPC N}.
Implicit Types (p : ConnectionPool) (net : N) (g : gauge).

(** What [getConn], [RemoveConn] and [Close] of the pool do to the gauge. *)
Definition gauge_getConn_create p net (addr : string) g : gauge :=
  match CP_conns p !! addr with
  | Some _ => g
  | None => match (ConnectionPool_dial net addr).2 with Ok _ => <[addr := 1]> g | Error _ => g end
  end.

Definition gauge_getConn p net (addr : string) g : gauge :=
  match CP_conns p !! addr with
  | Some conn =>
      if negb (conn_GetState net conn =? conn_Shutdown) then g
      else gauge_getConn_create (CP_set_conns p (delete addr (CP_conns p))) net addr g
  | None => gauge_getConn_create p net addr g
  end.

Definition gauge_RemoveConn p (addr : string) g : gauge :=
  match CP_conns p !! addr with Some _ => <[addr := 0]> g | None => g end.

Definition gauge_Close p g : gauge := foldl (λ g row, <[row.1 := 0]> g) g (map_to_list (CP_conns p)).

(** Every connection of the pool shows. *)
Definition pool_shown p g : Prop := ∀ addr, is_Some (CP_conns p !! addr) → value g addr = 1.

Lemma value_set g k x k' : value (<[k := x]> g) k' = if decide (k = k') then x else value g k'.
Proof. unfold value. case_decide as E; [subst; by rewrite lookup_insert_eq|by rewrite lookup_insert_ne]. Qed.

Lemma getConn_create_shown p net addr g :
  pool_shown p g → pool_shown (getConn_create p net addr).1.1 (gauge_getConn_create p net addr g).
Proof.
  intros Hp. unfold getConn_create, gauge_getConn_create. destruct (CP_conns p !! addr) eqn:E; [done|].
  destruct (ConnectionPool_dial net addr) as [net' [conn|e]]; [|done]. intros a. cbn.
  rewrite value_set. case_decide as Ha; [done|]. rewrite lookup_insert_ne by done. apply Hp.
Qed.

Lemma pool_shown_delete p g addr : pool_shown p g → pool_shown (CP_set_conns p (delete addr (CP_conns p))) g.
Proof. intros Hp a. cbn. intros [_ Ha]%lookup_delete_is_Some. by apply Hp. Qed.

(** A connection in the pool shows as one, after every operation; a connection
    that was taken out by [RemoveConn] or [Close] shows as none. *)
Lemma pool_gauge_shows p net addr g : pool_shown p g →
  pool_shown (ConnectionPool_getConn p net addr).1.1 (gauge_getConn p net addr g) ∧
  pool_shown (ConnectionPool_RemoveConn p net addr).1 (gauge_RemoveConn p addr g) ∧
  (is_Some (CP_conns p !! addr) →
     value (gauge_RemoveConn p addr g) addr = 0 ∧ value (gauge_Close p g) addr = 0).
Proof.
  intros Hp. split_and!.
  - unfold ConnectionPool_getConn, gauge_getConn. destruct (CP_conns p !! addr) as [conn|]; [|by apply getConn_create_shown].
    destruct (negb _); [done|]. by apply getConn_create_shown, pool_shown_delete.
  - unfold ConnectionPool_RemoveConn, gauge_RemoveConn. destruct (CP_conns p !! addr) as [conn|]; [|done].
    intros a. cbn. intros [Hne Ha]%lookup_delete_is_Some. rewrite value_set, decide_False by done. by apply Hp.
  - intros [conn Hc]. unfold gauge_RemoveConn. rewrite Hc, value_set, decide_True by done. split; [done|].
    unfold gauge_Close. apply elem_of_map_to_list in Hc. induction (map_to_list (CP_conns p)) as [|row l IH] using rev_ind;
      [by apply not_elem_of_nil in Hc|]. rewrite foldl_app. cbn. rewrite value_set. case_decide as E; [done|].
    apply IH. apply elem_of_app in Hc as [?|Hr]; [done|]. apply list_elem_of_singleton in Hr. by subst row.
Qed.

(** A connection that was shut down and cannot be dialled again is taken out of
    the pool and goes on showing. *)
Lemma lost_connection_shows p net addr g conn :
  pool_shown p g → CP_conns p !! addr = Some conn → conn_GetState net conn = conn_Shutdown →
  (∃ e, (grpc_Dial net addr).2 = Error e) →
  CP_conns (ConnectionPool_getConn p net addr).1.1 !! addr = None ∧ value (gauge_getConn p net addr g) addr = 1.
Proof.
  intros Hp Hc Hs [e He]. unfold ConnectionPool_getConn, gauge_getConn, getConn_create, gauge_getConn_create, ConnectionPool_dial.
  rewrite Hc, Hs, Z.eqb_refl. cbn [negb CP_conns CP_set_conns]. rewrite lookup_delete_eq.
  destruct (grpc_Dial net addr) as [net' r]. cbn in He. subst r. cbn. rewrite lookup_delete_eq. split; [done|].
  apply Hp. by rewrite Hc.
Qed.
End PoolGauge.

(** ** NodeCount *)

(** [RegisterNode] of the metadata server. *)
Definition metered_RegisterNode {S} `{Store S} (st : @Router S * gauge) (now : Z) (nodeId addr : string) (role : pb_NodeRole) :
    Router * gauge :=
  let '(r, g) := st in
  let '(r, success) := MetaServer_RegisterNode r now nodeId addr role in
  (r, if success then add g (node_role role) 1 else g).

(** The gauge counts registrations: a node that registers again, as every node
    does when it starts, counts again. *)
Example node_registers_twice :
  let '(r, g) := metered_RegisterNode (metered_RegisterNode (demo_cluster, ∅) 10 "s9" "s9:7000" COMPUTE) 20 "s9" "s9:7000" COMPUTE in
  value g NodeRoleCompute = 2 ∧
  length (filter (λ n, NI_Role n = NodeRoleCompute) (map_to_list (sv_nodes (store_view (R_store r)))).*2) = 1%nat.
Proof. vm_compute. done. Qed.
