(* ===== verification/Client.v ===== *)
(** * The client libraries

    [src/sdk/go/rockskv/client.go] (the names [Sdk_]) and
    [src/pkg/client/client.go] (the names [Client_]): options, connections, the two
    retry loops and the operations built on them.  The service of a compute node is
    the class [KVService]; its instance is a set of compute servers in front of a
    storage network. *)

From S2P Require Import Prelude Engine Keys Proto StorageServer Replication MetaStore ComputeRouter ComputeServer.

(** ** The service *)

(** The gRPC codes the libraries look at, and the one compute nodes answer. *)
Inductive code := Internal | Unavailable | DeadlineExceeded | OtherCode (n : Z).

(** An error of a call: a status, or an error that [status.FromError] does not know. *)
Inductive callerr := StatusErr (c : code) | PlainErr (e : goerr).

Class KVService (N : Type) := {
  kv_Get : N → string → bytes → N * (callerr + bytes * bool);
  kv_Put : N → string → bytes → bytes → N * (callerr + bool);
  kv_Delete : N → string → bytes → N * (callerr + bool);
  kv_BatchGet : N → string → list bytes → N * (callerr + list (bytes * bytes * bool));
  kv_BatchPut : N → string → list KeyValueItem → N * (callerr + bool * Z)
}.

(** ** The SDK: configuration *)

Inductive sdkerr :=
  | ErrKeyNotFound | ErrTimeout | ErrNoAddrs | ErrClosed
  | ErrNoConnections
  | ErrDial (e : goerr)
  | ErrCall (e : callerr).

Record Sdk_Config := mkSdkConfig {
  SK_Addrs : list string;
  SK_Timeout : Z;
  SK_PoolSize : Z;
  SK_RetryCount : Z;
  SK_RetryDelay : Z;
  SK_MaxRetryDelay : Z;
  SK_KeepAliveTime : Z;
  SK_KeepAliveTimeout : Z
}.

(** Durations in nanoseconds. *)
Definition Millisecond : Z := 1000000.
Definition Second : Z := 1000 * Millisecond.

Definition Sdk_DefaultConfig : Sdk_Config :=
  mkSdkConfig [] (5 * Second) 10 3 (100 * Millisecond) (2 * Second) (30 * Second) (5 * Second).

Definition Sdk_Option : Type := Sdk_Config → Sdk_Config.

Definition WithAddrs (addrs : list string) : Sdk_Option := λ c,
  mkSdkConfig addrs (SK_Timeout c) (SK_PoolSize c) (SK_RetryCount c) (SK_RetryDelay c) (SK_MaxRetryDelay c)
    (SK_KeepAliveTime c) (SK_KeepAliveTimeout c).
Definition WithTimeout (timeout : Z) : Sdk_Option := λ c,
  mkSdkConfig (SK_Addrs c) timeout (SK_PoolSize c) (SK_RetryCount c) (SK_RetryDelay c) (SK_MaxRetryDelay c)
    (SK_KeepAliveTime c) (SK_KeepAliveTimeout c).
Definition WithPoolSize (size : Z) : Sdk_Option := λ c,
  mkSdkConfig (SK_Addrs c) (SK_Timeout c) size (SK_RetryCount c) (SK_RetryDelay c) (SK_MaxRetryDelay c)
    (SK_KeepAliveTime c) (SK_KeepAliveTimeout c).
Definition WithRetryCount (count : Z) : Sdk_Option := λ c,
  mkSdkConfig (SK_Addrs c) (SK_Timeout c) (SK_PoolSize c) count (SK_RetryDelay c) (SK_MaxRetryDelay c)
    (SK_KeepAliveTime c) (SK_KeepAliveTimeout c).
Definition WithRetryDelay (delay : Z) : Sdk_Option := λ c,
  mkSdkConfig (SK_Addrs c) (SK_Timeout c) (SK_PoolSize c) (SK_RetryCount c) delay (SK_MaxRetryDelay c)
    (SK_KeepAliveTime c) (SK_KeepAliveTimeout c).

Record Sdk_Client := mkSdkClient {
  SDK_config : Sdk_Config;
  SDK_stubs : gset string;        (** the addresses in [conns] and [stubs] *)
  SDK_addrs : list string;
  SDK_closed : bool
}.

Definition Sdk_Close (c : Sdk_Client) : Sdk_Client :=
  if SDK_closed c then c else mkSdkClient (SDK_config c) ∅ (SDK_addrs c) true.

(** [connect] to one address after the other; the first error closes the client. *)
Fixpoint Sdk_connect_all (dial : string → option goerr) (c : Sdk_Client) (addrs : list string) :
    Sdk_Client * option goerr :=
  match addrs with
  | [] => (c, None)
  | addr :: rest =>
      match dial addr with
      | Some err => (Sdk_Close c, Some err)
      | None =>
          Sdk_connect_all dial (mkSdkClient (SDK_config c) ({[ addr ]} ∪ SDK_stubs c) (SDK_addrs c) (SDK_closed c)) rest
      end
  end.

Definition Sdk_NewClient (dial : string → option goerr) (opts : list Sdk_Option) : sdkerr + Sdk_Client :=
  let config := foldl (λ c opt, opt c) Sdk_DefaultConfig opts in
  if decide (SK_Addrs config = []) then inl ErrNoAddrs
  else
    match Sdk_connect_all dial (mkSdkClient config ∅ (SK_Addrs config) false) (SK_Addrs config) with
    | (_, Some err) => inl (ErrDial err)
    | (c, None) => inr c
    end.

(** ** The SDK: calls *)

(** [getStub]: [idx] is what the random generator returns; an address that is in
    the list but has no stub would give a nil stub. *)
Definition Sdk_getStub (c : Sdk_Client) (idx : nat) : sdkerr + string :=
  if SDK_closed c then inl ErrClosed
  else if bool_decide (SDK_stubs c = ∅) then inl ErrNoConnections
  else inr (default "" (SDK_addrs c !! idx)).

(** How [callWithRetry] ends: with the answer of the last call, with an error, or
    without having called. *)
Inductive retried (A : Type) :=
  | Answered (a : A)
  | Failed (e : sdkerr)
  | NotCalled.
Arguments Answered {A} _.
Arguments Failed {A} _.
Arguments NotCalled {A}.

Section Sdk.
  Context {N : Type} `{KVService N}.

(** The loop for the attempts that remain; the result has the delays it slept.
    [rng] is the random index of each attempt. *)
Fixpoint retry_loop {A} (fn : N → string → N * (callerr + A)) (c : Sdk_Client) (rng : nat → nat)
    (remaining : nat) (net : N) (delay : Z) (attempt : nat) (lastErr : option callerr) :
    N * list Z * retried A :=
  match remaining with
  | O => (net, [], match lastErr with Some e => Failed (ErrCall e) | None => NotCalled end)
  | Datatypes.S remaining =>
      match Sdk_getStub c (rng attempt) with
      | inl err => (net, [], Failed err)
      | inr stub =>
          match fn net stub with
          | (net, inr a) => (net, [], Answered a)
          | (net, inl (PlainErr e)) => (net, [], Failed (ErrCall (PlainErr e)))
          | (net, inl (StatusErr DeadlineExceeded)) => (net, [], Failed ErrTimeout)
          | (net, inl (StatusErr Unavailable)) =>
              if Z.of_nat attempt <? SK_RetryCount (SDK_config c) then
                let '(net, slept, res) := retry_loop fn c rng remaining net
                  (Z.min (i64 (delay * 2)) (SK_MaxRetryDelay (SDK_config c))) (Datatypes.S attempt) (Some (StatusErr Unavailable)) in
                (net, delay :: slept, res)
              else
                retry_loop fn c rng remaining net delay (Datatypes.S attempt) (Some (StatusErr Unavailable))
          | (net, inl e) => (net, [], Failed (ErrCall e))
          end
      end
  end.

Definition Sdk_callWithRetry {A} (c : Sdk_Client) (rng : nat → nat) (net : N)
    (fn : N → string → N * (callerr + A)) : N * list Z * retried A :=
  retry_loop fn c rng (Z.to_nat (SK_RetryCount (SDK_config c) + 1)) net (SK_RetryDelay (SDK_config c)) 0 None.

(** The variables the closure sets keep their zero values
    when it is never called. *)
Definition Sdk_Get (c : Sdk_Client) (rng : nat → nat) (net : N) (key : bytes) : N * (sdkerr + bytes) :=
  match Sdk_callWithRetry c rng net (λ net stub, kv_Get net stub key) with
  | (net, _, Failed e) => (net, inl e)
  | (net, _, Answered (value, found)) => (net, if found then inr value else inl ErrKeyNotFound)
  | (net, _, NotCalled) => (net, inl ErrKeyNotFound)
  end.

Definition Sdk_GetBytes (c : Sdk_Client) (rng : nat → nat) (net : N) (key : bytes) : N * (sdkerr + bytes) :=
  match Sdk_callWithRetry c rng net (λ net stub, kv_Get net stub key) with
  | (net, _, Failed e) => (net, inl e)
  | (net, _, Answered (value, found)) => (net, if found then inr value else inl ErrKeyNotFound)
  | (net, _, NotCalled) => (net, inl ErrKeyNotFound)
  end.

(** The error of a call whose answer is not looked at. *)
Definition call_error {A} (r : N * list Z * retried A) : N * option sdkerr :=
  match r with
  | (net, _, Failed e) => (net, Some e)
  | (net, _, _) => (net, None)
  end.

Definition Sdk_Put (c : Sdk_Client) (rng : nat → nat) (net : N) (key value : bytes) : N * option sdkerr :=
  call_error (Sdk_callWithRetry c rng net (λ net stub, kv_Put net stub key value)).

Definition Sdk_PutBytes (c : Sdk_Client) (rng : nat → nat) (net : N) (key value : bytes) : N * option sdkerr :=
  call_error (Sdk_callWithRetry c rng net (λ net stub, kv_Put net stub key value)).

Definition Sdk_Delete (c : Sdk_Client) (rng : nat → nat) (net : N) (key : bytes) : N * option sdkerr :=
  call_error (Sdk_callWithRetry c rng net (λ net stub, kv_Delete net stub key)).

(** The found items of a batch, under their keys. *)
Definition found_items (items : list (bytes * bytes * bool)) : gmap bytes bytes :=
  foldl (λ (m : gmap bytes bytes) (item : bytes * bytes * bool), if item.2 then <[item.1.1 := item.1.2]> m else m) ∅ items.

Definition Sdk_MGet (c : Sdk_Client) (rng : nat → nat) (net : N) (keys : list bytes) :
    N * gmap bytes bytes * option sdkerr :=
  match Sdk_callWithRetry c rng net (λ net stub, kv_BatchGet net stub keys) with
  | (net, _, Failed e) => (net, ∅, Some e)
  | (net, _, Answered items) => (net, found_items items, None)
  | (net, _, NotCalled) => (net, ∅, None)
  end.

(** [order]: the items in the order of the range loop. *)
Definition Sdk_MSet (order : gmap bytes bytes → list KeyValueItem) (c : Sdk_Client) (rng : nat → nat) (net : N)
    (items : gmap bytes bytes) : N * Z * option sdkerr :=
  match Sdk_callWithRetry c rng net (λ net stub, kv_BatchPut net stub (order items)) with
  | (net, _, Failed e) => (net, 0, Some e)
  | (net, _, Answered (_, count)) => (net, count, None)
  | (net, _, NotCalled) => (net, 0, None)
  end.

End Sdk.

(** ** The package client *)

Record Client_Config := mkClientConfig {
  CC_ComputeAddrs : list string;
  CC_DialTimeout : Z;
  CC_RequestTimeout : Z;
  CC_MaxRetries : Z;
  CC_RetryInterval : Z
}.

Definition Client_DefaultConfig : Client_Config := 
  mkClientConfig ["localhost:8000"] (5 * Second) (5 * Second) 3 (100 * Millisecond).

Record Client := mkClient { KC_config : Client_Config; KC_addr : string }.

(** The first address that can be dialled. *)
Fixpoint first_dialled (dial : string → option goerr) (addrs : list string) (err : option goerr) :
    option goerr + string :=
  match addrs with
  | [] => inl err
  | addr :: rest => match dial addr with None => inr addr | Some e => first_dialled dial rest (Some e) end
  end.

Definition Client_New (dial : string → option goerr) (config : option Client_Config) : result Client :=
  let config := default Client_DefaultConfig config in
  if decide (CC_ComputeAddrs config = []) then Error (Errorf "no compute addresses configured")
  else
    match first_dialled dial (CC_ComputeAddrs config) None with
    | inl _ => Error (Errorf "failed to connect to any compute node")
    | inr addr => Ok (mkClient config addr)
    end.

Section PkgClient.
  Context {N : Type} `{KVService N}.

(** The loop of [Get], [Put] and [Delete]: every error is retried. *)
Fixpoint client_loop {A} (fn : N → N * (callerr + A)) (remaining : nat) (net : N) (lastErr : option callerr) :
    N * retried A :=
  match remaining with
  | O => (net, match lastErr with Some e => Failed (ErrCall e) | None => NotCalled end)
  | Datatypes.S remaining =>
      match fn net with
      | (net, inr a) => (net, Answered a)
      | (net, inl e) => client_loop fn remaining net (Some e)
      end
  end.

Definition client_retry {A} (c : Client) (net : N) (fn : N → N * (callerr + A)) : N * retried A :=
  client_loop fn (Z.to_nat (CC_MaxRetries (KC_config c) + 1)) net None.

Definition Client_Get (c : Client) (net : N) (key : bytes) : N * (sdkerr + bytes * bool) :=
  match client_retry c net (λ net, kv_Get net (KC_addr c) key) with
  | (net, Answered (value, found)) => (net, inr (value, found))
  | (net, Failed e) => (net, inl e)
  | (net, NotCalled) => (net, inr ([], false))
  end.

(** The answers of [Put] and [Delete]: an error, or a response without success. *)
Inductive client_err := CallFailed (e : sdkerr) | ServerFailure.

Definition client_done (r : N * retried bool) : N * option client_err :=
  match r with
  | (net, Answered true) => (net, None)
  | (net, Answered false) => (net, Some ServerFailure)
  | (net, Failed e) => (net, Some (CallFailed e))
  | (net, NotCalled) => (net, None)
  end.

Definition Client_Put (c : Client) (net : N) (key value : bytes) : N * option client_err :=
  client_done (client_retry c net (λ net, kv_Put net (KC_addr c) key value)).

Definition Client_Delete (c : Client) (net : N) (key : bytes) : N * option client_err :=
  client_done (client_retry c net (λ net, kv_Delete net (KC_addr c) key)).

(** Strings are converted to bytes and back. *)
Definition Client_GetString (c : Client) (net : N) (key : string) : N * (sdkerr + bytes * bool) :=
  match Client_Get c net (str_bytes key) with
  | (net, inr (value, found)) => (net, inr (if found then value else [], found))
  | (net, inl e) => (net, inl e)
  end.

Definition Client_PutString (c : Client) (net : N) (key value : string) : N * option client_err :=
  Client_Put c net (str_bytes key) (str_bytes value).

Definition Client_DeleteString (c : Client) (net : N) (key : string) : N * option client_err :=
  Client_Delete c net (str_bytes key).

Definition Client_BatchGet (c : Client) (net : N) (keys : list bytes) : N * (callerr + gmap bytes bytes) :=
  match kv_BatchGet net (KC_addr c) keys with
  | (net, inl e) => (net, inl e)
  | (net, inr items) => (net, inr (found_items items))
  end.

Definition Client_BatchPut (order : gmap bytes bytes → list KeyValueItem) (c : Client) (net : N)
    (items : gmap bytes bytes) : N * option client_err :=
  match kv_BatchPut net (KC_addr c) (order items) with
  | (net, inl e) => (net, Some (CallFailed (ErrCall e)))
  | (net, inr (success, _)) => (net, if success then None else Some ServerFailure)
  end.

Definition Client_Exists (c : Client) (net : N) (key : bytes) : N * (sdkerr + bool) :=
  match Client_Get c net key with
  | (net, inl e) => (net, inl e)
  | (net, inr (_, found)) => (net, inr found)
  end.

(** [SetNX] in two calls; [between] is what other clients do in the meantime. *)
Definition Client_SetNX (between : N → N) (c : Client) (net : N) (key value : bytes) : N * (client_err + bool) :=
  match Client_Exists c net key with
  | (net, inl e) => (net, inl (CallFailed e))
  | (net, inr true) => (net, inr false)
  | (net, inr false) =>
      match Client_Put c (between net) key value with
      | (net, Some e) => (net, inl e)
      | (net, None) => (net, inr true)
      end
  end.

(** [Ping] returns nil whatever [Get] says. *)
Definition Client_Ping (c : Client) (net : N) : N * option goerr :=
  ((Client_Get c net (str_bytes "__ping__")).1, None).

End PkgClient.

(** ** The backoff *)

(** The delay before the retry [i], when nothing overflows. *)
Fixpoint backoff (cfg : Sdk_Config) (i : nat) : Z :=
  match i with
  | O => SK_RetryDelay cfg
  | Datatypes.S i => Z.min (backoff cfg i * 2) (SK_MaxRetryDelay cfg)
  end.

Lemma backoff_closed cfg i :
  0 ≤ SK_RetryDelay cfg ≤ SK_MaxRetryDelay cfg →
  backoff cfg i = Z.min (SK_RetryDelay cfg * 2 ^ Z.of_nat i) (SK_MaxRetryDelay cfg).
Proof.
  intros Hr. induction i as [|i IH]; cbn [backoff].
  { change (2 ^ Z.of_nat 0) with 1. lia. }
  rewrite IH, Nat2Z.inj_succ, Z.pow_succ_r by lia.
  pose proof (Z.pow_pos_nonneg 2 (Z.of_nat i)). nia.
Qed.

(** Delays that double within 64 bits. *)
Definition delays_fit (cfg : Sdk_Config) : Prop :=
  0 ≤ SK_RetryDelay cfg ≤ SK_MaxRetryDelay cfg ∧ SK_MaxRetryDelay cfg * 2 < 2 ^ 63.

Lemma backoff_range cfg i : delays_fit cfg → 0 ≤ backoff cfg i ≤ SK_MaxRetryDelay cfg.
Proof. intros [Hr _]. induction i as [|i IH]; cbn [backoff]; lia. Qed.

Section retries.
  Context {N : Type} `{KVService N} {A : Type}.
  Variable fn : N → string → N * (callerr + A).
Implicit Types (c : Sdk_Client) (net : N).

(** [n] calls in a row, each answered that the node is unavailable. *)
Inductive unavailable_calls : nat → N → N → Prop :=
  | uc_none net : unavailable_calls 0 net net
  | uc_call n net net1 net2 stub :
      fn net stub = (net1, inl (StatusErr Unavailable)) → unavailable_calls n net1 net2 →
      unavailable_calls (Datatypes.S n) net net2.

(** How the loop ends after [n] unavailable answers in the state [net1]. *)
Definition loop_ends c (net1 : N) (n : nat) (net' : N) (res : retried A) : Prop :=
  match res with
  | Answered a => ∃ stub, fn net1 stub = (net', inr a)
  | Failed (ErrCall (StatusErr Unavailable)) => ∃ stub, fn net1 stub = (net', inl (StatusErr Unavailable)) ∧
      Z.of_nat n = SK_RetryCount (SDK_config c)
  | Failed (ErrCall e) => ∃ stub, fn net1 stub = (net', inl e)
  | Failed ErrTimeout => ∃ stub, fn net1 stub = (net', inl (StatusErr DeadlineExceeded))
  | Failed e => net' = net1 ∧ (e = ErrClosed ∧ SDK_closed c = true ∨ e = ErrNoConnections ∧ SDK_stubs c = ∅)
  | NotCalled => False
  end.

Lemma retry_loop_ok c rng remaining net attempt lastErr net' slept res :
  delays_fit (SDK_config c) →
  Z.of_nat attempt + Z.of_nat remaining = SK_RetryCount (SDK_config c) + 1 → (0 < remaining)%nat →
  retry_loop fn c rng remaining net (backoff (SDK_config c) attempt) attempt lastErr = (net', slept, res) →
  (length slept < remaining)%nat ∧ slept = backoff (SDK_config c) <$> seq attempt (length slept) ∧
  ∃ net1, unavailable_calls (length slept) net net1 ∧ loop_ends c net1 (attempt + length slept) net' res.
Proof.
  intros Hfit. revert net attempt lastErr net' slept res.
  induction remaining as [|remaining IH]; intros net attempt lastErr net' slept res Hn H0 Hl; [lia|].
  cbn [retry_loop] in Hl. destruct (Sdk_getStub c (rng attempt)) as [err|stub] eqn:Es.
  { simplify_eq. split_and!; [cbn; lia|done|]. eexists. split; [constructor|]. unfold Sdk_getStub in Es.
    destruct (SDK_closed c) eqn:Ec; [simplify_eq; cbn; auto|].
    case_bool_decide; simplify_eq. cbn. auto. }
  destruct (fn net stub) as [net1 [e|a]] eqn:Ef; cycle 1.
  { simplify_eq. split_and!; [cbn; lia|done|]. exists net. split; [constructor|]. cbn. eauto. }
  assert ((∀ net2 r, (net2, [] : list Z, r) = (net', slept, res) → loop_ends c net attempt net2 r →
    (length slept < Datatypes.S remaining)%nat ∧ slept = backoff (SDK_config c) <$> seq attempt (length slept) ∧
    ∃ net1, unavailable_calls (length slept) net net1 ∧ loop_ends c net1 (attempt + length slept) net' res)) as Hend.
  { intros net2 r E Hr. simplify_eq. split_and!; [cbn; lia|done|]. exists net.
    split; [constructor|]. by rewrite Nat.add_0_r. }
  destruct e as [[]|e]; try (apply (Hend _ _ Hl); cbn; eauto; fail).
  destruct (Z.ltb_spec (Z.of_nat attempt) (SK_RetryCount (SDK_config c))) as [Hlt|Hge].
  - pose proof (backoff_range (SDK_config c) attempt Hfit). destruct Hfit as [Hfit Hmax].
    rewrite i64_small in Hl by (unfold is_i64; lia).
    destruct (retry_loop fn c rng remaining net1 _ _ _) as [[net2 slept2] res2] eqn:Er. simplify_eq.
    apply (IH _ (Datatypes.S attempt)) in Er as (Hlen & Hsl & net3 & Hu & He); [|lia|lia].
    cbn [length]. split_and!; [lia|cbn; by rewrite <- Hsl|]. exists net3.
    split; [by econstructor|]. by rewrite Nat.add_succ_r.
  - assert (remaining = 0%nat) as -> by lia. cbn [retry_loop] in Hl.
    apply (Hend _ _ Hl). cbn. exists stub. split; [done|lia].
Qed.
End retries.

(** ** Compute nodes in front of a storage network *)

(** What happens to a call of a client: it is delivered, or the client gets an
    error although the node may have executed the request. *)
Inductive client_fault := Through | Broken (executed : bool) (c : code).

Record World (N : Type) := mkWorld {
  w_compute : gmap string ComputeServer;
  w_net : N;
  w_faults : list client_fault;
  w_sum64 : bytes → Z;
  w_order : gmap Z (list KeyValueItem) → list Z;
  w_sched : list batch_job → list batch_job
}.
Arguments mkWorld {N} _ _ _ _ _ _.
Arguments w_compute {N} _.
Arguments w_net {N} _.
Arguments w_faults {N} _.
Arguments w_sum64 {N} _ _.
Arguments w_order {N} _ _.
Arguments w_sched {N} _ _.

Section world.
  Context {N : Type} `{StorageRPC N}.
Implicit Types (w : World N).

Definition w_set w (compute : gmap string ComputeServer) (net : N) : World N :=
  mkWorld compute net (tail (w_faults w)) (w_sum64 w) (w_order w) (w_sched w).

(** A call of the handler [f] of the node at [addr].  A handler's error is a
    status with code Internal. *)
Definition w_call {A} w (addr : string) (f : ComputeServer → N → ComputeServer * N * result A) :
    World N * (callerr + A) :=
  match w_compute w !! addr, default Through (head (w_faults w)) with
  | None, _ => (w_set w (w_compute w) (w_net w), inl (StatusErr Unavailable))
  | _, Broken false c => (w_set w (w_compute w) (w_net w), inl (StatusErr c))
  | Some s, Broken true c =>
      let '(s, net, _) := f s (w_net w) in (w_set w (<[addr := s]> (w_compute w)) net, inl (StatusErr c))
  | Some s, Through =>
      let '(s, net, res) := f s (w_net w) in
      (w_set w (<[addr := s]> (w_compute w)) net,
       match res with Ok a => inr a | Error _ => inl (StatusErr Internal) end)
  end.

#[global] Instance World_KVService : KVService (World N) := {|
  kv_Get w addr key := w_call w addr (λ s net, ComputeServer_Get (w_sum64 w) s net key);
  kv_Put w addr key value := w_call w addr (λ s net, ComputeServer_Put (w_sum64 w) s net key value);
  kv_Delete w addr key := w_call w addr (λ s net, ComputeServer_Delete (w_sum64 w) s net key);
  kv_BatchGet w addr keys := w_call w addr (λ s net,
    let '(s, net, items) := ComputeServer_BatchGet (w_sum64 w) s net keys in (s, net, Ok items));
  kv_BatchPut w addr items := w_call w addr (λ s net,
    ComputeServer_BatchPut (w_sum64 w) (w_order w) (w_sched w) s net items)
|}.
End world.

(** ** Writes through the SDK *)

(** A property that every call keeps, and one that an answer establishes. *)
Lemma retry_loop_keeps {N A} (I : N → Prop) (Q : N → Prop) (fn : N → string → N * (callerr + A))
    c rng remaining net delay attempt lastErr net' slept res :
  (∀ net stub net' r, I net → fn net stub = (net', r) → I net' ∧ (∀ a, r = inr a → Q net')) →
  I net → retry_loop fn c rng remaining net delay attempt lastErr = (net', slept, res) →
  I net' ∧ (∀ a, res = Answered a → Q net').
Proof.
  intros Hfn. revert net delay attempt lastErr net' slept res.
  induction remaining as [|remaining IH]; intros net delay attempt lastErr net' slept res HI Hl; cbn [retry_loop] in Hl.
  { simplify_eq. split; [done|]. intros a. by destruct lastErr. }
  destruct (Sdk_getStub c (rng attempt)) as [err|stub]; [by simplify_eq|].
  destruct (fn net stub) as [net1 r] eqn:Ef. destruct (Hfn _ _ _ _ HI Ef) as [HI1 HQ1].
  destruct r as [e|a]; [|simplify_eq; split; [done|]; intros; simplify_eq; eauto].
  destruct e as [[]|e]; try (by simplify_eq).
  destruct (_ <? _); [|by eapply IH].
  destruct (retry_loop fn c rng remaining net1 _ _ _) as [[net2 slept2] res2] eqn:Er. simplify_eq. by eapply IH.
Qed.

Section sdk_writes.
  Context {N : Type} `{StorageRPCLaws N}.
Implicit Types (w : World N).

(** The compute nodes are in order and agree on the primary of a key. *)
Definition routes_agree w (key : bytes) (primary : string) (p : Z) : Prop :=
  ∀ addr s, w_compute w !! addr = Some s → compute_ok s (w_net w) ∧
    ∃ replica epoch, ComputeRouter_GetPartitionNodes (w_sum64 w) (CS_router s) key = Ok (primary, replica, p, epoch).

(** [w] has the data [m], with the operations [ops] executed on the primary if [ex]. *)
Definition data_is (m : string → gmap bytes bytes) (primary : string) (ops : list wop) (ex : bool) w : Prop :=
  ∀ a, node_data (w_net w) a = if ex && bool_decide (a = primary) then batch_apply (m a) ops else m a.

(** Executing the operations again changes nothing. *)
Lemma data_is_again m primary ops ex w net1 :
  data_is m primary ops ex w →
  (∀ a, a ≠ primary → node_data net1 a = node_data (w_net w) a) →
  node_data net1 primary = batch_apply (node_data (w_net w) primary) ops →
  ∀ a, node_data net1 a = if bool_decide (a = primary) then batch_apply (m a) ops else m a.
Proof.
  intros Hd Ho Hp a. case_bool_decide as Ha; [subst a|].
  - rewrite Hp, (Hd primary), bool_decide_eq_true_2 by done. rewrite andb_true_r.
    destruct ex; [by apply batch_redo|done].
  - by rewrite Ho, (Hd a), bool_decide_eq_false_2, andb_false_r by done.
Qed.

(** A call that was executed by a compute node. *)
Lemma w_write_effect w addr s cw primary p m ex s1 net1 res :
  routes_agree w (client_key cw) primary p → data_is m primary (req_ops p (client_req cw)) ex w →
  w_compute w !! addr = Some s → ComputeServer_write (w_sum64 w) s (w_net w) cw = (s1, net1, res) →
  routes_agree (w_set w (<[addr := s1]> (w_compute w)) net1) (client_key cw) primary p ∧
  ∃ ex', data_is m primary (req_ops p (client_req cw)) ex' (w_set w (<[addr := s1]> (w_compute w)) net1) ∧
    (∀ b, res = Ok b → ex' = true).
Proof.
  intros Hr Hd Es Ew. destruct (Hr addr s Es) as [Hok (replica & epoch & Hroute)].
  apply forward_write_ok in Ew as (Hok1 & Hk & Hrt & Heff); [|done].
  unfold write_effect in Heff. rewrite Hroute in Heff. destruct Heff as (Ho & Hres & Hp). split.
  - intros addr' s' Hs'. cbn in Hs'. apply lookup_insert_Some in Hs' as [[_ <-]|[_ Hs']].
    + split; [done|]. cbn. rewrite Hrt. eauto.
    + destruct (Hr addr' s' Hs') as [Hok' Hroute']. split; [by eapply compute_ok_same|done].
  - destruct Hp as [Hp|[Hne Hp]].
    + exists true. split; [|done]. exact (data_is_again _ _ _ _ _ _ Hd Ho Hp).
    + exists ex. split; [|intros b ->; by destruct Hres].
      intros a. cbn [w_net w_set]. destruct (decide (a = primary)) as [->|Hn]; [by rewrite Hp|by rewrite Ho].
Qed.

Lemma w_call_write w addr cw primary p m ex w' r :
  routes_agree w (client_key cw) primary p → data_is m primary (req_ops p (client_req cw)) ex w →
  w_call w addr (λ s net, ComputeServer_write (w_sum64 w) s net cw) = (w', r) →
  routes_agree w' (client_key cw) primary p ∧
  ∃ ex', data_is m primary (req_ops p (client_req cw)) ex' w' ∧ (∀ b, r = inr b → ex' = true).
Proof.
  intros Hr Hd Hc. unfold w_call in Hc.
  destruct (w_compute w !! addr) as [s|] eqn:Es; [|simplify_eq; split; [exact Hr|exists ex; by split]].
  destruct (ComputeServer_write (w_sum64 w) s (w_net w) cw) as [[s1 net1] res] eqn:Ew.
  pose proof (w_write_effect w addr s cw primary p m ex s1 net1 res Hr Hd Es Ew) as [Hr1 (ex' & Hd1 & Hres)].
  destruct (default Through (head (w_faults w))) as [|[] c]; simplify_eq.
  - split; [done|]. exists ex'. split; [done|]. intros b E. destruct res; simplify_eq. eauto.
  - split; [done|]. by exists ex'.
  - split; [exact Hr|]. by exists ex.
Qed.

(** The retries of [Put] and [Delete]. *)
Lemma retried_write (c : Sdk_Client) rng w cw (fn : World N → string → World N * (callerr + bool)) primary p w' slept res :
  (∀ w stub, fn w stub = w_call w stub (λ s net, ComputeServer_write (w_sum64 w) s net cw)) →
  routes_agree w (client_key cw) primary p → Sdk_callWithRetry c rng w fn = (w', slept, res) →
  ∃ ex, data_is (node_data (w_net w)) primary (req_ops p (client_req cw)) ex w' ∧ (∀ b, res = Answered b → ex = true).
Proof.
  intros Hfn Hr Hc. set (m := node_data (w_net w)). set (ops := req_ops p (client_req cw)).
  assert ((routes_agree w' (client_key cw) primary p ∧ ∃ ex, data_is m primary ops ex w') ∧
    (∀ b, res = Answered b → data_is m primary ops true w')) as [[_ [ex Hd]] Hans].
  - eapply (retry_loop_keeps (λ v, routes_agree v (client_key cw) primary p ∧ ∃ ex, data_is m primary ops ex v)
      (λ v, data_is m primary ops true v)); [|split; [done|exists false; by intros a]|exact Hc].
    intros v stub v' r [Hr1 [ex Hd]] Hf. rewrite Hfn in Hf.
    apply (w_call_write v stub cw primary p m ex) in Hf as (Hr2 & ex' & Hd2 & Hres); [|done..].
    split; [eauto|]. intros b Hb. by rewrite <- (Hres b Hb).
  - destruct res as [b|e|]; [exists true; split; [by eapply Hans|done]|exists ex; by split..].
Qed.
End sdk_writes.

Lemma NotCalled_negative {N A} `{KVService N} (c : Sdk_Client) rng (net : N) (fn : N → string → N * (callerr + A)) net' slept :
  Sdk_callWithRetry c rng net fn = (net', slept, NotCalled) → SK_RetryCount (SDK_config c) < 0 ∧ net' = net.
Proof.
  unfold Sdk_callWithRetry. destruct (Z.to_nat (SK_RetryCount (SDK_config c) + 1)) as [|n] eqn:En; intros Hl.
  { cbn in Hl. simplify_eq. split; [lia|done]. }
  exfalso. assert (∀ rem net delay attempt lastErr net' slept, (0 < rem)%nat ∨ is_Some lastErr →
    retry_loop fn c rng rem net delay attempt lastErr ≠ (net', slept, NotCalled)) as Hno; [|by eapply Hno in Hl; [|left; lia]].
  clear. induction rem as [|rem IH]; intros net delay attempt lastErr net' slept Hor Hl; cbn [retry_loop] in Hl.
  { destruct Hor as [?|[e ->]]; [lia|done]. }
  destruct (Sdk_getStub c (rng attempt)); [done|]. destruct (fn net s) as [net1 [[[]|]|]]; try done.
  destruct (_ <? _).
  - destruct (retry_loop _ _ _ _ _ _ _ _) as [[? ?] ?] eqn:Er. simplify_eq.
    apply IH in Er; [done|right; eauto].
  - apply IH in Hl; [done|right; eauto].
Qed.

(** C24: a write through the SDK is executed when it reports success.  However the
    calls fail, are executed without an answer and are retried at other compute
    nodes, as long as these agree on the primary of the key: the data is unchanged
    everywhere, or it is the data with the write executed once on the primary; and
    when no error is returned it has been executed, unless the retry count is
    negative: then nothing is ever sent. *)
Theorem sdk_put_is_executed {N} `{StorageRPCLaws N} (c : Sdk_Client) rng (w w' : World N) key value primary p err :
  routes_agree w key primary p → Sdk_Put c rng w key value = (w', err) →
  (∀ a, a ≠ primary → node_data (w_net w') a = node_data (w_net w) a) ∧
  (node_data (w_net w') primary = <[MakePartitionKey p key := value]> (node_data (w_net w) primary) ∨
   node_data (w_net w') primary = node_data (w_net w) primary ∧
   (err ≠ None ∨ err = None ∧ w' = w ∧ SK_RetryCount (SDK_config c) < 0)).
Proof.
  intros Hr Hp. unfold Sdk_Put in Hp.
  destruct (Sdk_callWithRetry c rng w _) as [[w1 slept] res] eqn:Ec.
  pose proof (retried_write c rng w (CPut key value) _ primary p w1 slept res (λ _ _, eq_refl) Hr Ec)
    as (ex & Hd & Hans).
  assert (w1 = w') as -> by (destruct res; cbn in Hp; by simplify_eq). split.
  { intros a Ha. by rewrite (Hd a), bool_decide_eq_false_2, andb_false_r by done. }
  rewrite (Hd primary), bool_decide_eq_true_2, andb_true_r by done. destruct ex; [by left|right].
  split; [done|]. destruct res as [b|e|]; cbn in Hp; simplify_eq.
  - by specialize (Hans b eq_refl).
  - by left.
  - right. by apply NotCalled_negative in Ec as [? ->].
Qed.

(** C39: retries are bounded and back off.  With a retry count that is not negative,
    an initial delay between zero and the maximal delay, and a maximal delay whose
    double fits 64 bits, a call is made at most once more than the retry count says, again only
    after the answer that the node is unavailable, and before the retry [i] the
    client sleeps the initial delay times [2 ^ i], at most the maximal delay.  An
    initial delay above the maximal one is slept in full before the first retry. *)
Theorem retries_back_off {N A} `{KVService N} (c : Sdk_Client) rng (net : N) (fn : N → string → N * (callerr + A))
    net' slept res :
  delays_fit (SDK_config c) → 0 ≤ SK_RetryCount (SDK_config c) →
  Sdk_callWithRetry c rng net fn = (net', slept, res) →
  len slept ≤ SK_RetryCount (SDK_config c) ∧
  (∀ i d, slept !! i = Some d →
     d = Z.min (SK_RetryDelay (SDK_config c) * 2 ^ Z.of_nat i) (SK_MaxRetryDelay (SDK_config c))) ∧
  ∃ net1, unavailable_calls fn (length slept) net net1 ∧ loop_ends fn c net1 (length slept) net' res.
Proof.
  intros Hfit Hn Hc. unfold Sdk_callWithRetry in Hc.
  apply (retry_loop_ok fn c rng _ net 0) in Hc as (Hlen & Hsl & Hends); [|done|lia|lia].
  split_and!; [unfold len; lia| |exact Hends].
  intros i d Hi. rewrite Hsl, list_lookup_fmap in Hi. apply fmap_Some in Hi as (j & Hj & ->).
  apply lookup_seq in Hj as [-> _]. by apply backoff_closed, Hfit.
Qed.

(** ** [SetNX] *)

(** A service that is one map and never fails. *)
#[global] Instance map_KVService : KVService (gmap bytes bytes) := {|
  kv_Get m _ key := (m, inr (default [] (m !! key), bool_decide (is_Some (m !! key))));
  kv_Put m _ key value := (<[key := value]> m, inr true);
  kv_Delete m _ key := (delete key m, inr true);
  kv_BatchGet m _ keys := (m, inr ((λ k, (k, default [] (m !! k), bool_decide (is_Some (m !! k)))) <$> keys));
  kv_BatchPut m _ items := (foldl (λ m i, <[Item_Key i := Item_Value i]> m) m items, inr (true, i32 (len items)))
|}.

(** [SetNX] is not atomic: a second client that sets the key between the check
    and the put of the first one also succeeds, and its value is overwritten. *)
Lemma SetNX_both_succeed (c1 c2 : Client) (m : gmap bytes bytes) key v1 v2 :
  m !! key = None → 0 ≤ CC_MaxRetries (KC_config c1) → 0 ≤ CC_MaxRetries (KC_config c2) →
  let second := Client_SetNX id c2 m key v2 in
  second.2 = inr true ∧
  Client_SetNX (λ m, (Client_SetNX id c2 m key v2).1) c1 m key v1 = (<[key := v1]> m, inr true).
Proof.
  intros Hk H1 H2. cbv zeta.
  assert (∀ (c : Client) between, 0 ≤ CC_MaxRetries (KC_config c) → ∀ v,
    Client_SetNX between c m key v = (<[key := v]> (between m), inr true)) as Hset.
  { intros c between Hc v. unfold Client_SetNX, Client_Exists, Client_Get, Client_Put, client_done, client_retry.
    destruct (Z.to_nat (CC_MaxRetries (KC_config c) + 1)) as [|n] eqn:E; [lia|]. cbn.
    by rewrite Hk. }
  rewrite !Hset by done. split; [done|]. cbn. by rewrite insert_insert_eq.
Qed.

(** ** Examples *)

Definition demo_sdk : Sdk_Client := mkSdkClient (WithAddrs ["c1"] Sdk_DefaultConfig) {[ "c1" ]} ["c1"] false.

(** The first call is executed and its answer lost, the second goes through. *)
Definition demo_world : World (Cluster MemDB) :=
  mkWorld {[ "c1" := demo_compute ]} (demo_nodes_of []) [Broken true Unavailable] demo_sum64
    (λ m, (map_to_list m).*1) (λ jobs, jobs).

Lemma demo_routes_agree : routes_agree demo_world (str_bytes "a") "n1" 97.
Proof.
  intros addr s Hs. change (({[ "c1" := demo_compute ]} : gmap string ComputeServer) !! addr = Some s) in Hs.
  apply lookup_singleton_Some in Hs as [_ <-]. split; [apply demo_compute_ok|].
  exists "n2", 0. vm_compute. reflexivity.
Qed.

Lemma sdk_put_is_executed_witness :
  let '(w', err) := Sdk_Put demo_sdk (λ _, 0%nat) demo_world (str_bytes "a") (str_bytes "1") in
  err = None ∧
  (node_data (w_net w') "n1" = <[MakePartitionKey 97 (str_bytes "a") := str_bytes "1"]> (node_data (w_net demo_world) "n1") ∨
   node_data (w_net w') "n1" = node_data (w_net demo_world) "n1" ∧
   (err ≠ None ∨ err = None ∧ w' = demo_world ∧ SK_RetryCount (SDK_config demo_sdk) < 0)).
Proof.
  destruct (Sdk_Put demo_sdk (λ _, 0%nat) demo_world (str_bytes "a") (str_bytes "1")) as [w' err] eqn:E. split.
  - apply (f_equal snd) in E. cbn [snd] in E. rewrite <- E. vm_compute. reflexivity.
  - apply (sdk_put_is_executed demo_sdk (λ _, 0%nat) demo_world w' (str_bytes "a") (str_bytes "1") "n1" 97 err
      demo_routes_agree E).
Defined.

Lemma retries_back_off_witness :
  let '(w', slept, res) := Sdk_callWithRetry demo_sdk (λ _, 0%nat) demo_world
    (λ net stub, kv_Put net stub (str_bytes "a") (str_bytes "1")) in
  slept = [100 * Millisecond] ∧ len slept ≤ 3.
Proof.
  destruct (Sdk_callWithRetry demo_sdk (λ _, 0%nat) demo_world
    (λ net stub, kv_Put net stub (str_bytes "a") (str_bytes "1"))) as [[w' slept] res] eqn:E. split.
  - apply (f_equal (λ x, x.1.2)) in E. cbn [fst snd] in E. rewrite <- E. vm_compute. reflexivity.
  - apply (retries_back_off demo_sdk (λ _, 0%nat) demo_world
      (λ net stub, kv_Put net stub (str_bytes "a") (str_bytes "1")) w' slept res); [|by vm_compute|exact E].
    repeat split; by vm_compute.
Defined.
