(* ===== verification/Uri.v ===== *)
(** * Uri: the connection strings of the SDK

    [sdk/go/rockskv/uri.go], with what it uses of the standard library of Go 1.24:
    [url.Parse], [URL.Query], [time.ParseDuration], [strconv.Atoi] and
    [strings.TrimSpace].  The fraction of a duration is computed in floating point;
    it is the argument [frac]. *)

From S2P Require Import Prelude MetaStore Client.

(** ** strings *)

(** [strings.Cut] at a byte; [None]: not found. *)
Fixpoint cut (c : byte) (s : bytes) : bytes * option bytes :=
  match s with
  | [] => ([], None)
  | x :: r => if decide (x = c) then ([], Some r) else let '(a, b) := cut c r in (x :: a, b)
  end.

(** The parts before and after the last [c]. *)
Fixpoint cut_last (c : byte) (s : bytes) : option (bytes * bytes) :=
  match s with
  | [] => None
  | x :: r =>
      match cut_last c r with
      | Some (a, b) => Some (x :: a, b)
      | None => if decide (x = c) then Some ([], r) else None
      end
  end.

Fixpoint contains (s sub : bytes) : bool :=
  has_prefix s sub || match s with [] => false | _ :: r => contains r sub end.

Fixpoint split_on (c : byte) (s : bytes) : list bytes :=
  match s with
  | [] => [[]]
  | x :: r =>
      if decide (x = c) then [] :: split_on c r
      else match split_on c r with [] => [[x]] | p :: ps => (x :: p) :: ps end
  end.

(** The encodings of the white space of Unicode. *)
Definition white_space : list bytes :=
  map (λ c, [c]) [Byte.x09; Byte.x0a; Byte.x0b; Byte.x0c; Byte.x0d; Byte.x20] ++
  [[Byte.xc2; Byte.x85]; [Byte.xc2; Byte.xa0]; [Byte.xe1; Byte.x9a; Byte.x80]] ++
  map (λ c, [Byte.xe2; Byte.x80; c])
    [Byte.x80; Byte.x81; Byte.x82; Byte.x83; Byte.x84; Byte.x85; Byte.x86; Byte.x87; Byte.x88; Byte.x89; Byte.x8a;
     Byte.xa8; Byte.xa9; Byte.xaf] ++
  [[Byte.xe2; Byte.x81; Byte.x9f]; [Byte.xe3; Byte.x80; Byte.x80]].

(** Remove the sequences of [spaces] at the front; [fuel]: the length is enough. *)
Fixpoint trim_left (fuel : nat) (spaces : list bytes) (s : bytes) : bytes :=
  match fuel with
  | O => s
  | S fuel =>
      match List.find (has_prefix s) spaces with
      | Some w => trim_left fuel spaces (drop (length w) s)
      | None => s
      end
  end.

Definition TrimSpace (s : bytes) : bytes :=
  let s := trim_left (length s) white_space s in
  reverse (trim_left (length s) (map reverse white_space) (reverse s)).

(** ** net/url *)

Definition in_range (lo hi : byte) (c : byte) : bool := (byte_Z lo <=? byte_Z c) && (byte_Z c <=? byte_Z hi).
Definition is_digit : byte → bool := in_range Byte.x30 Byte.x39.
Definition is_alpha (c : byte) : bool := in_range Byte.x61 Byte.x7a c || in_range Byte.x41 Byte.x5a c.
Definition is_hex (c : byte) : bool := is_digit c || in_range Byte.x61 Byte.x66 c || in_range Byte.x41 Byte.x46 c.
Definition unhex (c : byte) : Z :=
  if is_digit c then byte_Z c - 48 else if in_range Byte.x61 Byte.x66 c then byte_Z c - 87 else byte_Z c - 55.
Definition one_of (set : string) (c : byte) : bool := bool_decide (c ∈ str_bytes set).

(** The components that are unescaped; the path, the fragment and the user
    information are treated alike. *)
Inductive component := CHost | CZone | CQuery | COther.

(** [shouldEscape] for a host or a zone. *)
Definition host_escape (c : byte) : bool :=
  negb (is_alpha c || is_digit c || one_of "-_.~" c || one_of "!$&'()*+,;=:[]<>" c || bool_decide (c = Byte.x22)).

(** A byte of [%xy]. *)
Definition hex_value (h1 h2 : byte) : Z := 16 * unhex h1 + unhex h2.
Definition hex_allowed (m : component) (h1 h2 : byte) : bool :=
  let is25 := bool_decide ([h1; h2] = str_bytes "25") in
  match m with
  | CHost => (8 <=? unhex h1) || is25
  | CZone => is25 || (hex_value h1 h2 =? 32) || negb (host_escape (Z_byte (hex_value h1 h2)))
  | _ => true
  end.

Definition byte_allowed (m : component) (c : byte) : bool :=
  match m with CHost | CZone => (128 <=? byte_Z c) || negb (host_escape c) | _ => true end.

Fixpoint unescape (m : component) (s : bytes) : option bytes :=
  match s with
  | [] => Some []
  | c :: r =>
      if decide (c = Byte.x25) then
        match r with
        | h1 :: h2 :: r =>
            if is_hex h1 && is_hex h2 && hex_allowed m h1 h2 then cons (Z_byte (hex_value h1 h2)) <$> unescape m r
            else None
        | _ => None
        end
      else if decide (c = Byte.x2b) then
        cons (match m with CQuery => Byte.x20 | _ => c end) <$> unescape m r
      else if byte_allowed m c then cons c <$> unescape m r
      else None
  end.

Definition validOptionalPort (port : bytes) : bool :=
  match port with
  | [] => true
  | c :: digits => bool_decide (c = Byte.x3a) && forallb is_digit digits
  end.

(** The index of ["%25"]: the parts before it and from it on. *)
Fixpoint cut_zone (s : bytes) : option (bytes * bytes) :=
  if has_prefix s (str_bytes "%25") then Some ([], s)
  else match s with [] => None | x :: r => '(a, b) ← cut_zone r; Some (x :: a, b) end.

Definition parseHost (host : bytes) : option bytes :=
  if has_prefix host (str_bytes "[") then
    '(inside, port) ← cut_last Byte.x5d host;
    if validOptionalPort port then
      match cut_zone inside with
      | Some (addr, zone) =>
          host1 ← unescape CHost addr; host2 ← unescape CZone zone; host3 ← unescape CHost (Byte.x5d :: port);
          Some (host1 ++ host2 ++ host3)
      | None => unescape CHost host
      end
    else None
  else
    match cut_last Byte.x3a host with
    | Some (_, port) => if forallb is_digit port then unescape CHost host else None
    | None => unescape CHost host
    end.

Definition validUserinfo (s : bytes) : bool :=
  forallb (λ c, is_alpha c || is_digit c || one_of "-._:~!$&'()*+,;=%@" c) s.

(** The host of an authority, when all of it is valid. *)
Definition parseAuthority (authority : bytes) : option bytes :=
  match cut_last Byte.x40 authority with
  | None => parseHost authority
  | Some (userinfo, host) =>
      host ← parseHost host;
      if negb (validUserinfo userinfo) then None
      else match cut Byte.x3a userinfo with
        | (_, None) => _ ← unescape COther userinfo; Some host
        | (username, Some password) => _ ← unescape COther username; _ ← unescape COther password; Some host
        end
  end.

(** [getScheme]: the scheme and the rest; [None]: missing protocol scheme. *)
Fixpoint scheme_loop (first : bool) (s : bytes) : option (bytes * bytes) :=
  match s with
  | [] => None
  | c :: r =>
      if is_alpha c || (negb first && (is_digit c || one_of "+-." c))
      then '(a, b) ← scheme_loop false r; Some (c :: a, b)
      else if negb first && bool_decide (c = Byte.x3a) then Some ([], r) else None
  end.

Definition getScheme (s : bytes) : option (bytes * bytes) :=
  match scheme_loop true s with
  | Some r => Some r
  | None => if has_prefix s (str_bytes ":") then None else Some ([], s)
  end.

Record URL := mkURL { U_Host : bytes; U_RawQuery : bytes }.

Definition is_ctl (c : byte) : bool := (byte_Z c <? 32) || (byte_Z c =? 127).

(** The part of [parse] after the scheme and the query. *)
Definition url_hierarchy (scheme rest rawQuery : bytes) : option URL :=
  if negb (has_prefix rest (str_bytes "/")) then
    if decide (scheme ≠ []) then Some (mkURL [] rawQuery)
    else if contains (cut Byte.x2f rest).1 (str_bytes ":") then None
    else _ ← unescape COther rest; Some (mkURL [] rawQuery)
  else if (bool_decide (scheme ≠ []) || negb (has_prefix rest (str_bytes "///"))) && has_prefix rest (str_bytes "//") then
    let '(authority, path) := cut Byte.x2f (drop 2 rest) in
    host ← parseAuthority authority;
    _ ← unescape COther (match path with Some p => Byte.x2f :: p | None => [] end);
    Some (mkURL host rawQuery)
  else _ ← unescape COther rest; Some (mkURL [] rawQuery).

Definition url_parse (s : bytes) : option URL :=
  if existsb is_ctl s then None
  else if decide (s = str_bytes "*") then Some (mkURL [] [])
  else
    '(scheme, rest) ← getScheme s;
    let '(rest, query) := cut Byte.x3f rest in
    url_hierarchy scheme rest (default [] query).

Definition url_Parse (s : bytes) : option URL :=
  let '(s, frag) := cut Byte.x23 s in
  u ← url_parse s; _ ← unescape COther (default [] frag); Some u.

(** [URL.Query], as the list of the pairs in their order; pairs that do not parse
    are dropped. *)
Definition query_pair (s : bytes) : option (bytes * bytes) :=
  if contains s (str_bytes ";") then None
  else if decide (s = []) then None
  else
    let '(key, value) := cut Byte.x3d s in
    key ← unescape CQuery key; value ← unescape CQuery (default [] value); Some (key, value).

Definition url_Query (u : URL) : list (bytes * bytes) := omap query_pair (split_on Byte.x26 (U_RawQuery u)).

(** [Values.Get]. *)
Definition query_Get (query : list (bytes * bytes)) (key : string) : bytes :=
  match List.find (λ e : bytes * bytes, bool_decide (e.1 = str_bytes key)) query with
  | Some (_, v) => v
  | None => []
  end.

(** ** strconv.Atoi and time.ParseDuration *)

Definition digit_value (c : byte) : Z := byte_Z c - 48.

Fixpoint atoi_loop (n : Z) (s : bytes) : option Z :=
  match s with
  | [] => Some n
  | c :: r => if is_digit c then atoi_loop (10 * n + digit_value c) r else None
  end.

(** The sign and what follows it. *)
Definition cut_sign (s : bytes) : bool * bytes :=
  match s with
  | c :: r => if decide (c = Byte.x2d) then (true, r) else if decide (c = Byte.x2b) then (false, r) else (false, s)
  | [] => (false, [])
  end.

(** An [int] of 64 bits; out of range is an error. *)
Definition Atoi (s : bytes) : option Z :=
  let '(neg, digits) := cut_sign s in
  if decide (digits = []) then None
  else
    n ← atoi_loop 0 digits;
    let n := if (neg : bool) then - n else n in
    if decide (is_i64 n) then Some n else None.

(** [None]: overflow. *)
Fixpoint leadingInt (x : Z) (s : bytes) : option (Z * bytes) :=
  match s with
  | [] => Some (x, [])
  | c :: r =>
      if negb (is_digit c) then Some (x, s)
      else if 2 ^ 63 / 10 <? x then None
      else
        let x := x * 10 + digit_value c in
        if 2 ^ 63 <? x then None else leadingInt x r
  end.

(** The fraction [x / scale]; digits that would overflow are read and ignored. *)
Fixpoint leadingFraction (x scale : Z) (overflow : bool) (s : bytes) : Z * Z * bytes :=
  match s with
  | [] => (x, scale, [])
  | c :: r =>
      if negb (is_digit c) then (x, scale, s)
      else if overflow then leadingFraction x scale true r
      else if (2 ^ 63 - 1) / 10 <? x then leadingFraction x scale true r
      else
        let y := x * 10 + digit_value c in
        if 2 ^ 63 <? y then leadingFraction x scale true r else leadingFraction y (scale * 10) false r
  end.

Definition unitMap : list (bytes * Z) :=
  [(str_bytes "ns", 1); (str_bytes "us", 1000); ([Byte.xc2; Byte.xb5; Byte.x73], 1000);
   ([Byte.xce; Byte.xbc; Byte.x73], 1000); (str_bytes "ms", 1000000); (str_bytes "s", 1000000000);
   (str_bytes "m", 60 * 1000000000); (str_bytes "h", 3600 * 1000000000)].

Fixpoint cut_unit (s : bytes) : bytes * bytes :=
  match s with
  | [] => ([], [])
  | c :: r => if is_digit c || bool_decide (c = Byte.x2e) then ([], s) else let '(u, r) := cut_unit r in (c :: u, r)
  end.

Section Duration.
  Context (frac : Z → Z → Z → Z).

(** One turn of the loop: the nanoseconds of the first component and the rest. *)
Definition duration_component (s : bytes) : option (Z * bytes) :=
  '(v, r) ← leadingInt 0 s;
  let pre := bool_decide (length r ≠ length s) in
  let '(f, scale, post, r) :=
    match r with
    | c :: r' =>
        if decide (c = Byte.x2e) then
          let '(f, scale, r'') := leadingFraction 0 1 false r' in (f, scale, bool_decide (length r'' ≠ length r'), r'')
        else (0, 1, false, r)
    | [] => (0, 1, false, r)
    end in
  if negb pre && negb post then None
  else
    let '(u, r) := cut_unit r in
    unit ← snd <$> List.find (λ e : bytes * Z, bool_decide (e.1 = u)) unitMap;
    if 2 ^ 63 / unit <? v then None
    else
      let v := u64 (v * unit) in
      if 0 <? f then
        let v := u64 (v + frac f unit scale) in if 2 ^ 63 <? v then None else Some (v, r)
      else Some (v, r).

Fixpoint duration_loop (fuel : nat) (d : Z) (s : bytes) : option Z :=
  match s, fuel with
  | [], _ => Some d
  | _, O => None
  | c :: _, S fuel =>
      if negb (is_digit c || bool_decide (c = Byte.x2e)) then None
      else
        '(v, r) ← duration_component s;
        let d := u64 (d + v) in
        if 2 ^ 63 <? d then None else duration_loop fuel d r
  end.

Definition ParseDuration (s : bytes) : option Z :=
  let '(neg, s) := cut_sign s in
  if decide (s = str_bytes "0") then Some 0
  else if decide (s = []) then None
  else
    d ← duration_loop (length s) 0 s;
    if (neg : bool) then Some (i64 (- d))
    else if 2 ^ 63 - 1 <? d then None else Some d.

(** ** ParseURI *)

Fixpoint trim_addrs (addrs : list bytes) : outcome (list string) :=
  match addrs with
  | [] => Ret []
  | addr :: rest =>
      let addr := TrimSpace addr in
      if decide (addr = []) then Err (Errorf "empty address")
      else addrs ← trim_addrs rest; Ret (bytes_str addr :: addrs)
  end.

(** An option of the query that is given and not empty. *)
Definition query_option {A} (query : list (bytes * bytes)) (key : string) (parse : bytes → option A)
    (with_value : A → Sdk_Option) : outcome (list Sdk_Option) :=
  let v := query_Get query key in
  if decide (v = []) then Ret []
  else match parse v with
    | None => Err (Errorf (String.append "invalid " key))
    | Some a => Ret [with_value a]
    end.

Definition WithMaxRetryDelay (d : Z) : Sdk_Option := λ c,
  mkSdkConfig (SK_Addrs c) (SK_Timeout c) (SK_PoolSize c) (SK_RetryCount c) (SK_RetryDelay c) d
    (SK_KeepAliveTime c) (SK_KeepAliveTimeout c).

Definition ParseURI (uri : bytes) : outcome (list Sdk_Option) :=
  let uri :=
    if has_prefix uri (str_bytes "rockskv://") then (str_bytes "http://" ++ drop 10 uri)%list
    else if negb (contains uri (str_bytes "://")) then (str_bytes "http://" ++ uri)%list else uri in
  match url_Parse uri with
  | None => Err (Errorf "invalid URI")
  | Some u =>
      let hosts := U_Host u in
      if decide (hosts = []) then Err (Errorf "no hosts specified in URI")
      else
        addrs ← trim_addrs (split_on Byte.x2c hosts);
        let query := url_Query u in
        o1 ← query_option query "timeout" ParseDuration WithTimeout;
        o2 ← query_option query "retryCount" Atoi WithRetryCount;
        o3 ← query_option query "retryDelay" ParseDuration WithRetryDelay;
        o4 ← query_option query "maxRetryDelay" ParseDuration WithMaxRetryDelay;
        o5 ← query_option query "poolSize" Atoi WithPoolSize;
        Ret (WithAddrs addrs :: o1 ++ o2 ++ o3 ++ o4 ++ o5)%list
  end.

(** [NewClientFromURI]. *)
Definition Sdk_NewClientFromURI (dial : string → option goerr) (uri : bytes) (extraOpts : list Sdk_Option) :
    outcome (sdkerr + Sdk_Client) :=
  opts ← ParseURI uri; Ret (Sdk_NewClient dial (opts ++ extraOpts)).
End Duration.

Definition configured (opts : list Sdk_Option) : Sdk_Config := foldl (λ c opt, opt c) Sdk_DefaultConfig opts.

Example uri_all_options :
  configured <$> ParseURI (λ _ _ _, 0) (str_bytes "rockskv://host1:8000,host2:8001?timeout=1m5s&retryCount=-3&maxRetryDelay=250ms&poolSize=20")
  = Ret (mkSdkConfig ["host1:8000"; "host2:8001"] (65 * Second) 20 (-3) (100 * Millisecond) (250 * Millisecond)
      (30 * Second) (5 * Second)).
Proof. vm_compute. reflexivity. Qed.

Example uri_errors :
  map (λ s, ParseURI (λ _ _ _, 0) (str_bytes s) ≫= λ o, Ret (SK_Addrs (configured o)))
    [""; "rockskv://localhost:8000?timeout=invalid"; "rockskv://localhost:8000?retryCount=abc"; "localhost:8000,localhost:8001";
     "rockskv://h1,,h:1"; "rockskv://[::1]:8000,[::2]:8001/db"]
  = [Err (Errorf "no hosts specified in URI"); Err (Errorf "invalid timeout"); Err (Errorf "invalid retryCount");
     Ret ["localhost:8000"; "localhost:8001"]; Err (Errorf "empty address"); Ret ["[::1]:8000"; "[::2]:8001"]].
Proof. vm_compute. reflexivity. Qed.

(** A blank after a comma is refused although the addresses are trimmed; a port
    that is missing is refused only at the end of the list. *)
Example uri_surprises :
  map (λ s, ParseURI (λ _ _ _, 0) (str_bytes s) ≫= λ o, Ret (SK_Addrs (configured o)))
    ["rockskv://h1:1, h2:2"; "rockskv://h1:1,h2"; "rockskv://h1,h2:2"; "rockskv://h1:x,h2:2"]
  = [Err (Errorf "invalid URI"); Err (Errorf "invalid URI"); Ret ["h1"; "h2:2"]; Ret ["h1:x"; "h2:2"]].
Proof. vm_compute. reflexivity. Qed.

(** ** Printing a connection string *)

(** The bytes that stand for themselves everywhere in a URI. *)
Definition unreserved (c : byte) : bool := is_alpha c || is_digit c || one_of "-._~" c.

Record uri_options := mkUriOptions {
  UO_timeout : option Z; UO_retryCount : option Z; UO_retryDelay : option Z; UO_maxRetryDelay : option Z;
  UO_poolSize : option Z
}.

Definition print_int (z : Z) : bytes := if z <? 0 then Byte.x2d :: FormatUint (- z) else FormatUint z.
Definition print_duration (d : Z) : bytes := print_int d ++ str_bytes "ns".

Definition print_addr (a : bytes * Z) : bytes := a.1 ++ Byte.x3a :: FormatUint a.2.

Definition join (c : byte) (l : list bytes) : bytes :=
  match l with [] => [] | p :: ps => p ++ flat_map (cons c) ps end.

Definition query_items (o : uri_options) : list (bytes * bytes) :=
  omap (λ '(key, v), pair (str_bytes key) <$> v)
    [("timeout", print_duration <$> UO_timeout o); ("retryCount", print_int <$> UO_retryCount o);
     ("retryDelay", print_duration <$> UO_retryDelay o); ("maxRetryDelay", print_duration <$> UO_maxRetryDelay o);
     ("poolSize", print_int <$> UO_poolSize o)].

Definition print_item (e : bytes * bytes) : bytes := e.1 ++ Byte.x3d :: e.2.

Definition print_query (items : list (bytes * bytes)) : bytes :=
  match items with [] => [] | _ => Byte.x3f :: join Byte.x26 (map print_item items) end.

Definition print_uri (scheme : string) (addrs : list (bytes * Z)) (o : uri_options) : bytes :=
  str_bytes scheme ++ join Byte.x2c (map print_addr addrs) ++ print_query (query_items o).

(** What the options set in a configuration. *)
Definition with_options (addrs : list string) (o : uri_options) (c : Sdk_Config) : Sdk_Config :=
  mkSdkConfig addrs (default (SK_Timeout c) (UO_timeout o)) (default (SK_PoolSize c) (UO_poolSize o))
    (default (SK_RetryCount c) (UO_retryCount o)) (default (SK_RetryDelay c) (UO_retryDelay o))
    (default (SK_MaxRetryDelay c) (UO_maxRetryDelay o)) (SK_KeepAliveTime c) (SK_KeepAliveTimeout c).

(** *** strings *)

Abbreviation all P := (Forall (λ c, P c = true)).

Lemma all_notin (P : byte → bool) s c : all P s → P c = false → c ∉ s.
Proof. intros Hs Hc Hin. rewrite Forall_forall in Hs. apply Hs in Hin. congruence. Qed.

Lemma cut_app c s t : c ∉ s → cut c (s ++ c :: t) = (s, Some t).
Proof.
  induction s as [|x s IH]; cbn; intros Hn; [by rewrite decide_True|].
  apply not_elem_of_cons in Hn as [??]. by rewrite decide_False, IH.
Qed.

Lemma cut_none c s : c ∉ s → cut c s = (s, None).
Proof.
  induction s as [|x s IH]; cbn; intros Hn; [done|]. apply not_elem_of_cons in Hn as [??]. by rewrite decide_False, IH.
Qed.

Lemma cut_last_none c s : c ∉ s → cut_last c s = None.
Proof.
  induction s as [|x s IH]; cbn; intros Hn; [done|]. apply not_elem_of_cons in Hn as [??]. by rewrite IH, decide_False.
Qed.

Lemma cut_last_app c s t : c ∉ t → cut_last c (s ++ c :: t) = Some (s, t).
Proof.
  intros Ht. induction s as [|x s IH]; cbn; [by rewrite cut_last_none, decide_True|]. by rewrite IH.
Qed.

Lemma contains_none s c sub : c ∉ s → c ∈ sub → contains s sub = false.
Proof.
  intros Hn Hin. induction s as [|x s IH]; cbn.
  - rewrite orb_false_r. apply not_true_iff_false. intros [t Ht]%has_prefix_true.
    destruct sub; [by apply not_elem_of_nil in Hin|done].
  - rewrite IH, orb_false_r by (by apply not_elem_of_cons in Hn as []).
    apply not_true_iff_false. intros [t Ht]%has_prefix_true. apply Hn. rewrite Ht. set_solver.
Qed.

Lemma split_on_nil c s : c ∉ s → split_on c s = [s].
Proof.
  induction s as [|x s IH]; cbn; intros Hn; [done|]. apply not_elem_of_cons in Hn as [??].
  by rewrite decide_False, IH.
Qed.

Lemma split_on_app c s t : c ∉ s → split_on c (s ++ c :: t) = s :: split_on c t.
Proof.
  induction s as [|x s IH]; cbn; intros Hn; [by rewrite decide_True|].
  apply not_elem_of_cons in Hn as [??]. by rewrite decide_False, IH.
Qed.

Lemma split_on_join c l : l ≠ [] → Forall (λ p, c ∉ p) l → split_on c (join c l) = l.
Proof.
  intros Hl. destruct l as [|p l]; [done|]. clear Hl. cbn [join]. revert p.
  induction l as [|q l IH]; intros p Hl; apply Forall_cons in Hl as [Hp Hl]; cbn.
  - by rewrite app_nil_r, split_on_nil.
  - rewrite split_on_app by done. by rewrite IH.
Qed.

Lemma Forall_join (P : byte → Prop) c l : P c → Forall (Forall P) l → Forall P (join c l).
Proof.
  intros Hc. destruct 1 as [|p l Hp Hl]; [done|]. cbn. apply Forall_app. split; [done|].
  induction Hl; cbn; [done|]. constructor; [done|]. by apply Forall_app.
Qed.

Lemma has_prefix_head c s w : head w ≠ Some c → w ≠ [] → has_prefix (c :: s) w = false.
Proof. intros Hw Hn. apply not_true_iff_false. intros [t Ht]%has_prefix_true. destruct w; naive_solver. Qed.

(** Nothing to trim where no sequence of [spaces] starts with the first byte. *)
Lemma trim_left_id fuel spaces c s : Forall (λ w, w ≠ [] ∧ head w ≠ Some c) spaces →
  trim_left fuel spaces (c :: s) = c :: s.
Proof.
  intros Hs. destruct fuel; [done|]. cbn [trim_left].
  destruct (List.find (has_prefix (c :: s)) spaces) as [w|] eqn:E; [|done].
  apply List.find_some in E as [Hin E]. rewrite <- list_elem_of_In in Hin.
  rewrite Forall_forall in Hs. destruct (Hs w Hin). by rewrite has_prefix_head in E.
Qed.

(** The bytes that no space starts or ends with. *)
Definition solid (c : byte) : Prop :=
  Forall (λ w, w ≠ [] ∧ head w ≠ Some c) (white_space ++ map reverse white_space).

#[global] Instance solid_dec c : Decision (solid c) := Forall_dec _ _.

Lemma TrimSpace_id s : s ≠ [] → Forall solid s → TrimSpace s = s.
Proof.
  intros Hs Hall. unfold TrimSpace. destruct s as [|c s]; [done|].
  assert (Hc : solid c) by by apply Forall_cons in Hall as [].
  rewrite trim_left_id by (by apply Forall_app in Hc as []).
  destruct (reverse (c :: s)) as [|z r] eqn:E; [by apply (f_equal length) in E; rewrite length_reverse in E|].
  assert (Hz : solid z) by (rewrite <- Forall_reverse, E in Hall; by apply Forall_cons in Hall as []).
  rewrite trim_left_id by (by apply Forall_app in Hz as []). by rewrite <- E, reverse_involutive.
Qed.

(** *** Bytes *)

Definition host_byte (c : byte) : bool := unreserved c || one_of ":," c.
Definition uri_byte (c : byte) : bool := host_byte c || one_of "?&=" c.

Lemma unreserved_host c : unreserved c = true → host_byte c = true.
Proof. unfold host_byte. by intros ->. Qed.

Lemma host_uri c : host_byte c = true → uri_byte c = true.
Proof. unfold uri_byte. by intros ->. Qed.

Lemma is_digit_unreserved c : is_digit c = true → unreserved c = true.
Proof. unfold unreserved. intros ->. by rewrite orb_true_r. Qed.

Lemma host_byte_solid c : host_byte c = true → solid c.
Proof. intros Hc. apply (bool_decide_eq_true_1 (solid c)). revert Hc. destruct c; vm_compute; done. Qed.

Lemma uri_byte_ctl c : uri_byte c = true → is_ctl c = false.
Proof. destruct c; vm_compute; done. Qed.

Lemma host_byte_allowed m c : host_byte c = true → byte_allowed m c = true.
Proof. destruct m; [destruct c; vm_compute; done..|done|done]. Qed.

Lemma unescape_id m s : all host_byte s → unescape m s = Some s.
Proof.
  induction 1 as [|c s Hc Hs IH]; [done|]. cbn [unescape].
  rewrite !decide_False by (intros ->; by vm_compute in Hc). by rewrite (host_byte_allowed m c Hc), IH.
Qed.

Lemma all_weaken (P Q : byte → bool) s : (∀ c, P c = true → Q c = true) → all P s → all Q s.
Proof. intros HPQ Hs. eapply Forall_impl; [exact Hs|done]. Qed.

(** *** Numbers *)

Lemma parse_loop_cons n c r z : 0 ≤ n → parse_loop n (c :: r) = Some z →
  is_digit c = true ∧ 0 ≤ digit_value c ∧ n * 10 + digit_value c ≤ z ∧ parse_loop (n * 10 + digit_value c) r = Some z.
Proof.
  revert n c z. cut (∀ n z, 0 ≤ n → parse_loop n r = Some z → n ≤ z).
  - intros Hle n c z Hn. cbn [parse_loop]. destruct ((0 <=? byte_Z c - 48) && (byte_Z c - 48 <=? 9)) eqn:Hd; [|done].
    case_match; [done|]. intros Hp. unbool. unfold digit_value. split_and!; [|lia| |done].
    + unfold is_digit, in_range. change (byte_Z Byte.x30) with 48. change (byte_Z Byte.x39) with 57.
      apply andb_true_iff. split; apply Z.leb_le; lia.
    + apply Hle; [lia|done].
  - induction r as [|c r IH]; cbn [parse_loop]; intros n z Hn Hp; [by simplify_eq|].
    destruct ((0 <=? byte_Z c - 48) && (byte_Z c - 48 <=? 9)) eqn:Hd; [|done].
    case_match; [done|]. unbool. apply IH in Hp; lia.
Qed.

Lemma parse_loop_digits n s z : 0 ≤ n → parse_loop n s = Some z → all is_digit s.
Proof.
  revert n. induction s as [|c s IH]; intros n Hn Hp; [done|].
  apply parse_loop_cons in Hp as (Hc & ? & _ & Hp); [|done]. constructor; [done|]. eapply IH; [|exact Hp]. lia.
Qed.

Lemma parse_loop_le n s z : 0 ≤ n → parse_loop n s = Some z → n ≤ z.
Proof.
  intros Hn. destruct s as [|c s]; [cbn; intros [= ->]; lia|]. intros Hp.
  apply parse_loop_cons in Hp as (_ & ? & ? & _); lia.
Qed.

Lemma atoi_parse n s z : 0 ≤ n → parse_loop n s = Some z → atoi_loop n s = Some z.
Proof.
  revert n. induction s as [|c s IH]; intros n Hn Hp; [done|].
  apply parse_loop_cons in Hp as (Hc & ? & _ & Hp); [|done]. cbn [atoi_loop]. rewrite Hc.
  replace (10 * n) with (n * 10) by lia. apply IH; [lia|done].
Qed.

Lemma leadingInt_parse n s z c r : 0 ≤ n → parse_loop n s = Some z → z ≤ 2 ^ 63 → is_digit c = false →
  leadingInt n (s ++ c :: r) = Some (z, c :: r).
Proof.
  intros Hn Hp Hz Hc. revert n Hn Hp. induction s as [|x s IH]; intros n Hn Hp.
  - cbn in *. simplify_eq. by rewrite Hc.
  - apply parse_loop_cons in Hp as (Hx & ? & ? & Hp); [|done]. cbn [app leadingInt]. rewrite Hx. cbn [negb].
    rewrite (proj2 (Z.ltb_ge _ _)) by (apply Z.div_le_lower_bound; lia).
    rewrite (proj2 (Z.ltb_ge _ _)) by lia. apply IH; [lia|done].
Qed.

Lemma FormatUint_parse z : is_u64 z → FormatUint z ≠ [] ∧ parse_loop 0 (FormatUint z) = Some z.
Proof. intros Hz. pose proof (ParseUint_FormatUint z Hz) as HP. unfold ParseUint in HP. by destruct (FormatUint z). Qed.

Lemma FormatUint_digits z : is_u64 z → all is_digit (FormatUint z).
Proof. intros [_ Hp]%FormatUint_parse. by eapply parse_loop_digits. Qed.

(** The sign of a printed number. *)
Lemma cut_sign_print z t : is_i64 z → cut_sign (print_int z ++ t) = (z <? 0, FormatUint (Z.abs z) ++ t).
Proof.
  intros Hz. unfold print_int. destruct (Z.ltb_spec z 0) as [Hn|Hn].
  - rewrite Z.abs_neq by lia. done.
  - rewrite Z.abs_eq by lia. assert (Hu : is_u64 z) by (unfold is_i64, is_u64 in *; lia).
    destruct (FormatUint z) as [|c r] eqn:E; [by destruct (FormatUint_parse z Hu)|].
    pose proof (FormatUint_digits z Hu) as Hd. rewrite E in Hd. apply Forall_cons in Hd as [Hc _].
    cbn. by rewrite !decide_False by (intros ->; by vm_compute in Hc).
Qed.

Lemma abs_u64 z : is_i64 z → is_u64 (Z.abs z).
Proof. unfold is_i64, is_u64. lia. Qed.

Lemma signed_abs z : (if z <? 0 then - Z.abs z else Z.abs z) = z.
Proof. destruct (Z.ltb_spec z 0); lia. Qed.

Lemma Atoi_print z : is_i64 z → Atoi (print_int z) = Some z.
Proof.
  intros Hz. unfold Atoi. rewrite <- (app_nil_r (print_int z)), cut_sign_print, app_nil_r by done.
  destruct (FormatUint_parse (Z.abs z) (abs_u64 z Hz)) as [Hne Hp].
  rewrite decide_False, (atoi_parse _ _ _ ltac:(done) Hp) by done. cbn. rewrite signed_abs.
  by rewrite decide_True.
Qed.

Lemma ParseDuration_print frac d : is_i64 d → ParseDuration frac (print_duration d) = Some d.
Proof.
  intros Hd. unfold ParseDuration, print_duration. rewrite cut_sign_print by done.
  destruct (FormatUint_parse (Z.abs d) (abs_u64 d Hd)) as [Hne Hp].
  pose proof (FormatUint_digits (Z.abs d) (abs_u64 d Hd)) as Hdig.
  set (s := FormatUint (Z.abs d)) in *.
  rewrite !decide_False.
  2: { by destruct s. }
  2: { intros E%(f_equal last). rewrite last_app in E. done. }
  assert (HC : duration_component frac (s ++ str_bytes "ns") = Some (Z.abs d, [])).
  { unfold duration_component. change (str_bytes "ns") with [Byte.x6e; Byte.x73].
    rewrite (leadingInt_parse 0 s (Z.abs d)) by (done || unfold is_i64 in Hd; lia). cbn [mbind option_bind].
    rewrite bool_decide_eq_true_2 by (rewrite length_app; destruct s; cbn; [done|lia]).
    rewrite decide_False by done. cbn [negb andb].
    change (cut_unit [Byte.x6e; Byte.x73]) with ([Byte.x6e; Byte.x73], @nil byte). cbn -[Z.div Z.pow u64].
    rewrite bool_decide_eq_true_2 by done. cbn -[Z.div Z.pow u64]. rewrite Z.div_1_r, (proj2 (Z.ltb_ge _ _)) by (unfold is_i64 in Hd; lia).
    by rewrite Z.mul_1_r, u64_small by by apply abs_u64. }
  destruct s as [|c s]; [done|]. cbn [app length duration_loop].
  apply Forall_cons in Hdig as [Hc _]. rewrite Hc. cbn [orb negb]. cbn [app] in HC. rewrite HC.
  cbn [mbind option_bind]. rewrite Z.add_0_l, u64_small by by apply abs_u64.
  assert (Z.abs d ≤ 2 ^ 63) by (unfold is_i64 in Hd; lia). rewrite (proj2 (Z.ltb_ge (2 ^ 63) (Z.abs d))) by done.
  rewrite length_app, Nat.add_comm. cbn [length str_bytes Nat.add duration_loop].
  destruct (Z.ltb_spec d 0) as [Hn|Hn].
  - cbn. rewrite i64_small; unfold is_i64 in *; f_equal; lia.
  - cbn. rewrite (proj2 (Z.ltb_ge _ _)) by (unfold is_i64 in Hd; lia). f_equal. lia.
Qed.

(** *** Parsing what was printed *)

Definition addr_ok (a : bytes * Z) : Prop := all unreserved a.1 ∧ is_u64 a.2.
Definition items_ok : list (bytes * bytes) → Prop := Forall (λ e, all unreserved e.1 ∧ all unreserved e.2).

Lemma print_addr_bytes a : addr_ok a →
  print_addr a ≠ [] ∧ Forall (λ c, (unreserved c || one_of ":" c) = true) (print_addr a).
Proof.
  intros [Ha Hp]. split; [by destruct a as [[] ?]|]. unfold print_addr. apply Forall_app. split.
  - eapply Forall_impl; [exact Ha|]. by intros c ->.
  - constructor; [done|]. eapply Forall_impl; [by apply FormatUint_digits|].
    intros c Hc. cbn. by rewrite (is_digit_unreserved c Hc).
Qed.

Lemma addr_host_bytes a : addr_ok a → all host_byte (print_addr a).
Proof. intros [_ Ha]%print_addr_bytes. eapply Forall_impl; [exact Ha|]. intros c. destruct c; vm_compute; done. Qed.

Abbreviation hosts_of addrs := (join Byte.x2c (map print_addr addrs)).

Lemma hosts_bytes addrs : Forall addr_ok addrs → all host_byte (hosts_of addrs).
Proof. intros Ha. apply Forall_join; [done|]. apply Forall_map. eapply Forall_impl; [exact Ha|]. apply addr_host_bytes. Qed.

Lemma join_snoc c l p : join c (l ++ [p]) = (match l with [] => p | _ => join c l ++ c :: p end)%list.
Proof. destruct l as [|q l]; cbn; [by rewrite app_nil_r|]. rewrite flat_map_app. cbn. by rewrite app_nil_r, app_assoc. Qed.

(** The last colon stands before the port of the last address. *)
Lemma hosts_port addrs : addrs ≠ [] → Forall addr_ok addrs →
  ∃ pre port, hosts_of addrs = (pre ++ Byte.x3a :: FormatUint port)%list ∧ is_u64 port.
Proof.
  intros Hne Ha. destruct addrs as [|[h p] l _] using rev_ind; [done|].
  apply Forall_app in Ha as [_ Ha]. apply Forall_singleton in Ha as [_ Hp]. cbn in Hp.
  rewrite map_app. cbn [map]. rewrite join_snoc. change (print_addr (h, p)) with (h ++ Byte.x3a :: FormatUint p)%list.
  destruct (map print_addr l) as [|q qs]; [by exists h, p|].
  exists (join Byte.x2c (q :: qs) ++ Byte.x2c :: h)%list, p. split; [|done]. by rewrite <- app_assoc.
Qed.

Lemma parseHost_hosts addrs : addrs ≠ [] → Forall addr_ok addrs → parseHost (hosts_of addrs) = Some (hosts_of addrs).
Proof.
  intros Hne Ha. pose proof (hosts_bytes addrs Ha) as Hb. unfold parseHost.
  destruct (has_prefix _ _) eqn:E.
  { apply has_prefix_true in E as [t E]. rewrite E in Hb. by apply Forall_cons in Hb as [Hb _]. }
  destruct (hosts_port addrs Hne Ha) as (pre & port & Hh & Hp).
  pose proof (FormatUint_digits port Hp) as Hd.
  rewrite Hh, cut_last_app by (by eapply all_notin). rewrite <- Hh.
  rewrite (proj2 (forallb_forall _ _)); [by apply unescape_id|].
  intros c Hc%list_elem_of_In. rewrite Forall_forall in Hd. by apply Hd.
Qed.

Lemma item_bytes e : all unreserved e.1 ∧ all unreserved e.2 → Forall (λ c, (unreserved c || one_of "=" c) = true) (print_item e).
Proof.
  intros [H1 H2]. apply Forall_app. split; [eapply Forall_impl; [exact H1|]; by intros c ->|].
  constructor; [done|]. eapply Forall_impl; [exact H2|]. by intros c ->.
Qed.

Lemma query_pair_item e : all unreserved e.1 ∧ all unreserved e.2 → query_pair (print_item e) = Some e.
Proof.
  intros He. pose proof (item_bytes e He) as Hb. destruct e as [k v], He as [Hk Hv]. cbn in Hk, Hv. unfold query_pair.
  change (str_bytes ";") with [Byte.x3b].
  assert (Byte.x3b ∉ print_item (k, v)) by (eapply all_notin; [exact Hb|done]).
  rewrite (contains_none _ Byte.x3b) by set_solver.
  rewrite decide_False by by destruct k. unfold print_item. cbn [fst snd].
  rewrite cut_app by by eapply all_notin.
  assert (Hu : ∀ s, all unreserved s → unescape CQuery s = Some s)
    by (intros s Hs; apply unescape_id; eapply all_weaken; [apply unreserved_host|done]).
  rewrite Hu by done. cbn. by rewrite Hu.
Qed.

(** The query of a printed list of options. *)
Definition raw_query (items : list (bytes * bytes)) : bytes := join Byte.x26 (map print_item items).

Lemma url_Query_items h items : items_ok items → url_Query (mkURL h (raw_query items)) = items.
Proof.
  intros Hi. unfold url_Query, raw_query. cbn [U_RawQuery].
  destruct (decide (items = [])) as [->|Hne]; [done|].
  rewrite split_on_join.
  - clear Hne. induction Hi as [|e l He Hl IH]; [done|]. cbn [map omap list_omap]. by rewrite query_pair_item, IH.
  - by destruct items.
  - apply Forall_map. eapply Forall_impl; [exact Hi|]. intros e He%item_bytes. eapply all_notin; [exact He|done].
Qed.

Lemma items_uri_bytes items : items_ok items → all uri_byte (print_query items).
Proof.
  intros Hi. destruct items as [|e l]; [done|]. constructor; [done|]. apply Forall_join; [done|].
  apply Forall_map. eapply Forall_impl; [exact Hi|]. intros x Hx%item_bytes. eapply Forall_impl; [exact Hx|].
  intros c. destruct c; vm_compute; done.
Qed.

Lemma url_Parse_print addrs items : addrs ≠ [] → Forall addr_ok addrs → items_ok items →
  url_Parse (str_bytes "http://" ++ hosts_of addrs ++ print_query items) = Some (mkURL (hosts_of addrs) (raw_query items)).
Proof.
  intros Hne Ha Hi. pose proof (hosts_bytes addrs Ha) as Hb. pose proof (parseHost_hosts addrs Hne Ha) as Hph.
  set (h := hosts_of addrs) in *. clearbody h.
  assert (Hu : all uri_byte (h ++ print_query items)).
  { apply Forall_app. split; [by eapply all_weaken; [apply host_uri|]|by apply items_uri_bytes]. }
  assert (Hq : cut Byte.x3f (h ++ print_query items) = (h, match items with [] => None | _ => Some (raw_query items) end)).
  { assert (Byte.x3f ∉ h) by by eapply all_notin. destruct items; cbn [print_query].
    - by rewrite app_nil_r, cut_none. - by rewrite cut_app. }
  unfold url_Parse. rewrite cut_none; [|apply not_elem_of_app; split; [by vm_compute; set_solver|by eapply all_notin]].
  unfold url_parse. rewrite existsb_app. change (existsb is_ctl (str_bytes "http://")) with false. cbn [orb].
  destruct (existsb is_ctl _) eqn:EC.
  { apply existsb_exists in EC as (c & Hc%list_elem_of_In & HC). rewrite Forall_forall in Hu.
    by rewrite uri_byte_ctl in HC by by apply Hu. }
  rewrite decide_False by done.
  change (getScheme (str_bytes "http://" ++ h ++ print_query items))
    with (Some (str_bytes "http", (str_bytes "//" ++ h ++ print_query items)%list)).
  cbn [mbind option_bind]. change (str_bytes "//") with [Byte.x2f; Byte.x2f]. cbn [app cut].
  rewrite !decide_False by done. rewrite Hq. unfold url_hierarchy.
  change (has_prefix (Byte.x2f :: Byte.x2f :: h) (str_bytes "/")) with true.
  change (has_prefix (Byte.x2f :: Byte.x2f :: h) (str_bytes "//")) with true.
  cbn [negb]. rewrite bool_decide_eq_true_2 by done. cbn [orb andb drop]. rewrite ?drop_0.
  rewrite cut_none by by eapply all_notin. unfold parseAuthority.
  rewrite cut_last_none by by eapply all_notin. rewrite Hph. by destruct items.
Qed.

Lemma trim_addrs_print addrs : Forall addr_ok addrs →
  trim_addrs (map print_addr addrs) = Ret (map (bytes_str ∘ print_addr) addrs).
Proof.
  induction 1 as [|a l Ha Hl IH]; [done|]. cbn [map trim_addrs].
  assert (Hs : Forall solid (print_addr a))
    by (eapply Forall_impl; [by apply addr_host_bytes|apply host_byte_solid]).
  destruct (print_addr_bytes a Ha) as [Hne _].
  rewrite TrimSpace_id, decide_False, IH by done. done.
Qed.

Lemma print_int_bytes z : is_i64 z → print_int z ≠ [] ∧ all unreserved (print_int z).
Proof.
  intros Hz. assert (Hd : ∀ n, is_u64 n → FormatUint n ≠ [] ∧ all unreserved (FormatUint n)).
  { intros n Hn. split; [by apply FormatUint_parse|]. eapply all_weaken; [apply is_digit_unreserved|]. by apply FormatUint_digits. }
  unfold print_int. unfold is_i64 in Hz. destruct (Z.ltb_spec z 0).
  - split; [done|]. constructor; [done|]. apply Hd. unfold is_u64. lia.
  - apply Hd. unfold is_u64. lia.
Qed.

Lemma print_duration_bytes d : is_i64 d → print_duration d ≠ [] ∧ all unreserved (print_duration d).
Proof.
  intros [_ Hb]%print_int_bytes. unfold print_duration. split; [by destruct (print_int d)|].
  apply Forall_app. split; [done|]. by repeat constructor.
Qed.

Definition options_ok (o : uri_options) : Prop :=
  Forall (λ v, from_option is_i64 True v)
    [UO_timeout o; UO_retryCount o; UO_retryDelay o; UO_maxRetryDelay o; UO_poolSize o].

Lemma query_items_ok o : options_ok o → items_ok (query_items o).
Proof.
  unfold options_ok. rewrite !Forall_cons. intros (H1 & H2 & H3 & H4 & H5 & _). unfold query_items.
  destruct o as [o1 o2 o3 o4 o5]. cbn in *.
  destruct o1, o2, o3, o4, o5; cbn;
    repeat (apply Forall_cons; split;
      [split; [by repeat constructor|by apply print_int_bytes || by apply print_duration_bytes]|]); by apply Forall_nil.
Qed.

Lemma query_Get_items o :
  query_Get (query_items o) "timeout" = default [] (print_duration <$> UO_timeout o) ∧
  query_Get (query_items o) "retryCount" = default [] (print_int <$> UO_retryCount o) ∧
  query_Get (query_items o) "retryDelay" = default [] (print_duration <$> UO_retryDelay o) ∧
  query_Get (query_items o) "maxRetryDelay" = default [] (print_duration <$> UO_maxRetryDelay o) ∧
  query_Get (query_items o) "poolSize" = default [] (print_int <$> UO_poolSize o).
Proof. destruct o as [[] [] [] [] []]; by split_and!. Qed.

Lemma query_option_print query key (print : Z → bytes) parse w v :
  query_Get query key = default [] (print <$> v) → from_option is_i64 True v →
  (∀ z, is_i64 z → print z ≠ [] ∧ all unreserved (print z)) → (∀ z, is_i64 z → parse (print z) = Some z) →
  query_option query key parse w = Ret (option_list (w <$> v)).
Proof.
  intros HG Hv Hpr Hpa. unfold query_option. rewrite HG. destruct v as [z|]; cbn in *; [|done].
  destruct (Hpr z Hv) as [Hne _]. by rewrite decide_False, Hpa.
Qed.

(** The text of a URI with the scheme, or without it, as [url.Parse] gets it. *)
Lemma uri_http scheme addrs o : scheme = "rockskv://" ∨ scheme = "" → Forall addr_ok addrs → options_ok o →
  let uri := print_uri scheme addrs o in
  (if has_prefix uri (str_bytes "rockskv://") then (str_bytes "http://" ++ drop 10 uri)%list
   else if negb (contains uri (str_bytes "://")) then (str_bytes "http://" ++ uri)%list else uri) =
  (str_bytes "http://" ++ hosts_of addrs ++ print_query (query_items o))%list.
Proof.
  intros Hs Ha Ho uri. set (t := (hosts_of addrs ++ print_query (query_items o))%list) in *.
  destruct Hs as [-> | ->]; unfold uri, print_uri; fold t.
  - rewrite (proj2 (has_prefix_true _ _)) by by eexists. by rewrite drop_app_length'.
  - change (str_bytes "" ++ t)%list with t.
    assert (Hslash : Byte.x2f ∉ t).
    { apply (all_notin uri_byte); [|done]. apply Forall_app. split; [|by apply items_uri_bytes, query_items_ok].
      eapply all_weaken; [apply host_uri|by apply hosts_bytes]. }
    destruct (has_prefix t _) eqn:E.
    { exfalso. apply has_prefix_true in E as [t' E]. apply Hslash. rewrite E. apply elem_of_app. left.
      apply (bool_decide_eq_true_1 _). by vm_compute. }
    rewrite (contains_none _ Byte.x2f); [done..|]. apply (bool_decide_eq_true_1 _). by vm_compute.
Qed.

(** C36: connection strings survive printing and parsing.  A URI with any
    number of addresses (host names of unreserved characters, with a port) and any
    of the options, with the scheme or without it, parses, whatever the values of
    the options in 64 bits, and the client options it gives set exactly these
    addresses and values and leave the rest of the configuration alone. *)
Theorem ParseURI_print frac scheme addrs o :
  scheme = "rockskv://" ∨ scheme = "" → addrs ≠ [] → Forall addr_ok addrs → options_ok o →
  ∃ opts, ParseURI frac (print_uri scheme addrs o) = Ret opts ∧
    ∀ c, foldl (λ c opt, opt c) c opts = with_options (map (bytes_str ∘ print_addr) addrs) o c.
Proof.
  intros Hs Hne Ha Ho. unfold ParseURI. rewrite uri_http by done.
  pose proof (query_items_ok o Ho) as Hi. rewrite url_Parse_print by done. cbn [U_Host].
  rewrite decide_False; [|destruct (hosts_port addrs Hne Ha) as (pre & port & -> & _); by destruct pre].
  rewrite split_on_join; [|by destruct addrs|apply Forall_map; eapply Forall_impl; [exact Ha|];
    intros a [_ Hb]%print_addr_bytes; eapply all_notin; [exact Hb|done]].
  rewrite trim_addrs_print, url_Query_items by done. cbn [mbind outcome_bind].
  destruct (query_Get_items o) as (G1 & G2 & G3 & G4 & G5).
  unfold options_ok in Ho. rewrite !Forall_cons in Ho. destruct Ho as (H1 & H2 & H3 & H4 & H5 & _).
  rewrite (query_option_print _ _ print_duration _ _ _ G1 H1 print_duration_bytes (ParseDuration_print frac)).
  rewrite (query_option_print _ _ print_int _ _ _ G2 H2 print_int_bytes Atoi_print).
  rewrite (query_option_print _ _ print_duration _ _ _ G3 H3 print_duration_bytes (ParseDuration_print frac)).
  rewrite (query_option_print _ _ print_duration _ _ _ G4 H4 print_duration_bytes (ParseDuration_print frac)).
  rewrite (query_option_print _ _ print_int _ _ _ G5 H5 print_int_bytes Atoi_print).
  eexists. split; [done|]. intros c. by destruct o as [[] [] [] [] []].
Qed.

Lemma ParseURI_print_witness :
  let addrs := [(str_bytes "node1", 8000); (str_bytes "node2", 8001)] in
  let o := mkUriOptions (Some (5 * Second)) (Some (-1)) None None (Some 20) in
  print_uri "rockskv://" addrs o = str_bytes "rockskv://node1:8000,node2:8001?timeout=5000000000ns&retryCount=-1&poolSize=20" ∧
  ∃ opts, ParseURI (λ _ _ _, 0) (print_uri "rockskv://" addrs o) = Ret opts ∧
    ∀ c, foldl (λ c opt, opt c) c opts = with_options ["node1:8000"; "node2:8001"] o c.
Proof.
  split; [vm_compute; reflexivity|].
  refine (ParseURI_print (λ _ _ _, 0) "rockskv://" [(str_bytes "node1", 8000); (str_bytes "node2", 8001)]
    (mkUriOptions (Some (5 * Second)) (Some (-1)) None None (Some 20)) _ _ _ _).
  - by left.
  - done.
  - repeat constructor; by vm_compute.
  - repeat constructor; by vm_compute.
Defined.
