(* ===== verification/Cli.v ===== *)
(** * The command-line client

    [src/cmd/cli/main.go]: the commands on keys over the client library, and the
    commands that ask the metadata service, with the lines they print.

    A command ends with the lines of its standard output and the exit code; what
    goes to standard error is the reason of a failure.  The values of the flags are
    arguments: parsing them is the work of package flag.  Widths and lower case
    are those of ASCII text. *)

From S2P Require Import Prelude Engine Keys FieldCodec FieldStorage CommandLog Proto Partitions StorageServer HashRing MetaStore MetaRouter MetaServer MigrationScheduler Shutdown MigrationController ComputeRouter ComputeServer Client.

#[local] Open Scope string_scope.
#[local] Open Scope Z_scope.

(** ** Text *)

Definition lower_ascii (c : Ascii.ascii) : Ascii.ascii :=
  let n := Ascii.nat_of_ascii c in
  if decide (65 ≤ n ≤ 90)%nat then Ascii.ascii_of_nat (n + 32) else c.

(** [strings.ToLower] *)
Fixpoint ToLower (s : string) : string :=
  match s with EmptyString => EmptyString | String c s => String (lower_ascii c) (ToLower s) end.

Fixpoint spaces (n : nat) : string :=
  match n with O => "" | Datatypes.S n => " " +:+ spaces n end.

(** The verbs [%-20s] and [%-12d]. *)
Definition pad (width : nat) (s : string) : string := s +:+ spaces (width - String.length s).

(** [%d] *)
Definition show (n : Z) : string := if n <? 0 then "-" +:+ decimal (- n) else decimal n.

Definition truncate (s : string) (maxLen : nat) : string :=
  if decide (String.length s ≤ maxLen)%nat then s
  else String.substring 0 (maxLen - 3) s +:+ "...".

(** ** The result of a command *)

Inductive cli_failure :=
  | NotConnected
  | UsageError (usage : string)
  | UnknownCommand (cmd : string)
  | CommandError
  | Reported (message : string).

(** The lines printed, and the reason of a failure: the exit code is 1 then. *)
Record cli_result := mkCli { cli_out : list string; cli_failed : option cli_failure }.

Definition printed (lines : list string) : cli_result := mkCli lines None.
Definition usage (text : string) : cli_result := mkCli [] (Some (UsageError text)).
Definition cmd_error : cli_result := mkCli [] (Some CommandError).

Definition exit_code (r : cli_result) : Z := match cli_failed r with None => 0 | Some _ => 1 end.

(** ** Commands on keys *)

(** The pairs of [mset]: a later pair of a key replaces an earlier one. *)
Fixpoint mset_items (args : list string) (items : gmap bytes bytes) : gmap bytes bytes :=
  match args with
  | k :: v :: rest => mset_items rest (<[str_bytes k := str_bytes v]> items)
  | _ => items
  end.

Definition mget_line (results : gmap bytes bytes) (key : string) : string :=
  match results !! str_bytes key with
  | Some value => key +:+ ": " +:+ bytes_str value
  | None => key +:+ ": (nil)"
  end.

(** The other commands, with their short names. *)
Inductive cluster_cmd :=
  | CmdBenchmark | CmdLocate | CmdPartitions | CmdRebalance | CmdMigrationStatus | CmdMigrationCancel
  | CmdClusterInfo | CmdInitCluster | CmdShutdownNode | CmdNodeStatus.

Definition cluster_cmd_of (cmd : string) : option cluster_cmd :=
  if decide (cmd = "benchmark" ∨ cmd = "bench") then Some CmdBenchmark
  else if decide (cmd = "locate") then Some CmdLocate
  else if decide (cmd = "partitions") then Some CmdPartitions
  else if decide (cmd = "rebalance") then Some CmdRebalance
  else if decide (cmd = "migration-status" ∨ cmd = "mstatus") then Some CmdMigrationStatus
  else if decide (cmd = "migration-cancel" ∨ cmd = "mcancel") then Some CmdMigrationCancel
  else if decide (cmd = "cluster-info" ∨ cmd = "info") then Some CmdClusterInfo
  else if decide (cmd = "init-cluster" ∨ cmd = "init") then Some CmdInitCluster
  else if decide (cmd = "shutdown-node" ∨ cmd = "shutdown") then Some CmdShutdownNode
  else if decide (cmd = "node-status" ∨ cmd = "nstatus") then Some CmdNodeStatus
  else None.

Section Keys.
  Context {N : Type} `{KVService N}.
  Variable order : gmap bytes bytes → list KeyValueItem.
  Variable between : N → N.

Definition cli_get (c : Client) (net : N) (args : list string) : N * cli_result :=
  match args with
  | _ :: key :: _ =>
      match Client_GetString c net key with
      | (net, inl _) => (net, cmd_error)
      | (net, inr (_, false)) => (net, printed ["(nil)"])
      | (net, inr (value, true)) => (net, printed [bytes_str value])
      end
  | _ => (net, usage "get <key>")
  end.

Definition cli_put (c : Client) (net : N) (args : list string) : N * cli_result :=
  match args with
  | _ :: key :: value :: _ =>
      match Client_PutString c net key value with
      | (net, Some _) => (net, cmd_error)
      | (net, None) => (net, printed ["OK"])
      end
  | _ => (net, usage "put <key> <value>")
  end.

Definition cli_delete (c : Client) (net : N) (args : list string) : N * cli_result :=
  match args with
  | _ :: key :: _ =>
      match Client_DeleteString c net key with
      | (net, Some _) => (net, cmd_error)
      | (net, None) => (net, printed ["OK"])
      end
  | _ => (net, usage "delete <key>")
  end.

Definition cli_exists (c : Client) (net : N) (args : list string) : N * cli_result :=
  match args with
  | _ :: key :: _ =>
      match Client_Exists c net (str_bytes key) with
      | (net, inl _) => (net, cmd_error)
      | (net, inr found) => (net, printed [if found : bool then "1" else "0"])
      end
  | _ => (net, usage "exists <key>")
  end.

Definition cli_mget (c : Client) (net : N) (args : list string) : N * cli_result :=
  match args with
  | _ :: ((_ :: _) as keys) =>
      match Client_BatchGet c net (str_bytes <$> keys) with
      | (net, inl _) => (net, cmd_error)
      | (net, inr results) => (net, printed (mget_line results <$> keys))
      end
  | _ => (net, usage "mget <key1> [key2] ...")
  end.

Definition cli_mset (c : Client) (net : N) (args : list string) : N * cli_result :=
  if (len args <? 3) || negb ((len args - 1) mod 2 =? 0)
  then (net, usage "mset <key1> <value1> [key2] [value2] ...")
  else
    match Client_BatchPut order c net (mset_items (tail args) ∅) with
    | (net, Some _) => (net, cmd_error)
    | (net, None) => (net, printed ["OK"])
    end.

Definition cli_setnx (c : Client) (net : N) (args : list string) : N * cli_result :=
  match args with
  | _ :: key :: value :: _ =>
      match Client_SetNX between c net (str_bytes key) (str_bytes value) with
      | (net, inl _) => (net, cmd_error)
      | (net, inr set) => (net, printed [if set : bool then "1" else "0"])
      end
  | _ => (net, usage "setnx <key> <value>")
  end.

Definition cli_ping (c : Client) (net : N) : N * cli_result :=
  match Client_Ping c net with
  | (net, Some _) => (net, cmd_error)
  | (net, None) => (net, printed ["PONG"])
  end.

(** [runBenchmark]: the keys are the prefix of [keySize] letters with a number; each
    phase goes on after an error.  The counts are the errors of the puts and of the
    gets; the rates it prints depend on the clock. *)
Definition bench_key (keySize : nat) (i : nat) : bytes :=
  (map (λ j, Z_byte (97 + Z.of_nat j mod 26)) (seq 0 keySize) ++ FormatUint (Z.of_nat i))%list.

Definition bench_phase (call : N → bytes → N * bool) (keySize n : nat) (net : N) : N * Z :=
  foldl (λ '(net, errors) i,
    let '(net, ok) := call net (bench_key keySize i) in (net, if ok : bool then errors else errors + 1))
    (net, 0) (seq 0 n).

Definition cli_benchmark (c : Client) (net : N) (n keySize valueSize : nat) : N * (Z * Z) :=
  let value := replicate valueSize (Z_byte 120) in
  let '(net, puts) := bench_phase (λ net k,
    let '(net, err) := Client_Put c net k value in (net, bool_decide (err = None))) keySize n net in
  let '(net, gets) := bench_phase (λ net k,
    match Client_Get c net k with (net, inl _) => (net, false) | (net, inr _) => (net, true) end) keySize n net in
  let '(net, _) := bench_phase (λ net k, ((Client_Delete c net k).1, true)) keySize n net in
  (net, (puts, gets)).

(** The configuration [main] makes. *)
Definition cli_config (addr : string) (timeout : Z) : Client_Config :=
  mkClientConfig [addr] (5 * Second) timeout 3 (100 * Millisecond).

(** [main]: [cluster] parses the flags of the other commands and runs them. *)
Definition cli_main (dial : string → option goerr) (addr : string) (timeout : Z)
    (cluster : cluster_cmd → list string → N → N * cli_result) (net : N) (args : list string) : N * cli_result :=
  match args with
  | [] => (net, mkCli [] (Some (UsageError "rockskv-cli [options] <command> [arguments]")))
  | name :: rest =>
      match Client_New dial (Some (cli_config addr timeout)) with
      | Error _ => (net, mkCli [] (Some NotConnected))
      | Ok c =>
          let cmd := ToLower name in
          if decide (cmd = "get") then cli_get c net args
          else if decide (cmd = "put" ∨ cmd = "set") then cli_put c net args
          else if decide (cmd = "delete" ∨ cmd = "del") then cli_delete c net args
          else if decide (cmd = "exists") then cli_exists c net args
          else if decide (cmd = "mget") then cli_mget c net args
          else if decide (cmd = "mset") then cli_mset c net args
          else if decide (cmd = "setnx") then cli_setnx c net args
          else if decide (cmd = "ping") then cli_ping c net
          else match cluster_cmd_of cmd with
               | Some command => cluster command rest net
               | None => (net, mkCli [] (Some (UnknownCommand cmd)))
               end
      end
  end.
End Keys.

(** ** Commands of the metadata service *)

(** Each takes the answer of its call: [None] is an error of the call. *)

Definition getMigrationStateString (state : MigrationState) : string :=
  match state with
  | MIGRATION_NONE => "none"
  | MIGRATION_PREPARING => "preparing"
  | MIGRATION_COPYING => "copying"
  | MIGRATION_CATCHUP => "catchup"
  | MIGRATION_SWITCHING => "switching"
  | MIGRATION_COMPLETE => "complete"
  | MIGRATION_FAILED => "failed"
  end.

Definition row_status (p : PartitionInfo) : string :=
  if decide (PI_MigrationState p = MIGRATION_NONE) then "normal" else getMigrationStateString (PI_MigrationState p).

(** The map of [runLocate]. *)
Definition partitionMap (rows : list PartitionInfo) : gmap Z PartitionInfo :=
  foldl (λ m p, <[PI_PartitionId p := p]> m) ∅ rows.

(** The primary and replica that the row of a key shows; [None]: unknown. *)
Definition locate_key (Sum64 : bytes → Z) (rows : list PartitionInfo) (key : string) : Z * option PartitionInfo :=
  let partitionID := u32 (Sum64 (str_bytes key) mod 4096) in
  (partitionID, partitionMap rows !! partitionID).

Definition locate_lines (Sum64 : bytes → Z) (rows : list PartitionInfo) (key : string) : list string :=
  match locate_key Sum64 rows key with
  | (id, None) =>
      [pad 20 key +:+ " " +:+ pad 12 (show id) +:+ " " +:+ pad 20 "(unknown)" +:+ " " +:+ pad 20 "(unknown)" +:+ " " +:+ pad 10 "N/A"]
  | (id, Some p) =>
      (pad 20 (truncate key 20) +:+ " " +:+ pad 12 (show id) +:+ " " +:+ pad 20 (PI_Primary p) +:+ " " +:+
       pad 20 (PI_Replica p) +:+ " " +:+ pad 10 (row_status p))
      :: (if decide (PI_MigrationTarget p = "") then []
          else [pad 20 "" +:+ " " +:+ pad 12 "(migrating)" +:+ " -> " +:+ pad 20 (PI_MigrationTarget p)])
  end.

Definition rule (n : nat) : string := Nat.iter n (String.append "-") "".

Definition runLocate (Sum64 : bytes → Z) (resp : option (Z * list PartitionInfo)) (keys : list string) : cli_result :=
  match keys, resp with
  | [], _ => usage "locate <key> [key2] ..."
  | _, None => cmd_error
  | _, Some (_, rows) =>
      printed ((pad 20 "Key" +:+ " " +:+ pad 12 "Partition" +:+ " " +:+ pad 20 "Primary" +:+ " " +:+ pad 20 "Replica" +:+
                " " +:+ pad 10 "Status") :: rule 85 :: concat (locate_lines Sum64 rows <$> keys))
  end.

(** The counts of [runPartitions]: primaries and replicas by node. *)
Record nodePartitionStats := mkStats { primaryCount : Z; replicaCount : Z }.

Definition count_role (primary : bool) (node : string) (stats : gmap string nodePartitionStats) :
    gmap string nodePartitionStats :=
  let s := default (mkStats 0 0) (stats !! node) in
  <[node := if primary then mkStats (primaryCount s + 1) (replicaCount s)
            else mkStats (primaryCount s) (replicaCount s + 1)]> stats.

Definition nodeStats (rows : list PartitionInfo) : gmap string nodePartitionStats :=
  foldl (λ stats p, count_role false (PI_Replica p) (count_role true (PI_Primary p) stats)) ∅ rows.

Definition migratingCount (rows : list PartitionInfo) : Z :=
  len (filter (λ p, PI_MigrationState p ≠ MIGRATION_NONE) rows).

Definition stats_line (stats : gmap string nodePartitionStats) (n : string) : string :=
  let s := default (mkStats 0 0) (stats !! n) in
  "  " +:+ pad 25 n +:+ " " +:+ pad 15 (show (primaryCount s)) +:+ " " +:+ pad 15 (show (replicaCount s)) +:+ " " +:+
  pad 15 (show (primaryCount s + replicaCount s)).

Definition row_line (p : PartitionInfo) : string :=
  "  " +:+ pad 12 (show (PI_PartitionId p)) +:+ " " +:+ pad 25 (PI_Primary p) +:+ " " +:+ pad 25 (PI_Replica p) +:+ " " +:+
  pad 15 (row_status p).

Definition pid_le (a b : PartitionInfo) : Prop := PI_PartitionId a ≤ PI_PartitionId b.
#[global] Instance pid_le_dec : RelDecision pid_le.
Proof. intros a b. unfold pid_le. apply _. Defined.

(** The rows of the details: sorted, of one node when one is given, the first twenty
    unless all are asked for. *)
Definition detail_lines (showAll : bool) (node : string) (rows : list PartitionInfo) : list string :=
  let rows := filter (λ p, node = "" ∨ PI_Primary p = node ∨ PI_Replica p = node) (merge_sort pid_le rows) in
  if showAll then row_line <$> rows
  else (row_line <$> take 20 rows) ++
       (if decide (20 ≤ length rows)%nat then ["  ... showing first 20, use -all to show all"] else []).

Definition runPartitions (resp : option (Z * list PartitionInfo)) (showAll : bool) (node : string) : cli_result :=
  match resp with
  | None => cmd_error
  | Some (version, rows) =>
      if decide (rows = []) then printed ["No partitions found. Cluster may not be initialized."]
      else
        let stats := nodeStats rows in
        printed (["Route Table Version: " +:+ show version; "Total Partitions: " +:+ show (len rows);
          "Migrating: " +:+ show (migratingCount rows); ""; "Node Distribution:";
          "  " +:+ pad 25 "Node" +:+ " " +:+ pad 15 "Primary" +:+ " " +:+ pad 15 "Replica" +:+ " " +:+ pad 15 "Total";
          "  " +:+ rule 70] ++
          (stats_line stats <$> merge_sort str_le (elements (dom stats))) ++
          (if showAll || bool_decide (node ≠ "") then
            [""; "Partition Details:";
             "  " +:+ pad 12 "Partition" +:+ " " +:+ pad 25 "Primary" +:+ " " +:+ pad 25 "Replica" +:+ " " +:+ pad 15 "Status";
             "  " +:+ rule 80] ++ detail_lines showAll node rows
           else []))%list
  end.

(** [runRebalance], with the response of the call. *)
Definition runRebalance (resp : option TriggerRebalanceResponse) : cli_result :=
  match resp with
  | None => cmd_error
  | Some r =>
      if TR_Success r then
        printed ["Rebalance started: migration_id=" +:+ TR_MigrationId r +:+ ", partitions=" +:+
          show (TR_PartitionsToMigrate r); "Use 'migration-status' to monitor progress"]
      else printed ["Rebalance failed: " +:+ TR_Message r]
  end.

Definition getMigrationStatusString (resp : GetMigrationStatusResponse) : string :=
  if negb (GM_InProgress resp) then
    if 0 <? GM_FailedPartitions resp then "completed_with_errors" else "completed"
  else "running".

(** The loop over the partitions of [runMigrationStatus], with [count]: the rows it
    shows.  The progress of a row is a floating-point number. *)
Fixpoint status_loop (count : Z) (ps : list PartitionMigrationState) : list PartitionMigrationState :=
  match ps with
  | [] => []
  | p :: ps =>
      if bool_decide (PMS_State p ≠ MIGRATION_COMPLETE) && (count <? 10) then p :: status_loop (count + 1) ps
      else status_loop count ps
  end.

Definition status_row (p : PartitionMigrationState) : string :=
  "  " +:+ pad 12 (show (PMS_PartitionID p)) +:+ " " +:+ pad 20 (PMS_SourceNode p) +:+ " " +:+
  pad 20 (PMS_TargetNode p) +:+ " " +:+ pad 15 (getMigrationStateString (PMS_State p)).

(** The details of [runMigrationStatus]. *)
Definition status_details (ps : list PartitionMigrationState) : list string :=
  if decide (ps = []) then []
  else
    let rows := status_loop 0 ps in
    ([""; "Partition Details:";
      "  " +:+ pad 12 "Partition" +:+ " " +:+ pad 20 "Source" +:+ " " +:+ pad 20 "Target" +:+ " " +:+
        pad 15 "State" +:+ " " +:+ pad 10 "Progress";
      "  " +:+ rule 80] ++ (status_row <$> rows) ++
     (if len rows <? len ps then ["  ... and " +:+ show (len ps - len rows) +:+ " more"] else []))%list.

(** One turn of [runMigrationStatus]: the lines but for the sizes, the percentages
    and the time estimate, which are floating-point numbers, and whether the command
    goes on watching. *)
Definition runMigrationStatus (watch : bool) (resp : option GetMigrationStatusResponse) : cli_result * bool :=
  match resp with
  | None => (cmd_error, false)
  | Some r =>
      if negb (GM_InProgress r) && bool_decide (GM_MigrationId r = "") then (printed ["No migration in progress"], false)
      else
        (printed (["Migration ID: " +:+ GM_MigrationId r; "Status: " +:+ getMigrationStatusString r;
           "Partitions: " +:+ show (GM_CompletedPartitions r) +:+ "/" +:+ show (GM_TotalPartitions r) +:+
           " completed, " +:+ show (GM_FailedPartitions r) +:+ " failed"] ++ status_details (GM_PartitionStatus r))%list,
         watch && GM_InProgress r)
  end.

Definition runMigrationCancel (resp : option (bool * string)) : cli_result :=
  match resp with
  | None => cmd_error
  | Some (true, _) => printed ["Migration cancelled"]
  | Some (false, message) => printed ["Cancel failed: " +:+ message]
  end.

Definition getClusterStateString (state : pb_ClusterState) : string :=
  match state with
  | CLUSTER_PENDING => "PENDING (waiting for init-cluster)"
  | CLUSTER_INITIALIZING => "INITIALIZING"
  | CLUSTER_RUNNING => "RUNNING"
  end.

Definition runClusterInfo (resp : option (pb_ClusterState * Z * Z * Z)) : cli_result :=
  match resp with
  | None => cmd_error
  | Some (state, replicas, nodes, partitions) =>
      printed ["Cluster Information:"; "  State:          " +:+ getClusterStateString state;
        "  Replica Count:  " +:+ show replicas; "  Storage Nodes:  " +:+ show nodes;
        "  Partitions:     " +:+ show partitions]
  end.

Definition runInitCluster (resp : option (bool * Z * Z)) (message : string) : cli_result :=
  match resp with
  | None => mkCli ["Initializing cluster..."] (Some CommandError)
  | Some (true, partitions, nodes) =>
      printed ["Initializing cluster..."; "Cluster initialized successfully!";
        "  Partitions: " +:+ show partitions; "  Nodes:      " +:+ show nodes]
  | Some (false, _, _) => mkCli ["Initializing cluster..."] (Some (Reported message))
  end.

(** [runShutdownNode]: the deadline of the call in milliseconds, and the lines. *)
Definition shutdown_deadline (timeout : Z) : Z := if 0 <? timeout then timeout else 10 * 60 * 1000.

Definition runShutdownNode (nodes : list string) (force : bool) (resp : option ShutdownNodeResponse) : cli_result :=
  match nodes with
  | [] => usage "shutdown-node <node_id>"
  | nodeID :: _ =>
      let first := (("Initiating controlled shutdown for node: " +:+ nodeID) ::
        (if force then ["WARNING: Force mode enabled - partitions will not be migrated!"] else [])) in
      match resp with
      | None => mkCli first (Some CommandError)
      | Some r =>
          let counts := ["  Partitions migrated: " +:+ show (SD_PartitionsMigrated r);
                         "  Partitions failed:   " +:+ show (SD_PartitionsFailed r)] in
          if SD_Success r then printed (first ++ ["Node shutdown completed successfully!"] ++ counts)%list
          else mkCli (first ++ counts)%list (Some (Reported (SD_Message r)))
      end
  end.

Definition getNodeStatusString (status : pb_NodeStatus) : string :=
  match status with
  | NODE_ONLINE => "ONLINE"
  | NODE_OFFLINE => "OFFLINE"
  | NODE_DRAINING => "DRAINING"
  | NODE_REMOVED => "REMOVED"
  end.

(** [runNodeStatus]; the line of the last heartbeat, which prints a date and an
    age, is its number here. *)
Definition runNodeStatus (nodes : list string) (resp : option NodeStatusResponse) : cli_result :=
  match nodes, resp with
  | [], _ => usage "node-status <node_id>"
  | _, None => cmd_error
  | nodeID :: _, Some r =>
      printed (["Node Status: " +:+ nodeID; "  Address:            " +:+ NS_Addr r;
        "  Status:             " +:+ getNodeStatusString (NS_Status r);
        "  Primary Partitions: " +:+ show (NS_PrimaryPartitionCount r);
        "  Replica Partitions: " +:+ show (NS_ReplicaPartitionCount r);
        "  Total Partitions:   " +:+ show (i32 (NS_PrimaryPartitionCount r + NS_ReplicaPartitionCount r))] ++
        (if 0 <? NS_LastHeartbeat r then ["  Last Heartbeat:     " +:+ show (NS_LastHeartbeat r)] else []) ++
        (if NS_IsDraining r then
           ["  Draining:           YES";
            "  Remaining:          " +:+ show (NS_DrainingPartitionsRemaining r) +:+ " partitions"] else []))%list
  end.

(** The loop of [formatBytes]: the divisor and the index of its unit. *)
Fixpoint unit_loop (fuel : nat) (n div exp : Z) : Z * Z :=
  match fuel with
  | O => (div, exp)
  | Datatypes.S fuel => if 1024 <=? n then unit_loop fuel (n ÷ 1024) (i64 (div * 1024)) (exp + 1) else (div, exp)
  end.

Definition formatBytes_unit (bytes : Z) : Z * Z := unit_loop 64 (bytes ÷ 1024) 1024 0.

(** [formatDuration], of a [time.Duration] in nanoseconds; [int(d.Minutes())] is
    the whole number of minutes. *)
Definition formatDuration (d : Z) : string :=
  let second := 1000000000 in
  let minute := 60 * second in
  let hour := 60 * minute in
  if d <? minute then show (d ÷ second) +:+ "s"
  else if d <? hour then show (d ÷ minute) +:+ "m" +:+ show (Z.rem (d ÷ second) 60) +:+ "s"
  else show (d ÷ hour) +:+ "h" +:+ show (Z.rem (d ÷ minute) 60) +:+ "m".

(** ** What the commands show *)

Lemma partitionMap_rows t : ids_ok t → partitionMap (sendRouteUpdate t).2 = pb_partition <$> RT_Partitions t.
Proof.
  intros Hids. rewrite <- (right_id_L ∅ (∪) (pb_partition <$> RT_Partitions t)), <- apply_rows_table by done.
  unfold partitionMap, apply_rows. generalize (∅ : gmap Z PartitionInfo).
  induction (sendRouteUpdate t).2 as [|p rows IH]; intros m; cbn; [done|]. rewrite IH. by destruct p.
Qed.

(** [locate] tells the truth: for every key it shows the partition, the primary
    and the replica to which a compute node with the same table sends the requests
    of that key, and "unknown" exactly when the compute node answers that it has no
    route. *)
Lemma locate_agrees_with_routing (Sum64 : bytes → Z) (t : RouteTable) (r : ComputeRouter) (key : string) :
  ids_ok t → CR_routeTable r = wire_table t →
  match locate_key Sum64 (sendRouteUpdate t).2 key with
  | (id, Some p) =>
      ComputeRouter_GetPartitionNodes Sum64 r (str_bytes key) = Ok (PI_Primary p, PI_Replica p, id, PI_Epoch p)
  | (id, None) =>
      id = CalculatePartition Sum64 (str_bytes key) ∧
      ComputeRouter_GetPartitionNodes Sum64 r (str_bytes key) = Error (Errorf "partition not found in route table")
  end.
Proof.
  intros Hids Hr. unfold locate_key. rewrite partitionMap_rows by done.
  unfold ComputeRouter_GetPartitionNodes, ComputeRouter_GetPartitionNodesByID. rewrite Hr. cbn.
  change (u32 (Sum64 (str_bytes key) mod 4096)) with (CalculatePartition Sum64 (str_bytes key)).
  by destruct (_ !! CalculatePartition Sum64 (str_bytes key)).
Qed.

(** The counts of a node are the rows that name it. *)
Lemma count_role_lookup primary node stats n :
  default (mkStats 0 0) (count_role primary node stats !! n) =
  let s := default (mkStats 0 0) (stats !! n) in
  if decide (n = node)
  then if primary then mkStats (primaryCount s + 1) (replicaCount s) else mkStats (primaryCount s) (replicaCount s + 1)
  else s.
Proof.
  unfold count_role. destruct (decide (n = node)) as [->|Hne]; [by rewrite lookup_insert_eq|].
  by rewrite lookup_insert_ne.
Qed.

Lemma nodeStats_counts rows n :
  default (mkStats 0 0) (nodeStats rows !! n) =
  mkStats (len (filter (λ p, PI_Primary p = n) rows)) (len (filter (λ p, PI_Replica p = n) rows)).
Proof.
  unfold nodeStats. induction rows as [|p rows IH] using rev_ind; [done|].
  rewrite foldl_snoc, !count_role_lookup, IH, !filter_app, !len_app. cbv zeta. unfold filter. cbn [list_filter].
  repeat case_decide; try congruence; cbn; rewrite ?Z.add_0_r; done.
Qed.

Lemma locate_agrees_with_routing_witness :
  let r := ComputeRouter_updateRouteTable (NewComputeRouter "c1" "m") 5 (sendRouteUpdate demo_table).2 in
  ComputeRouter_GetPartitionNodes (λ _, 4097) r (str_bytes "k") = Ok ("A", "B", 1, 0).
Proof.
  intros r. assert (ids_ok demo_table) as Hids by (apply (bool_decide_unpack _); vm_compute; exact I).
  assert (CR_routeTable r = wire_table demo_table) as Hr.
  { unfold r. cbn [ComputeRouter_updateRouteTable CR_set_table CR_routeTable].
    rewrite apply_rows_table, (right_id_L ∅ (∪)) by exact Hids. reflexivity. }
  exact (locate_agrees_with_routing (λ _, 4097) demo_table r "k" Hids Hr).
Defined.

(** The unit of a size: the loop ends within its fuel, the divisor does not
    overflow and the index stays inside "KMGTPE". *)
Lemma unit_loop_ok fuel n exp :
  0 ≤ exp ≤ 5 → 0 ≤ n < 1024 ^ (6 - exp) → (6 - Z.to_nat exp ≤ fuel)%nat →
  ∃ exp', unit_loop fuel n (1024 ^ (exp + 1)) exp = (1024 ^ (exp' + 1), exp') ∧ exp ≤ exp' ≤ 5 ∧
    n ÷ 1024 ^ (exp' - exp) < 1024.
Proof.
  revert n exp. induction fuel as [|fuel IH]; intros n exp He Hn Hf; [lia|]. cbn [unit_loop].
  destruct (Z.leb_spec 1024 n) as [Hge|Hlt].
  - destruct (decide (exp = 5)) as [->|H5]; [change (1024 ^ (6 - 5)) with 1024 in Hn; lia|].
    assert (0 ≤ n ÷ 1024 < 1024 ^ (6 - (exp + 1))) as Hn'.
    { rewrite Z.quot_div_nonneg by lia. split; [apply Z.div_pos; lia|]. apply Z.div_lt_upper_bound; [lia|].
      rewrite <- Z.pow_succ_r by lia. replace (Z.succ (6 - (exp + 1))) with (6 - exp) by lia. apply Hn. }
    destruct (IH (n ÷ 1024) (exp + 1)) as (exp' & E & Hx & Hb); [lia|done|lia|].
    exists exp'. split_and!; [|lia..|].
    + rewrite i64_small.
      * rewrite <- E. f_equal. rewrite (Z.mul_comm _ 1024), <- Z.pow_succ_r by lia. f_equal; lia.
      * unfold is_i64. assert (1024 ^ (exp + 1) ≤ 1024 ^ 5) by (apply Z.pow_le_mono_r; lia).
        change (1024 ^ 5) with (2 ^ 50) in *. assert (0 < 1024 ^ (exp + 1)) by (apply Z.pow_pos_nonneg; lia). lia.
    + rewrite Z.quot_quot in Hb by (lia || (apply Z.pow_nonzero; lia)).
      rewrite <- Z.pow_succ_r in Hb by lia. by replace (Z.succ (exp' - (exp + 1))) with (exp' - exp) in Hb by lia.
  - exists exp. split_and!; [done|lia..|]. rewrite Z.sub_diag. change (1024 ^ 0) with 1. by rewrite Z.quot_1_r.
Qed.

Lemma formatBytes_unit_ok bytes :
  1024 ≤ bytes < 2 ^ 63 → ∃ exp, formatBytes_unit bytes = (1024 ^ (exp + 1), exp) ∧ 0 ≤ exp ≤ 5.
Proof.
  intros Hb. destruct (unit_loop_ok 64 (bytes ÷ 1024) 0) as (exp & E & Hx & _); [lia| |lia|].
  - rewrite Z.quot_div_nonneg by lia. split; [apply Z.div_pos; lia|]. apply Z.div_lt_upper_bound; lia.
  - exists exp. by split.
Qed.

(** The parts [formatDuration] shows add up to the whole seconds below an hour and
    to the whole minutes above. *)
Lemma formatDuration_parts d : 0 ≤ d →
  (d < 3600 * 1000000000 → ∃ m s, d ÷ 1000000000 = 60 * m + s ∧ 0 ≤ s < 60 ∧
     formatDuration d = if m =? 0 then show s +:+ "s" else show m +:+ "m" +:+ show s +:+ "s") ∧
  (3600 * 1000000000 ≤ d → ∃ h m, d ÷ (60 * 1000000000) = 60 * h + m ∧ 0 ≤ m < 60 ∧
     formatDuration d = show h +:+ "h" +:+ show m +:+ "m").
Proof.
  intros Hd. unfold formatDuration. cbv zeta. rewrite !Z.quot_div_nonneg by lia.
  assert (∀ u, 0 < u → d / (60 * u) = d / u / 60) as Hdiv by (intros; rewrite Z.div_div by lia; f_equal; lia).
  assert (∀ x, 0 ≤ x → Z.rem x 60 = x mod 60) as Hrem by (intros; apply Z.rem_mod_nonneg; lia).
  split; intros Hr.
  - exists (d / (60 * 1000000000)), ((d / 1000000000) mod 60). rewrite (Hdiv 1000000000) by lia.
    split; [by apply Z.div_mod|]. split; [by apply Z.mod_pos_bound|]. rewrite Hrem by (apply Z.div_pos; lia).
    destruct (Z.ltb_spec d (60 * 1000000000)) as [Hm|Hm].
    + rewrite (Z.div_small (d / 1000000000)) by (split; [apply Z.div_pos|apply Z.div_lt_upper_bound]; lia).
      rewrite Z.mod_small by (split; [apply Z.div_pos|apply Z.div_lt_upper_bound]; lia). done.
    + rewrite (proj2 (Z.ltb_lt d _)) by lia.
      destruct (Z.eqb_spec (d / 1000000000 / 60) 0) as [E|E]; [|done].
      rewrite Z.div_div in E by lia. apply Z.div_small_iff in E; lia.
  - exists (d / (60 * (60 * 1000000000))), ((d / (60 * 1000000000)) mod 60).
    rewrite (Hdiv (60 * 1000000000)) by lia.
    split; [by apply Z.div_mod|]. split; [by apply Z.mod_pos_bound|].
    rewrite (proj2 (Z.ltb_ge d (60 * 1000000000))) by lia. rewrite (proj2 (Z.ltb_ge d _)) by lia.
    rewrite Hrem by (apply Z.div_pos; lia). reflexivity.
Qed.

(** The rows are the first ten partitions that are not complete, in order. *)
Lemma status_loop_rows count ps :
  0 ≤ count ≤ 10 → status_loop count ps =
    take (Z.to_nat (10 - count)) (filter (λ p, PMS_State p ≠ MIGRATION_COMPLETE) ps).
Proof.
  revert count. induction ps as [|p ps IH]; intros count Hc; cbn [status_loop]; [by rewrite filter_nil, take_nil|].
  rewrite filter_cons. destruct (decide (PMS_State p ≠ MIGRATION_COMPLETE)) as [Hp|Hp].
  - rewrite bool_decide_true by done. destruct (Z.ltb_spec count 10); cbn [andb].
    + rewrite IH by lia. by replace (Z.to_nat (10 - count)) with (Datatypes.S (Z.to_nat (10 - (count + 1)))) by lia.
    + rewrite IH by lia. by replace (10 - count) with 0 by lia.
  - rewrite bool_decide_false by done. apply IH. done.
Qed.

(** The last line counts the completed partitions among those not shown: with
    nothing left to do it still announces more. *)
Example completed_are_more :
  status_details [mkPartitionMigrationState 3 "s1" "s2" MIGRATION_COMPLETE 0 0 None] !! 4%nat = Some "  ... and 1 more".
Proof. vm_compute. reflexivity. Qed.

(** What [put] stored, [get] prints, whatever the case of the commands. *)
Lemma cli_put_get (order : gmap bytes bytes → list KeyValueItem) (between : gmap bytes bytes → gmap bytes bytes)
    (cluster : cluster_cmd → list string → gmap bytes bytes → gmap bytes bytes * cli_result) (addr : string) (timeout : Z)
    (key value : string) (m : gmap bytes bytes) :
  let run := cli_main order between (λ _, None) addr timeout cluster in
  let '(m', r) := run m ["SET"; key; value] in
  r = printed ["OK"] ∧ (run m' ["Get"; key]).2 = printed [value].
Proof.
  cbv zeta. assert (∀ m, cli_main order between (λ _, None) addr timeout cluster m ["SET"; key; value] =
    (<[str_bytes key := str_bytes value]> m, printed ["OK"])) as Hput by reflexivity.
  assert (∀ m, cli_main order between (λ _, None) addr timeout cluster m ["Get"; key] =
    (m, match m !! str_bytes key with Some v => printed [bytes_str v] | None => printed ["(nil)"] end)) as Hget.
  { intros m0. change (cli_main order between (λ _, None) addr timeout cluster m0 ["Get"; key])
      with (cli_get (mkClient (cli_config addr timeout) addr) m0 ["Get"; key]).
    unfold cli_get, Client_GetString, Client_Get, client_retry. cbn [kv_Get map_KVService].
    change (Z.to_nat _) with 4%nat. cbn [client_loop]. by destruct (m0 !! str_bytes key). }
  rewrite Hput, Hget, lookup_insert_eq. cbn [snd]. split; [done|]. unfold bytes_str, str_bytes.
  by rewrite String.string_of_list_byte_of_string.
Qed.

(** A migration that was cancelled before any partition failed is shown as
    completed. *)
Lemma cancelled_shows_completed {St X} (mc mc' : @MigrationController St X) i rn msg :
  MC_current mc = Some i → MC_runs mc !! i = Some rn → MG_FailedPartitions (RN_migration rn) = 0 →
  MigrationController_CancelMigration mc = (mc', (true, msg)) →
  getMigrationStatusString (MigrationController_GetMigrationStatus mc') = "completed".
Proof.
  intros Hi Hr Hf Hc. unfold MigrationController_CancelMigration, MC_migration in Hc. rewrite Hi in Hc. cbn in Hc.
  rewrite Hr in Hc. destruct (running (RN_migration rn)) eqn:E; [|done]. simplify_eq.
  unfold MigrationController_GetMigrationStatus, MC_migration. cbn. rewrite Hi. cbn.
  rewrite list_lookup_insert_eq by (by eapply lookup_lt_Some). cbn. unfold getMigrationStatusString. cbn.
  by rewrite Hf.
Qed.

(** The benchmark of an empty store meets no error and leaves the store empty. *)
Example benchmark_cleans_up :
  cli_benchmark (mkClient (cli_config "c1" 5) "c1") (∅ : gmap bytes bytes) 12 3 4 = (∅, (0, 0)).
Proof. vm_compute. reflexivity. Qed.
