(* ===== verification/Leader.v ===== *)
(** * Leader election

    [src/pkg/metadata/leader.go] and [src/pkg/metadata/ha_server.go]: the goroutine
    that campaigns for the leadership of the metadata service, the callbacks it
    starts, and the server that looks at the result before a write.

    The election of etcd's package concurrency is the class [Election]; its laws
    say that a campaign only ends for the session that then holds the leadership,
    that a session keeps it until its lease expires or it resigns, and that a
    session whose lease has expired cannot campaign. *)

From S2P Require Import Prelude Proto HashRing MetaStore MetaRouter MetaServer.

(** ** The election service *)

Class Election (E : Type) := {
  el_NewSession : E → E * result Z;
  (** [Campaign]: [None] while it waits, then its error *)
  el_Campaign : E → Z → string → E * option (option goerr);
  el_Resign : E → Z → E * option goerr;
  (** [session.Done()] is closed, as the client sees it *)
  el_Done : E → Z → bool;
  (** the lease of a session expires *)
  el_expire : E → Z → E
}.

(** ** The election goroutine *)

(** Where a call of [resignLeadership] is: before it looks at [isLeader], before it
    calls [Resign], and before it clears [isLeader]. *)
Inductive resign_pc := ResignLoad | ResignCall | ResignStore.

(** Where [runElection] is: at the head of its loop, in [Campaign], after a campaign
    that it won, in the [select] of a leader, in [resignLeadership], or gone. *)
Inductive election_pc := AtHead | Campaigning | Won | Leading | Resigning (p : resign_pc) | Ended.

(** Where [Stop] is: not called, before it looks at [isLeader], in
    [resignLeadership], in the wait for the goroutines, or past it. *)
Inductive stop_pc := NotStopped | StopCheck | StopResign (p : resign_pc) | StopWait | StopClosed.

#[global] Instance resign_pc_eq_dec : EqDecision resign_pc.
Proof. solve_decision. Defined.
#[global] Instance election_pc_eq_dec : EqDecision election_pc.
Proof. solve_decision. Defined.
#[global] Instance stop_pc_eq_dec : EqDecision stop_pc.
Proof. solve_decision. Defined.

Record LeaderElection := mkLeaderElection {
  LE_nodeID : string;
  LE_session : Z;
  LE_pc : election_pc;
  LE_isLeader : bool;
  LE_leaderID : string;
  LE_callbacks : list bool;       (** the goroutines [go cb(b)] that have not run yet *)
  LE_cancelled : bool;
  LE_stop : stop_pc
}.

Definition LE_set (le : LeaderElection) (session : Z) (pc : election_pc) (isLeader : bool) (leaderID : string)
    (callbacks : list bool) : LeaderElection :=
  mkLeaderElection (LE_nodeID le) session pc isLeader leaderID callbacks (LE_cancelled le) (LE_stop le).

Definition LE_goto (le : LeaderElection) (pc : election_pc) : LeaderElection :=
  LE_set le (LE_session le) pc (LE_isLeader le) (LE_leaderID le) (LE_callbacks le).

Definition LE_stop_at (le : LeaderElection) (cancelled : bool) (stop : stop_pc) : LeaderElection :=
  mkLeaderElection (LE_nodeID le) (LE_session le) (LE_pc le) (LE_isLeader le) (LE_leaderID le) (LE_callbacks le)
    cancelled stop.

Section LeaderElection.
  Context {E : Type} `{Election E}.

(** [NewLeaderElection] and [Start], with one callback registered. *)
Definition LeaderElection_Start (e : E) (nodeID : string) : E * result LeaderElection :=
  if decide (nodeID = "") then (e, Error (Errorf "node ID cannot be empty"))
  else
    match el_NewSession e with
    | (e, Error _) => (e, Error (Errorf "failed to create election session"))
    | (e, Ok session) => (e, Ok (mkLeaderElection nodeID session AtHead false "" [] false NotStopped))
    end.

Definition LeaderElection_becomeLeader (le : LeaderElection) : LeaderElection :=
  LE_set le (LE_session le) (LE_pc le) true (LE_nodeID le) (LE_callbacks le ++ [true])%list.

Definition LeaderElection_loseLeadership (le : LeaderElection) : LeaderElection :=
  LE_set le (LE_session le) (LE_pc le) false (LE_leaderID le) (LE_callbacks le ++ [false])%list.

(** One step of [resignLeadership], which [runElection] and [Stop] can both be in:
    the flag is loaded, the leadership is given up with the service, and only then
    the flag is cleared.  [None]: it has returned.  An error of [Resign] is only
    logged. *)
Definition LeaderElection_resignLeadership (p : resign_pc) (e : E) (le : LeaderElection) :
    E * LeaderElection * option resign_pc :=
  match p with
  | ResignLoad => (e, le, if LE_isLeader le then Some ResignCall else None)
  | ResignCall => let '(e, _) := el_Resign e (LE_session le) in (e, le, Some ResignStore)
  | ResignStore => (e, LE_set le (LE_session le) (LE_pc le) false (LE_leaderID le) (LE_callbacks le), None)
  end.

(** One step of [runElection].  [seen] is the choice of the [select] of a leader
    when the context has been cancelled and the session has ended too.  When the
    session of a leader has ended and no new one can be made, the loop goes on with
    the old one. *)
Definition LeaderElection_runElection (seen : bool) (e : E) (le : LeaderElection) : E * LeaderElection :=
  match LE_pc le with
  | Ended => (e, le)
  | AtHead => (e, LE_goto le (if LE_cancelled le then Ended else Campaigning))
  | Campaigning =>
      match el_Campaign e (LE_session le) (LE_nodeID le) with
      | (e, None) => (e, le)
      | (e, Some (Some _)) => (e, LE_goto le (if LE_cancelled le then Ended else AtHead))
      | (e, Some None) => (e, LE_goto le Won)
      end
  | Won => (e, LE_goto (LeaderElection_becomeLeader le) Leading)
  | Leading =>
      if LE_cancelled le && seen then (e, LE_goto le (Resigning ResignLoad))
      else if el_Done e (LE_session le) then
        let le := LeaderElection_loseLeadership le in
        match el_NewSession e with
        | (e, Error _) => (e, LE_goto le AtHead)
        | (e, Ok session) => (e, LE_set le session AtHead (LE_isLeader le) (LE_leaderID le) (LE_callbacks le))
        end
      else (e, le)
  | Resigning p =>
      let '(e, le, next) := LeaderElection_resignLeadership p e le in
      (e, LE_goto le match next with Some p => Resigning p | None => Ended end)
  end.

(** One response of [watchLeader]'s channel. *)
Definition LeaderElection_watchLeader (le : LeaderElection) (leaderID : string) : LeaderElection :=
  LE_set le (LE_session le) (LE_pc le) (LE_isLeader le) leaderID (LE_callbacks le).

(** One step of [Stop]: the context is cancelled, a leader resigns, the goroutines
    are awaited, and the session is closed, which revokes its lease if [revoked]. *)
Definition LeaderElection_Stop (revoked : bool) (e : E) (le : LeaderElection) : E * LeaderElection :=
  match LE_stop le with
  | NotStopped => (e, LE_stop_at le true StopCheck)
  | StopCheck => (e, LE_stop_at le (LE_cancelled le) (if LE_isLeader le then StopResign ResignLoad else StopWait))
  | StopResign p =>
      let '(e, le, next) := LeaderElection_resignLeadership p e le in
      (e, LE_stop_at le (LE_cancelled le) match next with Some p => StopResign p | None => StopWait end)
  | StopWait =>
      if decide (LE_pc le = Ended) then
        (if revoked then el_expire e (LE_session le) else e, LE_stop_at le (LE_cancelled le) StopClosed)
      else (e, le)
  | StopClosed => (e, le)
  end.

Definition LeaderElection_IsLeader (le : LeaderElection) : bool := LE_isLeader le.
Definition LeaderElection_GetLeaderID (le : LeaderElection) : string := LE_leaderID le.

(** What [WaitForLeader] sees at its polls; [None] is a wait that goes on. *)
Fixpoint LeaderElection_WaitForLeader (polls : list (result LeaderElection)) : option (option goerr) :=
  match polls with
  | [] => None
  | Error err :: _ => Some (Some err)
  | Ok le :: rest => if decide (LE_leaderID le ≠ "") then Some None else LeaderElection_WaitForLeader rest
  end.

End LeaderElection.

(** ** The server *)

(** [leaderElection] is nil when [haEnabled] is false. *)
Record HAServer := mkHAServer {
  HA_nodeID : string;
  HA_haEnabled : bool;
  HA_election : option LeaderElection;
  HA_isLeader : bool
}.

Definition HAServer_onLeadershipChange (s : HAServer) (isLeader : bool) : HAServer :=
  mkHAServer (HA_nodeID s) (HA_haEnabled s) (HA_election s) isLeader.

Definition HA_set_election (s : HAServer) (le : LeaderElection) : HAServer :=
  mkHAServer (HA_nodeID s) (HA_haEnabled s) (Some le) (HA_isLeader s).

(** One of the callback goroutines runs: the one at position [i]. *)
Definition HAServer_callback (s : HAServer) (i : nat) : HAServer :=
  match HA_election s with
  | None => s
  | Some le =>
      match LE_callbacks le !! i with
      | None => s
      | Some b =>
          HAServer_onLeadershipChange
            (HA_set_election s (LE_set le (LE_session le) (LE_pc le) (LE_isLeader le) (LE_leaderID le)
              (delete i (LE_callbacks le)))) b
      end
  end.

Definition HAServer_IsLeader (s : HAServer) : bool :=
  if negb (HA_haEnabled s) then true else HA_isLeader s.

Definition HAServer_GetLeaderID (s : HAServer) : string :=
  if negb (HA_haEnabled s) then HA_nodeID s
  else match HA_election s with None => "" | Some le => LeaderElection_GetLeaderID le end.

(** [None], or the error that names the leader. *)
Definition HAServer_checkLeaderForWrite (s : HAServer) : option string :=
  if negb (HA_haEnabled s) then None
  else if HAServer_IsLeader s then None
  else Some (HAServer_GetLeaderID s).

(** The five methods that override a write: the check, then the method of the
    embedded server. *)
Definition HAServer_write {A} (s : HAServer) (method : A) : string + A :=
  match HAServer_checkLeaderForWrite s with
  | Some leaderID => inl leaderID
  | None => inr method
  end.

(** [GetLeaderInfo]: leader, its address, whether it is this node, HA mode. *)
Definition HAServer_GetLeaderInfo {S} `{Store S} (s : HAServer) (r : @Router S) :
    Router * (string * string * bool * bool) :=
  let leaderID := HAServer_GetLeaderID s in
  if decide (leaderID = "") then (r, (leaderID, "", HAServer_IsLeader s, HA_haEnabled s))
  else
    let '(st, res) := GetNode (R_store r) leaderID in
    (R_set_store r st,
     (leaderID, match res with Ok (Some node) => NI_Addr node | _ => "" end, HAServer_IsLeader s, HA_haEnabled s)).

(** ** What the service promises *)

Section laws.
  Context {E : Type}.

(** [issued]: the session was handed out; [live]: its lease has not expired. *)
Definition evolves (issued live : E → Z → Prop) (holder : E → option Z) (e e' : E) : Prop :=
  (∀ s, issued e s → issued e' s) ∧
  (∀ s, issued e s → live e' s → live e s) ∧
  (∀ s, holder e = Some s → live e' s → holder e' = Some s).
End laws.

Class ElectionLaws (E : Type) `{Election E} := {
  el_issued : E → Z → Prop;
  el_live : E → Z → Prop;
  el_holder : E → option Z;
  law_session e :
    evolves el_issued el_live el_holder e (el_NewSession e).1 ∧
    ∀ s, (el_NewSession e).2 = Ok s → ¬ el_issued e s ∧ el_issued (el_NewSession e).1 s;
  law_campaign e s v :
    evolves el_issued el_live el_holder e (el_Campaign e s v).1 ∧
    ((el_Campaign e s v).2 = Some None → el_holder (el_Campaign e s v).1 = Some s) ∧
    (el_issued e s → ¬ el_live e s → ∃ err, (el_Campaign e s v).2 = Some (Some err));
  law_resign e s :
    (∀ t, el_issued e t → el_issued (el_Resign e s).1 t) ∧
    (∀ t, el_issued e t → el_live (el_Resign e s).1 t → el_live e t) ∧
    (∀ t, t ≠ s → el_holder e = Some t → el_live (el_Resign e s).1 t → el_holder (el_Resign e s).1 = Some t);
  law_expire e s : evolves el_issued el_live el_holder e (el_expire e s)
}.

(** ** A group of metadata servers *)

Section group.
  Context {E : Type} `{ElectionLaws E}.

Record Group := mkGroup { gr_etcd : E; gr_nodes : gmap string LeaderElection }.

(** What can happen: a server starts, its goroutine takes a step, it hears of a
    leader, a callback leaves, [Stop] is called or takes a step, and a lease expires
    (in etcd, before the session's owner notices). *)
Inductive group_step : Group → Group → Prop :=
  | gs_start e nodes n e' le : nodes !! n = None → LeaderElection_Start e n = (e', Ok le) →
      group_step (mkGroup e nodes) (mkGroup e' (<[n := le]> nodes))
  | gs_start_failed e nodes n e' err : LeaderElection_Start e n = (e', Error err) →
      group_step (mkGroup e nodes) (mkGroup e' nodes)
  | gs_run e nodes n seen le e' le' : nodes !! n = Some le → LeaderElection_runElection seen e le = (e', le') →
      group_step (mkGroup e nodes) (mkGroup e' (<[n := le']> nodes))
  | gs_watch e nodes n le leaderID : nodes !! n = Some le →
      group_step (mkGroup e nodes) (mkGroup e (<[n := LeaderElection_watchLeader le leaderID]> nodes))
  | gs_callback e nodes n le i : nodes !! n = Some le →
      group_step (mkGroup e nodes) (mkGroup e (<[n := LE_set le (LE_session le) (LE_pc le) (LE_isLeader le)
        (LE_leaderID le) (delete i (LE_callbacks le))]> nodes))
  | gs_stop e nodes n revoked le e' le' : nodes !! n = Some le → LeaderElection_Stop revoked e le = (e', le') →
      group_step (mkGroup e nodes) (mkGroup e' (<[n := le']> nodes))
  | gs_expire e nodes s : group_step (mkGroup e nodes) (mkGroup (el_expire e s) nodes).

(** The server has given up the leadership with the service and has not cleared its
    flag yet. *)
Definition LE_resigned (le : LeaderElection) : bool :=
  bool_decide (LE_pc le = Resigning ResignStore) || bool_decide (LE_stop le = StopResign ResignStore).

Definition claims (le : LeaderElection) : Prop :=
  LE_pc le = Won ∨ (LE_isLeader le = true ∧ LE_resigned le = false).

(** A claim of leadership under a live lease is backed by the service. *)
Definition claim_ok (e : E) (le : LeaderElection) : Prop :=
  claims le → el_live e (LE_session le) → el_holder e = Some (LE_session le).

Definition pc_leads (pc : election_pc) : bool := match pc with Leading | Resigning _ => true | _ => false end.
Definition pc_resigns (pc : election_pc) : bool := match pc with Resigning _ => true | _ => false end.
Definition pc_campaigns (pc : election_pc) : bool := match pc with Campaigning | Won => true | _ => false end.
Definition stop_resigns (stop : stop_pc) : bool := match stop with StopResign _ => true | _ => false end.
Definition stop_called (stop : stop_pc) : bool := match stop with NotStopped => false | _ => true end.

(** The two threads of control of one server. *)
Record threads_ok (le : LeaderElection) : Prop := {
  th_leader : LE_isLeader le = true → pc_leads (LE_pc le) = true;
  th_resigning : pc_resigns (LE_pc le) = true → LE_cancelled le = true;
  th_stopping : stop_called (LE_stop le) = true → LE_cancelled le = true;
  th_stop_resign : stop_resigns (LE_stop le) = true → pc_campaigns (LE_pc le) = false
}.

Record node_ok (e : E) (le : LeaderElection) : Prop := {
  no_issued : el_issued e (LE_session le);
  no_claim : claim_ok e le;
  no_threads : threads_ok le
}.

(** What a turn of one node does to the service, seen from the other nodes. *)
Definition others_keep (s : Z) (e e' : E) : Prop :=
  (∀ t, el_issued e t → el_issued e' t) ∧
  (∀ t, el_issued e t → el_live e' t → el_live e t) ∧
  (∀ t, t ≠ s → el_holder e = Some t → el_live e' t → el_holder e' = Some t).

Lemma evolves_others s e e' : evolves el_issued el_live el_holder e e' → others_keep s e e'.
Proof. intros (H1 & H2 & H3). split_and!; auto. Qed.

Lemma evolves_refl e : evolves el_issued el_live el_holder e e.
Proof. by split_and!. Qed.

Lemma node_evolves e e' le : evolves el_issued el_live el_holder e e' → node_ok e le → node_ok e' le.
Proof.
  intros (Hi' & Hl & Hh) [Hi Hc Ht]. split; [by apply Hi'| |done]. intros Hle Hlive. apply Hh; [|done]. by apply Hc, Hl.
Qed.

(** A step of one node. *)
Record turn_ok (e : E) (le : LeaderElection) (e' : E) (le' : LeaderElection) : Prop := {
  tk_others : others_keep (LE_session le) e e';
  tk_session : LE_session le' = LE_session le ∨ ¬ el_issued e (LE_session le');
  tk_node : node_ok e' le'
}.

(** Steps that keep the session and do not claim more. *)
Lemma turn_same e le e' le' :
  evolves el_issued el_live el_holder e e' → node_ok e le →
  LE_session le' = LE_session le → (claims le' → claims le) → threads_ok le' → turn_ok e le e' le'.
Proof.
  intros He Hn Hs Hl Ht. destruct (node_evolves e e' le He Hn) as [Hi Hc _].
  split; [by apply evolves_others|by left|]. split; [by rewrite Hs| |done]. intros Hle. rewrite Hs. auto.
Qed.

(** The two threads after a step of one of them. *)
Ltac threads :=
  match goal with T : threads_ok ?l |- _ => destruct T as [?Hlead ?Hres ?Hcan ?Hsr], l as [? ? [] ? ? ? ? []] end;
  cbn in *; try discriminate; simplify_eq; unfold claims, LE_resigned; try split; cbn;
  repeat first [case_bool_decide | case_match]; cbn; subst; intuition (cbn in *; congruence).

(** A step of [resignLeadership], wherever the two threads go then. *)
Lemma resign_turn p e le e' le1 next le' :
  LeaderElection_resignLeadership p e le = (e', le1, next) → node_ok e le →
  LE_session le' = LE_session le → LE_isLeader le' = LE_isLeader le1 → threads_ok le' →
  (claims le' → LE_isLeader le' = true ∧ (LE_isLeader le = true → LE_resigned le = false) ∧ next ≠ Some ResignStore) →
  turn_ok e le e' le'.
Proof.
  intros Hr Hn Hs Hl Ht Hc. destruct p; cbn in Hr.
  - simplify_eq. apply turn_same; auto using evolves_refl. intros (H1 & H2 & _)%Hc. right. split; [congruence|].
    apply H2. congruence.
  - pose proof (law_resign e (LE_session le)) as (H1 & H2 & H3).
    destruct (el_Resign e (LE_session le)) as [e1 o]; cbn in *. simplify_eq.
    split; [done|by left|]. split; [rewrite Hs; apply H1, Hn| |done]. intros (_ & _ & [])%Hc. done.
  - simplify_eq. cbn in Hl. apply turn_same; auto using evolves_refl. intros (H1 & _)%Hc. congruence.
Qed.

Lemma run_turn seen e le e' le' :
  LeaderElection_runElection seen e le = (e', le') → node_ok e le → turn_ok e le e' le'.
Proof.
  intros Hr Hn. pose proof (no_threads _ _ Hn) as Ht. unfold LeaderElection_runElection in Hr.
  destruct (LE_pc le) as [| | | |p|] eqn:Ep.
  - simplify_eq. destruct (LE_cancelled le) eqn:Ec; apply turn_same; auto using evolves_refl; threads.
  - pose proof (law_campaign e (LE_session le) (LE_nodeID le)) as (He & Hwin & _).
    destruct (el_Campaign e (LE_session le) (LE_nodeID le)) as [e1 [[err|]|]]; cbn in *; simplify_eq.
    + destruct (LE_cancelled le) eqn:Ec; apply turn_same; auto; threads.
    + split; [by apply evolves_others|by left|]. split; [apply He, Hn|intros _ _; by apply Hwin|threads].
    + by apply turn_same.
  - simplify_eq. apply turn_same; auto using evolves_refl; [by left|threads].
  - destruct (LE_cancelled le && seen) eqn:Ec; [|destruct (el_Done e (LE_session le))]; [| |by simplify_eq; apply turn_same; auto using evolves_refl].
    + simplify_eq. apply andb_true_iff in Ec as [Ec _]. apply turn_same; auto using evolves_refl; threads.
    + pose proof (law_session e) as [He Hnew]. destruct (el_NewSession e) as [e1 [s|err]]; cbn in *; simplify_eq.
      * destruct (Hnew s eq_refl) as [Hf Hi']. split; [by apply evolves_others|by right|].
        split; [done| |threads]. intros [[=]|[[=] _]].
      * apply turn_same; auto; [intros [[=]|[[=] _]]|threads].
  - destruct (LeaderElection_resignLeadership p e le) as [[e1 le1] next] eqn:Er. simplify_eq.
    eapply resign_turn; eauto.
    all: destruct p; cbn in Er; repeat case_match; simplify_eq; cbn in *; try done.
    all: threads.
  - simplify_eq. apply turn_same; auto using evolves_refl.
Qed.

Lemma stop_turn revoked e le e' le' :
  LeaderElection_Stop revoked e le = (e', le') → node_ok e le → turn_ok e le e' le'.
Proof.
  intros Hr Hn. pose proof (no_threads _ _ Hn) as Ht. unfold LeaderElection_Stop in Hr.
  destruct (LE_stop le) as [| |p| |] eqn:Ep.
  - simplify_eq. apply turn_same; auto using evolves_refl; threads.
  - simplify_eq. destruct (LE_isLeader le) eqn:El; apply turn_same; auto using evolves_refl; threads.
  - destruct (LeaderElection_resignLeadership p e le) as [[e1 le1] next] eqn:Er. simplify_eq.
    eapply resign_turn; eauto.
    all: destruct p; cbn in Er; repeat case_match; simplify_eq; cbn in *; try done.
    all: threads.
  - case_decide; simplify_eq; [|apply turn_same; auto using evolves_refl].
    apply turn_same; auto; [destruct revoked; [apply law_expire|apply evolves_refl]|threads..].
  - simplify_eq. apply turn_same; auto using evolves_refl.
Qed.

Record group_inv (g : Group) : Prop := {
  gi_nodes : map_Forall (λ _ le, node_ok (gr_etcd g) le) (gr_nodes g);
  gi_distinct : ∀ n n' le le', gr_nodes g !! n = Some le → gr_nodes g !! n' = Some le' →
    LE_session le = LE_session le' → n = n'
}.

(** The other nodes survive a turn. *)
Lemma group_turn e nodes n le e' le' :
  group_inv (mkGroup e nodes) → nodes !! n = Some le → turn_ok e le e' le' →
  group_inv (mkGroup e' (<[n := le']> nodes)).
Proof.
  intros [Hi Hd] Hn [(O1 & O2 & O3) Ts Tn]. cbn in *. split; cbn.
  - intros m l Hm. apply lookup_insert_Some in Hm as [[<- <-]|[Hne Hm]]; [done|].
    destruct (Hi m l Hm) as [Hi' Hc Ht]. split; [by apply O1| |done].
    intros Hl Hlive. apply O3; [|apply Hc, O2; done|done]. intros Hs. by apply Hne, (Hd n m le l).
  - intros m m' l l' Hm Hm' Hs. apply lookup_insert_Some in Hm as [[<- <-]|[Hne Hm]];
      apply lookup_insert_Some in Hm' as [[<- <-]|[Hne' Hm']]; [done| | |by eapply Hd].
    + destruct Ts as [Ts|Ts]; [apply (Hd n m' le l'); [done..|congruence]|].
      destruct Ts. rewrite Hs. apply (Hi m' l' Hm').
    + destruct Ts as [Ts|Ts]; [apply (Hd m n l le); [done..|congruence]|].
      destruct Ts. rewrite <- Hs. apply (Hi m l Hm).
Qed.

Lemma group_evolves e e' nodes :
  evolves el_issued el_live el_holder e e' → group_inv (mkGroup e nodes) → group_inv (mkGroup e' nodes).
Proof. intros He [Hi Hd]. split; [|done]. intros m l Hm. eapply node_evolves; [done|by apply (Hi m)]. Qed.

(** The first state of a server. *)
Lemma Start_inv e nodes n e' res :
  LeaderElection_Start e n = (e', res) → group_inv (mkGroup e nodes) →
  match res with
  | Error _ => group_inv (mkGroup e' nodes)
  | Ok le => nodes !! n = None → group_inv (mkGroup e' (<[n := le]> nodes))
  end ∧ evolves el_issued el_live el_holder e e'.
Proof.
  intros Hst Hi. unfold LeaderElection_Start in Hst. case_decide; [simplify_eq; by split; [|apply evolves_refl]|].
  pose proof (law_session e) as [He Hnew]. destruct (el_NewSession e) as [e1 [s|err]]; cbn in *; simplify_eq;
    (split; [|done]); [|by eapply group_evolves].
  intros Hn. destruct (Hnew s eq_refl) as [Hf Hi']. pose proof (group_evolves _ _ _ He Hi) as [Hi1 _].
  destruct Hi as [Hi Hd]. cbn in *. split; cbn.
  - apply map_Forall_insert_2; [|done]. split; [done|by intros [[=]|[[=] _]]|by split].
  - intros m m' l l' Hm Hm' Hs. apply lookup_insert_Some in Hm as [[<- <-]|[_ Hm]];
      apply lookup_insert_Some in Hm' as [[<- <-]|[_ Hm']]; [done| | |by eapply Hd].
    + destruct Hf. cbn in Hs. rewrite Hs. apply (Hi m' l' Hm').
    + destruct Hf. cbn in Hs. rewrite <- Hs. apply (Hi m l Hm).
Qed.

Lemma group_step_inv g g' : group_step g g' → group_inv g → group_inv g'.
Proof.
  intros Hs Hi. destruct Hs as [e nodes n e' le Hn Hst|e nodes n e' err Hst|e nodes n seen le e' le' Hn Hr
    |e nodes n le id Hn|e nodes n le i Hn|e nodes n revoked le e' le' Hn Hr|e nodes s];
    try (eapply group_turn; [exact Hi|exact Hn|]; pose proof (gi_nodes _ Hi n le Hn) as Hin; cbn in Hin).
  - by apply (Start_inv _ _ _ _ _ Hst Hi).
  - by apply (Start_inv _ _ _ _ _ Hst Hi).
  - by eapply run_turn.
  - destruct Hin as [? ? []]. by apply turn_same; [apply evolves_refl|..].
  - destruct Hin as [? ? []]. by apply turn_same; [apply evolves_refl|..].
  - by eapply stop_turn.
  - eapply group_evolves; [apply law_expire|done].
Qed.

Lemma resigned_cancelled le : threads_ok le → LE_resigned le = true → LE_cancelled le = true.
Proof.
  intros [_ Hr Hs _] [Ep%bool_decide_eq_true|Ep%bool_decide_eq_true]%orb_true_iff; [apply Hr|apply Hs]; by rewrite Ep.
Qed.

Lemma group_reach_inv g g' : rtc group_step g g' → group_inv g → group_inv g'.
Proof. induction 1; [done|]. eauto using group_step_inv. Qed.

Lemma group_empty_inv e : group_inv (mkGroup e ∅).
Proof. split; cbn; [apply map_Forall_empty|by intros ? ? ? ?; rewrite lookup_empty]. Qed.
End group.
Arguments Group E : clear implicits.
Arguments mkGroup {E} _ _.
Arguments gr_etcd {E} _.
Arguments gr_nodes {E} _.

(** C23: at most one leader holds a live lease, but for a leader that is giving it
    up.  In every state that a group of metadata servers reaches, however the steps
    of their election goroutines and of [Stop] interleave with each other and with
    leases that expire, two different servers that take themselves for the leader
    under a live lease include one that is being stopped: its context is cancelled,
    it has called [Resign], and the next step of that call of [resignLeadership]
    clears its flag.  The service is a parameter whose campaigns only end for the
    session that then holds the leadership. *)
Theorem one_live_leader {E} `{ElectionLaws E} (e : E) (g : Group E) n n' le le' :
  rtc group_step (mkGroup e ∅) g →
  gr_nodes g !! n = Some le → LeaderElection_IsLeader le = true → el_live (gr_etcd g) (LE_session le) →
  gr_nodes g !! n' = Some le' → LeaderElection_IsLeader le' = true → el_live (gr_etcd g) (LE_session le') →
  n ≠ n' →
  (LE_cancelled le = true ∧ LE_resigned le = true) ∨ (LE_cancelled le' = true ∧ LE_resigned le' = true).
Proof.
  intros Hr Hn Hl Hs Hn' Hl' Hs' Hne. pose proof (group_reach_inv _ _ Hr (group_empty_inv e)) as [Hi Hd].
  destruct (Hi n le Hn) as [_ Hc Ht], (Hi n' le' Hn') as [_ Hc' Ht'].
  destruct (LE_resigned le) eqn:E1; [left; split; [by apply resigned_cancelled|done]|].
  destruct (LE_resigned le') eqn:E2; [right; split; [by apply resigned_cancelled|done]|].
  destruct Hne. apply (Hd n n' le le' Hn Hn').
  specialize (Hc (or_intror (conj Hl E1)) Hs). specialize (Hc' (or_intror (conj Hl' E2)) Hs'). congruence.
Qed.

Section dead.
  Context {E : Type} `{ElectionLaws E}.

(** A server that campaigns with a session whose lease has expired. *)
Definition stuck (e : E) (le : LeaderElection) : Prop :=
  (LE_pc le = AtHead ∨ LE_pc le = Campaigning ∨ LE_pc le = Ended) ∧ LE_isLeader le = false ∧
  el_issued e (LE_session le) ∧ ¬ el_live e (LE_session le).

Lemma stuck_keep s e e' le : others_keep s e e' → stuck e le → stuck e' le.
Proof. intros (H1 & H2 & _) (Hp & Hl & Hi & Hd). split_and!; auto. Qed.

Lemma stuck_run seen e le e' le' : stuck e le → LeaderElection_runElection seen e le = (e', le') → stuck e' le'.
Proof.
  intros (Hp & Hl & Hi & Hd) Hr. unfold LeaderElection_runElection in Hr.
  destruct Hp as [Hp|[Hp|Hp]]; rewrite Hp in Hr.
  - simplify_eq. split_and!; auto. destruct (LE_cancelled le); cbn; auto.
  - pose proof (law_campaign e (LE_session le) (LE_nodeID le)) as (He & _ & Hdead).
    destruct (Hdead Hi Hd) as [err Herr]. destruct (el_Campaign e (LE_session le) (LE_nodeID le)) as [e1 o]; cbn in *.
    simplify_eq. eapply stuck_keep; [by apply (evolves_others 0)|]. split_and!; auto.
    destruct (LE_cancelled le); cbn; auto.
  - simplify_eq. split_and!; auto.
Qed.

Lemma stuck_stop revoked e le e' le' : stuck e le → LeaderElection_Stop revoked e le = (e', le') → stuck e' le'.
Proof.
  intros Hst Hr. pose proof Hst as (Hp & Hl & Hi & Hd). unfold LeaderElection_Stop in Hr.
  destruct (LE_stop le) as [| |[]| |]; cbn in Hr; rewrite ?Hl in Hr; simplify_eq; try done.
  - pose proof (law_resign e (LE_session le)) as Hk. destruct (el_Resign e (LE_session le)) as [e1 o]. simplify_eq.
    by eapply stuck_keep; [exact Hk|].
  - case_decide; simplify_eq; [|done]. destruct revoked; [|done].
    by eapply stuck_keep; [apply (evolves_others 0), law_expire|].
Qed.

(** One step of the group leaves a stuck server stuck; the session of a server
    other than the one that moves is not touched by it. *)
Lemma stuck_step g g' n le :
  group_step g g' → group_inv g → gr_nodes g !! n = Some le → stuck (gr_etcd g) le →
  ∃ le', gr_nodes g' !! n = Some le' ∧ stuck (gr_etcd g') le'.
Proof.
  intros Hs Hinv Hn Hst.
  destruct Hs as [e nodes m e' l Hm Hst'|e nodes m e' err Hst'|e nodes m seen l e' l' Hm Hr|e nodes m l id Hm|e nodes m l i Hm
    |e nodes m revoked l e' l' Hm Hr|e nodes s]; cbn in *.
  all: try (destruct (decide (m = n)) as [->|Hne];
    [simplify_eq; rewrite lookup_insert_eq|rewrite lookup_insert_ne by done]).
  all: try (eexists; split; [done|]; first [by eapply stuck_run|by eapply stuck_stop|done]).
  all: exists le; split; [done|].
  - eapply stuck_keep; [by apply (evolves_others 0), (Start_inv _ _ _ _ _ Hst' Hinv)|done].
  - eapply stuck_keep; [by apply (evolves_others 0), (Start_inv _ _ _ _ _ Hst' Hinv)|done].
  - apply run_turn in Hr as [Ho _ _]; [|by apply (gi_nodes _ Hinv m)]. by eapply stuck_keep.
  - apply stop_turn in Hr as [Ho _ _]; [|by apply (gi_nodes _ Hinv m)]. by eapply stuck_keep.
  - eapply stuck_keep; [apply (evolves_others 0), law_expire|done].
Qed.
End dead.

(** One failure to renew the session ends a server's candidacy.  A leader
    whose session has ended and who cannot get a new one at once goes back to
    campaigning with the old session; once its lease has expired every campaign
    fails, and the goroutine never tries to make a session again: in every later
    state the server is not the leader. *)
Lemma failed_renewal_is_final {E} `{ElectionLaws E} (e : E) (g g' : Group E) n seen le err :
  rtc group_step (mkGroup e ∅) g → gr_nodes g !! n = Some le →
  LE_pc le = Leading → LE_cancelled le = false →
  el_Done (gr_etcd g) (LE_session le) = true → ¬ el_live (gr_etcd g) (LE_session le) →
  (el_NewSession (gr_etcd g)).2 = Error err →
  let '(e1, le1) := LeaderElection_runElection seen (gr_etcd g) le in
  rtc group_step (mkGroup e1 (<[n := le1]> (gr_nodes g))) g' →
  ∃ le', gr_nodes g' !! n = Some le' ∧ LeaderElection_IsLeader le' = false.
Proof.
  intros Hr Hn Hpc Hca Hdone Hdead Hnew.
  pose proof (group_reach_inv _ _ Hr (group_empty_inv e)) as Hinv. destruct g as [e0 nodes]. cbn in *.
  destruct (LeaderElection_runElection seen e0 le) as [e1 le1] eqn:Erun.
  assert (group_inv (mkGroup e1 (<[n := le1]> nodes))) as Hinv1
    by (eapply group_step_inv; [by eapply gs_run|done]).
  assert (stuck e1 le1) as Hst.
  { unfold LeaderElection_runElection in Erun. rewrite Hpc, Hca, Hdone in Erun.
    pose proof (law_session e0) as [(H1 & H2 & _) _]. destruct (gi_nodes _ Hinv n le Hn) as [Hi _ _].
    destruct (el_NewSession e0) as [e2 o]; cbn in *. subst o. simplify_eq. split_and!; cbn; auto. }
  intros Hg. assert (∃ le', gr_nodes g' !! n = Some le' ∧ stuck (gr_etcd g') le') as (le' & Hle' & Hs').
  { clear Hr Hinv Hn Erun Hpc Hdone Hdead Hnew. remember (mkGroup e1 (<[n := le1]> nodes)) as g1 eqn:Eg1.
    assert (gr_nodes g1 !! n = Some le1 ∧ gr_etcd g1 = e1) as [Hl1 He1] by (subst g1; cbn; by rewrite lookup_insert_eq).
    rewrite <- He1 in Hst. clear Eg1 He1. revert le1 Hl1 Hst.
    induction Hg as [g1|g1 g2 g3 Hstep _ IH]; intros le1 Hl1 Hst; [eauto|].
    destruct (stuck_step _ _ _ _ Hstep Hinv1 Hl1 Hst) as (le2 & Hl2 & Hst2).
    eapply IH; [by eapply group_step_inv|done|done]. }
  exists le'. split; [done|]. apply Hs'.
Qed.

(** The callbacks of becoming and of losing the leader run in goroutines of their
    own: when the second one runs first, the server is left accepting writes
    although its election knows that it is not the leader. *)
Lemma callbacks_out_of_order (s : HAServer) (le : LeaderElection) :
  HA_haEnabled s = true → LE_callbacks le = [] →
  let le' := LeaderElection_loseLeadership (LeaderElection_becomeLeader le) in
  let s' := HAServer_callback (HAServer_callback (HA_set_election s le') 1) 0 in
  LE_callbacks <$> HA_election s' = Some [] ∧ LeaderElection_IsLeader le' = false ∧
  HAServer_checkLeaderForWrite s' = None.
Proof.
  intros Hha Hcb. unfold HAServer_callback. cbn [HA_election HA_set_election].
  unfold LeaderElection_loseLeadership, LeaderElection_becomeLeader. cbn [LE_callbacks LE_set]. rewrite Hcb.
  cbn. split_and!; [done|done|]. unfold HAServer_checkLeaderForWrite, HAServer_IsLeader. cbn. by rewrite Hha.
Qed.

(** ** An election to run *)

(** The keys of the candidates in the order of their creation, the live leases,
    the sessions handed out, and which of the next sessions cannot be made. *)
Record QueueEtcd := mkQueueEtcd {
  qe_issued : gset Z;
  qe_live : gset Z;
  qe_queue : list (Z * string);
  qe_refusals : list bool
}.

Definition qe_known (e : QueueEtcd) : gset Z := qe_issued e ∪ qe_live e ∪ list_to_set (qe_queue e).*1.

Definition qe_holder (e : QueueEtcd) : option Z :=
  fst <$> head (filter (λ x : Z * string, x.1 ∈ qe_live e) (qe_queue e)).

Definition qe_join (e : QueueEtcd) (s : Z) (v : string) : QueueEtcd :=
  mkQueueEtcd (qe_issued e) (qe_live e)
    (if decide (s ∈ (qe_queue e).*1) then qe_queue e else (qe_queue e ++ [(s, v)])%list) (qe_refusals e).

#[global] Instance QueueEtcd_Election : Election QueueEtcd := {|
  el_NewSession e :=
    let rest := tail (qe_refusals e) in
    if default false (head (qe_refusals e)) then
      (mkQueueEtcd (qe_issued e) (qe_live e) (qe_queue e) rest, Error (Errorf "unavailable"))
    else
      let s := fresh (qe_known e) in
      (mkQueueEtcd ({[ s ]} ∪ qe_issued e) ({[ s ]} ∪ qe_live e) (qe_queue e) rest, Ok s);
  el_Campaign e s v :=
    if decide (s ∈ qe_live e) then
      (qe_join e s v, if decide (qe_holder (qe_join e s v) = Some s) then Some None else None)
    else (e, Some (Some (Errorf "requested lease not found")));
  el_Resign e s :=
    (mkQueueEtcd ({[ s ]} ∪ qe_issued e) (qe_live e) (filter (λ x, x.1 ≠ s) (qe_queue e)) (qe_refusals e), None);
  el_Done e s := bool_decide (s ∉ qe_live e);
  el_expire e s := mkQueueEtcd ({[ s ]} ∪ qe_issued e) (qe_live e ∖ {[ s ]}) (qe_queue e) (qe_refusals e)
|}.

(** The first element that satisfies a condition also is the first one of a
    stronger condition, if it satisfies it. *)
Lemma head_filter_stronger {A} (P Q : A → Prop) `{!∀ x, Decision (P x), !∀ x, Decision (Q x)} (l : list A) x :
  (∀ y, Q y → P y) → Q x → head (filter P l) = Some x → head (filter Q l) = Some x.
Proof.
  intros HQ Hx. induction l as [|y l IH]; [done|]. rewrite !filter_cons. destruct (decide (P y)) as [Hp|Hp]; cbn.
  - intros [= ->]. by rewrite decide_True.
  - rewrite (decide_False (P := Q y)) by auto. done.
Qed.

Lemma filter_agree {A} (P Q : A → Prop) `{!∀ x, Decision (P x), !∀ x, Decision (Q x)} (l : list A) :
  (∀ x, x ∈ l → P x ↔ Q x) → filter P l = filter Q l.
Proof.
  induction l as [|x l IH]; intros HPQ; [done|]. rewrite !filter_cons, IH by (intros; apply HPQ; by right).
  specialize (HPQ x (list_elem_of_here _ _)). repeat case_decide; tauto.
Qed.

Lemma head_filter_app {A} (P : A → Prop) `{!∀ x, Decision (P x)} (l k : list A) x :
  head (filter P l) = Some x → head (filter P (l ++ k)) = Some x.
Proof. intros Hh. rewrite filter_app. by destruct (filter P l). Qed.

Lemma qe_holder_Some e s :
  qe_holder e = Some s ↔ ∃ v, head (filter (λ x : Z * string, x.1 ∈ qe_live e) (qe_queue e)) = Some (s, v).
Proof.
  unfold qe_holder. rewrite fmap_Some. split; [intros ([s' v] & E & ->); eauto|intros [v E]; by exists (s, v)].
Qed.

#[global] Instance QueueEtcd_ElectionLaws : ElectionLaws QueueEtcd.
Proof.
  refine {| el_issued e s := s ∈ qe_known e; el_live e s := s ∈ qe_live e; el_holder := qe_holder |}.
  - intros e. cbn. destruct (default false (head (qe_refusals e))); cbn; [by split|].
    pose proof (is_fresh (qe_known e)) as Hf. set (s := fresh (qe_known e)) in *. split.
    + split_and!; [unfold qe_known in *; cbn; set_solver|unfold qe_known in *; cbn in *; set_solver|].
      intros t (v & E)%qe_holder_Some Ht. cbn in Ht. apply qe_holder_Some. exists v. cbn.
      rewrite <- E. f_equal. apply filter_agree. intros x Hx. cbn. split; [|set_solver].
      intros [Hs%elem_of_singleton|Hs]%elem_of_union; [|done]. destruct Hf. unfold qe_known. rewrite <- Hs.
      rewrite !elem_of_union, elem_of_list_to_set. right. apply list_elem_of_fmap. by exists x.
    + intros t [= <-]. split; [done|]. unfold qe_known. cbn. set_solver.
  - intros e s v. cbn. destruct (decide (s ∈ qe_live e)) as [Hs|Hs]; cbn.
    + split_and!; [| |done].
      * split_and!; [|done|].
        -- intros t. unfold qe_known, qe_join. cbn. case_decide; set_solver.
        -- intros t (u & Et)%qe_holder_Some _. apply qe_holder_Some. exists u. cbn. case_decide; [done|].
           by apply head_filter_app.
      * by case_decide.
    + split_and!; [done|done|eauto].
  - intros e s. cbn. split_and!.
    + intros t. unfold qe_known. cbn. rewrite !elem_of_union, !elem_of_list_to_set, !list_elem_of_fmap.
      intros [[?|?]|([t' v] & -> & Hx)]; [by left; left; right|by left; right|].
      cbn. destruct (decide (t' = s)) as [->|Hne]; [left; left; left; by apply elem_of_singleton|].
      right. exists (t', v). split; [done|]. by apply list_elem_of_filter.
    + done.
    + intros t Hne (v & Et)%qe_holder_Some Hl. apply qe_holder_Some. exists v. cbn. rewrite list_filter_filter.
      eapply head_filter_stronger; [| |exact Et]; [by intros y [? _]|]. cbn. split; [|done].
      assert ((t, v) ∈ filter (λ x : Z * string, x.1 ∈ qe_live e) (qe_queue e)) as Hin
        by (by apply head_Some_elem_of). by apply list_elem_of_filter in Hin as [? _].
  - intros e s. split_and!; cbn.
    + intros t. unfold qe_known. cbn [qe_issued qe_live qe_queue].
      rewrite !elem_of_union, elem_of_difference, elem_of_singleton. destruct (decide (t = s)); tauto.
    + intros t _. rewrite elem_of_difference. tauto.
    + intros t (v & Et)%qe_holder_Some Hl. cbn in Hl. apply qe_holder_Some. exists v. cbn.
      eapply head_filter_stronger; [|exact Hl|exact Et]. intros y. rewrite elem_of_difference. tauto.
Defined.

(** ** Examples *)

Definition demo_election : QueueEtcd := mkQueueEtcd ∅ ∅ [] [false; false; true].

(** A step of the group, computed. *)
Definition turn (n : string) (g : Group QueueEtcd) : Group QueueEtcd :=
  match gr_nodes g !! n with
  | Some le => let '(e, le) := LeaderElection_runElection true (gr_etcd g) le in mkGroup e (<[n := le]> (gr_nodes g))
  | None =>
      match LeaderElection_Start (gr_etcd g) n with
      | (e, Ok le) => mkGroup e (<[n := le]> (gr_nodes g))
      | (e, Error _) => mkGroup e (gr_nodes g)
      end
  end.

Lemma turn_step n g : group_step g (turn n g).
Proof.
  unfold turn. destruct g as [e nodes]. cbn. destruct (nodes !! n) as [le|] eqn:En.
  - destruct (LeaderElection_runElection true e le) as [e' le'] eqn:Er. by eapply gs_run.
  - destruct (LeaderElection_Start e n) as [e' [le|err]] eqn:Es; [by apply gs_start|by eapply gs_start_failed].
Qed.

Definition expire (s : Z) (g : Group QueueEtcd) : Group QueueEtcd := mkGroup (el_expire (gr_etcd g) s) (gr_nodes g).

(** A step of [Stop]. *)
Definition stop_turn_of (n : string) (g : Group QueueEtcd) : Group QueueEtcd :=
  match gr_nodes g !! n with
  | Some le => let '(e, le) := LeaderElection_Stop true (gr_etcd g) le in mkGroup e (<[n := le]> (gr_nodes g))
  | None => g
  end.

Lemma stop_turn_step n g : rtc group_step g (stop_turn_of n g).
Proof.
  unfold stop_turn_of. destruct g as [e nodes]. cbn. destruct (nodes !! n) as [le|] eqn:En; [|apply rtc_refl].
  destruct (LeaderElection_Stop true e le) as [e' le'] eqn:Er. by eapply rtc_once, gs_stop.
Qed.

(** ["m1"] leads and ["m2"] campaigns; then ["m1"] is stopped, gives the leadership
    up, and ["m2"] wins it before ["m1"] clears its flag. *)
Definition demo_led : Group QueueEtcd := Nat.iter 3 (turn "m2") (Nat.iter 4 (turn "m1") (mkGroup demo_election ∅)).
Definition demo_resigning : Group QueueEtcd := Nat.iter 4 (stop_turn_of "m1") demo_led.
Definition demo_two : Group QueueEtcd := Nat.iter 2 (turn "m2") demo_resigning.
Definition demo_session : Z := default 0 (LE_session <$> gr_nodes demo_led !! "m1").

Lemma turns_reach k n g : rtc group_step g (Nat.iter k (turn n) g).
Proof. induction k as [|k IH]; [apply rtc_refl|]. eapply rtc_r; [exact IH|apply turn_step]. Qed.

Lemma stop_turns_reach k n g : rtc group_step g (Nat.iter k (stop_turn_of n) g).
Proof. induction k as [|k IH]; [apply rtc_refl|]. etrans; [exact IH|apply stop_turn_step]. Qed.

Lemma demo_led_reach : rtc group_step (mkGroup demo_election ∅) demo_led.
Proof. etrans; apply turns_reach. Qed.

Lemma demo_two_reach : rtc group_step (mkGroup demo_election ∅) demo_two.
Proof.
  etrans; [apply demo_led_reach|]. etrans; [|apply turns_reach]. unfold demo_resigning.
  apply stop_turns_reach.
Qed.

(** What a node of an example is. *)
Definition node_view (g : Group QueueEtcd) (n : string) : option (bool * bool * bool) :=
  (λ l, (LE_isLeader l, bool_decide (LE_session l ∈ qe_live (gr_etcd g)), LE_resigned l)) <$> gr_nodes g !! n.

Lemma leader_view g n r : node_view g n = Some (true, true, r) →
  ∃ le, gr_nodes g !! n = Some le ∧ LeaderElection_IsLeader le = true ∧ el_live (gr_etcd g) (LE_session le) ∧
    LE_resigned le = r.
Proof.
  unfold node_view. destruct (gr_nodes g !! n) as [le|]; [|done]. intros [= H1 H2%bool_decide_eq_true H3].
  by exists le.
Qed.

Lemma demo_two_views :
  node_view demo_two "m1" = Some (true, true, true) ∧ node_view demo_two "m2" = Some (true, true, false).
Proof. split; vm_compute; reflexivity. Qed.

(** Two leaders under live leases: [resignLeadership] tells the service first and
    clears [isLeader] afterwards, so the next leader can be elected while the old
    one still answers that it is the leader. *)
Lemma resigning_leader_overlaps :
  ∃ g le1 le2, rtc group_step (mkGroup demo_election ∅) g ∧
    gr_nodes g !! "m1" = Some le1 ∧ LeaderElection_IsLeader le1 = true ∧ el_live (gr_etcd g) (LE_session le1) ∧
    gr_nodes g !! "m2" = Some le2 ∧ LeaderElection_IsLeader le2 = true ∧ el_live (gr_etcd g) (LE_session le2) ∧
    LE_resigned le2 = false.
Proof.
  destruct demo_two_views as [(le1 & E1 & H1 & L1 & _)%leader_view (le2 & E2 & H2 & L2 & R2)%leader_view].
  exists demo_two, le1, le2. split_and!; [apply demo_two_reach|done..].
Qed.

Lemma one_live_leader_witness :
  ∃ le1 le2, gr_nodes demo_two !! "m1" = Some le1 ∧ gr_nodes demo_two !! "m2" = Some le2 ∧
    ((LE_cancelled le1 = true ∧ LE_resigned le1 = true) ∨ (LE_cancelled le2 = true ∧ LE_resigned le2 = true)).
Proof.
  destruct demo_two_views as [(le1 & E1 & H1 & L1 & _)%leader_view (le2 & E2 & H2 & L2 & _)%leader_view].
  exists le1, le2. split_and!; [done..|].
  by apply (one_live_leader demo_election demo_two "m1" "m2" le1 le2 demo_two_reach E1 H1 L1 E2 H2 L2).
Defined.

Lemma led_view (o : option LeaderElection) le s :
  o = Some le → (λ l, (LE_pc l, LE_cancelled l, LE_session l)) <$> o = Some (Leading, false, s) →
  LE_pc le = Leading ∧ LE_cancelled le = false ∧ LE_session le = s.
Proof. intros -> H. by injection H. Qed.

Lemma failed_renewal_is_final_witness :
  let g := expire demo_session demo_led in
  ∃ le, gr_nodes g !! "m1" = Some le ∧
    let '(e1, le1) := LeaderElection_runElection true (gr_etcd g) le in
    ∃ le', gr_nodes (turn "m1" (mkGroup e1 (<["m1" := le1]> (gr_nodes g)))) !! "m1" = Some le' ∧
      LeaderElection_IsLeader le' = false.
Proof.
  intros g. destruct (gr_nodes g !! "m1") as [le|] eqn:E1; [|by vm_compute in E1].
  exists le. split; [done|].
  assert (rtc group_step (mkGroup demo_election ∅) g) as Hr.
  { eapply rtc_r; [apply demo_led_reach|]. unfold g. destruct demo_led as [e nodes]. apply gs_expire. }
  assert (LE_pc le = Leading ∧ LE_cancelled le = false ∧ LE_session le = demo_session) as (H1 & H2 & H3).
  { assert ((λ l, (LE_pc l, LE_cancelled l, LE_session l)) <$> gr_nodes g !! "m1" =
      Some (Leading, false, demo_session)) as H by (vm_compute; reflexivity).
    exact (led_view _ _ _ E1 H). }
  assert (el_Done (gr_etcd g) (LE_session le) = true) as H4 by (rewrite H3; by vm_compute).
  assert (¬ el_live (gr_etcd g) (LE_session le)) as H5
    by (rewrite H3; change (demo_session ∉ qe_live (gr_etcd g)); apply (bool_decide_unpack _); vm_compute; exact I).
  assert ((el_NewSession (gr_etcd g)).2 = Error (Errorf "unavailable")) as H6 by (by vm_compute).
  pose proof (failed_renewal_is_final demo_election g) as Hf.
  destruct (LeaderElection_runElection true (gr_etcd g) le) as [e1 le1] eqn:Er.
  specialize (Hf (turn "m1" (mkGroup e1 (<["m1" := le1]> (gr_nodes g)))) "m1" true le _ Hr E1 H1 H2 H4 H5 H6).
  rewrite Er in Hf. apply Hf, rtc_once, turn_step.
Defined.
