(* ===== verification/MetaLifecycle.v ===== *)
(** * The life of a metadata server

    [NewEtcdStore] and [Close] of [src/pkg/metadata/etcd.go], the start, the stop
    and the route subscriptions of [src/pkg/metadata/server.go], and the start and
    stop of the HA server of [ha_server.go] and [leader.go].

    A subscription is a goroutine that reads the subscriber's channel of the router
    and writes to a gRPC stream; the tables the watch delivers to the router arrive
    in between, in any order. *)

From S2P Require Import Prelude Engine CommandLog Proto Partitions Replicator StorageServer Replication HashRing MetaStore MetaRouter MetaServer NodeLifecycle Leader.

(** ** Connecting to etcd *)

(** Durations are in seconds. *)
Record EtcdConfig := mkEtcdConfig {
  EC_Endpoints : list string;
  EC_DialTimeout : Z;
  EC_Username : string;
  EC_Password : string
}.

Definition DefaultEtcdConfig : EtcdConfig := mkEtcdConfig ["localhost:2379"%string] 5 "" "".

(** What etcd answers to a new client. *)
Record EtcdDial (E : Type) := mkEtcdDial {
  ed_New : EtcdConfig → option E;
  ed_Status : string → bool;
  ed_NewSession : bool
}.
Arguments mkEtcdDial {E} _ _ _.
Arguments ed_New {E} _ _.
Arguments ed_Status {E} _ _.
Arguments ed_NewSession {E} _.

(** The client, the session of the lock, and the compaction goroutine. *)
Record EtcdHandles := mkEtcdHandles { eh_client : bool; eh_session : bool; eh_compact : bool }.

#[global] Instance EtcdHandles_eq_dec : EqDecision EtcdHandles.
Proof. solve_decision. Defined.

(** [config.Endpoints[0]] of an empty list panics. *)
Definition NewEtcdStore {E} (config : option EtcdConfig) (d : EtcdDial E) :
    outcome (EtcdHandles * (goerr + E)) :=
  let config := default DefaultEtcdConfig config in
  let closed := mkEtcdHandles false false false in
  match ed_New d config with
  | None => Ret (closed, inl (Errorf "failed to connect to etcd"))
  | Some client =>
      match EC_Endpoints config with
      | [] => Panic
      | endpoint :: _ =>
          if negb (ed_Status d endpoint) then Ret (closed, inl (Errorf "failed to verify etcd connection"))
          else if negb (ed_NewSession d) then Ret (closed, inl (Errorf "failed to create etcd session"))
          else Ret (mkEtcdHandles true true true, inr client)
      end
  end.

(** The context of the compaction is never cancelled. *)
Definition EtcdStore_Close (h : EtcdHandles) : EtcdHandles := mkEtcdHandles false false (eh_compact h).

(** ** The server *)

Record MetadataConfig := mkMetadataConfig {
  MDC_NodeID : string;
  MDC_ListenAddr : string;
  MDC_Etcd : option EtcdConfig
}.

Definition DefaultMetadataConfig : MetadataConfig :=
  mkMetadataConfig "metadata-1" ":9000" (Some DefaultEtcdConfig).

Section MetadataServer.
  Context {St : Type} `{Store St}.

(** [subscribers] is only ever written. *)
Record MetadataServer := mkMetadataServer {
  MD_config : MetadataConfig;
  MD_router : @Router St;
  MD_handles : EtcdHandles;
  MD_subscribers : gset string;
  MD_serving : bool
}.

Definition MD_set_router (s : MetadataServer) (r : @Router St) : MetadataServer :=
  mkMetadataServer (MD_config s) r (MD_handles s) (MD_subscribers s) (MD_serving s).
Definition MD_set_subscribers (s : MetadataServer) (m : gset string) : MetadataServer :=
  mkMetadataServer (MD_config s) (MD_router s) (MD_handles s) m (MD_serving s).

Definition NewMetadataServer (config : option MetadataConfig) (d : EtcdDial St) :
    outcome (EtcdHandles * (goerr + MetadataServer)) :=
  let config := default DefaultMetadataConfig config in
  '(h, res) ← NewEtcdStore (MDC_Etcd config) d;
  Ret (h, match res with
          | inl _ => inl (Errorf "failed to initialize etcd store")
          | inr store => inr (mkMetadataServer config (NewRouter store) h ∅ false)
          end).

(** [Start] up to [Serve]. *)
Definition MetadataServer_Start (s : MetadataServer) (listen : option goerr) : MetadataServer * option goerr :=
  match Router_Start (MD_router s) with
  | (r, Some _) => (MD_set_router s r, Some (Errorf "failed to start router"))
  | (r, None) =>
      let s := MD_set_router s r in
      match listen with
      | Some _ => (s, Some (Errorf "failed to listen"))
      | None => (mkMetadataServer (MD_config s) (MD_router s) (MD_handles s) (MD_subscribers s) true, None)
      end
  end.

Definition MetadataServer_Stop (s : MetadataServer) : MetadataServer :=
  mkMetadataServer (MD_config s) (MD_router s) (EtcdStore_Close (MD_handles s)) (MD_subscribers s) false.

(** [InitializeCluster] places the partitions whatever the state of the cluster. *)
Definition MetadataServer_InitializeCluster (s : MetadataServer) : MetadataServer * option goerr :=
  let '(r, err) := Router_InitializePartitions (MD_router s) in (MD_set_router s r, err).

(** ** Subscriptions *)

(** [SubscribeRouteUpdates] up to its loop: a failure to send the first table is
    only logged.  The second result is what was sent. *)
Definition subscribe_open (s : MetadataServer) (nodeID : string) (send_ok : bool) :
    MetadataServer * list RouteTable :=
  let s := MD_set_subscribers s ({[ nodeID ]} ∪ MD_subscribers s) in
  let table := Router_GetRouteTable (MD_router s) in
  (MD_set_router s (Router_Subscribe (MD_router s) nodeID), if send_ok then [table] else []).

(** What a turn of the loop meets: the stream's context is done, or the channel is
    ready (a table, whose send succeeds or fails, or the end of the channel). *)
Inductive sub_input := CtxDone | ChanReady (send_ok : bool).

(** A turn: the tables sent, and whether the loop goes on.  Only the first exit
    forgets the entry of [subscribers]. *)
Definition subscribe_turn (s : MetadataServer) (nodeID : string) (input : sub_input) :
    MetadataServer * list RouteTable * bool :=
  match input with
  | CtxDone =>
      let s := MD_set_subscribers s (MD_subscribers s ∖ {[ nodeID ]}) in
      (MD_set_router s (Router_Unsubscribe (MD_router s) nodeID), [], false)
  | ChanReady send_ok =>
      match R_subscribers (MD_router s) !! nodeID with
      | None => (MD_set_router s (Router_Unsubscribe (MD_router s) nodeID), [], false)
      | Some _ =>
          match Router_receive (MD_router s) nodeID with
          | (_, None) => (s, [], true)
          | (r, Some update) =>
              if send_ok then (MD_set_router s r, [update], true)
              else (MD_set_router s (Router_Unsubscribe r nodeID), [], false)
          end
      end
  end.

(** The life of a subscription between its opening and its end: tables that the
    watch delivers, and turns of its loop. *)
Inductive feed := Watched (table : RouteTable) | Turn.

Fixpoint subscribe_run (s : MetadataServer) (nodeID : string) (fs : list feed) : MetadataServer * list RouteTable :=
  match fs with
  | [] => (s, [])
  | Watched table :: fs => subscribe_run (MD_set_router s (Router_watch (MD_router s) table)) nodeID fs
  | Turn :: fs =>
      let '(s, sent, _) := subscribe_turn s nodeID (ChanReady true) in
      let '(s, rest) := subscribe_run s nodeID fs in (s, sent ++ rest)%list
  end.

Definition watched (fs : list feed) : list RouteTable :=
  omap (λ f, match f with Watched t => Some t | Turn => None end) fs.

(** The most tables that wait in a channel of [n] during a run. *)
Fixpoint peak (n : nat) (fs : list feed) : nat :=
  match fs with
  | [] => n
  | Watched _ :: fs => peak (S n) fs
  | Turn :: fs => n `max` peak (pred n) fs
  end.
End MetadataServer.

Arguments MetadataServer St : clear implicits.

(** ** What a subscriber receives *)

Section subscription.
  Context {St : Type} `{Store St}.
Implicit Types (s : MetadataServer St).

Lemma peak_ge fs n : (n ≤ peak n fs)%nat.
Proof. revert n. induction fs as [|[t|] fs IH]; intros n; cbn; [lia| |lia]. specialize (IH (S n)). lia. Qed.

(** While the channel does not fill up, what was sent and what waits is what
    waited and what was watched. *)
Lemma subscribe_run_sent fs s id ch :
  R_subscribers (MD_router s) !! id = Some ch → (peak (length ch) fs ≤ SubscriberBuffer)%nat →
  let '(s', sent) := subscribe_run s id fs in
  ∃ ch', R_subscribers (MD_router s') !! id = Some ch' ∧ (sent ++ ch' = ch ++ watched fs)%list ∧
    R_routeTable (MD_router s') = default (R_routeTable (MD_router s)) (last (watched fs)).
Proof.
  revert s ch. induction fs as [|[t|] fs IH]; intros s ch Hch Hp; cbn [subscribe_run peak] in *.
  - exists ch. by rewrite app_nil_r.
  - pose proof (peak_ge fs (S (length ch))) as Hge.
    specialize (IH (MD_set_router s (Router_watch (MD_router s) t)) (ch ++ [t])%list). cbn in IH.
    rewrite lookup_fmap, Hch, length_app, Nat.add_1_r in IH. cbn in IH. unfold try_send in IH.
    rewrite decide_True in IH by lia. specialize (IH eq_refl Hp).
    destruct (subscribe_run _ id fs) as [s' sent]. destruct IH as (ch' & H1 & H2 & H3). exists ch'.
    change (watched (Watched t :: fs)) with (t :: watched fs). rewrite last_cons.
    split_and!; [done|by rewrite H2, <- app_assoc|]. rewrite H3. by destruct (last (watched fs)).
  - unfold subscribe_turn, Router_receive. rewrite Hch. destruct ch as [|t ch].
    + specialize (IH s [] Hch ltac:(cbn in *; lia)). destruct (subscribe_run s id fs) as [s' sent].
      exact IH.
    + specialize (IH (MD_set_router s (R_set_subscribers (MD_router s) (<[id := ch]> (R_subscribers (MD_router s))))) ch).
      cbn [MD_router MD_set_router R_subscribers R_set_subscribers] in IH. rewrite lookup_insert_eq in IH.
      specialize (IH eq_refl ltac:(cbn in Hp; lia)). destruct (subscribe_run _ id fs) as [s' sent].
      destruct IH as (ch' & H1 & H2 & H3). exists ch'. split_and!; [done| |done]. cbn. by rewrite H2.
Qed.

(** The messages of the stream. *)
Definition stream_of (sent : list RouteTable) : list sub_event :=
  (λ t, StreamUpdate (sendRouteUpdate t).2) <$> sent.

Lemma received_stream sent : received (stream_of sent) = (λ t, (sendRouteUpdate t).2) <$> sent.
Proof. induction sent as [|t sent IH]; [done|]. cbn. f_equal. exact IH. Qed.
End subscription.

(** C19: a storage node that subscribes ends up with the partitions of the metadata
    router's table.  Whatever tables the watch delivers to the router while the
    subscription runs, and however its loop is scheduled, as long as no more than
    ten tables wait and all of them have been forwarded, the new node that applied
    the stream hosts exactly the partitions that the router's current table gives
    it, with its lease untouched. *)
Theorem subscriber_hosts_current_table {D N St} `{Engine D, Network N, Store St}
    (md : MetadataServer St) id fs md1 sent0 md2 sent config env (n : Node D) (net : N) renv addr :
  subscribe_open md id true = (md1, sent0) → subscribe_run md1 id fs = (md2, sent) →
  (peak 1 fs ≤ SubscriberBuffer)%nat → R_subscribers (MD_router md2) !! id = Some [] →
  Forall ids_ok (R_routeTable (MD_router md) :: watched fs) →
  NewServer config env = Booted n → advertised (STC_ListenAddr (ND_config n)) = Ret addr →
  let n := mkNode (ND_config n) (ND_server n) (ND_handles n) true (ND_serving n) in
  ∃ srv net', Server_subscribeRouteUpdates n net renv (stream_of (sent0 ++ sent)%list) =
      Ret (ND_set_server n srv, net') ∧
    keeps_lease (ND_server n) srv ∧
    hosts_exactly srv addr (sendRouteUpdate (R_routeTable (MD_router md2))).2.
Proof.
  intros Hopen Hrun Hp Hdone Hids Hboot Ha. unfold subscribe_open in Hopen. injection Hopen as <- <-.
  cbn [MD_router MD_set_subscribers Router_GetRouteTable] in *. set (cur := R_routeTable (MD_router md)) in *.
  set (md1 := MD_set_router _ _) in Hrun.
  assert (R_subscribers (MD_router md1) !! id = Some [cur]) as Hch1 by apply lookup_insert_eq.
  pose proof (subscribe_run_sent fs md1 id [cur] Hch1 Hp) as Hs. rewrite Hrun in Hs. destruct Hs as (ch' & Hch & Hsent & Htab). rewrite Hdone in Hch. simplify_eq.
  rewrite app_nil_r in Hsent. cbn in Hsent. subst sent.
  destruct (booted_follows config env n net renv (stream_of (cur :: cur :: watched fs)) addr Hboot Ha)
    as (srv & net' & Hr & Hk & Hh).
  - rewrite received_stream. apply Forall_fmap. apply Forall_cons in Hids as [Hc Hw].
    rewrite !Forall_cons. split_and!; [by apply sendRouteUpdate_ids..|].
    eapply Forall_impl; [exact Hw|]. intros t. apply sendRouteUpdate_ids.
  - exists srv, net'. split_and!; [exact Hr|exact Hk|]. rewrite received_stream, fmap_last, !last_cons in Hh.
    rewrite Htab. destruct (last (watched fs)); exact Hh.
Qed.

Lemma subscriber_hosts_current_table_witness :
  let md := mkMetadataServer DefaultMetadataConfig demo_router (mkEtcdHandles true true true) ∅ true in
  let cfg := mkStorageConfig "n" "A" "m" ["e"%string] None "/s" "/l" in
  ∃ (n : Node MemDB) srv net', NewServer (Some cfg) demo_boot = Booted n ∧
    Server_subscribeRouteUpdates (mkNode (ND_config n) (ND_server n) (ND_handles n) true (ND_serving n)) tt
      (demo_route_env 1) (stream_of ((subscribe_open md "n" true).2 ++
        (subscribe_run (subscribe_open md "n" true).1 "n" [Turn; Watched demo_table; Turn]).2)%list) =
      Ret (ND_set_server (mkNode (ND_config n) (ND_server n) (ND_handles n) true (ND_serving n)) srv, net') ∧
    is_Some (PM_partitions (S_pm srv) !! 2).
Proof.
  intros md cfg.
  destruct (NewServer (Some cfg) demo_boot) as [n|err h] eqn:E; [|by vm_compute in E].
  assert (STC_ListenAddr (ND_config n) = "A") as Hl by (vm_compute in E; by simplify_eq).
  destruct (subscriber_hosts_current_table md "n" [Turn; Watched demo_table; Turn] _ _ _ _ (Some cfg) demo_boot n tt
    (demo_route_env 1) "A" (surjective_pairing _) (surjective_pairing _)) as (srv & net' & Hr & _ & Hh).
  - vm_compute. lia.
  - vm_compute. reflexivity.
  - constructor; [apply map_Forall_empty|]. constructor; [|constructor].
    apply (bool_decide_unpack _). vm_compute. exact I.
  - exact E.
  - by rewrite Hl.
  - exists n, srv, net'. split_and!; [reflexivity|exact Hr|]. apply Hh. vm_compute. by eexists.
Defined.

(** ** The HA server *)

Record HAServerConfig := mkHAServerConfig { HAC_ServerConfig : MetadataConfig; HAC_HAEnabled : bool }.

Definition DefaultHAServerConfig : HAServerConfig := mkHAServerConfig DefaultMetadataConfig false.

(** [NewLeaderElection]: [None] is success, with a client. *)
Definition NewLeaderElection (nodeID : string) (config : option EtcdConfig) (dial : EtcdConfig → bool) : option goerr :=
  if decide (nodeID = "") then Some (Errorf "node ID cannot be empty")
  else if dial (default DefaultEtcdConfig config) then None
  else Some (Errorf "failed to connect to etcd").

Section HA.
  Context {St E : Type} `{Store St, Election E}.

(** The embedded server, the state of the HA checks, and whether the client of the
    election is open. *)
Record HANode := mkHANode { HN_server : MetadataServer St; HN_ha : HAServer; HN_client : bool }.

(** When the election cannot be made the embedded server is stopped. *)
Definition NewHAServer (config : option HAServerConfig) (d : EtcdDial St) (dial : EtcdConfig → bool) :
    outcome (EtcdHandles * (goerr + HANode)) :=
  let config := default DefaultHAServerConfig config in
  '(h, res) ← NewMetadataServer (Some (HAC_ServerConfig config)) d;
  match res with
  | inl err => Ret (h, inl err)
  | inr server =>
      let id := MDC_NodeID (HAC_ServerConfig config) in
      if HAC_HAEnabled config then
        match NewLeaderElection id (MDC_Etcd (HAC_ServerConfig config)) dial with
        | Some _ => Ret (MD_handles (MetadataServer_Stop server), inl (Errorf "failed to create leader election"))
        | None => Ret (h, inr (mkHANode server (mkHAServer id true None false) true))
        end
      else Ret (h, inr (mkHANode server (mkHAServer id false None true) false))
  end.

(** [Start]: the election is started and awaited first; [polls] is what
    [WaitForLeader] sees.  [None] while it waits. *)
Definition HAServer_Start (s : HANode) (e : E) (polls : list (result LeaderElection)) (listen : option goerr) :
    E * option (HANode * option goerr) :=
  let serve (s : HANode) :=
    let '(md, err) := MetadataServer_Start (HN_server s) listen in
    Some (mkHANode md (HN_ha s) (HN_client s), err) in
  if HA_haEnabled (HN_ha s) then
    match LeaderElection_Start e (HA_nodeID (HN_ha s)) with
    | (e, Error _) => (e, Some (s, Some (Errorf "failed to start leader election")))
    | (e, Ok le) =>
        let s := mkHANode (HN_server s) (HA_set_election (HN_ha s) le) (HN_client s) in
        (e, match LeaderElection_WaitForLeader polls with
            | None => None
            | Some (Some _) => Some (s, Some (Errorf "failed to wait for leader"))
            | Some None => serve s
            end)
    end
  else (e, serve s).

(** [Stop]: the election first, its client, then the server.  The election's [Stop]
    is taken up to its wait, with no step of the election's goroutine in between:
    [Leader] has the interleavings. *)
Definition HAServer_Stop (s : HANode) (e : E) : E * HANode :=
  let '(e, ha) :=
    match HA_election (HN_ha s) with
    | None => (e, HN_ha s)
    | Some le => let '(e, le) := Nat.iter 5 (λ '(e, le), LeaderElection_Stop true e le) (e, le) in (e, HA_set_election (HN_ha s) le)
    end in
  (e, mkHANode (MetadataServer_Stop (HN_server s)) ha false).

(** A server that was refused holds no client and no session. *)
Lemma NewHAServer_refused config d dial h err :
  NewHAServer config d dial = Ret (h, inl err) → eh_client h = false ∧ eh_session h = false.
Proof.
  unfold NewHAServer, NewMetadataServer, NewEtcdStore. intros Hn.
  repeat (case_match; simplify_eq/=); done.
Qed.

(** Until it has been started, an HA server refuses the writes that it checks, and a
    single server takes them. *)
Lemma NewHAServer_checks {A} config d dial h s (m : A) :
  NewHAServer config d dial = Ret (h, inr s) →
  HAServer_write (HN_ha s) m =
    if HAC_HAEnabled (default DefaultHAServerConfig config) then inl ""%string else inr m.
Proof.
  unfold NewHAServer. destruct (NewMetadataServer _ _) as [[h1 [err|server]]| |]; cbn [mbind outcome_bind]; try done.
  intros Hn. repeat (case_match; simplify_eq/=); done.
Qed.
End HA.

(** [-init] of the metadata program calls [InitializeCluster] before the server
    serves: with no node in the store it fails, however long it has waited. *)
Lemma init_before_serving {St} `{StoreLaws St} (md : MetadataServer St) :
  store_ok (R_store (MD_router md)) → storage_nodes (store_view (R_store (MD_router md))) = [] →
  ∃ err, (MetadataServer_InitializeCluster md).2 = Some err.
Proof.
  intros Hok Hn. unfold MetadataServer_InitializeCluster, Router_InitializePartitions.
  pose proof (ListNodes_storage (R_store (MD_router md)) Hok) as Hl.
  destruct (ListNodes _ _) as [s1 [nodes|err]]; destruct Hl as (_ & _ & Hl); [|by eexists].
  specialize (Hl nodes eq_refl). rewrite Hn in Hl. apply Permutation_nil_r in Hl as ->. by eexists.
Qed.

(** And on a cluster that runs it succeeds and replaces the table by a new
    allocation, every epoch back at 1, whatever the state of the cluster. *)
Lemma init_resets_table {St} `{StoreLaws St} (md md' : MetadataServer St) :
  store_ok (R_store (MD_router md)) → MetadataServer_InitializeCluster md = (md', None) →
  ∃ ring, sv_table (store_view (R_store (MD_router md'))) =
    next_table (store_view (R_store (MD_router md))) (mkRouteTable 1 (allocation ring)) ∧
  sv_cluster (store_view (R_store (MD_router md'))) = sv_cluster (store_view (R_store (MD_router md))).
Proof.
  intros Hok. unfold MetadataServer_InitializeCluster, Router_InitializePartitions.
  pose proof (ListNodes_storage (R_store (MD_router md)) Hok) as Hl.
  destruct (ListNodes _ _) as [s1 [nodes|err]]; destruct Hl as (Hok1 & Hv & _); [|done].
  destruct (len nodes <? MinReplicaNodes); [done|].
  pose proof (allocatePartitions_writes (R_set_store (MD_router md) s1) nodes Hok1) as Ha.
  destruct (Router_allocatePartitions _ nodes) as [r [err|]]; [done|]. intros [= <-].
  destruct Ha as (_ & [Hw _] & _). specialize (Hw eq_refl). cbn [R_store MD_router MD_set_router R_set_store fst] in *.
  rewrite Hw, Hv. exists (build_ring (NI_Addr <$> nodes)). split; reflexivity.
Qed.
