(* ===== verification/Programs.v ===== *)
(** * The server programs

    [main] and [loadConfig] of [src/cmd/storage/main.go], [src/cmd/metadata/main.go]
    and [src/cmd/compute/main.go]: from the configuration file to the server and its
    stop.  The configuration library is the class [Viper]; the metrics endpoint and
    the logger are left out. *)

From S2P Require Import Prelude Engine CommandLog Proto Partitions Replicator StorageServer Replication HashRing MetaStore MetaRouter MetaServer NodeLifecycle ComputeRouter ComputeServer Leader MetaLifecycle.

#[local] Open Scope string_scope.
#[local] Open Scope Z_scope.

(** ** Configuration files *)

Inductive vvalue := VString (s : string) | VInt (n : Z) | VBool (b : bool) | VStrings (l : list string).

Inductive read_error := ConfigFileNotFound | ReadFailed.

(** Durations are in seconds. *)
Class Viper (V : Type) := {
  SetConfigFile : V → string → V;
  SetConfigType : V → string → V;
  SetDefault : V → string → vvalue → V;
  ReadInConfig : V → V * option read_error;
  AutomaticEnv : V → V;
  GetString : V → string → string;
  GetInt : V → string → Z;
  GetInt64 : V → string → Z;
  GetUint64 : V → string → Z;
  GetDuration : V → string → Z;
  GetBool : V → string → bool;
  GetStringSlice : V → string → list string
}.

Section Load.
  Context {V : Type} `{Viper V}.

(** How the three functions start: the file, the defaults, the reading, in which a
    missing file is no error, and the environment. *)
Definition load_viper (v : V) (path : string) (defaults : list (string * vvalue)) : V * option goerr :=
  let v := SetConfigType (SetConfigFile v path) "yaml" in
  let v := foldl (λ v '(key, value), SetDefault v key value) v defaults in
  match ReadInConfig v with
  | (v, Some ReadFailed) => (v, Some (Errorf "error reading config file"))
  | (v, _) => (AutomaticEnv v, None)
  end.

Definition storage_defaults : list (string * vvalue) :=
  [("node_id", VString "storage-1"); ("listen_addr", VString ":9001"); ("metadata_addr", VString "localhost:9000");
   ("sst_dir", VString "/tmp/rockskv/sst"); ("rocksdb.data_dir", VString "/data/rockskv");
   ("rocksdb.wal_dir", VString "/data/rockskv/wal"); ("rocksdb.block_cache_size", VInt (512 * 1024 * 1024));
   ("rocksdb.write_buffer_size", VInt (64 * 1024 * 1024)); ("rocksdb.max_write_buffer_number", VInt 4);
   ("rocksdb.max_background_compactions", VInt 4); ("rocksdb.max_background_flushes", VInt 2);
   ("rocksdb.compression_type", VString "lz4")].

(** The fields the literal does not name are zero: the etcd endpoints, the directory
    of the command logs, two of RocksDB's sizes. *)
Definition storage_loadConfig (v : V) (path : string) : goerr + StorageConfig :=
  match load_viper v path storage_defaults with
  | (_, Some err) => inl err
  | (v, None) => inr (mkStorageConfig (GetString v "node_id") (GetString v "listen_addr") (GetString v "metadata_addr") []
      (Some (mkRocksDBConfig (GetString v "rocksdb.data_dir") (GetString v "rocksdb.wal_dir")
        (GetInt64 v "rocksdb.block_cache_size") (GetUint64 v "rocksdb.write_buffer_size")
        (GetInt v "rocksdb.max_write_buffer_number") (GetInt v "rocksdb.max_background_compactions")
        (GetInt v "rocksdb.max_background_flushes") 0 0 (GetString v "rocksdb.compression_type")))
      (GetString v "sst_dir") "")
  end.

Definition metadata_defaults : list (string * vvalue) :=
  [("node_id", VString "metadata-1"); ("listen_addr", VString ":9000"); ("etcd.endpoints", VStrings ["localhost:2379"]);
   ("etcd.dial_timeout", VString "5s"); ("ha_enabled", VBool false)].

Definition metadata_loadConfig (v : V) (path : string) : goerr + HAServerConfig :=
  match load_viper v path metadata_defaults with
  | (_, Some err) => inl err
  | (v, None) => inr (mkHAServerConfig (mkMetadataConfig (GetString v "node_id") (GetString v "listen_addr")
      (Some (mkEtcdConfig (GetStringSlice v "etcd.endpoints") (GetDuration v "etcd.dial_timeout")
        (GetString v "etcd.username") (GetString v "etcd.password")))) (GetBool v "ha_enabled"))
  end.

Definition compute_defaults : list (string * vvalue) :=
  [("node_id", VString "compute-1"); ("listen_addr", VString ":8000"); ("metadata_addr", VString "localhost:9000");
   ("pool.max_conns_per_host", VInt 10); ("pool.idle_timeout", VString "5m"); ("pool.dial_timeout", VString "5s");
   ("pool.keep_alive_time", VString "10s"); ("pool.keep_alive_timeout", VString "5s")].

(** A duration of zero is replaced. *)
Definition nonzero (d fallback : Z) : Z := if d =? 0 then fallback else d.

Definition compute_loadConfig (v : V) (path : string) : goerr + ServerConfig :=
  match load_viper v path compute_defaults with
  | (_, Some err) => inl err
  | (v, None) => inr (mkServerConfig (GetString v "node_id") (GetString v "listen_addr") (GetString v "metadata_addr")
      (Some (mkPoolConfig (GetInt v "pool.max_conns_per_host") (nonzero (GetDuration v "pool.idle_timeout") 300)
        (nonzero (GetDuration v "pool.dial_timeout") 5) (nonzero (GetDuration v "pool.keep_alive_time") 10)
        (nonzero (GetDuration v "pool.keep_alive_timeout") 5))))
  end.
End Load.

(** ** The programs *)

(** [logger.Fatal] ends a program at once; otherwise it runs until a signal or an
    error of [Start], and stops its server. *)
Inductive program (A : Type) := Fatal (err : goerr) | Stopped (served : option goerr) (state : A).
Arguments Fatal {A} _.
Arguments Stopped {A} _ _.

Definition storage_main {V D} `{Viper V, Engine D} (v : V) (path : string) (env : BootEnv D) (listen : option goerr) :
    program (Node D) :=
  match storage_loadConfig v path with
  | inl err => Fatal err
  | inr config =>
      match NewServer (Some config) env with
      | Refused err _ => Fatal err
      | Booted n => let '(n, err) := Server_Start n listen in Stopped err (Server_Stop n)
      end
  end.

Definition compute_main {V N} `{Viper V, StorageRPC N} (v : V) (path : string) (net : N) (dial : option goerr)
    (call : Z → option (option (Z * list PartitionInfo))) (listen : option goerr) : program (ComputeServer * N) :=
  match compute_loadConfig v path with
  | inl err => Fatal err
  | inr config =>
      let '(s, err) := ComputeServer_Start (NewComputeServer (Some config)) dial call listen in
      Stopped err (ComputeServer_Stop s net)
  end.

(** With [-init] the partitions are placed before the server starts. *)
Definition metadata_main {V St E} `{Viper V, Store St, Election E} (v : V) (path : string) (initCluster : bool)
    (d : EtcdDial St) (dial : EtcdConfig → bool) (e : E) (polls : list (result LeaderElection)) (listen : option goerr) :
    outcome (program (@HANode St)) :=
  match metadata_loadConfig v path with
  | inl err => Ret (Fatal err)
  | inr config =>
      '(_, res) ← NewHAServer (Some config) d dial;
      match res with
      | inl err => Ret (Fatal err)
      | inr s =>
          let '(md, failed) := if initCluster then MetadataServer_InitializeCluster (HN_server s) else (HN_server s, None) in
          let s := mkHANode md (HN_ha s) (HN_client s) in
          match failed with
          | Some err => Ret (Fatal err)
          | None =>
              match HAServer_Start s e polls listen with
              | (e, None) => Ret (Stopped None (HAServer_Stop s e).2)
              | (e, Some (s, err)) => Ret (Stopped err (HAServer_Stop s e).2)
              end
          end
      end
  end.

(** ** What the programs do *)

(** The storage program never serves.  Its configuration names neither the etcd
    endpoints, which [NewServer] requires, nor the directory of the command logs;
    so whatever the configuration file and the environment say, and whatever the
    world answers, the program ends with a fatal error before it has a server. *)
Lemma storage_program_never_serves {V D} `{Viper V, Engine D} (v : V) path (env : BootEnv D) listen :
  ∃ err, storage_main v path env listen = Fatal err.
Proof.
  unfold storage_main, storage_loadConfig. destruct (load_viper v path storage_defaults) as [v' [err|]]; [by eexists|].
  unfold NewServer. cbn [default STC_RocksDB STC_SSTDir STC_CommandLogDir].
  destruct (NewRocksDB _ _ _); [by eexists|]. destruct (negb _); [by eexists|]. destruct (negb _); [by eexists|].
  cbn. by eexists.
Qed.

(** The timeouts of the compute program's pool are never zero. *)
Lemma compute_timeouts_nonzero {V} `{Viper V} (v : V) path config :
  compute_loadConfig v path = inr config →
  ∃ pool, SC_Pool config = Some pool ∧ PC_DialTimeout pool ≠ 0 ∧ PC_KeepAliveTime pool ≠ 0 ∧
    PC_KeepAliveTimeout pool ≠ 0 ∧ PC_IdleTimeout pool ≠ 0.
Proof.
  unfold compute_loadConfig. destruct (load_viper _ _ _) as [v' [err|]]; [done|]. intros [= <-]. eexists. split; [done|].
  cbn. assert (∀ d f, f ≠ 0 → nonzero d f ≠ 0) as Hnz by (intros d f Hf; unfold nonzero; case_match; unbool; done).
  by split_and!; apply Hnz.
Qed.

(** The metadata program with [-init] on a new cluster: no node can have registered
    before the server serves, so the placement fails and the program ends. *)
Lemma metadata_init_is_fatal {V St E} `{Viper V, StoreLaws St, Election E} (v : V) path (d : EtcdDial St) dial (e : E)
    polls listen :
  (∀ config st, ed_New d config = Some st → store_ok st ∧ storage_nodes (store_view st) = []) →
  match metadata_main v path true d dial e polls listen with
  | Ret (Fatal _) | Panic => True
  | _ => False
  end.
Proof.
  intros Hempty. unfold metadata_main. destruct (metadata_loadConfig v path) as [|config]; [done|].
  destruct (NewHAServer (Some config) d dial) as [[h [err|s]]| |] eqn:Hn; cbn [mbind outcome_bind]; try done.
  - assert (∃ c st, ed_New d c = Some st ∧ R_store (MD_router (HN_server s)) = st) as (c & st & Hc & Hst).
    { unfold NewHAServer, NewMetadataServer, NewEtcdStore in Hn. cbn zeta in Hn.
      destruct (ed_New d _) as [st|] eqn:Hc; cbn in Hn; [|done]. eexists _, st. split; [exact Hc|].
      repeat (case_match; simplify_eq/=); done. }
    destruct (Hempty c st Hc) as [Hok Hnil]. rewrite <- Hst in Hok, Hnil.
    destruct (init_before_serving (HN_server s) Hok Hnil) as [err Herr].
    destruct (MetadataServer_InitializeCluster (HN_server s)) as [md failed]. cbn in Herr. by subst failed.
  - unfold NewHAServer, NewMetadataServer, NewEtcdStore in Hn. cbn zeta in Hn.
    repeat (case_match; simplify_eq/=); done.
Qed.
